(* ===== verification/_CoqProject ===== *)
-Q . S2P
Prelude.v
QuicError.v
Varint.v
PacketNumber.v
Frame.v
FrameProps.v
Packet.v
PacketProps.v
TransportParams.v
TransportParamsProps.v
Crypto.v
CryptoProps.v
KeyUpdate.v
KeyUpdateProps.v
Retry.v
RetryProps.v
FlowControl.v
Streams.v
StreamsProps.v
Reassembly.v
ReassemblyProps.v
StreamIo.v
StreamIoProps.v
StreamSendProps.v
AckTracking.v
AckTrackingProps.v
ConnIds.v
ConnIdsProps.v
Recovery.v
ConnRecovery.v
RecoveryProps.v
ConnRecoveryProps.v
Packing.v
PackingProps.v
Connection.v
ConnPaths.v
ConnHandshake.v
ConnReceive.v
ConnSend.v
ConnLifecycle.v
ConnFrame.v
ConnAmpProps.v
ConnSample.v
ConnCloseProps.v
ConnCryptoProps.v
ConnInitialProps.v
Endpoint.v
EndpointProps.v
Client.v
EndpointSample.v
Incremental.v
Text.v
TextProps.v
HttpError.v
H1Parser.v
H1Codec.v
H1ParserProps.v
H1CodecProps.v
H3Frame.v
H3FrameProps.v
H3Connection.v
H3Server.v
H3Props.v
H3MessageProps.v
H3Quic.v
H3Sample.v
Epoch.v
EpochProps.v
Ordering.v
MarkedPtr.v
SortedList.v
SortedListMem.v
SortedListInv.v
SortedListSteps.v
SortedListProps.v
Treap.v
TreapProps.v
CoopLock.v
CoopLockProps.v
CoopLockSample.v
