(* ===== verification/Prelude.v ===== *)
(** * A verification of starfish

    starfish is a set of Rust crates: an async reactor, a QUIC transport
    (starfish-quic), HTTP/1 and HTTP/3 over it (starfish-http), epoch-based
    reclamation (starfish-epoch) and lock-free collections (starfish-core).
    This library models the parts whose behaviour is decided by the crates
    themselves, and proves what makes them correct.  All paths below are
    relative to src/.

    ** Conventions

    A Rust function becomes a Rocq function.  Integers are [Z]; where the width
    matters the wrap-around, the saturation or the overflow check is written
    out ([add_u64], [saturating_sub], ...).  A fallible function returns
    [result]: [Ok] and [Err] as in Rust, [Panic] for an index out of range, a
    failed assertion or a checked overflow, [Diverge] for a loop whose fuel ran
    out.  A method with [&mut self] is a computation of the state monad [stM],
    which keeps the state on every exit.  Loops that are not structural take
    fuel computed from their input, and the totality theorems show that the
    fuel is enough: they exclude [Panic] and [Diverge].  Concurrent code
    is a step relation with one step for each access to shared memory.
    Code outside the repository (rustls, ring, the http crate, allocators)
    is a parameter of a Section or a record of operations, with its documented
    behaviour as a class of laws; the witnesses instantiate it.

    ** Wire formats (starfish-quic/src/packet, frame, crypto)

    - QuicError: error.rs.  Varint, PacketNumber: the integers of packet/mod.rs.
      [Codec] is the interface between the integers and the formats above them.
    - Frame, FrameProps: frame/*.rs.  Every frame is decoded to itself, and the
      decoder returns on every input, consuming at least a byte.
    - Packet, PacketProps: packet/header.rs and the packet formats.  Headers
      of arbitrary bytes never panic; packets round-trip to packet number and
      payload.
    - TransportParams(Props): the parameter blocks of packet/mod.rs.
    - Crypto(Props): header protection and AEAD sealing for any ciphers with the
      laws of [PacketKeyLaws] and [HeaderKeyLaws].
    - KeyUpdate(Props): sealing and opening in connection.rs composed from all of
      the above: a built packet is opened to its frames; a key update completes.
    - Retry(Props): packet/retry.rs; a token is accepted only if it was issued
      for the same address and has not expired.

    ** Streams (starfish-quic/src/transport, connection.rs)

    - FlowControl, Streams(Props): flow_control.rs and stream_manager.rs; the
      numbering and limits under every sequence of operations, and the list of
      acknowledged ranges as a set of bytes.
    - Reassembly(Props): the receive buffer as a partial map from offsets.
    - StreamIo(Props), StreamSendProps: [stream_send], [stream_recv] and the
      frame arms of [process_frame_from]; composed, the bytes written by the
      sender are the bytes read by the receiver for every order of the frames.
    - AckTracking(Props): the ranges behind ACK frames.
    - ConnIds(Props): connection_id.rs.

    ** Recovery and sending (starfish-quic/src/recovery, connection.rs)

    - Recovery(Props): RTT estimation, loss detection, NewReno; the packets
      declared lost are exactly those RFC 9002 names.
    - ConnRecovery(Props): the connection's accounting for any controller that
      keeps the laws of [CongestionController].
    - Packing(Props): [split_frame] and the packing loop of
      [send_pending_frames].

    ** HTTP/1 (starfish-http/src/h1)

    - Incremental: a parser fed in pieces is the parser fed at once.
    - Text(Props), HttpError: the string operations of the standard library that
      the parsers use.
    - H1Parser(Props), H1Codec(Props): parser.rs, encoder.rs, chunked.rs; an
      encoded message is parsed back, whatever the pieces it arrives in.

    ** The connection (starfish-quic/src/connection.rs)

    - Connection: the state of [QuicConnection] with the components above as its
      parts, and its constructors; rustls is the interface [TlsSession], the
      primitives of ring are [Primitives].  Random bytes are drawn from a
      stream in the state, the clock is an argument, and the datagrams handed to
      the socket are in [qc_wire].
    - ConnPaths: peer addresses, validation, the amplification budget.
      ConnHandshake: transport parameters, TLS output, CRYPTO frames, Retry.
      ConnReceive: datagrams, packets and every frame.  ConnSend: packet
      building, coalescing, ACKs and probes.  ConnLifecycle: timers, close,
      [flush] and [poll].
    - ConnFrame: the frame predicate [keeps] and its automation.
      ConnAmpProps: what a server sends to an address it has not validated, in
      every run.  ConnCryptoProps: the handshake bytes reach TLS in order.
      ConnCloseProps: a draining connection is silent and ends.
      ConnInitialProps: a server never sends another Initial packet after the
      flush that answered the first one.  ConnSample: a TLS session in
      miniature, a complete handshake over it, and runs that show defects.
    - Fuel: [tls_output_loop] takes 3, since a session changes its keys twice;
      the loop over the packets of a datagram takes its length, the one that
      drains CRYPTO data the number of buffered pieces, and [send_space] the
      weight of the queued frames.  A run that exceeds it is [Diverge], and the
      theorems about results exclude it.

    ** Clients and servers (starfish-quic/src/client.rs, server.rs, stream.rs)

    - Endpoint, EndpointProps: [QuicEndpoint] with its routing tables, tokens,
      Retry, timers and accept queue.  The tables stay consistent in every run
      and handles are not used again, a datagram concerns one connection, and
      with Retry required no datagram opens a connection unless its own token
      validates for its address.  EndpointSample: runs of servers and clients.
    - Client: [QuicClient], [QuicListener] and [QuicStream].  Loops
      that wait for the network take what each turn meets as a list.

    ** HTTP/3 (starfish-http/src/h3)

    - H3Frame(Props): frame.rs; sequences of frames round-trip, and the beginning
      of a frame is never taken for one.
    - H3Connection: connection.rs and qpack/ over the interface [QuicTransport];
      the qpack crate is [QpackCodec] with the law [QpackLaws].  H3Server:
      server.rs and client.rs, the pseudo-header rules included; the
      connection of a server shares the definitions that have the same text.
    - H3Props: control streams, in pieces of any size.  H3MessageProps: messages
      are read as they were sent; interim responses are not; and no
      sender notices how much of its message the transport took.
    - H3Quic: the connection and the endpoint as instances of [QuicTransport].
      H3Sample: a request over the QUIC connection.

    ** Memory reclamation (starfish-epoch)

    - Epoch(Props): the intrusive lists of deferred deallocations, behind the
      interface [BagImpl] with the laws [BagLaws], and the reactors interleaved
      at their accesses to the shared epoch counters.  No reactor holds a
      reference to deallocated memory as long as memory is retired only by
      reactors that have observed the current epoch, reactors shut down after
      the others have left their loops, and the epoch is below its maximum; a
      retirement tagged with a stale epoch is freed too early.

    ** Collections (starfish-core/src/data_structures)

    - Ordering: keys with a total order, [Ord] of Rust, as a class with its laws.
    - MarkedPtr: the mark bits of internal/marked_ptr.rs and marked_ptr_3bit.rs.
    - Treap(Props): sorted/treap.rs refines a finite map and keeps the order of
      keys and of priorities.
    - SortedList: sorted/sorted_list.rs as a step relation with one step for
      each access to shared memory.  SortedListMem, SortedListInv: the heap
      and the invariant of the list.  SortedListSteps: every step keeps it.
      SortedListProps: no step touches freed memory, and every operation that
      returns took effect once, as the map prescribes, in the executions in
      which the start positions callers pass are live nodes before the key and
      stay unmarked ([admissible]); an insertion from a removed node may
      never return.

    ** Cooperative locks (starfish-reactor/src/cooperative_synchronization)

    - CoopLock: the three locks of lock.rs and the one-shot wait of
      wait_one_future.rs; any number of tasks, one step for each access to
      shared memory, [lock_run] for a schedule.
    - CoopLockProps: an invariant about one token, which is in the free lock,
      with a task, or with a signaled waiter.  At most one task has the lock,
      nothing panics, no wake-up is lost, and the fair lock is first in, first
      out.
    - CoopLockSample: schedules; the reactor-aware lock can pass over a waiter
      for ever.

    ** Defects

    The theorems of kind "error" in the manifest exhibit inputs on which the
    code does not do what it means to: each states a concrete run.  Where a
    correctness theorem has a hypothesis that excludes such a run, its
    comment says so.

    ** Not modelled

    - Sockets, the async tasks around the protocol code and the operating system
      interfaces (cooperative_io of starfish-reactor): what they do is I/O.  What
      a socket delivers is an argument of the operations.
    - The TLS handshake and the TLS adapters: rustls decides their behaviour.
    - Content coding: the compressors are third-party.
    - Weak memory: the concurrent models interleave atomic accesses in one
      order, which is what the Acquire, Release and SeqCst accesses of the
      modelled code give for one location; reorderings between locations are not
      considered.
    - The pacing of datagrams, tracing, and the queue of datagrams of a connection
      that only tests fill.
    - The connection loops of HTTP/1, the pool and the high-level client: reads
      and writes of sockets around the parsers and encoders that are modelled.
    - The skip list, the tries and the hash map: they share the list algorithm of
      the bottom level, which is modelled; the towers above it are not.
    - The reactor: its state is tasks of the async runtime.  The locks take from it
      that a suspended task is polled again once it is scheduled; weak memory
      orderings and tasks that are dropped while they wait for a lock are left out. *)

From stdpp Require Export prelude gmap strings sorting.
From Stdlib Require Export ZArith Lia.

#[global] Open Scope Z_scope.

(** ** Outcomes of Rust functions

    [Ok] and [Err] are the constructors of [Result]; [Panic] is a Rust panic
    (index out of range, a failed [debug_assert!], an integer overflow under
    overflow checks); [Diverge] is a loop whose fuel ran out.  A theorem that
    excludes [Panic] and [Diverge] shows that the code returns. *)
Inductive result (E A : Type) : Type :=
  | Ok (a : A)
  | Err (e : E)
  | Panic
  | Diverge.
Arguments Ok {E A} a.
Arguments Err {E A} e.
Arguments Panic {E A}.
Arguments Diverge {E A}.

#[export] Instance result_ret E : MRet (result E) := λ A a, Ok a.
#[export] Instance result_bind E : MBind (result E) := λ A B f m,
  match m with Ok a => f a | Err e => Err e | Panic => Panic | Diverge => Diverge end.

(** [Result::map_err]. *)
Definition map_err {E F A} (g : E → F) (m : result E A) : result F A :=
  match m with Ok a => Ok a | Err e => Err (g e) | Panic => Panic | Diverge => Diverge end.

(** [Option::ok_or_else]. *)
Definition ok_or {E A} (e : E) (o : option A) : result E A :=
  match o with Some a => Ok a | None => Err e end.

(** A function that takes [&mut S]: the state is kept on every exit. *)
Definition stM (S E A : Type) : Type := S → result E A * S.

#[export] Instance stM_ret S E : MRet (stM S E) := λ A a s, (Ok a, s).
#[export] Instance stM_bind S E : MBind (stM S E) := λ A B f m s,
  match m s with
  | (Ok a, s') => f a s'
  | (Err e, s') => (Err e, s')
  | (Panic, s') => (Panic, s')
  | (Diverge, s') => (Diverge, s')
  end.

(** Lift an outcome into the state monad. *)
Definition lift {S E A} (m : result E A) : stM S E A := λ s, (m, s).
Definition fail {S E A} (e : E) : stM S E A := λ s, (Err e, s).
Definition gets {S E A} (f : S → A) : stM S E A := λ s, (Ok (f s), s).
Definition modify {S E} (f : S → S) : stM S E unit := λ s, (Ok tt, f s).

(** A loop over a list whose body may fail. *)
Fixpoint foldM {E S A} (f : S → A → result E S) (s : S) (l : list A) : result E S :=
  match l with
  | [] => Ok s
  | x :: l => s ← f s x; foldM f s l
  end.

(** Run a function on a local [mut] variable and keep its final value on success. *)
Definition exec {S E A} (m : stM S E A) (s : S) : result E (A * S) :=
  match m s with
  | (Ok a, s') => Ok (a, s')
  | (Err e, _) => Err e
  | (Panic, _) => Panic
  | (Diverge, _) => Diverge
  end.

(** ** Error messages: the format string of the source and its arguments *)
Record message := Msg { msg_text : string; msg_args : list Z }.
Definition msg (s : string) : message := Msg s [].

(** ** Machine integers

    A [w]-bit unsigned integer is a [Z] in range.  [usize] is 64 bits wide.
    Plain [+], [-] and [*] panic on overflow (overflow checks on); a theorem
    that excludes the panic holds for the wrapping build as well. *)
Definition U8_MAX : Z := 2 ^ 8 - 1.
Definition U16_MAX : Z := 2 ^ 16 - 1.
Definition U32_MAX : Z := 2 ^ 32 - 1.
Definition U64_MAX : Z := 2 ^ 64 - 1.
Definition USIZE_MAX : Z := U64_MAX.

Definition is_u8 (x : Z) : Prop := 0 ≤ x ≤ U8_MAX.
Definition is_u16 (x : Z) : Prop := 0 ≤ x ≤ U16_MAX.
Definition is_u32 (x : Z) : Prop := 0 ≤ x ≤ U32_MAX.
Definition is_u64 (x : Z) : Prop := 0 ≤ x ≤ U64_MAX.

(** [x as u8], [x as u16], [x as u32] on a wider unsigned integer. *)
Definition as_u8 (x : Z) : Z := x mod 2 ^ 8.
Definition as_u16 (x : Z) : Z := x mod 2 ^ 16.
Definition as_u32 (x : Z) : Z := x mod 2 ^ 32.

Definition add_u64 {E} (a b : Z) : result E Z :=
  if a + b <=? U64_MAX then Ok (a + b) else Panic.
Definition sub_u64 {E} (a b : Z) : result E Z :=
  if b <=? a then Ok (a - b) else Panic.
Definition mul_u64 {E} (a b : Z) : result E Z :=
  if a * b <=? U64_MAX then Ok (a * b) else Panic.
Definition add_u32 {E} (a b : Z) : result E Z :=
  if a + b <=? U32_MAX then Ok (a + b) else Panic.

Definition saturating_sub (a b : Z) : Z := Z.max 0 (a - b).
Definition saturating_add_u64 (a b : Z) : Z := Z.min U64_MAX (a + b).
Definition checked_sub (a b : Z) : option Z := if b <=? a then Some (a - b) else None.
Definition checked_add_u64 (a b : Z) : option Z :=
  if a + b <=? U64_MAX then Some (a + b) else None.

(** ** Byte buffers *)
Abbreviation bytes := (list Z).
Definition bytes_ok (l : bytes) : Prop := Forall is_u8 l.

(** [l.len()]. *)
Definition len {A} (l : list A) : Z := Z.of_nat (length l).

(** A Rust slice has at most [isize::MAX] bytes.  The buffers handed to the
    decoders are datagrams and their parts: [buf_ok] bounds them by 2^62 - 1,
    the largest length the wire formats can express. *)
Definition ISIZE_MAX : Z := 2 ^ 63 - 1.
Definition MAX_BUF : Z := 2 ^ 62 - 1.
Definition buf_ok (l : bytes) : Prop := bytes_ok l ∧ len l ≤ MAX_BUF.

(** [l[a..]], [l[a..b]] and [l[i]], with the panics of Rust. *)
Definition slice_from {E A} (l : list A) (a : Z) : result E (list A) :=
  if (0 <=? a) && (a <=? len l) then Ok (drop (Z.to_nat a) l) else Panic.
Definition slice {E A} (l : list A) (a b : Z) : result E (list A) :=
  if (0 <=? a) && (a <=? b) && (b <=? len l)
  then Ok (take (Z.to_nat (b - a)) (drop (Z.to_nat a) l)) else Panic.
Definition index {E A} (l : list A) (i : Z) : result E A :=
  if 0 <=? i then match l !! Z.to_nat i with Some x => Ok x | None => Panic end
  else Panic.

(** [uN::from_be_bytes] and [to_be_bytes], for [n] bytes. *)
Definition from_be (l : bytes) : Z := foldl (λ acc b, acc * 256 + b) 0 l.
Fixpoint to_be (n : nat) (v : Z) : bytes :=
  match n with
  | O => []
  | S k => (v / 256 ^ Z.of_nat k) mod 256 :: to_be k v
  end.

#[global] Arguments from_be : simpl never.
#[global] Arguments len {A} l : simpl never.

(** Encoders append to a buffer. *)
Abbreviation encM E := (stM bytes E).
Definition push {E} (b : Z) : encM E unit := λ buf, (Ok tt, buf ++ [b]).
Definition extend {E} (l : bytes) : encM E unit := λ buf, (Ok tt, buf ++ l).

Lemma stM_bind_ok {S E A B} (m : stM S E A) (f : A → stM S E B) s a s' :
  m s = (Ok a, s') → (m ≫= f) s = f a s'.
Proof. unfold mbind, stM_bind. by intros ->. Qed.

Lemma stM_bind_err {S E A B} (m : stM S E A) (f : A → stM S E B) s e s' :
  m s = (Err e, s') → (m ≫= f) s = (Err e, s').
Proof. unfold mbind, stM_bind. by intros ->. Qed.

Lemma push_bind {E A} b (f : unit → encM E A) buf : (push b ≫= f) buf = f tt (buf ++ [b]).
Proof. done. Qed.

Lemma extend_bind {E A} l (f : unit → encM E A) buf : (extend l ≫= f) buf = f tt (buf ++ l).
Proof. done. Qed.

Lemma mret_bind {S E A B} (a : A) (f : A → stM S E B) s : (mret a ≫= f) s = f a s.
Proof. done. Qed.

Create Rewrite HintDb enc.
Lemma gets_bind {S E A B} (f : S → A) (k : A → stM S E B) s : (gets f ≫= k) s = k (f s) s.
Proof. done. Qed.

Lemma lift_bind {S E A B} (m : result E A) a (k : A → stM S E B) s :
  m = Ok a → (lift m ≫= k) s = k a s.
Proof. by intros ->. Qed.

Lemma modify_bind {S E B} (f : S → S) (k : unit → stM S E B) s :
  (modify f ≫= k) s = k tt (f s).
Proof. done. Qed.

Lemma fail_bind {S E A B} (e : E) (k : A → stM S E B) s : (fail e ≫= k) s = (Err e, s).
Proof. done. Qed.

Lemma lift_ok_bind {S E A B} (a : A) (k : A → stM S E B) s : (lift (Ok a : result E A) ≫= k) s = k a s.
Proof. done. Qed.

Lemma lift_err_bind {S E A B} (e : E) (k : A → stM S E B) s :
  (lift (Err e : result E A) ≫= k) s = (Err e, s).
Proof. done. Qed.

Lemma lift_panic_bind {S E A B} (k : A → stM S E B) s :
  (lift (Panic : result E A) ≫= k) s = (Panic, s).
Proof. done. Qed.

Lemma stM_bind_assoc {S E A B C} (m : stM S E A) (f : A → stM S E B) (g : B → stM S E C) s :
  ((m ≫= f) ≫= g) s = (m ≫= (λ a, f a ≫= g)) s.
Proof. unfold mbind, stM_bind. by destruct (m s) as [[] ?]. Qed.

Create Rewrite HintDb stm.
#[export] Hint Rewrite @gets_bind @modify_bind @fail_bind @lift_ok_bind @lift_err_bind
  @lift_panic_bind @mret_bind @stM_bind_assoc : stm.

(** Runs the state-passing primitives at the head of a handler. *)
Ltac run_stM := repeat (autorewrite with stm; cbn beta iota zeta).

#[export] Hint Rewrite @push_bind @extend_bind @mret_bind : enc.

(** ** Total-correctness postconditions

    [post Q m]: [m] returns; if it returns [Ok a] then [Q a]. *)
Definition post {E A} (Q : A → Prop) (m : result E A) : Prop :=
  match m with Ok a => Q a | Err _ => True | Panic | Diverge => False end.

Create HintDb post.

Section PostLemmas.
Context {E A B : Type}.

Lemma post_bind (P : A → Prop) (Q : B → Prop) (m : result E A) (f : A → result E B) :
  post P m → (∀ a, P a → post Q (f a)) → post Q (m ≫= f).
Proof. destruct m; naive_solver. Qed.

Lemma post_mono (P Q : A → Prop) (m : result E A) :
  post P m → (∀ a, P a → Q a) → post Q m.
Proof. destruct m; naive_solver. Qed.

Lemma post_ok (Q : A → Prop) (m : result E A) a : post Q m → m = Ok a → Q a.
Proof. by intros ? ->. Qed.

Lemma post_map_err {F} (g : E → F) (Q : A → Prop) (m : result E A) :
  post Q m → post Q (map_err g m).
Proof. by destruct m. Qed.

Lemma post_ok_or (Q : A → Prop) (e : E) (o : option A) :
  (∀ a, o = Some a → Q a) → post Q (ok_or e o).
Proof. destruct o; naive_solver. Qed.

Lemma bind_ok_inv (m : result E A) (f : A → result E B) b :
  m ≫= f = Ok b → ∃ a, m = Ok a ∧ f a = Ok b.
Proof. destruct m; naive_solver. Qed.

Lemma bind_ok (a : A) (f : A → result E B) : Ok a ≫= f = f a.
Proof. done. Qed.
End PostLemmas.

(** ** Arithmetic automation *)
Ltac unfold_ints :=
  unfold is_u8, is_u16, is_u32, is_u64, USIZE_MAX, U8_MAX, U16_MAX, U32_MAX, U64_MAX in *.

(** [lia] after turning boolean tests of the source into propositions. *)
Ltac zb :=
  repeat match goal with
  | H : _ && _ = true |- _ => apply andb_true_iff in H as [? ?]
  | H : _ || _ = false |- _ => apply orb_false_iff in H as [? ?]
  end;
  unfold_ints; lia.

(** [bytes_ok], [buf_ok] of a concrete byte string. *)
Ltac bytes_dec :=
  lazymatch goal with
  | |- bytes_ok _ => repeat apply Forall_cons_2; try apply Forall_nil_2; unfold_ints; lia
  | |- buf_ok _ => split; [bytes_dec | vm_compute; discriminate]
  end.

(** Case analysis on the next boolean test of the goal. *)
Ltac dif :=
  match goal with |- context [if ?b then _ else _] =>
    lazymatch type of b with bool => destruct b eqn:? end end.

(** [lia] with division and modulo by constants. *)
Ltac dlia := Z.to_euclidean_division_equations; lia.

Lemma len_nonneg {A} (l : list A) : 0 ≤ len l.
Proof. unfold len; lia. Qed.

Lemma len_app {A} (l k : list A) : len (l ++ k) = len l + len k.
Proof. unfold len. rewrite length_app. lia. Qed.

Lemma len_nil {A} : len (@nil A) = 0.
Proof. done. Qed.

Lemma len_cons {A} (x : A) l : len (x :: l) = 1 + len l.
Proof. unfold len. simpl. lia. Qed.

Lemma len_0_nil {A} (l : list A) : len l = 0 → l = [].
Proof. destruct l; [done|]. rewrite len_cons. pose proof (len_nonneg l). lia. Qed.

Lemma len_replicate {A} n (x : A) : len (replicate n x) = Z.of_nat n.
Proof. unfold len. by rewrite length_replicate. Qed.

Create Rewrite HintDb len.
#[export] Hint Rewrite @len_app @len_nil @len_cons @len_replicate : len.

(** ** Reading positions

    [at_pos buf off rest]: the bytes of [buf] from offset [off] are [rest]. *)
Definition at_pos {A} (buf : list A) (off : Z) (rest : list A) : Prop :=
  0 ≤ off ≤ len buf ∧ drop (Z.to_nat off) buf = rest.

Section AtPos.
Context {A : Type}.
Implicit Types l k buf rest : list A.

Lemma at_pos_0 buf : at_pos buf 0 buf.
Proof. split; [pose proof (len_nonneg buf); lia | done]. Qed.

Lemma at_pos_len buf off rest : at_pos buf off rest → len buf = off + len rest.
Proof. intros [? <-]. unfold len in *. rewrite length_drop. lia. Qed.

Lemma at_pos_app buf off l rest :
  at_pos buf off (l ++ rest) → at_pos buf (off + len l) rest.
Proof.
  intros H. pose proof (at_pos_len _ _ _ H) as Hl. rewrite len_app in Hl.
  pose proof (len_nonneg l). pose proof (len_nonneg rest).
  destruct H as [? Hd]. split; [lia|].
  rewrite Z2Nat.inj_add by lia. rewrite <- drop_drop, Hd.
  unfold len. by rewrite Nat2Z.id, drop_app_length.
Qed.

Lemma at_pos_cons buf off x rest :
  at_pos buf off (x :: rest) → at_pos buf (off + 1) rest.
Proof. apply (at_pos_app buf off [x] rest). Qed.

Lemma at_pos_prefix l rest : at_pos (l ++ rest) (len l) rest.
Proof.
  pose proof (at_pos_app (l ++ rest) 0 l rest (at_pos_0 _)) as H. by simpl in H.
Qed.

Lemma at_pos_trans buf off mid o rest :
  at_pos buf off mid → at_pos mid o rest → at_pos buf (off + o) rest.
Proof.
  intros H1 [? <-]. pose proof (at_pos_len _ _ _ H1). destruct H1 as [? <-].
  pose proof (len_nonneg (drop (Z.to_nat off) buf)). split; [lia|].
  by rewrite Z2Nat.inj_add, drop_drop by lia.
Qed.

Lemma at_pos_end buf l o rest : buf = l ++ rest → at_pos buf o rest → o = len l.
Proof. intros -> H. apply at_pos_len in H. rewrite len_app in H. lia. Qed.

Lemma slice_from_at {E} buf off rest :
  at_pos buf off rest → slice_from (E:=E) buf off = Ok rest.
Proof.
  intros [? <-]. unfold slice_from.
  by replace ((0 <=? off) && (off <=? len buf)) with true by lia.
Qed.

Lemma slice_at {E} buf off l rest e :
  at_pos buf off (l ++ rest) → e = off + len l → slice (E:=E) buf off e = Ok l.
Proof.
  intros H ->. pose proof (at_pos_len _ _ _ H) as Hl. rewrite len_app in Hl.
  pose proof (len_nonneg l). pose proof (len_nonneg rest).
  destruct H as [? Hd]. unfold slice.
  replace ((0 <=? off) && (off <=? off + len l) && (off + len l <=? len buf)) with true by lia.
  rewrite Hd. replace (off + len l - off) with (len l) by lia.
  unfold len. by rewrite Nat2Z.id, take_app_length.
Qed.

Lemma slice_take {E} l n :
  0 ≤ n ≤ len l → slice (E:=E) l 0 n = Ok (take (Z.to_nat n) l).
Proof.
  intros Hn. unfold slice. replace ((0 <=? 0) && (0 <=? n) && (n <=? len l)) with true by lia.
  by rewrite Z.sub_0_r.
Qed.

Lemma slice_from_drop {E} l n :
  0 ≤ n ≤ len l → slice_from (E:=E) l n = Ok (drop (Z.to_nat n) l).
Proof. intros Hn. unfold slice_from. by replace ((0 <=? n) && (n <=? len l)) with true by lia. Qed.

Lemma add_u64_ok {E} a b : a + b ≤ U64_MAX → add_u64 (E := E) a b = Ok (a + b).
Proof. intros H. unfold add_u64. by rewrite (proj2 (Z.leb_le _ _) H). Qed.

Lemma sub_u64_ok {E} a b : b ≤ a → sub_u64 (E := E) a b = Ok (a - b).
Proof. intros H. unfold sub_u64. by rewrite (proj2 (Z.leb_le _ _) H). Qed.

Lemma index_at {E} buf off x rest :
  at_pos buf off (x :: rest) → index (E:=E) buf off = Ok x.
Proof.
  intros [? Hd]. unfold index. replace (0 <=? off) with true by lia.
  assert (buf !! Z.to_nat off = Some x) as ->; [|done].
  by rewrite <- (Nat.add_0_r (Z.to_nat off)), <- lookup_drop, Hd.
Qed.

Lemma post_slice_from {E} l a (Q : list A → Prop) :
  0 ≤ a ≤ len l → Q (drop (Z.to_nat a) l) → post Q (slice_from (E:=E) l a).
Proof. intros ? ?. unfold slice_from. by replace (_ && _) with true by lia. Qed.

Lemma post_slice {E} l a b (Q : list A → Prop) :
  0 ≤ a ≤ b → b ≤ len l →
  (∀ k, len k = b - a → k = take (Z.to_nat (b - a)) (drop (Z.to_nat a) l) → Q k) →
  post Q (slice (E:=E) l a b).
Proof.
  intros ?? HQ. unfold slice. replace (_ && _) with true by lia.
  apply HQ; [|done]. unfold len in *. rewrite length_take, length_drop. lia.
Qed.

Lemma post_index {E} l i (Q : A → Prop) :
  0 ≤ i < len l → (∀ x, l !! Z.to_nat i = Some x → Q x) → post Q (index (E:=E) l i).
Proof.
  intros ? HQ. unfold index. replace (0 <=? i) with true by lia.
  destruct (lookup_lt_is_Some_2 l (Z.to_nat i)) as [x Hx]; [unfold len in *; lia|].
  rewrite Hx. by apply HQ.
Qed.

Lemma len_drop l n : 0 ≤ n ≤ len l → len (drop (Z.to_nat n) l) = len l - n.
Proof. unfold len. rewrite length_drop. lia. Qed.

Lemma at_pos_fun buf off r1 r2 : at_pos buf off r1 → at_pos buf off r2 → r1 = r2.
Proof. by intros [_ <-] [_ <-]. Qed.

Lemma at_pos_split l a b : 0 ≤ a ≤ b → b ≤ len l →
  ∃ k rest, len k = b - a ∧ at_pos l a (k ++ rest) ∧ at_pos l b rest.
Proof.
  intros. exists (take (Z.to_nat (b - a)) (drop (Z.to_nat a) l)), (drop (Z.to_nat b) l).
  assert (drop (Z.to_nat b) l = drop (Z.to_nat (b - a)) (drop (Z.to_nat a) l)) as E
    by (rewrite drop_drop; f_equal; lia).
  split_and!.
  - unfold len in *. rewrite length_take, length_drop. lia.
  - split; [lia|]. by rewrite E, take_drop.
  - split; [lia|done].
Qed.

(** Reading a slice or an element of a buffer of which nothing is known yet. *)
Lemma post_slice_at {E} l a b (Q : list A → Prop) : 0 ≤ a ≤ b → b ≤ len l →
  (∀ k rest, len k = b - a → at_pos l a (k ++ rest) → at_pos l b rest → Q k) →
  post Q (slice (E:=E) l a b).
Proof.
  intros ?? HQ. destruct (at_pos_split l a b) as (k & rest & Hk & P & P'); [done..|].
  rewrite (slice_at l a k rest b P) by lia. by eapply HQ.
Qed.

Lemma post_index_at {E} l i (Q : A → Prop) : 0 ≤ i < len l →
  (∀ x rest, at_pos l i (x :: rest) → Q x) → post Q (index (E:=E) l i).
Proof.
  intros ? HQ. destruct (at_pos_split l i (i + 1)) as (k & rest & Hk & P & P'); [lia..|].
  destruct k as [|x k]; [rewrite len_nil in Hk; lia|]. rewrite len_cons in Hk.
  destruct k; [|rewrite len_cons in Hk; pose proof (len_nonneg k); lia].
  rewrite (index_at l i x rest P). by eapply HQ.
Qed.

Lemma split_at l n : 0 ≤ n ≤ len l → ∃ l1 l2, l = l1 ++ l2 ∧ len l1 = n.
Proof.
  intros. exists (take (Z.to_nat n) l), (drop (Z.to_nat n) l). split; [by rewrite take_drop|].
  unfold len in *. rewrite length_take. lia.
Qed.

Lemma take_len l : take (Z.to_nat (len l)) l = l.
Proof. unfold len. by rewrite Nat2Z.id, firstn_all. Qed.
End AtPos.

(** Write the offset of a cursor as the code does. *)
Ltac pos P o :=
  match type of P with at_pos ?b ?x ?r =>
    first [constr_eq x o | replace x with o in P by lia
          | replace x with o in P by (autorewrite with len; lia)] end.

(** ** Big-endian integers *)
Lemma from_be_snoc l b : from_be (l ++ [b]) = from_be l * 256 + b.
Proof. unfold from_be. by rewrite foldl_app. Qed.

Lemma from_be_cons b l : from_be (b :: l) = b * 256 ^ len l + from_be l.
Proof.
  induction l as [|x l IH] using rev_ind; [unfold from_be, len; simpl; lia|].
  rewrite app_comm_cons, !from_be_snoc, IH, len_app. change (len [x]) with 1.
  rewrite Z.pow_add_r by (pose proof (len_nonneg l); lia). lia.
Qed.

Lemma length_to_be n v : length (to_be n v) = n.
Proof. induction n; simpl; congruence. Qed.

Lemma len_to_be n v : len (to_be n v) = Z.of_nat n.
Proof. unfold len. by rewrite length_to_be. Qed.

Lemma from_be_to_be n v : from_be (to_be n v) = v mod 256 ^ Z.of_nat n.
Proof.
  induction n as [|n IH]; [cbn; by rewrite Z.mod_1_r|].
  cbn [to_be]. rewrite from_be_cons, len_to_be, IH.
  rewrite Nat2Z.inj_succ, Z.pow_succ_r by lia.
  rewrite (Z.mul_comm 256), (Z.rem_mul_r v) by lia. lia.
Qed.

Lemma from_be_to_be_small n v :
  0 ≤ v < 256 ^ Z.of_nat n → from_be (to_be n v) = v.
Proof. intros. rewrite from_be_to_be. by apply Z.mod_small. Qed.

Lemma from_be_split n d v :
  d = 256 ^ Z.of_nat n → from_be (v / d :: to_be n v) = v.
Proof.
  intros ->. rewrite from_be_cons, len_to_be, from_be_to_be.
  rewrite (Z.div_mod v (256 ^ Z.of_nat n)) at 3 by lia. lia.
Qed.

Lemma from_be_bound l : bytes_ok l → 0 ≤ from_be l < 256 ^ len l.
Proof.
  induction 1 as [|b l Hb Hl IH]; [unfold from_be, len; simpl; lia|].
  rewrite from_be_cons, len_cons, Z.pow_add_r, Z.pow_1_r by (pose proof (len_nonneg l); lia).
  unfold is_u8, U8_MAX in Hb. nia.
Qed.

Lemma to_be_bytes_ok n v : bytes_ok (to_be n v).
Proof.
  induction n as [|n IH]; constructor; [|done].
  pose proof (Z.mod_pos_bound (v / 256 ^ Z.of_nat n) 256). unfold_ints. lia.
Qed.

Lemma to_be_high n k x y :
  (n ≤ k)%nat → to_be n (x * 256 ^ Z.of_nat k + y) = to_be n y.
Proof.
  revert k. induction n as [|n IH]; intros k ?; [done|]. cbn [to_be]. rewrite IH by lia. f_equal.
  replace (Z.of_nat k) with (Z.of_nat n + 1 + (Z.of_nat k - Z.of_nat n - 1)) by lia.
  rewrite !Z.pow_add_r by lia.
  replace (x * (256 ^ Z.of_nat n * 256 ^ 1 * 256 ^ (Z.of_nat k - Z.of_nat n - 1)) + y)
    with ((x * 256 ^ (Z.of_nat k - Z.of_nat n - 1) * 256) * 256 ^ Z.of_nat n + y) by lia.
  rewrite Z.div_add_l by lia. by rewrite Z.add_comm, Z.mod_add by lia.
Qed.

Lemma to_be_from_be l : bytes_ok l → to_be (length l) (from_be l) = l.
Proof.
  induction 1 as [|b l Hb Hl IH]; [done|]. cbn [length to_be].
  pose proof (from_be_bound l Hl) as Hfb. unfold is_u8, U8_MAX in Hb.
  rewrite from_be_cons. fold (len l). f_equal.
  - rewrite Z.div_add_l, (Z.div_small (from_be l)), Z.add_0_r by lia.
    apply Z.mod_small. lia.
  - unfold len. by rewrite to_be_high.
Qed.

#[export] Hint Rewrite len_to_be : len.

(** ** Bit operations *)
Lemma land_disjoint a x k : 0 ≤ k → 0 ≤ x < 2 ^ k → Z.land (a * 2 ^ k) x = 0.
Proof.
  intros Hk Hx. rewrite <- Z.shiftl_mul_pow2 by lia. apply Z.bits_inj'. intros n Hn.
  rewrite Z.land_spec, Z.bits_0. destruct (Z_lt_le_dec n k).
  - by rewrite Z.shiftl_spec_low.
  - rewrite <- (Z.mod_small x (2 ^ k)) by lia.
    by rewrite Z.mod_pow2_bits_high, andb_false_r by lia.
Qed.

Lemma lor_disjoint a x k : 0 ≤ k → 0 ≤ x < 2 ^ k → Z.lor (a * 2 ^ k) x = a * 2 ^ k + x.
Proof.
  intros. pose proof (land_disjoint a x k) as Hl.
  rewrite <- Z.lxor_lor, <- Z.add_nocarry_lxor by auto. done.
Qed.

Lemma land_low x k : 0 ≤ k → Z.land x (2 ^ k - 1) = x mod 2 ^ k.
Proof. intros. by rewrite <- Z.land_ones, Z.ones_equiv, <- Z.sub_1_r by lia. Qed.

Lemma shiftr_div x k : 0 ≤ k → Z.shiftr x k = x / 2 ^ k.
Proof. apply Z.shiftr_div_pow2. Qed.

(** A decidable fact about every byte, by evaluation. *)
Lemma u8_forall (P : Z → bool) :
  forallb P (seqZ 0 256) = true → ∀ x, is_u8 x → P x = true.
Proof.
  intros H x Hx. rewrite forallb_forall in H. apply H, list_elem_of_In, elem_of_seqZ.
  unfold_ints. lia.
Qed.

(** ** Sorted lists *)

(** Ordered by first component, as the keys of a sorted map. *)
Definition by_start {A} : relation (Z * A) := λ x y, x.1 ≤ y.1.
#[export] Instance by_start_dec {A} : RelDecision (@by_start A).
Proof. intros x y. unfold by_start. apply _. Defined.
#[export] Instance by_start_total {A} : Total (@by_start A).
Proof. intros x y. unfold by_start. lia. Qed.
#[export] Instance by_start_trans {A} : Transitive (@by_start A).
Proof. intros x y z. unfold by_start. lia. Qed.

Lemma StronglySorted_rev {A} (R : relation A) l :
  StronglySorted (flip R) l → StronglySorted R (rev l).
Proof.
  induction 1 as [|x l Hl IH Hx]; cbn; [constructor|].
  apply StronglySorted_app. split_and!; [|done|by repeat constructor].
  intros y z Hy ->%list_elem_of_singleton. apply list_elem_of_In, in_rev, list_elem_of_In in Hy.
  rewrite Forall_forall in Hx. by apply Hx.
Qed.

(** ** Reachability under a step relation *)
Section Reach.
Context {S : Type} (init : S → Prop) (step : S → S → Prop).

Inductive reachable : S → Prop :=
  | reach_init s : init s → reachable s
  | reach_step s s' : reachable s → step s s' → reachable s'.

Lemma reachable_inv (I : S → Prop) :
  (∀ s, init s → I s) → (∀ s s', I s → step s s' → I s') → ∀ s, reachable s → I s.
Proof. intros ?? s. induction 1; eauto. Qed.
End Reach.
