(* ===== verification/QuicError.v ===== *)
(** * QUIC error values (starfish-quic/src/error.rs)

    The transport error codes of RFC 9000 section 20.1 with their numeric
    forms, and [QuicError].  The payloads of [Io] and [Tls] are values of
    [std::io::Error] and [rustls::Error], which no modelled operation inspects. *)

From S2P Require Import Prelude.

Inductive TransportErrorCode :=
  | NoError | InternalError | ConnectionRefused | FlowControlError
  | StreamLimitError | StreamStateError | FinalSizeError | FrameEncodingError
  | TransportParameterError | ConnectionIdLimitError | ProtocolViolation
  | InvalidToken | ApplicationError | CryptoBufferExceeded | KeyUpdateError
  | AeadLimitReached | NoViablePath
  | CryptoError (alert : Z).

#[export] Instance TransportErrorCode_eq_dec : EqDecision TransportErrorCode.
Proof. solve_decision. Defined.

Definition from_u64 (code : Z) : TransportErrorCode :=
  match code with
  | 0x00 => NoError
  | 0x01 => InternalError
  | 0x02 => ConnectionRefused
  | 0x03 => FlowControlError
  | 0x04 => StreamLimitError
  | 0x05 => StreamStateError
  | 0x06 => FinalSizeError
  | 0x07 => FrameEncodingError
  | 0x08 => TransportParameterError
  | 0x09 => ConnectionIdLimitError
  | 0x0a => ProtocolViolation
  | 0x0b => InvalidToken
  | 0x0c => ApplicationError
  | 0x0d => CryptoBufferExceeded
  | 0x0e => KeyUpdateError
  | 0x0f => AeadLimitReached
  | 0x10 => NoViablePath
  | c => if (0x0100 <=? c) && (c <=? 0x01ff) then CryptoError (as_u8 (c - 0x0100))
         else InternalError
  end.

Definition to_u64 (c : TransportErrorCode) : Z :=
  match c with
  | NoError => 0x00
  | InternalError => 0x01
  | ConnectionRefused => 0x02
  | FlowControlError => 0x03
  | StreamLimitError => 0x04
  | StreamStateError => 0x05
  | FinalSizeError => 0x06
  | FrameEncodingError => 0x07
  | TransportParameterError => 0x08
  | ConnectionIdLimitError => 0x09
  | ProtocolViolation => 0x0a
  | InvalidToken => 0x0b
  | ApplicationError => 0x0c
  | CryptoBufferExceeded => 0x0d
  | KeyUpdateError => 0x0e
  | AeadLimitReached => 0x0f
  | NoViablePath => 0x10
  | CryptoError alert => 0x0100 + alert
  end.

(** A code the enum can hold: [CryptoError] carries a [u8]. *)
Definition code_ok (c : TransportErrorCode) : Prop :=
  match c with CryptoError a => is_u8 a | _ => True end.

Inductive QuicError :=
  | Io
  | Tls
  | Transport (code : TransportErrorCode) (reason : message)
  | InvalidPacket (m : message)
  | StreamReset (code : Z)
  | ConnectionClosed (error_code : TransportErrorCode) (reason : message)
  | ConnectionDraining
  | InvalidFrame (m : message)
  | BufferTooSmall.

(** The Rocq result type of the QUIC crate. *)
Abbreviation qres := (result QuicError).
Abbreviation qenc := (stM bytes QuicError).

Lemma from_u64_high n : 0x10 < n →
  from_u64 n = if (0x0100 <=? n) && (n <=? 0x01ff) then CryptoError (as_u8 (n - 0x0100))
               else InternalError.
Proof.
  intros Hn. destruct n as [|p|p]; [lia| |lia].
  do 5 (try (destruct p as [p|p|]; try reflexivity)); lia.
Qed.

Lemma from_u64_crypto n : 0x0100 ≤ n ≤ 0x01ff → from_u64 n = CryptoError (n - 0x0100).
Proof.
  intros Hn. rewrite from_u64_high by lia. replace (_ && _) with true by lia.
  unfold as_u8. by rewrite Z.mod_small by lia.
Qed.

Lemma from_u64_other n : 0x10 < n → ¬ (0x0100 ≤ n ≤ 0x01ff) → from_u64 n = InternalError.
Proof.
  intros Hn Hc. rewrite from_u64_high by lia. by replace (_ && _) with false by lia.
Qed.

(** A transport error code survives [to_u64] and [from_u64] (a CRYPTO_ERROR alert is
    one byte); a wire code survives [from_u64] and [to_u64] unless it is unknown, and the
    unknown codes are read as INTERNAL_ERROR. *)
Theorem error_code_roundtrip :
  (∀ c, code_ok c → from_u64 (to_u64 c) = c) ∧
  (∀ n, is_u64 n → to_u64 (from_u64 n) = n ∨
     (from_u64 n = InternalError ∧ 0x10 < n ∧ ¬ (0x0100 ≤ n ≤ 0x01ff))).
Proof.
  split.
  - intros []; try done. intros Ha. cbn in Ha. unfold is_u8, U8_MAX in Ha. cbn [to_u64].
    rewrite from_u64_crypto by lia. f_equal. lia.
  - intros n [? _]. destruct (decide (n ≤ 0x10)) as [Hs|Hs].
    + left. assert (n ∈ seqZ 0 17) as Hin by (apply elem_of_seqZ; lia).
      cbn in Hin. repeat (apply elem_of_cons in Hin as [->|Hin]; [done|]). by apply elem_of_nil in Hin.
    + destruct (decide (0x0100 ≤ n ≤ 0x01ff)) as [Hc|Hc].
      * left. rewrite from_u64_crypto by done. cbn. lia.
      * right. split; [by apply from_u64_other; lia | lia].
Qed.
