(* ===== verification/Varint.v ===== *)
(** * Variable-length integers (starfish-quic/src/packet/mod.rs, RFC 9000 section 16)

    [encode_varint], [decode_varint] and [varint_len], the reading idiom
    [decode_varint(&buf[offset..])?; offset += n] as [read_varint], and the
    interface [Codec] through which the frame and packet codecs use them. *)

From S2P Require Import Prelude QuicError.

Definition MAX_VARINT : Z := 2 ^ 62 - 1.

Definition encode_varint (value : Z) : qenc unit :=
  if MAX_VARINT <? value then
    fail (InvalidFrame (Msg "varint value {value} exceeds QUIC maximum {MAX_VARINT}"
                            [value; MAX_VARINT]))
  else if value <? 0x40 then
    push (as_u8 value)
  else if value <? 0x4000 then
    push (Z.lor 0x40 (as_u8 (Z.shiftr value 8)));;
    push (as_u8 value)
  else if value <? 0x40000000 then
    push (Z.lor 0x80 (as_u8 (Z.shiftr value 24)));;
    push (as_u8 (Z.shiftr value 16));;
    push (as_u8 (Z.shiftr value 8));;
    push (as_u8 value)
  else
    push (Z.lor 0xc0 (as_u8 (Z.shiftr value 56)));;
    push (as_u8 (Z.shiftr value 48));;
    push (as_u8 (Z.shiftr value 40));;
    push (as_u8 (Z.shiftr value 32));;
    push (as_u8 (Z.shiftr value 24));;
    push (as_u8 (Z.shiftr value 16));;
    push (as_u8 (Z.shiftr value 8));;
    push (as_u8 value).

(** [match len] has an [unreachable!()] arm, a panic. *)
Definition decode_varint (buf : bytes) : qres (Z * Z) :=
  match buf with
  | [] => Err BufferTooSmall
  | first :: _ =>
      let n := Z.shiftl 1 (Z.shiftr first 6) in
      if len buf <? n then Err BufferTooSmall
      else
        value ← (if n =? 1 then Ok (Z.land first 0x3f)
                 else if n =? 2 then
                   b1 ← index buf 1;
                   Ok (from_be [Z.land first 0x3f; b1])
                 else if n =? 4 then
                   b1 ← index buf 1; b2 ← index buf 2; b3 ← index buf 3;
                   Ok (from_be [Z.land first 0x3f; b1; b2; b3])
                 else if n =? 8 then
                   b1 ← index buf 1; b2 ← index buf 2; b3 ← index buf 3;
                   b4 ← index buf 4; b5 ← index buf 5; b6 ← index buf 6; b7 ← index buf 7;
                   Ok (from_be [Z.land first 0x3f; b1; b2; b3; b4; b5; b6; b7])
                 else Panic);
        Ok (value, n)
  end.

Definition varint_len (value : Z) : Z :=
  if value <? 0x40 then 1
  else if value <? 0x4000 then 2
  else if value <? 0x40000000 then 4
  else 8.

(** [let (x, n) = decode_varint(&buf[offset..])?; offset += n;] *)
Definition read_varint (buf : bytes) (offset : Z) : qres (Z * Z) :=
  s ← slice_from buf offset;
  '(x, n) ← decode_varint s;
  Ok (x, offset + n).

(** [if buf.len() < offset + n { return Err(e) }
     let d = buf[offset..offset + n].to_vec(); offset += n;] *)
Definition read_data (e : QuicError) (buf : bytes) (offset n : Z) : qres (bytes * Z) :=
  stop ← add_u64 offset n;
  if len buf <? stop then Err e
  else d ← slice buf offset stop; Ok (d, stop).

(** ** The encoding of a value *)
Definition varint_ok (v : Z) : Prop := 0 ≤ v ≤ MAX_VARINT.
Definition varint_bytes (v : Z) : bytes := snd (encode_varint v []).

#[export] Instance varint_ok_dec v : Decision (varint_ok v).
Proof. unfold varint_ok. apply _. Defined.

Lemma varint_first t T x : T = t * 64 → 0 ≤ t → 0 ≤ x < 64 →
  Z.lor T x = T + x ∧ Z.shiftr (T + x) 6 = t ∧ Z.land (T + x) 0x3f = x.
Proof.
  intros -> ??. split; [by apply (lor_disjoint t x 6)|].
  rewrite shiftr_div by lia. change 0x3f with (2 ^ 6 - 1). rewrite land_low by lia.
  change (2 ^ 6) with 64. split; dlia.
Qed.

Lemma encode_varint_ok v buf :
  varint_ok v → encode_varint v buf = (Ok tt, buf ++ varint_bytes v).
Proof.
  intros [? ?]. unfold varint_bytes, encode_varint.
  replace (MAX_VARINT <? v) with false by lia.
  repeat case_match; autorewrite with enc; unfold push; by rewrite <- ?app_assoc.
Qed.

Lemma encode_varint_err v buf :
  MAX_VARINT < v →
  encode_varint v buf =
    (Err (InvalidFrame (Msg "varint value {value} exceeds QUIC maximum {MAX_VARINT}"
                            [v; MAX_VARINT])), buf).
Proof. intros. unfold encode_varint. by replace (MAX_VARINT <? v) with true by lia. Qed.

(** The bytes, as a tag byte and a big-endian tail. *)
Lemma varint_bytes_eq v : varint_ok v →
  varint_bytes v =
    if v <? 0x40 then [v]
    else if v <? 0x4000 then 0x40 + v / 2 ^ 8 :: to_be 1 v
    else if v <? 0x40000000 then 0x80 + v / 2 ^ 24 :: to_be 3 v
    else 0xc0 + v / 2 ^ 56 :: to_be 7 v.
Proof.
  intros [? Hm]. unfold MAX_VARINT in Hm. unfold varint_bytes, encode_varint.
  replace (MAX_VARINT <? v) with false by (unfold MAX_VARINT; lia).
  unfold as_u8; rewrite !shiftr_div by lia.
  destruct (v <? 0x40) eqn:?; [|destruct (v <? 0x4000) eqn:?; [|destruct (v <? 0x40000000) eqn:?]];
    autorewrite with enc; unfold push; cbn [snd app to_be]; rewrite ?Z.div_1_r.
  - by rewrite Z.mod_small by lia.
  - rewrite (Z.mod_small (v / 2 ^ 8)) by dlia.
    destruct (varint_first 1 0x40 (v / 2 ^ 8)) as [-> _]; [done|lia|dlia|done].
  - rewrite (Z.mod_small (v / 2 ^ 24)) by dlia.
    destruct (varint_first 2 0x80 (v / 2 ^ 24)) as [-> _]; [done|lia|dlia|done].
  - rewrite (Z.mod_small (v / 2 ^ 56)) by dlia.
    destruct (varint_first 3 0xc0 (v / 2 ^ 56)) as [-> _]; [done|lia|dlia|done].
Qed.

Lemma len_varint_bytes v : varint_ok v → len (varint_bytes v) = varint_len v.
Proof.
  intros H. rewrite varint_bytes_eq by done. unfold varint_len.
  repeat case_match; rewrite ?len_cons, ?len_to_be; done.
Qed.

Lemma varint_len_pos v : 1 ≤ varint_len v ≤ 8.
Proof. unfold varint_len. repeat case_match; lia. Qed.

Lemma varint_bytes_ok v : varint_ok v → bytes_ok (varint_bytes v).
Proof.
  intros H. rewrite varint_bytes_eq by done. destruct H as [? Hm]. unfold MAX_VARINT in Hm.
  repeat case_match; constructor; try apply to_be_bytes_ok; try constructor; unfold_ints; dlia.
Qed.

(** Reading the indices of a buffer that starts with known bytes. *)
Lemma index_cons_0 {E A} (x : A) l : index (E:=E) (x :: l) 0 = Ok x.
Proof. done. Qed.

Lemma decode_varint_bytes v rest :
  varint_ok v → decode_varint (varint_bytes v ++ rest) = Ok (v, varint_len v).
Proof.
  intros H. rewrite varint_bytes_eq by done. destruct H as [? Hm]. unfold MAX_VARINT in Hm.
  unfold varint_len.
  destruct (v <? 0x40) eqn:?; [|destruct (v <? 0x4000) eqn:?; [|destruct (v <? 0x40000000) eqn:?]];
    cbn [app to_be]; unfold decode_varint.
  - destruct (varint_first 0 0 v) as (_ & Hs & Hl); [lia..|]. rewrite Z.add_0_l in Hs, Hl.
    rewrite Hs, Hl, len_cons. pose proof (len_nonneg rest).
    change (1 ≪ 0) with 1. by replace (1 + len rest <? 1) with false by lia.
  - destruct (varint_first 1 0x40 (v / 2 ^ 8)) as (_ & -> & Hl); [lia|lia|dlia|].
    rewrite Hl, !len_cons. pose proof (len_nonneg rest).
    change (1 ≪ 1) with 2. replace (_ <? 2) with false by lia.
    transitivity (@Ok QuicError _ (from_be (v / 2 ^ 8 :: to_be 1 v), 2)); [reflexivity|].
    by rewrite from_be_split.
  - destruct (varint_first 2 0x80 (v / 2 ^ 24)) as (_ & -> & Hl); [lia|lia|dlia|].
    rewrite Hl, !len_cons. pose proof (len_nonneg rest).
    change (1 ≪ 2) with 4. replace (_ <? 4) with false by lia.
    transitivity (@Ok QuicError _ (from_be (v / 2 ^ 24 :: to_be 3 v), 4)); [reflexivity|].
    by rewrite from_be_split.
  - destruct (varint_first 3 0xc0 (v / 2 ^ 56)) as (_ & -> & Hl); [lia|lia|dlia|].
    rewrite Hl, !len_cons. pose proof (len_nonneg rest).
    change (1 ≪ 3) with 8. replace (_ <? 8) with false by lia.
    transitivity (@Ok QuicError _ (from_be (v / 2 ^ 56 :: to_be 7 v), 8)); [reflexivity|].
    by rewrite from_be_split.
Qed.

(** ** Decoding arbitrary input *)
Lemma bytes_ok_lookup buf i x : bytes_ok buf → buf !! i = Some x → is_u8 x.
Proof. intros H Hi. by eapply Forall_lookup_1 in Hi. Qed.

Lemma post_index_u8 {E} buf i :
  bytes_ok buf → 0 ≤ i < len buf → post is_u8 (index (E:=E) buf i).
Proof. intros. apply post_index; [done|]. intros x Hx. by eapply bytes_ok_lookup. Qed.

Lemma varint_tag first : is_u8 first →
  ∃ t, Z.shiftr first 6 = t ∧ (t = 0 ∨ t = 1 ∨ t = 2 ∨ t = 3) ∧ 0 ≤ Z.land first 0x3f < 64.
Proof.
  intros Hf. unfold is_u8, U8_MAX in Hf. eexists; split; [done|].
  rewrite shiftr_div by lia. change 0x3f with (2 ^ 6 - 1). rewrite land_low by lia.
  change (2 ^ 6) with 64. split; dlia.
Qed.

Lemma from_be_head x l n :
  0 ≤ x < 64 → bytes_ok l → len l = n → 0 ≤ from_be (x :: l) < 64 * 256 ^ n.
Proof.
  intros Hx Hl <-. rewrite from_be_cons. pose proof (from_be_bound l Hl).
  pose proof (len_nonneg l). assert (0 < 256 ^ len l) by lia. nia.
Qed.

Ltac post_index_step :=
  eapply post_bind; [apply post_index_u8; [done|]; rewrite ?len_cons in *; lia|];
  intros ? ?.

(** Every input gives an error or a value in range whose encoding is not longer. *)
Lemma decode_varint_post buf : bytes_ok buf →
  post (λ '(x, n), varint_ok x ∧ 1 ≤ n ≤ len buf ∧ varint_len x ≤ n) (decode_varint buf).
Proof.
  intros Hb. destruct buf as [|first buf]; [done|]. pose proof Hb as Hb'.
  apply Forall_cons in Hb' as [Hf _]. unfold decode_varint.
  destruct (varint_tag first Hf) as (t & -> & Ht & Hl).
  unfold varint_ok, MAX_VARINT, varint_len.
  destruct Ht as [-> | [-> | [-> | ->]]].
  - change (1 ≪ 0) with 1. destruct (_ <? 1) eqn:?; [done|]. cbn. repeat case_match; lia.
  - change (1 ≪ 1) with 2. destruct (_ <? 2) eqn:?; [done|]. cbn [Z.eqb Pos.eqb].
    apply (post_bind (λ v, 0 ≤ v < 64 * 256 ^ 1));
      [do 1 post_index_step; apply from_be_head; [done|by repeat apply Forall_cons_2|done]|].
    intros v Hv. change (256 ^ 1) with 256 in Hv. cbn. repeat case_match; lia.
  - change (1 ≪ 2) with 4. destruct (_ <? 4) eqn:?; [done|]. cbn [Z.eqb Pos.eqb].
    apply (post_bind (λ v, 0 ≤ v < 64 * 256 ^ 3));
      [do 3 post_index_step; apply from_be_head; [done|by repeat apply Forall_cons_2|done]|].
    intros v Hv. change (256 ^ 3) with 16777216 in Hv. cbn. repeat case_match; lia.
  - change (1 ≪ 3) with 8. destruct (_ <? 8) eqn:?; [done|]. cbn [Z.eqb Pos.eqb].
    apply (post_bind (λ v, 0 ≤ v < 64 * 256 ^ 7));
      [do 7 post_index_step; apply from_be_head; [done|by repeat apply Forall_cons_2|done]|].
    intros v Hv. change (256 ^ 7) with (2 ^ 56) in Hv. cbn. repeat case_match; lia.
Qed.

Lemma bytes_ok_drop n buf : bytes_ok buf → bytes_ok (drop n buf).
Proof. apply Forall_drop. Qed.

Lemma bytes_ok_take n buf : bytes_ok buf → bytes_ok (take n buf).
Proof. apply Forall_take. Qed.

#[export] Hint Resolve bytes_ok_drop bytes_ok_take : post.

Lemma read_varint_post buf off : bytes_ok buf → 0 ≤ off ≤ len buf →
  post (λ '(x, o), varint_ok x ∧ off < o ≤ len buf) (read_varint buf off).
Proof.
  intros Hb Ho. unfold read_varint. eapply post_bind; [by apply post_slice_from, eq_refl|].
  intros s <-. eapply post_bind; [by apply decode_varint_post, bytes_ok_drop|].
  intros [x n] (? & Hn & _). rewrite len_drop in Hn by done. cbn. split; [done|lia].
Qed.

#[global] Arguments read_varint : simpl never.
#[global] Arguments encode_varint : simpl never.
#[global] Arguments varint_bytes : simpl never.
#[global] Arguments read_data : simpl never.
#[global] Arguments decode_varint : simpl never.
#[global] Arguments varint_len : simpl never.

(** Writing a sequence of values. *)
Lemma encode_varint_bind {A} v (f : unit → qenc A) buf :
  varint_ok v → (encode_varint v ≫= f) buf = f tt (buf ++ varint_bytes v).
Proof. intros Hv. by apply stM_bind_ok, encode_varint_ok. Qed.

(** Reading back a value that was written. *)
Lemma read_varint_at buf off v rest : varint_ok v → at_pos buf off (varint_bytes v ++ rest) →
  read_varint buf off = Ok (v, off + varint_len v) ∧ at_pos buf (off + varint_len v) rest.
Proof.
  intros Hv Hp. unfold read_varint. rewrite (slice_from_at _ _ _ Hp). cbn.
  rewrite decode_varint_bytes by done. split; [done|].
  rewrite <- len_varint_bytes by done. by eapply at_pos_app.
Qed.

Lemma read_data_at e buf off d rest n : len buf ≤ ISIZE_MAX → n = len d →
  at_pos buf off (d ++ rest) →
  read_data e buf off n = Ok (d, off + n) ∧ at_pos buf (off + n) rest.
Proof.
  intros Hl -> Hp. pose proof (at_pos_len _ _ _ Hp) as He. rewrite len_app in He.
  pose proof (len_nonneg rest). unfold read_data, add_u64, ISIZE_MAX in *.
  replace (_ <=? U64_MAX) with true by (unfold_ints; lia). rewrite bind_ok.
  replace (_ <? _) with false by lia. rewrite (slice_at _ _ _ _ _ Hp eq_refl).
  split; [done|by eapply at_pos_app].
Qed.

Lemma read_data_post e buf off n : buf_ok buf → 0 ≤ off ≤ len buf → 0 ≤ n ≤ MAX_VARINT →
  post (λ '(d, o), bytes_ok d ∧ len d = n ∧ o = off + n ∧ o ≤ len buf) (read_data e buf off n).
Proof.
  intros [Hb Hl] Ho Hn. unfold read_data, add_u64, MAX_VARINT, MAX_BUF in *.
  replace (_ <=? U64_MAX) with true by (unfold_ints; lia). rewrite bind_ok.
  destruct (_ <? _) eqn:?; [done|].
  apply (post_bind (λ d, len d = n ∧ bytes_ok d)); [apply post_slice; [lia..|]|].
  - intros k Hk ->. split; [lia|]. by apply bytes_ok_take, bytes_ok_drop.
  - intros d [? ?]. cbn. split_and!; [done|lia..].
Qed.

(** ** Codecs: what a wire format promises to the code that uses it *)
Class Codec (A : Type) := {
  codec_enc : A → qenc unit;
  codec_dec : bytes → qres (A * Z);
  codec_dom : A → Prop;
}.
Definition codec_bytes `{Codec A} (a : A) : bytes := snd (codec_enc a []).

Class CodecLaws (A : Type) `{Codec A} := {
  codec_append : ∀ a buf, codec_dom a → codec_enc a buf = (Ok tt, buf ++ codec_bytes a);
  codec_roundtrip : ∀ a rest, codec_dom a → len (codec_bytes a ++ rest) ≤ ISIZE_MAX →
    codec_dec (codec_bytes a ++ rest) = Ok (a, len (codec_bytes a));
  codec_total : ∀ buf, buf_ok buf →
    post (λ '(a, n), codec_dom a ∧ 0 < n ≤ len buf) (codec_dec buf);
}.

#[export] Instance varint_codec : Codec Z := {|
  codec_enc := encode_varint; codec_dec := decode_varint; codec_dom := varint_ok |}.

#[export] Instance varint_codec_laws : CodecLaws Z.
Proof.
  split.
  - intros v buf Hv. by apply encode_varint_ok.
  - intros v rest Hv _. cbn. change (codec_bytes v) with (varint_bytes v).
    by rewrite decode_varint_bytes, len_varint_bytes.
  - intros buf [Hb _]. cbn. eapply post_mono; [by apply decode_varint_post|].
    intros [x n] (? & ? & _). split; [done|lia].
Qed.

(** ** Properties *)

(** C30: [encode_varint] appends the encoding of every value up to 2^62 - 1, of the length
    [varint_len] announces, and [decode_varint] reads the value and that length back
    whatever bytes follow; a larger value is refused and the buffer is left as it was. *)
Theorem varint_roundtrip v buf :
  is_u64 v →
  if decide (v ≤ MAX_VARINT) then
    ∃ bs, encode_varint v buf = (Ok tt, buf ++ bs) ∧ bytes_ok bs ∧ len bs = varint_len v ∧
          ∀ rest, decode_varint (bs ++ rest) = Ok (v, varint_len v)
  else
    ∃ m, encode_varint v buf = (Err (InvalidFrame m), buf).
Proof.
  intros [? ?]. case_decide.
  - assert (varint_ok v) by done. exists (varint_bytes v).
    auto using encode_varint_ok, varint_bytes_ok, len_varint_bytes, decode_varint_bytes.
  - eexists. apply encode_varint_err. lia.
Qed.

Lemma varint_roundtrip_witness :
  is_u64 15293 ∧
  (∃ bs, encode_varint 15293 [7] = (Ok tt, [7] ++ bs) ∧ bytes_ok bs ∧ len bs = 2 ∧
         ∀ rest, decode_varint (bs ++ rest) = Ok (15293, 2)) ∧
  encode_varint 15293 [7] = (Ok tt, [7; 0x7b; 0xbd]).
Proof.
  assert (is_u64 15293) as Hv by (unfold_ints; lia).
  split; [exact Hv|]. split; [exact (varint_roundtrip 15293 [7] Hv) | vm_compute; reflexivity].
Defined.

(** On every byte string [decode_varint] returns (it neither panics nor reads past the
    end): an error, or a value below 2^62 with the number of bytes read, and no valid
    encoding of a value is shorter than the one [encode_varint] writes. *)
Theorem decode_varint_total buf :
  bytes_ok buf →
  post (λ '(v, n), varint_ok v ∧ 1 ≤ n ≤ len buf ∧ len (varint_bytes v) ≤ n) (decode_varint buf).
Proof.
  intros Hb. eapply post_mono; [by apply decode_varint_post|].
  intros [v n] (? & ? & ?). by rewrite len_varint_bytes.
Qed.

Lemma decode_varint_total_witness :
  bytes_ok [0x80; 0; 0; 5] ∧ (varint_ok 5 ∧ 1 ≤ 4 ≤ 4 ∧ len (varint_bytes 5) ≤ 4) ∧
  decode_varint [0x80; 0; 0; 5] = Ok (5, 4) ∧ varint_bytes 5 = [5].
Proof.
  assert (bytes_ok [0x80; 0; 0; 5]) as Hb by (repeat apply Forall_cons_2; unfold_ints; try lia; constructor).
  split; [exact Hb|]. split; [exact (decode_varint_total _ Hb) | split; vm_compute; reflexivity].
Defined.
