(* ===== verification/PacketNumber.v ===== *)
(** * Packet numbers (starfish-quic/src/packet/mod.rs, RFC 9000 section 17.1)

    Truncation of a packet number to one to four bytes by the sender and its
    reconstruction by the receiver. *)

From S2P Require Import Prelude QuicError.

Definition encode_packet_number (pn largest_acked : Z) : bytes * Z :=
  let num_unacked := saturating_sub pn largest_acked in
  if num_unacked <? 0x80 then ([as_u8 pn], 1)
  else if num_unacked <? 0x8000 then
    let v := as_u16 (Z.land pn 0xffff) in (to_be 2 v, 2)
  else if num_unacked <? 0x800000 then
    let v := as_u32 (Z.land pn 0xffffff) in (drop 1 (to_be 4 v), 3)
  else
    let v := as_u32 (Z.land pn 0xffffffff) in (to_be 4 v, 4).

(** [1u64 << n]. *)
Definition shl1_u64 (n : Z) : qres Z := if n <? 64 then Ok (2 ^ n) else Panic.

Definition decode_packet_number (truncated_pn pn_len largest_pn : Z) : qres Z :=
  let pn_nbits := pn_len * 8 in
  pn_win ← shl1_u64 pn_nbits;
  let pn_hwin := pn_win / 2 in
  pn_mask ← sub_u64 pn_win 1;
  expected_pn ← add_u64 largest_pn 1;
  let candidate := Z.lor (Z.ldiff expected_pn pn_mask) truncated_pn in
  c_hwin ← add_u64 candidate pn_hwin;
  up ← (if c_hwin <=? expected_pn
        then limit ← sub_u64 (2 ^ 62) pn_win; Ok (candidate <? limit)
        else Ok false);
  if (up : bool) then add_u64 candidate pn_win
  else
    e_hwin ← add_u64 expected_pn pn_hwin;
    if (e_hwin <? candidate) && (pn_win <=? candidate) then sub_u64 candidate pn_win
    else Ok candidate.

(** ** Lemmas *)
Lemma candidate_eq e t k : 0 ≤ k → 0 ≤ e → 0 ≤ t < 2 ^ k →
  Z.lor (Z.ldiff e (2 ^ k - 1)) t = 2 ^ k * (e / 2 ^ k) + t.
Proof.
  intros. rewrite Z.sub_1_r, <- Z.ones_equiv, Z.ldiff_ones_r, shiftr_div, Z.shiftl_mul_pow2 by lia.
  rewrite lor_disjoint by lia. lia.
Qed.

Lemma adjacent_blocks W p q t r : 0 < W → 0 ≤ t < W → 0 ≤ r < W →
  W * q + r - W ≤ W * p + t ≤ W * q + r + W → p = q ∨ p = q + 1 ∨ p = q - 1.
Proof.
  intros. assert (W * (p - q) < W * 2) by lia. assert (W * -2 < W * (p - q)) by lia.
  apply Z.mul_lt_mono_pos_l in H3, H4; lia.
Qed.

(** The two tests move the candidate from the block of [e] to the block of [pn]. *)
Lemma pick_candidate H pn e :
  0 < H → 4 * H ≤ 2 ^ 62 → 0 ≤ pn < 2 ^ 62 → 0 ≤ e ≤ 2 ^ 62 → e - H < pn ≤ e + H →
  let W := 2 * H in
  let c := W * (e / W) + pn mod W in
  0 ≤ c ≤ 2 ^ 62 + W ∧
  if (c + H <=? e) && (c <? 2 ^ 62 - W) then pn = c + W
  else if (e + H <? c) && (W <=? c) then pn = c - W
  else pn = c.
Proof.
  intros HH HH' Hpn He Hw W c. subst c. assert (W = 2 * H) as HW by done. clearbody W.
  pose proof (Z.div_mod e W ltac:(lia)) as Ee. pose proof (Z.mod_pos_bound e W ltac:(lia)).
  pose proof (Z.div_mod pn W ltac:(lia)) as Ep. pose proof (Z.mod_pos_bound pn W ltac:(lia)).
  pose proof (Z.div_pos e W ltac:(lia) ltac:(lia)) as Hq. apply (Z.mul_le_mono_nonneg_l _ _ W) in Hq; [|lia].
  assert (pn / W = e / W ∨ pn / W = e / W + 1 ∨ pn / W = e / W - 1) as Hpq.
  { apply (adjacent_blocks W _ _ (pn mod W) (e mod W)); lia. }
  destruct Hpq as [Hpq | [Hpq | Hpq]]; rewrite Hpq in Ep.
  all: rewrite ?Z.mul_add_distr_l, ?Z.mul_sub_distr_l in Ep.
  all: clear Hpq; generalize dependent (W * (e / W)); generalize dependent (pn mod W);
    generalize dependent (e mod W); intros.
  all: split; [lia|].
  all: repeat case_match; lia.
Qed.

Lemma decode_packet_number_spec pn n lp : 1 ≤ n ≤ 4 → 0 ≤ pn < 2 ^ 62 → 0 ≤ lp < 2 ^ 62 →
  lp + 1 - 2 ^ (8 * n) / 2 < pn ≤ lp + 1 + 2 ^ (8 * n) / 2 →
  decode_packet_number (pn mod 2 ^ (8 * n)) n lp = Ok pn.
Proof.
  intros Hn Hpn Hlp Hwin. unfold decode_packet_number, shl1_u64.
  replace (n * 8 <? 64) with true by lia. rewrite (Z.mul_comm n 8). rewrite bind_ok.
  pose proof (candidate_eq (lp + 1) (pn mod 2 ^ (8 * n)) (8 * n)) as Hc.
  assert (∃ H, 2 ^ (8 * n) = 2 * H ∧ 0 < H ∧ H ≤ 2 ^ 31) as (H & HW & HH & HH').
  { exists (2 ^ (8 * n - 1)). rewrite <- Z.pow_succ_r by lia.
    split; [f_equal; lia|]. split; [lia|]. apply Z.pow_le_mono_r; lia. }
  rewrite HW in *. replace (2 * H / 2) with H in * by dlia.
  unfold add_u64, sub_u64. unfold_ints.
  replace (1 <=? 2 * H) with true by lia. rewrite bind_ok.
  replace (lp + 1 <=? _) with true by lia. rewrite bind_ok.
  rewrite Hc by (first [lia | apply Z.mod_pos_bound; lia]). clear Hc.
  destruct (pick_candidate H pn (lp + 1) HH ltac:(lia) Hpn ltac:(lia) Hwin) as [Hb Hpick].
  revert Hb Hpick. generalize (2 * H * ((lp + 1) / (2 * H)) + pn mod (2 * H)). intros c Hb Hpick.
  replace (c + H <=? 2 ^ 64 - 1) with true by lia. rewrite bind_ok.
  replace (2 * H <=? 2 ^ 62) with true by lia.
  destruct (c + H <=? lp + 1) eqn:?; rewrite !bind_ok; cbn [andb] in Hpick.
  1: destruct (c <? _) eqn:?.
  1: replace (c + 2 * H <=? _) with true by lia; by rewrite Hpick.
  all: replace (lp + 1 + H <=? _) with true by lia; rewrite bind_ok;
    destruct (_ && _) eqn:?; [replace (2 * H <=? c) with true by lia|]; by rewrite Hpick.
Qed.

Lemma encode_packet_number_spec pn la : 0 ≤ pn →
  ∃ n, snd (encode_packet_number pn la) = n ∧ 1 ≤ n ≤ 4 ∧
       len (fst (encode_packet_number pn la)) = n ∧
       bytes_ok (fst (encode_packet_number pn la)) ∧
       from_be (fst (encode_packet_number pn la)) = pn mod 2 ^ (8 * n) ∧
       (n < 4 → pn - la < 2 ^ (8 * n) / 2).
Proof.
  intros Hpn. unfold encode_packet_number, saturating_sub, as_u8, as_u16, as_u32.
  change 0xffffffff with (2 ^ 32 - 1). change 0xffffff with (2 ^ 24 - 1).
  change 0xffff with (2 ^ 16 - 1). rewrite !land_low by lia.
  repeat (case_match); eexists; (split; [done|]); cbn [fst snd];
    (split; [lia|]); rewrite ?len_to_be.
  - split_and!; [done| |done|change (2 ^ (8 * 1) / 2) with 128; lia].
    repeat constructor; unfold_ints; dlia.
  - split_and!; [done|apply to_be_bytes_ok| |change (2 ^ (8 * 2) / 2) with 0x8000; lia].
    rewrite from_be_to_be_small; change (256 ^ Z.of_nat 2) with (2 ^ 16);
      change (2 ^ (8 * 2)) with (2 ^ 16); dlia.
  - change (drop 1 (to_be 4 ((pn mod 2 ^ 24) mod 2 ^ 32))) with (to_be 3 ((pn mod 2 ^ 24) mod 2 ^ 32)).
    split_and!; [done|apply to_be_bytes_ok| |change (2 ^ (8 * 3) / 2) with 0x800000; lia].
    rewrite from_be_to_be_small; change (256 ^ Z.of_nat 3) with (2 ^ 24);
      change (2 ^ (8 * 3)) with (2 ^ 24); dlia.
  - split_and!; [done|apply to_be_bytes_ok| |lia].
    rewrite from_be_to_be_small; change (256 ^ Z.of_nat 4) with (2 ^ 32);
      change (2 ^ (8 * 4)) with (2 ^ 32); dlia.
Qed.

(** The truncated number as the receiver reads it, which is ahead by at most 126. *)
Lemma packet_number_roundtrip_aux pn la lp :
  0 ≤ pn < 2 ^ 62 → 0 ≤ la ≤ lp → lp < 2 ^ 62 → pn - la < 2 ^ 31 → lp ≤ pn + 126 →
  let bs := fst (encode_packet_number pn la) in
  decode_packet_number (from_be bs) (len bs) lp = Ok pn.
Proof.
  intros Hpn Hla Hlp Hout Hahead bs.
  destruct (encode_packet_number_spec pn la ltac:(lia)) as (n & Hs & Hn & Hl & _ & Hf & Hw).
  subst bs. rewrite Hl, Hf. apply decode_packet_number_spec; [done|done|lia|].
  assert (n = 1 ∨ n = 2 ∨ n = 3 ∨ n = 4) as Hc by lia.
  destruct Hc as [-> | [-> | [-> | ->]]].
  - change (2 ^ (8 * 1) / 2) with 128 in *. lia.
  - change (2 ^ (8 * 2) / 2) with 0x8000 in *. lia.
  - change (2 ^ (8 * 3) / 2) with 0x800000 in *. lia.
  - change (2 ^ (8 * 4) / 2) with (2 ^ 31) in *. lia.
Qed.

(** ** Properties *)

(** A packet number truncated by the sender is reconstructed by the receiver, with no
    overflow on the way: the receiver has received the largest acknowledged packet
    ([la <= lp]), fewer than 2^31 packets are outstanding, and the receiver is ahead of the
    packet by less than half the window of the length the sender chose. *)
Theorem packet_number_roundtrip pn la lp :
  0 ≤ pn < 2 ^ 62 → 0 ≤ la ≤ lp → lp < 2 ^ 62 → pn - la < 2 ^ 31 →
  let '(bs, n) := encode_packet_number pn la in
  lp + 1 < pn + 2 ^ (8 * n) / 2 →
  len bs = n ∧ decode_packet_number (from_be bs) n lp = Ok pn.
Proof.
  intros Hpn Hla Hlp Hout.
  destruct (encode_packet_number_spec pn la ltac:(lia)) as (n & Hs & Hn & Hl & _ & Hf & Hw).
  destruct (encode_packet_number pn la) as [bs m]. cbn in *. subst m. intros Hahead.
  split; [done|]. rewrite Hf. apply decode_packet_number_spec; [done|done|lia|].
  split; [lia|]. destruct (decide (n = 4)) as [->|]; [|lia].
  change (2 ^ (8 * 4) / 2) with (2 ^ 31). lia.
Qed.

Lemma packet_number_roundtrip_witness :
  encode_packet_number 0xac5c02 0xabe8bc = ([0x5c; 0x02], 2) ∧
  decode_packet_number 0x5c02 2 0xabe9ff = Ok 0xac5c02.
Proof.
  pose proof (packet_number_roundtrip 0xac5c02 0xabe8bc 0xabe9ff ltac:(lia) ltac:(lia)
    ltac:(lia) ltac:(lia)) as H.
  change (encode_packet_number 0xac5c02 0xabe8bc) with ([0x5c; 0x02], 2) in *. cbn in H.
  split; [done|]. apply H. vm_compute. reflexivity.
Defined.
