(* ===== verification/Frame.v ===== *)
(** * QUIC frames (starfish-quic/src/frame/, RFC 9000 section 19)

    ACK, CRYPTO and STREAM frames (ack.rs, crypto.rs, stream.rs), the [Frame]
    enum with [encode], [decode_frame] and [decode_frames] (mod.rs). *)

From S2P Require Import Prelude QuicError Varint.

Definition MAX_CID_LEN : Z := 20.

(** ** ACK frames (frame/ack.rs) *)
Record AckRange := { range_start : Z; range_end : Z }.
Record EcnCounts := { ect0 : Z; ect1 : Z; ce : Z }.
Record AckFrame := {
  largest_acknowledged : Z;
  ack_delay : Z;
  ranges : list AckRange;
  ecn : option EcnCounts;
}.

Fixpoint ack_encode_ranges (prev_smallest : Z) (rs : list AckRange) : qenc unit :=
  match rs with
  | [] => mret tt
  | r :: rs =>
      let gap := saturating_sub (saturating_sub prev_smallest (range_end r)) 2 in
      encode_varint gap;;
      let ack_range := saturating_sub (range_end r) (range_start r) in
      encode_varint ack_range;;
      ack_encode_ranges (range_start r) rs
  end.

Definition ack_encode (f : AckFrame) : qenc unit :=
  let frame_type := match ecn f with Some _ => 0x03 | None => 0x02 end in
  encode_varint frame_type;;
  encode_varint (largest_acknowledged f);;
  encode_varint (ack_delay f);;
  let range_count := match ranges f with [] => 0 | _ => len (ranges f) - 1 end in
  encode_varint range_count;;
  (match ranges f with
   | first :: more =>
       let first_ack_range := saturating_sub (largest_acknowledged f) (range_start first) in
       encode_varint first_ack_range;;
       ack_encode_ranges (range_start first) more
   | [] => encode_varint 0
   end);;
  match ecn f with
  | Some e => encode_varint (ect0 e);; encode_varint (ect1 e);; encode_varint (ce e)
  | None => mret tt
  end.

(** The loop [for _ in 0..range_count]; [n] is the number of rounds left. *)
Fixpoint ack_decode_ranges (n : nat) (buf : bytes) (offset smallest : Z)
    : qres (list AckRange * Z) :=
  match n with
  | O => Ok ([], offset)
  | S n =>
      '(gap, offset) ← read_varint buf offset;
      '(ack_range, offset) ← read_varint buf offset;
      gap_to_next_range ← ok_or (InvalidFrame (msg "ACK range gap overflow"))
        (checked_add_u64 gap 2);
      e ← ok_or (InvalidFrame (msg "ACK range gap underflow"))
        (checked_sub smallest gap_to_next_range);
      s ← ok_or (InvalidFrame (msg "ACK range underflow")) (checked_sub e ack_range);
      '(rs, offset) ← ack_decode_ranges n buf offset s;
      Ok ({| range_start := s; range_end := e |} :: rs, offset)
  end.

Definition decode_ack_frame (buf : bytes) (has_ecn : bool) : qres (AckFrame * Z) :=
  '(largest_ack, offset) ← read_varint buf 0;
  '(ack_delay, offset) ← read_varint buf offset;
  '(range_count, offset) ← read_varint buf offset;
  '(first_ack_range, offset) ← read_varint buf offset;
  first_start ← ok_or (InvalidFrame (msg "ACK first range underflow"))
    (checked_sub largest_ack first_ack_range);
  '(rs, offset) ← ack_decode_ranges (Z.to_nat range_count) buf offset first_start;
  '(ecn, offset) ←
    (if has_ecn then
       '(ect0, offset) ← read_varint buf offset;
       '(ect1, offset) ← read_varint buf offset;
       '(ce, offset) ← read_varint buf offset;
       Ok (Some {| ect0 := ect0; ect1 := ect1; ce := ce |}, offset)
     else Ok (None, offset));
  Ok ({| largest_acknowledged := largest_ack;
         ack_delay := ack_delay;
         ranges := {| range_start := first_start; range_end := largest_ack |} :: rs;
         ecn := ecn |}, offset).

(** ** CRYPTO frames (frame/crypto.rs) *)
Record CryptoFrame := { crypto_offset : Z; crypto_data : bytes }.

Definition crypto_encode (f : CryptoFrame) : qenc unit :=
  encode_varint 0x06;;
  encode_varint (crypto_offset f);;
  encode_varint (len (crypto_data f));;
  extend (crypto_data f).

Definition decode_crypto_frame (buf : bytes) : qres (CryptoFrame * Z) :=
  '(crypto_offset, offset) ← read_varint buf 0;
  '(length, offset) ← read_varint buf offset;
  '(data, offset) ← read_data (InvalidFrame (msg "CRYPTO frame data truncated")) buf offset length;
  Ok ({| crypto_offset := crypto_offset; crypto_data := data |}, offset).

(** ** STREAM frames (frame/stream.rs) *)
Record StreamFrame := {
  sf_stream_id : Z;
  sf_offset : Z;
  sf_fin : bool;
  sf_data : bytes;
}.

Definition stream_encode (f : StreamFrame) : qenc unit :=
  let type_byte := 0x08 in
  let type_byte := Z.lor type_byte 0x04 in
  let type_byte := Z.lor type_byte 0x02 in
  let type_byte := if sf_fin f then Z.lor type_byte 0x01 else type_byte in
  encode_varint type_byte;;
  encode_varint (sf_stream_id f);;
  encode_varint (sf_offset f);;
  encode_varint (len (sf_data f));;
  extend (sf_data f).

Definition decode_stream_frame (buf : bytes) (type_byte : Z) : qres (StreamFrame * Z) :=
  let has_offset := negb (Z.land type_byte 0x04 =? 0) in
  let has_length := negb (Z.land type_byte 0x02 =? 0) in
  let fin := negb (Z.land type_byte 0x01 =? 0) in
  '(stream_id, pos) ← read_varint buf 0;
  '(offset, pos) ← (if has_offset then read_varint buf pos else Ok (0, pos));
  '(data, pos) ←
    (if has_length then
       '(length, pos) ← read_varint buf pos;
       read_data (InvalidFrame (msg "STREAM frame data truncated")) buf pos length
     else d ← slice_from buf pos; Ok (d, len buf));
  Ok ({| sf_stream_id := stream_id; sf_offset := offset; sf_fin := fin; sf_data := data |}, pos).

(** ** The frame enum and its codec (frame/mod.rs) *)
Inductive Frame :=
  | Padding
  | Ping
  | Ack (ack : AckFrame)
  | ResetStream (stream_id application_error_code final_size : Z)
  | StopSending (stream_id application_error_code : Z)
  | Crypto (crypto : CryptoFrame)
  | NewToken (token : bytes)
  | Stream (stream : StreamFrame)
  | MaxData (maximum_data : Z)
  | MaxStreamData (stream_id maximum_stream_data : Z)
  | MaxStreams (bidirectional : bool) (maximum_streams : Z)
  | DataBlocked (maximum_data : Z)
  | StreamDataBlocked (stream_id maximum_stream_data : Z)
  | StreamsBlocked (bidirectional : bool) (maximum_streams : Z)
  | NewConnectionId (sequence_number retire_prior_to : Z) (connection_id : bytes)
                    (stateless_reset_token : bytes)
  | RetireConnectionId (sequence_number : Z)
  | PathChallenge (data : bytes)
  | PathResponse (data : bytes)
  | ConnectionClose (is_transport : bool) (error_code : Z) (frame_type : option Z)
                    (reason : bytes)
  | HandshakeDone.

Definition is_ack_eliciting (f : Frame) : bool :=
  match f with Ack _ | Padding => false | _ => true end.

Definition is_retransmittable (f : Frame) : bool :=
  match f with Ack _ | Padding | Ping | PathChallenge _ => false | _ => true end.

Definition frame_encode (f : Frame) : qenc unit :=
  match f with
  | Padding => push 0x00
  | Ping => push 0x01
  | Ack ack => ack_encode ack
  | ResetStream stream_id application_error_code final_size =>
      encode_varint 0x04;;
      encode_varint stream_id;;
      encode_varint application_error_code;;
      encode_varint final_size
  | StopSending stream_id application_error_code =>
      encode_varint 0x05;;
      encode_varint stream_id;;
      encode_varint application_error_code
  | Crypto crypto => crypto_encode crypto
  | NewToken token =>
      encode_varint 0x07;;
      encode_varint (len token);;
      extend token
  | Stream stream => stream_encode stream
  | MaxData maximum_data =>
      encode_varint 0x10;;
      encode_varint maximum_data
  | MaxStreamData stream_id maximum_stream_data =>
      encode_varint 0x11;;
      encode_varint stream_id;;
      encode_varint maximum_stream_data
  | MaxStreams bidirectional maximum_streams =>
      encode_varint (if bidirectional then 0x12 else 0x13);;
      encode_varint maximum_streams
  | DataBlocked maximum_data =>
      encode_varint 0x14;;
      encode_varint maximum_data
  | StreamDataBlocked stream_id maximum_stream_data =>
      encode_varint 0x15;;
      encode_varint stream_id;;
      encode_varint maximum_stream_data
  | StreamsBlocked bidirectional maximum_streams =>
      encode_varint (if bidirectional then 0x16 else 0x17);;
      encode_varint maximum_streams
  | NewConnectionId sequence_number retire_prior_to connection_id stateless_reset_token =>
      encode_varint 0x18;;
      encode_varint sequence_number;;
      encode_varint retire_prior_to;;
      push (as_u8 (len connection_id));;
      extend connection_id;;
      extend stateless_reset_token
  | RetireConnectionId sequence_number =>
      encode_varint 0x19;;
      encode_varint sequence_number
  | PathChallenge data =>
      encode_varint 0x1a;;
      extend data
  | PathResponse data =>
      encode_varint 0x1b;;
      extend data
  | ConnectionClose is_transport error_code frame_type reason =>
      encode_varint (if is_transport then 0x1c else 0x1d);;
      encode_varint error_code;;
      (if is_transport then encode_varint (default 0 frame_type) else mret tt);;
      encode_varint (len reason);;
      extend reason
  | HandshakeDone => encode_varint 0x1e
  end.

(** The [match frame_type] of [decode_frame], from the offset after the type. *)
Definition decode_frame_fields (frame_type : Z) (buf : bytes) (offset : Z) : qres (Frame * Z) :=
  match frame_type with
  | 0x01 => Ok (Ping, offset)
  | 0x02 | 0x03 =>
      s ← slice_from buf offset;
      '(ack, consumed) ← decode_ack_frame s (frame_type =? 0x03);
      Ok (Ack ack, offset + consumed)
  | 0x04 =>
      '(stream_id, offset) ← read_varint buf offset;
      '(error_code, offset) ← read_varint buf offset;
      '(final_size, offset) ← read_varint buf offset;
      Ok (ResetStream stream_id error_code final_size, offset)
  | 0x05 =>
      '(stream_id, offset) ← read_varint buf offset;
      '(error_code, offset) ← read_varint buf offset;
      Ok (StopSending stream_id error_code, offset)
  | 0x06 =>
      s ← slice_from buf offset;
      '(crypto, consumed) ← decode_crypto_frame s;
      Ok (Crypto crypto, offset + consumed)
  | 0x07 =>
      '(token_len, offset) ← read_varint buf offset;
      '(token, offset) ← read_data (InvalidFrame (msg "NEW_TOKEN truncated")) buf offset token_len;
      Ok (NewToken token, offset)
  | 0x08 | 0x09 | 0x0a | 0x0b | 0x0c | 0x0d | 0x0e | 0x0f =>
      s ← slice_from buf offset;
      '(stream_frame, consumed) ← decode_stream_frame s (as_u8 frame_type);
      Ok (Stream stream_frame, offset + consumed)
  | 0x10 =>
      '(max, offset) ← read_varint buf offset;
      Ok (MaxData max, offset)
  | 0x11 =>
      '(stream_id, offset) ← read_varint buf offset;
      '(max, offset) ← read_varint buf offset;
      Ok (MaxStreamData stream_id max, offset)
  | 0x12 | 0x13 =>
      '(max, offset) ← read_varint buf offset;
      Ok (MaxStreams (frame_type =? 0x12) max, offset)
  | 0x14 =>
      '(max, offset) ← read_varint buf offset;
      Ok (DataBlocked max, offset)
  | 0x15 =>
      '(stream_id, offset) ← read_varint buf offset;
      '(max, offset) ← read_varint buf offset;
      Ok (StreamDataBlocked stream_id max, offset)
  | 0x16 | 0x17 =>
      '(max, offset) ← read_varint buf offset;
      Ok (StreamsBlocked (frame_type =? 0x16) max, offset)
  | 0x18 =>
      '(seq, offset) ← read_varint buf offset;
      '(retire, offset) ← read_varint buf offset;
      if len buf <=? offset then Err (InvalidFrame (msg "NEW_CONNECTION_ID truncated"))
      else
        cid_len ← index buf offset;
        if negb ((1 <=? cid_len) && (cid_len <=? MAX_CID_LEN)) then
          Err (InvalidFrame (msg "NEW_CONNECTION_ID invalid connection ID length"))
        else
          let offset := offset + 1 in
          if len buf <? offset + cid_len + 16 then
            Err (InvalidFrame (msg "NEW_CONNECTION_ID truncated"))
          else
            connection_id ← slice buf offset (offset + cid_len);
            let offset := offset + cid_len in
            token ← slice buf offset (offset + 16);
            Ok (NewConnectionId seq retire connection_id token, offset + 16)
  | 0x19 =>
      '(seq, offset) ← read_varint buf offset;
      Ok (RetireConnectionId seq, offset)
  | 0x1a =>
      '(data, offset) ← read_data (InvalidFrame (msg "PATH_CHALLENGE truncated")) buf offset 8;
      Ok (PathChallenge data, offset)
  | 0x1b =>
      '(data, offset) ← read_data (InvalidFrame (msg "PATH_RESPONSE truncated")) buf offset 8;
      Ok (PathResponse data, offset)
  | 0x1c | 0x1d =>
      let is_transport := frame_type =? 0x1c in
      '(error_code, offset) ← read_varint buf offset;
      '(frame_type_field, offset) ←
        (if is_transport then
           '(ft, offset) ← read_varint buf offset; Ok (Some ft, offset)
         else Ok (None, offset));
      '(reason_len, offset) ← read_varint buf offset;
      '(reason, offset) ←
        read_data (InvalidFrame (msg "CONNECTION_CLOSE reason truncated")) buf offset reason_len;
      Ok (ConnectionClose is_transport error_code frame_type_field reason, offset)
  | 0x1e => Ok (HandshakeDone, offset)
  | _ => Err (InvalidFrame (Msg "unknown frame type: {frame_type:#x}" [frame_type]))
  end.

Definition decode_frame (buf : bytes) : qres (Frame * Z) :=
  match buf with
  | [] => Err (InvalidFrame (msg "empty frame data"))
  | b :: _ =>
      if b =? 0x00 then Ok (Padding, 1)
      else
        '(frame_type, type_len) ← decode_varint buf;
        decode_frame_fields frame_type buf type_len
  end.

(** [while !buf.is_empty()]: one round per frame, at most [fuel] rounds. *)
Fixpoint decode_frames_loop (fuel : nat) (buf : bytes) : qres (list Frame) :=
  match buf, fuel with
  | [], _ => Ok []
  | _, O => Diverge
  | _, S fuel =>
      '(frame, consumed) ← decode_frame buf;
      rest ← slice_from buf consumed;
      frames ← decode_frames_loop fuel rest;
      Ok (frame :: frames)
  end.

Definition decode_frames (buf : bytes) : qres (list Frame) :=
  decode_frames_loop (length buf) buf.
