(* ===== verification/FrameProps.v ===== *)
(** * Properties of the frame codec

    Well-formed frames, the round trip of every frame type, safety of the
    decoder on arbitrary input, and the frame sequence of a packet payload. *)

From S2P Require Import Prelude QuicError Varint Frame.

(** ** Well-formed frames: those with a faithful wire form *)

(** ACK ranges in descending order below [s], separated by at least one
    unacknowledged packet. *)
Fixpoint ranges_below (s : Z) (rs : list AckRange) : Prop :=
  match rs with
  | [] => True
  | r :: rs => 0 ≤ range_start r ≤ range_end r ∧ range_end r + 2 ≤ s ∧
               ranges_below (range_start r) rs
  end.

Definition ecn_wf (e : EcnCounts) : Prop :=
  varint_ok (ect0 e) ∧ varint_ok (ect1 e) ∧ varint_ok (ce e).

Definition ack_wf (f : AckFrame) : Prop :=
  varint_ok (largest_acknowledged f) ∧ varint_ok (ack_delay f) ∧
  match ranges f with
  | [] => False
  | r :: rs => range_end r = largest_acknowledged f ∧ 0 ≤ range_start r ≤ range_end r ∧
               ranges_below (range_start r) rs
  end ∧
  match ecn f with Some e => ecn_wf e | None => True end.

Definition data_wf (d : bytes) : Prop := bytes_ok d ∧ len d ≤ MAX_VARINT.
Definition array_wf (n : Z) (d : bytes) : Prop := bytes_ok d ∧ len d = n.

Definition frame_wf (f : Frame) : Prop :=
  match f with
  | Padding | Ping | HandshakeDone => True
  | Ack a => ack_wf a
  | ResetStream a b c => varint_ok a ∧ varint_ok b ∧ varint_ok c
  | StopSending a b | MaxStreamData a b | StreamDataBlocked a b => varint_ok a ∧ varint_ok b
  | Crypto c => varint_ok (crypto_offset c) ∧ data_wf (crypto_data c)
  | NewToken t => data_wf t
  | Stream s => varint_ok (sf_stream_id s) ∧ varint_ok (sf_offset s) ∧ data_wf (sf_data s)
  | MaxData a | DataBlocked a | RetireConnectionId a => varint_ok a
  | MaxStreams _ a | StreamsBlocked _ a => varint_ok a
  | NewConnectionId a b cid tok =>
      varint_ok a ∧ varint_ok b ∧ (bytes_ok cid ∧ 1 ≤ len cid ≤ MAX_CID_LEN) ∧ array_wf 16 tok
  | PathChallenge d | PathResponse d => array_wf 8 d
  | ConnectionClose t e ft r =>
      varint_ok e ∧ data_wf r ∧
      match t, ft with
      | true, Some x => varint_ok x
      | false, None => True
      | _, _ => False
      end
  end.

(** ** Automation *)

(** [m] reads [a] and stops where [rest] begins. *)
Definition parses {A} (m : qres (A * Z)) (a : A) (buf rest : bytes) : Prop :=
  ∃ o, m = Ok (a, o) ∧ at_pos buf o rest.

Lemma varint_ok_small v : 0 ≤ v < 0x40 → varint_ok v.
Proof. unfold varint_ok, MAX_VARINT. lia. Qed.

Lemma data_len_ok d : data_wf d → varint_ok (len d).
Proof. intros [_ ?]. split; [apply len_nonneg|done]. Qed.

Create HintDb wf.
#[export] Hint Resolve data_len_ok : wf.
#[export] Hint Extern 2 (varint_ok _) => apply varint_ok_small; lia : wf.

Ltac wf_destruct :=
  repeat match goal with H : _ ∧ _ |- _ => destruct H end.

(** Evaluate a chain of writes. *)
Ltac enc_steps :=
  repeat first
    [ rewrite encode_varint_bind by eauto with wf
    | rewrite encode_varint_ok by eauto with wf
    | rewrite push_bind | rewrite extend_bind | rewrite mret_bind ].

(** Read the next integer at the current position. *)
Ltac rd :=
  match goal with
  | H : at_pos ?buf ?off (varint_bytes ?v ++ ?rest) |- context [read_varint ?buf ?off] =>
      let E := fresh "E" in let H' := fresh "P" in
      destruct (read_varint_at buf off v rest) as [E H']; [eauto with wf | exact H |];
      rewrite E; clear E H; rename H' into H; rewrite bind_ok; cbn beta iota
  end.

(** ** ACK frames *)
Fixpoint ack_ranges_bytes (s : Z) (rs : list AckRange) : bytes :=
  match rs with
  | [] => []
  | r :: rs => varint_bytes (s - range_end r - 2) ++
               varint_bytes (range_end r - range_start r) ++
               ack_ranges_bytes (range_start r) rs
  end.

Lemma ranges_below_len s rs : 0 ≤ s → ranges_below s rs → 2 * len rs ≤ s.
Proof.
  revert s. induction rs as [|r rs IH]; intros s ?; cbn [ranges_below]; [unfold len; cbn; lia|].
  intros (? & ? & Hb). apply IH in Hb; [|lia]. rewrite len_cons. lia.
Qed.

Lemma ack_encode_ranges_eq s rs buf : s ≤ MAX_VARINT → ranges_below s rs →
  ack_encode_ranges s rs buf = (Ok tt, buf ++ ack_ranges_bytes s rs).
Proof.
  revert s buf. induction rs as [|r rs IH]; intros s buf Hs; cbn; [by rewrite app_nil_r|].
  intros (? & ? & Hb). unfold saturating_sub.
  rewrite !encode_varint_bind by (unfold varint_ok; lia).
  rewrite IH, <- !app_assoc by (done || lia). do 3 f_equal; [|f_equal]; f_equal; lia.
Qed.

Lemma ack_decode_ranges_eq s rs buf off rest : s ≤ MAX_VARINT → ranges_below s rs →
  at_pos buf off (ack_ranges_bytes s rs ++ rest) →
  parses (ack_decode_ranges (length rs) buf off s) rs buf rest.
Proof.
  revert s off. induction rs as [|r rs IH]; intros s off Hs; cbn; [intros _ ?; by eexists|].
  intros (Hr & Hg & Hb). rewrite <- !app_assoc. intros Hp.
  assert (varint_ok (s - range_end r - 2)) by (unfold varint_ok; lia).
  assert (varint_ok (range_end r - range_start r)) by (unfold varint_ok; lia).
  do 2 rd. unfold checked_add_u64, checked_sub, MAX_VARINT in *.
  replace (_ <=? U64_MAX) with true by (unfold_ints; lia). cbn [ok_or]. rewrite bind_ok.
  replace (_ <=? s) with true by lia. cbn [ok_or]. rewrite bind_ok.
  replace (_ <=? _) with true by lia. cbn [ok_or]. rewrite bind_ok.
  replace (s - (s - range_end r - 2 + 2)) with (range_end r) by lia.
  replace (range_end r - (range_end r - range_start r)) with (range_start r) by lia.
  destruct (IH (range_start r) _ ltac:(lia) Hb Hp) as (o & -> & ?).
  rewrite bind_ok. exists o. by destruct r.
Qed.

Definition ecn_bytes (o : option EcnCounts) : bytes :=
  match o with
  | Some e => varint_bytes (ect0 e) ++ varint_bytes (ect1 e) ++ varint_bytes (ce e)
  | None => []
  end.

(** The fields of an ACK frame after its type. *)
Definition ack_fields (f : AckFrame) : bytes :=
  varint_bytes (largest_acknowledged f) ++ varint_bytes (ack_delay f) ++
  varint_bytes (len (ranges f) - 1) ++
  match ranges f with
  | r :: rs => varint_bytes (largest_acknowledged f - range_start r) ++
               ack_ranges_bytes (range_start r) rs
  | [] => []
  end ++ ecn_bytes (ecn f).

Lemma ack_count_ok f : ack_wf f → varint_ok (len (ranges f) - 1).
Proof.
  intros ([_ Hm] & _ & Hr & _). destruct (ranges f) as [|r rs]; [done|].
  destruct Hr as (He & ? & Hb). rewrite len_cons. pose proof (len_nonneg rs).
  apply ranges_below_len in Hb; [|lia]. unfold varint_ok. lia.
Qed.

Lemma ack_encode_eq f buf : ack_wf f →
  ack_encode f buf =
    (Ok tt, buf ++ [match ecn f with Some _ => 0x03 | None => 0x02 end] ++ ack_fields f).
Proof.
  intros Hf. pose proof (ack_count_ok f Hf). destruct Hf as ((? & ?) & ? & Hr & He).
  unfold ack_encode, ack_fields, saturating_sub. destruct (ranges f) as [|r rs]; [done|].
  destruct Hr as (Hre & ? & Hb).
  rewrite !encode_varint_bind by (first [done | destruct (ecn f); eauto with wf]).
  cbn beta iota. erewrite stM_bind_ok by
    (rewrite encode_varint_bind by (unfold varint_ok; lia); by apply ack_encode_ranges_eq; [lia|]).
  rewrite Z.max_r by lia.
  destruct (ecn f) as [e|]; cbn; [destruct He as (? & ? & ?); enc_steps|];
    rewrite <- ?app_assoc, ?app_nil_r; done.
Qed.

Lemma decode_ack_eq f rest : ack_wf f →
  parses (decode_ack_frame (ack_fields f ++ rest) (bool_decide (is_Some (ecn f)))) f
         (ack_fields f ++ rest) rest.
Proof.
  intros Hf. pose proof (ack_count_ok f Hf) as Hc. destruct Hf as (Hla & ? & Hr & He).
  pose proof Hla as [? ?].
  pose proof (at_pos_0 (ack_fields f ++ rest)) as P.
  revert P Hc. generalize (ack_fields f ++ rest) at 1 3 4. intros buf P Hc.
  unfold ack_fields in P. destruct (ranges f) as [|r rs] eqn:Er; [done|].
  destruct Hr as (Hre & ? & Hb). rewrite <- !app_assoc in P. unfold decode_ack_frame.
  assert (varint_ok (largest_acknowledged f - range_start r)) by (unfold varint_ok; lia).
  do 4 rd. unfold checked_sub. replace (_ <=? _) with true by lia. cbn [ok_or]. rewrite bind_ok.
  replace (_ - (_ - _)) with (range_start r) by lia.
  replace (Z.to_nat _) with (length rs) by (rewrite len_cons; unfold len; lia).
  destruct (ack_decode_ranges_eq (range_start r) rs buf _ _ ltac:(lia) Hb P) as (o & -> & P').
  clear P. rename P' into P.
  rewrite bind_ok. destruct f as [la d rgs [e|]]; cbn in *; subst.
  - destruct He as (? & ? & ?). rewrite <- !app_assoc in P. do 3 rd.
    eexists; split; [|done]. by destruct r, e.
  - eexists; split; [|done]. by destruct r.
Qed.

(** ** The round trip of every frame type *)
Definition frame_bytes (f : Frame) : bytes := snd (frame_encode f []).

Lemma decode_frame_tag t X : 0 < t < 64 →
  decode_frame (t :: X) = decode_frame_fields t (t :: X) 1.
Proof.
  intros Ht. unfold decode_frame. replace (t =? 0) with false by lia.
  assert (varint_bytes t = [t]) as Hb.
  { rewrite varint_bytes_eq by (apply varint_ok_small; lia). by replace (t <? 0x40) with true by lia. }
  assert (varint_len t = 1) as Hl by (unfold varint_len; by replace (t <? 0x40) with true by lia).
  pose proof (decode_varint_bytes t X ltac:(apply varint_ok_small; lia)) as E.
  rewrite Hb, Hl in E. cbn [app] in E. rewrite E. done.
Qed.

Lemma varint_bytes_small t : 0 ≤ t < 64 → varint_bytes t = [t].
Proof.
  intros. rewrite varint_bytes_eq by (apply varint_ok_small; lia).
  by replace (t <? 0x40) with true by lia.
Qed.

Lemma array_len n d : array_wf n d → n = len d.
Proof. by intros [_ <-]. Qed.
#[export] Hint Resolve array_len : wf.

(** Read the next bytes at the current position. *)
Ltac rdata :=
  match goal with
  | H : at_pos ?buf ?off (?d ++ ?rest) |- context [read_data ?e ?buf ?off ?n] =>
      let E := fresh "E" in let H' := fresh "P" in
      destruct (read_data_at e buf off d rest n) as [E H'];
      [done | first [reflexivity | eauto with wf] | exact H |];
      rewrite E; clear E H; rename H' into H; rewrite bind_ok; cbn beta iota
  end.

Lemma crypto_fields_eq c rest buf : buf =
    varint_bytes (crypto_offset c) ++ varint_bytes (len (crypto_data c)) ++ crypto_data c ++ rest →
  frame_wf (Crypto c) → len buf ≤ ISIZE_MAX →
  parses (decode_crypto_frame buf) c buf rest.
Proof.
  intros Hbuf [? ?] Hl. pose proof (at_pos_0 buf) as P. rewrite Hbuf in P at 2.
  unfold decode_crypto_frame. do 2 rd. rdata. eexists. split; [|done]. by destruct c.
Qed.

Lemma stream_fields_eq s rest buf : buf =
    varint_bytes (sf_stream_id s) ++ varint_bytes (sf_offset s) ++
    varint_bytes (len (sf_data s)) ++ sf_data s ++ rest →
  frame_wf (Stream s) → len buf ≤ ISIZE_MAX →
  parses (decode_stream_frame buf (if sf_fin s then 0x0f else 0x0e)) s buf rest.
Proof.
  intros Hbuf (? & ? & ?) Hl. pose proof (at_pos_0 buf) as P. rewrite Hbuf in P at 2.
  unfold decode_stream_frame.
  replace (negb (Z.land _ 0x04 =? 0)) with true by (by destruct (sf_fin s)).
  replace (negb (Z.land _ 0x02 =? 0)) with true by (by destruct (sf_fin s)).
  replace (negb (Z.land _ 0x01 =? 0)) with (sf_fin s) by (by destruct (sf_fin s)).
  do 3 rd. rdata. eexists; split; [|done]. by destruct s.
Qed.

Lemma new_cid_fields_eq a b cid tok rest buf off :
  frame_wf (NewConnectionId a b cid tok) →
  at_pos buf off (varint_bytes a ++ varint_bytes b ++ [as_u8 (len cid)] ++ cid ++ tok ++ rest) →
  parses (decode_frame_fields 0x18 buf off) (NewConnectionId a b cid tok) buf rest.
Proof.
  intros (? & ? & [_ Hc] & [_ Ht]) P. cbn [decode_frame_fields]. do 2 rd.
  assert (as_u8 (len cid) = len cid) as Hu by (unfold as_u8, MAX_CID_LEN in *; rewrite Z.mod_small; lia).
  rewrite Hu in *. cbn [app] in *. pose proof (at_pos_len _ _ _ P) as Hl.
  rewrite len_cons, !len_app in Hl. pose proof (len_nonneg rest).
  replace (len buf <=? _) with false by lia. rewrite (index_at _ _ _ _ P), bind_ok.
  replace (negb _) with false by lia. cbn beta iota zeta.
  replace (len buf <? _) with false by lia. apply at_pos_cons in P.
  rewrite (slice_at _ _ cid _ _ P eq_refl), bind_ok. cbn beta iota zeta. apply at_pos_app in P.
  rewrite (slice_at _ _ tok rest _ P), bind_ok by lia. apply at_pos_app in P.
  rewrite Ht in P. by eexists.
Qed.

Lemma decode_tagged t X f rest : 0 < t < 64 → len (t :: X) ≤ ISIZE_MAX →
  (∀ buf, len buf ≤ ISIZE_MAX → at_pos buf 1 X → parses (decode_frame_fields t buf 1) f buf rest) →
  parses (decode_frame (t :: X)) f (t :: X) rest.
Proof.
  intros Ht Hl H. rewrite decode_frame_tag by done.
  apply H; [done|]. apply (at_pos_prefix [t] X).
Qed.

(** Delegation to a decoder of the fields, as for ACK, CRYPTO and STREAM. *)
Lemma parses_sub {A} (dec : bytes → qres (A * Z)) (mk : A → Frame) buf X a rest :
  at_pos buf 1 X → parses (dec X) a X rest →
  parses (s ← slice_from buf 1; '(x, n) ← dec s; Ok (mk x, 1 + n)) (mk a) buf rest.
Proof.
  intros P (o & E & Po). rewrite (slice_from_at _ _ _ P), bind_ok, E, bind_ok.
  eexists; split; [done|]. by eapply at_pos_trans.
Qed.

Lemma stream_encode_eq s buf : frame_wf (Stream s) →
  stream_encode s buf =
    (Ok tt, buf ++ [if sf_fin s then 0x0f else 0x0e] ++ varint_bytes (sf_stream_id s) ++
            varint_bytes (sf_offset s) ++ varint_bytes (len (sf_data s)) ++ sf_data s).
Proof.
  intros (? & ? & ?). unfold stream_encode.
  replace (if sf_fin s then _ else _) with (if sf_fin s then 0x0f else 0x0e) by (by destruct (sf_fin s)).
  rewrite encode_varint_bind by (destruct (sf_fin s); eauto with wf). enc_steps.
  unfold extend. rewrite varint_bytes_small, <- !app_assoc by (destruct (sf_fin s); lia). done.
Qed.

Ltac frame_start :=
  wf_destruct; unfold frame_bytes;
  cbn [frame_encode]; unfold crypto_encode; enc_steps; unfold extend, push; cbn [snd app];
  rewrite <- ?app_assoc.
Ltac frame_tag := rewrite ?varint_bytes_small by lia; cbn [app]; intros Hl; apply decode_tagged; [lia|done|];
  clear Hl; intros buf Hl P.
Ltac frame_read :=
  cbn [decode_frame_fields]; repeat first [rd | rdata]; eexists; split; [reflexivity|done].

Lemma decode_frame_bytes f rest : frame_wf f → len (frame_bytes f ++ rest) ≤ ISIZE_MAX →
  parses (decode_frame (frame_bytes f ++ rest)) f (frame_bytes f ++ rest) rest.
Proof.
  intros Hf. destruct f; cbn [frame_wf] in Hf.
  - intros _. exists 1. split; [done|]. apply (at_pos_prefix [0] rest).
  - frame_start. frame_tag. frame_read.
  - unfold frame_bytes; cbn [frame_encode]. rewrite ack_encode_eq by done. cbn [snd app].
    intros Hl. apply decode_tagged; [destruct (ecn ack); lia|done|]. intros buf _ P.
    pose proof (decode_ack_eq ack rest Hf) as Hd.
    destruct (ecn ack); cbn [decode_frame_fields]; by eapply (parses_sub _ Ack).
  - frame_start. frame_tag. frame_read.
  - frame_start. frame_tag. frame_read.
  - frame_start. frame_tag. cbn [decode_frame_fields]. eapply (parses_sub _ Crypto); [done|].
    apply crypto_fields_eq; [done|done|]. apply at_pos_len in P. pose proof (len_nonneg buf). lia.
  - frame_start. frame_tag. frame_read.
  - unfold frame_bytes; cbn [frame_encode]. rewrite stream_encode_eq by done. cbn [snd app].
    rewrite <- !app_assoc.
    intros Hl. apply decode_tagged; [destruct (sf_fin stream); lia|done|]. clear Hl. intros buf Hl P.
    apply at_pos_len in P as Hl'.
    pose proof (λ H, stream_fields_eq stream rest _ eq_refl Hf H) as Hd.
    destruct (sf_fin stream); cbn [decode_frame_fields];
      (eapply (parses_sub (λ s, decode_stream_frame s _) Stream); [done|]); apply Hd; lia.
  - frame_start. frame_tag. frame_read.
  - frame_start. frame_tag. frame_read.
  - destruct bidirectional; frame_start; frame_tag; frame_read.
  - frame_start. frame_tag. frame_read.
  - frame_start. frame_tag. frame_read.
  - destruct bidirectional; frame_start; frame_tag; frame_read.
  - pose proof Hf as Hf'. frame_start. frame_tag. eapply new_cid_fields_eq; [done|]. exact P.
  - frame_start. frame_tag. frame_read.
  - frame_start. frame_tag. frame_read.
  - frame_start. frame_tag. frame_read.
  - destruct is_transport, frame_type as [ft|]; wf_destruct; try done.
    + frame_start. frame_tag. cbn [default] in P. cbn [decode_frame_fields].
      rd. change (0x1c =? 0x1c) with true. cbn iota. rd. rewrite bind_ok; cbn beta iota.
      rd. rdata. eexists; split; [reflexivity|done].
    + frame_start. frame_tag. cbn [decode_frame_fields].
      rd. change (0x1d =? 0x1c) with false. cbn iota. rewrite bind_ok; cbn beta iota.
      rd. rdata. eexists; split; [reflexivity|done].
  - frame_start. frame_tag. frame_read.
Qed.

Lemma frame_encode_eq f buf : frame_wf f →
  frame_encode f buf = (Ok tt, buf ++ frame_bytes f).
Proof.
  intros Hf. unfold frame_bytes. destruct f; cbn [frame_encode].
  all: try (rewrite !ack_encode_eq by done; done).
  all: try (rewrite !stream_encode_eq by done; done).
  all: try (destruct is_transport, frame_type; cbn in Hf; wf_destruct; try done).
  all: try destruct bidirectional.
  all: try (cbn in Hf; wf_destruct); unfold crypto_encode; enc_steps; unfold extend, push;
    cbn [snd app default]; rewrite <- ?app_assoc; try done.
Qed.

(** ** Decoding arbitrary input

    [reads m Q buf off]: [m] returns; on success its value satisfies [Q] and
    the cursor has moved to an offset between [off] and the end of [buf]. *)
Definition reads {A} (Q : A → Prop) (buf : bytes) (off : Z) (m : qres (A * Z)) : Prop :=
  post (λ '(a, o), Q a ∧ off ≤ o ≤ len buf) m.

Lemma reads_varint {A} Q buf off off0 (k : Z * Z → qres (A * Z)) :
  buf_ok buf → 0 ≤ off0 ≤ off → off ≤ len buf →
  (∀ v o, varint_ok v → off < o ≤ len buf → reads Q buf off0 (k (v, o))) →
  reads Q buf off0 (read_varint buf off ≫= k).
Proof.
  intros [Hb _] ?? H. eapply post_bind; [apply read_varint_post; [done|lia]|].
  intros [v o] [? ?]. by apply H.
Qed.

Lemma reads_data {A} Q e buf off off0 n (k : bytes * Z → qres (A * Z)) :
  buf_ok buf → 0 ≤ off0 ≤ off → off ≤ len buf → 0 ≤ n ≤ MAX_VARINT →
  (∀ d o, bytes_ok d → len d = n → off ≤ o ≤ len buf → reads Q buf off0 (k (d, o))) →
  reads Q buf off0 (read_data e buf off n ≫= k).
Proof.
  intros Hb ??? H. eapply post_bind; [apply read_data_post; [done|lia|done]|].
  intros [d o] (? & ? & -> & ?). apply H; [done..|lia].
Qed.

Lemma reads_ok {A} (Q : A → Prop) buf off0 a o :
  Q a → off0 ≤ o ≤ len buf → reads Q buf off0 (Ok (a, o)).
Proof. done. Qed.

Lemma reads_bind {A B} (P : A → Prop) (Q : B → Prop) buf off0 m (k : A * Z → qres (B * Z)) :
  reads P buf off0 m →
  (∀ a o, P a → off0 ≤ o ≤ len buf → reads Q buf off0 (k (a, o))) →
  reads Q buf off0 (m ≫= k).
Proof. intros Hm Hk. eapply post_bind; [exact Hm|]. intros [a o] [? ?]. by apply Hk. Qed.

(** One step of a decoder: an integer, a block of bytes, an error or the result. *)
Ltac rds :=
  first
    [ apply reads_varint; [done|lia|lia|]; intros ? ? ? ?; cbn beta iota
    | apply reads_data; [done|lia|lia|unfold varint_ok, MAX_VARINT in *; lia|]; intros ? ? ? ? ?; cbn beta iota
    | exact I ].
Ltac reads_finish := apply reads_ok; [|lia]; cbn; unfold array_wf, data_wf, varint_ok in *; wf_destruct; split_and?; try done; lia.

Lemma buf_ok_drop n buf : buf_ok buf → buf_ok (drop n buf).
Proof.
  intros [? ?]. split; [by apply bytes_ok_drop|]. unfold len in *. rewrite length_drop. lia.
Qed.

Lemma reads_sub {A} (Q : A → Prop) (R : Frame → Prop) (mk : A → Frame) (dec : bytes → qres (A * Z)) buf off :
  buf_ok buf → 0 ≤ off ≤ len buf → (∀ a, Q a → R (mk a)) →
  (∀ s, buf_ok s → reads Q s 0 (dec s)) →
  reads R buf off (s ← slice_from buf off; '(x, n) ← dec s; Ok (mk x, off + n)).
Proof.
  intros Hb Ho HR Hd. eapply post_bind; [by apply post_slice_from, eq_refl|]. intros s <-.
  eapply post_bind; [by apply Hd, buf_ok_drop|]. intros [a n] [? Hn]. rewrite len_drop in Hn by done.
  split; [by apply HR|lia].
Qed.

Lemma ack_decode_ranges_reads n buf off off0 s :
  buf_ok buf → 0 ≤ off0 ≤ off → off ≤ len buf → 0 ≤ s ≤ MAX_VARINT →
  reads (ranges_below s) buf off0 (ack_decode_ranges n buf off s).
Proof.
  intros Hb. revert off s. induction n as [|n IH]; intros off s ???; cbn [ack_decode_ranges].
  { apply reads_ok; [done|lia]. }
  do 2 rds. unfold varint_ok in *. unfold checked_add_u64, checked_sub, MAX_VARINT in *.
  replace (_ <=? U64_MAX) with true by (unfold_ints; lia). cbn [ok_or]. rewrite bind_ok.
  destruct (_ <=? s) eqn:?; [|done]. cbn [ok_or]. rewrite bind_ok.
  dif; [|done]. cbn [ok_or]. rewrite bind_ok.
  eapply post_bind; [apply IH; lia|]. intros [rs o'] [? ?]. apply reads_ok; [|done].
  cbn. split_and!; [lia..|done].
Qed.

Lemma decode_ack_reads s e : buf_ok s → reads ack_wf s 0 (decode_ack_frame s e).
Proof.
  intros Hb. pose proof (len_nonneg s). unfold decode_ack_frame. do 4 rds.
  unfold checked_sub. destruct (_ <=? _) eqn:?; [|done]. cbn [ok_or]. rewrite bind_ok.
  unfold varint_ok in *.
  eapply post_bind; [apply (ack_decode_ranges_reads _ _ _ 0); (done || lia)|].
  intros [rs o4] [? ?]. destruct e.
  - apply (reads_bind (from_option ecn_wf False)).
    + cbn iota. do 3 rds. by apply reads_ok; [|lia].
    + intros [x|] o' ? ?; [|done]. apply reads_ok; [|done].
      unfold ack_wf, varint_ok; cbn; split_and!; [lia..|done|done].
  - rewrite bind_ok. apply reads_ok; [|done].
    unfold ack_wf, varint_ok; cbn; split_and!; [lia..|done|done].
Qed.

Lemma decode_crypto_reads s : buf_ok s → reads (λ c, frame_wf (Crypto c)) s 0 (decode_crypto_frame s).
Proof.
  intros Hb. pose proof (len_nonneg s). unfold decode_crypto_frame. do 3 rds. reads_finish.
Qed.

Lemma decode_stream_reads s t : buf_ok s →
  reads (λ f, frame_wf (Stream f)) s 0 (decode_stream_frame s t).
Proof.
  intros Hb. pose proof (len_nonneg s). unfold decode_stream_frame. rds.
  apply (reads_bind varint_ok).
  { destruct (negb _); [|by apply reads_ok; [apply varint_ok_small|]; lia].
    eapply post_mono; [apply read_varint_post; [apply Hb|lia]|]. intros [x n] [? ?]. split; [done|lia]. }
  intros x n ? ?. cbn beta iota. apply (reads_bind data_wf).
  { destruct (negb _).
    - rds. eapply post_mono; [by apply read_data_post; [|lia|]|].
      intros [d o'] (? & ? & -> & ?). unfold data_wf, varint_ok in *. split_and!; [done|lia..].
    - eapply post_bind; [by apply post_slice_from, eq_refl|]. intros d <-. apply reads_ok; [|lia].
      destruct (buf_ok_drop (Z.to_nat n) s Hb). done. }
  intros d o5 ? ?. reads_finish.
Qed.


Lemma decode_new_cid_reads buf off : buf_ok buf → 0 ≤ off ≤ len buf →
  reads frame_wf buf off (decode_frame_fields 0x18 buf off).
Proof.
  intros Hb Ho. cbn [decode_frame_fields]. do 2 rds.
  destruct (len buf <=? _) eqn:?; [done|].
  eapply post_bind; [apply post_index_u8; [apply Hb|lia]|]. intros n Hn.
  destruct (negb _) eqn:?; [done|]. cbn beta iota zeta. destruct (len buf <? _) eqn:?; [done|].
  eapply (post_bind (λ d, bytes_ok d ∧ len d = n)).
  { apply post_slice; [lia..|]. intros k Hk ->. split; [|lia]. apply bytes_ok_take, bytes_ok_drop, Hb. }
  intros cid [? ?]. eapply (post_bind (λ d, bytes_ok d ∧ len d = 16)).
  { apply post_slice; [lia..|]. intros k Hk ->. split; [|lia]. apply bytes_ok_take, bytes_ok_drop, Hb. }
  intros tok [? ?]. apply reads_ok; [|lia]. cbn. unfold array_wf. split_and!; try done; lia.
Qed.

Lemma decode_frame_fields_reads t buf off : buf_ok buf → 0 ≤ off ≤ len buf →
  reads frame_wf buf off (decode_frame_fields t buf off).
Proof.
  intros Hb Ho. destruct (decide (t = 0x18)) as [-> |]; [by apply decode_new_cid_reads|].
  destruct t as [|p|p]; [done| |done].
  do 5 (try destruct p as [p|p|]); try done; cbn [decode_frame_fields].
  all: try (apply (reads_sub ack_wf frame_wf Ack (λ s, decode_ack_frame s _)); auto using decode_ack_reads; done).
  all: try (eapply reads_sub; [done|done| |exact decode_crypto_reads]; done).
  all: try (eapply reads_sub; [done|done| |intros; by apply decode_stream_reads]; done).
  all: try (repeat rds; reads_finish).
  rds. change (0x1c =? 0x1c) with true. cbn iota.
  apply (reads_bind (from_option varint_ok False)); [rds; by apply reads_ok; [|lia]|].
  intros [x|] o' Hx ?; [|done]. cbn [from_option] in Hx. do 2 rds. reads_finish.
Qed.

Lemma decode_frame_post buf : buf_ok buf →
  post (λ '(f, n), frame_wf f ∧ 1 ≤ n ≤ len buf) (decode_frame buf).
Proof.
  intros Hb. pose proof Hb as [? ?]. destruct buf as [|b buf]; [done|]. unfold decode_frame.
  rewrite len_cons in *. pose proof (len_nonneg buf). dif; [cbn; split; [done|lia]|].
  eapply post_bind; [by apply decode_varint_post|]. intros [t n] (? & ? & _).
  rewrite len_cons in *. eapply post_mono; [apply decode_frame_fields_reads; [done|rewrite len_cons; lia]|].
  intros [f o] [? ?]. rewrite len_cons in *. split; [done|lia].
Qed.

#[export] Instance frame_codec : Codec Frame := {|
  codec_enc := frame_encode; codec_dec := decode_frame; codec_dom := frame_wf |}.

#[export] Instance frame_codec_laws : CodecLaws Frame.
Proof.
  split.
  - intros f buf Hf. by apply frame_encode_eq.
  - intros f rest Hf Hl. change (codec_bytes f) with (frame_bytes f) in *.
    destruct (decode_frame_bytes f rest Hf Hl) as (o & E & P). cbn. rewrite E. do 2 f_equal.
    by eapply at_pos_end.
  - intros buf Hb. eapply post_mono; [by apply decode_frame_post|].
    intros [f n] [? ?]. split; [done|lia].
Qed.

(** ** Frame sequences *)

(** The loops of the packet builders: [for frame in frames { frame.encode(&mut buf)?; }]. *)
Fixpoint encode_frames (fs : list Frame) : qenc unit :=
  match fs with [] => mret tt | f :: fs => frame_encode f;; encode_frames fs end.

Lemma encode_frames_eq fs buf : Forall frame_wf fs →
  encode_frames fs buf = (Ok tt, buf ++ concat (frame_bytes <$> fs)).
Proof.
  intros H. revert buf. induction H as [|f fs Hf _ IH]; intros buf; cbn; [by rewrite app_nil_r|].
  erewrite stM_bind_ok by (by apply frame_encode_eq). rewrite IH. by rewrite <- app_assoc.
Qed.

Lemma decode_frames_loop_post fuel buf : buf_ok buf → (length buf ≤ fuel)%nat →
  post (Forall frame_wf) (decode_frames_loop fuel buf).
Proof.
  revert buf. induction fuel as [|fuel IH]; intros buf Hb Hf.
  { destruct buf; [cbn; by constructor|cbn in Hf; lia]. }
  destruct buf as [|b buf]; [cbn; by constructor|]. cbn [decode_frames_loop].
  eapply post_bind; [by apply decode_frame_post|]. intros [f n] [? Hn].
  eapply post_bind; [by apply post_slice_from, eq_refl; lia|]. intros rest <-.
  eapply post_bind; [apply IH; [by apply buf_ok_drop|]|].
  { unfold len in Hn. rewrite length_drop. cbn [length] in *. lia. }
  intros fs ?. by apply Forall_cons_2.
Qed.

Lemma frame_bytes_nonempty f : frame_wf f → frame_bytes f ≠ [].
Proof.
  intros Hf E. assert (len (frame_bytes f ++ []) ≤ ISIZE_MAX) as Hl by (rewrite E; unfold ISIZE_MAX, len; cbn; lia).
  destruct (decode_frame_bytes f [] Hf Hl) as (o & E' & _). by rewrite E in E'.
Qed.

Lemma decode_frames_loop_eq fuel fs : Forall frame_wf fs →
  let bs := concat (frame_bytes <$> fs) in
  len bs ≤ ISIZE_MAX → (length bs ≤ fuel)%nat → decode_frames_loop fuel bs = Ok fs.
Proof.
  intros H. revert fuel. induction H as [|f fs Hf _ IH]; intros fuel bs Hl Hfu; [by destruct fuel|].
  subst bs. cbn [fmap list_fmap concat] in *. set (bs := concat _) in *.
  pose proof (frame_bytes_nonempty f Hf). destruct (decode_frame_bytes f bs Hf Hl) as (o & E & P).
  rewrite length_app in Hfu. destruct (frame_bytes f) as [|b X]; [done|]. cbn [length app] in *.
  destruct fuel as [|fuel]; [lia|]. cbn [decode_frames_loop]. rewrite E, bind_ok.
  rewrite (slice_from_at _ _ _ P), bind_ok.
  rewrite IH; [done| |lia]. rewrite len_cons, len_app in Hl. pose proof (len_nonneg X). lia.
Qed.

(** ** Properties *)

(** C19: Every well-formed frame, of any of the twenty kinds, is written by [encode] after what
    the buffer already holds, and [decode_frame] reads back that frame and its length,
    whatever follows it in the packet. *)
Theorem frame_roundtrip f buf rest :
  frame_wf f →
  ∃ bs, frame_encode f buf = (Ok tt, buf ++ bs) ∧
        (len (bs ++ rest) ≤ ISIZE_MAX → decode_frame (bs ++ rest) = Ok (f, len bs)).
Proof.
  intros Hf. exists (codec_bytes f). split; [exact (codec_append f buf Hf)|].
  exact (codec_roundtrip f rest Hf).
Qed.

Definition sample_ack : Frame := Ack {|
  largest_acknowledged := 1000; ack_delay := 25;
  ranges := [{| range_start := 990; range_end := 1000 |}; {| range_start := 3; range_end := 7 |}];
  ecn := Some {| ect0 := 1; ect1 := 0; ce := 70 |} |}.

Lemma sample_ack_wf : frame_wf sample_ack.
Proof. cbn. unfold ack_wf, ecn_wf, varint_ok, MAX_VARINT; cbn. lia. Qed.

Lemma frame_roundtrip_witness :
  frame_wf sample_ack ∧ decode_frame (frame_bytes sample_ack ++ [1; 0]) = Ok (sample_ack, 13).
Proof.
  split; [exact sample_ack_wf|].
  destruct (frame_roundtrip sample_ack [] [1; 0] sample_ack_wf) as (bs & _ & _).
  vm_compute; reflexivity.
Defined.

(** On every byte string [decode_frame] returns, without panicking on a slice, an index or an
    overflow: an error, or a well-formed frame (ACK ranges descending and disjoint, connection
    IDs of 1 to 20 bytes, every integer a varint) after consuming between one byte and all. *)
Theorem decode_frame_total buf :
  buf_ok buf → post (λ '(f, n), frame_wf f ∧ 1 ≤ n ≤ len buf) (decode_frame buf).
Proof. apply decode_frame_post. Qed.

Lemma decode_frame_total_witness :
  buf_ok [0x1a; 1; 2; 3; 4; 5; 6; 7; 8; 9] ∧
  (frame_wf (PathChallenge [1; 2; 3; 4; 5; 6; 7; 8]) ∧ 1 ≤ 9 ≤ 10) ∧
  decode_frame [0x1a; 1; 2; 3; 4; 5; 6; 7; 8; 9] = Ok (PathChallenge [1; 2; 3; 4; 5; 6; 7; 8], 9).
Proof.
  assert (buf_ok [0x1a; 1; 2; 3; 4; 5; 6; 7; 8; 9]) as Hb by bytes_dec.
  split; [exact Hb|]. split; [exact (decode_frame_total _ Hb) | vm_compute; reflexivity].
Defined.

(** [decode_frames] terminates on every payload: as each frame consumes at least one byte,
    as many rounds as there are bytes suffice.  It returns an error or a list of
    well-formed frames. *)
Theorem decode_frames_total buf :
  buf_ok buf → post (Forall frame_wf) (decode_frames buf).
Proof. intros Hb. by apply decode_frames_loop_post. Qed.

Lemma decode_frames_total_witness :
  buf_ok [0; 1; 0x1e] ∧ Forall frame_wf [Padding; Ping; HandshakeDone] ∧
  decode_frames [0; 1; 0x1e] = Ok [Padding; Ping; HandshakeDone].
Proof.
  assert (buf_ok [0; 1; 0x1e]) as Hb by bytes_dec.
  split; [exact Hb|]. split; [exact (decode_frames_total _ Hb) | vm_compute; reflexivity].
Defined.

(** A payload built by encoding well-formed frames one after the other decodes, with
    [decode_frames], to exactly those frames in that order. *)
Theorem frames_roundtrip fs :
  Forall frame_wf fs →
  ∃ bs, encode_frames fs [] = (Ok tt, bs) ∧ (len bs ≤ ISIZE_MAX → decode_frames bs = Ok fs).
Proof.
  intros Hf. eexists. split; [by apply encode_frames_eq|]. intros Hl.
  by apply (decode_frames_loop_eq _ fs).
Qed.

Lemma frames_roundtrip_witness :
  Forall frame_wf [sample_ack; Ping; MaxStreams true 100] ∧
  decode_frames (snd (encode_frames [sample_ack; Ping; MaxStreams true 100] [])) =
    Ok [sample_ack; Ping; MaxStreams true 100].
Proof.
  assert (Forall frame_wf [sample_ack; Ping; MaxStreams true 100]) as Hf.
  { repeat apply Forall_cons_2; [exact sample_ack_wf|done|cbn; unfold varint_ok, MAX_VARINT; lia|constructor]. }
  destruct (frames_roundtrip _ Hf) as (bs & _ & _). split; [exact Hf|vm_compute; reflexivity].
Defined.
