(* ===== verification/Packet.v ===== *)
(** * Packet headers and packet formats (starfish-quic/src/packet/, RFC 9000 section 17)

    [ConnectionId] (mod.rs), long and short headers (header.rs), and the
    Initial, Handshake, 0-RTT, 1-RTT and Version Negotiation packets. *)

From S2P Require Import Prelude QuicError Varint PacketNumber Frame.

Definition QUIC_VERSION_1 : Z := 0x00000001.

(** ** Connection IDs (mod.rs): a length and an array of [MAX_CID_LEN] bytes *)
Record ConnectionId := { cid_len : Z; cid_bytes : bytes }.

#[export] Instance ConnectionId_eq_dec : EqDecision ConnectionId.
Proof. solve_decision. Defined.

(** [debug_assert!(data.len() <= MAX_CID_LEN)]. *)
Definition from_slice {E} (data : bytes) : result E ConnectionId :=
  if MAX_CID_LEN <? len data then Panic
  else
    let n := Z.min (len data) MAX_CID_LEN in
    Ok {| cid_len := as_u8 n;
          cid_bytes := take (Z.to_nat n) data ++ replicate (Z.to_nat (MAX_CID_LEN - n)) 0 |}.

(** [fill n] stands for the [n] bytes of the random generator. *)
Definition generate (fill : Z → bytes) (n : Z) : ConnectionId :=
  let n := Z.min n MAX_CID_LEN in
  {| cid_len := n; cid_bytes := fill n ++ replicate (Z.to_nat (MAX_CID_LEN - n)) 0 |}.

Definition as_slice (c : ConnectionId) : bytes := take (Z.to_nat (cid_len c)) (cid_bytes c).

(** ** Headers (header.rs) *)
Inductive LongPacketType := Initial | ZeroRtt | Handshake | Retry.

(** [packet_type as u8]. *)
Definition long_type_bits (t : LongPacketType) : Z :=
  match t with Initial => 0x00 | ZeroRtt => 0x01 | Handshake => 0x02 | Retry => 0x03 end.

Definition from_bits (bits : Z) : qres LongPacketType :=
  match bits with
  | 0x00 => Ok Initial
  | 0x01 => Ok ZeroRtt
  | 0x02 => Ok Handshake
  | 0x03 => Ok Retry
  | _ => Err (InvalidPacket (Msg "unknown long packet type: {bits:#04x}" [bits]))
  end.

Inductive PacketNumberSpace := SpaceInitial | SpaceHandshake | SpaceApplicationData.

#[export] Instance PacketNumberSpace_eq_dec : EqDecision PacketNumberSpace.
Proof. solve_decision. Defined.

Record LongHeader := {
  lh_packet_type : LongPacketType;
  lh_first_byte : Z;
  lh_version : Z;
  lh_dcid : ConnectionId;
  lh_scid : ConnectionId;
  lh_header_len : Z;
}.

Record ShortHeader := {
  sh_first_byte : Z;
  sh_spin_bit : bool;
  sh_key_phase : bool;
  sh_dcid : ConnectionId;
  sh_header_len : Z;
}.

Inductive PacketHeader :=
  | HLong (h : LongHeader)
  | HShort (h : ShortHeader)
  | HVersionNegotiation (dcid scid : ConnectionId) (supported_versions : list Z).

Definition is_long_header (first_byte : Z) : bool := negb (Z.land first_byte 0x80 =? 0).

(** [u32::from_be_bytes([buf[o], buf[o + 1], buf[o + 2], buf[o + 3]])]. *)
Definition read_u32 (buf : bytes) (o : Z) : qres Z :=
  a ← index buf o; b ← index buf (o + 1); c ← index buf (o + 2); d ← index buf (o + 3);
  Ok (from_be [a; b; c; d]).

(** [while offset + 4 <= buf.len()]: at most [fuel] rounds. *)
Fixpoint parse_versions (fuel : nat) (buf : bytes) (offset : Z) : qres (list Z) :=
  if offset + 4 <=? len buf then
    match fuel with
    | O => Diverge
    | S fuel =>
        v ← read_u32 buf offset;
        vs ← parse_versions fuel buf (offset + 4);
        Ok (v :: vs)
    end
  else Ok [].

Definition parse_long_header (buf : bytes) : qres PacketHeader :=
  if len buf <? 7 then Err (InvalidPacket (msg "long header too short"))
  else
    first_byte ← index buf 0;
    version ← read_u32 buf 1;
    dcid_len ← index buf 5;
    if (20 <? dcid_len) || (len buf <? 6 + dcid_len + 1) then
      Err (InvalidPacket (msg "invalid DCID length"))
    else
      d ← slice buf 6 (6 + dcid_len);
      dcid ← from_slice d;
      scid_len ← index buf (6 + dcid_len);
      let scid_start := 7 + dcid_len in
      if (20 <? scid_len) || (len buf <? scid_start + scid_len) then
        Err (InvalidPacket (msg "invalid SCID length"))
      else
        d ← slice buf scid_start (scid_start + scid_len);
        scid ← from_slice d;
        let header_len := scid_start + scid_len in
        if version =? 0 then
          supported_versions ← parse_versions (length buf) buf header_len;
          Ok (HVersionNegotiation dcid scid supported_versions)
        else
          packet_type ← from_bits (Z.shiftr (Z.land first_byte 0x30) 4);
          Ok (HLong {| lh_packet_type := packet_type; lh_first_byte := first_byte;
                       lh_version := version; lh_dcid := dcid; lh_scid := scid;
                       lh_header_len := header_len |}).

Definition parse_short_header (buf : bytes) (local_cid_len : Z) : qres PacketHeader :=
  if len buf <? 1 + local_cid_len + 1 then Err (InvalidPacket (msg "short header too short"))
  else
    first_byte ← index buf 0;
    let spin_bit := negb (Z.land first_byte 0x20 =? 0) in
    let key_phase := negb (Z.land first_byte 0x04 =? 0) in
    d ← slice buf 1 (1 + local_cid_len);
    dcid ← from_slice d;
    Ok (HShort {| sh_first_byte := first_byte; sh_spin_bit := spin_bit; sh_key_phase := key_phase;
                  sh_dcid := dcid; sh_header_len := 1 + local_cid_len |}).

Definition parse_header (buf : bytes) (local_cid_len : Z) : qres PacketHeader :=
  match buf with
  | [] => Err (InvalidPacket (msg "empty packet"))
  | first_byte :: _ =>
      if is_long_header first_byte then parse_long_header buf
      else parse_short_header buf local_cid_len
  end.

(** [pn_len - 1] panics for [pn_len = 0]. *)
Definition encode_long_header (packet_type : LongPacketType) (dcid scid : ConnectionId)
    (pn_len : Z) : qenc Z :=
  start ← gets len;
  low ← lift (sub_u64 pn_len 1);
  push (Z.lor (Z.lor 0xc0 (as_u8 (Z.shiftl (long_type_bits packet_type) 4))) low);;
  extend (to_be 4 QUIC_VERSION_1);;
  push (as_u8 (cid_len dcid));;
  extend (as_slice dcid);;
  push (as_u8 (cid_len scid));;
  extend (as_slice scid);;
  stop ← gets len;
  mret (stop - start).

Definition encode_short_header (dcid : ConnectionId) (spin_bit key_phase : bool)
    (pn_len : Z) : qenc Z :=
  start ← gets len;
  let first_byte := 0x40 in
  let first_byte := if spin_bit then Z.lor first_byte 0x20 else first_byte in
  let first_byte := if key_phase then Z.lor first_byte 0x04 else first_byte in
  low ← lift (sub_u64 pn_len 1);
  push (Z.lor first_byte (Z.land low 0x03));;
  extend (as_slice dcid);;
  stop ← gets len;
  mret (stop - start).

(** A function that starts from [Vec::new()] and returns the vector. *)
Definition build {A} (m : qenc A) : qres (bytes * A) :=
  '(a, buf) ← exec m []; Ok (buf, a).

(** ** Initial packets (initial.rs) *)
Record InitialPacket := {
  ip_token : bytes;
  ip_pn_offset : Z;
  ip_pn_len : Z;
  ip_length : Z;
}.

Definition parse_initial_fields (buf : bytes) (header_len first_byte : Z) : qres InitialPacket :=
  '(token_len, offset) ← read_varint buf header_len;
  '(token, offset) ←
    read_data (InvalidPacket (msg "initial packet truncated at token")) buf offset token_len;
  '(length, offset) ← read_varint buf offset;
  Ok {| ip_token := token; ip_pn_offset := offset;
        ip_pn_len := Z.land first_byte 0x03 + 1; ip_length := length |}.

Definition encode_initial_packet (dcid scid : ConnectionId) (token : bytes)
    (pn largest_acked : Z) (payload : bytes) (aead_tag_len : Z) : qres (bytes * (Z * Z)) :=
  let '(pn_bytes, pn_len) := encode_packet_number pn largest_acked in
  build (
    encode_long_header Initial dcid scid pn_len;;
    encode_varint (len token);;
    extend token;;
    l ← lift (add_u64 pn_len (len payload));
    l ← lift (add_u64 l aead_tag_len);
    encode_varint l;;
    pn_offset ← gets len;
    extend pn_bytes;;
    extend payload;;
    mret (pn_offset, pn_len)).

(** ** Handshake packets (handshake.rs) *)
Record HandshakePacket := { hp_pn_offset : Z; hp_pn_len : Z; hp_length : Z }.

Definition parse_handshake_fields (buf : bytes) (header_len first_byte : Z)
    : qres HandshakePacket :=
  '(length, offset) ← read_varint buf header_len;
  Ok {| hp_pn_offset := offset; hp_pn_len := Z.land first_byte 0x03 + 1; hp_length := length |}.

Definition encode_handshake_packet (dcid scid : ConnectionId)
    (pn largest_acked : Z) (payload : bytes) (aead_tag_len : Z) : qres (bytes * (Z * Z)) :=
  let '(pn_bytes, pn_len) := encode_packet_number pn largest_acked in
  build (
    encode_long_header Handshake dcid scid pn_len;;
    l ← lift (add_u64 pn_len (len payload));
    l ← lift (add_u64 l aead_tag_len);
    encode_varint l;;
    pn_offset ← gets len;
    extend pn_bytes;;
    extend payload;;
    mret (pn_offset, pn_len)).

(** ** 0-RTT packets (zero_rtt.rs) *)
Record ZeroRttPacket := { zp_pn_offset : Z; zp_pn_len : Z; zp_length : Z }.

Definition parse_zero_rtt_fields (buf : bytes) (header_len first_byte : Z)
    : qres ZeroRttPacket :=
  '(length, offset) ← read_varint buf header_len;
  Ok {| zp_pn_offset := offset; zp_pn_len := Z.land first_byte 0x03 + 1; zp_length := length |}.

Definition encode_zero_rtt_packet (dcid scid : ConnectionId)
    (pn largest_acked : Z) (payload : bytes) (aead_tag_len : Z) : qres (bytes * (Z * Z)) :=
  let '(pn_bytes, pn_len) := encode_packet_number pn largest_acked in
  build (
    encode_long_header ZeroRtt dcid scid pn_len;;
    l ← lift (add_u64 pn_len (len payload));
    l ← lift (add_u64 l aead_tag_len);
    encode_varint l;;
    pn_offset ← gets len;
    extend pn_bytes;;
    extend payload;;
    mret (pn_offset, pn_len)).

(** ** 1-RTT packets (one_rtt.rs) *)
Definition encode_one_rtt_packet (dcid : ConnectionId) (spin_bit key_phase : bool)
    (pn largest_acked : Z) (payload : bytes) : qres (bytes * (Z * Z)) :=
  let '(pn_bytes, pn_len) := encode_packet_number pn largest_acked in
  build (
    encode_short_header dcid spin_bit key_phase pn_len;;
    pn_offset ← gets len;
    extend pn_bytes;;
    extend payload;;
    mret (pn_offset, pn_len)).

Definition one_rtt_pn_offset (dcid_len : Z) : Z := 1 + dcid_len.

(** ** Version Negotiation packets (version_negotiation.rs) *)
Fixpoint extend_versions (vs : list Z) : qenc unit :=
  match vs with [] => mret tt | v :: vs => extend (to_be 4 v);; extend_versions vs end.

Definition encode_version_negotiation (dcid scid : ConnectionId) (supported_versions : list Z)
    : qres (bytes * unit) :=
  build (
    push 0x80;;
    extend [0; 0; 0; 0];;
    push (as_u8 (cid_len dcid));;
    extend (as_slice dcid);;
    push (as_u8 (cid_len scid));;
    extend (as_slice scid);;
    extend_versions supported_versions).
