(* ===== verification/PacketProps.v ===== *)
(** * Properties of packet headers and packets

    Connection IDs, totality of header parsing, and the round trips of every
    packet format down to the recovered packet number and payload. *)

From S2P Require Import Prelude QuicError Varint PacketNumber Frame FrameProps Packet.

(** ** Connection IDs *)
Definition cid_wf (c : ConnectionId) : Prop :=
  0 ≤ cid_len c ≤ MAX_CID_LEN ∧ bytes_ok (as_slice c) ∧ len (as_slice c) = cid_len c ∧
  cid_bytes c = as_slice c ++ replicate (Z.to_nat (MAX_CID_LEN - cid_len c)) 0.

Lemma from_slice_wf {E} d : bytes_ok d → len d ≤ MAX_CID_LEN →
  ∃ c, from_slice (E:=E) d = Ok c ∧ cid_wf c ∧ as_slice c = d.
Proof.
  intros Hb Hl. pose proof (len_nonneg d). unfold from_slice.
  replace (MAX_CID_LEN <? len d) with false by lia. rewrite Z.min_l by lia.
  assert (as_u8 (len d) = len d) as -> by (unfold as_u8, MAX_CID_LEN in *; rewrite Z.mod_small; lia).
  eexists; split; [done|].
  set (c := {| cid_len := _; cid_bytes := _ |}).
  assert (as_slice c = d) as Ha.
  { subst c. unfold as_slice, len; cbn. rewrite Nat2Z.id, firstn_all. apply take_app_length. }
  unfold cid_wf. rewrite Ha. subst c; cbn. split; [|done].
  split_and!; [done|done|done|done|]. unfold len. by rewrite Nat2Z.id, firstn_all.
Qed.

Lemma from_slice_as_slice {E} c : cid_wf c → from_slice (E:=E) (as_slice c) = Ok c.
Proof.
  intros (Hl & Hb & Hs & Hc). unfold from_slice. rewrite Hs.
  replace (MAX_CID_LEN <? cid_len c) with false by lia. rewrite Z.min_l by lia.
  assert (as_u8 (cid_len c) = cid_len c) as -> by (unfold as_u8, MAX_CID_LEN in *; rewrite Z.mod_small; lia).
  assert (take (Z.to_nat (cid_len c)) (as_slice c) = as_slice c) as -> by (rewrite <- Hs; apply take_len).
  rewrite <- Hc. by destruct c.
Qed.

Lemma post_from_slice {E} d : bytes_ok d → len d ≤ MAX_CID_LEN →
  post (λ c, cid_wf c ∧ as_slice c = d) (from_slice (E:=E) d).
Proof. intros. destruct (from_slice_wf (E:=E) d) as (c & -> & ? & ?); done. Qed.

Lemma cid_as_u8 c : cid_wf c → as_u8 (cid_len c) = cid_len c.
Proof. intros (? & _). unfold as_u8, MAX_CID_LEN in *. rewrite Z.mod_small; lia. Qed.

(** ** Reading headers that were written *)
Lemma read_u32_at buf o v rest : is_u32 v → at_pos buf o (to_be 4 v ++ rest) →
  read_u32 buf o = Ok v ∧ at_pos buf (o + 4) rest.
Proof.
  intros Hv P. assert (from_be (to_be 4 v) = v) as Hf by (apply from_be_to_be_small; unfold_ints; lia).
  unfold read_u32. revert Hf P. cbn [to_be app]. intros Hf P.
  rewrite (index_at _ _ _ _ P), bind_ok. apply at_pos_cons in P.
  rewrite (index_at _ _ _ _ P), bind_ok. apply at_pos_cons in P. rewrite <- Z.add_assoc in P.
  rewrite (index_at _ _ _ _ P), bind_ok. apply at_pos_cons in P. rewrite <- Z.add_assoc in P.
  rewrite (index_at _ _ _ _ P), bind_ok. apply at_pos_cons in P. rewrite <- Z.add_assoc in P.
  split; [by rewrite Hf|done].
Qed.

(** The connection IDs of a long header. *)
Definition cids_bytes (dcid scid : ConnectionId) : bytes :=
  [as_u8 (cid_len dcid)] ++ as_slice dcid ++ [as_u8 (cid_len scid)] ++ as_slice scid.

Definition long_prefix (b v : Z) (dcid scid : ConnectionId) : bytes :=
  b :: to_be 4 v ++ cids_bytes dcid scid.

Lemma len_long_prefix b v dcid scid : cid_wf dcid → cid_wf scid →
  len (long_prefix b v dcid scid) = 7 + cid_len dcid + cid_len scid.
Proof.
  intros (_ & _ & Hd & _) (_ & _ & Hs & _). unfold long_prefix, cids_bytes.
  autorewrite with len. rewrite Hd, Hs. lia.
Qed.

Lemma parse_long_eq buf b v dcid scid rest : is_u32 v → cid_wf dcid → cid_wf scid →
  at_pos buf 0 (long_prefix b v dcid scid ++ rest) →
  let h := 7 + cid_len dcid + cid_len scid in
  at_pos buf h rest ∧
  parse_long_header buf =
    if v =? 0 then
      vs ← parse_versions (length buf) buf h; Ok (HVersionNegotiation dcid scid vs)
    else
      t ← from_bits (Z.shiftr (Z.land b 0x30) 4);
      Ok (HLong {| lh_packet_type := t; lh_first_byte := b; lh_version := v; lh_dcid := dcid;
                   lh_scid := scid; lh_header_len := h |}).
Proof.
  intros Hv Hd Hs P h. split.
  { apply at_pos_app in P. by rewrite len_long_prefix in P. }
  pose proof (at_pos_len _ _ _ P) as Hlen. rewrite len_app, len_long_prefix in Hlen by done.
  pose proof (len_nonneg rest). pose proof Hd as (Hdl & _ & Hds & _). pose proof Hs as (Hsl & _ & Hss & _).
  unfold MAX_CID_LEN in *. revert P. unfold long_prefix, cids_bytes. rewrite !cid_as_u8 by done.
  cbn [app]. rewrite <- !app_assoc. cbn [app]. rewrite <- !app_assoc. cbn [app]. intros P.
  unfold parse_long_header. replace (len buf <? 7) with false by lia.
  rewrite (index_at _ _ _ _ P), bind_ok. apply at_pos_cons in P. pos P 1.
  destruct (read_u32_at _ _ _ _ Hv P) as [-> P']. clear P. rename P' into P. rewrite bind_ok. pos P 5.
  rewrite (index_at _ _ _ _ P), bind_ok. apply at_pos_cons in P. pos P 6.
  replace (_ || _) with false by lia.
  rewrite (slice_at _ _ _ _ _ P), bind_ok by lia. rewrite from_slice_as_slice, bind_ok by done.
  apply at_pos_app in P. pos P (6 + cid_len dcid).
  rewrite (index_at _ _ _ _ P), bind_ok. apply at_pos_cons in P. pos P (7 + cid_len dcid).
  cbn beta iota zeta. replace (_ || _) with false by lia.
  rewrite (slice_at _ _ _ _ _ P), bind_ok by lia. by rewrite from_slice_as_slice, bind_ok by done.
Qed.

(** ** The first byte *)
Definition long_first (t : LongPacketType) (n : Z) : Z := 0xc0 + long_type_bits t * 16 + (n - 1).
Definition short_first (spin key : bool) (n : Z) : Z :=
  0x40 + (if spin then 0x20 else 0) + (if key then 0x04 else 0) + (n - 1).

Lemma pn_len_cases n : 1 ≤ n ≤ 4 → n = 1 ∨ n = 2 ∨ n = 3 ∨ n = 4.
Proof. lia. Qed.

Lemma long_first_spec t n : 1 ≤ n ≤ 4 →
  Z.lor (Z.lor 0xc0 (as_u8 (Z.shiftl (long_type_bits t) 4))) (n - 1) = long_first t n ∧
  is_long_header (long_first t n) = true ∧
  from_bits (Z.shiftr (Z.land (long_first t n) 0x30) 4) = Ok t ∧
  Z.land (long_first t n) 0x03 + 1 = n.
Proof. intros [-> | [-> | [-> | ->]]]%pn_len_cases; by destruct t. Qed.

Lemma short_first_spec (spin key : bool) n : 1 ≤ n ≤ 4 →
  Z.lor (let b := 0x40 in let b := if spin then Z.lor b 0x20 else b in
         if key then Z.lor b 0x04 else b) (Z.land (n - 1) 0x03) = short_first spin key n ∧
  is_long_header (short_first spin key n) = false ∧
  negb (Z.land (short_first spin key n) 0x20 =? 0) = spin ∧
  negb (Z.land (short_first spin key n) 0x04 =? 0) = key ∧
  Z.land (short_first spin key n) 0x03 + 1 = n.
Proof. intros [-> | [-> | [-> | ->]]]%pn_len_cases; by destruct spin, key. Qed.

(** ** Writing headers *)
Lemma encode_long_header_eq t dcid scid n buf : 1 ≤ n ≤ 4 →
  encode_long_header t dcid scid n buf =
    (Ok (len (buf ++ long_prefix (long_first t n) QUIC_VERSION_1 dcid scid) - len buf),
     buf ++ long_prefix (long_first t n) QUIC_VERSION_1 dcid scid).
Proof.
  intros Hn. unfold encode_long_header. rewrite gets_bind.
  rewrite (lift_bind _ (n - 1)) by (unfold sub_u64; by replace (1 <=? n) with true by lia).
  destruct (long_first_spec t n Hn) as (-> & _).
  autorewrite with enc. rewrite gets_bind. unfold long_prefix, cids_bytes.
  by rewrite <- !app_assoc.
Qed.

Lemma encode_short_header_eq dcid spin key n buf : 1 ≤ n ≤ 4 →
  encode_short_header dcid spin key n buf =
    (Ok (len (buf ++ short_first spin key n :: as_slice dcid) - len buf),
     buf ++ short_first spin key n :: as_slice dcid).
Proof.
  intros Hn. unfold encode_short_header. rewrite gets_bind. cbn beta zeta.
  rewrite (lift_bind _ (n - 1)) by (unfold sub_u64; by replace (1 <=? n) with true by lia).
  destruct (short_first_spec spin key n Hn) as (E & _). cbn beta zeta in E. rewrite E.
  autorewrite with enc. rewrite gets_bind. by rewrite <- !app_assoc.
Qed.

(** ** Packets with a long header *)

(** The packet number and the payload stand at [off]; the number takes [n] bytes. *)
Definition carries (pkt : bytes) (off n pn la : Z) (payload : bytes) : Prop :=
  at_pos pkt off (fst (encode_packet_number pn la) ++ payload) ∧
  len (fst (encode_packet_number pn la)) = n.

Lemma parse_header_long local buf t n dcid scid rest : 1 ≤ n ≤ 4 → cid_wf dcid → cid_wf scid →
  buf = long_prefix (long_first t n) QUIC_VERSION_1 dcid scid ++ rest →
  let h := 7 + cid_len dcid + cid_len scid in
  at_pos buf h rest ∧
  parse_header buf local =
    Ok (HLong {| lh_packet_type := t; lh_first_byte := long_first t n; lh_version := QUIC_VERSION_1;
                 lh_dcid := dcid; lh_scid := scid; lh_header_len := h |}).
Proof.
  intros Hn Hd Hs Hbuf h. destruct (long_first_spec t n Hn) as (_ & Hlong & Hbits & _).
  pose proof (at_pos_0 buf) as P. rewrite Hbuf in P at 2.
  destruct (parse_long_eq buf (long_first t n) QUIC_VERSION_1 dcid scid rest) as [P' E]; [done..|].
  split; [exact P'|]. rewrite Hbits in E. etransitivity; [|exact E].
  by rewrite Hbuf; unfold parse_header; cbn; rewrite Hlong.
Qed.

Lemma add_u64_small {E} a b : a + b ≤ U64_MAX → add_u64 (E:=E) a b = Ok (a + b).
Proof. intros. unfold add_u64. by replace (_ <=? _) with true by lia. Qed.

(** The bytes of a packet after its length field. *)
Definition pn_payload (pn la : Z) (payload : bytes) : bytes :=
  fst (encode_packet_number pn la) ++ payload.

(** [encode_handshake_packet] and [encode_zero_rtt_packet] share one body. *)
Lemma encode_long_packet_eq t dcid scid pn la payload tag :
  0 ≤ pn → 0 ≤ tag → 4 + len payload + tag ≤ MAX_VARINT →
  let n := snd (encode_packet_number pn la) in
  let hdr := long_prefix (long_first t n) QUIC_VERSION_1 dcid scid ++
             varint_bytes (n + len payload + tag) in
  1 ≤ n ≤ 4 ∧ varint_ok (n + len payload + tag) ∧
  build (encode_long_header t dcid scid n;;
         l ← lift (add_u64 n (len payload));
         l ← lift (add_u64 l tag);
         encode_varint l;;
         pn_offset ← gets len;
         extend (fst (encode_packet_number pn la));;
         extend payload;;
         mret (pn_offset, n))
  = Ok (hdr ++ pn_payload pn la payload, (len hdr, n)).
Proof.
  intros Hpn Ht Hl n hdr.
  destruct (encode_packet_number_spec pn la Hpn) as (m & Hm & Hn & _). subst m. fold n in Hn.
  pose proof (len_nonneg payload). unfold MAX_VARINT in Hl.
  assert (varint_ok (n + len payload + tag)) as Hv by (unfold varint_ok, MAX_VARINT; lia).
  split; [lia|]. split; [done|]. unfold build, exec.
  erewrite stM_bind_ok by (by apply encode_long_header_eq).
  rewrite (lift_bind _ (n + len payload)) by (apply add_u64_small; unfold_ints; lia).
  rewrite (lift_bind _ (n + len payload + tag)) by (apply add_u64_small; unfold_ints; lia).
  rewrite encode_varint_bind by done. rewrite gets_bind. autorewrite with enc.
  subst hdr. unfold pn_payload. cbn [app]. by rewrite <- !app_assoc.
Qed.

(** The header of an Initial packet. *)
Definition initial_header (dcid scid : ConnectionId) (token : bytes) (n L : Z) : bytes :=
  long_prefix (long_first Initial n) QUIC_VERSION_1 dcid scid ++
  varint_bytes (len token) ++ token ++ varint_bytes L.

Lemma encode_initial_eq dcid scid token pn la payload tag :
  data_wf token → 0 ≤ pn → 0 ≤ tag → 4 + len payload + tag ≤ MAX_VARINT →
  let n := snd (encode_packet_number pn la) in
  let hdr := initial_header dcid scid token n (n + len payload + tag) in
  1 ≤ n ≤ 4 ∧ varint_ok (n + len payload + tag) ∧
  encode_initial_packet dcid scid token pn la payload tag =
    Ok (hdr ++ pn_payload pn la payload, (len hdr, n)).
Proof.
  intros Htok Hpn Ht Hl n hdr.
  destruct (encode_packet_number_spec pn la Hpn) as (m & Hm & Hn & _). subst m. fold n in Hn.
  pose proof (len_nonneg payload). unfold MAX_VARINT in Hl.
  assert (varint_ok (n + len payload + tag)) as Hv by (unfold varint_ok, MAX_VARINT; lia).
  split; [done|]. split; [done|].
  unfold encode_initial_packet. rewrite (surjective_pairing (encode_packet_number pn la)). fold n.
  unfold build, exec. erewrite stM_bind_ok by (by apply encode_long_header_eq).
  rewrite encode_varint_bind by (by apply data_len_ok). autorewrite with enc.
  rewrite (lift_bind _ (n + len payload)) by (apply add_u64_small; unfold_ints; lia).
  rewrite (lift_bind _ (n + len payload + tag)) by (apply add_u64_small; unfold_ints; lia).
  rewrite encode_varint_bind by done. rewrite gets_bind. autorewrite with enc.
  subst hdr. unfold initial_header, pn_payload. cbn [app]. by rewrite <- !app_assoc.
Qed.

Lemma encode_one_rtt_eq dcid spin key pn la payload : 0 ≤ pn →
  let n := snd (encode_packet_number pn la) in
  let hdr := short_first spin key n :: as_slice dcid in
  1 ≤ n ≤ 4 ∧
  encode_one_rtt_packet dcid spin key pn la payload =
    Ok (hdr ++ pn_payload pn la payload, (len hdr, n)).
Proof.
  intros Hpn n hdr.
  destruct (encode_packet_number_spec pn la Hpn) as (m & Hm & Hn & _). subst m. fold n in Hn.
  split; [done|]. unfold encode_one_rtt_packet.
  rewrite (surjective_pairing (encode_packet_number pn la)). fold n.
  unfold build, exec. erewrite stM_bind_ok by (by apply encode_short_header_eq). rewrite gets_bind.
  autorewrite with enc. cbn [app]. fold hdr. unfold pn_payload. by rewrite <- !app_assoc.
Qed.

Lemma carries_intro hdr pn la payload rest : 0 ≤ pn →
  carries (hdr ++ pn_payload pn la payload ++ rest) (len hdr) (snd (encode_packet_number pn la))
          pn la (payload ++ rest).
Proof.
  intros Hpn. destruct (encode_packet_number_spec pn la Hpn) as (m & Hm & _ & Hl & _).
  unfold carries, pn_payload. rewrite <- app_assoc. split; [apply at_pos_prefix|by rewrite Hl].
Qed.

Lemma long_packet_parses t dcid scid pn la payload L rest local :
  cid_wf dcid → cid_wf scid → 0 ≤ pn → varint_ok L →
  let n := snd (encode_packet_number pn la) in
  let hdr := long_prefix (long_first t n) QUIC_VERSION_1 dcid scid ++ varint_bytes L in
  let buf := (hdr ++ pn_payload pn la payload) ++ rest in
  ∃ h, parse_header buf local = Ok (HLong h) ∧
       (lh_packet_type h, lh_dcid h, lh_scid h) = (t, dcid, scid) ∧
       read_varint buf (lh_header_len h) = Ok (L, len hdr) ∧
       Z.land (lh_first_byte h) 0x03 + 1 = n ∧
       carries buf (len hdr) n pn la (payload ++ rest).
Proof.
  intros Hd Hs Hpn HL n hdr buf.
  destruct (encode_packet_number_spec pn la Hpn) as (m & Hm & Hn & _). subst m. fold n in Hn.
  destruct (parse_header_long local buf t n dcid scid
    (varint_bytes L ++ pn_payload pn la payload ++ rest) Hn Hd Hs) as [P E].
  { subst buf hdr. by rewrite <- !app_assoc. }
  rewrite E. eexists. split; [done|]. split; [done|]. cbn [lh_header_len lh_first_byte].
  destruct (long_first_spec t n Hn) as (_ & _ & _ & Hf).
  destruct (read_varint_at _ _ _ _ HL P) as [-> _]. split_and!; [|done|].
  - subst hdr. by rewrite len_app, len_long_prefix, len_varint_bytes by done.
  - subst buf. rewrite <- app_assoc. by apply carries_intro.
Qed.

(** ** Version lists *)
Lemma extend_versions_eq vs buf :
  extend_versions vs buf = (Ok tt, buf ++ concat (to_be 4 <$> vs)).
Proof.
  revert buf. induction vs as [|v vs IH]; intros buf; cbn [extend_versions]; [by rewrite app_nil_r|].
  rewrite extend_bind, IH. cbn. by rewrite <- app_assoc.
Qed.

Lemma parse_versions_eq fuel buf o vs : Forall is_u32 vs → (length vs ≤ fuel)%nat →
  at_pos buf o (concat (to_be 4 <$> vs)) → parse_versions fuel buf o = Ok vs.
Proof.
  intros Hv. revert fuel o. induction Hv as [|v vs Hv _ IH]; intros fuel o Hf P.
  - apply at_pos_len in P. cbn [fmap list_fmap concat] in P. rewrite len_nil in P.
    destruct fuel; cbn [parse_versions]; by replace (o + 4 <=? len buf) with false by lia.
  - cbn [fmap list_fmap concat length] in *. pose proof (at_pos_len _ _ _ P) as Hl.
    rewrite len_app, len_to_be in Hl. pose proof (len_nonneg (concat (to_be 4 <$> vs))).
    destruct fuel as [|fuel]; [lia|]. cbn [parse_versions].
    replace (o + 4 <=? len buf) with true by lia.
    destruct (read_u32_at _ _ _ _ Hv P) as [-> P']. rewrite bind_ok, IH; [done|lia|done].
Qed.

(** ** Parsing arbitrary input *)
Definition header_wf (buf : bytes) (local : Z) (h : PacketHeader) : Prop :=
  match h with
  | HLong h => cid_wf (lh_dcid h) ∧ cid_wf (lh_scid h) ∧ is_u8 (lh_first_byte h) ∧
               1 ≤ lh_version h ≤ U32_MAX ∧ 7 ≤ lh_header_len h ≤ len buf
  | HShort h => cid_wf (sh_dcid h) ∧ cid_len (sh_dcid h) = local ∧ is_u8 (sh_first_byte h) ∧
                sh_header_len h < len buf
  | HVersionNegotiation d s vs => cid_wf d ∧ cid_wf s ∧ Forall is_u32 vs
  end.

Lemma post_read_u32 buf o : bytes_ok buf → 0 ≤ o → o + 4 ≤ len buf → post is_u32 (read_u32 buf o).
Proof.
  intros Hb ??. unfold read_u32. do 4 (eapply post_bind; [apply post_index_u8; [done|lia]|]; intros ? ?).
  cbn. match goal with |- is_u32 (from_be ?l) => pose proof (from_be_bound l) as H' end.
  change (256 ^ len _) with (2 ^ 32) in H'. unfold is_u32, U32_MAX.
  destruct H' as [? ?]; [by repeat apply Forall_cons_2|]. lia.
Qed.

Lemma post_parse_versions fuel buf o : bytes_ok buf → 0 ≤ o → len buf - o ≤ 4 * Z.of_nat fuel →
  post (Forall is_u32) (parse_versions fuel buf o).
Proof.
  intros Hb. revert o. induction fuel as [|fuel IH]; intros o ??; cbn [parse_versions]; dif.
  - lia.
  - by constructor.
  - eapply post_bind; [by apply post_read_u32; try lia|]. intros v ?.
    eapply post_bind; [apply IH; lia|]. intros vs ?. by constructor.
  - by constructor.
Qed.

Lemma post_slice_cid {A} (Q : A → Prop) buf a b (k : ConnectionId → qres A) :
  bytes_ok buf → 0 ≤ a ≤ b → b ≤ len buf → b - a ≤ MAX_CID_LEN →
  (∀ c, cid_wf c → cid_len c = b - a → post Q (k c)) →
  post Q (d ← slice buf a b; c ← from_slice d; k c).
Proof.
  intros ???? Hk. apply (post_bind (λ d, bytes_ok d ∧ len d = b - a)).
  { apply post_slice; [done..|]. intros l Hl ->. split; [|done]. by apply bytes_ok_take, bytes_ok_drop. }
  intros d [? Hd]. eapply post_bind; [apply post_from_slice; [done|lia]|].
  intros c [Hc <-]. apply Hk; [done|]. destruct Hc as (_ & _ & <- & _). done.
Qed.

Lemma post_from_bits bits : post (λ _, True) (from_bits bits).
Proof. unfold from_bits. by repeat case_match. Qed.

Lemma parse_long_header_post buf local : buf_ok buf →
  post (header_wf buf local) (parse_long_header buf).
Proof.
  intros [Hb Hl]. unfold parse_long_header. dif; [done|].
  eapply post_bind; [apply post_index_u8; [done|lia]|]. intros fb Hfb.
  eapply post_bind; [apply post_read_u32; [done|lia..]|]. intros v Hv.
  eapply post_bind; [apply post_index_u8; [done|lia]|]. intros dl Hdl.
  unfold is_u8 in *. dif; [done|]. apply orb_false_iff in Heqb0 as [? ?].
  apply post_slice_cid; [done|lia..|unfold MAX_CID_LEN; lia|]. intros dcid ? ?.
  eapply post_bind; [apply post_index_u8; [done|lia]|]. intros sl Hsl. unfold is_u8 in *.
  cbn beta zeta. dif; [done|]. apply orb_false_iff in Heqb0 as [? ?].
  apply post_slice_cid; [done|lia..|unfold MAX_CID_LEN; lia|]. intros scid ? ?. dif.
  - eapply post_bind; [apply post_parse_versions; [done|lia|unfold len; lia]|]. intros vs ?. done.
  - eapply post_bind; [apply post_from_bits|]. intros t _. cbn. unfold is_u8, is_u32 in *.
    split_and!; try done; lia.
Qed.

Lemma parse_short_header_post buf local : buf_ok buf → 0 ≤ local ≤ MAX_CID_LEN →
  post (header_wf buf local) (parse_short_header buf local).
Proof.
  intros [Hb Hl] ?. unfold parse_short_header. dif; [done|].
  eapply post_bind; [apply post_index_u8; [done|lia]|]. intros fb Hfb. cbn beta zeta.
  apply post_slice_cid; [done|lia..|]. intros dcid ? ?. cbn. split_and!; try done; lia.
Qed.

(** ** Properties *)

(** An Initial packet built by [encode_initial_packet] is parsed back, whatever datagram
    bytes follow it: [parse_header] gives the type, the version and both connection IDs,
    [parse_initial_fields] the token, the offset and length of the packet number and the
    length field (packet number, payload and AEAD tag); at that offset stand the truncated
    packet number and the payload. *)
Theorem initial_packet_roundtrip dcid scid token pn la payload tag rest local :
  cid_wf dcid → cid_wf scid → data_wf token → 0 ≤ pn → 0 ≤ tag →
  4 + len payload + tag ≤ MAX_VARINT →
  ∃ pkt off n h, encode_initial_packet dcid scid token pn la payload tag = Ok (pkt, (off, n)) ∧
    (len (pkt ++ rest) ≤ ISIZE_MAX →
     parse_header (pkt ++ rest) local = Ok (HLong h) ∧
     (lh_packet_type h, lh_version h, lh_dcid h, lh_scid h) = (Initial, QUIC_VERSION_1, dcid, scid) ∧
     parse_initial_fields (pkt ++ rest) (lh_header_len h) (lh_first_byte h) =
       Ok {| ip_token := token; ip_pn_offset := off; ip_pn_len := n;
             ip_length := n + len payload + tag |} ∧
     carries (pkt ++ rest) off n pn la (payload ++ rest)).
Proof.
  intros Hd Hs Htok Hpn Ht Hl.
  destruct (encode_initial_eq dcid scid token pn la payload tag Htok Hpn Ht Hl) as (Hn & Hv & ->).
  set (n := snd (encode_packet_number pn la)) in *.
  set (hdr := initial_header dcid scid token n (n + len payload + tag)).
  eexists (hdr ++ pn_payload pn la payload), (len hdr), n, _. split; [done|]. intros Hlen.
  destruct (parse_header_long local ((hdr ++ pn_payload pn la payload) ++ rest) Initial n dcid scid
    (varint_bytes (len token) ++ token ++ varint_bytes (n + len payload + tag) ++
     pn_payload pn la payload ++ rest) Hn Hd Hs) as [P E].
  { subst hdr. unfold initial_header. by rewrite <- !app_assoc. }
  rewrite E. split; [done|]. cbn [lh_packet_type lh_version lh_dcid lh_scid lh_header_len lh_first_byte].
  split; [done|]. split; [|rewrite <- app_assoc; by apply carries_intro].
  unfold parse_initial_fields. pose proof (data_len_ok _ Htok).
  rd. rdata. rd. destruct (long_first_spec Initial n Hn) as (_ & _ & _ & ->). do 2 f_equal.
  apply at_pos_len in P. rewrite <- app_assoc, len_app in P. lia.
Qed.

(** Handshake and 0-RTT packets are parsed back in the same way, the length field standing
    directly after the connection IDs. *)
Theorem long_packet_roundtrip dcid scid pn la payload tag rest local :
  cid_wf dcid → cid_wf scid → 0 ≤ pn → 0 ≤ tag → 4 + len payload + tag ≤ MAX_VARINT →
  (∃ pkt off n h, encode_handshake_packet dcid scid pn la payload tag = Ok (pkt, (off, n)) ∧
     parse_header (pkt ++ rest) local = Ok (HLong h) ∧
     (lh_packet_type h, lh_dcid h, lh_scid h) = (Handshake, dcid, scid) ∧
     parse_handshake_fields (pkt ++ rest) (lh_header_len h) (lh_first_byte h) =
       Ok {| hp_pn_offset := off; hp_pn_len := n; hp_length := n + len payload + tag |} ∧
     carries (pkt ++ rest) off n pn la (payload ++ rest)) ∧
  (∃ pkt off n h, encode_zero_rtt_packet dcid scid pn la payload tag = Ok (pkt, (off, n)) ∧
     parse_header (pkt ++ rest) local = Ok (HLong h) ∧
     (lh_packet_type h, lh_dcid h, lh_scid h) = (ZeroRtt, dcid, scid) ∧
     parse_zero_rtt_fields (pkt ++ rest) (lh_header_len h) (lh_first_byte h) =
       Ok {| zp_pn_offset := off; zp_pn_len := n; zp_length := n + len payload + tag |} ∧
     carries (pkt ++ rest) off n pn la (payload ++ rest)).
Proof.
  intros Hd Hs Hpn Ht Hl. unfold encode_handshake_packet, encode_zero_rtt_packet.
  rewrite (surjective_pairing (encode_packet_number pn la)).
  split.
  - destruct (encode_long_packet_eq Handshake dcid scid pn la payload tag) as (_ & Hv & ->); [done..|].
    destruct (long_packet_parses Handshake dcid scid pn la payload _ rest local Hd Hs Hpn Hv)
      as (h & ? & ? & E & Hf & ?).
    eexists _, _, _, h. do 3 (split; [done|]). split; [|done].
    unfold parse_handshake_fields. by rewrite E, Hf.
  - destruct (encode_long_packet_eq ZeroRtt dcid scid pn la payload tag) as (_ & Hv & ->); [done..|].
    destruct (long_packet_parses ZeroRtt dcid scid pn la payload _ rest local Hd Hs Hpn Hv)
      as (h & ? & ? & E & Hf & ?).
    eexists _, _, _, h. do 3 (split; [done|]). split; [|done].
    unfold parse_zero_rtt_fields. by rewrite E, Hf.
Qed.

(** A 1-RTT packet is parsed back by an endpoint whose connection IDs have the length of the
    destination ID: [parse_header] gives the ID, the spin bit and the key phase, and the
    packet number and payload stand at [one_rtt_pn_offset]. *)
Theorem one_rtt_packet_roundtrip dcid spin key pn la payload rest :
  cid_wf dcid → 0 ≤ pn → 0 < len payload →
  ∃ pkt off n h, encode_one_rtt_packet dcid spin key pn la payload = Ok (pkt, (off, n)) ∧
    parse_header (pkt ++ rest) (cid_len dcid) = Ok (HShort h) ∧
    (sh_dcid h, sh_spin_bit h, sh_key_phase h) = (dcid, spin, key) ∧
    Z.land (sh_first_byte h) 0x03 + 1 = n ∧
    sh_header_len h = off ∧ off = one_rtt_pn_offset (cid_len dcid) ∧
    carries (pkt ++ rest) off n pn la (payload ++ rest).
Proof.
  intros Hd Hpn Hpay. pose proof Hd as (Hc & _ & Hlen & _).
  destruct (encode_one_rtt_eq dcid spin key pn la payload Hpn) as (Hn & ->).
  set (n := snd (encode_packet_number pn la)) in *. set (hdr := short_first spin key n :: as_slice dcid).
  destruct (short_first_spec spin key n Hn) as (_ & Hlong & Hsp & Hk & Hf).
  assert (len hdr = 1 + cid_len dcid) as Hh by (subst hdr; rewrite len_cons; lia).
  eexists _, (len hdr), n, _. split; [done|]. split.
  - rewrite <- app_assoc. set (rest' := pn_payload pn la payload ++ rest).
    assert (0 < len rest').
    { subst rest'. unfold pn_payload. rewrite !len_app. pose proof (len_nonneg rest).
      pose proof (len_nonneg (fst (encode_packet_number pn la))). lia. }
    pose proof (at_pos_0 (hdr ++ rest')) as P.
    unfold parse_header. subst hdr. cbn [app]. rewrite Hlong. cbn [app] in P.
    unfold parse_short_header. rewrite len_cons, len_app, Hlen. replace (_ <? _) with false by lia.
    rewrite (index_at _ _ _ _ P), bind_ok. apply at_pos_cons in P. cbn beta zeta.
    rewrite (slice_at _ _ _ _ _ P), bind_ok by lia. by rewrite from_slice_as_slice, bind_ok, Hsp, Hk by done.
  - rewrite Hh. split_and!; [done..|]. rewrite <- app_assoc, <- Hh. by apply carries_intro.
Qed.

(** A Version Negotiation packet built by [encode_version_negotiation] is recognised by its
    zero version, and its connection IDs and version list are read back. *)
Theorem version_negotiation_roundtrip dcid scid vs local :
  cid_wf dcid → cid_wf scid → Forall is_u32 vs →
  ∃ pkt, encode_version_negotiation dcid scid vs = Ok (pkt, tt) ∧
         parse_header pkt local = Ok (HVersionNegotiation dcid scid vs).
Proof.
  intros Hd Hs Hv. exists (long_prefix 0x80 0 dcid scid ++ concat (to_be 4 <$> vs)). split.
  - unfold encode_version_negotiation, build, exec. autorewrite with enc. rewrite extend_versions_eq.
    unfold long_prefix, cids_bytes. change (to_be 4 0) with [0; 0; 0; 0]. cbn [app].
    repeat (rewrite <- !app_assoc; cbn [app]). done.
  - destruct (parse_long_eq (long_prefix 0x80 0 dcid scid ++ concat (to_be 4 <$> vs)) 0x80 0 dcid scid
      _ ltac:(unfold_ints; lia) Hd Hs (at_pos_0 _)) as [P E].
    rewrite (parse_versions_eq _ _ _ vs) in E; [exact E|done| |done].
    rewrite length_app. transitivity (length (concat (to_be 4 <$> vs))); [|lia].
    clear. induction vs as [|v vs IH]; [done|]. rewrite fmap_cons; cbn [concat length].
    rewrite length_app, length_to_be. lia.
Qed.

(** [parse_header] returns on every datagram, with an error or a header whose connection IDs
    are well formed and whose header length lies inside the datagram, provided the
    configured local ID length is at most 20 (a longer one would fail the debug assertion
    of [ConnectionId::from_slice]). *)
Theorem parse_header_total buf local :
  buf_ok buf → 0 ≤ local ≤ MAX_CID_LEN → post (header_wf buf local) (parse_header buf local).
Proof.
  intros Hb ?. unfold parse_header. destruct buf as [|b buf]; [done|]. dif.
  - by apply parse_long_header_post.
  - by apply parse_short_header_post.
Qed.

Definition sample_dcid : ConnectionId := {| cid_len := 3; cid_bytes := [7; 8; 9] ++ replicate 17 0 |}.
Definition sample_scid : ConnectionId := {| cid_len := 0; cid_bytes := replicate 20 0 |}.

Lemma sample_dcid_wf : cid_wf sample_dcid.
Proof. unfold cid_wf, MAX_CID_LEN; cbn. split_and!; [lia|lia|bytes_dec|done|done]. Qed.

Lemma sample_scid_wf : cid_wf sample_scid.
Proof. unfold cid_wf, MAX_CID_LEN; cbn. split_and!; [lia|lia|bytes_dec|done|done]. Qed.

Lemma initial_packet_roundtrip_witness :
  (∃ pkt off n h,
    encode_initial_packet sample_dcid sample_scid [5; 6] 0x1234 0x1000 [0; 1] 16 = Ok (pkt, (off, n)) ∧
    (len (pkt ++ [0xff]) ≤ ISIZE_MAX →
     parse_header (pkt ++ [0xff]) 8 = Ok (HLong h) ∧
     (lh_packet_type h, lh_version h, lh_dcid h, lh_scid h) =
       (Initial, QUIC_VERSION_1, sample_dcid, sample_scid) ∧
     parse_initial_fields (pkt ++ [0xff]) (lh_header_len h) (lh_first_byte h) =
       Ok {| ip_token := [5; 6]; ip_pn_offset := off; ip_pn_len := n; ip_length := n + 2 + 16 |} ∧
     carries (pkt ++ [0xff]) off n 0x1234 0x1000 ([0; 1] ++ [0xff]))) ∧
  encode_initial_packet sample_dcid sample_scid [5; 6] 0x1234 0x1000 [0; 1] 16 =
    Ok ([0xc1; 0; 0; 0; 1; 3; 7; 8; 9; 0; 2; 5; 6; 20; 0x12; 0x34; 0; 1], (14, 2)).
Proof.
  split; [|vm_compute; reflexivity].
  apply (initial_packet_roundtrip sample_dcid sample_scid [5; 6] 0x1234 0x1000 [0; 1] 16 [0xff] 8);
    [exact sample_dcid_wf|exact sample_scid_wf|split; [bytes_dec|vm_compute; discriminate]|lia|lia|].
  vm_compute; discriminate.
Defined.

Lemma long_packet_roundtrip_witness :
  cid_wf sample_dcid ∧ cid_wf sample_scid ∧
  encode_zero_rtt_packet sample_dcid sample_scid 1 0 [1] 16 =
    Ok ([0xd0; 0; 0; 0; 1; 3; 7; 8; 9; 0; 18; 1; 1], (11, 1)).
Proof.
  destruct (long_packet_roundtrip sample_dcid sample_scid 1 0 [1] 16 [] 8 sample_dcid_wf sample_scid_wf)
    as [_ (pkt & off & n & h & E & _)]; [lia|lia|vm_compute; discriminate|].
  split; [exact sample_dcid_wf|]. split; [exact sample_scid_wf|].
  rewrite E. vm_compute in E. injection E as <- <- <-. reflexivity.
Defined.

Lemma one_rtt_packet_roundtrip_witness :
  cid_wf sample_dcid ∧
  encode_one_rtt_packet sample_dcid true false 300 10 [1; 2] = Ok ([0x61; 7; 8; 9; 1; 44; 1; 2], (4, 2)).
Proof.
  destruct (one_rtt_packet_roundtrip sample_dcid true false 300 10 [1; 2] [] sample_dcid_wf)
    as (pkt & off & n & h & E & _); [lia|vm_compute; reflexivity|].
  split; [exact sample_dcid_wf|]. rewrite E. vm_compute in E. injection E as <- <- <-. reflexivity.
Defined.

Lemma version_negotiation_roundtrip_witness :
  Forall is_u32 [1; 0x0a0a0a0a] ∧
  ∃ pkt, encode_version_negotiation sample_dcid sample_scid [1; 0x0a0a0a0a] = Ok (pkt, tt) ∧
         parse_header pkt 8 = Ok (HVersionNegotiation sample_dcid sample_scid [1; 0x0a0a0a0a]).
Proof.
  assert (Forall is_u32 [1; 0x0a0a0a0a]) as H
    by (repeat apply Forall_cons_2; try apply Forall_nil_2; unfold_ints; lia).
  split; [exact H|]. exact (version_negotiation_roundtrip _ _ _ 8 sample_dcid_wf sample_scid_wf H).
Defined.

Lemma parse_header_total_witness :
  buf_ok [0x40; 7; 8; 9; 1] ∧
  post (header_wf [0x40; 7; 8; 9; 1] 3) (parse_header [0x40; 7; 8; 9; 1] 3) ∧
  parse_header [0x40; 7; 8; 9; 1] 3 =
    Ok (HShort {| sh_first_byte := 0x40; sh_spin_bit := false; sh_key_phase := false;
                  sh_dcid := sample_dcid; sh_header_len := 4 |}).
Proof.
  assert (buf_ok [0x40; 7; 8; 9; 1]) as H by bytes_dec.
  split; [exact H|]. split; [|vm_compute; reflexivity].
  apply (parse_header_total [0x40; 7; 8; 9; 1] 3 H). unfold MAX_CID_LEN; lia.
Defined.
