(* ===== verification/TransportParams.v ===== *)
(** * Transport parameters (starfish-quic/src/packet/mod.rs, RFC 9000 section 18)

    [encode_transport_parameters] with its GREASE entry,
    [parse_transport_parameters] and the [preferred_address] value. *)

From S2P Require Import Prelude QuicError Varint Frame Packet.

Definition TP_ORIGINAL_DESTINATION_CONNECTION_ID : Z := 0x00.
Definition TP_MAX_IDLE_TIMEOUT : Z := 0x01.
Definition TP_STATELESS_RESET_TOKEN : Z := 0x02.
Definition TP_MAX_UDP_PAYLOAD_SIZE : Z := 0x03.
Definition TP_INITIAL_MAX_DATA : Z := 0x04.
Definition TP_INITIAL_MAX_STREAM_DATA_BIDI_LOCAL : Z := 0x05.
Definition TP_INITIAL_MAX_STREAM_DATA_BIDI_REMOTE : Z := 0x06.
Definition TP_INITIAL_MAX_STREAM_DATA_UNI : Z := 0x07.
Definition TP_INITIAL_MAX_STREAMS_BIDI : Z := 0x08.
Definition TP_INITIAL_MAX_STREAMS_UNI : Z := 0x09.
Definition TP_ACK_DELAY_EXPONENT : Z := 0x0a.
Definition TP_MAX_ACK_DELAY : Z := 0x0b.
Definition TP_DISABLE_ACTIVE_MIGRATION : Z := 0x0c.
Definition TP_PREFERRED_ADDRESS : Z := 0x0d.
Definition TP_ACTIVE_CONNECTION_ID_LIMIT : Z := 0x0e.
Definition TP_INITIAL_SOURCE_CONNECTION_ID : Z := 0x0f.
Definition TP_RETRY_SOURCE_CONNECTION_ID : Z := 0x10.

Definition MAX_ACK_DELAY_EXPONENT : Z := 20.
Definition DEFAULT_MAX_UDP_PAYLOAD_SIZE : Z := 65527.
Definition MIN_MAX_UDP_PAYLOAD_SIZE : Z := 1200.
Definition DEFAULT_MAX_ACK_DELAY_MS : Z := 25.
Definition MAX_MAX_ACK_DELAY_MS : Z := 2 ^ 14.

(** ** GREASE: the seed is a process-wide atomic counter *)
Definition rotate_left_u64 (x n : Z) : Z :=
  Z.lor ((Z.shiftl x n) mod 2 ^ 64) (Z.shiftr x (64 - n)).

Fixpoint grease_value (value_len : nat) (x : Z) : bytes :=
  match value_len with
  | O => []
  | S k => as_u8 (Z.land x 0xff) ::
           grease_value k (Z.lxor (rotate_left_u64 x 9) 0x9e3779b97f4a7c15)
  end.

(** [fetch_add] wraps; the [+ 1] on its result panics on overflow. *)
Definition next_grease_transport_parameter : stM Z QuicError (Z * bytes) := λ counter,
  (seed ← add_u64 counter 1;
   let id := 31 * ((seed mod 128) + 1) + 27 in
   let value_len := (Z.shiftr seed 8) mod 8 + 1 in
   let x := Z.lxor seed 0xfaceb00c1337aa55 in
   Ok (id, grease_value (Z.to_nat value_len) x),
   (counter + 1) mod 2 ^ 64).

(** ** Parameters *)
Record LocalTransportParameters := {
  l_original_destination_connection_id : option ConnectionId;
  l_max_idle_timeout_ms : Z;
  l_stateless_reset_token : option bytes;
  l_max_udp_payload_size : Z;
  l_initial_max_data : Z;
  l_initial_max_stream_data_bidi_local : Z;
  l_initial_max_stream_data_bidi_remote : Z;
  l_initial_max_stream_data_uni : Z;
  l_initial_max_streams_bidi : Z;
  l_initial_max_streams_uni : Z;
  l_ack_delay_exponent : Z;
  l_max_ack_delay_ms : Z;
  l_disable_active_migration : bool;
  l_preferred_address : option bytes;
  l_active_connection_id_limit : Z;
  l_initial_source_connection_id : option ConnectionId;
  l_retry_source_connection_id : option ConnectionId;
}.

Definition local_default : LocalTransportParameters := {|
  l_original_destination_connection_id := None;
  l_max_idle_timeout_ms := 0;
  l_stateless_reset_token := None;
  l_max_udp_payload_size := DEFAULT_MAX_UDP_PAYLOAD_SIZE;
  l_initial_max_data := 0;
  l_initial_max_stream_data_bidi_local := 0;
  l_initial_max_stream_data_bidi_remote := 0;
  l_initial_max_stream_data_uni := 0;
  l_initial_max_streams_bidi := 0;
  l_initial_max_streams_uni := 0;
  l_ack_delay_exponent := 3;
  l_max_ack_delay_ms := DEFAULT_MAX_ACK_DELAY_MS;
  l_disable_active_migration := false;
  l_preferred_address := None;
  l_active_connection_id_limit := 2;
  l_initial_source_connection_id := None;
  l_retry_source_connection_id := None;
|}.

Definition local_new (initial_max_data initial_max_stream_data
    initial_max_streams_bidi initial_max_streams_uni : Z) : LocalTransportParameters := {|
  l_original_destination_connection_id := l_original_destination_connection_id local_default;
  l_max_idle_timeout_ms := l_max_idle_timeout_ms local_default;
  l_stateless_reset_token := l_stateless_reset_token local_default;
  l_max_udp_payload_size := l_max_udp_payload_size local_default;
  l_initial_max_data := initial_max_data;
  l_initial_max_stream_data_bidi_local := initial_max_stream_data;
  l_initial_max_stream_data_bidi_remote := initial_max_stream_data;
  l_initial_max_stream_data_uni := initial_max_stream_data;
  l_initial_max_streams_bidi := initial_max_streams_bidi;
  l_initial_max_streams_uni := initial_max_streams_uni;
  l_ack_delay_exponent := l_ack_delay_exponent local_default;
  l_max_ack_delay_ms := l_max_ack_delay_ms local_default;
  l_disable_active_migration := l_disable_active_migration local_default;
  l_preferred_address := l_preferred_address local_default;
  l_active_connection_id_limit := l_active_connection_id_limit local_default;
  l_initial_source_connection_id := l_initial_source_connection_id local_default;
  l_retry_source_connection_id := l_retry_source_connection_id local_default;
|}.

Record PeerTransportParameters := {
  original_destination_connection_id : option ConnectionId;
  max_idle_timeout_ms : Z;
  max_udp_payload_size : Z;
  initial_max_data : Z;
  initial_max_stream_data_bidi_local : Z;
  initial_max_stream_data_bidi_remote : Z;
  initial_max_stream_data_uni : Z;
  initial_max_streams_bidi : Z;
  initial_max_streams_uni : Z;
  ack_delay_exponent : Z;
  max_ack_delay_ms : Z;
  disable_active_migration : bool;
  preferred_address : option bytes;
  active_connection_id_limit : Z;
  initial_source_connection_id : option ConnectionId;
  retry_source_connection_id : option ConnectionId;
  stateless_reset_token : option bytes;
}.

Definition peer_default : PeerTransportParameters := {|
  original_destination_connection_id := None;
  max_idle_timeout_ms := 0;
  max_udp_payload_size := DEFAULT_MAX_UDP_PAYLOAD_SIZE;
  initial_max_data := 0;
  initial_max_stream_data_bidi_local := 0;
  initial_max_stream_data_bidi_remote := 0;
  initial_max_stream_data_uni := 0;
  initial_max_streams_bidi := 0;
  initial_max_streams_uni := 0;
  ack_delay_exponent := 3;
  max_ack_delay_ms := DEFAULT_MAX_ACK_DELAY_MS;
  disable_active_migration := false;
  preferred_address := None;
  active_connection_id_limit := 2;
  initial_source_connection_id := None;
  retry_source_connection_id := None;
  stateless_reset_token := None;
|}.

Definition encode_transport_param (id value : Z) : qenc unit :=
  encode_varint id;;
  encode_varint (varint_len value);;
  encode_varint value.

Definition encode_transport_bytes_param (id : Z) (value : bytes) : qenc unit :=
  encode_varint id;;
  encode_varint (len value);;
  extend value.

Definition transport_parameter_error (m : message) : QuicError :=
  Transport TransportParameterError m.

Definition decode_transport_param_value (value : bytes) : qres Z :=
  '(decoded, consumed) ←
    map_err (λ _, transport_parameter_error (msg "invalid transport parameter value"))
      (decode_varint value);
  if negb (consumed =? len value) then
    Err (transport_parameter_error (msg "transport parameter value has trailing bytes"))
  else Ok decoded.

Definition decode_transport_connection_id (name : string) (value : bytes) : qres ConnectionId :=
  if MAX_CID_LEN <? len value then
    Err (transport_parameter_error (msg (name +:+ " exceeds maximum connection ID length")))
  else from_slice value.

Definition validate_preferred_address (value : bytes) : qres unit :=
  if len value <? 41 then
    Err (transport_parameter_error
      (msg "preferred_address is too short to contain the fixed fields"))
  else
    cid_len ← index value 24;
    if MAX_CID_LEN <? cid_len then
      Err (transport_parameter_error
        (msg "preferred_address connection ID exceeds maximum length"))
    else
      let expected_len := 41 + cid_len in
      if negb (len value =? expected_len) then
        Err (transport_parameter_error
          (msg "preferred_address length does not match its encoded connection ID length"))
      else Ok tt.

(** ** The preferred address *)
Inductive SocketAddr :=
  | SocketV4 (octets : bytes) (port : Z)
  | SocketV6 (octets : bytes) (port flowinfo scope_id : Z).

Record DecodedPreferredAddress := {
  pa_ipv4 : option SocketAddr;
  pa_ipv6 : option SocketAddr;
  pa_connection_id : ConnectionId;
  pa_stateless_reset_token : bytes;
}.

Definition is_unspecified (octets : bytes) : bool := forallb (Z.eqb 0) octets.

Definition decode_preferred_address (value : bytes) : qres DecodedPreferredAddress :=
  validate_preferred_address value;;
  ipv4_addr ← slice value 0 4;
  ipv4_port ← (a ← index value 4; b ← index value 5; Ok (from_be [a; b]));
  ipv6_addr ← slice value 6 22;
  ipv6_port ← (a ← index value 22; b ← index value 23; Ok (from_be [a; b]));
  cid_len ← index value 24;
  c ← slice value 25 (25 + cid_len);
  cid ← from_slice c;
  token ← slice value (25 + cid_len) (41 + cid_len);
  let ipv4 := if negb (ipv4_port =? 0) && negb (is_unspecified ipv4_addr)
              then Some (SocketV4 ipv4_addr ipv4_port) else None in
  let ipv6 := if negb (ipv6_port =? 0) && negb (is_unspecified ipv6_addr)
              then Some (SocketV6 ipv6_addr ipv6_port 0 0) else None in
  Ok {| pa_ipv4 := ipv4; pa_ipv6 := ipv6; pa_connection_id := cid;
        pa_stateless_reset_token := token |}.

(** ** Encoding *)

(** [if let Some(x) = o { f(x)? }]. *)
Definition if_some {A} (o : option A) (f : A → qenc unit) : qenc unit :=
  match o with Some x => f x | None => mret tt end.

(** The part of [encode_transport_parameters] before the GREASE entry. *)
Definition encode_known_parameters (params : LocalTransportParameters) : qenc unit :=
  if_some (l_original_destination_connection_id params)
    (λ cid, encode_transport_bytes_param TP_ORIGINAL_DESTINATION_CONNECTION_ID (as_slice cid));;
  (if 0 <? l_max_idle_timeout_ms params
   then encode_transport_param TP_MAX_IDLE_TIMEOUT (l_max_idle_timeout_ms params) else mret tt);;
  if_some (l_stateless_reset_token params)
    (λ token, encode_transport_bytes_param TP_STATELESS_RESET_TOKEN token);;
  (if negb (l_max_udp_payload_size params =? DEFAULT_MAX_UDP_PAYLOAD_SIZE)
   then encode_transport_param TP_MAX_UDP_PAYLOAD_SIZE (l_max_udp_payload_size params) else mret tt);;
  encode_transport_param TP_INITIAL_MAX_DATA (l_initial_max_data params);;
  encode_transport_param TP_INITIAL_MAX_STREAM_DATA_BIDI_LOCAL
    (l_initial_max_stream_data_bidi_local params);;
  encode_transport_param TP_INITIAL_MAX_STREAM_DATA_BIDI_REMOTE
    (l_initial_max_stream_data_bidi_remote params);;
  encode_transport_param TP_INITIAL_MAX_STREAM_DATA_UNI (l_initial_max_stream_data_uni params);;
  encode_transport_param TP_INITIAL_MAX_STREAMS_BIDI (l_initial_max_streams_bidi params);;
  encode_transport_param TP_INITIAL_MAX_STREAMS_UNI (l_initial_max_streams_uni params);;
  (if negb (l_ack_delay_exponent params =? 3)
   then encode_transport_param TP_ACK_DELAY_EXPONENT (l_ack_delay_exponent params) else mret tt);;
  (if negb (l_max_ack_delay_ms params =? DEFAULT_MAX_ACK_DELAY_MS)
   then encode_transport_param TP_MAX_ACK_DELAY (l_max_ack_delay_ms params) else mret tt);;
  (if l_disable_active_migration params
   then encode_transport_bytes_param TP_DISABLE_ACTIVE_MIGRATION [] else mret tt);;
  if_some (l_preferred_address params)
    (λ preferred_address,
       lift (validate_preferred_address preferred_address);;
       encode_transport_bytes_param TP_PREFERRED_ADDRESS preferred_address);;
  encode_transport_param TP_ACTIVE_CONNECTION_ID_LIMIT (l_active_connection_id_limit params);;
  if_some (l_initial_source_connection_id params)
    (λ cid, encode_transport_bytes_param TP_INITIAL_SOURCE_CONNECTION_ID (as_slice cid));;
  if_some (l_retry_source_connection_id params)
    (λ cid, encode_transport_bytes_param TP_RETRY_SOURCE_CONNECTION_ID (as_slice cid)).

(** The state is the GREASE counter, untouched when an earlier entry fails. *)
Definition encode_transport_parameters (params : LocalTransportParameters)
    : stM Z QuicError bytes :=
  '(buf, _) ← lift (build (encode_known_parameters params));
  '(grease_id, grease_value) ← next_grease_transport_parameter;
  lift (match encode_transport_bytes_param grease_id grease_value buf with
        | (Ok _, buf) => Ok buf
        | (Err e, _) => Err e
        | (Panic, _) => Panic
        | (Diverge, _) => Diverge
        end).

(** ** Parsing *)

(** The field updates of [params.field = value]. *)
Definition set_param (id : Z) (p : PeerTransportParameters) (v : Z) : PeerTransportParameters :=
  let 'Build_PeerTransportParameters a b c d e f g h i j k l m n o q r := p in
  match id with
  | 0x01 => Build_PeerTransportParameters a v c d e f g h i j k l m n o q r
  | 0x03 => Build_PeerTransportParameters a b v d e f g h i j k l m n o q r
  | 0x04 => Build_PeerTransportParameters a b c v e f g h i j k l m n o q r
  | 0x05 => Build_PeerTransportParameters a b c d v f g h i j k l m n o q r
  | 0x06 => Build_PeerTransportParameters a b c d e v g h i j k l m n o q r
  | 0x07 => Build_PeerTransportParameters a b c d e f v h i j k l m n o q r
  | 0x08 => Build_PeerTransportParameters a b c d e f g v i j k l m n o q r
  | 0x09 => Build_PeerTransportParameters a b c d e f g h v j k l m n o q r
  | 0x0a => Build_PeerTransportParameters a b c d e f g h i v k l m n o q r
  | 0x0b => Build_PeerTransportParameters a b c d e f g h i j v l m n o q r
  | 0x0e => Build_PeerTransportParameters a b c d e f g h i j k l m v o q r
  | _ => p
  end.

Definition set_cid (id : Z) (p : PeerTransportParameters) (v : ConnectionId)
    : PeerTransportParameters :=
  let 'Build_PeerTransportParameters a b c d e f g h i j k l m n o q r := p in
  match id with
  | 0x00 => Build_PeerTransportParameters (Some v) b c d e f g h i j k l m n o q r
  | 0x0f => Build_PeerTransportParameters a b c d e f g h i j k l m n (Some v) q r
  | 0x10 => Build_PeerTransportParameters a b c d e f g h i j k l m n o (Some v) r
  | _ => p
  end.

Definition set_token (p : PeerTransportParameters) (v : bytes) : PeerTransportParameters :=
  let 'Build_PeerTransportParameters a b c d e f g h i j k l m n o q _ := p in
  Build_PeerTransportParameters a b c d e f g h i j k l m n o q (Some v).

Definition set_no_migration (p : PeerTransportParameters) : PeerTransportParameters :=
  let 'Build_PeerTransportParameters a b c d e f g h i j k _ m n o q r := p in
  Build_PeerTransportParameters a b c d e f g h i j k true m n o q r.

Definition set_preferred (p : PeerTransportParameters) (v : bytes) : PeerTransportParameters :=
  let 'Build_PeerTransportParameters a b c d e f g h i j k l _ n o q r := p in
  Build_PeerTransportParameters a b c d e f g h i j k l (Some v) n o q r.

(** The [match id] of [parse_transport_parameters]; [value] has length [len]. *)
Definition apply_param (params : PeerTransportParameters) (id : Z) (value : bytes)
    : qres PeerTransportParameters :=
  match id with
  | 0x00 =>
      c ← decode_transport_connection_id "original_destination_connection_id" value;
      Ok (set_cid id params c)
  | 0x01 => v ← decode_transport_param_value value; Ok (set_param id params v)
  | 0x02 =>
      if negb (len value =? 16) then
        Err (transport_parameter_error (msg "stateless reset token must be 16 bytes"))
      else Ok (set_token params value)
  | 0x03 =>
      size ← decode_transport_param_value value;
      if size <? MIN_MAX_UDP_PAYLOAD_SIZE then
        Err (transport_parameter_error (msg "max_udp_payload_size must be at least 1200"))
      else Ok (set_param id params size)
  | 0x04 | 0x05 | 0x06 | 0x07 | 0x08 | 0x09 =>
      v ← decode_transport_param_value value; Ok (set_param id params v)
  | 0x0a =>
      exponent ← decode_transport_param_value value;
      if MAX_ACK_DELAY_EXPONENT <? exponent then
        Err (transport_parameter_error (msg "ack delay exponent must be <= 20"))
      else Ok (set_param id params (as_u32 exponent))
  | 0x0b =>
      delay ← decode_transport_param_value value;
      if MAX_MAX_ACK_DELAY_MS <? delay then
        Err (transport_parameter_error (msg "max_ack_delay must be <= 16384 milliseconds"))
      else Ok (set_param id params delay)
  | 0x0c =>
      match value with
      | [] => Ok (set_no_migration params)
      | _ :: _ =>
          Err (transport_parameter_error (msg "disable_active_migration must be zero-length"))
      end
  | 0x0d => validate_preferred_address value;; Ok (set_preferred params value)
  | 0x0e =>
      limit ← decode_transport_param_value value;
      if limit <? 2 then
        Err (transport_parameter_error (msg "active_connection_id_limit must be >= 2"))
      else Ok (set_param id params limit)
  | 0x0f =>
      c ← decode_transport_connection_id "initial_source_connection_id" value;
      Ok (set_cid id params c)
  | 0x10 =>
      c ← decode_transport_connection_id "retry_source_connection_id" value;
      Ok (set_cid id params c)
  | _ => Ok params
  end.

(** [while offset < buf.len()]: at most [fuel] rounds. *)
Fixpoint parse_loop (fuel : nat) (buf : bytes) (offset : Z) (params : PeerTransportParameters)
    (seen : gset Z) : qres PeerTransportParameters :=
  if offset <? len buf then
    match fuel with
    | O => Diverge
    | S fuel =>
        '(id, offset) ←
          map_err (λ _, transport_parameter_error (msg "truncated transport parameter id"))
            (read_varint buf offset);
        '(n, offset) ←
          map_err (λ _, transport_parameter_error (msg "truncated transport parameter length"))
            (read_varint buf offset);
        '(value, offset) ←
          read_data (transport_parameter_error (msg "truncated transport parameter value"))
            buf offset n;
        if decide (id ∈ seen) then
          Err (transport_parameter_error (Msg "duplicate transport parameter 0x{id:x}" [id]))
        else
          params ← apply_param params id value;
          parse_loop fuel buf offset params ({[id]} ∪ seen)
    end
  else Ok params.

Definition parse_transport_parameters (buf : bytes) : qres PeerTransportParameters :=
  parse_loop (length buf) buf 0 peer_default ∅.
