(* ===== verification/TransportParamsProps.v ===== *)
(** * Properties of the transport parameters

    A parameter block is a sequence of entries; the encoder writes one, and the
    parser folds [apply_param] over one, refusing a repeated identifier. *)

From S2P Require Import Prelude QuicError Varint Frame FrameProps Packet PacketProps.
From S2P Require Import TransportParams.

(** ** Entries *)
Definition entry_bytes (e : Z * bytes) : bytes :=
  varint_bytes e.1 ++ varint_bytes (len e.2) ++ e.2.
Definition entries_bytes (es : list (Z * bytes)) : bytes := concat (entry_bytes <$> es).
Definition entry_ok (e : Z * bytes) : Prop := varint_ok e.1 ∧ data_wf e.2.

(** The code [m] writes the entries [es]. *)
Definition writes (m : qenc unit) (es : list (Z * bytes)) : Prop :=
  Forall entry_ok es ∧ ∀ buf, m buf = (Ok tt, buf ++ entries_bytes es).

Lemma entries_bytes_app es fs : entries_bytes (es ++ fs) = entries_bytes es ++ entries_bytes fs.
Proof. unfold entries_bytes. by rewrite fmap_app, concat_app. Qed.

Lemma writes_nil : writes (mret tt) [].
Proof. split; [done|]. intros buf. cbn. by rewrite app_nil_r. Qed.

Lemma writes_seq m k es fs : writes m es → writes k fs → writes (m;; k) (es ++ fs).
Proof.
  intros [? Hm] [? Hk]. split; [by apply Forall_app_2|]. intros buf. erewrite stM_bind_ok by apply Hm. rewrite Hk, entries_bytes_app. by rewrite app_assoc.
Qed.

Lemma writes_bytes id v : entry_ok (id, v) → writes (encode_transport_bytes_param id v) [(id, v)].
Proof.
  intros He. split; [by apply Forall_singleton|]. destruct He as [? ?]. intros buf. cbn in *.
  unfold encode_transport_bytes_param. enc_steps. unfold extend.
  cbn. unfold entry_bytes. by rewrite app_nil_r, <- !app_assoc.
Qed.

Lemma data_wf_varint v : varint_ok v → data_wf (varint_bytes v).
Proof.
  intros. split; [by apply varint_bytes_ok|]. rewrite len_varint_bytes by done.
  pose proof (varint_len_pos v). unfold MAX_VARINT. lia.
Qed.

Lemma writes_int id v : varint_ok id → varint_ok v →
  writes (encode_transport_param id v) [(id, varint_bytes v)].
Proof.
  intros ??. split; [apply Forall_singleton; split; [done|by apply data_wf_varint]|].
  intros buf. unfold encode_transport_param. pose proof (varint_len_pos v).
  rewrite !encode_varint_bind, encode_varint_ok by (done || (apply varint_ok_small; lia)).
  cbn. unfold entry_bytes; cbn. by rewrite app_nil_r, len_varint_bytes, <- !app_assoc.
Qed.

Lemma writes_if (b : bool) m es : (b = true → writes m es) → writes (if b then m else mret tt) (if b then es else []).
Proof. destruct b; auto using writes_nil. Qed.

Lemma writes_if_some {A} (o : option A) f (g : A → list (Z * bytes)) :
  (∀ a, o = Some a → writes (f a) (g a)) → writes (if_some o f) (from_option g [] o).
Proof. destruct o; cbn; auto using writes_nil. Qed.

(** ** Parameters that can be sent *)
Definition opt {A} (P : A → Prop) (o : option A) : Prop := from_option P True o.
Definition preferred_ok (v : bytes) : Prop := data_wf v ∧ validate_preferred_address v = Ok tt.

Definition peer_wf (p : PeerTransportParameters) : Prop :=
  opt cid_wf (original_destination_connection_id p) ∧
  varint_ok (max_idle_timeout_ms p) ∧
  varint_ok (max_udp_payload_size p) ∧ MIN_MAX_UDP_PAYLOAD_SIZE ≤ max_udp_payload_size p ∧
  varint_ok (initial_max_data p) ∧
  varint_ok (initial_max_stream_data_bidi_local p) ∧
  varint_ok (initial_max_stream_data_bidi_remote p) ∧
  varint_ok (initial_max_stream_data_uni p) ∧
  varint_ok (initial_max_streams_bidi p) ∧
  varint_ok (initial_max_streams_uni p) ∧
  0 ≤ ack_delay_exponent p ≤ MAX_ACK_DELAY_EXPONENT ∧
  0 ≤ max_ack_delay_ms p ≤ MAX_MAX_ACK_DELAY_MS ∧
  opt preferred_ok (preferred_address p) ∧
  varint_ok (active_connection_id_limit p) ∧ 2 ≤ active_connection_id_limit p ∧
  opt cid_wf (initial_source_connection_id p) ∧
  opt cid_wf (retry_source_connection_id p) ∧
  opt (array_wf 16) (stateless_reset_token p).

(** What the peer should see of the local parameters. *)
Definition to_peer (l : LocalTransportParameters) : PeerTransportParameters := {|
  original_destination_connection_id := l_original_destination_connection_id l;
  max_idle_timeout_ms := l_max_idle_timeout_ms l;
  max_udp_payload_size := l_max_udp_payload_size l;
  initial_max_data := l_initial_max_data l;
  initial_max_stream_data_bidi_local := l_initial_max_stream_data_bidi_local l;
  initial_max_stream_data_bidi_remote := l_initial_max_stream_data_bidi_remote l;
  initial_max_stream_data_uni := l_initial_max_stream_data_uni l;
  initial_max_streams_bidi := l_initial_max_streams_bidi l;
  initial_max_streams_uni := l_initial_max_streams_uni l;
  ack_delay_exponent := l_ack_delay_exponent l;
  max_ack_delay_ms := l_max_ack_delay_ms l;
  disable_active_migration := l_disable_active_migration l;
  preferred_address := l_preferred_address l;
  active_connection_id_limit := l_active_connection_id_limit l;
  initial_source_connection_id := l_initial_source_connection_id l;
  retry_source_connection_id := l_retry_source_connection_id l;
  stateless_reset_token := l_stateless_reset_token l;
|}.

(** The entries [encode_known_parameters] writes, in order. *)
Definition cid_entry (id : Z) (o : option ConnectionId) : list (Z * bytes) :=
  from_option (λ c, [(id, as_slice c)]) [] o.
Definition bytes_entry (id : Z) (o : option bytes) : list (Z * bytes) :=
  from_option (λ v, [(id, v)]) [] o.
Definition int_entry (present : bool) (id v : Z) : list (Z * bytes) :=
  if present then [(id, varint_bytes v)] else [].

Definition known_entries (l : LocalTransportParameters) : list (Z * bytes) :=
  cid_entry 0x00 (l_original_destination_connection_id l) ++
  int_entry (0 <? l_max_idle_timeout_ms l) 0x01 (l_max_idle_timeout_ms l) ++
  bytes_entry 0x02 (l_stateless_reset_token l) ++
  int_entry (negb (l_max_udp_payload_size l =? DEFAULT_MAX_UDP_PAYLOAD_SIZE)) 0x03
    (l_max_udp_payload_size l) ++
  int_entry true 0x04 (l_initial_max_data l) ++
  int_entry true 0x05 (l_initial_max_stream_data_bidi_local l) ++
  int_entry true 0x06 (l_initial_max_stream_data_bidi_remote l) ++
  int_entry true 0x07 (l_initial_max_stream_data_uni l) ++
  int_entry true 0x08 (l_initial_max_streams_bidi l) ++
  int_entry true 0x09 (l_initial_max_streams_uni l) ++
  int_entry (negb (l_ack_delay_exponent l =? 3)) 0x0a (l_ack_delay_exponent l) ++
  int_entry (negb (l_max_ack_delay_ms l =? DEFAULT_MAX_ACK_DELAY_MS)) 0x0b (l_max_ack_delay_ms l) ++
  (if l_disable_active_migration l then [(0x0c, [])] else []) ++
  bytes_entry 0x0d (l_preferred_address l) ++
  int_entry true 0x0e (l_active_connection_id_limit l) ++
  cid_entry 0x0f (l_initial_source_connection_id l) ++
  cid_entry 0x10 (l_retry_source_connection_id l).

Lemma cid_data_wf c : cid_wf c → data_wf (as_slice c).
Proof. intros ([? ?] & ? & ? & _). unfold MAX_CID_LEN in *. split; [done|]. unfold MAX_VARINT. lia. Qed.

Lemma array_data_wf n v : n ≤ MAX_VARINT → array_wf n v → data_wf v.
Proof. intros ? [? <-]. done. Qed.

Lemma writes_cid id o : 0 ≤ id < 64 → opt cid_wf o →
  writes (if_some o (λ c, encode_transport_bytes_param id (as_slice c))) (cid_entry id o).
Proof.
  intros ? Ho. apply writes_if_some. intros c ->. apply writes_bytes.
  split; [by apply varint_ok_small|by apply cid_data_wf].
Qed.

Lemma writes_token id o : 0 ≤ id < 64 → opt (array_wf 16) o →
  writes (if_some o (λ v, encode_transport_bytes_param id v)) (bytes_entry id o).
Proof.
  intros ? Ho. apply writes_if_some. intros c ->. apply writes_bytes.
  split; [by apply varint_ok_small|]. by eapply array_data_wf; [|exact Ho].
Qed.

Lemma writes_preferred id o : 0 ≤ id < 64 → opt preferred_ok o →
  writes (if_some o (λ v, lift (validate_preferred_address v);; encode_transport_bytes_param id v))
         (bytes_entry id o).
Proof.
  intros ? Ho. apply writes_if_some. intros c ->. destruct Ho as [Hd Hv].
  destruct (writes_bytes id c) as [? Hw]; [split; [by apply varint_ok_small|done]|].
  split; [done|]. intros buf. by rewrite (lift_bind _ tt) by done.
Qed.

Lemma writes_opt_int b id v : 0 ≤ id < 64 → varint_ok v →
  writes (if b : bool then encode_transport_param id v else mret tt) (int_entry b id v).
Proof. intros. apply writes_if. intros _. apply writes_int; [by apply varint_ok_small|done]. Qed.

Lemma writes_flag b : writes
  (if b : bool then encode_transport_bytes_param TP_DISABLE_ACTIVE_MIGRATION [] else mret tt)
  (if b then [(0x0c, [])] else []).
Proof.
  apply writes_if. intros _. apply writes_bytes. split; [by apply varint_ok_small|].
  split; [constructor|vm_compute; discriminate].
Qed.

Lemma small_varint_ok v b : 0 ≤ v ≤ b → b ≤ MAX_VARINT → varint_ok v.
Proof. unfold varint_ok. lia. Qed.

Lemma encode_known_writes l : peer_wf (to_peer l) →
  writes (encode_known_parameters l) (known_entries l).
Proof.
  intros H. unfold peer_wf, to_peer in H; cbn in H.
  destruct H as (? & ? & ? & ? & ? & ? & ? & ? & ? & ? & He & Hd & ? & ? & ? & ? & ? & ?).
  apply small_varint_ok in He; [|vm_compute; discriminate].
  apply small_varint_ok in Hd; [|vm_compute; discriminate].
  unfold encode_known_parameters, known_entries.
  repeat apply writes_seq;
    first [ by apply writes_cid | by apply writes_token | by apply writes_preferred
          | apply writes_flag | by apply writes_opt_int
          | apply (writes_opt_int true); done ].
Qed.

(** ** The parser on a sequence of entries *)
Fixpoint fold_entries (seen : gset Z) (p : PeerTransportParameters) (es : list (Z * bytes))
    : qres PeerTransportParameters :=
  match es with
  | [] => Ok p
  | (id, v) :: es =>
      if decide (id ∈ seen) then
        Err (transport_parameter_error (Msg "duplicate transport parameter 0x{id:x}" [id]))
      else p ← apply_param p id v; fold_entries ({[id]} ∪ seen) p es
  end.

Lemma parse_loop_entries fuel buf o p seen es : len buf ≤ ISIZE_MAX → Forall entry_ok es →
  (length es ≤ fuel)%nat → at_pos buf o (entries_bytes es) →
  parse_loop fuel buf o p seen = fold_entries seen p es.
Proof.
  intros Hl Hes. revert fuel o p seen. induction Hes as [|[id v] es [Hid Hv] _ IH]; intros fuel o p seen Hf P.
  - apply at_pos_len in P. change (entries_bytes []) with (@nil Z) in P. rewrite len_nil in P.
    destruct fuel; cbn [parse_loop]; by replace (o <? len buf) with false by lia.
  - cbn [fst snd] in *. change (entries_bytes ((id, v) :: es)) with (entry_bytes (id, v) ++ entries_bytes es) in P.
    unfold entry_bytes in P; cbn [fst snd] in P. rewrite <- !app_assoc in P.
    pose proof (at_pos_len _ _ _ P) as Hlen. rewrite len_app, len_varint_bytes in Hlen by done.
    pose proof (varint_len_pos id). cbn [length] in Hf.
    match type of Hlen with _ = _ + (_ + len ?x) => pose proof (len_nonneg x) end.
    destruct fuel as [|fuel]; [lia|]. cbn [parse_loop fold_entries].
    replace (o <? len buf) with true by lia.
    destruct (read_varint_at _ _ _ _ Hid P) as [-> P1]. cbn [map_err]. rewrite bind_ok; cbn beta iota.
    destruct (read_varint_at _ _ _ _ (data_len_ok _ Hv) P1) as [-> P2]. cbn [map_err].
    rewrite bind_ok; cbn beta iota.
    destruct (read_data_at (transport_parameter_error (msg "truncated transport parameter value"))
      buf _ v _ (len v) Hl eq_refl P2) as [-> P3]. rewrite bind_ok; cbn beta iota.
    case_decide; [done|]. destruct (apply_param p id v) as [p'|e| |]; [|done..].
    rewrite !bind_ok. apply IH; [lia|done].
Qed.

(** ** Reading the entries back *)
Definition below (k : Z) (seen : gset Z) : Prop := ∀ x, x ∈ seen → x < k.

(** An entry that is present with effect [p'], or absent when [p'] is [p] already. *)
Definition entry_effect (id : Z) (p p' : PeerTransportParameters) (es : list (Z * bytes)) : Prop :=
  (es = [] ∧ p' = p) ∨ ∃ v, es = [(id, v)] ∧ apply_param p id v = Ok p'.

Lemma fold_entry k id p p' es0 es R : entry_effect id p p' es0 → k ≤ id →
  (∀ seen, below (id + 1) seen → fold_entries seen p' es = R) →
  ∀ seen, below k seen → fold_entries seen p (es0 ++ es) = R.
Proof.
  intros [[-> ->] | (v & -> & E)] Hk HR seen Hb; cbn.
  - apply HR. intros x Hx. specialize (Hb x Hx). lia.
  - rewrite decide_False by (intros Hx; specialize (Hb id Hx); lia). rewrite E, bind_ok. apply HR.
    intros x Hx. apply elem_of_union in Hx as [Hx%elem_of_singleton|Hx]; [lia|]. specialize (Hb x Hx). lia.
Qed.

Lemma param_value_varint v : varint_ok v → decode_transport_param_value (varint_bytes v) = Ok v.
Proof.
  intros Hv. unfold decode_transport_param_value.
  rewrite <- (app_nil_r (varint_bytes v)) at 1. rewrite decode_varint_bytes by done.
  cbn [map_err]. rewrite bind_ok, len_varint_bytes, Z.eqb_refl by done. done.
Qed.

Lemma param_cid name c : cid_wf c → decode_transport_connection_id name (as_slice c) = Ok c.
Proof.
  intros Hc. pose proof Hc as ([? ?] & _ & Hl & _). unfold decode_transport_connection_id. rewrite Hl.
  replace (MAX_CID_LEN <? cid_len c) with false by lia. by apply from_slice_as_slice.
Qed.

Lemma effect_int b id p v : varint_ok v →
  (b = false → set_param id p v = p) →
  (decode_transport_param_value (varint_bytes v) = Ok v →
     apply_param p id (varint_bytes v) = Ok (set_param id p v)) →
  entry_effect id p (set_param id p v) (int_entry b id v).
Proof.
  intros Hv Hf Ht. destruct b; cbn; [|left; split; [done|by apply Hf]].
  right. eexists; split; [done|]. by apply Ht, param_value_varint.
Qed.

Lemma effect_cid id p o p' : opt cid_wf o →
  (∀ c, o = Some c → (∀ name, decode_transport_connection_id name (as_slice c) = Ok c) →
     apply_param p id (as_slice c) = Ok p') →
  (o = None → p' = p) → entry_effect id p p' (cid_entry id o).
Proof.
  intros Ho Hs Hn. destruct o as [c|]; cbn; [right|left; by split; [|apply Hn]].
  eexists; split; [done|]. apply Hs; [done|]. intros name. by apply param_cid.
Qed.

Lemma effect_bytes id p o p' :
  (∀ v, o = Some v → apply_param p id v = Ok p') → (o = None → p' = p) →
  entry_effect id p p' (bytes_entry id o).
Proof.
  intros Hs Hn. destruct o as [c|]; cbn; [right|left; by split; [|apply Hn]].
  eexists; split; [done|]. by apply Hs.
Qed.

Lemma apply_unknown p id v : 0x10 < id → apply_param p id v = Ok p.
Proof.
  intros Hid. destruct id as [|q|q]; [lia| |lia].
  do 5 (try (destruct q as [q|q|]; try reflexivity)); lia.
Qed.

(** The steps of [fold_known]: the current parameters are an explicit record. *)
Ltac step_int :=
  eapply fold_entry; [eapply effect_int;
    [ done
    | cbn; intros ?; f_equal; unfold varint_ok in *; lia
    | let E := fresh in intros E; cbn [apply_param]; rewrite E, ?bind_ok;
      rewrite ?(proj2 (Z.ltb_ge _ _)) by done; reflexivity ] | lia | cbn [set_param]].
Ltac step_cid P' :=
  eapply (fold_entry _ _ _ P');
    [ apply effect_cid; [done| |by intros ->];
      let E := fresh in intros ? -> E; cbn [apply_param]; rewrite E, bind_ok; reflexivity | lia |].
Ltac step_bytes P' tac :=
  eapply (fold_entry _ _ _ P');
    [ apply effect_bytes; [intros ? ->; tac|by intros ->] | lia |].

Lemma fold_known l gid gv : peer_wf (to_peer l) → 0x10 < gid →
  fold_entries ∅ peer_default (known_entries l ++ [(gid, gv)]) = Ok (to_peer l).
Proof.
  intros H Hg. unfold peer_wf, to_peer in *; cbn in H.
  destruct l as [a b tok c d e f g h i j k m pa n q r]; cbn in H.
  destruct H as (Ho & Hb & ? & ? & ? & ? & ? & ? & ? & ? & He & Hd & Hp & ? & ? & Hi & Hr & Ht).
  unfold known_entries.
  cbn -[varint_bytes Z.eqb Z.ltb DEFAULT_MAX_UDP_PAYLOAD_SIZE DEFAULT_MAX_ACK_DELAY_MS int_entry].
  assert (varint_ok j) by (apply (small_varint_ok _ _ He); vm_compute; discriminate).
  assert (varint_ok k) by (apply (small_varint_ok _ _ Hd); vm_compute; discriminate).
  rewrite <- !app_assoc. cut (below 0 ∅); [|intros x Hx; set_solver]. generalize (∅ : gset Z).
  unfold peer_default.
  set (U := DEFAULT_MAX_UDP_PAYLOAD_SIZE). set (D := DEFAULT_MAX_ACK_DELAY_MS).
  step_cid (Build_PeerTransportParameters a 0 U 0 0 0 0 0 0 3 D false None 2 None None None).
  step_int.
  step_bytes (Build_PeerTransportParameters a b U 0 0 0 0 0 0 3 D false None 2 None None tok)
    ltac:(destruct Ht as [_ Ht]; cbn [apply_param]; rewrite Ht; reflexivity).
  do 7 step_int.
  assert (as_u32 j = j) as Hj.
  { unfold as_u32, MAX_ACK_DELAY_EXPONENT in *. apply Z.mod_small. lia. }
  eapply fold_entry; [eapply effect_int; [done|cbn; intros ?; f_equal; lia|]|lia|cbn [set_param]].
  { intros E. cbn [apply_param]. rewrite E, bind_ok, Hj. by rewrite (proj2 (Z.ltb_ge _ _)) by lia. }
  eapply fold_entry; [eapply effect_int; [done|cbn; intros ?; f_equal; lia|]|lia|cbn [set_param]].
  { intros E. cbn [apply_param]. rewrite E, bind_ok. by rewrite (proj2 (Z.ltb_ge _ _)) by lia. }
  eapply (fold_entry _ 0x0c _ (Build_PeerTransportParameters a b c d e f g h i j k m None 2 None None tok));
    [destruct m; [right; by eexists|by left] | lia|].
  step_bytes (Build_PeerTransportParameters a b c d e f g h i j k m pa 2 None None tok)
    ltac:(destruct Hp as [_ Hp]; cbn [apply_param]; rewrite Hp; reflexivity).
  step_int.
  step_cid (Build_PeerTransportParameters a b c d e f g h i j k m pa n q None tok).
  step_cid (Build_PeerTransportParameters a b c d e f g h i j k m pa n q r tok).
  intros seen Hs. cbn [fold_entries]. rewrite decide_False by (intros Hx; specialize (Hs gid Hx); lia).
  by rewrite apply_unknown.
Qed.

Lemma length_grease n x : length (grease_value n x) = n.
Proof. revert x. induction n; intros x; cbn; [done|]. by rewrite IHn. Qed.

Lemma grease_bytes_ok n x : bytes_ok (grease_value n x).
Proof.
  revert x. induction n as [|n IH]; intros x; [constructor|]. apply Forall_cons_2; [|apply IH].
  unfold as_u8. pose proof (Z.mod_pos_bound (Z.land x 0xff) (2 ^ 8)). unfold_ints. lia.
Qed.

Lemma next_grease_ok c : 0 ≤ c < U64_MAX → ∃ id v,
  next_grease_transport_parameter c = (Ok (id, v), c + 1) ∧ 0x10 < id ∧ entry_ok (id, v).
Proof.
  intros Hc. unfold next_grease_transport_parameter. rewrite add_u64_small by lia.
  rewrite bind_ok. do 2 eexists. split; [rewrite (Z.mod_small (c + 1) (2 ^ 64)) by (unfold_ints; lia); reflexivity|].
  pose proof (Z.mod_pos_bound (c + 1) 128 ltac:(lia)) as Hm.
  pose proof (Z.mod_pos_bound (Z.shiftr (c + 1) 8) 8 ltac:(lia)) as Hv.
  split; [lia|]. split; cbn; [unfold varint_ok, MAX_VARINT; lia|].
  split; [apply grease_bytes_ok|]. unfold len. rewrite length_grease.
  rewrite Z2Nat.id by lia. unfold MAX_VARINT. lia.
Qed.

(** ** Parsing arbitrary input *)
Lemma param_value_post v : bytes_ok v → post varint_ok (decode_transport_param_value v).
Proof.
  intros. unfold decode_transport_param_value.
  eapply post_bind; [by apply post_map_err, decode_varint_post|]. intros [x n] (? & _). by dif.
Qed.

Lemma param_cid_post name v : bytes_ok v → post cid_wf (decode_transport_connection_id name v).
Proof.
  intros. unfold decode_transport_connection_id. dif; [done|].
  eapply post_mono; [apply post_from_slice; [done|lia]|]. by intros c [? _].
Qed.

Lemma validate_preferred_post v : bytes_ok v →
  post (λ _, validate_preferred_address v = Ok tt) (validate_preferred_address v).
Proof.
  intros. destruct (validate_preferred_address v) as [[]|e| |] eqn:E; [done..| |].
  all: exfalso; revert E; unfold validate_preferred_address; dif; [done|].
  all: destruct (index (E:=QuicError) v 24) as [c|e'| |] eqn:Ei; rewrite ?bind_ok; try done.
  all: try (by repeat dif).
  all: pose proof (post_index_u8 (E:=QuicError) v 24) as Hp; rewrite Ei in Hp; exfalso; apply Hp; [done|lia].
Qed.

Lemma param_id_cases id : id < 0 ∨ 0x10 < id ∨
  id ∈ [0; 1; 2; 3; 4; 5; 6; 7; 8; 9; 10; 11; 12; 13; 14; 15; 16].
Proof. rewrite !elem_of_cons, elem_of_nil. lia. Qed.

Ltac param_case :=
  cbn [apply_param];
  first
    [ eapply post_bind; [by apply param_value_post|]
    | eapply post_bind; [by apply param_cid_post|]
    | eapply post_bind; [by apply validate_preferred_post|]
    | idtac ];
  intros; try dif; try (match goal with |- context [match ?l with [] => _ | _ :: _ => _ end] => destruct l; [|done] end); try done;
  unfold peer_wf; cbn; unfold varint_ok, array_wf, preferred_ok, data_wf, as_u32,
    MAX_ACK_DELAY_EXPONENT in *;
  rewrite ?Z.mod_small by lia; split_and!; try done; lia.

Lemma apply_param_post p id v : peer_wf p → data_wf v → post peer_wf (apply_param p id v).
Proof.
  intros Hp Hv. destruct (param_id_cases id) as [Hid | [Hid | Hid]].
  - destruct id; [lia|lia|]. by destruct p.
  - by rewrite apply_unknown.
  - pose proof Hv as [Hb Hl]. destruct p. unfold peer_wf in Hp; cbn in Hp. wf_destruct.
    repeat (apply elem_of_cons in Hid as [-> | Hid]; [param_case|]).
    by apply elem_of_nil in Hid.
Qed.

Lemma peer_default_wf : peer_wf peer_default.
Proof.
  unfold peer_wf, peer_default, varint_ok, MAX_VARINT, MIN_MAX_UDP_PAYLOAD_SIZE,
    DEFAULT_MAX_UDP_PAYLOAD_SIZE, MAX_ACK_DELAY_EXPONENT, MAX_MAX_ACK_DELAY_MS,
    DEFAULT_MAX_ACK_DELAY_MS; cbn. split_and!; try done; lia.
Qed.

Lemma parse_loop_post fuel buf o p seen : buf_ok buf → peer_wf p → 0 ≤ o ≤ len buf →
  len buf - o ≤ Z.of_nat fuel → post peer_wf (parse_loop fuel buf o p seen).
Proof.
  intros Hb. revert o p seen. induction fuel as [|fuel IH]; intros o p seen Hp Ho Hf; cbn [parse_loop]; dif;
    [lia|done| |done].
  pose proof Hb as [? _].
  eapply post_bind; [apply post_map_err, read_varint_post; [done|lia]|]. intros [id o1] [? ?].
  eapply post_bind; [apply post_map_err, read_varint_post; [done|lia]|]. intros [n o2] [Hn ?].
  eapply post_bind; [apply read_data_post; [done|lia|exact Hn]|]. intros [v o3] (? & ? & -> & ?).
  destruct Hn as [? ?]. case_decide; [done|].
  eapply post_bind; [apply apply_param_post; [done|split; [done|lia]]|]. intros p' ?.
  apply IH; [done|lia|lia].
Qed.

Lemma fold_entries_nodup seen p es r : fold_entries seen p es = Ok r →
  NoDup es.*1 ∧ (∀ id, id ∈ es.*1 → id ∉ seen).
Proof.
  revert seen p. induction es as [|[id v] es IH]; intros seen p; cbn [fold_entries].
  { intros _. split; [constructor|]. intros id Hid. by apply elem_of_nil in Hid. }
  case_decide; [done|]. intros (p' & _ & Hf)%bind_ok_inv. apply IH in Hf as [Hn Hs].
  rewrite fmap_cons. cbn. split.
  - constructor; [|done]. intros Hin%Hs. clear -Hin. set_solver.
  - intros x [-> | Hx]%elem_of_cons; [done|]. apply Hs in Hx. clear -Hx. set_solver.
Qed.

Lemma length_entries es : Forall entry_ok es → (length es ≤ length (entries_bytes es))%nat.
Proof.
  induction 1 as [|[id v] es [Hid _] _ IH]; [done|].
  change (entries_bytes ((id, v) :: es)) with (entry_bytes (id, v) ++ entries_bytes es).
  unfold entry_bytes. rewrite !length_app. cbn in *.
  pose proof (len_varint_bytes id Hid) as Hl. pose proof (varint_len_pos id). unfold len in Hl. lia.
Qed.

Lemma parse_entries es : Forall entry_ok es → len (entries_bytes es) ≤ ISIZE_MAX →
  parse_transport_parameters (entries_bytes es) = fold_entries ∅ peer_default es.
Proof.
  intros He Hl. apply parse_loop_entries; [done|done|by apply length_entries|apply at_pos_0].
Qed.

(** ** Properties *)

(** The peer reads back exactly the transport parameters that were sent, field by field,
    with the omitted ones at their defaults: for parameters in their legal ranges the
    encoder succeeds, the parser accepts its output, and the GREASE entry is ignored. *)
Theorem transport_parameters_roundtrip l counter :
  peer_wf (to_peer l) → 0 ≤ counter < U64_MAX →
  ∃ bs, encode_transport_parameters l counter = (Ok bs, counter + 1) ∧
        (len bs ≤ ISIZE_MAX → parse_transport_parameters bs = Ok (to_peer l)).
Proof.
  intros Hl Hc. destruct (encode_known_writes l Hl) as [Hok Hw].
  destruct (next_grease_ok counter Hc) as (gid & gv & Hg & Hid & He).
  exists (entries_bytes (known_entries l ++ [(gid, gv)])). split.
  - unfold encode_transport_parameters. unfold build, exec. rewrite Hw. cbn [app].
    rewrite (lift_bind _ (entries_bytes (known_entries l), tt)) by done. cbn beta iota.
    erewrite stM_bind_ok by exact Hg. cbn beta iota.
    destruct (writes_bytes gid gv He) as [_ Hw']. rewrite Hw'. by rewrite entries_bytes_app.
  - intros Hlen. rewrite parse_entries; [by apply fold_known|by apply Forall_app_2; [|apply Forall_singleton]|done].
Qed.

Definition sample_params : LocalTransportParameters := local_new 0x100000 0x8000 100 3.

Lemma sample_params_wf : peer_wf (to_peer sample_params).
Proof.
  unfold peer_wf, to_peer, sample_params, local_new, varint_ok, MAX_VARINT, MIN_MAX_UDP_PAYLOAD_SIZE,
    MAX_ACK_DELAY_EXPONENT, MAX_MAX_ACK_DELAY_MS; cbn.
  unfold DEFAULT_MAX_UDP_PAYLOAD_SIZE, DEFAULT_MAX_ACK_DELAY_MS. split_and!; try done; lia.
Qed.

Lemma transport_parameters_roundtrip_witness :
  peer_wf (to_peer sample_params) ∧
  (∃ bs, encode_transport_parameters sample_params 0 = (Ok bs, 0 + 1) ∧
         (len bs ≤ ISIZE_MAX → parse_transport_parameters bs = Ok (to_peer sample_params))) ∧
  encode_transport_parameters sample_params 0 =
    (Ok [4; 4; 128; 16; 0; 0; 5; 4; 128; 0; 128; 0; 6; 4; 128; 0; 128; 0;
         7; 4; 128; 0; 128; 0; 8; 2; 64; 100; 9; 1; 3; 14; 1; 2; 64; 89; 1; 84], 1).
Proof.
  split; [exact sample_params_wf|]. split; [|vm_compute; reflexivity].
  apply (transport_parameters_roundtrip sample_params 0 sample_params_wf). unfold_ints; lia.
Defined.

(** C29: [parse_transport_parameters] terminates without panicking on every byte string; the
    parameters it accepts satisfy the limits of RFC 9000 the code checks (payload size at
    least 1200, ACK delay exponent at most 20, ACK delay at most 2^14, at least two
    connection IDs, a well-formed preferred address, reset token and connection IDs). *)
Theorem parse_transport_parameters_total buf :
  buf_ok buf → post peer_wf (parse_transport_parameters buf).
Proof.
  intros Hb. apply parse_loop_post; [done|apply peer_default_wf|pose proof (len_nonneg buf); lia|].
  unfold len. lia.
Qed.

Lemma parse_transport_parameters_total_witness :
  buf_ok [0x0a; 1; 20] ∧ peer_wf (set_param 0x0a peer_default 20) ∧
  parse_transport_parameters [0x0a; 1; 20] = Ok (set_param 0x0a peer_default 20) ∧
  parse_transport_parameters [0x0a; 1; 21] =
    Err (transport_parameter_error (msg "ack delay exponent must be <= 20")).
Proof.
  assert (buf_ok [0x0a; 1; 20]) as Hb by bytes_dec.
  pose proof (parse_transport_parameters_total _ Hb) as H.
  assert (parse_transport_parameters [0x0a; 1; 20] = Ok (set_param 0x0a peer_default 20)) as E
    by (vm_compute; reflexivity).
  rewrite E in H. split; [exact Hb|]. split; [exact H|]. split; [exact E|vm_compute; reflexivity].
Defined.

(** A parameter block is accepted only if no identifier occurs twice in it, known or not. *)
Theorem duplicate_parameters_rejected es p :
  Forall entry_ok es → len (entries_bytes es) ≤ ISIZE_MAX →
  parse_transport_parameters (entries_bytes es) = Ok p → NoDup es.*1.
Proof. intros He Hl E. rewrite parse_entries in E by done. exact (proj1 (fold_entries_nodup _ _ _ _ E)). Qed.

Lemma duplicate_parameters_rejected_witness :
  NoDup [4; 0x3a] ∧
  parse_transport_parameters (entries_bytes [(4, [5]); (0x3a, [1]); (4, [5])]) =
    Err (transport_parameter_error (Msg "duplicate transport parameter 0x{id:x}" [4])).
Proof.
  split; [|vm_compute; reflexivity].
  apply (duplicate_parameters_rejected [(4, [5]); (0x3a, [1])] (set_param 4 peer_default 5)).
  - repeat apply Forall_cons_2; try apply Forall_nil_2;
      (split; [apply varint_ok_small; cbn; lia | split; [cbn; bytes_dec | vm_compute; discriminate]]).
  - vm_compute; discriminate.
  - vm_compute; reflexivity.
Defined.
