(* ===== verification/Crypto.v ===== *)
(** * Packet protection (starfish-quic/src/crypto/)

    Header protection, AEAD sealing of payloads and the table of keys.  The
    ciphers are trait objects of rustls: they appear as records of operations,
    and what the code relies on as the laws of a class over them. *)

From S2P Require Import Prelude QuicError Varint FrameProps Packet.

(** ** Trait objects of rustls *)

(** [quic::PacketKey]: [encrypt_in_place] gives the payload after the call and the tag or an
    error; [decrypt_in_place] the buffer after the call and the length of the plaintext. *)
Record PacketKey := {
  pk_tag_len : Z;
  pk_encrypt_in_place : Z → bytes → bytes → bytes * option bytes;
  pk_decrypt_in_place : Z → bytes → bytes → bytes * option Z;
}.

(** [quic::HeaderProtectionKey]: sample, first byte and packet number bytes. *)
Record HeaderProtectionKey := {
  hpk_sample_len : Z;
  hpk_encrypt_in_place : bytes → Z → bytes → option (Z * bytes);
  hpk_decrypt_in_place : bytes → Z → bytes → option (Z * bytes);
}.

(** The receiver's key opens what the sender's key seals. *)
Class PacketKeyLaws (k k' : PacketKey) := {
  pk_tag_len_nonneg : 0 ≤ pk_tag_len k;
  pk_seal : ∀ pn hdr p c tag, pk_encrypt_in_place k pn hdr p = (c, Some tag) →
    len c = len p ∧ len tag = pk_tag_len k;
  pk_open : ∀ pn hdr p c tag, pk_encrypt_in_place k pn hdr p = (c, Some tag) →
    ∃ junk, pk_decrypt_in_place k' pn hdr (c ++ tag) = (p ++ junk, Some (len p));
}.

(** The mask covers the low four bits of a long first byte, the low five of a short one;
    decryption is given up to four bytes and unmasks those the first byte announces. *)
Class HeaderKeyLaws (k k' : HeaderProtectionKey) := {
  hpk_mask_bits : ∀ s b pn b' pn', hpk_encrypt_in_place k s b pn = Some (b', pn') → is_u8 b →
    is_u8 b' ∧ Z.shiftr b' 5 = Z.shiftr b 5 ∧
    (is_long_header b = true → Z.shiftr b' 4 = Z.shiftr b 4);
  hpk_sample_same : hpk_sample_len k = hpk_sample_len k' ∧ 0 ≤ hpk_sample_len k;
  hpk_mask_len : ∀ s b pn b' pn', hpk_encrypt_in_place k s b pn = Some (b', pn') → len pn' = len pn;
  hpk_unmask : ∀ s b pn b' pn' extra, hpk_encrypt_in_place k s b pn = Some (b', pn') →
    len pn = Z.land b 0x03 + 1 → len pn + len extra ≤ 4 →
    hpk_decrypt_in_place k' s b' (pn' ++ extra) = Some (b, pn ++ extra);
}.

(** ** AEAD (aead.rs) *)

(** [payload.resize(n, 0)]. *)
Definition resize (n : Z) (l : bytes) : bytes :=
  take (Z.to_nat n) l ++ replicate (Z.to_nat (n - len l)) 0.

(** A callee writes [new] through a slice that holds [old], whose length stays. *)
Definition overlay (new old : bytes) : bytes := take (length old) new ++ drop (length new) old.

(** The state is [payload: &mut Vec<u8>]; [copy_from_slice] panics on a tag of another length. *)
Definition encrypt_packet (pn : Z) (header : bytes) (key : PacketKey) : stM bytes QuicError unit :=
  λ payload,
  let tag_len := pk_tag_len key in
  let payload_len := len payload in
  let payload := resize (payload_len + tag_len) payload in
  let plain := take (Z.to_nat payload_len) payload in
  let '(sealed, r) := pk_encrypt_in_place key pn header plain in
  let payload := overlay sealed plain ++ drop (Z.to_nat payload_len) payload in
  match r with
  | None => (Err (InvalidPacket (msg "AEAD encryption failed")), payload)
  | Some tag =>
      if len payload - payload_len =? len tag
      then (Ok tt, take (Z.to_nat payload_len) payload ++ tag)
      else (Panic, payload)
  end.

Definition decrypt_packet (pn : Z) (header : bytes) (key : PacketKey) : stM bytes QuicError Z :=
  λ payload,
  let '(payload, r) := pk_decrypt_in_place key pn header payload in
  match r with
  | None => (Err (InvalidPacket (msg "AEAD decryption failed")), payload)
  | Some plaintext_len => (Ok plaintext_len, payload)
  end.

(** ** Header protection (header_protection.rs): the state is [buf: &mut [u8]] *)

(** Replace [buf[0]] and the bytes of [buf] from [off] on. *)
Definition patch (first : Z) (pn : bytes) (off : Z) (buf : bytes) : bytes :=
  first :: take (Z.to_nat (off - 1)) (drop 1 buf) ++ pn ++ drop (Z.to_nat (off + len pn)) buf.

Definition apply_header_protection (pn_offset pn_len : Z) (key : HeaderProtectionKey)
    : stM bytes QuicError unit := λ buf,
  let sample_len := hpk_sample_len key in
  let sample_offset := pn_offset + 4 in
  if len buf <? sample_offset + sample_len then
    (Err (InvalidPacket (msg "packet too short for header protection sample")), buf)
  else
    match slice (E:=QuicError) buf sample_offset (sample_offset + sample_len) with
    | Ok sample =>
        if (pn_offset =? 0) || (len buf =? 0) then
          (Err (InvalidPacket
             (msg "pn_offset must be > 0 and buffer non-empty for header protection")), buf)
        else
          match buf with
          | [] => (Err (InvalidPacket (msg "empty buffer")), buf)
          | first :: rest =>
              match slice (E:=QuicError) rest (pn_offset - 1) (pn_offset - 1 + pn_len) with
              | Ok pn_bytes =>
                  match hpk_encrypt_in_place key sample first pn_bytes with
                  | Some (first, pn_new) => (Ok tt, patch first (overlay pn_new pn_bytes) pn_offset buf)
                  | None => (Err (InvalidPacket (msg "header protection encrypt failed")), buf)
                  end
              | _ => (Panic, buf)
              end
          end
    | _ => (Panic, buf)
    end.

Definition remove_header_protection (pn_offset : Z) (key : HeaderProtectionKey)
    : stM bytes QuicError Z := λ buf,
  let sample_len := hpk_sample_len key in
  let sample_offset := pn_offset + 4 in
  if len buf <? sample_offset + sample_len then
    (Err (InvalidPacket (msg "packet too short for header protection sample")), buf)
  else
    match slice (E:=QuicError) buf sample_offset (sample_offset + sample_len) with
    | Ok sample =>
        let max_pn := Z.min 4 (len buf - pn_offset) in
        if (pn_offset =? 0) || (len buf =? 0) then
          (Err (InvalidPacket
             (msg "pn_offset must be > 0 and buffer non-empty for header protection")), buf)
        else
          match buf with
          | [] => (Err (InvalidPacket (msg "empty buffer")), buf)
          | first :: rest =>
              match slice (E:=QuicError) rest (pn_offset - 1) (pn_offset - 1 + max_pn) with
              | Ok pn_bytes =>
                  match hpk_decrypt_in_place key sample first pn_bytes with
                  | Some (first, pn_new) =>
                      (Ok (Z.land first 0x03 + 1), patch first (overlay pn_new pn_bytes) pn_offset buf)
                  | None => (Err (InvalidPacket (msg "header protection decrypt failed")), buf)
                  end
              | _ => (Panic, buf)
              end
          end
    | _ => (Panic, buf)
    end.

(** ** The key table (keys.rs) *)
Record DirectionalKeys := {
  dk_local : PacketKey;
  dk_remote : PacketKey;
  dk_local_header : HeaderProtectionKey;
  dk_remote_header : HeaderProtectionKey;
}.

(** [quic::DirectionalKeys] and [quic::Keys] of rustls. *)
Record RustlsDirectional := { rd_header : HeaderProtectionKey; rd_packet : PacketKey }.
Record RustlsKeys := { rk_local : RustlsDirectional; rk_remote : RustlsDirectional }.

Record PacketKeys := {
  k_initial : option DirectionalKeys;
  k_handshake : option DirectionalKeys;
  k_zero_rtt_local : option RustlsDirectional;
  k_zero_rtt_remote : option RustlsDirectional;
  k_one_rtt : option DirectionalKeys;
}.

Definition keys_new : PacketKeys := {|
  k_initial := None; k_handshake := None; k_zero_rtt_local := None;
  k_zero_rtt_remote := None; k_one_rtt := None |}.

Definition keys_get (k : PacketKeys) (space : PacketNumberSpace) : option DirectionalKeys :=
  match space with
  | SpaceInitial => k_initial k
  | SpaceHandshake => k_handshake k
  | SpaceApplicationData => k_one_rtt k
  end.

(** [self.field = value] for the field of a space. *)
Definition keys_put (k : PacketKeys) (space : PacketNumberSpace) (v : option DirectionalKeys)
    : PacketKeys :=
  let 'Build_PacketKeys i h zl zr o := k in
  match space with
  | SpaceInitial => Build_PacketKeys v h zl zr o
  | SpaceHandshake => Build_PacketKeys i v zl zr o
  | SpaceApplicationData => Build_PacketKeys i h zl zr v
  end.

Definition set_from_quic_keys (k : PacketKeys) (space : PacketNumberSpace) (keys : RustlsKeys)
    : PacketKeys :=
  keys_put k space (Some {|
    dk_local := rd_packet (rk_local keys);
    dk_remote := rd_packet (rk_remote keys);
    dk_local_header := rd_header (rk_local keys);
    dk_remote_header := rd_header (rk_remote keys) |}).

Definition set_zero_rtt (k : PacketKeys) (is_client : bool) (keys : RustlsDirectional) : PacketKeys :=
  let 'Build_PacketKeys i h zl zr o := k in
  if is_client then Build_PacketKeys i h (Some keys) None o
  else Build_PacketKeys i h None (Some keys) o.

Definition discard_zero_rtt (k : PacketKeys) : PacketKeys :=
  let 'Build_PacketKeys i h _ _ o := k in Build_PacketKeys i h None None o.

Definition discard (k : PacketKeys) (space : PacketNumberSpace) : PacketKeys :=
  keys_put k space None.
