(* ===== verification/CryptoProps.v ===== *)
(** * Properties of packet protection

    Removing header protection restores the packet that was protected, and
    opening restores the payload that was sealed, for any ciphers that satisfy
    the laws of [PacketKeyLaws] and [HeaderKeyLaws]. *)

From S2P Require Import Prelude QuicError Varint FrameProps Packet PacketProps Crypto.

(** ** AEAD *)
Lemma resize_grow n l : 0 ≤ n → resize (len l + n) l = l ++ replicate (Z.to_nat n) 0.
Proof.
  intros. unfold resize. replace (len l + n - len l) with n by lia. f_equal.
  apply take_ge. unfold len. lia.
Qed.

Lemma take_app_len (l k : bytes) : take (Z.to_nat (len l)) (l ++ k) = l.
Proof. unfold len. by rewrite Nat2Z.id, take_app_length. Qed.

Lemma drop_app_len (l k : bytes) : drop (Z.to_nat (len l)) (l ++ k) = k.
Proof. unfold len. by rewrite Nat2Z.id, drop_app_length. Qed.

Lemma overlay_eq (new old : bytes) : len new = len old → overlay new old = new.
Proof.
  unfold len, overlay. intros Hl. rewrite take_ge, drop_ge by lia. by rewrite app_nil_r.
Qed.

Lemma len_overlay (new old : bytes) : len (overlay new old) = len old.
Proof. unfold overlay, len. rewrite length_app, length_take, length_drop. lia. Qed.

Lemma encrypt_packet_eq `{PacketKeyLaws k k'} pn hdr p c tag :
  pk_encrypt_in_place k pn hdr p = (c, Some tag) → encrypt_packet pn hdr k p = (Ok tt, c ++ tag).
Proof.
  intros E. destruct (pk_seal _ _ _ _ _ E) as [Hc Ht]. pose proof (pk_tag_len_nonneg (k:=k)) as Hn.
  unfold encrypt_packet. rewrite resize_grow by done. rewrite take_app_len, E, drop_app_len.
  rewrite overlay_eq, len_app, len_replicate, Z2Nat.id, Hc by done.
  replace (_ =? len tag) with true by lia. rewrite <- Hc, take_app_len. done.
Qed.

Lemma decrypt_packet_eq `{PacketKeyLaws k k'} pn hdr p c tag :
  pk_encrypt_in_place k pn hdr p = (c, Some tag) →
  ∃ junk, decrypt_packet pn hdr k' (c ++ tag) = (Ok (len p), p ++ junk).
Proof.
  intros E. destruct (pk_open _ _ _ _ _ E) as [junk Ej]. exists junk.
  unfold decrypt_packet. by rewrite Ej.
Qed.

(** ** Header protection *)

(** A packet with its packet number of [len pn] bytes at offset [1 + len a]. *)
Lemma patch_eq b b' a pn pn' rest : len pn' = len pn →
  patch b' pn' (1 + len a) (b :: a ++ pn ++ rest) = b' :: a ++ pn' ++ rest.
Proof.
  intros Hl. unfold patch. change (drop 1 (b :: a ++ pn ++ rest)) with (a ++ pn ++ rest).
  replace (1 + len a - 1) with (len a) by lia. rewrite take_app_len, Hl.
  assert (drop (Z.to_nat (1 + len a + len pn)) (b :: a ++ pn ++ rest) = rest) as ->; [|done].
  replace (1 + len a + len pn) with (len (b :: a ++ pn)) by (autorewrite with len; lia).
  replace (b :: a ++ pn ++ rest) with ((b :: a ++ pn) ++ rest) by (cbn; by rewrite <- app_assoc).
  apply drop_app_len.
Qed.

Lemma slice_app_mid {E} (a s r : bytes) o e : o = len a → e = len a + len s →
  slice (E:=E) (a ++ s ++ r) o e = Ok s.
Proof. intros -> ->. by eapply slice_at; [apply at_pos_prefix|]. Qed.

(** The shape of a packet long enough to be sampled. *)
Definition hp_buf (b : Z) (a pn extra sample rest : bytes) : bytes :=
  b :: a ++ pn ++ extra ++ sample ++ rest.

Section HeaderProtection.
Context (b : Z) (a pn extra sample rest : bytes) (k : HeaderProtectionKey).
Hypothesis Hsample : len sample = hpk_sample_len k.
Hypothesis H4 : len pn + len extra = 4.

Local Abbreviation buf := (hp_buf b a pn extra sample rest).
Local Abbreviation off := (1 + len a).

Lemma len_hp_buf : len buf = off + 4 + len sample + len rest.
Proof using H4. unfold hp_buf. autorewrite with len. lia. Qed.

Lemma hp_sample : slice (E:=QuicError) buf (off + 4) (off + 4 + hpk_sample_len k) = Ok sample.
Proof using H4 Hsample.
  eapply (slice_at _ _ _ rest); [|lia].
  replace (off + 4) with (len (b :: a ++ pn ++ extra)) by (autorewrite with len; lia).
  replace buf with ((b :: a ++ pn ++ extra) ++ sample ++ rest)
    by (unfold hp_buf; cbn [app]; by rewrite <- !app_assoc).
  apply at_pos_prefix.
Qed.

Lemma apply_hp_eq :
  apply_header_protection off (len pn) k buf =
    match hpk_encrypt_in_place k sample b pn with
    | Some (b', pn') => (Ok tt, patch b' (overlay pn' pn) off buf)
    | None => (Err (InvalidPacket (msg "header protection encrypt failed")), buf)
    end.
Proof using H4 Hsample.
  pose proof (len_nonneg a). pose proof (len_nonneg rest). pose proof (len_nonneg sample).
  pose proof len_hp_buf as Hl.
  unfold apply_header_protection. replace (len buf <? _) with false by lia.
  rewrite hp_sample. replace (_ || _) with false by lia. unfold hp_buf at 1.
  by rewrite slice_app_mid by lia.
Qed.

Lemma remove_hp_eq :
  remove_header_protection off k buf =
    match hpk_decrypt_in_place k sample b (pn ++ extra) with
    | Some (b', pn') => (Ok (Z.land b' 0x03 + 1), patch b' (overlay pn' (pn ++ extra)) off buf)
    | None => (Err (InvalidPacket (msg "header protection decrypt failed")), buf)
    end.
Proof using H4 Hsample.
  pose proof (len_nonneg a). pose proof (len_nonneg rest). pose proof (len_nonneg sample).
  pose proof len_hp_buf as Hl.
  unfold remove_header_protection. replace (len buf <? _) with false by lia.
  rewrite hp_sample. replace (_ || _) with false by lia. unfold hp_buf at 1.
  rewrite Z.min_l by lia. rewrite (app_assoc pn extra). rewrite slice_app_mid by (rewrite ?len_app; lia).
  done.
Qed.
End HeaderProtection.

Lemma hp_shape buf off n sl : 1 ≤ off → 0 ≤ n ≤ 4 → 0 ≤ sl → off + 4 + sl ≤ len buf →
  ∃ b a pn extra sample rest, buf = hp_buf b a pn extra sample rest ∧ off = 1 + len a ∧
    len pn = n ∧ len pn + len extra = 4 ∧ len sample = sl.
Proof.
  intros. destruct buf as [|b buf]; [rewrite len_nil in *; lia|]. rewrite len_cons in *.
  destruct (split_at buf (off - 1)) as (a & l1 & -> & ?); [lia|]. rewrite len_app in *.
  destruct (split_at l1 n) as (pn & l2 & -> & ?); [lia|]. rewrite len_app in *.
  destruct (split_at l2 (4 - n)) as (extra & l3 & -> & ?); [lia|]. rewrite len_app in *.
  destruct (split_at l3 sl) as (sample & rest & -> & ?); [lia|].
  exists b, a, pn, extra, sample, rest. unfold hp_buf. split_and!; [done|lia..].
Qed.

(** ** Properties *)

(** A packet that went through [apply_header_protection] comes out of
    [remove_header_protection] with every byte restored and with the packet number length
    of its first byte; the ciphertext sample is the same on both sides. *)
Theorem header_protection_roundtrip k k' `{!HeaderKeyLaws k k'} buf buf' off n :
  1 ≤ off → index (E:=QuicError) buf 0 ≫= (λ b, Ok (Z.land b 0x03 + 1)) = Ok n →
  1 ≤ n ≤ 4 → apply_header_protection off n k buf = (Ok tt, buf') →
  remove_header_protection off k' buf' = (Ok n, buf) ∧ len buf' = len buf.
Proof.
  intros Ho Hn Hn4 E. destruct (hpk_sample_same (k:=k) (k':=k')) as [Hs Hs0].
  destruct (decide (off + 4 + hpk_sample_len k ≤ len buf)) as [Hl|Hl].
  2: { unfold apply_header_protection in E. replace (_ <? _) with true in E by lia. done. }
  destruct (hp_shape buf off n (hpk_sample_len k)) as (b & a & pn & extra & sample & rest & -> & -> & Hpn & H4 & Hsl);
    [lia..|].
  injection Hn as Hn. rewrite <- Hpn in E. rewrite (apply_hp_eq _ _ _ _ _ _ _ Hsl H4) in E.
  destruct (hpk_encrypt_in_place k sample b pn) as [[b' pn']|] eqn:Ek; [|done]. injection E as <-.
  pose proof (hpk_mask_len _ _ _ _ _ Ek) as Hml.
  unfold hp_buf. rewrite overlay_eq, patch_eq by done. fold (hp_buf b' a pn' extra sample rest).
  rewrite (remove_hp_eq b' a pn' extra sample rest k') by lia.
  rewrite (hpk_unmask _ _ _ _ _ extra Ek) by lia.
  unfold hp_buf at 1.
  rewrite overlay_eq, (app_assoc pn' extra), patch_eq by (rewrite !len_app; lia).
  rewrite <- app_assoc, Hn. split; [done|]. unfold hp_buf. autorewrite with len. lia.
Qed.

(** A header cipher in miniature: the mask is the first sample byte. *)
Definition toy_mask (b m : Z) : Z := Z.lxor b (Z.land m 0x0f).
Definition toy_header_key : HeaderProtectionKey := {|
  hpk_sample_len := 2;
  hpk_encrypt_in_place := λ s b pn, Some (toy_mask b (hd 0 s), map (λ x, Z.lxor x (hd 0 s)) pn);
  hpk_decrypt_in_place := λ s b pn,
    let b := toy_mask b (hd 0 s) in
    let n := Z.to_nat (Z.land b 0x03 + 1) in
    Some (b, map (λ x, Z.lxor x (hd 0 s)) (take n pn) ++ drop n pn);
|}.

Lemma toy_mask_twice b m : toy_mask (toy_mask b m) m = b.
Proof. unfold toy_mask. by rewrite Z.lxor_assoc, Z.lxor_nilpotent, Z.lxor_0_r. Qed.

Lemma toy_mask_high b m k : 4 ≤ k → Z.shiftr (toy_mask b m) k = Z.shiftr b k.
Proof.
  intros. unfold toy_mask. rewrite Z.shiftr_lxor.
  assert (Z.shiftr (Z.land m 0x0f) k = 0) as ->; [|apply Z.lxor_0_r].
  change 0x0f with (2 ^ 4 - 1). rewrite land_low, shiftr_div by lia.
  pose proof (Z.mod_pos_bound m (2 ^ 4) ltac:(lia)). apply Z.div_small.
  split; [lia|]. apply Z.lt_le_trans with (2 ^ 4); [lia|]. apply Z.pow_le_mono_r; lia.
Qed.

Lemma map_lxor_twice m l : map (λ x, Z.lxor x m) (map (λ x, Z.lxor x m) l) = l.
Proof.
  rewrite map_map. rewrite <- (map_id l) at 2. apply map_ext. intros x.
  by rewrite Z.lxor_assoc, Z.lxor_nilpotent, Z.lxor_0_r.
Qed.

#[export] Instance toy_header_laws : HeaderKeyLaws toy_header_key toy_header_key.
Proof.
  split.
  - intros s b pn b' pn'. cbn. intros [= <- <-] [? Hb]. split.
    + pose proof (toy_mask_high b (hd 0 s) 8 ltac:(lia)) as Hh.
      rewrite !shiftr_div, (Z.div_small b) in Hh by (unfold U8_MAX in Hb; lia).
      unfold is_u8, U8_MAX. dlia.
    + rewrite !toy_mask_high by lia. done.
  - done.
  - intros s b pn b' pn'. cbn. intros [= <- <-]. unfold len. by rewrite length_map.
  - intros s b pn b' pn' extra. cbn. intros [= <- <-] Hl _. rewrite toy_mask_twice.
    assert (Z.to_nat (Z.land b 0x03 + 1) = length (map (λ x, Z.lxor x (hd 0 s)) pn)) as ->
      by (rewrite length_map; unfold len in Hl; lia).
    by rewrite take_app_length, drop_app_length, map_lxor_twice.
Qed.

Lemma header_protection_roundtrip_witness :
  apply_header_protection 2 2 toy_header_key [0x41; 9; 1; 2; 3; 4; 5; 6; 7] =
    (Ok tt, [0x44; 9; 4; 7; 3; 4; 5; 6; 7]) ∧
  remove_header_protection 2 toy_header_key [0x44; 9; 4; 7; 3; 4; 5; 6; 7] =
    (Ok 2, [0x41; 9; 1; 2; 3; 4; 5; 6; 7]).
Proof.
  assert (apply_header_protection 2 2 toy_header_key [0x41; 9; 1; 2; 3; 4; 5; 6; 7] =
    (Ok tt, [0x44; 9; 4; 7; 3; 4; 5; 6; 7])) as E by (vm_compute; reflexivity).
  split; [exact E|].
  apply (header_protection_roundtrip toy_header_key toy_header_key _ _ 2 2) in E;
    [exact (proj1 E)|lia|reflexivity|lia].
Defined.
