(* ===== verification/KeyUpdate.v ===== *)
(** * Sealing and opening packets, and key updates (starfish-quic/src/connection.rs)

    The protection step of [build_packet_to_addr], the opening steps of
    [process_packet], and the key phase machinery: [initiate_key_update] and
    [try_decrypt_with_next_keys].  [quic::Secrets] of rustls is a parameter with
    its [next_packet_keys]. *)

From S2P Require Import Prelude QuicError Varint PacketNumber Frame Packet Crypto.

(** ** Building: [build_packet_to_addr] without its sending gates *)
Definition INITIAL_MIN_DATAGRAM_SIZE : Z := 1200.

Inductive ApplicationPacketKind := AppZeroRtt | AppOneRtt.

(** The closure [encode_packet]; the [None] arm is [unreachable!()]. *)
Definition encode_packet (space : PacketNumberSpace) (app_kind : option ApplicationPacketKind)
    (dcid local_cid : ConnectionId) (retry_token : bytes) (local_key_phase : bool)
    (pn largest_acked tag_len : Z) (payload : bytes) : qres (bytes * (Z * Z)) :=
  match space with
  | SpaceInitial =>
      '(trial, _) ← encode_initial_packet dcid local_cid retry_token pn largest_acked payload tag_len;
      let wire_size := len trial + tag_len in
      let payload :=
        if wire_size <? INITIAL_MIN_DATAGRAM_SIZE
        then resize (len payload + (INITIAL_MIN_DATAGRAM_SIZE - wire_size)) payload
        else payload in
      encode_initial_packet dcid local_cid retry_token pn largest_acked payload tag_len
  | SpaceHandshake => encode_handshake_packet dcid local_cid pn largest_acked payload tag_len
  | SpaceApplicationData =>
      match app_kind with
      | Some AppZeroRtt => encode_zero_rtt_packet dcid local_cid pn largest_acked payload tag_len
      | Some AppOneRtt => encode_one_rtt_packet dcid false local_key_phase pn largest_acked payload
      | None => Panic
      end
  end.

(** The protection of the encoded packet. *)
Definition seal_packet (pn : Z) (packet_data : bytes) (pn_offset pn_len : Z)
    (local_packet_key : PacketKey) (local_header_key : HeaderProtectionKey) : qres bytes :=
  let header_end := pn_offset + pn_len in
  header ← slice packet_data 0 header_end;
  payload_bytes ← slice_from packet_data header_end;
  '(_, payload_bytes) ← exec (encrypt_packet pn header local_packet_key) payload_bytes;
  let send_data := header ++ payload_bytes in
  '(_, send_data) ← exec (apply_header_protection pn_offset pn_len local_header_key) send_data;
  Ok send_data.

(** Encode, and pad so that the header protection finds its sample. *)
Definition encode_padded (space : PacketNumberSpace) (app_kind : option ApplicationPacketKind)
    (dcid local_cid : ConnectionId) (retry_token : bytes) (local_key_phase : bool)
    (pn largest_acked tag_len sample_len : Z) (payload : bytes) : qres (bytes * (Z * Z)) :=
  let encode := encode_packet space app_kind dcid local_cid retry_token local_key_phase
                  pn largest_acked tag_len in
  '(packet_data, (pn_offset, pn_len)) ← encode payload;
  let min_plaintext_len :=
    saturating_sub (saturating_sub (saturating_add_u64 sample_len 4) pn_len) tag_len in
  if len payload <? min_plaintext_len then encode (resize min_plaintext_len payload)
  else Ok (packet_data, (pn_offset, pn_len)).

Definition build_packet (space : PacketNumberSpace) (app_kind : option ApplicationPacketKind)
    (dcid local_cid : ConnectionId) (retry_token : bytes) (local_key_phase : bool)
    (pn largest_acked : Z) (payload : bytes)
    (local_packet_key : PacketKey) (local_header_key : HeaderProtectionKey) : qres bytes :=
  '(packet_data, (pn_offset, pn_len)) ←
    encode_padded space app_kind dcid local_cid retry_token local_key_phase pn largest_acked
      (pk_tag_len local_packet_key) (hpk_sample_len local_header_key) payload;
  seal_packet pn packet_data pn_offset pn_len local_packet_key local_header_key.

Inductive ReceivedPacketKind := RInitial | RHandshake | RZeroRtt | ROneRtt.

Section KeyUpdate.
Context {Secrets : Type} (next_packet_keys : Secrets → (PacketKey * PacketKey) * Secrets).

(** The fields of [QuicConnection] the key machinery uses. *)
Record KeyState := {
  ks_keys : PacketKeys;
  ks_next_secrets : option Secrets;
  ks_local_key_phase : bool;
  ks_remote_key_phase : bool;
  ks_pending_remote : option (bool * PacketKey);
  ks_packets_sent : Z;
  ks_key_update_pn : Z;
}.

(** [self.keys.one_rtt] with its packet keys replaced. *)
Definition one_rtt_with (keys : PacketKeys) (f : DirectionalKeys → DirectionalKeys) : PacketKeys :=
  keys_put keys SpaceApplicationData (f <$> k_one_rtt keys).
Definition with_local (l : PacketKey) (k : DirectionalKeys) : DirectionalKeys := {|
  dk_local := l; dk_remote := dk_remote k;
  dk_local_header := dk_local_header k; dk_remote_header := dk_remote_header k |}.
Definition with_remote (r : PacketKey) (k : DirectionalKeys) : DirectionalKeys := {|
  dk_local := dk_local k; dk_remote := r;
  dk_local_header := dk_local_header k; dk_remote_header := dk_remote_header k |}.

Definition initiate_key_update : stM KeyState QuicError bool := λ st,
  match k_one_rtt (ks_keys st), ks_next_secrets st, ks_pending_remote st with
  | None, _, _ | _, None, _ => (Ok false, st)
  | _, _, Some _ => (Ok false, st)
  | Some _, Some secrets, None =>
      let '((next_local, next_remote), secrets) := next_packet_keys secrets in
      let target_phase := negb (ks_local_key_phase st) in
      (Ok true, {|
        ks_keys := one_rtt_with (ks_keys st) (with_local next_local);
        ks_next_secrets := Some secrets;
        ks_local_key_phase := target_phase;
        ks_remote_key_phase := ks_remote_key_phase st;
        ks_pending_remote := Some (target_phase, next_remote);
        ks_packets_sent := 0;
        ks_key_update_pn := ks_key_update_pn st |})
  end.

(** The [KeyChange::OneRtt] arm of [install_keys], as far as it touches these fields. *)
Definition install_one_rtt (st : KeyState) (keys : RustlsKeys) (next : Secrets) : KeyState := {|
  ks_keys := set_from_quic_keys (ks_keys st) SpaceApplicationData keys;
  ks_next_secrets := Some next;
  ks_local_key_phase := false;
  ks_remote_key_phase := false;
  ks_pending_remote := None;
  ks_packets_sent := 0;
  ks_key_update_pn := 0 |}.

(** The second half of [try_decrypt_with_next_keys]: [next_packet_keys] advances the secrets
    before the packet is authenticated. *)
Definition decrypt_next_generation (pn : Z) (recv_key_phase : bool) (header ciphertext : bytes)
    : stM KeyState QuicError (Z * bytes) := λ st,
  match ks_next_secrets st with
  | None => (Err (Transport KeyUpdateError (msg "no next secrets available")), st)
  | Some secrets =>
      let '((next_local, next_remote), secrets) := next_packet_keys secrets in
      let st := {|
        ks_keys := ks_keys st;
        ks_next_secrets := Some secrets;
        ks_local_key_phase := ks_local_key_phase st;
        ks_remote_key_phase := ks_remote_key_phase st;
        ks_pending_remote := ks_pending_remote st;
        ks_packets_sent := ks_packets_sent st;
        ks_key_update_pn := ks_key_update_pn st |} in
      match exec (decrypt_packet pn header next_remote) ciphertext with
      | Ok r => (Ok r, {|
          ks_keys := one_rtt_with (ks_keys st) (λ k, with_remote next_remote (with_local next_local k));
          ks_next_secrets := ks_next_secrets st;
          ks_local_key_phase := recv_key_phase;
          ks_remote_key_phase := recv_key_phase;
          ks_pending_remote := None;
          ks_packets_sent := 0;
          ks_key_update_pn := pn |})
      | Err e => (Err e, st)
      | Panic => (Panic, st)
      | Diverge => (Diverge, st)
      end
  end.

(** The result is the plaintext length and the buffer after decryption in place. *)
Definition try_decrypt_with_next_keys (pn : Z) (recv_key_phase : bool) (header ciphertext : bytes)
    : stM KeyState QuicError (Z * bytes) := λ st,
  if pn <? ks_key_update_pn st then (Err (InvalidPacket (msg "stale key phase packet")), st)
  else
    match ks_pending_remote st with
    | Some (phase, remote) =>
        if eqb phase recv_key_phase then
          match exec (decrypt_packet pn header remote) ciphertext with
          | Ok r => (Ok r, {|
              ks_keys := one_rtt_with (ks_keys st) (with_remote remote);
              ks_next_secrets := ks_next_secrets st;
              ks_local_key_phase := ks_local_key_phase st;
              ks_remote_key_phase := phase;
              ks_pending_remote := None;
              ks_packets_sent := ks_packets_sent st;
              ks_key_update_pn := pn |})
          | Err e => (Err e, st)
          | Panic => (Panic, st)
          | Diverge => (Diverge, st)
          end
        else decrypt_next_generation pn recv_key_phase header ciphertext st
    | None => decrypt_next_generation pn recv_key_phase header ciphertext st
    end.

(** ** Opening: [process_packet] up to the decoding of the frames *)

(** [for i in 0..pn_len { truncated_pn = (truncated_pn << 8) | buf[pn_offset + i] }]. *)
Fixpoint read_truncated_pn (n : nat) (buf : bytes) (pos acc : Z) : qres Z :=
  match n with
  | O => Ok acc
  | S n =>
      b ← index buf pos;
      read_truncated_pn n buf (pos + 1) (Z.lor ((Z.shiftl acc 8) mod 2 ^ 64) b)
  end.

(** Where the packet number starts and the payload ends; [None] drops the packet. *)
Definition locate_packet_number (buf : bytes) (cid_len : Z) : qres (option (Z * Z)) :=
  first ← index buf 0;
  if is_long_header first then
    header ← parse_header buf cid_len;
    match header with
    | HLong h =>
        match lh_packet_type h with
        | Initial =>
            fields ← parse_initial_fields buf (lh_header_len h) (lh_first_byte h);
            stop ← add_u64 (ip_pn_offset fields) (ip_length fields);
            Ok (Some (ip_pn_offset fields, stop))
        | Handshake =>
            fields ← parse_handshake_fields buf (lh_header_len h) (lh_first_byte h);
            stop ← add_u64 (hp_pn_offset fields) (hp_length fields);
            Ok (Some (hp_pn_offset fields, stop))
        | ZeroRtt =>
            fields ← parse_zero_rtt_fields buf (lh_header_len h) (lh_first_byte h);
            stop ← add_u64 (zp_pn_offset fields) (zp_length fields);
            Ok (Some (zp_pn_offset fields, stop))
        | Retry => Ok (Some (lh_header_len h, len buf))
        end
    | _ => Ok None
    end
  else Ok (Some (one_rtt_pn_offset cid_len, len buf)).

Definition remote_header_key (keys : PacketKeys) (space : PacketNumberSpace)
    (kind : ReceivedPacketKind) : option HeaderProtectionKey :=
  match kind with
  | RZeroRtt => rd_header <$> k_zero_rtt_remote keys
  | _ => dk_remote_header <$> keys_get keys space
  end.

Definition remote_packet_key (keys : PacketKeys) (space : PacketNumberSpace)
    (kind : ReceivedPacketKind) : option PacketKey :=
  match kind with
  | RZeroRtt => rd_packet <$> k_zero_rtt_remote keys
  | _ => dk_remote <$> keys_get keys space
  end.

(** [None]: the packet is dropped.  [Some]: its full packet number and frames. *)
Definition open_packet (space : PacketNumberSpace) (kind : ReceivedPacketKind)
    (cid_len largest_recv_pn : Z) (data : bytes)
    : stM KeyState QuicError (option (Z * list Frame)) :=
  first ← lift (index data 0);
  let is_short_header := negb (is_long_header first) in
  hkey ← gets (λ st, remote_header_key (ks_keys st) space kind);
  match hkey with
  | None => mret None
  | Some hkey =>
      loc ← lift (locate_packet_number data cid_len);
      match loc with
      | None => mret None
      | Some (pn_offset, payload_end) =>
          '(pn_len, buf) ← lift (exec (remove_header_protection pn_offset hkey) data);
          first ← lift (index buf 0);
          let recv_key_phase := is_short_header && negb (Z.land first 0x04 =? 0) in
          truncated_pn ← lift (read_truncated_pn (Z.to_nat pn_len) buf pn_offset 0);
          full_pn ← lift (decode_packet_number truncated_pn pn_len largest_recv_pn);
          let header_end := pn_offset + pn_len in
          let payload_end := Z.min payload_end (len buf) in
          if payload_end <=? header_end then
            fail (InvalidPacket (msg "packet too short for payload"))
          else
            header_bytes ← lift (slice buf 0 header_end);
            ciphertext ← lift (slice buf header_end payload_end);
            remote_phase ← gets ks_remote_key_phase;
            opened ←
              (if is_short_header && negb (eqb recv_key_phase remote_phase) then
                 r ← try_decrypt_with_next_keys full_pn recv_key_phase header_bytes ciphertext;
                 mret (Some r)
               else
                 pkey ← gets (λ st, remote_packet_key (ks_keys st) space kind);
                 match pkey with
                 | None => mret None
                 | Some pkey =>
                     r ← lift (exec (decrypt_packet full_pn header_bytes pkey) ciphertext);
                     mret (Some r)
                 end);
            match opened with
            | None => mret None
            | Some (plaintext_len, plaintext) =>
                p ← lift (slice plaintext 0 plaintext_len);
                frames ← lift (decode_frames p);
                mret (Some (full_pn, frames))
            end
      end
  end.
End KeyUpdate.
