(* ===== verification/KeyUpdateProps.v ===== *)
(** * Properties of packet sealing, opening and key updates

    A sealed packet is opened to its packet number and frames; two endpoints
    stay in step over a key update; one forged packet ends that. *)

From S2P Require Import Prelude QuicError Varint PacketNumber Frame FrameProps Packet.
From S2P Require Import PacketProps Crypto CryptoProps KeyUpdate.

(** ** Reading the truncated packet number *)
Lemma read_truncated_pn_eq pn buf o rest acc : bytes_ok pn → at_pos buf o (pn ++ rest) →
  0 ≤ acc → (acc + 1) * 256 ^ len pn ≤ 2 ^ 64 →
  read_truncated_pn (length pn) buf o acc = Ok (acc * 256 ^ len pn + from_be pn).
Proof.
  revert o acc. induction pn as [|b pn IH]; intros o acc Hb P Ha Hm.
  { cbn. f_equal. unfold len, from_be; cbn. lia. }
  apply Forall_cons in Hb as [Hb Hbs]. cbn [length read_truncated_pn app] in *.
  rewrite (index_at _ _ _ _ P), bind_ok. apply at_pos_cons in P. unfold is_u8, U8_MAX in Hb.
  rewrite len_cons, Z.pow_add_r, Z.pow_1_r in * by (pose proof (len_nonneg pn); lia).
  assert (0 < 256 ^ len pn) by (apply Z.pow_pos_nonneg; [lia|apply len_nonneg]).
  rewrite Z.shiftl_mul_pow2 by lia. rewrite Z.mod_small by nia.
  rewrite (lor_disjoint acc b 8) by lia. change (2 ^ 8) with 256.
  rewrite IH; [|done|done|lia|nia]. f_equal. rewrite from_be_cons. lia.
Qed.

Lemma is_long_shift b : is_u8 b → is_long_header b = (4 <=? Z.shiftr b 5).
Proof.
  intros Hb. apply eqb_prop.
  apply (u8_forall (λ b, eqb (is_long_header b) (4 <=? Z.shiftr b 5))); [vm_compute; reflexivity|done].
Qed.

Lemma long_type_shift b : is_u8 b → Z.shiftr (Z.land b 0x30) 4 = Z.land (Z.shiftr b 4) 0x03.
Proof.
  intros Hb. apply Z.eqb_eq.
  apply (u8_forall (λ b, Z.shiftr (Z.land b 0x30) 4 =? Z.land (Z.shiftr b 4) 0x03)); [vm_compute; reflexivity|done].
Qed.

(** ** Where the receiver finds the packet number

    [layout]: the packet is a first byte, the rest of the header, the packet
    number and the payload, and a receiver that sees the first byte with masked
    low bits, any packet number bytes and any ciphertext of the announced length
    locates the packet number and the end of the packet. *)
Definition layout (long phase : bool) (cid_len tag : Z) (pkt payload : bytes) (off n pn la : Z) : Prop :=
  ∃ b a, let pnb := fst (encode_packet_number pn la) in
  pkt = b :: a ++ pnb ++ payload ∧ off = 1 + len a ∧ n = len pnb ∧
  is_u8 b ∧ Z.land b 0x03 + 1 = n ∧ is_long_header b = long ∧
  (long = false → negb (Z.land b 0x04 =? 0) = phase) ∧
  ∀ b' pnb' ct tail, is_u8 b' → Z.shiftr b' 5 = Z.shiftr b 5 →
    (long = true → Z.shiftr b' 4 = Z.shiftr b 4) → len pnb' = n → len ct = len payload + tag →
    (long = false → tail = []) →
    let out := b' :: a ++ pnb' ++ ct in len (out ++ tail) ≤ ISIZE_MAX →
    ∃ stop, locate_packet_number (out ++ tail) cid_len = Ok (Some (off, stop)) ∧
            Z.min stop (len (out ++ tail)) = len out.

Lemma long_first_u8 t n : 1 ≤ n ≤ 4 → is_u8 (long_first t n).
Proof. intros. unfold is_u8, U8_MAX, long_first, long_type_bits. destruct t; lia. Qed.

Lemma parse_masked_long local b' t n dcid scid rest : 1 ≤ n ≤ 4 → cid_wf dcid → cid_wf scid →
  is_u8 b' → Z.shiftr b' 5 = Z.shiftr (long_first t n) 5 → Z.shiftr b' 4 = Z.shiftr (long_first t n) 4 →
  let buf := long_prefix b' QUIC_VERSION_1 dcid scid ++ rest in
  let h := 7 + cid_len dcid + cid_len scid in
  at_pos buf h rest ∧ index (E:=QuicError) buf 0 = Ok b' ∧ is_long_header b' = true ∧
  parse_header buf local =
    Ok (HLong {| lh_packet_type := t; lh_first_byte := b'; lh_version := QUIC_VERSION_1;
                 lh_dcid := dcid; lh_scid := scid; lh_header_len := h |}).
Proof.
  intros Hn Hd Hs Hb' H5 H4 buf h. pose proof (long_first_u8 t n Hn) as Hb.
  destruct (long_first_spec t n Hn) as (_ & Hlong & Hbits & _).
  assert (is_long_header b' = true) as Hl by (rewrite <- Hlong, !is_long_shift by done; by rewrite H5).
  destruct (parse_long_eq buf b' QUIC_VERSION_1 dcid scid rest) as [P E]; [done|done|done|apply at_pos_0|].
  rewrite long_type_shift, H4, <- long_type_shift, Hbits in E by done.
  split_and!; [exact P|done|done|]. etransitivity; [|exact E].
  subst buf. unfold parse_header. cbn. by rewrite Hl.
Qed.

Lemma pn_bytes_len pn la : 0 ≤ pn →
  len (fst (encode_packet_number pn la)) = snd (encode_packet_number pn la).
Proof. intros Hpn. destruct (encode_packet_number_spec pn la Hpn) as (m & -> & _ & -> & _). done. Qed.

(** The end of a long-header packet whose length field is [L]. *)
Lemma locate_end (a pnb' ct tail : bytes) b' o L :
  let out := b' :: a ++ pnb' ++ ct in
  at_pos (out ++ tail) o (pnb' ++ ct ++ tail) → L = len pnb' + len ct →
  len (out ++ tail) ≤ ISIZE_MAX → varint_ok L →
  o = 1 + len a ∧ add_u64 (E:=QuicError) o L = Ok (o + L) ∧ Z.min (o + L) (len (out ++ tail)) = len out.
Proof.
  intros out P -> Hl [_ HL]. pose proof (len_nonneg tail). pose proof (len_nonneg ct). pose proof (len_nonneg pnb').
  apply at_pos_len in P as Hlen. revert Hlen Hl. subst out. rewrite !len_app. autorewrite with len.
  unfold ISIZE_MAX, MAX_VARINT in *. intros ? ?.
  split_and!; [lia|apply add_u64_small; unfold_ints; lia|lia].
Qed.

Lemma initial_layout phase cid_len dcid scid token pn la payload tag :
  cid_wf dcid → cid_wf scid → data_wf token → 0 ≤ pn → 0 ≤ tag → 4 + len payload + tag ≤ MAX_VARINT →
  ∃ pkt off n, encode_initial_packet dcid scid token pn la payload tag = Ok (pkt, (off, n)) ∧
    layout true phase cid_len tag pkt payload off n pn la.
Proof.
  intros Hd Hs Htok Hpn Ht Hl.
  destruct (encode_initial_eq dcid scid token pn la payload tag Htok Hpn Ht Hl) as (Hn & Hv & ->).
  do 3 eexists. split; [done|]. pose proof (pn_bytes_len pn la Hpn) as Hpl.
  set (n := snd (encode_packet_number pn la)) in *. set (L := n + len payload + tag) in *.
  set (fields := varint_bytes (len token) ++ token ++ varint_bytes L).
  destruct (long_first_spec Initial n Hn) as (_ & Hlong & _ & Hf).
  exists (long_first Initial n), (to_be 4 QUIC_VERSION_1 ++ cids_bytes dcid scid ++ fields).
  unfold initial_header, long_prefix, pn_payload. fold fields.
  split; [cbn [app]; by rewrite <- !app_assoc|]. split; [cbn [app]; by rewrite len_cons, <- !app_assoc|].
  split; [by rewrite Hpl|]. split; [by apply long_first_u8|]. do 3 (split; [done|]).
  intros b' pnb' ct tail Hb' H5 H4 Hpn' Hct _ Hlen. set (out := b' :: _ ++ pnb' ++ ct) in *.
  assert (out ++ tail = long_prefix b' QUIC_VERSION_1 dcid scid ++ fields ++ pnb' ++ ct ++ tail) as Eo.
  { subst out. unfold long_prefix. cbn [app]. by rewrite <- !app_assoc. }
  destruct (parse_masked_long cid_len b' Initial n dcid scid (fields ++ pnb' ++ ct ++ tail)
    Hn Hd Hs Hb' H5 (H4 eq_refl)) as (P & Hi & Hl' & Hph). rewrite <- Eo in *.
  unfold locate_packet_number. rewrite Hi, bind_ok, Hl', Hph, bind_ok. cbn [lh_packet_type].
  unfold parse_initial_fields. cbn [lh_header_len lh_first_byte]. pose proof (data_len_ok _ Htok).
  subst fields. rewrite <- !app_assoc in P. rd. rdata. rd.
  rewrite bind_ok. cbn [ip_pn_offset ip_length].
  edestruct (locate_end _ pnb' ct tail b' _ L P) as (-> & -> & Hmin); [lia|done|done|].
  rewrite bind_ok. eexists. split; [|exact Hmin]. do 3 f_equal. rewrite !len_app, len_cons, !len_app. lia.
Qed.


Lemma long_layout t phase cid_len dcid scid pn la payload tag : t = Handshake ∨ t = ZeroRtt →
  cid_wf dcid → cid_wf scid → 0 ≤ pn → 0 ≤ tag → 4 + len payload + tag ≤ MAX_VARINT →
  let n := snd (encode_packet_number pn la) in
  let hdr := long_prefix (long_first t n) QUIC_VERSION_1 dcid scid ++
             varint_bytes (n + len payload + tag) in
  layout true phase cid_len tag (hdr ++ pn_payload pn la payload) payload (len hdr) n pn la.
Proof.
  intros Htype Hd Hs Hpn Ht Hl n hdr. pose proof (pn_bytes_len pn la Hpn) as Hpl. fold n in Hpl.
  destruct (encode_packet_number_spec pn la Hpn) as (m & Hm & Hn & _). subst m. fold n in Hn.
  assert (varint_ok (n + len payload + tag)) as Hv
    by (unfold varint_ok; pose proof (len_nonneg payload); lia).
  set (L := n + len payload + tag) in *. destruct (long_first_spec t n Hn) as (_ & Hlong & _ & Hf).
  exists (long_first t n), (to_be 4 QUIC_VERSION_1 ++ cids_bytes dcid scid ++ varint_bytes L).
  subst hdr. unfold long_prefix, pn_payload.
  split; [cbn [app]; by rewrite <- !app_assoc|]. split; [cbn [app]; by rewrite len_cons, <- !app_assoc|].
  split; [by rewrite Hpl|]. split; [by apply long_first_u8|]. do 3 (split; [done|]).
  intros b' pnb' ct tail Hb' H5 H4 Hpn' Hct _ Hlen. set (out := b' :: _ ++ pnb' ++ ct) in *.
  assert (out ++ tail = long_prefix b' QUIC_VERSION_1 dcid scid ++ varint_bytes L ++ pnb' ++ ct ++ tail) as Eo.
  { subst out. unfold long_prefix. cbn [app]. by rewrite <- !app_assoc. }
  destruct (parse_masked_long cid_len b' t n dcid scid (varint_bytes L ++ pnb' ++ ct ++ tail)
    Hn Hd Hs Hb' H5 (H4 eq_refl)) as (P & Hi & Hl' & Hph). rewrite <- Eo in *.
  destruct (read_varint_at _ _ _ _ Hv P) as [Er P'].
  edestruct (locate_end _ pnb' ct tail b' _ L P') as (Ho & Ea & Hmin); [lia|done|done|].
  unfold locate_packet_number, parse_handshake_fields, parse_zero_rtt_fields.
  rewrite Hi, bind_ok, Hl', Hph, bind_ok. cbn [lh_packet_type lh_header_len lh_first_byte].
  destruct Htype as [-> | ->]; rewrite Er, !bind_ok; cbn [hp_pn_offset hp_length zp_pn_offset zp_length];
    rewrite Ea, bind_ok; (eexists; split; [|exact Hmin]); rewrite Ho; do 3 f_equal;
    rewrite !len_app, len_cons, !len_app; lia.
Qed.

Lemma short_first_u8 spin key n : 1 ≤ n ≤ 4 → is_u8 (short_first spin key n).
Proof. intros. unfold is_u8, U8_MAX, short_first. destruct spin, key; lia. Qed.

Lemma one_rtt_layout spin key tag dcid pn la payload : cid_wf dcid → 0 ≤ pn →
  let n := snd (encode_packet_number pn la) in
  let hdr := short_first spin key n :: as_slice dcid in
  layout false key (cid_len dcid) tag (hdr ++ pn_payload pn la payload) payload (len hdr) n pn la.
Proof.
  intros Hd Hpn n hdr. pose proof (pn_bytes_len pn la Hpn) as Hpl. fold n in Hpl.
  destruct (encode_packet_number_spec pn la Hpn) as (m & Hm & Hn & _). subst m. fold n in Hn.
  destruct (short_first_spec spin key n Hn) as (_ & Hlong & _ & Hk & Hf).
  pose proof (short_first_u8 spin key n Hn) as Hu. pose proof Hd as (_ & _ & Hlen & _).
  exists (short_first spin key n), (as_slice dcid). subst hdr. unfold pn_payload.
  split; [done|]. split; [by rewrite len_cons|]. split; [by rewrite Hpl|]. split; [done|].
  do 3 (split; [done|]). intros b' pnb' ct tail Hb' H5 _ _ _ Ht _. rewrite Ht, app_nil_r by done.
  unfold locate_packet_number. rewrite (index_at _ 0 b' _ (at_pos_0 _)), bind_ok.
  rewrite is_long_shift, H5, <- is_long_shift, Hlong by done.
  eexists. split; [|apply Z.min_id]. unfold one_rtt_pn_offset. by rewrite (len_cons (short_first spin key n)), Hlen.
Qed.

(** ** Opening what was sealed *)
Section Open.
Context {Secrets : Type} (next_packet_keys : Secrets → (PacketKey * PacketKey) * Secrets).
Context (pk pk' : PacketKey) (hk hk' : HeaderProtectionKey).
Context `{!PacketKeyLaws pk pk'} `{!HeaderKeyLaws hk hk'}.

(** The ciphertext and tag hold the bytes the header protection samples. *)
Definition sampled (pnb c tag extra sample rest : bytes) : Prop :=
  c ++ tag = extra ++ sample ++ rest ∧ len pnb + len extra = 4 ∧ len sample = hpk_sample_len hk.

Lemma sampled_intro pnb c tag : 0 ≤ hpk_sample_len hk → len pnb ≤ 4 →
  4 + hpk_sample_len hk ≤ len pnb + len c + len tag → ∃ extra sample rest, sampled pnb c tag extra sample rest.
Proof.
  intros. destruct (split_at (c ++ tag) (4 - len pnb)) as (extra & l & E & ?); [rewrite len_app; lia|].
  pose proof (f_equal len E) as El. rewrite !len_app in El.
  destruct (split_at l (hpk_sample_len hk)) as (sample & rest & -> & ?); [lia|].
  exists extra, sample, rest. split_and!; [done|lia|done].
Qed.

Lemma exec_ok {S E A} (m : stM S E A) s r s' : m s = (Ok r, s') → exec m s = Ok (r, s').
Proof. unfold exec. by intros ->. Qed.

Lemma seal_header_eq pn b a pnb payload :
  seal_packet pn (b :: a ++ pnb ++ payload) (1 + len a) (len pnb) pk hk =
  ('(_, ct) ← exec (encrypt_packet pn (b :: a ++ pnb) pk) payload;
   '(_, out) ← exec (apply_header_protection (1 + len a) (len pnb) hk) ((b :: a ++ pnb) ++ ct);
   Ok out).
Proof.
  unfold seal_packet. replace (b :: a ++ pnb ++ payload) with ((b :: a ++ pnb) ++ payload)
    by (cbn; by rewrite <- app_assoc).
  assert (1 + len a + len pnb = len (b :: a ++ pnb)) as -> by (rewrite len_cons, len_app; lia).
  rewrite (slice_at _ 0 (b :: a ++ pnb) payload) by (first [apply at_pos_0|lia]). rewrite bind_ok.
  by rewrite (slice_from_at _ _ payload) by apply at_pos_prefix.
Qed.

(** The wire image of a sealed packet. *)
Lemma seal_packet_eq pn b a pnb payload c tag b' pnb' extra sample rest :
  pk_encrypt_in_place pk pn (b :: a ++ pnb) payload = (c, Some tag) →
  sampled pnb c tag extra sample rest →
  hpk_encrypt_in_place hk sample b pnb = Some (b', pnb') →
  seal_packet pn (b :: a ++ pnb ++ payload) (1 + len a) (len pnb) pk hk =
    Ok (b' :: a ++ pnb' ++ c ++ tag).
Proof using PacketKeyLaws0 HeaderKeyLaws0.
  intros Ep (Ect & H4 & Hsl) Eh.
  rewrite seal_header_eq.
  erewrite exec_ok by (by apply (encrypt_packet_eq (k':=pk'))). rewrite bind_ok. cbn beta iota zeta.
  erewrite exec_ok; [rewrite bind_ok; reflexivity|].
  replace ((b :: a ++ pnb) ++ c ++ tag) with (hp_buf b a pnb extra sample rest)
    by (unfold hp_buf; cbn; by rewrite <- app_assoc, Ect).
  rewrite apply_hp_eq, Eh by done. f_equal. unfold hp_buf.
  rewrite overlay_eq, patch_eq by (by eapply hpk_mask_len). by rewrite <- Ect.
Qed.

Lemma remove_sealed_eq b a pnb c tag b' pnb' extra sample rest tail :
  sampled pnb c tag extra sample rest →
  hpk_encrypt_in_place hk sample b pnb = Some (b', pnb') → Z.land b 0x03 + 1 = len pnb →
  exec (remove_header_protection (1 + len a) hk') ((b' :: a ++ pnb' ++ c ++ tag) ++ tail) =
    Ok (len pnb, (b :: a ++ pnb) ++ (c ++ tag) ++ tail).
Proof using HeaderKeyLaws0.
  intros (Ect & H4 & Hsl) Eh Hn. destruct (hpk_sample_same (k:=hk) (k':=hk')) as [Hss _].
  pose proof (hpk_mask_len _ _ _ _ _ Eh) as Hml. apply exec_ok.
  replace ((b' :: a ++ pnb' ++ c ++ tag) ++ tail) with (hp_buf b' a pnb' extra sample (rest ++ tail))
    by (unfold hp_buf; cbn; by rewrite <- !app_assoc, (app_assoc c tag), Ect, <- !app_assoc).
  rewrite (remove_hp_eq b' a pnb' extra sample (rest ++ tail) hk') by lia.
  rewrite (hpk_unmask _ _ _ _ _ extra Eh) by lia. rewrite Hn. f_equal.
  unfold hp_buf. rewrite overlay_eq, (app_assoc pnb' extra), patch_eq by (rewrite !len_app; lia).
  cbn [app]. rewrite Ect. by rewrite <- !app_assoc.
Qed.

(** The steps of [open_packet] on that image, [tail] being the rest of the datagram. *)
Lemma open_sealed_eq space kind cid_len lp st pn b a pnb payload c tag b' pnb' extra sample rest tail stop fs :
  pk_encrypt_in_place pk pn (b :: a ++ pnb) payload = (c, Some tag) →
  sampled pnb c tag extra sample rest →
  hpk_encrypt_in_place hk sample b pnb = Some (b', pnb') →
  is_u8 b → bytes_ok pnb → Z.land b 0x03 + 1 = len pnb →
  let out := b' :: a ++ pnb' ++ c ++ tag in
  remote_header_key (ks_keys st) space kind = Some hk' →
  remote_packet_key (ks_keys st) space kind = Some pk' →
  (is_long_header b = false → negb (Z.land b 0x04 =? 0) = ks_remote_key_phase st) →
  locate_packet_number (out ++ tail) cid_len = Ok (Some (1 + len a, stop)) →
  Z.min stop (len (out ++ tail)) = len out →
  decode_packet_number (from_be pnb) (len pnb) lp = Ok pn →
  0 < len c + len tag → decode_frames payload = Ok fs →
  open_packet next_packet_keys space kind cid_len lp (out ++ tail) st = (Ok (Some (pn, fs)), st).
Proof using PacketKeyLaws0 HeaderKeyLaws0.
  intros Ep (Ect & H4 & Hsl) Eh Hb Hpb Hn out Hhk Hpk Hphase Hloc Hstop Hpn Hpos Hfs.
  destruct (hpk_mask_bits _ _ _ _ _ Eh Hb) as (Hb' & Hhigh & _).
  pose proof (hpk_mask_len _ _ _ _ _ Eh) as Hml.
  destruct (hpk_sample_same (k:=hk) (k':=hk')) as [Hss _].
  destruct (decrypt_packet_eq (k:=pk) (k':=pk') _ _ _ _ _ Ep) as [junk Ed].
  assert (is_long_header b' = is_long_header b) as Hlong by (rewrite !is_long_shift by done; by rewrite Hhigh).
  pose proof (remove_sealed_eq b a pnb c tag b' pnb' extra sample rest tail
    (conj Ect (conj H4 Hsl)) Eh Hn) as Er. fold out in Er.
  set (buf := (b :: a ++ pnb) ++ (c ++ tag) ++ tail) in *.
  pose proof (len_nonneg tail). pose proof (len_nonneg extra).
  assert (len out = 1 + len a + len pnb + (len c + len tag)) as Hlo
    by (subst out; rewrite len_cons, !len_app; lia).
  assert (len buf = len (out ++ tail)) as Hlb by (subst buf; rewrite !len_app, Hlo, len_cons, len_app; lia).
  assert (at_pos buf (1 + len a) (pnb ++ (c ++ tag) ++ tail)) as P.
  { replace (1 + len a) with (len (b :: a)) by (rewrite len_cons; lia).
    replace buf with ((b :: a) ++ pnb ++ (c ++ tag) ++ tail) by (subst buf; cbn; by rewrite <- !app_assoc).
    apply at_pos_prefix. }
  unfold open_packet. subst out.
  rewrite (lift_bind _ b') by done. cbn beta zeta. rewrite gets_bind, Hhk.
  rewrite (lift_bind _ _ _ _ Hloc). rewrite (lift_bind _ _ _ _ Er). cbn beta iota.
  rewrite (lift_bind _ b) by done. cbn beta zeta.
  rewrite (lift_bind _ (from_be pnb)).
  2: { replace (Z.to_nat (len pnb)) with (length pnb) by (unfold len; lia).
       rewrite (read_truncated_pn_eq _ _ _ _ _ Hpb P); [done|lia|].
       apply Z.le_trans with (256 ^ 4); [|lia]. rewrite Z.mul_1_l. apply Z.pow_le_mono_r; lia. }
  rewrite (lift_bind _ _ _ _ Hpn). cbn beta zeta. rewrite Hlb, Hstop.
  replace (_ <=? _) with false by lia.
  rewrite (lift_bind _ (b :: a ++ pnb)).
  2: { apply (slice_at _ 0 _ ((c ++ tag) ++ tail)); [apply at_pos_0|]. rewrite len_cons, len_app; lia. }
  rewrite (lift_bind _ (c ++ tag)).
  2: { apply (slice_at _ _ _ tail); [by apply at_pos_app|]. rewrite len_app. lia. }
  rewrite gets_bind, Hlong.
  replace (_ && negb (eqb _ _)) with false.
  2: { destruct (is_long_header b) eqn:El; [done|]. cbn [negb andb]. rewrite Hphase by done. by rewrite eqb_reflx. }
  erewrite stM_bind_ok; cycle 1.
  { rewrite gets_bind, Hpk. rewrite (lift_bind _ (len payload, payload ++ junk)) by (by apply exec_ok). done. }
  cbn beta iota. rewrite (lift_bind _ payload).
  2: { apply (slice_at _ 0 _ junk); [apply at_pos_0|lia]. }
  by rewrite (lift_bind _ fs).
Qed.
Lemma seal_packet_inv pn b a pnb payload out : len pnb ≤ 4 →
  4 + hpk_sample_len hk ≤ len pnb + len payload + pk_tag_len pk →
  seal_packet pn (b :: a ++ pnb ++ payload) (1 + len a) (len pnb) pk hk = Ok out →
  ∃ c tag b' pnb' extra sample rest,
    pk_encrypt_in_place pk pn (b :: a ++ pnb) payload = (c, Some tag) ∧
    sampled pnb c tag extra sample rest ∧
    hpk_encrypt_in_place hk sample b pnb = Some (b', pnb') ∧
    out = b' :: a ++ pnb' ++ c ++ tag.
Proof using PacketKeyLaws0 HeaderKeyLaws0.
  intros Hn Hlen Hseal. destruct (hpk_sample_same (k:=hk) (k':=hk')) as [_ Hs0].
  destruct (pk_encrypt_in_place pk pn (b :: a ++ pnb) payload) as [c [tag|]] eqn:Ep.
  - destruct (pk_seal _ _ _ _ _ Ep) as [Hc Ht].
    destruct (sampled_intro pnb c tag) as (extra & sample & rest & Hsam); [lia..|].
    destruct (hpk_encrypt_in_place hk sample b pnb) as [[b' pnb']|] eqn:Eh.
    + exists c, tag, b', pnb', extra, sample, rest. split_and!; [done..|].
      rewrite (seal_packet_eq _ _ _ _ _ _ _ _ _ _ _ _ Ep Hsam Eh) in Hseal. congruence.
    + exfalso. revert Hseal. rewrite seal_header_eq, (exec_ok _ _ _ _ (encrypt_packet_eq (k':=pk') _ _ _ _ _ Ep)), bind_ok.
      cbn beta iota zeta. destruct Hsam as (Ect & H4 & Hsl). unfold exec.
      replace ((b :: a ++ pnb) ++ c ++ tag) with (hp_buf b a pnb extra sample rest)
        by (unfold hp_buf; cbn; by rewrite <- app_assoc, Ect).
      by rewrite apply_hp_eq, Eh by done.
  - exfalso. revert Hseal. rewrite seal_header_eq. unfold exec, encrypt_packet.
    rewrite resize_grow, take_app_len, Ep by apply pk_tag_len_nonneg. done.
Qed.

(** [build_packet] yields a sealed packet with the layout its receiver expects. *)
Definition is_long_packet (space : PacketNumberSpace) (app_kind : option ApplicationPacketKind) : bool :=
  match space, app_kind with SpaceApplicationData, Some AppOneRtt => false | _, _ => true end.

Lemma encode_packet_layout space app_kind dcid lcid token phase pn la tag payload cidl pkt off n :
  cid_wf dcid → cid_wf lcid → data_wf token → 0 ≤ pn → 0 ≤ tag → 1300 + len payload + tag ≤ MAX_VARINT →
  (is_long_packet space app_kind = false → cidl = cid_len dcid) →
  encode_packet space app_kind dcid lcid token phase pn la tag payload = Ok (pkt, (off, n)) →
  ∃ k, Z.of_nat k ≤ 1200 ∧
    layout (is_long_packet space app_kind) phase cidl tag pkt (payload ++ replicate k 0) off n pn la.
Proof.
  intros Hd Hs Htok Hpn Ht Hl Hcid. pose proof (len_nonneg payload). unfold encode_packet.
  unfold is_long_packet in *. destruct space.
  - intros ([trial x] & _ & E)%bind_ok_inv. revert E. set (w := len trial + tag).
    assert (0 ≤ w) by (subst w; pose proof (len_nonneg trial); lia).
    set (k := if w <? INITIAL_MIN_DATAGRAM_SIZE then INITIAL_MIN_DATAGRAM_SIZE - w else 0).
    assert (0 ≤ k ≤ 1200) by (subst k; unfold INITIAL_MIN_DATAGRAM_SIZE; destruct (_ <? _) eqn:?; lia).
    replace (if w <? INITIAL_MIN_DATAGRAM_SIZE
      then resize (len payload + (INITIAL_MIN_DATAGRAM_SIZE - w)) payload else payload) with (payload ++ replicate (Z.to_nat k) 0).
    2: { subst k. dif; [by rewrite resize_grow by lia|by rewrite app_nil_r]. }
    intros E. exists (Z.to_nat k).
    destruct (initial_layout phase cidl dcid lcid token pn la (payload ++ replicate (Z.to_nat k) 0) tag)
      as (pkt' & off' & n' & E' & HL); [done..|rewrite len_app, len_replicate; lia|].
    rewrite E in E'. simplify_eq. split; [lia|done].
  - intros E. exists 0%nat. split; [done|]. rewrite app_nil_r. revert E. unfold encode_handshake_packet.
    rewrite (surjective_pairing (encode_packet_number pn la)).
    destruct (encode_long_packet_eq Handshake dcid lcid pn la payload tag) as (_ & _ & ->); [lia..|].
    intros [= <- <- <-]. apply long_layout; [by left|done..|lia].
  - destruct app_kind as [[]|]; [| |done]; intros E; exists 0%nat; (split; [done|]); rewrite app_nil_r; revert E.
    + unfold encode_zero_rtt_packet. rewrite (surjective_pairing (encode_packet_number pn la)).
      destruct (encode_long_packet_eq ZeroRtt dcid lcid pn la payload tag) as (_ & _ & ->); [lia..|].
      intros [= <- <- <-]. apply long_layout; [by right|done..|lia].
    + destruct (encode_one_rtt_eq dcid false phase pn la payload Hpn) as (_ & ->).
      intros [= <- <- <-]. rewrite Hcid by done. by apply one_rtt_layout.
Qed.

Lemma open_layout space kind cidl lp st long phase pkt payload off n pn la out tail fs :
  layout long phase cidl (pk_tag_len pk) pkt payload off n pn la →
  0 ≤ pn < 2 ^ 62 → 0 ≤ la ≤ lp → lp < 2 ^ 62 → pn - la < 2 ^ 31 → lp ≤ pn + 126 →
  4 + hpk_sample_len hk ≤ n + len payload + pk_tag_len pk →
  seal_packet pn pkt off n pk hk = Ok out →
  remote_header_key (ks_keys st) space kind = Some hk' →
  remote_packet_key (ks_keys st) space kind = Some pk' →
  (long = false → ks_remote_key_phase st = phase ∧ tail = []) →
  len (out ++ tail) ≤ ISIZE_MAX → 0 < len payload → decode_frames payload = Ok fs →
  open_packet next_packet_keys space kind cidl lp (out ++ tail) st = (Ok (Some (pn, fs)), st).
Proof using PacketKeyLaws0 HeaderKeyLaws0.
  intros (b & a & -> & -> & -> & Hb & Hb3 & Hlong & Hph & Hloc) Hpn Hla Hlp Hout Hahead Hsz Hseal Hhk Hpk Hshort Hl Hpos Hfs.
  destruct (encode_packet_number_spec pn la) as (n & Hm & Hn & Hpl & Hpb & _); [lia|].
  pose proof (packet_number_roundtrip_aux pn la lp Hpn Hla Hlp Hout Hahead) as Hdec.
  apply seal_packet_inv in Hseal as (c & tag & b' & pnb' & extra & sample & rest & Ep & Hsam & Eh & ->); [|lia|done].
  destruct (pk_seal _ _ _ _ _ Ep) as [Hc Ht]. destruct (hpk_mask_bits _ _ _ _ _ Eh Hb) as (Hb' & H5 & H4).
  pose proof (hpk_mask_len _ _ _ _ _ Eh) as Hml. pose proof (pk_tag_len_nonneg (k:=pk)).
  destruct (Hloc b' pnb' (c ++ tag) tail) as (stop & El & Hstop);
    [done|done|intros ->; by apply H4|done|rewrite len_app; lia|intros ->; by apply Hshort|done|].
  eapply open_sealed_eq; [done..| |done|done|done|lia|done].
  intros Hlf. rewrite Hlong in Hlf. subst long. rewrite Hph by done. symmetry. by apply Hshort.
Qed.

Lemma padded_payload fs k :
  concat (frame_bytes <$> fs) ++ replicate k 0 = concat (frame_bytes <$> (fs ++ replicate k Padding)).
Proof.
  rewrite fmap_app, concat_app. f_equal. induction k as [|k IH]; [done|]. cbn. by rewrite IH.
Qed.

Lemma decode_padded fs k : Forall frame_wf fs → len (concat (frame_bytes <$> fs) ++ replicate k 0) ≤ ISIZE_MAX →
  decode_frames (concat (frame_bytes <$> fs) ++ replicate k 0) = Ok (fs ++ replicate k Padding).
Proof.
  intros Hfs Hl. rewrite padded_payload in *. apply (decode_frames_loop_eq _ _); [|done|done].
  apply Forall_app_2; [done|]. by apply Forall_replicate.
Qed.

Lemma build_packet_layout space app_kind dcid lcid token phase pn la payload cidl out :
  cid_wf dcid → cid_wf lcid → data_wf token → 0 ≤ pn →
  1304 + len payload + pk_tag_len pk + hpk_sample_len hk ≤ MAX_VARINT →
  (is_long_packet space app_kind = false → cidl = cid_len dcid) →
  build_packet space app_kind dcid lcid token phase pn la payload pk hk = Ok out →
  ∃ k pkt off n, Z.of_nat k ≤ 1204 + hpk_sample_len hk ∧ seal_packet pn pkt off n pk hk = Ok out ∧
    layout (is_long_packet space app_kind) phase cidl (pk_tag_len pk) pkt (payload ++ replicate k 0) off n pn la ∧
    4 + hpk_sample_len hk ≤ n + len (payload ++ replicate k 0) + pk_tag_len pk.
Proof using PacketKeyLaws0 HeaderKeyLaws0.
  intros Hd Hs Htok Hpn Hl Hcid. pose proof (pk_tag_len_nonneg (k:=pk)) as Ht.
  destruct (hpk_sample_same (k:=hk) (k':=hk')) as [_ Hs0]. pose proof (len_nonneg payload) as Hp0.
  unfold build_packet. intros ([pkt1 [off1 n1]] & E1 & Hseal)%bind_ok_inv. cbn beta iota in Hseal.
  revert E1. unfold encode_padded. intros ([pkt [off n]] & E & E1)%bind_ok_inv. cbn beta iota zeta in E1.
  pose proof E as E0. apply encode_packet_layout with (cidl := cidl) in E0 as (k & Hk & HL);
    [|done|done|done|done|done|lia|done].
  assert (1 ≤ n ≤ 4) as Hn.
  { destruct HL as (b & a & _ & _ & -> & _). rewrite pn_bytes_len by done.
    destruct (encode_packet_number_spec pn la Hpn) as (m & -> & ? & _). done. }
  unfold saturating_add_u64, saturating_sub, MAX_VARINT in *.
  rewrite Z.min_r in E1 by (unfold_ints; lia). revert E1. dif.
  - intros E2. rename pkt1 into pkt2, off1 into off2, n1 into n2.
    set (m := Z.max 0 (Z.max 0 (hpk_sample_len hk + 4 - n) - pk_tag_len pk)) in *.
    replace m with (len payload + (m - len payload)) in E2 by lia. rewrite resize_grow in E2 by lia.
    set (j := Z.to_nat (m - len payload)) in *.
    apply encode_packet_layout with (cidl := cidl) in E2 as (k2 & Hk2 & HL2);
      [|done|done|done|done|done|rewrite len_app, len_replicate; unfold MAX_VARINT; lia|done].
    exists (j + k2)%nat, pkt2, off2, n2. rewrite replicate_add, app_assoc.
    assert (n2 = n) as -> by (destruct HL as (? & ? & _ & _ & -> & _), HL2 as (? & ? & _ & _ & -> & _); done).
    split; [lia|]. split; [done|]. split; [done|]. rewrite !len_app, !len_replicate. lia.
  - intros [= <- <- <-]. exists k, pkt, off, n. split; [lia|]. split; [done|]. split; [done|].
    rewrite len_app, len_replicate. lia.
Qed.

(** C2: End to end: a packet built by the sender (Initial, Handshake, 0-RTT or 1-RTT: header,
    padding, AEAD seal and header protection) from well-formed frames is opened by the
    receiver to the same packet number and frames, followed only by PADDING, whatever
    follows a long-header packet in the datagram.  The ciphers are any that satisfy the
    laws; the sender's window and the receiver's largest packet are as QUIC requires. *)
Theorem built_packet_opens space app_kind kind dcid lcid token phase pn la lp cidl fs out tail st :
  cid_wf dcid → cid_wf lcid → data_wf token →
  0 ≤ pn < 2 ^ 62 → 0 ≤ la ≤ lp → lp < 2 ^ 62 → pn - la < 2 ^ 31 → lp ≤ pn + 126 →
  Forall frame_wf fs → fs ≠ [] →
  1304 + len (concat (frame_bytes <$> fs)) + pk_tag_len pk + hpk_sample_len hk ≤ MAX_VARINT →
  build_packet space app_kind dcid lcid token phase pn la (concat (frame_bytes <$> fs)) pk hk = Ok out →
  remote_header_key (ks_keys st) space kind = Some hk' →
  remote_packet_key (ks_keys st) space kind = Some pk' →
  (is_long_packet space app_kind = false →
     cidl = cid_len dcid ∧ ks_remote_key_phase st = phase ∧ tail = []) →
  len (out ++ tail) ≤ ISIZE_MAX →
  ∃ k, open_packet next_packet_keys space kind cidl lp (out ++ tail) st =
         (Ok (Some (pn, fs ++ replicate k Padding)), st).
Proof using PacketKeyLaws0 HeaderKeyLaws0.
  intros Hd Hs Htok Hpn Hla Hlp Hout Hahead Hfs Hne Hl Hb Hhk Hpk Hshort Htail.
  apply build_packet_layout with (cidl := cidl) in Hb as (k & pkt & off & n & Hk & Hseal & HL & Hsz);
    [|done|done|done|lia|done|intros Hf; by apply Hshort].
  exists k. eapply open_layout; [done..| |done| |].
  - intros Hf. by destruct (Hshort Hf) as (_ & ? & ?).
  - rewrite len_app. pose proof (len_nonneg (replicate k 0)). destruct fs as [|f fs]; [done|].
    cbn [fmap list_fmap concat]. rewrite len_app. apply Forall_cons in Hfs as [Hf _].
    pose proof (frame_bytes_nonempty f Hf). pose proof (len_nonneg (concat (frame_bytes <$> fs))).
    destruct (frame_bytes f) as [|x l]; [done|]. rewrite len_cons. pose proof (len_nonneg l).
    change (list_fmap Frame bytes frame_bytes fs) with (frame_bytes <$> fs). lia.
  - apply decode_padded; [done|]. rewrite len_app, len_replicate.
    pose proof (pk_tag_len_nonneg (k:=pk)). unfold MAX_VARINT, ISIZE_MAX in *. lia.
Qed.
End Open.

(** ** A cipher in miniature: the tag names the key generation *)
Definition toy_tag (g : Z) : bytes := replicate 16 g.

Lemma len_toy_tag g : len (toy_tag g) = 16.
Proof. done. Qed.
#[global] Opaque toy_tag.

Definition toy_packet_key (g : Z) : PacketKey := {|
  pk_tag_len := 16;
  pk_encrypt_in_place := λ pn hdr p, (p, Some (toy_tag g));
  pk_decrypt_in_place := λ pn hdr c,
    let n := len c - 16 in
    (c, if bool_decide (0 ≤ n) && bool_decide (drop (Z.to_nat n) c = toy_tag g)
        then Some n else None);
|}.

#[export] Instance toy_packet_laws g : PacketKeyLaws (toy_packet_key g) (toy_packet_key g).
Proof.
  split; [done| |].
  - intros pn hdr p c tag [= <- <-]. by rewrite len_toy_tag.
  - intros pn hdr p c tag [= <- <-]. exists (toy_tag g). cbn [toy_packet_key pk_decrypt_in_place].
    rewrite len_app, len_toy_tag. replace (len p + 16 - 16) with (len p) by lia.
    rewrite drop_app_len, !bool_decide_true by (done || apply len_nonneg). done.
Qed.

#[global] Transparent toy_tag.

Definition toy_directional (g : Z) : DirectionalKeys := {|
  dk_local := toy_packet_key g; dk_remote := toy_packet_key g;
  dk_local_header := toy_header_key; dk_remote_header := toy_header_key |}.

(** The secrets are the number of the next generation. *)
Definition toy_next (s : Z) : (PacketKey * PacketKey) * Z :=
  ((toy_packet_key s, toy_packet_key s), s + 1).

Definition toy_state (g : Z) : KeyState (Secrets := Z) := {|
  ks_keys := keys_put keys_new SpaceApplicationData (Some (toy_directional g));
  ks_next_secrets := Some (g + 1);
  ks_local_key_phase := false;
  ks_remote_key_phase := false;
  ks_pending_remote := None;
  ks_packets_sent := 0;
  ks_key_update_pn := 0 |}.

Lemma built_packet_opens_witness :
  build_packet SpaceApplicationData (Some AppOneRtt) sample_dcid sample_scid [] false 42 40 [1]
    (toy_packet_key 5) toy_header_key = Ok ([0x45; 7; 8; 9; 47; 1] ++ toy_tag 5) ∧
  (∃ k, open_packet toy_next SpaceApplicationData ROneRtt 3 41
     (([0x45; 7; 8; 9; 47; 1] ++ toy_tag 5) ++ []) (toy_state 5) =
     (Ok (Some (42, [Ping] ++ replicate k Padding)), toy_state 5)).
Proof.
  assert (build_packet SpaceApplicationData (Some AppOneRtt) sample_dcid sample_scid [] false 42 40 [1]
    (toy_packet_key 5) toy_header_key = Ok ([0x45; 7; 8; 9; 47; 1] ++ toy_tag 5)) as E
    by (vm_compute; reflexivity).
  split; [exact E|].
  apply (built_packet_opens toy_next (toy_packet_key 5) (toy_packet_key 5) toy_header_key toy_header_key
    SpaceApplicationData (Some AppOneRtt) ROneRtt sample_dcid sample_scid [] false 42 40 41);
    try exact E; try exact sample_dcid_wf; try exact sample_scid_wf; try reflexivity; try lia.
  - split; [bytes_dec|vm_compute; discriminate].
  - by apply Forall_singleton.
  - discriminate.
  - vm_compute; discriminate.
  - intros _. done.
  - vm_compute; discriminate.
Defined.

(** ** Key updates between two endpoints *)
Section Sync.
Context {Secrets : Type} (next_packet_keys : Secrets → (PacketKey * PacketKey) * Secrets).
Context (match_secrets : Secrets → Secrets → Prop).

(** The secrets of the two sides derive matching keys, generation after generation. *)
Hypothesis secrets_match : ∀ s1 s2, match_secrets s1 s2 →
  let '((l1, r1), s1') := next_packet_keys s1 in
  let '((l2, r2), s2') := next_packet_keys s2 in
  PacketKeyLaws l1 r2 ∧ PacketKeyLaws l2 r1 ∧ match_secrets s1' s2'.

(** Both sides use the same generation and no update is in progress. *)
Definition in_sync (phase : bool) (a b : KeyState (Secrets := Secrets)) : Prop :=
  ∃ ka kb sa sb,
    k_one_rtt (ks_keys a) = Some ka ∧ k_one_rtt (ks_keys b) = Some kb ∧
    ks_next_secrets a = Some sa ∧ ks_next_secrets b = Some sb ∧ match_secrets sa sb ∧
    PacketKeyLaws (dk_local ka) (dk_remote kb) ∧ PacketKeyLaws (dk_local kb) (dk_remote ka) ∧
    ks_pending_remote a = None ∧ ks_pending_remote b = None ∧
    ks_local_key_phase a = phase ∧ ks_remote_key_phase a = phase ∧
    ks_local_key_phase b = phase ∧ ks_remote_key_phase b = phase.

(** [b] accepts with [try_decrypt_with_next_keys] a packet [a] seals with its local key. *)
Definition delivers (a b b' : KeyState (Secrets := Secrets)) (pn : Z) (hdr p : bytes) : Prop :=
  ∃ ka c tag buf, k_one_rtt (ks_keys a) = Some ka ∧
    pk_encrypt_in_place (dk_local ka) pn hdr p = (c, Some tag) ∧
    try_decrypt_with_next_keys next_packet_keys pn (ks_local_key_phase a) hdr (c ++ tag) b =
      (Ok (len p, buf), b') ∧ take (Z.to_nat (len p)) buf = p.

Lemma one_rtt_with_get keys f : k_one_rtt (one_rtt_with keys f) = f <$> k_one_rtt keys.
Proof. by destruct keys. Qed.

(** The local key of a state can seal. *)
Definition seals (a : KeyState (Secrets := Secrets)) (pn : Z) (hdr p : bytes) : Prop :=
  ∃ ka c tag, k_one_rtt (ks_keys a) = Some ka ∧
    pk_encrypt_in_place (dk_local ka) pn hdr p = (c, Some tag).

(** C26: A key update completes: when one of two endpoints in step initiates it, the first packet
    it seals with the new keys is accepted by the other, which switches both its keys and
    answers with the new key phase; the answer is accepted and completes the update, and
    the endpoints are in step again, one generation later and in the other phase. *)
Theorem key_update_completes phase a b a1 pn hdr p :
  in_sync phase a b → ks_key_update_pn b ≤ pn → seals a1 pn hdr p →
  initiate_key_update next_packet_keys a = (Ok true, a1) →
  ∃ b1, delivers a1 b b1 pn hdr p ∧
    ∀ pn' hdr' p', ks_key_update_pn a ≤ pn' → seals b1 pn' hdr' p' →
      ∃ a2, delivers b1 a1 a2 pn' hdr' p' ∧ in_sync (negb phase) a2 b1.
Proof using secrets_match.
  intros (ka & kb & sa & sb & Ka & Kb & Sa & Sb & Hm & Hab & Hba & Pa & Pb & La & Ra & Lb & Rb) Hpn.
  unfold initiate_key_update. rewrite Ka, Sa, Pa.
  specialize (secrets_match sa sb Hm).
  destruct (next_packet_keys sa) as [[l1 r1] sa'] eqn:Na. destruct (next_packet_keys sb) as [[l2 r2] sb'] eqn:Nb.
  destruct secrets_match as (Hl1 & Hl2 & Hm').
  intros (ka1 & c & tag & K1 & Ep) [= <-]. cbn [ks_keys] in K1. rewrite one_rtt_with_get, Ka in K1.
  injection K1 as <-. cbn [with_local dk_local] in Ep.
  destruct (decrypt_packet_eq (k:=l1) (k':=r2) _ _ _ _ _ Ep) as [junk Ed].
  eexists. split.
  { exists (with_local l1 ka), c, tag, (p ++ junk). cbn [ks_keys]. rewrite one_rtt_with_get, Ka.
    split; [done|]. split; [done|]. split; [|apply take_app_len].
    unfold try_decrypt_with_next_keys, decrypt_next_generation.
    rewrite Pb, Sb, Nb, (exec_ok _ _ _ _ Ed). by replace (pn <? _) with false by lia. }
  intros pn' hdr' p' Hpn' (kb1 & c' & tag' & K2 & Ep'). cbn [ks_keys] in K2.
  rewrite one_rtt_with_get, Kb in K2. injection K2 as <-. cbn [with_local with_remote dk_local] in Ep'.
  destruct (decrypt_packet_eq (k:=l2) (k':=r1) _ _ _ _ _ Ep') as [junk' Ed'].
  eexists. split.
  { exists (with_remote r2 (with_local l2 kb)), c', tag', (p' ++ junk'). cbn [ks_keys].
    rewrite one_rtt_with_get, Kb. split; [done|]. split; [done|]. split; [|apply take_app_len].
    unfold try_decrypt_with_next_keys. cbn [ks_key_update_pn ks_pending_remote ks_local_key_phase].
    replace (pn' <? _) with false by lia. rewrite eqb_reflx, (exec_ok _ _ _ _ Ed'). done. }
  exists (with_remote r1 (with_local l1 ka)), (with_remote r2 (with_local l2 kb)), sa', sb'.
  cbn [ks_keys ks_next_secrets ks_pending_remote ks_local_key_phase ks_remote_key_phase].
  rewrite !one_rtt_with_get, Ka, Kb, La. done.
Qed.
End Sync.

(** The toy endpoints: matching secrets are equal numbers. *)
Lemma toy_secrets_match s1 s2 : s1 = s2 →
  let '((l1, r1), s1') := toy_next s1 in
  let '((l2, r2), s2') := toy_next s2 in
  PacketKeyLaws l1 r2 ∧ PacketKeyLaws l2 r1 ∧ s1' = s2'.
Proof. intros ->. split_and!; [apply _|apply _|done]. Qed.

Lemma toy_in_sync g : in_sync (λ s1 s2, s1 = s2) false (toy_state g) (toy_state g).
Proof.
  exists (toy_directional g), (toy_directional g), (g + 1), (g + 1).
  split_and!; try done; apply _.
Qed.

Lemma key_update_completes_witness :
  ∃ b1, delivers toy_next (snd (initiate_key_update toy_next (toy_state 5))) (toy_state 5) b1 7 [1] [2; 3] ∧
    ∀ pn' hdr' p', 0 ≤ pn' → seals b1 pn' hdr' p' →
      ∃ a2, delivers toy_next b1 (snd (initiate_key_update toy_next (toy_state 5))) a2 pn' hdr' p' ∧
            in_sync (λ s1 s2, s1 = s2) true a2 b1.
Proof.
  apply (key_update_completes toy_next (λ s1 s2, s1 = s2) toy_secrets_match false (toy_state 5) (toy_state 5)
    (snd (initiate_key_update toy_next (toy_state 5))) 7 [1] [2; 3]).
  - exact (toy_in_sync 5).
  - cbn. lia.
  - eexists _, _, _. split; [reflexivity|reflexivity].
  - reflexivity.
Defined.

(** ** A forged packet *)
Section Forged.
Context {Secrets : Type} (next_packet_keys : Secrets → (PacketKey * PacketKey) * Secrets).

Fixpoint secrets_after (s : Secrets) (n : nat) : Secrets :=
  match n with O => s | S n => secrets_after (snd (next_packet_keys s)) n end.

(** The key with which the receiver opens the packets of the [n]-th generation from [s]. *)
Definition remote_generation (s : Secrets) (n : nat) : PacketKey :=
  snd (fst (next_packet_keys (secrets_after s n))).

Record Packet := { p_pn : Z; p_header : bytes; p_ciphertext : bytes }.

Definition opens (k : PacketKey) (p : Packet) : Prop :=
  is_Some (snd (pk_decrypt_in_place k (p_pn p) (p_header p) (p_ciphertext p))).

(** Receive 1-RTT packets of the other key phase, recording which are accepted. *)
Fixpoint receive_all (phase : bool) (ps : list Packet) (st : KeyState (Secrets := Secrets))
    : list bool * KeyState (Secrets := Secrets) :=
  match ps with
  | [] => ([], st)
  | p :: ps =>
      let '(r, st) := try_decrypt_with_next_keys next_packet_keys (p_pn p) phase
                        (p_header p) (p_ciphertext p) st in
      let '(rs, st) := receive_all phase ps st in
      (match r with Ok _ => true | _ => false end :: rs, st)
  end.

(** The state of a receiver that is about to see the first generation after [s]. *)
Definition awaiting (st : KeyState (Secrets := Secrets)) (s : Secrets) : Prop :=
  ks_next_secrets st = Some s ∧ ks_pending_remote st = None.

Lemma try_rejected st s phase p : awaiting st s → ¬ opens (remote_generation s 0) p →
  ∃ st', (∃ e, try_decrypt_with_next_keys next_packet_keys (p_pn p) phase (p_header p) (p_ciphertext p) st
            = (Err e, st')) ∧
    ks_keys st' = ks_keys st ∧ ks_remote_key_phase st' = ks_remote_key_phase st ∧
    (st' = st ∧ p_pn p < ks_key_update_pn st ∨ awaiting st' (snd (next_packet_keys s))).
Proof.
  intros [Hs Hp] Hno. unfold try_decrypt_with_next_keys, decrypt_next_generation. dif.
  { exists st. split; [by eexists|]. split; [done|]. split; [done|]. left. split; [done|lia]. }
  rewrite Hp, Hs. unfold opens, remote_generation in Hno. cbn [secrets_after] in Hno.
  destruct (next_packet_keys s) as [[l r] s']. cbn [fst snd] in Hno.
  unfold exec, decrypt_packet.
  destruct (pk_decrypt_in_place r (p_pn p) (p_header p) (p_ciphertext p)) as [buf [n|]];
    [by destruct Hno; eexists|].
  eexists. split; [by eexists|]. split; [done|]. split; [done|]. by right.
Qed.

Lemma receive_all_rejected phase ps st s : awaiting st s →
  Forall (λ p, ∀ n, ¬ opens (remote_generation s n) p) ps →
  ∃ st', receive_all phase ps st = (replicate (length ps) false, st') ∧
    ks_keys st' = ks_keys st ∧ ks_remote_key_phase st' = ks_remote_key_phase st.
Proof.
  intros Hst Hps. revert st s Hst Hps. induction ps as [|p ps IH]; intros st s Hst Hps; [by eexists|].
  apply Forall_cons in Hps as [Hp Hps].
  destruct (try_rejected st s phase p Hst (Hp 0%nat)) as (st1 & [e E] & Hk & Hr & Hn).
  cbn [receive_all length replicate]. rewrite E.
  assert (∃ s', awaiting st1 s' ∧ Forall (λ p, ∀ n, ¬ opens (remote_generation s' n) p) ps) as (s' & Ha & Hf).
  { destruct Hn as [[-> _] | Hn]; [by exists s|]. exists (snd (next_packet_keys s)). split; [done|].
    eapply Forall_impl; [exact Hps|]. intros q Hq n. exact (Hq (S n)). }
  destruct (IH st1 s' Ha Hf) as (st' & -> & Hk' & Hr'). exists st'. split; [done|]. by rewrite Hk', Hr'.
Qed.

(** A defect: [try_decrypt_with_next_keys] advances the secrets before it authenticates the
    packet.  A receiver would accept every authentic packet of the peer's next key
    generation; after one forged packet with the other key phase, which is rejected, it
    rejects all of them, and its keys and key phase never change again, for as long as no
    later generation opens packets of the first. *)
Theorem forged_packet_blocks_key_update st s phase forged :
  awaiting st s → ks_key_update_pn st ≤ p_pn forged → ¬ opens (remote_generation s 0) forged →
  (∀ p, ks_key_update_pn st ≤ p_pn p → opens (remote_generation s 0) p →
     fst (receive_all phase [p] st) = [true]) ∧
  (∀ ps, Forall (λ p, ∀ n, ¬ opens (remote_generation s (S n)) p) ps →
     ∃ st', receive_all phase (forged :: ps) st = (false :: replicate (length ps) false, st') ∧
       ks_keys st' = ks_keys st ∧ ks_remote_key_phase st' = ks_remote_key_phase st).
Proof.
  intros Hst Hpn Hno. split.
  - intros p Hp Hopen. cbn [receive_all]. unfold try_decrypt_with_next_keys, decrypt_next_generation.
    destruct Hst as [-> ->]. replace (p_pn p <? _) with false by lia.
    unfold opens, remote_generation in Hopen. cbn [secrets_after] in Hopen.
    destruct (next_packet_keys s) as [[l r] s']. cbn [fst snd] in Hopen. unfold exec, decrypt_packet.
    destruct (pk_decrypt_in_place r (p_pn p) (p_header p) (p_ciphertext p)) as [buf [n|]]; [done|].
    by destruct Hopen.
  - intros ps Hps. destruct (try_rejected st s phase forged Hst Hno) as (st1 & [e E] & Hk & Hr & Hn).
    cbn [receive_all]. rewrite E. destruct Hn as [[_ ?] | Hn]; [lia|].
    destruct (receive_all_rejected phase ps st1 _ Hn Hps) as (st' & -> & Hk' & Hr').
    exists st'. split; [done|]. by rewrite Hk', Hr'.
Qed.
End Forged.

Lemma toy_opens g p : opens (toy_packet_key g) p ↔
  0 ≤ len (p_ciphertext p) - 16 ∧ drop (Z.to_nat (len (p_ciphertext p) - 16)) (p_ciphertext p) = toy_tag g.
Proof.
  unfold opens. cbn [toy_packet_key pk_decrypt_in_place snd].
  destruct (bool_decide_reflect (0 ≤ len (p_ciphertext p) - 16)) as [H|H];
    destruct (bool_decide_reflect (drop (Z.to_nat (len (p_ciphertext p) - 16)) (p_ciphertext p) = toy_tag g));
    cbn [andb]; split; try (by intros []); try done; by intros [? ?].
Qed.

(** The peer, of generation 6, sends one byte; the forgery carries another tag. *)
Definition toy_forgery : Packet := {| p_pn := 9; p_header := [1]; p_ciphertext := 1 :: toy_tag 77 |}.
Definition toy_authentic : Packet := {| p_pn := 10; p_header := [1]; p_ciphertext := 1 :: toy_tag 6 |}.

Lemma toy_generation s n : remote_generation toy_next s n = toy_packet_key (s + Z.of_nat n).
Proof.
  unfold remote_generation. assert (secrets_after toy_next s n = s + Z.of_nat n) as ->; [|done].
  revert s. induction n as [|n IH]; intros s; cbn [secrets_after]; [lia|]. rewrite IH. cbn. lia.
Qed.

Lemma forged_packet_blocks_key_update_witness :
  fst (receive_all toy_next true [toy_authentic] (toy_state 5)) = [true] ∧
  fst (receive_all toy_next true [toy_forgery; toy_authentic; toy_authentic] (toy_state 5)) =
    [false; false; false].
Proof.
  destruct (forged_packet_blocks_key_update toy_next (toy_state 5) 6 true toy_forgery) as [H1 H2].
  - done.
  - cbn. lia.
  - rewrite toy_generation, toy_opens. intros [_ E]. vm_compute in E. discriminate.
  - split.
    + apply H1; [cbn; lia|]. rewrite toy_generation, toy_opens. split; vm_compute; [discriminate|reflexivity].
    + destruct (H2 [toy_authentic; toy_authentic]) as (st' & -> & _); [|reflexivity].
      assert (∀ n, ¬ opens (remote_generation toy_next 6 (S n)) toy_authentic).
      { intros n. rewrite toy_generation, toy_opens. intros [_ E].
        assert (6 = 6 + Z.of_nat (S n)) as E' by exact (f_equal (hd 0) E). lia. }
      by repeat apply Forall_cons_2.
Defined.
