(* ===== verification/Retry.v ===== *)
(** * Retry packets and address-validation tokens (starfish-quic/src/packet/retry.rs)

    The HKDF, HMAC and AEAD functions of the ring crate are parameters, and so
    is the clock: [now] is the time since the epoch in milliseconds, [None] when
    the clock is before it. *)

From S2P Require Import Prelude QuicError Varint Frame Packet TransportParams.

Definition RETRY_INTEGRITY_TAG_LEN : Z := 16.
Definition RETRY_INTEGRITY_KEY : bytes :=
  [0xbe; 0x0c; 0x69; 0x0b; 0x9f; 0x66; 0x57; 0x5a; 0x1d; 0x76; 0x6b; 0x54; 0xe3; 0x68; 0xc8; 0x4e].
Definition RETRY_INTEGRITY_NONCE : bytes :=
  [0x46; 0x15; 0x99; 0xd3; 0x5d; 0x63; 0x2b; 0xf2; 0x23; 0x98; 0x25; 0xbb].

Record RetryPacket := {
  rp_dcid : ConnectionId;
  rp_scid : ConnectionId;
  rp_token : bytes;
  rp_integrity_tag : bytes;
}.

Definition parse_retry_fields (buf : bytes) (header_len : Z) (dcid scid : ConnectionId)
    : qres RetryPacket :=
  if len buf <? header_len + RETRY_INTEGRITY_TAG_LEN then
    Err (InvalidPacket (msg "retry packet too short for integrity tag"))
  else
    let tag_start := len buf - RETRY_INTEGRITY_TAG_LEN in
    token ← slice buf header_len tag_start;
    tag ← slice_from buf tag_start;
    Ok {| rp_dcid := dcid; rp_scid := scid; rp_token := token; rp_integrity_tag := tag |}.

Definition encode_retry_packet (dcid scid : ConnectionId) (token : bytes) : qres (bytes * unit) :=
  build (
    push 0xf0;;
    extend (to_be 4 QUIC_VERSION_1);;
    push (as_u8 (cid_len dcid));;
    extend (as_slice dcid);;
    push (as_u8 (cid_len scid));;
    extend (as_slice scid);;
    extend token).

Definition build_retry_pseudo_packet (original_dcid : ConnectionId) (retry_packet : bytes)
    : qres (bytes * unit) :=
  build (
    push (as_u8 (cid_len original_dcid));;
    extend (as_slice original_dcid);;
    extend retry_packet).

(** ** Constants of the tokens *)
Definition RETRY_TOKEN_MAX_AGE_SECS : Z := 10.
Definition NEW_TOKEN_MAX_AGE_SECS : Z := 7 * 24 * 60 * 60.
Definition TOKEN_KIND_RETRY : Z := 0x00.
Definition TOKEN_KIND_NEW_TOKEN : Z := 0x01.
Definition TOKEN_IP_VERSION_V4 : Z := 0x04.
Definition TOKEN_IP_VERSION_V6 : Z := 0x06.
Definition TOKEN_TAG_LEN : Z := 16.
Definition NEW_TOKEN_NONCE_LEN : Z := 12.

Inductive RetryTokenValidation := Valid (c : ConnectionId) | Invalid | Unknown.

Definition client_ip_version (a : SocketAddr) : Z :=
  match a with SocketV4 _ _ => TOKEN_IP_VERSION_V4 | SocketV6 _ _ _ _ => TOKEN_IP_VERSION_V6 end.
Definition client_ip_bytes (a : SocketAddr) : bytes :=
  match a with SocketV4 ip _ => ip | SocketV6 ip _ _ _ => ip end.
Definition client_port (a : SocketAddr) : Z :=
  match a with SocketV4 _ p => p | SocketV6 _ p _ _ => p end.
Definition client_addr_len (a : SocketAddr) : Z :=
  match a with SocketV4 _ _ => 4 | SocketV6 _ _ _ _ => 16 end.

Definition current_time_ms (now : option Z) : Z := default 0 now.

(** [u64::from_be_bytes] of eight indexed bytes. *)
Definition read_u64 (buf : bytes) (o : Z) : qres Z :=
  a ← index buf o; b ← index buf (o + 1); c ← index buf (o + 2); d ← index buf (o + 3);
  e ← index buf (o + 4); f ← index buf (o + 5); g ← index buf (o + 6); h ← index buf (o + 7);
  Ok (from_be [a; b; c; d; e; f; g; h]).

Section Tokens.
(** ring: the HKDF subkey of a label, HMAC-SHA256, and the two AES-GCM sealing functions. *)
Context (hkdf : bytes → string → bytes).
Context (hmac_sign : bytes → bytes → bytes).
Context (gcm128_seal : bytes → bytes → bytes → bytes → option bytes).
Context (gcm256_seal gcm256_open : bytes → bytes → bytes → bytes → option bytes).

(** ** The integrity tag of Retry packets *)
Definition compute_retry_integrity_tag (original_dcid : ConnectionId) (retry_without_tag : bytes)
    : qres bytes :=
  '(pseudo, _) ← build_retry_pseudo_packet original_dcid retry_without_tag;
  in_out ← ok_or (InvalidPacket (msg "retry integrity tag computation failed"))
    (gcm128_seal RETRY_INTEGRITY_KEY RETRY_INTEGRITY_NONCE pseudo []);
  if len in_out =? RETRY_INTEGRITY_TAG_LEN then Ok in_out else Panic.

Definition verify_retry_integrity_tag (original_dcid : ConnectionId) (retry_with_tag : bytes)
    : qres bool :=
  if len retry_with_tag <? RETRY_INTEGRITY_TAG_LEN then Ok false
  else
    let tag_start := len retry_with_tag - RETRY_INTEGRITY_TAG_LEN in
    without ← slice retry_with_tag 0 tag_start;
    received ← slice_from retry_with_tag tag_start;
    computed ← compute_retry_integrity_tag original_dcid without;
    Ok (bool_decide (received = computed)).

(** ** Retry tokens *)
Definition derive_retry_token_key (secret : bytes) : bytes := hkdf secret "retry-hmac".
Definition derive_new_token_key (secret : bytes) : bytes := hkdf secret "new-token-aead".

Definition encode_retry_token (now : option Z) (client_addr : SocketAddr)
    (original_dcid : ConnectionId) (retry_secret : bytes) : qres bytes :=
  '(token, _) ← build (
    push TOKEN_KIND_RETRY;;
    push (client_ip_version client_addr);;
    extend (client_ip_bytes client_addr);;
    extend (to_be 2 (client_port client_addr));;
    extend (to_be 8 (current_time_ms now));;
    push (as_u8 (cid_len original_dcid));;
    extend (as_slice original_dcid));
  let tag := hmac_sign (derive_retry_token_key retry_secret) token in
  t ← slice tag 0 TOKEN_TAG_LEN;
  Ok (token ++ t).

(** The checks [validate_retry_token] makes on authenticated data. *)
Definition check_retry_data (now : option Z) (data : bytes) (client_addr : SocketAddr)
    : qres RetryTokenValidation :=
  let addr_len := client_addr_len client_addr in
  if negb (bool_decide (data !! 1%nat = Some (client_ip_version client_addr))) then Ok Invalid
  else
    let offset := 2 in
    if len data <? offset + addr_len then Ok Invalid
    else
      a ← slice data offset (offset + addr_len);
      if negb (bool_decide (a = client_ip_bytes client_addr)) then Ok Invalid
      else
        let offset := offset + addr_len in
        if len data <? offset + 2 then Ok Invalid
        else
          p0 ← index data offset; p1 ← index data (offset + 1);
          if negb (from_be [p0; p1] =? client_port client_addr) then Ok Invalid
          else
            let offset := offset + 2 in
            if len data <? offset + 8 then Ok Invalid
            else
              token_timestamp_ms ← read_u64 data offset;
              let offset := offset + 8 in
              match now with
              | None => Ok Invalid
              | Some now_ms =>
                  if (now_ms <? token_timestamp_ms)
                     || (RETRY_TOKEN_MAX_AGE_SECS * 1000 <? now_ms - token_timestamp_ms)
                  then Ok Invalid
                  else
                    match data !! Z.to_nat offset with
                    | None => Ok Invalid
                    | Some dcid_len =>
                        if MAX_CID_LEN <? dcid_len then Ok Invalid
                        else
                          let offset := offset + 1 in
                          if len data <? offset + dcid_len then Ok Invalid
                          else
                            d ← slice data offset (offset + dcid_len);
                            c ← from_slice d;
                            Ok (Valid c)
                    end
              end.

Definition validate_retry_token (now : option Z) (token : bytes) (client_addr : SocketAddr)
    (retry_secret : bytes) : qres RetryTokenValidation :=
  let addr_len := client_addr_len client_addr in
  let min_len := 1 + 1 + addr_len + 2 + 8 + 1 + TOKEN_TAG_LEN in
  if (len token <? min_len) || negb (bool_decide (head token = Some TOKEN_KIND_RETRY)) then
    Ok Unknown
  else
    let tag_start := len token - TOKEN_TAG_LEN in
    data ← slice token 0 tag_start;
    received_tag ← slice_from token tag_start;
    computed ← slice (hmac_sign (derive_retry_token_key retry_secret) data) 0 TOKEN_TAG_LEN;
    if negb (bool_decide (received_tag = computed)) then Ok Unknown
    else check_retry_data now data client_addr.

(** ** NEW_TOKEN tokens; [nonce] is drawn from the random generator *)
Definition encode_new_token (now : option Z) (nonce : bytes) (client_addr : SocketAddr)
    (token_secret : bytes) : qres bytes :=
  '(plaintext, _) ← build (
    push (client_ip_version client_addr);;
    extend (client_ip_bytes client_addr);;
    extend (to_be 8 (current_time_ms now)));
  match gcm256_seal (derive_new_token_key token_secret) nonce [TOKEN_KIND_NEW_TOKEN] plaintext with
  | Some sealed => Ok (TOKEN_KIND_NEW_TOKEN :: nonce ++ sealed)
  | None => Panic
  end.

Definition validate_new_token (now : option Z) (token : bytes) (client_addr : SocketAddr)
    (token_secret : bytes) : qres bool :=
  let addr_len := client_addr_len client_addr in
  let expected_len := 1 + NEW_TOKEN_NONCE_LEN + 1 + addr_len + 8 + TOKEN_TAG_LEN in
  if negb (len token =? expected_len)
     || negb (bool_decide (head token = Some TOKEN_KIND_NEW_TOKEN)) then Ok false
  else
    nonce ← slice token 1 (1 + NEW_TOKEN_NONCE_LEN);
    ciphertext ← slice_from token (1 + NEW_TOKEN_NONCE_LEN);
    match gcm256_open (derive_new_token_key token_secret) nonce [TOKEN_KIND_NEW_TOKEN] ciphertext with
    | None => Ok false
    | Some plaintext =>
        if negb (len plaintext =? 1 + addr_len + 8) then Ok false
        else
          v ← index plaintext 0;
          if negb (v =? client_ip_version client_addr) then Ok false
          else
            a ← slice plaintext 1 (1 + addr_len);
            if negb (bool_decide (a = client_ip_bytes client_addr)) then Ok false
            else
              token_timestamp_ms ← read_u64 plaintext (1 + addr_len);
              match now with
              | None => Ok false
              | Some now_ms =>
                  if (now_ms <? token_timestamp_ms)
                     || (NEW_TOKEN_MAX_AGE_SECS * 1000 <? now_ms - token_timestamp_ms)
                  then Ok false
                  else Ok true
              end
    end.
End Tokens.
