(* ===== verification/RetryProps.v ===== *)
(** * Properties of Retry packets and tokens *)

From S2P Require Import Prelude QuicError Varint Frame FrameProps Packet PacketProps.
From S2P Require Import TransportParams Retry.

Definition addr_wf (a : SocketAddr) : Prop :=
  len (client_ip_bytes a) = client_addr_len a ∧ bytes_ok (client_ip_bytes a) ∧ is_u16 (client_port a).

(** ** Reading integers *)
Lemma read_u64_at buf o v rest : is_u64 v → at_pos buf o (to_be 8 v ++ rest) →
  read_u64 buf o = Ok v ∧ at_pos buf (o + 8) rest.
Proof.
  intros Hv P. assert (from_be (to_be 8 v) = v) as Hf by (apply from_be_to_be_small; unfold_ints; lia).
  assert (at_pos buf (o + 8) rest) as P' by (apply at_pos_app in P; by rewrite len_to_be in P).
  split; [|done]. clear P'. unfold read_u64. revert Hf P. cbn [to_be app]. intros Hf P.
  rewrite (index_at _ _ _ _ P), bind_ok. apply at_pos_cons in P.
  do 7 (rewrite (index_at _ _ _ _ P), bind_ok; apply at_pos_cons in P; rewrite <- Z.add_assoc in P; cbn [Z.add Pos.add Pos.succ] in P).
  by rewrite Hf.
Qed.

Lemma post_read_u64 buf o (Q : Z → Prop) : bytes_ok buf → 0 ≤ o → o + 8 ≤ len buf →
  (∀ v rest, is_u64 v → at_pos buf o (to_be 8 v ++ rest) → Q v) → post Q (read_u64 buf o).
Proof.
  intros Hb ?? HQ. destruct (at_pos_split buf o (o + 8)) as (x & rest & Hx & P & _); [lia..|].
  assert (bytes_ok x) as Hbx.
  { destruct P as [_ P]. apply (bytes_ok_drop (Z.to_nat o)) in Hb. rewrite P in Hb.
    by apply Forall_app in Hb as [? _]. }
  assert (length x = 8%nat) as Hl by (unfold len in Hx; lia).
  assert (is_u64 (from_be x)) as Hv.
  { pose proof (from_be_bound x Hbx) as Hbd. unfold len in Hbd. rewrite Hl in Hbd.
    change (256 ^ Z.of_nat 8) with (2 ^ 64) in Hbd. unfold_ints. lia. }
  assert (to_be 8 (from_be x) = x) as Hto by (rewrite <- Hl; by apply to_be_from_be).
  rewrite <- Hto in P. destruct (read_u64_at _ _ _ _ Hv P) as [-> _]. by eapply HQ.
Qed.

(** [data.get(offset)]. *)
Lemma read_next {A} (buf : list A) o x rest : at_pos buf o (x :: rest) →
  buf !! Z.to_nat o = Some x ∧ at_pos buf (o + 1) rest.
Proof.
  intros P. split; [|by apply at_pos_cons in P]. destruct P as [_ P].
  by rewrite <- (Nat.add_0_r (Z.to_nat o)), <- lookup_drop, P.
Qed.

Section Tokens.
Context (hkdf : bytes → string → bytes).
Context (hmac_sign : bytes → bytes → bytes).
Context (gcm128_seal : bytes → bytes → bytes → bytes → option bytes).
Context (gcm256_seal gcm256_open : bytes → bytes → bytes → bytes → option bytes).

(** HMAC-SHA256 has 32 bytes of output. *)
Hypothesis hmac_len : ∀ k d, len (hmac_sign k d) = 32.

(** The body of a Retry token. *)
Definition retry_body (a : SocketAddr) (ts : Z) (c : ConnectionId) : bytes :=
  [TOKEN_KIND_RETRY; client_ip_version a] ++ client_ip_bytes a ++ to_be 2 (client_port a) ++
  to_be 8 ts ++ [cid_len c] ++ as_slice c.

Definition retry_tag (secret data : bytes) : bytes :=
  take 16 (hmac_sign (derive_retry_token_key hkdf secret) data).

Lemma retry_tag_slice {E} secret data :
  slice (E:=E) (hmac_sign (derive_retry_token_key hkdf secret) data) 0 TOKEN_TAG_LEN =
    Ok (retry_tag secret data).
Proof using hmac_len.
  unfold slice, TOKEN_TAG_LEN. rewrite hmac_len. reflexivity.
Qed.

Lemma len_retry_tag secret data : len (retry_tag secret data) = 16.
Proof using hmac_len.
  unfold retry_tag, len. rewrite length_take. pose proof (hmac_len (derive_retry_token_key hkdf secret) data) as H.
  unfold len in H. lia.
Qed.

Lemma encode_retry_token_eq ts a c secret : cid_wf c →
  encode_retry_token hkdf hmac_sign (Some ts) a c secret =
    Ok (retry_body a ts c ++ retry_tag secret (retry_body a ts c)).
Proof using hmac_len.
  intros Hc. unfold encode_retry_token.
  assert (build (push TOKEN_KIND_RETRY;; push (client_ip_version a);; extend (client_ip_bytes a);;
    extend (to_be 2 (client_port a));; extend (to_be 8 (current_time_ms (Some ts)));;
    push (as_u8 (cid_len c));; extend (as_slice c)) = Ok (retry_body a ts c, tt)) as ->.
  { unfold build, exec. autorewrite with enc. unfold extend, retry_body. rewrite cid_as_u8 by done.
    cbn [app]. by repeat (rewrite <- !app_assoc; cbn [app]). }
  rewrite bind_ok. cbn beta iota zeta. by rewrite retry_tag_slice.
Qed.

Lemma len_retry_body a ts c : addr_wf a → cid_wf c →
  len (retry_body a ts c) = 1 + 1 + client_addr_len a + 2 + 8 + 1 + cid_len c.
Proof.
  intros (Ha & _) (_ & _ & Hc & _). unfold retry_body. autorewrite with len. rewrite Ha, Hc. lia.
Qed.

Lemma validate_retry_eq ts now a c secret : addr_wf a → cid_wf c → is_u64 ts →
  ts ≤ now ≤ ts + 10000 →
  validate_retry_token hkdf hmac_sign (Some now)
    (retry_body a ts c ++ retry_tag secret (retry_body a ts c)) a secret = Ok (Valid c).
Proof using hmac_len.
  intros Ha Hc Hts Hnow. pose proof (len_retry_body a ts c Ha Hc) as Hl. pose proof Ha as (Hip & _ & Hport).
  pose proof Hc as (Hcl & _ & Hcs & _). set (data := retry_body a ts c) in *.
  pose proof (len_retry_tag secret data) as Ht. set (tag := retry_tag secret data) in *.
  assert (0 ≤ client_addr_len a) by (by destruct a).
  unfold validate_retry_token, check_retry_data. rewrite len_app, Hl, Ht. unfold TOKEN_TAG_LEN.
  replace (_ <? _) with false by lia. rewrite bool_decide_true by done. cbn [orb negb].
  replace (1 + 1 + client_addr_len a + 2 + 8 + 1 + cid_len c + 16 - 16) with (len data) by lia.
  rewrite (slice_at (data ++ tag) 0 data tag), bind_ok by (first [apply at_pos_0|lia]).
  rewrite (slice_from_at _ _ tag), bind_ok by apply at_pos_prefix.
  rewrite retry_tag_slice, bind_ok. fold tag. rewrite !bool_decide_true by reflexivity. cbn [negb].
  pose proof (at_pos_0 data) as P. unfold data at 2, retry_body in P.
  apply (at_pos_app _ 0 [TOKEN_KIND_RETRY; client_ip_version a]) in P. pos P 2.
  cbn beta zeta. replace (len data <? 2 + client_addr_len a) with false by lia.
  rewrite (slice_at _ _ _ _ _ P), bind_ok by lia. rewrite bool_decide_true by done. cbn [negb].
  apply at_pos_app in P. rewrite Hip in P.
  replace (len data <? 2 + client_addr_len a + 2) with false by lia.
  assert (from_be (to_be 2 (client_port a)) = client_port a) as Hfp
    by (apply from_be_to_be_small; unfold_ints; lia).
  revert Hfp P. cbn [to_be app]. intros Hfp P.
  rewrite (index_at _ _ _ _ P), bind_ok. apply at_pos_cons in P.
  rewrite (index_at _ _ _ _ P), bind_ok. apply at_pos_cons in P. pos P (2 + client_addr_len a + 2).
  rewrite Hfp, Z.eqb_refl. cbn [negb]. replace (len data <? 2 + client_addr_len a + 2 + 8) with false by lia.
  destruct (read_u64_at _ _ _ _ Hts P) as [-> P']. rewrite bind_ok.
  unfold RETRY_TOKEN_MAX_AGE_SECS. replace (_ || _) with false by lia.
  destruct (read_next _ _ _ _ P') as [-> P2]. replace (MAX_CID_LEN <? cid_len c) with false by lia.
  replace (len data <? _) with false by lia.
  rewrite <- (app_nil_r (as_slice c)) in P2.
  rewrite (slice_at _ _ _ _ _ P2), bind_ok by lia. by rewrite from_slice_as_slice.
Qed.

(** What an accepted token was: authenticated, bound to the address, and fresh. *)
Definition token_authentic (now : option Z) (token : bytes) (a : SocketAddr) (secret : bytes)
    (c : ConnectionId) : Prop :=
  ∃ ts now_ms junk, now = Some now_ms ∧ ts ≤ now_ms ≤ ts + 10000 ∧ cid_wf c ∧
    token = (retry_body a ts c ++ junk) ++ retry_tag secret (retry_body a ts c ++ junk).

(** The end of the checks: the connection ID. *)
Lemma check_cid_post data o r l : bytes_ok data → at_pos data o r → data !! Z.to_nat o = Some l →
  l ≤ MAX_CID_LEN → o + 1 + l ≤ len data →
  post (λ c, cid_wf c ∧ ∃ junk, r = [cid_len c] ++ as_slice c ++ junk)
    (d ← slice (E:=QuicError) data (o + 1) (o + 1 + l); from_slice d).
Proof.
  intros Hb P Hl ??. pose proof (bytes_ok_lookup _ _ _ Hb Hl) as Hu. unfold is_u8 in Hu.
  assert (∃ r', r = l :: r') as [r' ->].
  { destruct P as [? <-]. apply lookup_lt_Some in Hl as Hlt.
    rewrite <- (Nat.add_0_r (Z.to_nat o)), <- lookup_drop in Hl.
    destruct (drop (Z.to_nat o) data); [done|]. injection Hl as ->. by eexists. }
  destruct P as [? P0]. assert (at_pos data o (l :: r')) as P by done. apply at_pos_cons in P.
  apply post_bind with (P := λ d, bytes_ok d ∧ len d = l ∧ ∃ junk, r' = d ++ junk).
  { apply post_slice_at; [lia..|]. intros k rest Hk Pk _. split_and!; [|lia|].
    - destruct Pk as [_ Pk]. apply (bytes_ok_drop (Z.to_nat (o + 1))) in Hb. rewrite Pk in Hb.
      by apply Forall_app in Hb as [? _].
    - exists rest. by eapply at_pos_fun. }
  intros d (Hbd & Hd & junk & ->). eapply post_mono; [apply post_from_slice; [done|lia]|].
  intros c [Hc <-]. split; [done|]. exists junk. destruct Hc as (_ & _ & <- & _). by rewrite Hd.
Qed.

Ltac neg_false H := apply negb_false_iff in H; first [apply bool_decide_eq_true in H | apply Z.eqb_eq in H].

Lemma to_be_2 p0 p1 v : is_u8 p0 → is_u8 p1 → from_be [p0; p1] = v → to_be 2 v = [p0; p1].
Proof. intros ?? <-. apply (to_be_from_be [p0; p1]). by repeat apply Forall_cons_2. Qed.

Lemma at_pos_u8 buf o x r : bytes_ok buf → at_pos buf o (x :: r) → is_u8 x.
Proof.
  intros Hb [_ P]. apply (bytes_ok_drop (Z.to_nat o)) in Hb. rewrite P in Hb. by apply Forall_cons in Hb as [? _].
Qed.

Lemma check_retry_post now data a : bytes_ok data → addr_wf a → head data = Some TOKEN_KIND_RETRY →
  post (λ r, match r with
             | Valid c => ∃ ts now_ms junk, now = Some now_ms ∧ ts ≤ now_ms ≤ ts + 10000 ∧ cid_wf c ∧
                            data = retry_body a ts c ++ junk
             | _ => True end) (check_retry_data now data a).
Proof.
  intros Hb (Hip & _) Hhd. assert (0 ≤ client_addr_len a) by (by destruct a). unfold check_retry_data.
  destruct (negb _) eqn:Hver; [done|]. neg_false Hver. pose proof (at_pos_0 data) as P.
  destruct data as [|x [|y d]] eqn:Ed; [done|done|]. injection Hhd as ->. injection Hver as ->.
  apply (at_pos_app _ 0 [TOKEN_KIND_RETRY; client_ip_version a]) in P. pos P 2. rewrite <- Ed in *.
  cbn beta zeta. destruct (len data <? _) eqn:?; [done|].
  apply post_bind with (P := λ k, len k = client_addr_len a ∧ ∃ r, d = k ++ r).
  { apply post_slice_at; [lia..|]. intros k r Hk Pk _. split; [lia|]. exists r. by eapply at_pos_fun. }
  intros ip [Hlip [r1 ->]]. apply at_pos_app in P. rewrite Hlip in P.
  destruct (negb _) eqn:Hi; [done|]. neg_false Hi. subst ip. destruct (len data <? _ + 2) eqn:?; [done|].
  apply post_bind with (P := λ p, ∃ r, r1 = p :: r).
  { apply post_index_at; [lia|]. intros x r Px. exists r. by eapply at_pos_fun. }
  intros p0 [r2 ->]. apply at_pos_u8 in P as Hp0; [|done]. apply at_pos_cons in P.
  apply post_bind with (P := λ p, ∃ r, r2 = p :: r).
  { apply post_index_at; [lia|]. intros x r Px. exists r. by eapply at_pos_fun. }
  intros p1 [r3 ->]. apply at_pos_u8 in P as Hp1; [|done].
  apply at_pos_cons in P. pos P (2 + client_addr_len a + 2).
  destruct (negb _) eqn:Hp; [done|]. neg_false Hp. destruct (len data <? _ + 8) eqn:?; [done|].
  apply post_bind with (P := λ ts, ∃ r, r3 = to_be 8 ts ++ r).
  { apply post_read_u64; [done|lia|lia|]. intros v r _ Pv. exists r. by eapply at_pos_fun. }
  intros ts [r4 ->]. apply at_pos_app in P. rewrite len_to_be in P. pos P (2 + client_addr_len a + 2 + 8).
  destruct now as [now_ms|]; [|done]. destruct (_ || _) eqn:Hage; [done|]. apply orb_false_iff in Hage as [? ?].
  unfold RETRY_TOKEN_MAX_AGE_SECS in *. destruct (data !! Z.to_nat _) as [l|] eqn:Hl; [|done].
  destruct (MAX_CID_LEN <? l) eqn:?; [done|]. destruct (len data <? _ + l) eqn:?; [done|].
  pose proof (check_cid_post data _ _ l Hb P Hl ltac:(lia) ltac:(lia)) as Hcid.
  destruct (slice _ _ _) as [dd|e| |]; [|done..]. rewrite bind_ok in *.
  eapply post_bind; [exact Hcid|]. intros c [Hc [junk ->]].
  exists ts, now_ms, junk. split_and!; [done|lia|lia|done|]. unfold retry_body.
  rewrite (to_be_2 p0 p1) by done. rewrite Ed. cbn [app]. by repeat (rewrite <- !app_assoc; cbn [app]).
Qed.

Lemma validate_retry_post now token a secret : bytes_ok token → addr_wf a →
  post (λ r, match r with Valid c => token_authentic now token a secret c | _ => True end)
       (validate_retry_token hkdf hmac_sign now token a secret).
Proof using hmac_len.
  intros Hb Ha. assert (0 ≤ client_addr_len a) by (by destruct a).
  unfold validate_retry_token, TOKEN_TAG_LEN. dif; [done|]. apply orb_false_iff in Heqb as [Hlen Hhd].
  neg_false Hhd. destruct (split_at token (len token - 16)) as (data & t & -> & Hld); [lia|].
  rewrite len_app in *. replace (len data + len t - 16) with (len data) by lia.
  rewrite (slice_at _ 0 data t), bind_ok by (first [apply at_pos_0|lia]).
  rewrite (slice_from_at _ _ t), bind_ok by apply at_pos_prefix.
  rewrite retry_tag_slice, bind_ok. dif; [done|]. neg_false Heqb. subst t.
  apply Forall_app in Hb as [Hb _].
  eapply post_mono; [apply check_retry_post; [done|done|]|].
  - destruct data; [rewrite len_nil, len_retry_tag in *; lia|done].
  - intros [c| |]; [|done..]. intros (ts & now_ms & junk & ? & ? & ? & ->). by exists ts, now_ms, junk.
Qed.

(** A Retry token minted by the server for a client address and original connection ID is
    accepted for that address within ten seconds and gives the connection ID back. *)
Theorem retry_token_roundtrip ts now a c secret :
  addr_wf a → cid_wf c → is_u64 ts → ts ≤ now ≤ ts + 10000 →
  ∃ token, encode_retry_token hkdf hmac_sign (Some ts) a c secret = Ok token ∧
           validate_retry_token hkdf hmac_sign (Some now) token a secret = Ok (Valid c).
Proof using hmac_len.
  intros. eexists. split; [by apply encode_retry_token_eq|by apply validate_retry_eq].
Qed.

(** [validate_retry_token] never panics, and a token it accepts carries a tag that the keyed
    MAC gives for its contents, which begin with the client's address and port, a time at
    most ten seconds old, and the connection ID it returns: without a MAC forgery no token
    is accepted for another address, another port or after its lifetime. *)
Theorem retry_token_sound now token a secret :
  bytes_ok token → addr_wf a →
  post (λ r, match r with Valid c => token_authentic now token a secret c | _ => True end)
       (validate_retry_token hkdf hmac_sign now token a secret).
Proof using hmac_len. apply validate_retry_post. Qed.

(** ** Retry packets *)
(** AES-128-GCM appends a tag of 16 bytes to an empty plaintext. *)
Hypothesis gcm128_tag : ∀ k n aad, ∃ tag, gcm128_seal k n aad [] = Some tag ∧ len tag = 16.

Lemma compute_tag_ok odcid pkt : ∃ tag, len tag = 16 ∧
  compute_retry_integrity_tag gcm128_seal odcid pkt = Ok tag.
Proof using gcm128_tag.
  unfold compute_retry_integrity_tag, build_retry_pseudo_packet, build, exec.
  autorewrite with enc. cbn [extend]. rewrite !bind_ok. cbn beta iota.
  match goal with |- context [gcm128_seal ?k ?n ?aad []] => destruct (gcm128_tag k n aad) as (tag & -> & Hl) end.
  cbn [ok_or]. rewrite bind_ok. exists tag. split; [done|]. unfold RETRY_INTEGRITY_TAG_LEN.
  by rewrite Hl.
Qed.

(** A Retry packet with its integrity tag is parsed back to its token and connection IDs,
    and its tag verifies against the original connection ID it was computed for. *)
Theorem retry_packet_roundtrip odcid dcid scid token local :
  cid_wf dcid → cid_wf scid →
  ∃ pkt tag h, encode_retry_packet dcid scid token = Ok (pkt, tt) ∧
    compute_retry_integrity_tag gcm128_seal odcid pkt = Ok tag ∧
    parse_header (pkt ++ tag) local = Ok (HLong h) ∧ lh_packet_type h = Retry ∧
    parse_retry_fields (pkt ++ tag) (lh_header_len h) (lh_dcid h) (lh_scid h) =
      Ok {| rp_dcid := dcid; rp_scid := scid; rp_token := token; rp_integrity_tag := tag |} ∧
    verify_retry_integrity_tag gcm128_seal odcid (pkt ++ tag) = Ok true.
Proof using gcm128_tag.
  intros Hd Hs. set (pkt := long_prefix 0xf0 QUIC_VERSION_1 dcid scid ++ token).
  destruct (compute_tag_ok odcid pkt) as (tag & Hl & Et).
  destruct (parse_header_long local (pkt ++ tag) Retry 1 dcid scid (token ++ tag) ltac:(lia) Hd Hs) as [P E].
  { subst pkt. by rewrite <- app_assoc. }
  exists pkt, tag. eexists. split.
  { unfold encode_retry_packet, build, exec. autorewrite with enc. cbn [extend app].
    subst pkt. unfold long_prefix, cids_bytes. cbn [app]. by repeat (rewrite <- !app_assoc; cbn [app]). }
  split; [done|]. split; [exact E|]. split; [done|].
  cbn [lh_header_len lh_dcid lh_scid]. pose proof (at_pos_len _ _ _ P) as Hlen. rewrite (len_app token) in Hlen.
  pose proof (len_nonneg token). split.
  - unfold parse_retry_fields, RETRY_INTEGRITY_TAG_LEN. replace (_ <? _) with false by lia.
    rewrite (slice_at _ _ token tag _ P), bind_ok by lia.
    rewrite (slice_from_at _ _ tag), bind_ok; [done|]. apply at_pos_app in P. pos P (len (pkt ++ tag) - 16). done.
  - unfold verify_retry_integrity_tag, RETRY_INTEGRITY_TAG_LEN. rewrite len_app, Hl.
    replace (_ <? _) with false by (pose proof (len_nonneg pkt); lia).
    replace (len pkt + 16 - 16) with (len pkt) by lia.
    rewrite (slice_at _ 0 pkt tag), bind_ok by (first [apply at_pos_0|lia]).
    rewrite (slice_from_at _ _ tag), bind_ok by apply at_pos_prefix.
    rewrite Et, bind_ok. by rewrite bool_decide_true.
Qed.

(** ** NEW_TOKEN tokens *)
(** AES-256-GCM opens what it sealed; the sealed text is 16 bytes longer. *)
Hypothesis gcm256_ok : ∀ k n aad p, ∃ c, gcm256_seal k n aad p = Some c ∧ len c = len p + 16 ∧
  gcm256_open k n aad c = Some p.

(** A NEW_TOKEN token is accepted for the client's IP address, from any port, for seven
    days after it was minted, and refused for any other IP address of the same family. *)
Theorem new_token_roundtrip ts now nonce a a' secret :
  addr_wf a → addr_wf a' → client_ip_version a' = client_ip_version a →
  is_u64 ts → len nonce = 12 → ts ≤ now ≤ ts + 604800000 →
  ∃ token, encode_new_token hkdf gcm256_seal (Some ts) nonce a secret = Ok token ∧
    validate_new_token hkdf gcm256_open (Some now) token a' secret =
      Ok (bool_decide (client_ip_bytes a' = client_ip_bytes a)).
Proof using gcm256_ok.
  intros (Hip & _) (Hip' & _) Hv Hts Hn Hnow.
  assert (client_addr_len a' = client_addr_len a ∧ 0 ≤ client_addr_len a) as [Hal ?] by (by destruct a, a').
  set (p := [client_ip_version a] ++ client_ip_bytes a ++ to_be 8 ts).
  assert (len p = 1 + client_addr_len a + 8) as Hp by (subst p; autorewrite with len; rewrite Hip; lia).
  destruct (gcm256_ok (derive_new_token_key hkdf secret) nonce [TOKEN_KIND_NEW_TOKEN] p) as (c & Es & Hc & Eo).
  exists (TOKEN_KIND_NEW_TOKEN :: nonce ++ c). split.
  - unfold encode_new_token.
    assert (build (push (client_ip_version a);; extend (client_ip_bytes a);;
      extend (to_be 8 (current_time_ms (Some ts)))) = Ok (p, tt)) as ->.
    { unfold build, exec. autorewrite with enc. subst p. by rewrite <- app_assoc. }
    rewrite bind_ok; cbn beta iota. by rewrite Es.
  - unfold validate_new_token, NEW_TOKEN_NONCE_LEN, TOKEN_TAG_LEN. rewrite len_cons, len_app, Hn, Hc, Hp, Hal.
    replace (negb _) with false by lia. rewrite bool_decide_true by done. cbn [orb negb].
    pose proof (at_pos_0 (TOKEN_KIND_NEW_TOKEN :: nonce ++ c)) as P. apply at_pos_cons in P. pos P 1.
    rewrite (slice_at _ _ _ _ _ P), bind_ok by lia. apply at_pos_app in P. pos P (1 + 12).
    rewrite (slice_from_at _ _ _ P), bind_ok, Eo, Hp. replace (negb _) with false by lia.
    pose proof (at_pos_0 p) as Q. unfold p at 2 in Q. cbn [app] in Q.
    rewrite (index_at _ _ _ _ Q), bind_ok, Hv, Z.eqb_refl. cbn [negb]. apply at_pos_cons in Q. pos Q 1.
    rewrite (slice_at _ _ _ _ _ Q), bind_ok by lia. 
    rewrite (bool_decide_ext (client_ip_bytes a' = client_ip_bytes a) (client_ip_bytes a = client_ip_bytes a')) by done.
    destruct (bool_decide _) eqn:Hb; cbn [negb]; [|done].
    apply at_pos_app in Q. pos Q (1 + client_addr_len a). rewrite <- (app_nil_r (to_be 8 ts)) in Q.
    destruct (read_u64_at _ _ _ _ Hts Q) as [-> _]. rewrite bind_ok.
    unfold NEW_TOKEN_MAX_AGE_SECS. by replace (_ || _) with false by lia.
Qed.
End Tokens.

(** ** Primitives in miniature *)
Definition toy_hkdf (secret : bytes) (label : string) : bytes := secret.
Definition toy_hmac (k d : bytes) : bytes := replicate 32 (foldr Z.lxor (hd 0 k) d).
Definition toy_seal (k n aad p : bytes) : option bytes := Some (p ++ replicate 16 9).
Definition toy_open (k n aad c : bytes) : option bytes := Some (take (Z.to_nat (len c - 16)) c).

Lemma toy_hmac_len k d : len (toy_hmac k d) = 32.
Proof. unfold toy_hmac. by rewrite len_replicate. Qed.

Lemma toy_gcm_tag k n aad : ∃ tag, toy_seal k n aad [] = Some tag ∧ len tag = 16.
Proof. by eexists. Qed.

Lemma toy_gcm_ok k n aad p : ∃ c, toy_seal k n aad p = Some c ∧ len c = len p + 16 ∧ toy_open k n aad c = Some p.
Proof.
  eexists. split; [done|]. rewrite len_app, len_replicate. split; [done|]. unfold toy_open.
  rewrite len_app, len_replicate. replace (len p + Z.of_nat 16 - 16) with (len p) by lia.
  f_equal. unfold len. by rewrite Nat2Z.id, take_app_length.
Qed.

Definition sample_addr : SocketAddr := SocketV4 [192; 0; 2; 7] 4433.

Lemma sample_addr_wf : addr_wf sample_addr.
Proof. split_and!; [done|bytes_dec|unfold_ints; cbn; lia]. Qed.

Lemma retry_token_roundtrip_witness :
  ∃ token, encode_retry_token toy_hkdf toy_hmac (Some 1000) sample_addr sample_dcid [5] = Ok token ∧
    validate_retry_token toy_hkdf toy_hmac (Some 9000) token sample_addr [5] = Ok (Valid sample_dcid).
Proof.
  apply (retry_token_roundtrip toy_hkdf toy_hmac toy_hmac_len 1000 9000 sample_addr sample_dcid [5]).
  - exact sample_addr_wf.
  - exact sample_dcid_wf.
  - unfold_ints; lia.
  - lia.
Defined.

(** An expired token and one from another port are invalid, a tampered one is unknown. *)
Definition sample_token : bytes :=
  [0; 4; 192; 0; 2; 7; 17; 81; 0; 0; 0; 0; 0; 0; 3; 232; 3; 7; 8; 9] ++ replicate 16 106.

Lemma retry_token_sound_witness :
  token_authentic toy_hkdf toy_hmac (Some 9000) sample_token sample_addr [5] sample_dcid ∧
  validate_retry_token toy_hkdf toy_hmac (Some 11001) sample_token sample_addr [5] = Ok Invalid ∧
  validate_retry_token toy_hkdf toy_hmac (Some 9000) sample_token (SocketV4 [192; 0; 2; 7] 4434) [5] = Ok Invalid ∧
  validate_retry_token toy_hkdf toy_hmac (Some 9000) sample_token sample_addr [6] = Ok Unknown.
Proof.
  assert (bytes_ok sample_token) as Hb by (cbv [sample_token app replicate]; bytes_dec).
  split; [|split; [|split]]; [|vm_compute; reflexivity..].
  pose proof (retry_token_sound toy_hkdf toy_hmac toy_hmac_len (Some 9000) sample_token sample_addr [5] Hb sample_addr_wf) as H.
  assert (validate_retry_token toy_hkdf toy_hmac (Some 9000) sample_token sample_addr [5] = Ok (Valid sample_dcid)) as E
    by (vm_compute; reflexivity).
  rewrite E in H. exact H.
Defined.

Lemma retry_packet_roundtrip_witness :
  ∃ pkt tag h, encode_retry_packet sample_dcid sample_scid [1; 2] = Ok (pkt, tt) ∧
    compute_retry_integrity_tag toy_seal sample_dcid pkt = Ok tag ∧
    parse_header (pkt ++ tag) 8 = Ok (HLong h) ∧ lh_packet_type h = Retry ∧
    parse_retry_fields (pkt ++ tag) (lh_header_len h) (lh_dcid h) (lh_scid h) =
      Ok {| rp_dcid := sample_dcid; rp_scid := sample_scid; rp_token := [1; 2]; rp_integrity_tag := tag |} ∧
    verify_retry_integrity_tag toy_seal sample_dcid (pkt ++ tag) = Ok true.
Proof.
  exact (retry_packet_roundtrip toy_seal toy_gcm_tag sample_dcid sample_dcid sample_scid [1; 2] 8
    sample_dcid_wf sample_scid_wf).
Defined.

Lemma new_token_roundtrip_witness :
  ∃ token, encode_new_token toy_hkdf toy_seal (Some 1000) (replicate 12 3) sample_addr [5] = Ok token ∧
    validate_new_token toy_hkdf toy_open (Some 500000000) token (SocketV4 [192; 0; 2; 7] 1) [5] =
      Ok (bool_decide ([192; 0; 2; 7] = [192; 0; 2; 7])).
Proof.
  apply (new_token_roundtrip toy_hkdf toy_seal toy_open toy_gcm_ok 1000 500000000 (replicate 12 3)
    sample_addr (SocketV4 [192; 0; 2; 7] 1) [5]).
  - exact sample_addr_wf.
  - split_and!; [done|bytes_dec|unfold_ints; cbn; lia].
  - reflexivity.
  - unfold_ints; lia.
  - reflexivity.
  - lia.
Defined.
