(* ===== verification/FlowControl.v ===== *)
(** * Flow control (starfish-quic/src/transport/flow_control.rs, RFC 9000 section 4)

    Connection-level and stream-level credit.  The sums of the source are
    checked additions: [add_u64] panics on overflow. *)

From S2P Require Import Prelude QuicError.

(** ** Connection level *)
Module Conn.

Record ConnectionFlowControl := {
  send_max : Z;
  sent : Z;
  recv_max : Z;
  received : Z;
  initial_window : Z;
}.

Definition new (initial_send_max initial_recv_max : Z) : ConnectionFlowControl := {|
  send_max := initial_send_max; sent := 0; recv_max := initial_recv_max;
  received := 0; initial_window := initial_recv_max |}.

Definition send_window (f : ConnectionFlowControl) : Z := saturating_sub (send_max f) (sent f).

Definition on_data_sent (f : ConnectionFlowControl) (n : Z) : qres ConnectionFlowControl :=
  s ← add_u64 (sent f) n;
  Ok {| send_max := send_max f; sent := s; recv_max := recv_max f;
        received := received f; initial_window := initial_window f |}.

Definition set_send_max (f : ConnectionFlowControl) (new_max : Z) : ConnectionFlowControl :=
  {| send_max := new_max; sent := sent f; recv_max := recv_max f;
     received := received f; initial_window := initial_window f |}.

Definition update_send_max (f : ConnectionFlowControl) (new_max : Z) : ConnectionFlowControl :=
  if send_max f <? new_max then set_send_max f new_max else f.

Definition on_data_received (f : ConnectionFlowControl) (n : Z) : qres ConnectionFlowControl :=
  r ← add_u64 (received f) n;
  Ok {| send_max := send_max f; sent := sent f; recv_max := recv_max f;
        received := r; initial_window := initial_window f |}.

Definition should_send_max_data (f : ConnectionFlowControl) : qres (option Z) :=
  let threshold := saturating_sub (recv_max f) (initial_window f / 2) in
  if threshold <=? received f then
    m ← add_u64 (received f) (initial_window f); Ok (Some m)
  else Ok None.

Definition commit_max_data (f : ConnectionFlowControl) (new_max : Z) : ConnectionFlowControl :=
  {| send_max := send_max f; sent := sent f; recv_max := new_max;
     received := received f; initial_window := initial_window f |}.

Definition update_from_data_blocked (f : ConnectionFlowControl) (blocked_at : Z)
    : option Z * ConnectionFlowControl :=
  if blocked_at <? recv_max f then (Some (recv_max f), f)
  else
    let new_max := saturating_add_u64 (recv_max f) (initial_window f) in
    let f := if recv_max f <? new_max then commit_max_data f new_max else f in
    (Some (recv_max f), f).

Definition check_recv_limit (f : ConnectionFlowControl) : bool := received f <=? recv_max f.

End Conn.

(** ** Stream level: [received] is the highest offset seen *)
Module Strm.

Record StreamFlowControl := {
  send_max : Z;
  sent : Z;
  recv_max : Z;
  received : Z;
  initial_window : Z;
}.

Definition new (initial_send_max initial_recv_max : Z) : StreamFlowControl := {|
  send_max := initial_send_max; sent := 0; recv_max := initial_recv_max;
  received := 0; initial_window := initial_recv_max |}.

Definition send_window (f : StreamFlowControl) : Z := saturating_sub (send_max f) (sent f).

Definition on_data_sent (f : StreamFlowControl) (n : Z) : qres StreamFlowControl :=
  s ← add_u64 (sent f) n;
  Ok {| send_max := send_max f; sent := s; recv_max := recv_max f;
        received := received f; initial_window := initial_window f |}.

Definition set_send_max (f : StreamFlowControl) (new_max : Z) : StreamFlowControl :=
  {| send_max := new_max; sent := sent f; recv_max := recv_max f;
     received := received f; initial_window := initial_window f |}.

Definition update_send_max (f : StreamFlowControl) (new_max : Z) : StreamFlowControl :=
  if send_max f <? new_max then set_send_max f new_max else f.

(** The number of new bytes, to be charged to the connection. *)
Definition on_data_received (f : StreamFlowControl) (offset n : Z) : qres (Z * StreamFlowControl) :=
  stop ← add_u64 offset n;
  if received f <? stop then
    delta ← sub_u64 stop (received f);
    Ok (delta, {| send_max := send_max f; sent := sent f; recv_max := recv_max f;
                  received := stop; initial_window := initial_window f |})
  else Ok (0, f).

Definition should_send_max_stream_data (f : StreamFlowControl) : qres (option Z) :=
  let threshold := saturating_sub (recv_max f) (initial_window f / 2) in
  if threshold <=? received f then
    m ← add_u64 (received f) (initial_window f); Ok (Some m)
  else Ok None.

Definition commit_max_stream_data (f : StreamFlowControl) (new_max : Z) : StreamFlowControl :=
  {| send_max := send_max f; sent := sent f; recv_max := new_max;
     received := received f; initial_window := initial_window f |}.

Definition update_from_stream_data_blocked (f : StreamFlowControl) (blocked_at : Z)
    : option Z * StreamFlowControl :=
  if blocked_at <? recv_max f then (Some (recv_max f), f)
  else
    let new_max := saturating_add_u64 (recv_max f) (initial_window f) in
    let f := if recv_max f <? new_max then commit_max_stream_data f new_max else f in
    (Some (recv_max f), f).

Definition check_recv_limit (f : StreamFlowControl) : bool := received f <=? recv_max f.

Definition received_max_offset (f : StreamFlowControl) : Z := received f.

End Strm.
