(* ===== verification/Streams.v ===== *)
(** * Streams (starfish-quic/src/transport/stream_manager.rs, RFC 9000 sections 2 and 3)

    Stream identifiers, the per-stream record and the manager that opens,
    accepts and retires streams.  The hash maps of the source are [gmap]s. *)

From S2P Require Import Prelude QuicError FlowControl.

Abbreviation StreamId := Z.

Inductive StreamInitiator := InitClient | InitServer.

Inductive StreamDirection := Bidirectional | Unidirectional.

Inductive SendState :=
  | SReady | SSend | SDataSent | SResetSent | SDataRecvd | SResetRecvd.

Inductive RecvState :=
  | RRecv | RSizeKnown | RDataRecvd | RResetRecvd | RDataRead | RResetRead.

Inductive Side := Client | Server.

#[export] Instance StreamDirection_eq_dec : EqDecision StreamDirection.
Proof. solve_decision. Defined.
#[export] Instance SendState_eq_dec : EqDecision SendState.
Proof. solve_decision. Defined.
#[export] Instance RecvState_eq_dec : EqDecision RecvState.
Proof. solve_decision. Defined.
#[export] Instance Side_eq_dec : EqDecision Side.
Proof. solve_decision. Defined.

(** Per-stream state; [recv_buf] maps an offset to the bytes that start there. *)
Record StreamState := {
  st_id : StreamId;
  st_send : option SendState;
  st_recv : option RecvState;
  flow_control : Strm.StreamFlowControl;
  recv_buf : gmap Z bytes;
  recv_offset : Z;
  final_size : option Z;
  reset_error_code : option Z;
  send_offset : Z;
  fin_sent : bool;
  acked_send_ranges : list (Z * Z);
  fin_acked : bool;
}.

Definition stream_new (id : StreamId) (direction : StreamDirection) (is_local : bool)
    (initial_send_max initial_recv_max : Z) : StreamState :=
  let '(snd, rcv) := match direction with
    | Bidirectional => (Some SReady, Some RRecv)
    | Unidirectional => if is_local then (Some SReady, None) else (None, Some RRecv)
    end in
  {| st_id := id; st_send := snd; st_recv := rcv;
     flow_control := Strm.new initial_send_max initial_recv_max;
     recv_buf := ∅; recv_offset := 0; final_size := None; reset_error_code := None;
     send_offset := 0; fin_sent := false; acked_send_ranges := []; fin_acked := false |}.

(** Field updates. *)
Definition set_send (v : option SendState) (s : StreamState) : StreamState :=
  {| st_id := st_id s; st_send := v; st_recv := st_recv s; flow_control := flow_control s;
     recv_buf := recv_buf s; recv_offset := recv_offset s; final_size := final_size s;
     reset_error_code := reset_error_code s; send_offset := send_offset s;
     fin_sent := fin_sent s; acked_send_ranges := acked_send_ranges s; fin_acked := fin_acked s |}.
Definition set_recv (v : option RecvState) (s : StreamState) : StreamState :=
  {| st_id := st_id s; st_send := st_send s; st_recv := v; flow_control := flow_control s;
     recv_buf := recv_buf s; recv_offset := recv_offset s; final_size := final_size s;
     reset_error_code := reset_error_code s; send_offset := send_offset s;
     fin_sent := fin_sent s; acked_send_ranges := acked_send_ranges s; fin_acked := fin_acked s |}.
Definition set_flow (v : Strm.StreamFlowControl) (s : StreamState) : StreamState :=
  {| st_id := st_id s; st_send := st_send s; st_recv := st_recv s; flow_control := v;
     recv_buf := recv_buf s; recv_offset := recv_offset s; final_size := final_size s;
     reset_error_code := reset_error_code s; send_offset := send_offset s;
     fin_sent := fin_sent s; acked_send_ranges := acked_send_ranges s; fin_acked := fin_acked s |}.
Definition set_recv_buf (v : gmap Z bytes) (off : Z) (s : StreamState) : StreamState :=
  {| st_id := st_id s; st_send := st_send s; st_recv := st_recv s; flow_control := flow_control s;
     recv_buf := v; recv_offset := off; final_size := final_size s;
     reset_error_code := reset_error_code s; send_offset := send_offset s;
     fin_sent := fin_sent s; acked_send_ranges := acked_send_ranges s; fin_acked := fin_acked s |}.
Definition set_final (v : option Z) (e : option Z) (s : StreamState) : StreamState :=
  {| st_id := st_id s; st_send := st_send s; st_recv := st_recv s; flow_control := flow_control s;
     recv_buf := recv_buf s; recv_offset := recv_offset s; final_size := v;
     reset_error_code := e; send_offset := send_offset s;
     fin_sent := fin_sent s; acked_send_ranges := acked_send_ranges s; fin_acked := fin_acked s |}.
Definition set_sent (off : Z) (fin : bool) (s : StreamState) : StreamState :=
  {| st_id := st_id s; st_send := st_send s; st_recv := st_recv s; flow_control := flow_control s;
     recv_buf := recv_buf s; recv_offset := recv_offset s; final_size := final_size s;
     reset_error_code := reset_error_code s; send_offset := off;
     fin_sent := fin; acked_send_ranges := acked_send_ranges s; fin_acked := fin_acked s |}.
Definition set_acked (v : list (Z * Z)) (fin : bool) (s : StreamState) : StreamState :=
  {| st_id := st_id s; st_send := st_send s; st_recv := st_recv s; flow_control := flow_control s;
     recv_buf := recv_buf s; recv_offset := recv_offset s; final_size := final_size s;
     reset_error_code := reset_error_code s; send_offset := send_offset s;
     fin_sent := fin_sent s; acked_send_ranges := v; fin_acked := fin |}.

(** ** Acknowledged ranges *)

(** One turn of the merging loop; [merged] holds the last range first. *)
Definition merge_range (merged : list (Z * Z)) (r : Z * Z) : list (Z * Z) :=
  match merged with
  | (last_start, last_end) :: older =>
      if r.1 <=? last_end then (last_start, Z.max last_end r.2) :: older else r :: merged
  | [] => [r]
  end.

Definition acknowledge_sent_data (s : StreamState) (offset n : Z) (fin : bool) : qres StreamState :=
  stop ← add_u64 offset n;
  let ranges :=
    if offset <? stop then
      rev (foldl merge_range [] (merge_sort by_start (acked_send_ranges s ++ [(offset, stop)])))
    else acked_send_ranges s in
  Ok (set_acked ranges (fin_acked s || fin) s).

Fixpoint covered_to (covered_end send_offset : Z) (ranges : list (Z * Z)) : bool :=
  match ranges with
  | [] => false
  | (range_start, range_end) :: rest =>
      if covered_end <? range_start then false
      else
        let covered_end := Z.max covered_end range_end in
        if send_offset <=? covered_end then true else covered_to covered_end send_offset rest
  end.

Definition all_sent_data_acked (s : StreamState) : bool :=
  if negb (fin_sent s) || negb (fin_acked s) then false
  else if send_offset s =? 0 then true
  else covered_to 0 (send_offset s) (acked_send_ranges s).

(** ** Stream identifiers *)

Definition stream_initiator (id : StreamId) : StreamInitiator :=
  if Z.land id 0x01 =? 0 then InitClient else InitServer.

Definition stream_direction (id : StreamId) : StreamDirection :=
  if Z.land id 0x02 =? 0 then Bidirectional else Unidirectional.

(** ** The manager *)

Record StreamManager := {
  streams : gmap StreamId StreamState;
  side : Side;
  next_bidi_id : StreamId;
  next_uni_id : StreamId;
  max_bidi_streams : Z;
  max_uni_streams : Z;
  bidi_opened : Z;
  uni_opened : Z;
  local_max_bidi_streams : Z;
  local_max_uni_streams : Z;
  advertised_local_max_bidi_streams : Z;
  advertised_local_max_uni_streams : Z;
  remote_bidi_opened : Z;
  remote_uni_opened : Z;
  local_bidi_local_recv_max : Z;
  local_bidi_remote_recv_max : Z;
  local_uni_recv_max : Z;
  peer_bidi_local_send_max : Z;
  peer_bidi_remote_send_max : Z;
  peer_uni_send_max : Z;
}.

Definition manager_new (sd : Side) (max_bidi max_uni initial_flow : Z) : StreamManager :=
  let '(next_bidi, next_uni) := match sd with Client => (0, 2) | Server => (1, 3) end in
  {| streams := ∅; side := sd; next_bidi_id := next_bidi; next_uni_id := next_uni;
     max_bidi_streams := max_bidi; max_uni_streams := max_uni;
     bidi_opened := 0; uni_opened := 0;
     local_max_bidi_streams := max_bidi; local_max_uni_streams := max_uni;
     advertised_local_max_bidi_streams := max_bidi;
     advertised_local_max_uni_streams := max_uni;
     remote_bidi_opened := 0; remote_uni_opened := 0;
     local_bidi_local_recv_max := initial_flow; local_bidi_remote_recv_max := initial_flow;
     local_uni_recv_max := initial_flow; peer_bidi_local_send_max := initial_flow;
     peer_bidi_remote_send_max := initial_flow; peer_uni_send_max := initial_flow |}.

(** The same manager with another stream table. *)
Definition with_streams (m : StreamManager) (t : gmap StreamId StreamState) : StreamManager :=
  {| streams := t; side := side m; next_bidi_id := next_bidi_id m; next_uni_id := next_uni_id m;
     max_bidi_streams := max_bidi_streams m; max_uni_streams := max_uni_streams m;
     bidi_opened := bidi_opened m; uni_opened := uni_opened m;
     local_max_bidi_streams := local_max_bidi_streams m;
     local_max_uni_streams := local_max_uni_streams m;
     advertised_local_max_bidi_streams := advertised_local_max_bidi_streams m;
     advertised_local_max_uni_streams := advertised_local_max_uni_streams m;
     remote_bidi_opened := remote_bidi_opened m; remote_uni_opened := remote_uni_opened m;
     local_bidi_local_recv_max := local_bidi_local_recv_max m;
     local_bidi_remote_recv_max := local_bidi_remote_recv_max m;
     local_uni_recv_max := local_uni_recv_max m;
     peer_bidi_local_send_max := peer_bidi_local_send_max m;
     peer_bidi_remote_send_max := peer_bidi_remote_send_max m;
     peer_uni_send_max := peer_uni_send_max m |}.

(** ... with other limits on the streams this endpoint may open and on its
    count and next identifiers. *)
Definition with_local_open (m : StreamManager) (nb nu ob ou : Z) : StreamManager :=
  {| streams := streams m; side := side m; next_bidi_id := nb; next_uni_id := nu;
     max_bidi_streams := max_bidi_streams m; max_uni_streams := max_uni_streams m;
     bidi_opened := ob; uni_opened := ou;
     local_max_bidi_streams := local_max_bidi_streams m;
     local_max_uni_streams := local_max_uni_streams m;
     advertised_local_max_bidi_streams := advertised_local_max_bidi_streams m;
     advertised_local_max_uni_streams := advertised_local_max_uni_streams m;
     remote_bidi_opened := remote_bidi_opened m; remote_uni_opened := remote_uni_opened m;
     local_bidi_local_recv_max := local_bidi_local_recv_max m;
     local_bidi_remote_recv_max := local_bidi_remote_recv_max m;
     local_uni_recv_max := local_uni_recv_max m;
     peer_bidi_local_send_max := peer_bidi_local_send_max m;
     peer_bidi_remote_send_max := peer_bidi_remote_send_max m;
     peer_uni_send_max := peer_uni_send_max m |}.

Definition with_peer_max (m : StreamManager) (mb mu : Z) : StreamManager :=
  {| streams := streams m; side := side m; next_bidi_id := next_bidi_id m;
     next_uni_id := next_uni_id m;
     max_bidi_streams := mb; max_uni_streams := mu;
     bidi_opened := bidi_opened m; uni_opened := uni_opened m;
     local_max_bidi_streams := local_max_bidi_streams m;
     local_max_uni_streams := local_max_uni_streams m;
     advertised_local_max_bidi_streams := advertised_local_max_bidi_streams m;
     advertised_local_max_uni_streams := advertised_local_max_uni_streams m;
     remote_bidi_opened := remote_bidi_opened m; remote_uni_opened := remote_uni_opened m;
     local_bidi_local_recv_max := local_bidi_local_recv_max m;
     local_bidi_remote_recv_max := local_bidi_remote_recv_max m;
     local_uni_recv_max := local_uni_recv_max m;
     peer_bidi_local_send_max := peer_bidi_local_send_max m;
     peer_bidi_remote_send_max := peer_bidi_remote_send_max m;
     peer_uni_send_max := peer_uni_send_max m |}.

(** ... with other counters of the streams the peer may open and has opened. *)
Definition with_remote (m : StreamManager) (lb lu ab au rb ru : Z) : StreamManager :=
  {| streams := streams m; side := side m; next_bidi_id := next_bidi_id m;
     next_uni_id := next_uni_id m;
     max_bidi_streams := max_bidi_streams m; max_uni_streams := max_uni_streams m;
     bidi_opened := bidi_opened m; uni_opened := uni_opened m;
     local_max_bidi_streams := lb; local_max_uni_streams := lu;
     advertised_local_max_bidi_streams := ab; advertised_local_max_uni_streams := au;
     remote_bidi_opened := rb; remote_uni_opened := ru;
     local_bidi_local_recv_max := local_bidi_local_recv_max m;
     local_bidi_remote_recv_max := local_bidi_remote_recv_max m;
     local_uni_recv_max := local_uni_recv_max m;
     peer_bidi_local_send_max := peer_bidi_local_send_max m;
     peer_bidi_remote_send_max := peer_bidi_remote_send_max m;
     peer_uni_send_max := peer_uni_send_max m |}.

Definition local_initiated (sd : Side) (id : StreamId) : bool :=
  match sd, stream_initiator id with
  | Client, InitClient | Server, InitServer => true
  | _, _ => false
  end.

Definition is_local_initiated (m : StreamManager) (id : StreamId) : bool :=
  local_initiated (side m) id.

Definition remote_base (sd : Side) (direction : StreamDirection) : StreamId :=
  match sd, direction with
  | Client, Bidirectional => 1
  | Client, Unidirectional => 3
  | Server, Bidirectional => 0
  | Server, Unidirectional => 2
  end.

Definition remote_stream_base (m : StreamManager) (direction : StreamDirection) : StreamId :=
  remote_base (side m) direction.

Definition initial_limits_for_stream (m : StreamManager) (id : StreamId) (is_local : bool)
    : Z * Z :=
  match stream_direction id, is_local with
  | Bidirectional, true => (peer_bidi_remote_send_max m, local_bidi_local_recv_max m)
  | Bidirectional, false => (peer_bidi_local_send_max m, local_bidi_remote_recv_max m)
  | Unidirectional, true => (peer_uni_send_max m, 0)
  | Unidirectional, false => (0, local_uni_recv_max m)
  end.

Definition apply_peer_initial_limits (m : StreamManager)
    (bidi_local_send_max bidi_remote_send_max uni_send_max max_bidi max_uni : Z)
    : StreamManager :=
  let limit id :=
    match stream_direction id, local_initiated (side m) id with
    | Bidirectional, true => bidi_remote_send_max
    | Bidirectional, false => bidi_local_send_max
    | Unidirectional, true => uni_send_max
    | Unidirectional, false => 0
    end in
  {| streams := map_imap
       (λ id s, Some (set_flow (Strm.set_send_max (flow_control s) (limit id)) s)) (streams m);
     side := side m; next_bidi_id := next_bidi_id m; next_uni_id := next_uni_id m;
     max_bidi_streams := max_bidi; max_uni_streams := max_uni;
     bidi_opened := bidi_opened m; uni_opened := uni_opened m;
     local_max_bidi_streams := local_max_bidi_streams m;
     local_max_uni_streams := local_max_uni_streams m;
     advertised_local_max_bidi_streams := advertised_local_max_bidi_streams m;
     advertised_local_max_uni_streams := advertised_local_max_uni_streams m;
     remote_bidi_opened := remote_bidi_opened m; remote_uni_opened := remote_uni_opened m;
     local_bidi_local_recv_max := local_bidi_local_recv_max m;
     local_bidi_remote_recv_max := local_bidi_remote_recv_max m;
     local_uni_recv_max := local_uni_recv_max m;
     peer_bidi_local_send_max := bidi_local_send_max;
     peer_bidi_remote_send_max := bidi_remote_send_max;
     peer_uni_send_max := uni_send_max |}.

Definition open_bidi : stM StreamManager QuicError StreamId :=
  m ← gets (λ m, m);
  if max_bidi_streams m <=? bidi_opened m then
    fail (Transport StreamLimitError (msg "bidirectional stream limit reached"))
  else
    let id := next_bidi_id m in
    next ← lift (add_u64 id 4);
    opened ← lift (add_u64 (bidi_opened m) 1);
    _ ← modify (λ m, with_local_open m next (next_uni_id m) opened (uni_opened m));
    _ ← modify (λ m, with_streams m (<[id := stream_new id Bidirectional true
          (peer_bidi_remote_send_max m) (local_bidi_local_recv_max m)]> (streams m)));
    mret id.

Definition open_uni : stM StreamManager QuicError StreamId :=
  m ← gets (λ m, m);
  if max_uni_streams m <=? uni_opened m then
    fail (Transport StreamLimitError (msg "unidirectional stream limit reached"))
  else
    let id := next_uni_id m in
    next ← lift (add_u64 id 4);
    opened ← lift (add_u64 (uni_opened m) 1);
    _ ← modify (λ m, with_local_open m (next_bidi_id m) next (bidi_opened m) opened);
    _ ← modify (λ m, with_streams m (<[id := stream_new id Unidirectional true
          (peer_uni_send_max m) 0]> (streams m)));
    mret id.

Definition insert_remote (m : StreamManager) (direction : StreamDirection) (base index : Z)
    (t : gmap StreamId StreamState) : gmap StreamId StreamState :=
  let stream_id := base + index * 4 in
  let '(initial_send_max, initial_recv_max) := initial_limits_for_stream m stream_id false in
  <[stream_id := stream_new stream_id direction false initial_send_max initial_recv_max]> t.

Definition accept_stream (id : StreamId) : stM StreamManager QuicError unit :=
  m ← gets (λ m, m);
  if bool_decide (is_Some (streams m !! id)) then mret tt
  else if is_local_initiated m id then
    fail (Transport StreamStateError (Msg "stream {id} is locally initiated" [id]))
  else
    let direction := stream_direction id in
    let base := remote_stream_base m direction in
    if negb (id mod 4 =? base mod 4) then
      fail (Transport StreamStateError
              (Msg "stream {id} does not match remote stream numbering" [id]))
    else
      ordinal ← lift (ok_or (Transport StreamStateError
                   (Msg "stream {id} is below remote stream base {base}" [id; base]))
                   (checked_sub id base));
      let opened := ordinal / 4 + 1 in
      let '(limit, already_opened) := match direction with
        | Bidirectional => (local_max_bidi_streams m, remote_bidi_opened m)
        | Unidirectional => (local_max_uni_streams m, remote_uni_opened m)
        end in
      if limit <? opened then
        fail (Transport StreamLimitError
                (Msg "stream {id} exceeds remote stream limit {limit}" [id; limit]))
      else if opened <=? already_opened then mret tt
      else
        _ ← modify (λ m, with_streams m
              (foldl (λ t index, insert_remote m direction base index t)
                 (streams m) (seqZ already_opened (opened - already_opened))));
        modify (λ m, match direction with
          | Bidirectional =>
              with_remote m (local_max_bidi_streams m) (local_max_uni_streams m)
                (advertised_local_max_bidi_streams m) (advertised_local_max_uni_streams m)
                opened (remote_uni_opened m)
          | Unidirectional =>
              with_remote m (local_max_bidi_streams m) (local_max_uni_streams m)
                (advertised_local_max_bidi_streams m) (advertised_local_max_uni_streams m)
                (remote_bidi_opened m) opened
          end).

Definition update_max_bidi_streams (m : StreamManager) (max : Z) : StreamManager :=
  if max_bidi_streams m <? max then with_peer_max m max (max_uni_streams m) else m.

Definition update_max_uni_streams (m : StreamManager) (max : Z) : StreamManager :=
  if max_uni_streams m <? max then with_peer_max m (max_bidi_streams m) max else m.

Definition take_max_streams_updates (m : StreamManager)
    : (option Z * option Z) * StreamManager :=
  let bidi := if advertised_local_max_bidi_streams m <? local_max_bidi_streams m
              then Some (local_max_bidi_streams m) else None in
  let uni := if advertised_local_max_uni_streams m <? local_max_uni_streams m
             then Some (local_max_uni_streams m) else None in
  ((bidi, uni),
   with_remote m (local_max_bidi_streams m) (local_max_uni_streams m)
     (default (advertised_local_max_bidi_streams m) bidi)
     (default (advertised_local_max_uni_streams m) uni)
     (remote_bidi_opened m) (remote_uni_opened m)).

Definition local_max_streams (m : StreamManager) (bidirectional : bool) : Z :=
  if bidirectional then local_max_bidi_streams m else local_max_uni_streams m.

(** Remotely initiated streams of one direction with buffered data. *)
Definition incoming (m : StreamManager) (bit1 : Z) (id : StreamId) (s : StreamState) : bool :=
  let remote_initiator := match side m with Client => 1 | Server => 0 end in
  (Z.land id 0x01 =? remote_initiator) && (Z.land id 0x02 =? bit1)
  && negb (bool_decide (recv_buf s = ∅)).

(** The order of a hash map's iteration is not specified: the source returns
    some such stream, and none only when there is none. *)
Definition find_incoming_bidi (m : StreamManager) (r : option StreamId) : Prop :=
  match r with
  | Some id => ∃ s, streams m !! id = Some s ∧ incoming m 0 id s = true
  | None => ∀ id s, streams m !! id = Some s → incoming m 0 id s = false
  end.

Definition incoming_uni_ids (m : StreamManager) : list StreamId :=
  merge_sort Z.le
    (omap (λ '(id, s), if incoming m 0x02 id s then Some id else None)
       (map_to_list (streams m))).

Definition find_incoming_uni (m : StreamManager) : option StreamId := head (incoming_uni_ids m).

Definition active_count (m : StreamManager) : nat := size (streams m).

Definition closed (s : StreamState) : bool :=
  let send_done := match st_send s with
    | Some SDataRecvd | Some SResetRecvd | None => true | _ => false end in
  let recv_done := match st_recv s with
    | Some RDataRead | Some RResetRead | None => true | _ => false end in
  send_done && recv_done.

(** Remotely initiated streams of a direction. *)
Definition is_remote (sd : Side) (direction : StreamDirection) (id : StreamId) : bool :=
  negb (local_initiated sd id) && bool_decide (stream_direction id = direction).

Definition gc_closed_streams (m : StreamManager) : nat * StreamManager :=
  let dead := filter (λ '(_, s), closed s = true) (streams m) in
  let live := filter (λ '(_, s), closed s = false) (streams m) in
  let retired d :=
    Z.of_nat (size (filter (λ '(id, _), is_remote (side m) d id = true) dead)) in
  let m' := with_streams m live in
  ((size (streams m) - size live)%nat,
   with_remote m'
     (saturating_add_u64 (local_max_bidi_streams m) (retired Bidirectional))
     (saturating_add_u64 (local_max_uni_streams m) (retired Unidirectional))
     (advertised_local_max_bidi_streams m) (advertised_local_max_uni_streams m)
     (remote_bidi_opened m) (remote_uni_opened m)).
