(* ===== verification/StreamsProps.v ===== *)
(** * The stream manager: numbering, limits and acknowledged ranges

    The operations of the manager in any order keep its numbering sound and
    never let the peer have more streams open than the limit it was given;
    the sorted list of acknowledged ranges represents the set of acknowledged
    bytes. *)

From S2P Require Import Prelude QuicError FlowControl Streams.

(** ** Identifiers *)

Lemma land_mod4 x y : 0 ≤ y < 4 → Z.land x y = Z.land (x mod 4) y.
Proof.
  intros Hy. change 4 with (2 ^ 2). rewrite <- Z.land_ones by lia.
  rewrite <- Z.land_assoc. f_equal.
  assert (y = 0 ∨ y = 1 ∨ y = 2 ∨ y = 3) as [->|[->|[->| ->]]] by lia; reflexivity.
Qed.

Lemma stream_id_mod id :
  stream_initiator id = stream_initiator (id mod 4) ∧
  stream_direction id = stream_direction (id mod 4).
Proof.
  unfold stream_initiator, stream_direction.
  rewrite !(land_mod4 id), !(land_mod4 (id mod 4)), !Z.mod_mod by lia. done.
Qed.

Definition local_base (sd : Side) (d : StreamDirection) : StreamId :=
  match sd, d with
  | Client, Bidirectional => 0
  | Client, Unidirectional => 2
  | Server, Bidirectional => 1
  | Server, Unidirectional => 3
  end.

Lemma remote_id sd d d' k :
  is_remote sd d' (remote_base sd d + k * 4) = bool_decide (d = d').
Proof.
  unfold is_remote, local_initiated.
  destruct (stream_id_mod (remote_base sd d + k * 4)) as [-> ->].
  rewrite Z.mod_add by lia. destruct sd, d, d'; reflexivity.
Qed.

Lemma local_id sd d d' k : is_remote sd d' (local_base sd d + k * 4) = false.
Proof.
  unfold is_remote, local_initiated.
  destruct (stream_id_mod (local_base sd d + k * 4)) as [-> ->].
  rewrite Z.mod_add by lia. destruct sd, d, d'; reflexivity.
Qed.

Lemma local_id_direction sd d k :
  stream_direction (local_base sd d + k * 4) = d ∧
  local_initiated sd (local_base sd d + k * 4) = true.
Proof.
  unfold local_initiated.
  destruct (stream_id_mod (local_base sd d + k * 4)) as [-> ->].
  rewrite Z.mod_add by lia. destruct sd, d; split; reflexivity.
Qed.

(** ** Counters by direction *)

Definition remote_opened (m : StreamManager) (d : StreamDirection) : Z :=
  match d with Bidirectional => remote_bidi_opened m | Unidirectional => remote_uni_opened m end.
Definition remote_limit (m : StreamManager) (d : StreamDirection) : Z :=
  match d with
  | Bidirectional => local_max_bidi_streams m | Unidirectional => local_max_uni_streams m end.
Definition local_opened (m : StreamManager) (d : StreamDirection) : Z :=
  match d with Bidirectional => bidi_opened m | Unidirectional => uni_opened m end.
Definition local_next (m : StreamManager) (d : StreamDirection) : Z :=
  match d with Bidirectional => next_bidi_id m | Unidirectional => next_uni_id m end.
Definition local_limit (m : StreamManager) (d : StreamDirection) : Z :=
  match d with Bidirectional => max_bidi_streams m | Unidirectional => max_uni_streams m end.
Definition remote_streams (sd : Side) (d : StreamDirection) (t : gmap StreamId StreamState) :=
  filter (λ '(id, _), is_remote sd d id = true) t.

(** ** Operations *)

Inductive manager_op :=
  | OpOpenBidi | OpOpenUni
  | OpAccept (id : StreamId)
  | OpGc
  | OpTakeUpdates
  | OpUpdateMax (bidi : bool) (max : Z)
  | OpPeerLimits (a b c d e : Z)
  | OpGetMut (id : StreamId) (f : StreamState → StreamState).

Definition manager_step (m : StreamManager) (op : manager_op) : StreamManager :=
  match op with
  | OpOpenBidi => (open_bidi m).2
  | OpOpenUni => (open_uni m).2
  | OpAccept id => (accept_stream id m).2
  | OpGc => (gc_closed_streams m).2
  | OpTakeUpdates => (take_max_streams_updates m).2
  | OpUpdateMax true x => update_max_bidi_streams m x
  | OpUpdateMax false x => update_max_uni_streams m x
  | OpPeerLimits a b c d e => apply_peer_initial_limits m a b c d e
  | OpGetMut id f => with_streams m (alter f id (streams m))
  end.

(** The table [t] has remote streams of direction [d] only below ordinal [a],
    [c] of them. *)
Definition remote_table (sd : Side) (d : StreamDirection) (a : Z) (c : nat)
    (t : gmap StreamId StreamState) : Prop :=
  (∀ id, is_Some (t !! id) → is_remote sd d id = true →
     ∃ k, 0 ≤ k < a ∧ id = remote_base sd d + k * 4) ∧
  size (remote_streams sd d t) = c.

Lemma remote_table_insert_other sd d a c t id s :
  is_remote sd d id = false → remote_table sd d a c t → remote_table sd d a c (<[id := s]> t).
Proof.
  intros Hid [Hids Hsz]. split.
  - intros id' [s' Hs'] Hr. apply Hids; [|done].
    destruct (decide (id = id')) as [->|]; [congruence|].
    rewrite lookup_insert_ne in Hs' by done. eauto.
  - rewrite <- Hsz. unfold remote_streams. rewrite map_filter_insert_False by congruence.
    rewrite map_filter_delete, delete_id; [done|].
    apply map_lookup_filter_None. right. intros ? _ ?. congruence.
Qed.

Lemma remote_table_insert_next sd d a c t s :
  0 ≤ a → remote_table sd d a c t →
  remote_table sd d (a + 1) (S c) (<[remote_base sd d + a * 4 := s]> t).
Proof.
  intros Ha [Hids Hsz]. set (id := remote_base sd d + a * 4).
  assert (is_remote sd d id = true) as Hr.
  { unfold id. rewrite remote_id. by apply bool_decide_eq_true. }
  assert (t !! id = None) as Hnone.
  { destruct (t !! id) eqn:E; [|done]. destruct (Hids id) as (k & ? & Hk); eauto.
    unfold id in Hk. lia. }
  split.
  - intros id' Hs' Hr'. destruct (decide (id = id')) as [<-|].
    + exists a. split; [lia|done].
    + rewrite lookup_insert_ne in Hs' by done. destruct (Hids id' Hs' Hr') as (k & ? & ?).
      exists k. split; [lia|done].
  - unfold remote_streams. rewrite map_filter_insert_True by done.
    rewrite map_size_insert_None; [by f_equal|].
    apply map_lookup_filter_None. by left.
Qed.

(** The loop of [accept_stream]. *)
Lemma accept_loop m d n : ∀ a c t,
  0 ≤ a → remote_table (side m) d a c t →
  let t' := foldl (λ t i, insert_remote m d (remote_base (side m) d) i t) t
              (seqZ a (Z.of_nat n)) in
  remote_table (side m) d (a + Z.of_nat n) (c + n) t' ∧
  (∀ d' a' c', d' ≠ d → remote_table (side m) d' a' c' t → remote_table (side m) d' a' c' t') ∧
  (∀ id, is_remote (side m) d id = false → t' !! id = t !! id).
Proof.
  induction n as [|n IH]; intros a c t Ha Ht; cbn zeta.
  { cbn. rewrite Z.add_0_r, Nat.add_0_r. eauto. }
  rewrite seqZ_cons by lia. cbn [foldl].
  replace (Z.pred (Z.of_nat (S n))) with (Z.of_nat n) by lia.
  assert (∃ s, insert_remote m d (remote_base (side m) d) a t =
               <[remote_base (side m) d + a * 4 := s]> t) as [s Hs].
  { unfold insert_remote. destruct (initial_limits_for_stream _ _ _). eauto. }
  rewrite Hs.
  destruct (IH (Z.succ a) (S c) (<[remote_base (side m) d + a * 4 := s]> t))
    as (H1 & H2 & H3); [lia|by apply remote_table_insert_next|].
  split_and!.
  - replace (a + Z.of_nat (S n)) with (Z.succ a + Z.of_nat n) by lia.
    replace (c + S n)%nat with (S c + n)%nat by lia. done.
  - intros d' a' c' Hd Hd'. apply H2; [done|]. apply remote_table_insert_other; [|done].
    rewrite remote_id. apply bool_decide_eq_false. congruence.
  - intros id Hid. rewrite H3 by done. apply lookup_insert_ne. intros <-.
    rewrite remote_id in Hid. by rewrite bool_decide_true in Hid.
Qed.

(** The numbering of both directions, and the bound on the peer's open
    streams: at most [lim] more than the streams that were retired. *)
Record manager_inv (lim : StreamDirection → Z) (m : StreamManager) : Prop := {
  mi_range d : 0 ≤ remote_opened m d ≤ remote_limit m d ∧ remote_limit m d ≤ U64_MAX;
  mi_remote d : ∃ c, remote_table (side m) d (remote_opened m d) c (streams m) ∧
    remote_limit m d + Z.of_nat c ≤ lim d + remote_opened m d;
  mi_next d : 0 ≤ local_opened m d ∧
    local_next m d = local_base (side m) d + local_opened m d * 4;
  mi_local id : is_Some (streams m !! id) → local_initiated (side m) id = true →
    id < local_next m (stream_direction id);
}.

Lemma new_inv sd mb mu fl :
  is_u64 mb → is_u64 mu →
  manager_inv (λ d, match d with Bidirectional => mb | Unidirectional => mu end)
    (manager_new sd mb mu fl).
Proof.
  intros [] []. split.
  - intros []; destruct sd; cbn; lia.
  - intros d. exists 0%nat. split; [|destruct d, sd; cbn; lia]. split.
    + intros id [s Hs]. destruct sd; cbn in Hs; by rewrite lookup_empty in Hs.
    + destruct sd; cbn; unfold remote_streams; rewrite map_filter_empty; apply map_size_empty.
  - intros []; destruct sd; cbn; lia.
  - intros id [s Hs]. destruct sd; cbn in Hs; by rewrite lookup_empty in Hs.
Qed.

(** Replacing the table by one with the same keys. *)
Lemma remote_table_keys sd d a c t t' :
  (∀ id, is_Some (t' !! id) ↔ is_Some (t !! id)) →
  remote_table sd d a c t → remote_table sd d a c t'.
Proof.
  intros Hk [Hids Hsz]. split; [intros id ?%Hk; by apply Hids|].
  rewrite <- Hsz, <- !size_dom. f_equal. apply leibniz_equiv. intros id.
  rewrite !elem_of_dom. unfold remote_streams, is_Some.
  setoid_rewrite map_lookup_filter_Some. specialize (Hk id). unfold is_Some in Hk.
  split; intros (s & ? & ?).
  - destruct (proj1 Hk) as [s' ?]; eauto.
  - destruct (proj2 Hk) as [s' ?]; eauto.
Qed.

Lemma size_split {V} (P Q : Z * V → Prop) `{!∀ x, Decision (P x)} `{!∀ x, Decision (Q x)}
    (t : gmap Z V) :
  (∀ x, Q x ↔ ¬ P x) → size t = (size (filter P t) + size (filter Q t))%nat.
Proof.
  intros HPQ. rewrite (proj1 (map_filter_ext Q (λ x, ¬ P x) t)) by (intros; apply HPQ).
  rewrite <- map_size_disj_union by apply map_disjoint_filter_complement.
  by rewrite map_filter_union_complement.
Qed.

(** Collecting closed streams: the peer's live streams and the retired ones
    are together the peer's streams. *)
Lemma gc_split sd d t :
  size (remote_streams sd d t) =
  (size (remote_streams sd d (filter (λ '(_, s), closed s = true) t)) +
   size (remote_streams sd d (filter (λ '(_, s), closed s = false) t)))%nat.
Proof.
  unfold remote_streams. rewrite !(map_filter_comm (λ '(id, _), is_remote sd d id = true)).
  apply size_split. intros [id s]. destruct (closed s); intuition congruence.
Qed.

Lemma gc_inv lim m : manager_inv lim m → manager_inv lim (gc_closed_streams m).2.
Proof.
  intros [Hr Ht Hn Hl].
  assert (∀ id, is_Some (filter (λ '(_, s), closed s = false) (streams m) !! id) →
                is_Some (streams m !! id)) as Hsub.
  { intros id [s Hs]. apply map_lookup_filter_Some in Hs as [? _]. eauto. }
  split.
  - intros d. specialize (Hr d). destruct d; cbn in *; unfold saturating_add_u64;
      unfold_ints; lia.
  - intros d. destruct (Ht d) as (c & [Hids Hsz] & Hc).
    pose proof (gc_split (side m) d (streams m)) as Hsp. rewrite Hsz in Hsp.
    eexists. split; [split; [|reflexivity]|].
    + intros id Hid. destruct d; apply Hids, Hsub, Hid.
    + unfold remote_streams in Hsp.
      destruct d; cbn in *; unfold saturating_add_u64, remote_streams; lia.
  - intros d. specialize (Hn d). by destruct d.
  - intros id Hid. apply (Hl id), Hsub, Hid.
Qed.

(** A stream opened by this endpoint. *)
Lemma open_local_inv lim m d s m' :
  manager_inv lim m → side m' = side m →
  streams m' = <[local_next m d := s]> (streams m) →
  (∀ d, remote_opened m' d = remote_opened m d ∧ remote_limit m' d = remote_limit m d) →
  local_opened m' d = local_opened m d + 1 → local_next m' d = local_next m d + 4 →
  (∀ d', d' ≠ d → local_opened m' d' = local_opened m d' ∧ local_next m' d' = local_next m d') →
  manager_inv lim m'.
Proof.
  intros [Hr Ht Hn Hl] Hs Hst Hrem Ho Hnx Hoth. destruct (Hn d) as [Hn0 Hn1]. split.
  - intros d'. destruct (Hrem d') as [-> ->]. apply Hr.
  - intros d'. destruct (Ht d') as (c & Hc & Hle). exists c.
    destruct (Hrem d') as [-> ->]. rewrite Hs, Hst. split; [|done].
    apply remote_table_insert_other; [|done]. rewrite Hn1. apply local_id.
  - intros d'. rewrite Hs. destruct (decide (d' = d)) as [->|Hd].
    + rewrite Ho, Hnx. lia.
    + destruct (Hoth d' Hd) as [-> ->]. apply Hn.
  - intros id. rewrite Hs, Hst. intros Hid Hloc.
    destruct (decide (local_next m d = id)) as [<-|Hne].
    + rewrite Hn1. rewrite (proj1 (local_id_direction (side m) d _)). lia.
    + rewrite lookup_insert_ne in Hid by done. specialize (Hl id Hid Hloc).
      destruct (decide (stream_direction id = d)) as [E|E]; [rewrite E in *; lia|].
      destruct (Hoth _ E) as [_ ->]. done.
Qed.

Lemma open_bidi_inv lim m : manager_inv lim m → manager_inv lim (open_bidi m).2.
Proof.
  intros Hm. unfold open_bidi. run_stM. dif; [done|].
  unfold add_u64. repeat dif; run_stM; try exact Hm.
  eapply (open_local_inv _ m Bidirectional); try reflexivity; [done|by intros []|by intros []].
Qed.

Lemma open_uni_inv lim m : manager_inv lim m → manager_inv lim (open_uni m).2.
Proof.
  intros Hm. unfold open_uni. run_stM. dif; [done|].
  unfold add_u64. repeat dif; run_stM; try exact Hm.
  eapply (open_local_inv _ m Unidirectional); try reflexivity; [done|by intros []|by intros []].
Qed.

(** What [accept_stream] does to the manager: nothing, or the missing streams
    of one direction up to [id] are created. *)
Lemma accept_stream_spec id m :
  (accept_stream id m).2 = m ∨
  ∃ opened, let d := stream_direction id in let m' := (accept_stream id m).2 in
    remote_opened m d < opened ≤ remote_limit m d ∧
    side m' = side m ∧
    streams m' = foldl (λ t i, insert_remote m d (remote_base (side m) d) i t) (streams m)
                   (seqZ (remote_opened m d) (opened - remote_opened m d)) ∧
    remote_opened m' d = opened ∧
    (∀ d', d' ≠ d → remote_opened m' d' = remote_opened m d') ∧
    (∀ d', remote_limit m' d' = remote_limit m d' ∧ local_opened m' d' = local_opened m d' ∧
           local_next m' d' = local_next m d').
Proof.
  unfold accept_stream. run_stM. dif; [by left|].
  destruct (is_local_initiated m id); [by left|].
  dif; [by left|]. unfold checked_sub. dif; cbn [ok_or]; run_stM; [|by left].
  destruct (stream_direction id) eqn:Ed.
  - dif; [by left|]. dif; [by left|]. right.
    exists ((id - remote_stream_base m (stream_direction id)) / 4 + 1). rewrite Ed. cbn.
    unfold remote_stream_base in *. split_and!; try reflexivity; try lia; by intros [].
  - dif; [by left|]. dif; [by left|]. right.
    exists ((id - remote_stream_base m (stream_direction id)) / 4 + 1). rewrite Ed. cbn.
    unfold remote_stream_base in *. split_and!; try reflexivity; try lia; by intros [].
Qed.

Lemma accept_inv lim m id : manager_inv lim m → manager_inv lim (accept_stream id m).2.
Proof.
  intros Hm. destruct (accept_stream_spec id m) as [->|(opened & H)]; [done|].
  cbn zeta in H. set (m' := (accept_stream id m).2) in *. clearbody m'.
  set (d := stream_direction id) in *. clearbody d.
  destruct H as (Hop & Hsd & Hst & Hd & Hd' & Hsame). destruct Hm as [Hr Ht Hn Hl].
  destruct (Ht d) as (c & Hc & Hle).
  pose proof (accept_loop m d (Z.to_nat (opened - remote_opened m d)) (remote_opened m d) c
                (streams m)) as Hloop.
  cbn zeta in Hloop. rewrite Z2Nat.id in Hloop by lia. rewrite <- Hst in Hloop.
  destruct Hloop as (H1 & H2 & H3); [apply Hr|done|]. split.
  - intros d'. destruct (Hsame d') as [-> _]. specialize (Hr d').
    destruct (decide (d' = d)) as [->|?]; [lia|]. rewrite Hd' by done. lia.
  - intros d'. rewrite Hsd. destruct (Hsame d') as [-> _].
    destruct (decide (d' = d)) as [->|?].
    + rewrite Hd. replace (remote_opened m d + (opened - remote_opened m d)) with opened in H1 by lia.
      eexists. split; [exact H1|lia].
    + rewrite Hd' by done. destruct (Ht d') as (c' & Hc' & Hle'). exists c'. eauto.
  - intros d'. destruct (Hsame d') as (_ & -> & ->). rewrite Hsd. apply Hn.
  - intros id'. rewrite Hsd. intros Hid Hloc. destruct (Hsame (stream_direction id')) as (_ & _ & ->).
    apply Hl; [|done]. rewrite H3 in Hid; [done|].
    unfold is_remote. by rewrite Hloc.
Qed.

Lemma manager_step_inv lim m op : manager_inv lim m → manager_inv lim (manager_step m op).
Proof.
  intros Hm. destruct op; cbn [manager_step].
  - by apply open_bidi_inv.
  - by apply open_uni_inv.
  - by apply accept_inv.
  - by apply gc_inv.
  - destruct Hm as [Hr Ht Hn Hl]. split.
    + intros d. specialize (Hr d). by destruct d.
    + intros d. specialize (Ht d). by destruct d.
    + intros d. specialize (Hn d). by destruct d.
    + done.
  - destruct Hm as [Hr Ht Hn Hl].
    destruct bidi; unfold update_max_bidi_streams, update_max_uni_streams; dif; by split.
  - destruct Hm as [Hr Ht Hn Hl].
    assert (∀ id', is_Some (streams (apply_peer_initial_limits m a b c d e) !! id') ↔
                   is_Some (streams m !! id')) as Hk.
    { intros id'. cbn. rewrite map_lookup_imap. destruct (streams m !! id'); cbn;
        split; intros [? ?]; eauto; done. }
    split.
    + intros d'. specialize (Hr d'). by destruct d'.
    + intros d'. destruct (Ht d') as (c' & Hc & Hle). exists c'.
      apply (remote_table_keys _ _ _ _ _ _ Hk) in Hc. by destruct d'.
    + intros d'. specialize (Hn d'). by destruct d'.
    + intros id' ?%Hk ?. by apply Hl.
  - destruct Hm as [Hr Ht Hn Hl].
    assert (∀ id', is_Some (alter f id (streams m) !! id') ↔ is_Some (streams m !! id')) as Hk
      by (intros; apply lookup_alter_is_Some).
    split; [exact Hr| |exact Hn|intros id' ?%Hk; by apply Hl].
    intros d'. destruct (Ht d') as (c' & Hc & Hle). exists c'. split; [|done].
    by apply (remote_table_keys _ _ _ _ _ _ Hk).
Qed.

Definition manager_run (m : StreamManager) (ops : list manager_op) : StreamManager :=
  foldl manager_step m ops.

Lemma manager_run_inv lim ops m : manager_inv lim m → manager_inv lim (manager_run m ops).
Proof. revert m. induction ops as [|op ops IH]; intros m Hm; [done|]. by apply IH, manager_step_inv. Qed.

(** ** Acknowledged ranges as a set of bytes *)

Definition covered (ranges : list (Z * Z)) (i : Z) : Prop :=
  ∃ r, r ∈ ranges ∧ r.1 ≤ i < r.2.
Definition nonempty_range (r : Z * Z) : Prop := r.1 < r.2.
(** [x] ends before [y] starts, with a gap. *)
Definition apart (x y : Z * Z) : Prop := x.2 < y.1.
Definition ranges_ok (l : list (Z * Z)) : Prop :=
  StronglySorted apart l ∧ Forall nonempty_range l.

Lemma covered_cons r l i : covered (r :: l) i ↔ r.1 ≤ i < r.2 ∨ covered l i.
Proof.
  unfold covered. setoid_rewrite elem_of_cons. split.
  - intros (x & [->|?] & ?); eauto.
  - intros [?|(x & ? & ?)]; eauto.
Qed.

Lemma covered_nil i : ¬ covered [] i.
Proof. intros (r & Hr & _). by apply elem_of_nil in Hr. Qed.

Lemma covered_perm l k i : l ≡ₚ k → covered l i ↔ covered k i.
Proof. intros H. unfold covered. by setoid_rewrite H. Qed.

Lemma covered_app l k i : covered (l ++ k) i ↔ covered l i ∨ covered k i.
Proof.
  induction l as [|r l IH]; cbn; [|rewrite !covered_cons, IH; tauto].
  split; [tauto|]. intros [[]%covered_nil|?]; done.
Qed.

Lemma merge_ranges l : ∀ acc,
  StronglySorted by_start l → Forall nonempty_range l →
  StronglySorted (flip apart) acc → Forall nonempty_range acc →
  (∀ h r, head acc = Some h → r ∈ l → h.1 ≤ r.1) →
  let out := foldl merge_range acc l in
  StronglySorted (flip apart) out ∧ Forall nonempty_range out ∧
  ∀ i, covered out i ↔ covered acc i ∨ covered l i.
Proof.
  induction l as [|r l IH]; intros acc Hl Hne Hacc Hane Hhd; cbn [foldl]; cbn zeta.
  { split_and!; [done..|]. intros i. split; [tauto|]. intros [?|[]%covered_nil]; done. }
  inversion Hl as [|?? Hl' Hr]; subst. inversion Hne as [|?? Hrne Hne']; subst.
  rewrite Forall_forall in Hr. unfold by_start, nonempty_range in *.
  destruct acc as [|[ls le] older]; cbn [merge_range].
  - destruct (IH [r]) as (? & ? & Hc); [done|done|by repeat constructor|by repeat constructor| |].
    { intros h r' [= <-] Hr'. by apply Hr. }
    split_and!; [done..|]. intros i. rewrite Hc, !covered_cons. pose proof (covered_nil i). tauto.
  - inversion Hacc as [|?? Hold Hlast]; subst. inversion Hane as [|?? Hane1 Hane']; subst.
    pose proof (Hhd _ r eq_refl ltac:(left)) as Hlr. cbn in *. dif.
    + destruct (IH ((ls, Z.max le r.2) :: older)) as (? & ? & Hc); [done|done|..].
      * by constructor.
      * constructor; [cbn; lia|done].
      * intros h r' [= <-] Hr'. specialize (Hr _ Hr'). cbn. lia.
      * split_and!; [done..|]. intros i. rewrite Hc, !covered_cons. cbn.
        assert (ls ≤ i < Z.max le r.2 ↔ ls ≤ i < le ∨ r.1 ≤ i < r.2) by lia. tauto.
    + destruct (IH (r :: (ls, le) :: older)) as (? & ? & Hc); [done|done|..].
      * constructor; [done|]. constructor; [unfold flip, apart; cbn; lia|].
        eapply Forall_impl; [exact Hlast|]. unfold flip, apart. cbn. lia.
      * by repeat constructor.
      * intros h r' [= <-] Hr'. by apply Hr.
      * split_and!; [done..|]. intros i. rewrite Hc, !covered_cons. tauto.
Qed.

Lemma acknowledge_spec s offset n fin :
  0 ≤ offset → 0 ≤ n → offset + n ≤ U64_MAX → ranges_ok (acked_send_ranges s) →
  ∃ s', acknowledge_sent_data s offset n fin = Ok s' ∧ ranges_ok (acked_send_ranges s') ∧
    (∀ i, covered (acked_send_ranges s') i ↔
          covered (acked_send_ranges s) i ∨ offset ≤ i < offset + n) ∧
    fin_acked s' = fin_acked s || fin ∧
    fin_sent s' = fin_sent s ∧ send_offset s' = send_offset s.
Proof.
  intros ? ? Hov [Hs Hne]. unfold acknowledge_sent_data, add_u64.
  rewrite (proj2 (Z.leb_le _ _) Hov). rewrite bind_ok. cbn beta iota zeta.
  eexists. split; [reflexivity|]. cbn [set_acked acked_send_ranges fin_acked fin_sent send_offset].
  dif.
  - set (l := acked_send_ranges s ++ [(offset, offset + n)]).
    assert (Forall nonempty_range l) as Hl.
    { apply Forall_app. split; [done|]. repeat constructor. unfold nonempty_range. cbn. lia. }
    destruct (merge_ranges (merge_sort by_start l) []) as (H1 & H2 & H3);
      [apply (StronglySorted_merge_sort _)|by rewrite merge_sort_Permutation|constructor..
      |done|]. 
    split_and!; [|..|done|done|done].
    + split; [by apply StronglySorted_rev|]. by rewrite <- Permutation_rev.
    + intros i. rewrite (covered_perm _ _ i (symmetry (Permutation_rev _))), H3.
      rewrite (covered_perm _ _ i (merge_sort_Permutation by_start l)).
      unfold l. rewrite covered_app, covered_cons. cbn. pose proof (covered_nil i). tauto.
  - split_and!; try done. intros i. split; [tauto|]. intros [?|?]; [done|lia].
Qed.

Lemma covered_to_spec so ranges : ∀ c, c < so → ranges_ok ranges →
  covered_to c so ranges = true ↔ ∀ i, c ≤ i < so → covered ranges i.
Proof.
  induction ranges as [|[a b] l IH]; intros c Hc [Hs Hne]; cbn [covered_to].
  { split; [done|]. intros H. destruct (covered_nil c). apply H. lia. }
  inversion Hs as [|?? Hs' Ha]; subst. inversion Hne as [|?? Hab Hne']; subst.
  rewrite Forall_forall in Ha. rewrite Forall_forall in Hne'. unfold apart, nonempty_range in *. cbn in *.
  dif.
  - split; [done|]. intros H. specialize (H c ltac:(lia)).
    apply covered_cons in H as [?|(r & Hr & ?)]; [cbn in *; lia|].
    specialize (Ha _ Hr). lia.
  - dif.
    + split; [|done]. intros _ i ?. apply covered_cons. left. cbn. lia.
    + rewrite IH; [|lia|split; [done|by apply Forall_forall]].
      setoid_rewrite covered_cons. cbn. split.
      * intros H i ?. destruct (decide (i < Z.max c b)); [left; lia|right; apply H; lia].
      * intros H i ?. destruct (H i) as [?|?]; [lia|lia|done].
Qed.

(** Acknowledgements of STREAM frames: offset, length, FIN. *)
Definition ack_all (s : StreamState) (acks : list (Z * Z * bool)) : qres StreamState :=
  foldl (λ r '(o, n, f), s ← r; acknowledge_sent_data s o n f) (Ok s) acks.

Lemma ack_all_spec acks : ∀ s,
  ranges_ok (acked_send_ranges s) →
  Forall (λ '(o, n, _), 0 ≤ o ∧ 0 ≤ n ∧ o + n ≤ U64_MAX) acks →
  ∃ s', ack_all s acks = Ok s' ∧ ranges_ok (acked_send_ranges s') ∧
    (∀ i, covered (acked_send_ranges s') i ↔ covered (acked_send_ranges s) i ∨
       ∃ o n f, (o, n, f) ∈ acks ∧ o ≤ i < o + n) ∧
    (fin_acked s' = true ↔ fin_acked s = true ∨ ∃ o n, (o, n, true) ∈ acks) ∧
    fin_sent s' = fin_sent s ∧ send_offset s' = send_offset s.
Proof.
  induction acks as [|[[o n] f] acks IH]; intros s Hok Hacks.
  { exists s. split_and!; try done.
    - intros i. split; [tauto|]. intros [?|(?&?&?&H&_)]; [done|by apply elem_of_nil in H].
    - split; [tauto|]. intros [?|(?&?&H)]; [done|by apply elem_of_nil in H]. }
  apply Forall_cons_1 in Hacks as [(Ho & Hn & Hon) Hacks'].
  destruct (acknowledge_spec s o n f) as (s1 & E1 & Hok1 & Hc1 & Hf1 & Hfs1 & Hso1); [done..|].
  destruct (IH s1) as (s2 & E2 & Hok2 & Hc2 & Hf2 & Hfs2 & Hso2); [done..|].
  exists s2. split_and!; [|done| | |congruence..].
  - unfold ack_all. cbn [foldl]. rewrite bind_ok, E1. exact E2.
  - intros i. rewrite Hc2, Hc1. split.
    + intros [[?|?]|(o' & n' & f' & ? & ?)]; [tauto|right|right].
      * exists o, n, f. split; [left|done].
      * exists o', n', f'. split; [by right|done].
    + intros [?|(o' & n' & f' & [[= -> -> ->]|?]%elem_of_cons & ?)]; [tauto|tauto|].
      right. eauto.
  - rewrite Hf2, Hf1, orb_true_iff. split.
    + intros [[?| ->]|(o' & n' & ?)]; [tauto|right; exists o, n; left|right; exists o', n'; by right].
    + intros [?|(o' & n' & [[= -> -> <-]|?]%elem_of_cons)]; [tauto|tauto|]. right. eauto.
Qed.

(** Whatever the order, duplication and overlap of the acknowledged STREAM
    frames, a stream counts as fully acknowledged exactly when its FIN was
    sent and acknowledged and every byte sent is in an acknowledged frame. *)
Theorem all_sent_data_acked_exact (s : StreamState) (acks : list (Z * Z * bool))
    (Hfresh : acked_send_ranges s = []) (Hfin : fin_acked s = false)
    (Hacks : Forall (λ '(o, n, _), 0 ≤ o ∧ 0 ≤ n ∧ o + n ≤ U64_MAX) acks)
    (Hso : 0 ≤ send_offset s) :
  ∃ s', ack_all s acks = Ok s' ∧
    (all_sent_data_acked s' = true ↔
      fin_sent s = true ∧ (∃ o n, (o, n, true) ∈ acks) ∧
      ∀ i, 0 ≤ i < send_offset s → ∃ o n f, (o, n, f) ∈ acks ∧ o ≤ i < o + n).
Proof.
  assert (ranges_ok (acked_send_ranges s)) as Hok by (rewrite Hfresh; by repeat constructor).
  destruct (ack_all_spec acks s Hok Hacks) as (s' & E & Hok' & Hc & Hf & Hfs & Hs).
  exists s'. split; [done|]. unfold all_sent_data_acked. rewrite Hfs, Hs.
  rewrite Hfresh in Hc. rewrite Hfin in Hf.
  assert (∀ i, covered (acked_send_ranges s') i ↔
               ∃ o n f, (o, n, f) ∈ acks ∧ o ≤ i < o + n) as Hc'.
  { intros i. rewrite Hc. pose proof (covered_nil i). tauto. }
  assert (fin_acked s' = true ↔ ∃ o n, (o, n, true) ∈ acks) as Hf' by (rewrite Hf; intuition done).
  setoid_rewrite <- Hc'. rewrite <- Hf'.
  destruct (fin_sent s), (fin_acked s'); cbn; try (intuition done).
  dif.
  - split; [|done]. intros _. split_and!; [done..|]. intros i ?. lia.
  - rewrite covered_to_spec; [|lia|done]. intuition done.
Qed.

Lemma all_sent_data_acked_exact_witness :
  ∃ s', ack_all (set_sent 10 true (stream_new 0 Bidirectional true 100 100))
          [(5, 5, true); (0, 3, false); (2, 4, false)] = Ok s' ∧
    all_sent_data_acked s' = true.
Proof.
  destruct (all_sent_data_acked_exact (set_sent 10 true (stream_new 0 Bidirectional true 100 100))
              [(5, 5, true); (0, 3, false); (2, 4, false)] eq_refl eq_refl) as (s' & E & H).
  - repeat constructor; unfold_ints; lia.
  - cbn. lia.
  - exists s'. split; [exact E|]. apply H. split_and!; [done| |].
    + exists 5, 5. left.
    + cbn. intros i Hi. destruct (decide (i < 3)); [|destruct (decide (i < 6))].
      * exists 0, 3, false. split; [set_solver|lia].
      * exists 2, 4, false. split; [set_solver|lia].
      * exists 5, 5, true. split; [set_solver|lia].
Defined.

(** ** What the manager promises *)

(** C25: for every sequence of operations on the manager, the peer never has
    more streams of a direction open than the limit it was first given:
    credit is only returned for streams that were retired. *)
Theorem remote_streams_bounded (sd : Side) (mb mu fl : Z) (ops : list manager_op)
    (d : StreamDirection) (Hb : is_u64 mb) (Hu : is_u64 mu) :
  let m := manager_run (manager_new sd mb mu fl) ops in
  Z.of_nat (size (remote_streams (side m) d (streams m)))
    ≤ match d with Bidirectional => mb | Unidirectional => mu end.
Proof.
  cbn zeta. pose proof (manager_run_inv _ ops _ (new_inv sd mb mu fl Hb Hu)) as [Hr Ht _ _].
  destruct (Ht d) as (c & [_ Hc] & Hle). rewrite Hc. specialize (Hr d). destruct d; lia.
Qed.

Lemma remote_streams_bounded_witness :
  let m := manager_run (manager_new Server 2 1 100) [OpAccept 4; OpAccept 8; OpAccept 2] in
  Z.of_nat (size (remote_streams (side m) Bidirectional (streams m))) ≤ 2.
Proof.
  apply (remote_streams_bounded Server 2 1 100 [OpAccept 4; OpAccept 8; OpAccept 2] Bidirectional);
    unfold_ints; lia.
Defined.

(** Opening a stream of a direction. *)
Definition open_dir (d : StreamDirection) : stM StreamManager QuicError StreamId :=
  match d with Bidirectional => open_bidi | Unidirectional => open_uni end.

(** After any operations, opening a stream takes the next number of its
    direction, which no stream has had, within the peer's limit, or fails
    with the limit reached and changes nothing; it panics only when the
    identifiers of 64 bits are used up. *)
Theorem open_takes_fresh_id (sd : Side) (mb mu fl : Z) (ops : list manager_op)
    (d : StreamDirection) (Hb : is_u64 mb) (Hu : is_u64 mu) :
  let m := manager_run (manager_new sd mb mu fl) ops in
  match open_dir d m with
  | (Ok id, m') =>
      local_opened m d < local_limit m d ∧
      id = local_base (side m) d + local_opened m d * 4 ∧
      stream_direction id = d ∧ local_initiated (side m) id = true ∧
      streams m !! id = None ∧ is_Some (streams m' !! id) ∧
      local_opened m' d = local_opened m d + 1
  | (Err e, m') => m' = m ∧ local_limit m d ≤ local_opened m d ∧
                   ∃ t, e = Transport StreamLimitError t
  | (Panic, _) => U64_MAX < local_next m d + 4 ∨ U64_MAX < local_opened m d + 1
  | (Diverge, _) => False
  end.
Proof.
  cbn zeta. pose proof (manager_run_inv _ ops _ (new_inv sd mb mu fl Hb Hu)) as [_ _ Hn Hl].
  set (m := manager_run _ ops) in *. clearbody m.
  destruct (Hn d) as [Hn0 Hn1]. destruct (local_id_direction (side m) d (local_opened m d)) as [Hd Hloc].
  rewrite <- Hn1 in Hd, Hloc.
  assert (streams m !! local_next m d = None) as Hfresh.
  { destruct (streams m !! local_next m d) eqn:E; [|done].
    specialize (Hl (local_next m d)). rewrite E, Hd in Hl. specialize (Hl ltac:(eauto) Hloc). lia. }
  destruct d; cbn [open_dir local_opened local_limit local_next] in *;
    unfold open_bidi, open_uni; run_stM; dif; run_stM; unfold add_u64;
    [cbn; split_and!; [done|lia|eauto]| |cbn; split_and!; [done|lia|eauto]|];
    repeat dif; run_stM; cbn; try (unfold_ints; lia);
    split_and!; try done; try lia; rewrite lookup_insert_eq; eauto.
Qed.

Lemma open_takes_fresh_id_witness :
  ∃ id m', open_dir Bidirectional (manager_run (manager_new Client 4 1 100) [OpOpenBidi; OpAccept 1])
    = (Ok id, m') ∧ id = 4 ∧
    streams (manager_run (manager_new Client 4 1 100) [OpOpenBidi; OpAccept 1]) !! id = None.
Proof.
  pose proof (open_takes_fresh_id Client 4 1 100 [OpOpenBidi; OpAccept 1] Bidirectional
                ltac:(unfold_ints; lia) ltac:(unfold_ints; lia)) as H.
  cbn zeta in H.
  remember (open_dir Bidirectional _) as r eqn:Er. destruct r as [[id| | |] m'].
  - destruct H as (_ & Hid & _ & _ & Hf & _). exists id, m'. split_and!; [done| |exact Hf].
    rewrite Hid. reflexivity.
  - exfalso. vm_compute in Er. congruence.
  - exfalso. vm_compute in Er. congruence.
  - destruct H.
Defined.

(** A remotely initiated stream that was retired is not created again by a
    late frame, after any operations: accepting it succeeds and changes
    nothing. *)
Theorem retired_remote_stream_stays_retired (sd : Side) (mb mu fl : Z) (ops : list manager_op)
    (d : StreamDirection) (k : Z) (Hb : is_u64 mb) (Hu : is_u64 mu) :
  let m := manager_run (manager_new sd mb mu fl) ops in
  0 ≤ k < remote_opened m d →
  accept_stream (remote_base (side m) d + k * 4) m = (Ok tt, m).
Proof.
  cbn zeta. pose proof (manager_run_inv _ ops _ (new_inv sd mb mu fl Hb Hu)) as [Hr _ _ _].
  set (m := manager_run _ ops) in *. clearbody m. intros Hk. specialize (Hr d).
  pose proof (remote_id (side m) d d k) as Hrem. rewrite bool_decide_true in Hrem by done.
  unfold is_remote in Hrem. apply andb_true_iff in Hrem as [Hl Hd%bool_decide_eq_true].
  unfold accept_stream. run_stM. dif; [done|].
  unfold is_local_initiated. rewrite (proj1 (negb_true_iff _) Hl), Hd.
  unfold remote_stream_base. rewrite Z.mod_add, Z.eqb_refl by lia. cbn [negb].
  unfold checked_sub. rewrite (proj2 (Z.leb_le _ _)) by lia. cbn [ok_or]. run_stM.
  replace (remote_base (side m) d + k * 4 - remote_base (side m) d) with (k * 4) by lia.
  rewrite Z.div_mul by lia.
  destruct d; cbn [remote_opened remote_limit] in *;
    rewrite (proj2 (Z.ltb_ge _ _)), (proj2 (Z.leb_le _ _)) by lia; done.
Qed.

Lemma retired_remote_stream_stays_retired_witness :
  let m := manager_run (manager_new Server 4 1 100)
             [OpAccept 4; OpGetMut 4 (λ s, set_send (Some SDataRecvd) (set_recv (Some RDataRead) s));
              OpGc] in
  streams m !! 4 = None ∧ accept_stream 4 m = (Ok tt, m).
Proof.
  cbn zeta. split; [vm_compute; reflexivity|].
  pose proof (retired_remote_stream_stays_retired Server 4 1 100
    [OpAccept 4; OpGetMut 4 (λ s, set_send (Some SDataRecvd) (set_recv (Some RDataRead) s)); OpGc]
    Bidirectional 1 ltac:(unfold_ints; lia) ltac:(unfold_ints; lia)) as H.
  cbn zeta in H. change (remote_base _ Bidirectional + 1 * 4) with 4 in H. apply H.
  split; [lia|vm_compute; reflexivity].
Defined.
