(* ===== verification/Reassembly.v ===== *)
(** * Reassembly of stream data (starfish-quic/src/connection.rs)

    [buffer_stream_recv_data], [coalesce_stream_recv_data],
    [stream_has_received_all_data] and the copy loop of [stream_recv].  A
    receive buffer maps the offset of each stored segment to its bytes. *)

From S2P Require Import Prelude QuicError FlowControl Streams.

Abbreviation segment := (Z * bytes)%type.

(** The parts of a pending segment outside the stored range
    [existing_start, existing_end). *)
Definition trim_segment (existing_start existing_end : Z) (seg : segment) : qres (list segment) :=
  let '(segment_start, segment_data) := seg in
  segment_end ← add_u64 segment_start (len segment_data);
  let overlap_start := Z.max segment_start existing_start in
  let overlap_end := Z.min segment_end existing_end in
  if overlap_end <=? overlap_start then Ok [(segment_start, segment_data)]
  else
    before ← (if segment_start <? overlap_start then
                prefix_len ← sub_u64 overlap_start segment_start;
                d ← slice segment_data 0 prefix_len; Ok [(segment_start, d)]
              else Ok []);
    after ← (if overlap_end <? segment_end then
               suffix_offset ← sub_u64 overlap_end segment_start;
               d ← slice_from segment_data suffix_offset; Ok [(overlap_end, d)]
             else Ok []);
    Ok (before ++ after).

(** The loop over the stored ranges; [None] is its early return. *)
Fixpoint trim_pending (ranges : list (Z * Z)) (pending : list segment)
    : qres (option (list segment)) :=
  match ranges with
  | [] => Ok (Some pending)
  | (existing_start, existing_end) :: rest =>
      next ← mapM (trim_segment existing_start existing_end) pending;
      match mjoin next with
      | [] => Ok None
      | pending => trim_pending rest pending
      end
  end.

Definition segment_range (seg : segment) : qres (Z * Z) :=
  stop ← add_u64 seg.1 (len seg.2); Ok (seg.1, stop).

(** One turn of the merging loop; [merged] holds the last segment first. *)
Definition merge_segment (merged : list segment) (seg : segment) : qres (list segment) :=
  match merged with
  | (last_start, last_data) :: older =>
      last_end ← add_u64 last_start (len last_data);
      if seg.1 <=? last_end then
        overlap ← sub_u64 last_end seg.1;
        if overlap <? len seg.2 then
          d ← slice_from seg.2 overlap; Ok ((last_start, last_data ++ d) :: older)
        else Ok merged
      else Ok (seg :: merged)
  | [] => Ok [seg]
  end.

Fixpoint merge_segments (merged segs : list segment) : qres (list segment) :=
  match segs with
  | [] => Ok merged
  | seg :: rest => merged ← merge_segment merged seg; merge_segments merged rest
  end.

Definition insert_all (buf : gmap Z bytes) (segs : list segment) : gmap Z bytes :=
  foldl (λ b '(s, d), <[s := d]> b) buf segs.

Definition coalesce_stream_recv_data (recv_buf : gmap Z bytes) : qres (gmap Z bytes) :=
  merged ← merge_segments [] (merge_sort by_start (map_to_list recv_buf));
  Ok (insert_all ∅ (rev merged)).

Definition buffer_stream_recv_data (recv_buf : gmap Z bytes) (offset : Z) (data : bytes)
    : qres (gmap Z bytes) :=
  match data with
  | [] => Ok recv_buf
  | _ =>
      existing ← mapM segment_range (map_to_list recv_buf);
      pending ← trim_pending (merge_sort by_start existing) [(offset, data)];
      match pending with
      | None => Ok recv_buf
      | Some segs => coalesce_stream_recv_data (insert_all recv_buf segs)
      end
  end.

Fixpoint all_received (covered_until fsize : Z) (segs : list (Z * Z)) : bool :=
  match segs with
  | [] => false
  | (start, stop) :: rest =>
      if stop <=? covered_until then all_received covered_until fsize rest
      else if covered_until <? start then false
      else if fsize <=? stop then true
      else all_received stop fsize rest
  end.

Definition stream_has_received_all_data (s : StreamState) : qres bool :=
  match final_size s with
  | None => Ok false
  | Some fsize =>
      if fsize <=? recv_offset s then Ok true
      else
        segs ← mapM segment_range (map_to_list (recv_buf s));
        Ok (all_received (recv_offset s) fsize (merge_sort by_start segs))
  end.

(** The copy loop of [stream_recv] into a buffer with [room] bytes left:
    the bytes copied, the buffer and the offset.  Each turn copies at least
    one byte when no stored segment is empty, so [room] turns are enough. *)
Fixpoint copy_out (fuel : nat) (room : Z) (buf : gmap Z bytes) (offset : Z) (out : bytes)
    : qres (bytes * (gmap Z bytes * Z)) :=
  if len out <? room then
    match fuel with
    | O => Diverge
    | S fuel =>
        match buf !! offset with
        | None => Ok (out, (buf, offset))
        | Some data =>
            let buf := delete offset buf in
            let copy_len := Z.min (len data) (room - len out) in
            d ← slice data 0 copy_len;
            let out := out ++ d in
            offset ← add_u64 offset copy_len;
            buf ← (if copy_len <? len data then
                     rest ← slice_from data copy_len;
                     buffer_stream_recv_data buf offset rest
                   else Ok buf);
            copy_out fuel room buf offset out
        end
    end
  else Ok (out, (buf, offset)).
