(* ===== verification/ReassemblyProps.v ===== *)
(** * Reassembly: the buffer as a partial map from offsets to bytes

    A receive buffer stands for the partial function from stream offsets to
    bytes that its segments define.  Buffering a frame extends that function
    by the frame's bytes where it was not defined, reading removes a prefix,
    and the representation stays canonical: no empty segments, no two segments
    that touch. *)

From S2P Require Import Prelude QuicError FlowControl Streams Reassembly.

(** ** Segments *)

Definition seg_byte (seg : segment) (i b : Z) : Prop :=
  seg.1 ≤ i ∧ seg.2 !! Z.to_nat (i - seg.1) = Some b.
Definition seg_end (seg : segment) : Z := seg.1 + len seg.2.
Definition lholds (segs : list segment) (i b : Z) : Prop := ∃ seg, seg ∈ segs ∧ seg_byte seg i b.
Definition holds (buf : gmap Z bytes) (i b : Z) : Prop :=
  ∃ s d, buf !! s = Some d ∧ seg_byte (s, d) i b.
Definition covers (buf : gmap Z bytes) (i : Z) : Prop := ∃ b, holds buf i b.
Definition seg_ok (seg : segment) : Prop :=
  0 ≤ seg.1 ∧ seg.2 ≠ [] ∧ seg_end seg ≤ U64_MAX.
(** [x] ends before [y] starts, with a gap. *)
Definition sep (x y : segment) : Prop := seg_end x < y.1.
Definition segs_ok (buf : gmap Z bytes) : Prop := ∀ s d, buf !! s = Some d → seg_ok (s, d).
Definition buf_wf (buf : gmap Z bytes) : Prop :=
  segs_ok buf ∧
  ∀ s1 d1 s2 d2, buf !! s1 = Some d1 → buf !! s2 = Some d2 → s1 < s2 → sep (s1, d1) (s2, d2).
Definition consistent (P : Z → Z → Prop) : Prop := ∀ i b1 b2, P i b1 → P i b2 → b1 = b2.

Lemma len_pos {A} (l : list A) : l ≠ [] → 0 < len l.
Proof. destruct l; [done|]. rewrite len_cons. pose proof (len_nonneg l). lia. Qed.

Lemma seg_byte_range seg i b : seg_byte seg i b → seg.1 ≤ i < seg_end seg.
Proof.
  intros [H1 H2]. apply lookup_lt_Some in H2. unfold seg_end, len. lia.
Qed.

Lemma seg_byte_total seg i : seg.1 ≤ i < seg_end seg → ∃ b, seg_byte seg i b.
Proof.
  intros H. unfold seg_end, len in H.
  destruct (seg.2 !! Z.to_nat (i - seg.1)) as [b|] eqn:E; [exists b; split; [lia|done]|].
  apply lookup_ge_None in E. lia.
Qed.

Lemma seg_byte_fun seg : consistent (seg_byte seg).
Proof. intros i b1 b2 [_ H1] [_ H2]. congruence. Qed.

Lemma seg_byte_app s d1 d2 i b :
  seg_byte (s, d1 ++ d2) i b ↔ seg_byte (s, d1) i b ∨ seg_byte (s + len d1, d2) i b.
Proof.
  unfold seg_byte. cbn [fst snd]. rewrite lookup_app_Some. split.
  - intros [H1 [H|[H2 H3]]]; [tauto|right]. unfold len. split; [lia|].
    replace (Z.to_nat (i - (s + Z.of_nat (length d1))))
      with (Z.to_nat (i - s) - length d1)%nat by lia. done.
  - intros [[H1 H2]|[H1 H2]]; [tauto|]. pose proof (len_nonneg d1). split; [lia|right].
    unfold len in *. split; [lia|].
    replace (Z.to_nat (i - s) - length d1)%nat
      with (Z.to_nat (i - (s + Z.of_nat (length d1)))) by lia. done.
Qed.

Lemma seg_byte_nil s i b : ¬ seg_byte (s, []) i b.
Proof. intros [_ H]. cbn in H. by rewrite lookup_nil in H. Qed.

Lemma lholds_nil i b : ¬ lholds [] i b.
Proof. intros (? & H & _). by apply elem_of_nil in H. Qed.

Lemma lholds_cons seg l i b : lholds (seg :: l) i b ↔ seg_byte seg i b ∨ lholds l i b.
Proof.
  unfold lholds. setoid_rewrite elem_of_cons. split.
  - intros (x & [->|?] & ?); eauto.
  - intros [?|(x & ? & ?)]; eauto.
Qed.

Lemma lholds_app l k i b : lholds (l ++ k) i b ↔ lholds l i b ∨ lholds k i b.
Proof.
  induction l as [|x l IH]; cbn; [|rewrite !lholds_cons, IH; tauto].
  split; [tauto|]. intros [[]%lholds_nil|?]; done.
Qed.

Lemma lholds_perm l k i b : l ≡ₚ k → lholds l i b ↔ lholds k i b.
Proof. intros H. unfold lholds. by setoid_rewrite H. Qed.

Lemma holds_to_list buf i b : holds buf i b ↔ lholds (map_to_list buf) i b.
Proof.
  unfold holds, lholds. split.
  - intros (s & d & H & ?). exists (s, d). by rewrite elem_of_map_to_list.
  - intros ([s d] & H%elem_of_map_to_list & ?). eauto.
Qed.

Lemma covers_range buf i : covers buf i ↔ ∃ s d, buf !! s = Some d ∧ s ≤ i < s + len d.
Proof.
  split.
  - intros (b & s & d & H & Hb%seg_byte_range). eauto.
  - intros (s & d & H & Hr). destruct (seg_byte_total (s, d) i Hr) as [b Hb]. exists b, s, d. eauto.
Qed.

#[export] Instance covers_dec buf i : Decision (covers buf i).
Proof.
  refine (cast_if (decide (Exists (λ seg, seg.1 ≤ i < seg.1 + len seg.2) (map_to_list buf))));
    rewrite covers_range, Exists_exists in *.
  - destruct e as ([s d] & H%elem_of_map_to_list & ?). eauto.
  - intros (s & d & H & ?). apply n. exists (s, d). by rewrite elem_of_map_to_list.
Defined.

Lemma buf_wf_consistent buf : buf_wf buf → consistent (holds buf).
Proof.
  intros [_ Hsep] i b1 b2 (s1 & d1 & H1 & Hb1) (s2 & d2 & H2 & Hb2).
  pose proof (seg_byte_range _ _ _ Hb1). pose proof (seg_byte_range _ _ _ Hb2).
  destruct (Z.lt_trichotomy s1 s2) as [Hlt|[->|Hlt]].
  - specialize (Hsep _ _ _ _ H1 H2 Hlt). unfold sep in *. cbn in *. lia.
  - replace d2 with d1 in * by congruence. eapply seg_byte_fun; eauto.
  - specialize (Hsep _ _ _ _ H2 H1 Hlt). unfold sep in *. cbn in *. lia.
Qed.

(** Disjoint segments in ascending order between [lo] and [hi]. *)
Fixpoint chain (lo : Z) (segs : list segment) (hi : Z) : Prop :=
  match segs with
  | [] => lo ≤ hi
  | seg :: rest => lo ≤ seg.1 ∧ chain (seg_end seg) rest hi
  end.

Lemma chain_weaken segs : ∀ lo lo' hi, lo' ≤ lo → chain lo segs hi → chain lo' segs hi.
Proof. destruct segs as [|seg segs]; cbn; [lia|]. intros ???? []. split; [lia|done]. Qed.

Lemma chain_app l k : ∀ lo mid hi, chain lo l mid → chain mid k hi → chain lo (l ++ k) hi.
Proof.
  induction l as [|x l IH]; cbn; intros lo mid hi H1 H2; [by eapply chain_weaken|].
  destruct H1. split; [done|]. by eapply IH.
Qed.

Lemma chain_bounds segs : ∀ lo hi, chain lo segs hi → Forall seg_ok segs →
  lo ≤ hi ∧ ∀ seg, seg ∈ segs → lo ≤ seg.1 ∧ seg_end seg ≤ hi.
Proof.
  induction segs as [|x segs IH]; cbn; intros lo hi H Hok.
  { split; [done|]. by intros ? ?%elem_of_nil. }
  destruct H as [H1 H2]. apply Forall_cons in Hok as [(_ & Hx & _) Hok].
  destruct (IH _ _ H2 Hok) as [H3 H4]. apply len_pos in Hx. unfold seg_end in *.
  split; [lia|]. intros seg [->|Hs]%elem_of_cons; [lia|]. specialize (H4 _ Hs). lia.
Qed.

Lemma chain_nodup segs : ∀ lo hi, chain lo segs hi → Forall seg_ok segs → NoDup segs.*1.
Proof.
  induction segs as [|x segs IH]; cbn; intros lo hi H Hok; [constructor|].
  destruct H as [H1 H2]. apply Forall_cons in Hok as [(_ & Hx & _) Hok].
  constructor; [|by eapply IH]. intros (y & Hy & Hin)%list_elem_of_fmap.
  destruct (chain_bounds _ _ _ H2 Hok) as [_ Hb]. specialize (Hb _ Hin).
  apply len_pos in Hx. unfold seg_end in *. lia.
Qed.

(** ** Trimming a frame against the stored ranges *)

Lemma slice_prefix {A} (l1 l2 : list A) n :
  len l1 = n → slice (E := QuicError) (l1 ++ l2) 0 n = Ok l1.
Proof. intros H. apply (slice_at _ 0 l1 l2); [apply at_pos_0|lia]. Qed.

Lemma slice_suffix {A} (l1 l2 : list A) n :
  len l1 = n → slice_from (E := QuicError) (l1 ++ l2) n = Ok l2.
Proof. intros <-. apply slice_from_at, at_pos_prefix. Qed.

Definition outside (rg : Z * Z) (i : Z) : Prop := ¬ (rg.1 ≤ i < rg.2).

Lemma trim_segment_spec es ee seg : seg_ok seg → es < ee →
  ∃ out, trim_segment es ee seg = Ok out ∧ Forall seg_ok out ∧
    chain seg.1 out (seg_end seg) ∧
    ∀ i b, lholds out i b ↔ seg_byte seg i b ∧ outside (es, ee) i.
Proof.
  destruct seg as [s d]. intros (H0 & Hne & Hmax) Hr. unfold seg_end in *. cbn [fst snd] in *.
  apply len_pos in Hne as Hlen. unfold trim_segment, outside. rewrite add_u64_ok by done.
  rewrite bind_ok. cbn beta iota zeta. cbn [fst snd].
  destruct (_ <=? _) eqn:Ho.
  { eexists. split; [reflexivity|]. split_and!.
    - by repeat constructor.
    - cbn. unfold seg_end. cbn. lia.
    - intros i b. rewrite lholds_cons. pose proof (lholds_nil i b). split; [|tauto].
      intros [Hb|?]; [|done]. split; [done|]. apply seg_byte_range in Hb. unfold seg_end in Hb.
      cbn in Hb. lia. }
  remember (Z.max s es) as os eqn:Eos. remember (Z.min (s + len d) ee) as oe eqn:Eoe.
  destruct (split_at d (oe - s)) as (d12 & d3 & -> & Hd12); [lia|].
  destruct (split_at d12 (os - s)) as (d1 & d2 & -> & Hd1); [lia|].
  rewrite !len_app in *. pose proof (len_nonneg d3). pose proof (len_nonneg d1).
  exists ((if s <? os then [(s, d1)] else []) ++
          (if oe <? s + (len d1 + len d2 + len d3) then [(oe, d3)] else [])).
  split_and!.
  - destruct (s <? os) eqn:E1.
    + rewrite (sub_u64_ok os s), bind_ok by lia. cbn beta.
      rewrite <- (app_assoc d1 d2 d3), slice_prefix by lia. rewrite !bind_ok. cbn beta.
      dif; [|done]. rewrite sub_u64_ok, bind_ok by lia. cbn beta.
      by rewrite (app_assoc d1 d2 d3), slice_suffix by (rewrite len_app; lia).
    + rewrite bind_ok. cbn beta. dif; [|done]. rewrite sub_u64_ok, bind_ok by lia. cbn beta.
      by rewrite slice_suffix by (rewrite len_app; lia).
  - apply Forall_app. split.
    + destruct (s <? os) eqn:E1; [|constructor]. repeat constructor; cbn; [lia| |].
      * intros ->. rewrite len_nil in *. lia.
      * unfold seg_end. cbn. lia.
    + dif; [|constructor]. repeat constructor; cbn; [lia| |].
      * intros ->. rewrite len_nil in *. lia.
      * unfold seg_end. cbn. lia.
  - destruct (s <? os) eqn:E1; dif; cbn; unfold seg_end; cbn; lia.
  - intros i b. rewrite lholds_app, !seg_byte_app, len_app.
    assert (lholds (if s <? os then [(s, d1)] else []) i b ↔ seg_byte (s, d1) i b) as ->.
    { dif; [rewrite lholds_cons; pose proof (lholds_nil i b); tauto|].
      rewrite (len_0_nil d1) by lia. pose proof (lholds_nil i b). pose proof (seg_byte_nil s i b). tauto. }
    assert (lholds (if oe <? s + (len d1 + len d2 + len d3) then [(oe, d3)] else []) i b ↔
            seg_byte (oe, d3) i b) as ->.
    { dif; [rewrite lholds_cons; pose proof (lholds_nil i b); tauto|].
      rewrite (len_0_nil d3) by lia. pose proof (lholds_nil i b). pose proof (seg_byte_nil oe i b). tauto. }
    replace (s + (len d1 + len d2)) with oe by lia.
    pose proof (seg_byte_range (s, d1) i b) as R1. pose proof (seg_byte_range (s + len d1, d2) i b) as R2.
    pose proof (seg_byte_range (oe, d3) i b) as R3. unfold seg_end in *. cbn in *.
    split.
    + intros [Hb|Hb]; (split; [tauto|]); [specialize (R1 Hb)|specialize (R3 Hb)]; lia.
    + intros [[[?|Hb]|?] Hout]; [tauto| |tauto]. specialize (R2 Hb). lia.
Qed.

Lemma trim_list_spec es ee pending : ∀ lo hi, es < ee → Forall seg_ok pending → chain lo pending hi →
  ∃ outs, mapM (trim_segment es ee) pending = Ok outs ∧ Forall seg_ok (mjoin outs) ∧
    chain lo (mjoin outs) hi ∧
    ∀ i b, lholds (mjoin outs) i b ↔ lholds pending i b ∧ outside (es, ee) i.
Proof.
  induction pending as [|seg pending IH]; intros lo hi Hr Hok Hch.
  { exists []. split_and!; [done|constructor|done|]. intros i b. pose proof (lholds_nil i b).
    cbn. tauto. }
  apply Forall_cons in Hok as [Hseg Hok]. destruct Hch as [Hlo Hch].
  destruct (trim_segment_spec es ee seg Hseg Hr) as (out & E & Ho & Hc & Hb).
  destruct (IH _ _ Hr Hok Hch) as (outs & E' & Ho' & Hc' & Hb').
  exists (out :: outs). split_and!.
  - cbn [mapM]. by rewrite E, bind_ok, E', bind_ok.
  - cbn. by apply Forall_app.
  - cbn. eapply chain_app; [|exact Hc']. by eapply chain_weaken.
  - intros i b. cbn. rewrite lholds_app, lholds_cons, Hb, Hb'. tauto.
Qed.

Lemma trim_pending_spec ranges : ∀ pending lo hi,
  Forall (λ rg, rg.1 < rg.2) ranges → Forall seg_ok pending → chain lo pending hi →
  ∃ r, trim_pending ranges pending = Ok r ∧
    match r with
    | None => ∀ i b, lholds pending i b → ∃ rg, rg ∈ ranges ∧ rg.1 ≤ i < rg.2
    | Some out => Forall seg_ok out ∧ chain lo out hi ∧
        ∀ i b, lholds out i b ↔ lholds pending i b ∧ ∀ rg, rg ∈ ranges → outside rg i
    end.
Proof.
  induction ranges as [|[es ee] ranges IH]; intros pending lo hi Hr Hok Hch.
  { exists (Some pending). split_and!; [done..|]. intros i b. split; [|tauto].
    intros H. split; [done|]. by intros rg ?%elem_of_nil. }
  apply Forall_cons in Hr as [Hr Hrs]. cbn in Hr. cbn [trim_pending].
  destruct (trim_list_spec es ee pending lo hi Hr Hok Hch) as (outs & E & Ho & Hc & Hb).
  rewrite E, bind_ok. cbn beta.
  destruct (mjoin outs) as [|seg segs] eqn:Ej.
  - exists None. split; [done|]. intros i b Hi. exists (es, ee). split; [left|].
    destruct (decide (es ≤ i < ee)) as [|Hn]; [done|].
    destruct (lholds_nil i b). apply Hb. done.
  - destruct (IH (seg :: segs) lo hi Hrs Ho Hc) as (r & Er & Hres). exists r. split; [done|].
    destruct r as [out|].
    + destruct Hres as (? & ? & Hout). split_and!; [done..|]. intros i b.
      rewrite Hout, Hb. setoid_rewrite elem_of_cons. split.
      * intros [[? ?] Hall]. split; [done|]. intros rg [->|?]; auto.
      * intros [? Hall]. split_and!; auto.
    + intros i b Hi. destruct (decide (es ≤ i < ee)) as [|Hn].
      * exists (es, ee). split; [left|done].
      * destruct (Hres i b) as (rg & ? & ?); [apply Hb; done|]. exists rg. split; [by right|done].
Qed.

(** ** Inserting segments *)

Lemma insert_all_lookup l : ∀ buf s d, NoDup l.*1 →
  insert_all buf l !! s = Some d ↔ (s, d) ∈ l ∨ (buf !! s = Some d ∧ s ∉ l.*1).
Proof.
  induction l as [|[s0 d0] l IH]; intros buf s d Hnd.
  { cbn. split; [intros; right; split; [done|set_solver]|]. intros [?%elem_of_nil|[? _]]; done. }
  inversion Hnd as [|?? Hn Hnd']; subst. cbn [insert_all foldl]. fold (insert_all (<[s0:=d0]> buf) l).
  rewrite IH by done. rewrite elem_of_cons. cbn. rewrite not_elem_of_cons. split.
  - intros [?|[H ?]]; [tauto|]. destruct (decide (s0 = s)) as [->|].
    + rewrite lookup_insert_eq in H. left. left. congruence.
    + rewrite lookup_insert_ne in H by done. right. split_and!; [done|congruence|done].
  - intros [[[= -> ->]|?]|(H & ? & ?)]; [right|tauto|right].
    + split; [apply lookup_insert_eq|done].
    + rewrite lookup_insert_ne by congruence. done.
Qed.

Lemma insert_all_holds buf l i b : NoDup l.*1 → (∀ s, s ∈ l.*1 → buf !! s = None) →
  holds (insert_all buf l) i b ↔ holds buf i b ∨ lholds l i b.
Proof.
  intros Hnd Hfresh. unfold holds, lholds. setoid_rewrite insert_all_lookup; [|done]. split.
  - intros (s & d & [?|[? ?]] & ?); [right; exists (s, d); done|left; eauto].
  - intros [(s & d & ? & ?)|([s d] & ? & ?)]; exists s, d; [|tauto]. split; [right|done].
    split; [done|]. intros Hs%Hfresh. congruence.
Qed.

(** ** Coalescing *)

Lemma merge_segment_overlap ls ld s d i b :
  ls ≤ s ≤ seg_end (ls, ld) → (∀ i b1 b2, seg_byte (ls, ld) i b1 → seg_byte (s, d) i b2 → b1 = b2) →
  seg_byte (s, d) i b → i < seg_end (ls, ld) → seg_byte (ls, ld) i b.
Proof.
  intros Hr Hcons Hb Hi. pose proof (seg_byte_range _ _ _ Hb) as Hb'. cbn in *.
  destruct (seg_byte_total (ls, ld) i) as [b' Hb'']; [cbn; lia|].
  by rewrite <- (Hcons _ _ _ Hb'' Hb).
Qed.

Lemma merge_segment_spec merged seg :
  Forall seg_ok merged → seg_ok seg → StronglySorted (flip sep) merged →
  (∀ h, head merged = Some h → h.1 ≤ seg.1) → consistent (lholds (seg :: merged)) →
  ∃ out, merge_segment merged seg = Ok out ∧ Forall seg_ok out ∧ StronglySorted (flip sep) out ∧
    (∀ h, head out = Some h → h.1 ≤ seg.1) ∧
    ∀ i b, lholds out i b ↔ lholds (seg :: merged) i b.
Proof.
  intros Hok Hseg Hss Hhd Hcons. destruct merged as [|[ls ld] older]; cbn [merge_segment].
  { exists [seg]. split_and!; [done|by apply Forall_singleton|by repeat constructor| |done].
    intros h [= <-]. done. }
  specialize (Hhd _ eq_refl). cbn in Hhd.
  apply Forall_cons in Hok as [[Hl0 [Hlne Hlmax]] Hok]. unfold seg_end in Hlmax. cbn in *.
  inversion Hss as [|?? Hss' Hlast]; subst.
  rewrite add_u64_ok, bind_ok by done. cbn beta. destruct seg as [s d]. cbn [fst snd] in *.
  destruct Hseg as (Hs0 & Hne & Hmax). unfold seg_end in Hmax. cbn in *. dif.
  - assert (∀ i b1 b2, seg_byte (ls, ld) i b1 → seg_byte (s, d) i b2 → b1 = b2) as Hc.
    { intros i b1 b2 H1 H2. apply (Hcons i); rewrite !lholds_cons; tauto. }
    rewrite sub_u64_ok, bind_ok by lia. cbn beta. dif.
    + destruct (split_at d (ls + len ld - s)) as (d1 & d2 & -> & Hd1); [lia|].
      rewrite len_app in *. rewrite slice_suffix, bind_ok by lia. pose proof (len_nonneg d2).
      eexists. split; [reflexivity|]. split_and!.
      * constructor; [|done]. split_and!; cbn; [done| |unfold seg_end; cbn; rewrite len_app; lia].
        intros [-> _]%app_nil. done.
      * constructor; [done|]. eapply Forall_impl; [exact Hlast|]. unfold flip, sep. done.
      * intros h [= <-]. done.
      * intros i b. rewrite !lholds_cons, !seg_byte_app.
        replace (s + len d1) with (ls + len ld) by lia.
        assert (seg_byte (s, d1) i b → seg_byte (ls, ld) i b); [|tauto].
        intros Hb. pose proof (seg_byte_range _ _ _ Hb) as Hr. unfold seg_end in Hr. cbn in Hr.
        eapply (merge_segment_overlap ls ld s (d1 ++ d2)); unfold seg_end; cbn; [lia|done| |lia].
        rewrite seg_byte_app. tauto.
    + eexists. split; [reflexivity|]. split_and!; [by constructor|by constructor| |].
      * intros h [= <-]. done.
      * intros i b. rewrite !lholds_cons.
        assert (seg_byte (s, d) i b → seg_byte (ls, ld) i b); [|tauto].
        intros Hb. pose proof (seg_byte_range _ _ _ Hb) as Hr. unfold seg_end in Hr. cbn in Hr.
        eapply merge_segment_overlap; unfold seg_end; cbn; [|done|done|]; cbn; lia.
  - eexists. split; [reflexivity|]. split_and!.
    + constructor; [|by constructor]. by split_and!.
    + constructor; [done|]. constructor; [unfold flip, sep, seg_end; cbn; lia|].
      eapply Forall_impl; [exact Hlast|]. apply len_pos in Hlne.
      unfold flip, sep. cbn. intros x. unfold seg_end. lia.
    + intros h [= <-]. done.
    + intros i b. done.
Qed.

Lemma merge_segments_spec l : ∀ merged,
  Forall seg_ok merged → Forall seg_ok l → StronglySorted (flip sep) merged →
  StronglySorted by_start l → (∀ h seg, head merged = Some h → seg ∈ l → h.1 ≤ seg.1) →
  consistent (lholds (l ++ merged)) →
  ∃ out, merge_segments merged l = Ok out ∧ Forall seg_ok out ∧ StronglySorted (flip sep) out ∧
    ∀ i b, lholds out i b ↔ lholds (l ++ merged) i b.
Proof.
  induction l as [|seg l IH]; intros merged Hok Hl Hss Hsorted Hhd Hcons; cbn [merge_segments].
  { exists merged. done. }
  apply Forall_cons in Hl as [Hseg Hl]. inversion Hsorted as [|?? Hsorted' Hle]; subst.
  rewrite Forall_forall in Hle. unfold by_start in Hle.
  destruct (merge_segment_spec merged seg Hok Hseg Hss) as (out & E & Ho & Hso & Hh & Hb).
  { intros h Hh. apply Hhd; [done|left]. }
  { intros i b1 b2 H1 H2. apply (Hcons i); cbn; rewrite lholds_cons, lholds_app;
      rewrite lholds_cons in *; tauto. }
  rewrite E, bind_ok. cbn beta.
  assert (∀ i b, lholds (l ++ out) i b ↔ lholds (seg :: l ++ merged) i b) as Heq.
  { intros i b. rewrite lholds_cons, !lholds_app, Hb, lholds_cons. tauto. }
  destruct (IH out) as (out' & E' & Ho' & Hso' & Hb'); [done..| | |].
  - intros h s Hhd' Hs. specialize (Hh _ Hhd'). specialize (Hle _ Hs). lia.
  - intros i b1 b2. rewrite !Heq. apply Hcons.
  - exists out'. split_and!; [done..|]. intros i b. by rewrite Hb', Heq.
Qed.

Lemma sep_nodup l : Forall seg_ok l → StronglySorted sep l → NoDup l.*1.
Proof.
  induction l as [|x l IH]; intros Hok Hs; cbn; [constructor|].
  apply Forall_cons in Hok as [(_ & Hx & _) Hok]. inversion Hs as [|?? Hs' Hall]; subst.
  constructor; [|by apply IH]. intros (y & Hy & Hin)%list_elem_of_fmap.
  rewrite Forall_forall in Hall. specialize (Hall _ Hin). apply len_pos in Hx.
  unfold sep, seg_end in Hall. lia.
Qed.

Lemma sorted_sep_lookup l x y : StronglySorted sep l → x ∈ l → y ∈ l → x.1 < y.1 →
  Forall seg_ok l → sep x y.
Proof.
  intros Hs Hx Hy Hlt Hok. induction Hs as [|z l Hs IH Hall]; [by apply elem_of_nil in Hx|].
  apply Forall_cons in Hok as [(_ & Hz & _) Hok]. rewrite Forall_forall in Hall.
  apply len_pos in Hz.
  apply elem_of_cons in Hx as [->|Hx], Hy as [->|Hy]; [lia|by apply Hall| |by apply IH].
  specialize (Hall _ Hx). unfold sep, seg_end in Hall. lia.
Qed.

Lemma coalesce_spec buf : segs_ok buf → consistent (holds buf) →
  ∃ buf', coalesce_stream_recv_data buf = Ok buf' ∧ buf_wf buf' ∧
    ∀ i b, holds buf' i b ↔ holds buf i b.
Proof.
  intros Hok Hcons. unfold coalesce_stream_recv_data.
  set (l := merge_sort by_start (map_to_list buf)).
  assert (l ≡ₚ map_to_list buf) as Hperm by apply merge_sort_Permutation.
  assert (∀ i b, lholds l i b ↔ holds buf i b) as Hl.
  { intros i b. by rewrite (lholds_perm _ _ i b Hperm), holds_to_list. }
  destruct (merge_segments_spec l []) as (out & E & Ho & Hso & Hb).
  - constructor.
  - rewrite Hperm. apply Forall_forall. intros [s d] H%elem_of_map_to_list. by apply Hok.
  - constructor.
  - apply (StronglySorted_merge_sort _).
  - done.
  - intros i b1 b2. rewrite app_nil_r, !Hl. apply Hcons.
  - rewrite E, bind_ok. cbn beta. eexists. split; [reflexivity|].
    apply StronglySorted_rev in Hso as Hs.
    assert (Forall seg_ok (rev out)) as Hro by (by rewrite <- Permutation_rev).
    pose proof (sep_nodup _ Hro Hs) as Hnd.
    assert (∀ s d, insert_all ∅ (rev out) !! s = Some d ↔ (s, d) ∈ rev out) as Hlook.
    { intros s d. rewrite insert_all_lookup by done. rewrite lookup_empty. intuition done. }
    split; [split|].
    + intros s d H%Hlook. rewrite Forall_forall in Hro. by apply Hro.
    + intros s1 d1 s2 d2 H1%Hlook H2%Hlook Hlt. by eapply sorted_sep_lookup.
    + intros i b. rewrite insert_all_holds by (done || (intros; apply lookup_empty)).
      rewrite (lholds_perm _ _ i b (symmetry (Permutation_rev out))), Hb, app_nil_r, Hl.
      split; [|tauto]. intros [(? & ? & H & _)|?]; [|done]. by rewrite lookup_empty in H.
Qed.

(** ** Buffering *)

Lemma segment_range_ok seg :
  seg_end seg ≤ U64_MAX → segment_range seg = Ok (seg.1, seg_end seg).
Proof. intros H. unfold segment_range. by rewrite add_u64_ok by exact H. Qed.

Lemma segment_ranges_spec buf l : segs_ok buf → (∀ seg, seg ∈ l → buf !! seg.1 = Some seg.2) →
  mapM segment_range l = Ok ((λ seg, (seg.1, seg_end seg)) <$> l).
Proof.
  intros Hok Hin. induction l as [|seg l IH]; [done|]. cbn [mapM].
  pose proof (Hin seg ltac:(left)) as Hs. apply Hok in Hs as (_ & _ & Hmax).
  rewrite segment_range_ok, bind_ok by (by destruct seg). rewrite IH; [done|].
  intros s ?. apply Hin. by right.
Qed.

(** Segments outside the stored ranges, added to the buffer. *)
Lemma insert_pending_spec buf offset data segs lo hi :
  buf_wf buf → Forall seg_ok segs → chain lo segs hi →
  (∀ i b, lholds segs i b ↔ ¬ covers buf i ∧ seg_byte (offset, data) i b) →
  ∃ buf', coalesce_stream_recv_data (insert_all buf segs) = Ok buf' ∧ buf_wf buf' ∧
    ∀ i b, holds buf' i b ↔
      holds buf i b ∨ (¬ covers buf i ∧ seg_byte (offset, data) i b).
Proof.
  intros Hwf Hok Hch Hb'. pose proof (chain_nodup _ _ _ Hch Hok) as Hnd.
  assert (∀ s, s ∈ segs.*1 → buf !! s = None) as Hfresh.
  { intros s ([s' d] & -> & Hin)%list_elem_of_fmap. cbn.
    destruct (buf !! s') as [d'|] eqn:E; [|done]. exfalso.
    rewrite Forall_forall in Hok. destruct (Hok _ Hin) as (_ & Hd & _). cbn in Hd.
    destruct (seg_byte_total (s', d) s') as [b Hb0].
    { apply len_pos in Hd. unfold seg_end. cbn. lia. }
    destruct (proj1 (Hb' s' b)) as [Hnc _]; [exists (s', d); done|]. apply Hnc, covers_range.
    exists s', d'. apply Hwf in E as Ed. destruct Ed as (_ & Hd' & _). apply len_pos in Hd'. cbn in Hd'.
    split; [done|lia]. }
  assert (∀ i b, holds (insert_all buf segs) i b ↔
            holds buf i b ∨ (¬ covers buf i ∧ seg_byte (offset, data) i b)) as Hh.
  { intros i b. by rewrite insert_all_holds, Hb'. }
  destruct (coalesce_spec (insert_all buf segs)) as (buf' & E & Hwf' & Heq).
  - intros s d [Hin|[Hin _]]%insert_all_lookup; [|by apply Hwf|done].
    rewrite Forall_forall in Hok. by apply Hok.
  - intros i b1 b2. rewrite !Hh. intros [H1|[Hn1 H1]] [H2|[Hn2 H2]].
    + by eapply (buf_wf_consistent buf).
    + destruct Hn2. by exists b1.
    + destruct Hn1. by exists b2.
    + by eapply seg_byte_fun.
  - exists buf'. split_and!; [done|exact Hwf'|]. intros i b. by rewrite Heq, Hh.
Qed.

Lemma buffer_spec buf offset data :
  buf_wf buf → 0 ≤ offset → offset + len data ≤ U64_MAX →
  ∃ buf', buffer_stream_recv_data buf offset data = Ok buf' ∧ buf_wf buf' ∧
    ∀ i b, holds buf' i b ↔
      holds buf i b ∨ (¬ covers buf i ∧ seg_byte (offset, data) i b).
Proof.
  intros Hwf H0 Hmax. destruct data as [|b0 data0] eqn:Ed.
  { exists buf. split_and!; [done|exact Hwf|]. intros i b.
    pose proof (seg_byte_nil offset i b). tauto. }
  rewrite <- Ed in *. assert (data ≠ []) as Hne by (by rewrite Ed). clear Ed.
  replace (buffer_stream_recv_data buf offset data) with
    (existing ← mapM segment_range (map_to_list buf);
     pending ← trim_pending (merge_sort by_start existing) [(offset, data)];
     match pending with
     | None => Ok buf
     | Some segs => coalesce_stream_recv_data (insert_all buf segs)
     end) by (destruct data; done).
  rewrite (segment_ranges_spec buf); [|apply Hwf|by intros [s d] ?%elem_of_map_to_list].
  rewrite bind_ok. cbn beta.
  set (ranges := merge_sort by_start ((λ seg, (seg.1, seg_end seg)) <$> map_to_list buf)).
  assert (∀ rg, rg ∈ ranges ↔ ∃ s d, buf !! s = Some d ∧ rg = (s, s + len d)) as Hranges.
  { intros rg. unfold ranges. rewrite merge_sort_Permutation, list_elem_of_fmap. split.
    - intros ([s d] & -> & H%elem_of_map_to_list). eauto.
    - intros (s & d & H & ->). exists (s, d). by rewrite elem_of_map_to_list. }
  assert (∀ i, (∃ rg, rg ∈ ranges ∧ rg.1 ≤ i < rg.2) ↔ covers buf i) as Hcov.
  { intros i. rewrite covers_range. setoid_rewrite Hranges. split.
    - intros (rg & (s & d & ? & ->) & ?). eauto.
    - intros (s & d & ? & ?). exists (s, s + len d). eauto. }
  destruct (trim_pending_spec ranges [(offset, data)] offset (offset + len data))
    as (r & Er & Hr).
  { apply Forall_forall. intros rg (s & d & H & ->)%Hranges. apply Hwf in H as (_ & Hd & _).
    apply len_pos in Hd. cbn in *. lia. }
  { apply Forall_singleton. done. }
  { cbn. unfold seg_end. cbn. lia. }
  rewrite Er, bind_ok. cbn beta. destruct r as [segs|].
  - destruct Hr as (Hok & Hch & Hb). 
    assert (∀ i b, lholds segs i b ↔ ¬ covers buf i ∧ seg_byte (offset, data) i b) as Hb'.
    { intros i b. rewrite Hb, lholds_cons, <- Hcov. pose proof (lholds_nil i b). split.
      - intros [[?|?] Hall]; [|done]. split; [|done]. intros (rg & Hrg & ?). by apply (Hall rg).
      - intros [Hn ?]. split; [tauto|]. intros rg Hrg ?. apply Hn. eauto. }
    by apply (insert_pending_spec buf offset data segs offset (offset + len data)).
  - exists buf. split_and!; [done|exact Hwf|]. intros i b. split; [tauto|].
    intros [?|[Hn Hb]]; [done|]. destruct Hn. apply Hcov, (Hr i b), lholds_cons. by left.
Qed.

(** ** Reading *)

(** Nothing is stored below the read offset. *)
Definition fresh (off : Z) (buf : gmap Z bytes) : Prop := ∀ s d, buf !! s = Some d → off ≤ s.

Lemma fresh_holds off buf i b : fresh off buf → holds buf i b → off ≤ i.
Proof. intros Hf (s & d & H & Hb%seg_byte_range). specialize (Hf _ _ H). cbn in *. lia. Qed.

Lemma wf_lookup_covers buf s d : buf_wf buf → buf !! s = Some d → covers buf s.
Proof.
  intros Hwf H. apply covers_range. exists s, d. split; [done|].
  apply Hwf in H as (_ & Hd & _). apply len_pos in Hd. cbn in Hd. lia.
Qed.

Lemma fresh_not_covered off buf : fresh off buf → buf !! off = None → ¬ covers buf off.
Proof.
  intros Hf Hn (s & d & H & Hr)%covers_range. specialize (Hf _ _ H).
  replace s with off in * by lia. congruence.
Qed.

(** Taking the segment at the read offset. *)
Lemma delete_first_spec buf off d : buf_wf buf → fresh off buf → buf !! off = Some d →
  buf_wf (delete off buf) ∧ fresh (off + len d) (delete off buf) ∧
  ¬ covers buf (off + len d) ∧
  ∀ i b, holds (delete off buf) i b ↔ holds buf i b ∧ off + len d ≤ i.
Proof.
  intros [Hok Hsep] Hf Hd. pose proof (Hok _ _ Hd) as (_ & Hne & _). apply len_pos in Hne.
  cbn in Hne.
  assert (∀ s d', delete off buf !! s = Some d' ↔ buf !! s = Some d' ∧ off + len d < s) as Hdel.
  { intros s d'. rewrite lookup_delete_Some. split.
    - intros [? H]. split; [done|]. specialize (Hf _ _ H).
      apply (Hsep off d s d'); [done..|lia].
    - intros [H ?]. split; [lia|done]. }
  split_and!.
  - split; [intros s d' [? _]%Hdel; by apply Hok|].
    intros s1 d1 s2 d2 [? _]%Hdel [? _]%Hdel. by apply Hsep.
  - intros s d' [? ?]%Hdel. lia.
  - intros (s & d' & H & Hr)%covers_range. specialize (Hf _ _ H) as Hs.
    destruct (decide (s = off)) as [->|]; [replace d' with d in * by congruence; lia|].
    assert (off < s) as Hlt by lia. specialize (Hsep _ _ _ _ Hd H Hlt).
    unfold sep, seg_end in Hsep. cbn in Hsep. lia.
  - intros i b. split.
    + intros (s & d' & [? ?]%Hdel & Hb). split; [exists s, d'; done|].
      apply seg_byte_range in Hb. cbn in Hb. lia.
    + intros [(s & d' & H & Hb) Hi]. exists s, d'. split; [|done]. apply Hdel. split; [done|].
      specialize (Hf _ _ H). destruct (decide (s = off)) as [->|].
      * replace d' with d in * by congruence. apply seg_byte_range in Hb. unfold seg_end in Hb.
        cbn in Hb. lia.
      * apply (Hsep off d s d'); [done..|lia].
Qed.

Record read_result (buf : gmap Z bytes) (off room : Z) (out : bytes) (buf' : gmap Z bytes) : Prop := {
  rr_wf : buf_wf buf';
  rr_fresh : fresh (off + len out) buf';
  rr_room : len out ≤ room;
  rr_out i b : seg_byte (off, out) i b → holds buf i b;
  rr_max : len out < room → ¬ covers buf (off + len out);
  rr_rest i b : holds buf' i b ↔ holds buf i b ∧ off + len out ≤ i;
}.

Lemma copy_none fuel room buf off : buf !! off = None →
  copy_out (S fuel) room buf off [] = Ok ([], (buf, off)).
Proof. intros H. cbn [copy_out]. rewrite H. by dif. Qed.

(** A segment that fits is taken whole. *)
Lemma copy_whole buf off room d : buf_wf buf → fresh off buf → buf !! off = Some d →
  len d ≤ room →
  copy_out (Z.to_nat room) room buf off [] = Ok (d, (delete off buf, off + len d)).
Proof.
  intros Hwf Hf Hd Hroom. pose proof (proj1 Hwf _ _ Hd) as (_ & Hne & Hmax).
  apply len_pos in Hne. unfold seg_end in Hmax. cbn in *.
  destruct (delete_first_spec buf off d Hwf Hf Hd) as (Hwf' & Hf' & Hnc & _).
  destruct (Z.to_nat room) as [|fuel] eqn:Efuel; [lia|]. cbn [copy_out]. rewrite len_nil, Hd.
  rewrite (proj2 (Z.ltb_lt 0 room)) by lia. cbn zeta.
  rewrite Z.sub_0_r, Z.min_l by lia. rewrite <- (app_nil_r d) at 1.
  rewrite slice_prefix, bind_ok by done. cbn beta.
  rewrite add_u64_ok, bind_ok by lia. cbn beta. rewrite Z.ltb_irrefl, bind_ok. cbn [app].
  assert (delete off buf !! (off + len d) = None) as Hn.
  { destruct (delete off buf !! _) as [d'|] eqn:E; [|done]. destruct Hnc.
    apply lookup_delete_Some in E as [_ E]. by eapply wf_lookup_covers. }
  destruct fuel as [|fuel]; cbn [copy_out]; rewrite ?Hn; dif; try done. lia.
Qed.

(** A segment longer than the room is split and its rest is stored again. *)
Lemma copy_part buf off d1 d2 : buf_wf buf → fresh off buf → buf !! off = Some (d1 ++ d2) →
  d1 ≠ [] → d2 ≠ [] →
  ∃ buf', copy_out (Z.to_nat (len d1)) (len d1) buf off [] = Ok (d1, (buf', off + len d1)) ∧
    buf_wf buf' ∧
    ∀ i b, holds buf' i b ↔ holds buf i b ∧ off + len d1 ≤ i.
Proof.
  intros Hwf Hf Hd Hne1 Hne2. pose proof (proj1 Hwf _ _ Hd) as (H0 & _ & Hmax).
  apply len_pos in Hne1, Hne2. unfold seg_end in Hmax. cbn in *. rewrite len_app in Hmax.
  destruct (delete_first_spec buf off _ Hwf Hf Hd) as (Hwf' & Hf' & Hnc & Hdel).
  destruct (Z.to_nat (len d1)) as [|fuel] eqn:Efuel; [lia|]. cbn [copy_out]. rewrite len_nil, Hd.
  rewrite (proj2 (Z.ltb_lt 0 (len d1))) by lia. cbn zeta. rewrite len_app in *.
  rewrite Z.sub_0_r, Z.min_r by lia.
  rewrite slice_prefix, bind_ok by done. cbn beta. rewrite add_u64_ok, bind_ok by lia. cbn beta.
  rewrite (proj2 (Z.ltb_lt _ _)) by lia. rewrite slice_suffix, bind_ok by done. cbn beta.
  destruct (buffer_spec (delete off buf) (off + len d1) d2) as (buf' & E & Hwf2 & Hb);
    [done|lia|lia|].
  exists buf'. split_and!.
  - rewrite E, bind_ok. cbn [app]. destruct fuel; cbn [copy_out]; by rewrite Z.ltb_irrefl.
  - done.
  - intros i b. rewrite Hb, Hdel. split.
    + intros [[? ?]|[_ Hs]]; [split; [done|lia]|]. split.
      * exists off, (d1 ++ d2). split; [done|]. apply seg_byte_app. by right.
      * apply seg_byte_range in Hs. cbn in Hs. lia.
    + intros [Hh Hi]. destruct (decide (off + (len d1 + len d2) ≤ i)); [by left|right]. split.
      * intros (b' & Hb'). apply Hdel in Hb'. lia.
      * destruct Hh as (s & d & H & Hsb). specialize (Hf _ _ H).
        destruct (decide (s = off)) as [->|].
        -- replace d with (d1 ++ d2) in Hsb by congruence.
           apply seg_byte_app in Hsb as [Hsb|?]; [|done].
           apply seg_byte_range in Hsb. unfold seg_end in Hsb. cbn in Hsb. lia.
        -- destruct Hwf as [_ Hsep]. specialize (Hsep _ _ _ _ Hd H ltac:(lia)).
           unfold sep, seg_end in Hsep. cbn in Hsep. rewrite len_app in Hsep.
           apply seg_byte_range in Hsb. cbn in Hsb. lia.
Qed.

Lemma holds_fresh off buf : segs_ok buf → (∀ i b, holds buf i b → off ≤ i) → fresh off buf.
Proof.
  intros Hok Hh s d Hs. apply Hok in Hs as Hd. destruct Hd as (_ & Hne & _). apply len_pos in Hne.
  cbn in Hne. destruct (seg_byte_total (s, d) s) as [b Hb]; [unfold seg_end; cbn; lia|].
  apply (Hh s b). by exists s, d.
Qed.

Lemma copy_out_spec buf off room : buf_wf buf → fresh off buf → 0 ≤ room →
  ∃ out buf', copy_out (Z.to_nat room) room buf off [] = Ok (out, (buf', off + len out)) ∧
    read_result buf off room out buf'.
Proof.
  intros Hwf Hf Hroom. destruct (decide (room = 0)) as [->|].
  { exists [], buf. cbn [copy_out Z.to_nat]. rewrite (@len_nil Z), Z.add_0_r. split; [done|]. split; rewrite ?len_nil, ?Z.add_0_r;
      try done; try lia.
    - intros i b []%seg_byte_nil.
    - intros i b. split; [|tauto]. intros H. split; [done|]. by eapply fresh_holds. }
  destruct (buf !! off) as [d|] eqn:Hd.
  - destruct (decide (len d ≤ room)).
    + destruct (delete_first_spec buf off d Hwf Hf Hd) as (Hwf' & Hf' & Hnc & Hdel).
      exists d, (delete off buf). split; [by apply copy_whole|]. split; try done.
      intros i b Hb. by exists off, d.
    + destruct (split_at d room) as (d1 & d2 & -> & Hd1); [lia|]. rewrite len_app in *.
      subst room. destruct (copy_part buf off d1 d2) as (buf' & E & Hwf' & Hb); try done.
      { intros ->. pose proof (@len_nil Z). lia. }
      { intros ->. pose proof (@len_nil Z). lia. }
      exists d1, buf'. split; [done|]. split; try done; try lia.
      * apply holds_fresh; [apply Hwf'|]. intros i b [_ ?]%Hb. done.
      * intros i b Hs. exists off, (d1 ++ d2). split; [done|]. apply seg_byte_app. by left.
  - exists [], buf. rewrite len_nil, Z.add_0_r.
    destruct (Z.to_nat room) as [|fuel] eqn:E; [lia|]. split; [by apply copy_none|].
    split; rewrite ?len_nil, ?Z.add_0_r; try done.
    + intros i b []%seg_byte_nil.
    + intros _. by apply fresh_not_covered.
    + intros i b. split; [|tauto]. intros H. split; [done|]. by eapply fresh_holds.
Qed.

(** ** A stored byte below the read offset *)

(** When the byte before the read offset and the byte at it are both stored,
    they are in one segment, which the read loop does not find. *)
Definition stuck (off : Z) (buf : gmap Z bytes) : Prop := covers buf (off - 1) ∧ covers buf off.

Lemma stuck_lookup off buf : buf_wf buf → stuck off buf → buf !! off = None.
Proof.
  intros [_ Hsep] [(s & d & H & Hr)%covers_range _]. destruct (buf !! off) as [d'|] eqn:E; [|done].
  specialize (Hsep _ _ _ _ H E ltac:(lia)). unfold sep, seg_end in Hsep. cbn in Hsep. lia.
Qed.

Lemma stuck_copy off buf room : 0 ≤ room → buf_wf buf → stuck off buf →
  copy_out (Z.to_nat room) room buf off [] = Ok ([], (buf, off)).
Proof.
  intros Hr Hwf Hs. pose proof (stuck_lookup _ _ Hwf Hs) as Hn.
  destruct (Z.to_nat room) eqn:E; [|by apply copy_none].
  cbn [copy_out]. rewrite len_nil, (proj2 (Z.ltb_ge _ _)) by lia. done.
Qed.

Lemma stuck_buffer off buf buf' : (∀ i b, holds buf i b → holds buf' i b) →
  stuck off buf → stuck off buf'.
Proof. intros Hm [[b1 H1] [b2 H2]]. split; [exists b1|exists b2]; by apply Hm. Qed.

(** ** Knowing that everything has arrived *)

Lemma all_received_spec fsize l : ∀ c,
  StronglySorted sep l → Forall seg_ok l → c < fsize →
  all_received c fsize ((λ seg, (seg.1, seg_end seg)) <$> l) = true ↔
  ∀ i, c ≤ i < fsize → ∃ seg, seg ∈ l ∧ seg.1 ≤ i < seg_end seg.
Proof.
  induction l as [|x l IH]; intros c Hs Hok Hc; cbn [fmap list_fmap all_received].
  { split; [done|]. intros H. destruct (H c) as (? & ?%elem_of_nil & _); [lia|done]. }
  inversion Hs as [|?? Hs' Hall]; subst. apply Forall_cons in Hok as [(_ & Hx & _) Hok].
  apply len_pos in Hx. rewrite Forall_forall in Hall. cbn [fst snd].
  assert (seg_end x = x.1 + len x.2) as Ex by done.
  assert (∀ c', seg_end x ≤ c' → (∀ i, c' ≤ i < fsize → ∃ seg, seg ∈ x :: l ∧ seg.1 ≤ i < seg_end seg) ↔
            (∀ i, c' ≤ i < fsize → ∃ seg, seg ∈ l ∧ seg.1 ≤ i < seg_end seg)) as Hdrop.
  { intros c' Hc'. split; intros H i Hi; destruct (H i Hi) as (seg & Hin & ?).
    - apply elem_of_cons in Hin as [->|?]; [lia|]. eauto.
    - exists seg. split; [by right|done]. }
  dif; [rewrite IH by (done || lia); symmetry; apply Hdrop; lia|].
  dif.
  { split; [done|]. intros H. destruct (H c) as (seg & Hin & ?); [lia|].
    apply elem_of_cons in Hin as [->|Hin]; [lia|]. specialize (Hall _ Hin). unfold sep in Hall. lia. }
  dif.
  { split; [|done]. intros _ i Hi. exists x. split; [left|lia]. }
  rewrite IH by (done || lia). rewrite <- (Hdrop (seg_end x)) by lia. split; intros H i Hi.
  - destruct (decide (i < seg_end x)); [exists x; split; [left|lia]|]. apply H. lia.
  - apply H. lia.
Qed.

Lemma fmap_sorted_ranges l : StronglySorted by_start ((λ seg : segment, (seg.1, seg_end seg)) <$> l) →
  StronglySorted by_start l.
Proof.
  induction l as [|x l IH]; [constructor|]. cbn. intros H. inversion H as [|?? H1 H2]; subst.
  constructor; [by apply IH|]. rewrite Forall_fmap in H2. exact H2.
Qed.

Lemma sorted_start_sep l : StronglySorted by_start l → NoDup l.*1 →
  (∀ x y, x ∈ l → y ∈ l → x.1 < y.1 → sep x y) → StronglySorted sep l.
Proof.
  induction 1 as [|x l Hs IH Hx]; intros Hnd Hsep; [constructor|].
  cbn in Hnd. inversion Hnd as [|?? Hn Hnd']; subst. constructor.
  - apply IH; [done|]. intros ????. apply Hsep; by right.
  - rewrite Forall_forall in *. intros y Hy. apply Hsep; [left|by right|].
    specialize (Hx _ Hy). unfold by_start in Hx.
    assert (x.1 ≠ y.1) by (intros E; apply Hn; rewrite E; by apply list_elem_of_fmap_2). lia.
Qed.

(** The state machine learns that a stream is complete exactly when every
    byte between the read offset and the final size is stored. *)
Lemma received_all_spec s : buf_wf (recv_buf s) →
  ∃ r, stream_has_received_all_data s = Ok r ∧
    (r = true ↔ ∃ fsize, final_size s = Some fsize ∧
                 ∀ i, recv_offset s ≤ i < fsize → covers (recv_buf s) i).
Proof.
  intros Hwf. unfold stream_has_received_all_data. destruct (final_size s) as [fsize|].
  2:{ exists false. split; [done|]. split; [done|]. by intros (? & ? & _). }
  dif.
  { exists true. split; [done|]. split; [|done]. intros _. exists fsize. split; [done|]. lia. }
  rewrite (segment_ranges_spec (recv_buf s)); [|apply Hwf|by intros [? ?] ?%elem_of_map_to_list].
  rewrite bind_ok. eexists. split; [reflexivity|].
  set (f := λ seg : segment, (seg.1, seg_end seg)).
  destruct (Permutation_map_inv f (map_to_list (recv_buf s))
              (merge_sort_Permutation by_start (f <$> map_to_list (recv_buf s)))) as (l & El & Hperm).
  match goal with |- context [all_received _ _ ?L] =>
    replace L with (f <$> l) by (symmetry; exact El) end.
  assert (∀ seg, seg ∈ l ↔ recv_buf s !! seg.1 = Some seg.2) as Hin.
  { intros [a d]. rewrite <- Hperm. apply elem_of_map_to_list. }
  assert (StronglySorted by_start l) as Hs.
  { apply fmap_sorted_ranges. change (λ seg : segment, (seg.1, seg_end seg)) with f.
    change (f <$> l) with (map f l). rewrite <- El. apply (StronglySorted_merge_sort _). }
  unfold f. rewrite all_received_spec; [|..|lia].
  - split.
    + intros H. exists fsize. split; [done|]. intros i Hi. apply covers_range.
      destruct (H i Hi) as ([a d] & Ha%Hin & ?). exists a, d. done.
    + intros (? & [= <-] & H) i Hi. specialize (H i Hi). apply covers_range in H as (a & d & ? & ?).
      exists (a, d). rewrite Hin. done.
  - apply sorted_start_sep; [done| |].
    + rewrite <- Hperm. apply NoDup_fst_map_to_list.
    + intros [a d] [a' d'] Ha%Hin Ha'%Hin. by apply Hwf.
  - apply Forall_forall. intros [a d] Ha%Hin. by apply Hwf.
Qed.
