(* ===== verification/StreamIo.v ===== *)
(** * Stream input and output (starfish-quic/src/connection.rs)

    The part of a [QuicConnection] the stream operations work on - the stream
    manager, the connection's flow control and the queue of frames to send -
    and those operations: [stream_send], [stream_recv], the arms of
    [process_frame_from] for frames about streams and credit,
    [acknowledge_stream_frame] and the generators of credit updates. *)

From S2P Require Import Prelude QuicError Varint Frame Packet KeyUpdate FlowControl Streams.
From S2P Require Import Reassembly.

Inductive ConnectionState := CInitial | CHandshake | CConnected | CClosing | CDraining | CClosed.

#[export] Instance ConnectionState_eq_dec : EqDecision ConnectionState.
Proof. solve_decision. Defined.

Record StreamIo := {
  io_streams : StreamManager;
  io_flow : Conn.ConnectionFlowControl;
  io_pending : list (PacketNumberSpace * Frame);
}.

Abbreviation ioM := (stM StreamIo QuicError).

Definition set_streams (m : StreamManager) (c : StreamIo) : StreamIo :=
  {| io_streams := m; io_flow := io_flow c; io_pending := io_pending c |}.
Definition set_conn_flow (f : Conn.ConnectionFlowControl) (c : StreamIo) : StreamIo :=
  {| io_streams := io_streams c; io_flow := f; io_pending := io_pending c |}.
Definition queue_frame (f : Frame) : ioM unit :=
  modify (λ c, {| io_streams := io_streams c; io_flow := io_flow c;
                  io_pending := io_pending c ++ [(SpaceApplicationData, f)] |}).

(** An operation of the stream manager. *)
Definition on_streams {A} (m : stM StreamManager QuicError A) : ioM A :=
  λ c, let '(r, s) := m (io_streams c) in (r, set_streams s c).

Definition get_stream (sid : StreamId) : ioM (option StreamState) :=
  gets (λ c, streams (io_streams c) !! sid).
Definition put_stream (sid : StreamId) (s : StreamState) : ioM unit :=
  modify (λ c, set_streams (with_streams (io_streams c) (<[sid := s]> (streams (io_streams c)))) c).
Definition put_flow (f : Conn.ConnectionFlowControl) : ioM unit := modify (set_conn_flow f).

Definition stream_err (code : TransportErrorCode) (text : string) (sid : StreamId) : QuicError :=
  Transport code (Msg text [sid]).

Definition validate_stream_final_size (sid : StreamId) (s : StreamState) (fsize : Z) : qres unit :=
  _ ← match final_size s with
      | Some existing =>
          if negb (existing =? fsize) then
            Err (Transport FinalSizeError
                   (Msg "stream {stream_id} changed final size from {existing} to {final_size}"
                      [sid; existing; fsize]))
          else Ok tt
      | None => Ok tt
      end;
  if fsize <? Strm.received_max_offset (flow_control s) then
    Err (Transport FinalSizeError
           (Msg "stream {stream_id} final size {final_size} is smaller than received data"
              [sid; fsize]))
  else Ok tt.

(** Streams the peer may open are created by the first frame about them. *)
Definition accept_if_new (sid : StreamId) : ioM unit :=
  s ← get_stream sid;
  match s with
  | None => on_streams (accept_stream sid)
  | Some _ => mret tt
  end.

(** The steps of the STREAM arm after the limits were checked: a FIN fixes the
    final size, and the receive state follows. *)
Definition note_fin (sid : StreamId) (stop : Z) (s : StreamState) : ioM StreamState :=
  _ ← lift (validate_stream_final_size sid s stop);
  let s := set_final (Some stop) (reset_error_code s) s in
  let s := if bool_decide (st_recv s = Some RRecv) then set_recv (Some RSizeKnown) s else s in
  _ ← put_stream sid s;
  mret s.

Definition note_complete (sid : StreamId) (s : StreamState) : ioM unit :=
  if bool_decide (st_recv s = Some RSizeKnown) then
    all ← lift (stream_has_received_all_data s);
    if all : bool then put_stream sid (set_recv (Some RDataRecvd) s) else mret tt
  else mret tt.

Definition store_stream_data (sid : StreamId) (f : StreamFrame) (stop : Z) (s : StreamState)
    : ioM unit :=
  buf ← lift (match sf_data f with
              | [] => Ok (recv_buf s)
              | _ => buffer_stream_recv_data (recv_buf s) (sf_offset f) (sf_data f)
              end);
  let s := set_recv_buf buf (recv_offset s) s in
  _ ← put_stream sid s;
  s ← (if sf_fin f then note_fin sid stop s else mret s);
  note_complete sid s.

Definition check_within_final_size (sid : StreamId) (s : StreamState) (stop : Z) : qres unit :=
  match final_size s with
  | Some fsize =>
      if fsize <? stop then
        Err (Transport FinalSizeError
               (Msg "stream {sid} received data beyond final size {final_size}" [sid; fsize]))
      else Ok tt
  | None => Ok tt
  end.

Definition process_stream_frame (f : StreamFrame) : ioM unit :=
  let sid := sf_stream_id f in
  _ ← accept_if_new sid;
  s ← get_stream sid;
  match s with
  | None => mret tt
  | Some s =>
      match st_recv s with
      | None => fail (stream_err StreamStateError "stream {sid} is send-only" sid)
      | Some _ =>
          let data_len := len (sf_data f) in
          stop ← lift (ok_or (stream_err FinalSizeError "stream {sid} final size overflow" sid)
                         (checked_add_u64 (sf_offset f) data_len));
          _ ← lift (check_within_final_size sid s stop);
          '(delta, fc) ← lift (Strm.on_data_received (flow_control s) (sf_offset f) data_len);
          let s := set_flow fc s in
          _ ← put_stream sid s;
          conn_fc ← gets io_flow;
          conn_fc ← lift (Conn.on_data_received conn_fc delta);
          _ ← put_flow conn_fc;
          if negb (Strm.check_recv_limit fc) then
            fail (stream_err FlowControlError "stream {sid} exceeded stream-level flow control" sid)
          else if negb (Conn.check_recv_limit conn_fc) then
            fail (Transport FlowControlError (msg "connection-level flow control exceeded"))
          else store_stream_data sid f stop s
      end
  end.

Definition process_max_data (maximum_data : Z) : ioM unit :=
  modify (λ c, set_conn_flow (Conn.update_send_max (io_flow c) maximum_data) c).

Definition process_max_stream_data (sid maximum_stream_data : Z) : ioM unit :=
  s ← get_stream sid;
  match s with
  | Some s => put_stream sid (set_flow (Strm.update_send_max (flow_control s) maximum_stream_data) s)
  | None => mret tt
  end.

Definition MAX_STREAMS_LIMIT : Z := 2 ^ 60.

Definition process_max_streams (bidirectional : bool) (maximum_streams : Z) : ioM unit :=
  if MAX_STREAMS_LIMIT <? maximum_streams then
    fail (Transport FrameEncodingError
            (Msg "MAX_STREAMS exceeds protocol limit: {maximum_streams}" [maximum_streams]))
  else modify (λ c, set_streams
         (if bidirectional then update_max_bidi_streams (io_streams c) maximum_streams
          else update_max_uni_streams (io_streams c) maximum_streams) c).

Definition process_reset_stream (sid application_error_code fsize : Z) : ioM unit :=
  _ ← accept_if_new sid;
  s ← get_stream sid;
  match s with
  | None => mret tt
  | Some s =>
      match st_recv s with
      | None => fail (stream_err StreamStateError "stream {stream_id} is send-only" sid)
      | Some _ =>
          _ ← lift (validate_stream_final_size sid s fsize);
          let s := set_final (Some fsize) (Some application_error_code) s in
          let s := set_recv_buf ∅ (recv_offset s) s in
          put_stream sid (set_recv (Some RResetRecvd) s)
      end
  end.

Definition process_stop_sending (sid application_error_code : Z) : ioM unit :=
  _ ← accept_if_new sid;
  s ← get_stream sid;
  match s with
  | None => fail (stream_err StreamStateError "unknown stream {stream_id}" sid)
  | Some s =>
      match st_send s with
      | None => fail (stream_err StreamStateError "stream {stream_id} is receive-only" sid)
      | Some _ =>
          let fsize := send_offset s in
          _ ← put_stream sid (set_send (Some SResetSent) s);
          queue_frame (ResetStream sid application_error_code fsize)
      end
  end.

Definition process_data_blocked (maximum_data : Z) : ioM unit :=
  c ← gets io_flow;
  let '(r, fc) := Conn.update_from_data_blocked c maximum_data in
  _ ← put_flow fc;
  match r with
  | Some new_max => queue_frame (MaxData new_max)
  | None => mret tt
  end.

Definition process_stream_data_blocked (sid maximum_stream_data : Z) : ioM unit :=
  s ← get_stream sid;
  match s with
  | None => mret tt
  | Some s =>
      match st_recv s with
      | None => mret tt
      | Some _ =>
          let '(r, fc) :=
            Strm.update_from_stream_data_blocked (flow_control s) maximum_stream_data in
          _ ← put_stream sid (set_flow fc s);
          match r with
          | Some new_max => queue_frame (MaxStreamData sid new_max)
          | None => mret tt
          end
      end
  end.

Definition process_streams_blocked (bidirectional : bool) (maximum_streams : Z) : ioM unit :=
  current_limit ← gets (λ c, local_max_streams (io_streams c) bidirectional);
  if maximum_streams <? current_limit then queue_frame (MaxStreams bidirectional current_limit)
  else mret tt.

(** The arms of [process_frame_from] for frames about streams and credit. *)
Definition process_stream_arm (f : Frame) : ioM unit :=
  match f with
  | Stream sf => process_stream_frame sf
  | MaxData m => process_max_data m
  | MaxStreamData sid m => process_max_stream_data sid m
  | MaxStreams bidi m => process_max_streams bidi m
  | ResetStream sid e fsize => process_reset_stream sid e fsize
  | StopSending sid e => process_stop_sending sid e
  | DataBlocked m => process_data_blocked m
  | StreamDataBlocked sid m => process_stream_data_blocked sid m
  | StreamsBlocked bidi m => process_streams_blocked bidi m
  | _ => mret tt
  end.

(** The sending branch of [stream_send]: charge both windows, advance the send
    state and queue the frame. *)
Definition commit_send (sid : StreamId) (s : StreamState) (data : bytes) (n : Z)
    (actual_fin : bool) : ioM Z :=
  let offset := send_offset s in
  new_offset ← lift (add_u64 offset n);
  fc ← lift (Strm.on_data_sent (flow_control s) n);
  conn_fc ← gets io_flow;
  conn_fc ← lift (Conn.on_data_sent conn_fc n);
  let s := set_flow fc (set_sent new_offset (fin_sent s) s) in
  _ ← put_flow conn_fc;
  let s := if bool_decide (st_send s = Some SReady) then set_send (Some SSend) s else s in
  let s := if actual_fin then set_send (Some SDataSent) (set_sent new_offset true s) else s in
  _ ← put_stream sid s;
  d ← lift (slice data 0 n);
  _ ← queue_frame (Stream {| sf_stream_id := sid; sf_offset := offset;
                             sf_fin := actual_fin; sf_data := d |});
  mret n.

(** [kind] is the result of [application_send_kind], [state] the connection's. *)
Definition stream_send (kind : option ApplicationPacketKind) (state : ConnectionState)
    (sid : StreamId) (data : bytes) (fin : bool) : ioM Z :=
  let sendable := match kind with
    | Some AppZeroRtt => true
    | Some AppOneRtt => bool_decide (state = CConnected)
    | None => false
    end in
  if negb sendable then
    fail (Transport StreamStateError
            (msg "application data is not sendable while connection state is {:?}"))
  else
  s ← get_stream sid;
  match s with
  | None => fail (stream_err StreamStateError "unknown stream {stream_id}" sid)
  | Some s =>
      match st_send s with
      | None => fail (stream_err StreamStateError "stream {stream_id} is receive-only" sid)
      | Some SResetSent | Some SResetRecvd | Some SDataRecvd =>
          fail (stream_err StreamStateError "stream {stream_id} send side is closed" sid)
      | Some _ =>
          conn_fc ← gets io_flow;
          let send_window := Z.min (Strm.send_window (flow_control s)) (Conn.send_window conn_fc) in
          let n := Z.min (len data) send_window in
          let actual_fin := fin && (n =? len data) in
          if (0 <? n) || actual_fin then commit_send sid s data n actual_fin
          else mret n
      end
  end.

(** Reading into a buffer of [room] bytes: the bytes copied and the FIN flag. *)
Definition stream_recv (sid : StreamId) (room : Z) : ioM (bytes * bool) :=
  s ← get_stream sid;
  match s with
  | None => fail (stream_err StreamStateError "unknown stream {stream_id}" sid)
  | Some s =>
      match st_recv s with
      | None => fail (stream_err StreamStateError "stream {stream_id} is send-only" sid)
      | Some RResetRecvd =>
          _ ← put_stream sid (set_recv (Some RResetRead) s);
          fail (StreamReset (default 0 (reset_error_code s)))
      | Some _ =>
          '(out, (buf, off)) ← lift (copy_out (Z.to_nat room) room (recv_buf s) (recv_offset s) []);
          let s := set_recv_buf buf off s in
          let is_fin := match final_size s with
            | Some fsize => fsize <=? recv_offset s | None => false end in
          let s := if is_fin then
                     match st_recv s with
                     | Some RSizeKnown | Some RDataRecvd => set_recv (Some RDataRead) s
                     | _ => s
                     end
                   else s in
          _ ← put_stream sid s;
          mret (out, is_fin)
      end
  end.

Definition acknowledge_stream_frame (f : StreamFrame) : ioM unit :=
  s ← get_stream (sf_stream_id f);
  match s with
  | None => mret tt
  | Some s =>
      s ← lift (acknowledge_sent_data s (sf_offset f) (len (sf_data f)) (sf_fin f));
      let s := if bool_decide (st_send s = Some SDataSent) && all_sent_data_acked s
               then set_send (Some SDataRecvd) s else s in
      put_stream (sf_stream_id f) s
  end.

Definition update_stream_credit (sid : StreamId) : ioM unit :=
  s ← get_stream sid;
  match s with
  | None => mret tt
  | Some s =>
      match st_recv s with
      | None => mret tt
      | Some _ =>
          r ← lift (Strm.should_send_max_stream_data (flow_control s));
          match r with
          | Some new_max =>
              _ ← put_stream sid
                    (set_flow (Strm.commit_max_stream_data (flow_control s) new_max) s);
              queue_frame (MaxStreamData sid new_max)
          | None => mret tt
          end
      end
  end.

Fixpoint update_streams_credit (ids : list StreamId) : ioM unit :=
  match ids with
  | [] => mret tt
  | sid :: rest => _ ← update_stream_credit sid; update_streams_credit rest
  end.

(** [ids] are the stream identifiers in the order the hash map yields them. *)
Definition generate_flow_control_updates (ids : list StreamId) : ioM unit :=
  fc ← gets io_flow;
  r ← lift (Conn.should_send_max_data fc);
  _ ← match r with
      | Some new_max =>
          _ ← put_flow (Conn.commit_max_data fc new_max);
          queue_frame (MaxData new_max)
      | None => mret tt
      end;
  update_streams_credit ids.

Definition generate_stream_limit_updates : ioM unit :=
  m ← gets io_streams;
  let '((bidi, uni), m) := take_max_streams_updates m in
  _ ← modify (set_streams m);
  _ ← match bidi with Some x => queue_frame (MaxStreams true x) | None => mret tt end;
  match uni with Some x => queue_frame (MaxStreams false x) | None => mret tt end.
