(* ===== verification/StreamIoProps.v ===== *)
(** * Stream input and output: delivery, sending, and two defects

    A receiver that is fed the STREAM frames of a byte sequence in any order,
    with duplicates and overlaps, delivers exactly that sequence - as long as
    no frame starts below the offset already read.  A frame that does is
    stored again, and from then on the stream delivers nothing. *)

From S2P Require Import Prelude QuicError Varint Frame Packet KeyUpdate FlowControl Streams.
From S2P Require Import Reassembly ReassemblyProps StreamIo.

Ltac run_io := unfold get_stream, put_stream, put_flow, queue_frame; run_stM.

Definition stream_of (c : StreamIo) (sid : StreamId) : option StreamState :=
  streams (io_streams c) !! sid.
(** The receive side is open for data and reads. *)
Definition readable (s : StreamState) : Prop :=
  st_recv s ≠ None ∧ st_recv s ≠ Some RResetRecvd.

(** What storing the data of a frame does to the stream. *)
Record stored (f : StreamFrame) (stop : Z) (s s' : StreamState) : Prop := {
  so_buf : buffer_stream_recv_data (recv_buf s) (sf_offset f) (sf_data f) = Ok (recv_buf s');
  so_offset : recv_offset s' = recv_offset s;
  so_flow : flow_control s' = flow_control s;
  so_final : final_size s' = if sf_fin f then Some stop else final_size s;
  so_readable : readable s → readable s';
  so_send : st_send s' = st_send s;
  so_recv : sf_fin f = true → st_recv s = Some RRecv →
            st_recv s' = Some RSizeKnown ∨ st_recv s' = Some RDataRecvd;
}.

(** The parts of the connection a stream's data does not touch. *)
Definition kept (c c' : StreamIo) : Prop :=
  io_flow c' = io_flow c ∧ side (io_streams c') = side (io_streams c).

Lemma note_complete_ok c sid s : stream_of c sid = Some s → buf_wf (recv_buf s) →
  ∃ s' c', note_complete sid s c = (Ok tt, c') ∧ stream_of c' sid = Some s' ∧
    kept c c' ∧ (s' = s ∨ s' = set_recv (Some RDataRecvd) s).
Proof.
  intros Hs Hw. unfold note_complete. destruct (received_all_spec s Hw) as (r & -> & _).
  assert (∃ s' c', (Ok tt : qres unit, c) = (Ok tt, c') ∧ stream_of c' sid = Some s' ∧ kept c c' ∧
            (s' = s ∨ s' = set_recv (Some RDataRecvd) s)) as Hsame.
  { exists s, c. split_and!; try done. by left. }
  dif; [|exact Hsame]. run_stM. destruct r; [|exact Hsame].
  eexists _, _. split; [reflexivity|]. split_and!; [apply lookup_insert_eq|done|auto].
Qed.

Lemma note_fin_ok c sid stop s :
  final_size s = None ∨ final_size s = Some stop → Strm.received (flow_control s) ≤ stop →
  ∃ s' c', note_fin sid stop s c = (Ok s', c') ∧ stream_of c' sid = Some s' ∧
    kept c c' ∧ recv_buf s' = recv_buf s ∧ recv_offset s' = recv_offset s ∧
    flow_control s' = flow_control s ∧ final_size s' = Some stop ∧ (readable s → readable s') ∧
    st_send s' = st_send s ∧ (st_recv s = Some RRecv → st_recv s' = Some RSizeKnown).
Proof.
  intros Hfin Hrecv. unfold note_fin.
  assert (validate_stream_final_size sid s stop = Ok tt) as ->.
  { unfold validate_stream_final_size, Strm.received_max_offset.
    rewrite (proj2 (Z.ltb_ge _ _)) by done. destruct Hfin as [-> | ->]; [done|].
    by rewrite Z.eqb_refl. }
  run_io. set (s' := if bool_decide _ then _ else _). eexists s', _. split; [reflexivity|].
  split_and!; [apply lookup_insert_eq|done|..]; unfold s'; dif; try done.
  intros Hrr. cbn in Heqb. by rewrite Hrr in Heqb.
Qed.

Lemma store_ok c sid f stop s :
  buf_wf (recv_buf s) → 0 ≤ sf_offset f → sf_offset f + len (sf_data f) ≤ U64_MAX →
  (sf_fin f = true → final_size s = None ∨ final_size s = Some stop) →
  (sf_fin f = true → Strm.received (flow_control s) ≤ stop) →
  ∃ s' c', store_stream_data sid f stop s c = (Ok tt, c') ∧ stream_of c' sid = Some s' ∧
    kept c c' ∧ stored f stop s s'.
Proof.
  intros Hwf H0 Hmax Hfin1 Hfin2.
  destruct (buffer_spec (recv_buf s) (sf_offset f) (sf_data f) Hwf H0 Hmax) as (buf & Eb & Hwf' & _).
  unfold store_stream_data.
  replace (match sf_data f with [] => _ | _ => _ end)
    with (Ok buf : qres (gmap Z bytes)) by (rewrite <- Eb; by destruct (sf_data f)).
  run_io. set (s1 := set_recv_buf buf (recv_offset s) s). set (c1 := set_streams _ c).
  assert (∃ s2 c2, (if sf_fin f then note_fin sid stop s1 else mret s1) c1 = (Ok s2, c2) ∧
    stream_of c2 sid = Some s2 ∧ kept c c2 ∧ recv_buf s2 = buf ∧
    recv_offset s2 = recv_offset s ∧ flow_control s2 = flow_control s ∧
    final_size s2 = (if sf_fin f then Some stop else final_size s) ∧ (readable s → readable s2) ∧
    st_send s2 = st_send s ∧
    (sf_fin f = true → st_recv s = Some RRecv → st_recv s2 = Some RSizeKnown))
    as (s2 & c2 & E2 & Hs2 & Hf2 & Hb2 & Ho2 & Hfl2 & Hfin2' & Hr2 & Hsd2 & Hrv2).
  { destruct (sf_fin f) eqn:Ef.
    - destruct (note_fin_ok c1 sid stop s1) as (s2 & c2 & E & ? & Hf & ? & ? & ? & ? & ? & ? & ?);
        [by apply Hfin1|by apply Hfin2|]. exists s2, c2. split_and!; try done.
    - exists s1, c1. split_and!; try done. apply lookup_insert_eq. }
  rewrite (stM_bind_ok _ _ _ _ _ E2).
  destruct (note_complete_ok c2 sid s2) as (s' & c' & E & Hs' & Hf & Hcase); [done|by rewrite Hb2|].
  exists s', c'. split_and!; [done|done| |].
  { destruct Hf, Hf2. split; congruence. }
  destruct Hcase as [-> | ->]; split; cbn; rewrite ?Hb2, ?Ho2, ?Hfl2, ?Hfin2', ?Hsd2; auto; done.
Qed.

(** A frame within the final size and both windows is stored. *)
Lemma stream_frame_ok c sid f s :
  sf_stream_id f = sid → stream_of c sid = Some s → st_recv s ≠ None → buf_wf (recv_buf s) →
  let stop := sf_offset f + len (sf_data f) in
  let total := Z.max (Strm.received (flow_control s)) stop in
  let delta := total - Strm.received (flow_control s) in
  0 ≤ sf_offset f → stop ≤ U64_MAX →
  (∀ n, final_size s = Some n → stop ≤ n ∧ (sf_fin f = true → stop = n)) →
  (sf_fin f = true → Strm.received (flow_control s) ≤ stop) →
  total ≤ Strm.recv_max (flow_control s) →
  Conn.received (io_flow c) + delta ≤ Conn.recv_max (io_flow c) ≤ U64_MAX →
  ∃ s' c', process_stream_frame f c = (Ok tt, c') ∧ stream_of c' sid = Some s' ∧
    Conn.received (io_flow c') = Conn.received (io_flow c) + delta ∧
    Conn.recv_max (io_flow c') = Conn.recv_max (io_flow c) ∧
    Strm.received (flow_control s') = total ∧
    Strm.recv_max (flow_control s') = Strm.recv_max (flow_control s) ∧
    side (io_streams c') = side (io_streams c) ∧
    ∃ fc, flow_control s' = fc ∧ stored f stop (set_flow fc s) s'.
Proof.
  intros <- Hs Hr Hwf stop total delta H0 Hmax Hfin Hfin' Hlim Hconn.
  assert (sf_offset f + len (sf_data f) = stop) as Estop by done.
  assert (total = Z.max (Strm.received (flow_control s)) stop) as Etotal by done.
  assert (delta = total - Strm.received (flow_control s)) as Edelta by done.
  clearbody total delta stop.
  unfold process_stream_frame, accept_if_new. run_io.
  unfold stream_of in Hs. rewrite Hs. run_stM. rewrite Hs. cbn iota beta.
  destruct (st_recv s) as [r|] eqn:Er; [|done].
  unfold checked_add_u64. rewrite Estop, (proj2 (Z.leb_le _ _) Hmax). cbn [ok_or]. run_stM.
  assert (check_within_final_size (sf_stream_id f) s stop = Ok tt) as ->.
  { unfold check_within_final_size. destruct (final_size s) as [n|]; [|done].
    destruct (Hfin n eq_refl). by rewrite (proj2 (Z.ltb_ge _ _)). }
  assert (∃ fc, Strm.on_data_received (flow_control s) (sf_offset f) (len (sf_data f)) = Ok (delta, fc) ∧
    Strm.received fc = total ∧ Strm.recv_max fc = Strm.recv_max (flow_control s))
    as (fc & Efc & Hfc1 & Hfc2).
  { unfold Strm.on_data_received. rewrite add_u64_ok, bind_ok, Estop by lia. dif.
    - rewrite sub_u64_ok, bind_ok by lia.
      replace delta with (stop - Strm.received (flow_control s)) by lia.
      eexists. split; [reflexivity|]. split; [cbn; lia|done].
    - exists (flow_control s). split_and!; [|lia|done]. do 2 f_equal. lia. }
  run_stM. rewrite Efc. run_io. cbn [io_flow set_streams].
  unfold Conn.on_data_received at 1. rewrite add_u64_ok, bind_ok by lia. run_io.
  cbn [set_conn_flow io_flow].
  rewrite (proj2 (negb_false_iff _)) by (apply Z.leb_le; lia).
  rewrite (proj2 (negb_false_iff _)) by (apply Z.leb_le; cbn; lia).
  match goal with |- context [store_stream_data ?sid f stop ?s1 ?c1] =>
    destruct (store_ok c1 sid f stop s1) as (s' & c' & E & Hs' & [Hio Hside] & Hst) end; try done; [cbn; lia|..].
  { intros Ef. cbn. destruct (final_size s) as [n|]; [right|by left].
    destruct (Hfin n eq_refl) as [_ ->]; done. }
  { intros Ef. cbn. specialize (Hfin' Ef). lia. }
  pose proof (so_flow _ _ _ _ Hst) as Hfl. cbn in Hfl.
  exists s', c'. rewrite Hio, Hfl. split_and!; try done. by exists fc.
Qed.

(** Reading from a stream with nothing stored below its read offset. *)
Lemma stream_recv_ok c sid s room :
  stream_of c sid = Some s → readable s → buf_wf (recv_buf s) → fresh (recv_offset s) (recv_buf s) →
  0 ≤ room →
  ∃ out buf s' c' fin, stream_recv sid room c = (Ok (out, fin), c') ∧ stream_of c' sid = Some s' ∧
    read_result (recv_buf s) (recv_offset s) room out buf ∧
    recv_buf s' = buf ∧ recv_offset s' = recv_offset s + len out ∧
    fin = match final_size s with Some n => n <=? recv_offset s + len out | None => false end ∧
    final_size s' = final_size s ∧ flow_control s' = flow_control s ∧ readable s' ∧
    io_flow c' = io_flow c ∧ side (io_streams c') = side (io_streams c) ∧
    st_send s' = st_send s ∧
    (fin = true → st_recv s = Some RSizeKnown ∨ st_recv s = Some RDataRecvd →
     st_recv s' = Some RDataRead).
Proof.
  intros Hs [Hr1 Hr2] Hwf Hf Hroom.
  destruct (copy_out_spec (recv_buf s) (recv_offset s) room Hwf Hf Hroom) as (out & buf & E & Hrr).
  exists out, buf. unfold stream_recv. run_io. unfold stream_of in Hs. rewrite Hs. cbn iota beta.
  set (s1 := set_recv_buf buf (recv_offset s + len out) s).
  set (fin := match final_size s with Some n => n <=? recv_offset s + len out | None => false end).
  set (s2 := if fin then match st_recv s with
               | Some RSizeKnown | Some RDataRecvd => set_recv (Some RDataRead) s1 | _ => s1 end
             else s1).
  exists s2, (set_streams (with_streams (io_streams c) (<[sid := s2]> (streams (io_streams c)))) c), fin.
  split.
  { destruct (st_recv s) as [[]|] eqn:Er; try done; rewrite E; run_io; unfold s2; cbn; rewrite ?Er; done. }
  split; [apply lookup_insert_eq|]. split; [done|].
  unfold s2, readable. destruct fin; [destruct (st_recv s) as [[]|] eqn:Er|]; cbn; rewrite ?Er;
    split_and!; try done; by intros _ [?|?].
Qed.

Lemma seg_byte_prefix l S : (∀ i b, seg_byte (0, l) i b → seg_byte (0, S) i b) → l `prefix_of` S.
Proof.
  intros H. exists (drop (length l) S). apply list_eq. intros i.
  destruct (l !! i) as [x|] eqn:E.
  - destruct (H (Z.of_nat i) x) as [_ Hi].
    { split; cbn; [lia|]. by replace (Z.to_nat (Z.of_nat i - 0)) with i by lia. }
    cbn in Hi. replace (Z.to_nat (Z.of_nat i - 0)) with i in Hi by lia.
    by rewrite Hi, (lookup_app_l_Some _ _ _ _ E).
  - apply lookup_ge_None in E. rewrite lookup_app_r by done. rewrite lookup_drop.
    f_equal. lia.
Qed.

(** ** Receiving a byte sequence *)
Section Receive.
(** The stream and the bytes its sender puts on it. *)
Context (sid : StreamId) (S : bytes).

Definition frame_of (f : StreamFrame) : Prop :=
  sf_stream_id f = sid ∧ 0 ≤ sf_offset f ∧ sf_offset f + len (sf_data f) ≤ len S ∧
  (∀ i b, seg_byte (sf_offset f, sf_data f) i b → seg_byte (0, S) i b) ∧
  (sf_fin f = true → sf_offset f + len (sf_data f) = len S).

(** A stream just opened, with credit for the whole sequence. *)
Definition opened (c : StreamIo) : Prop :=
  ∃ s, stream_of c sid = Some s ∧ st_recv s = Some RRecv ∧ recv_buf s = ∅ ∧ recv_offset s = 0 ∧
    final_size s = None ∧ Strm.received (flow_control s) = 0 ∧
    len S ≤ Strm.recv_max (flow_control s) ∧ 0 ≤ Conn.received (io_flow c) ∧
    Conn.received (io_flow c) + len S ≤ Conn.recv_max (io_flow c) ≤ U64_MAX.

(** Frames of the sequence arrive in any order, and the application reads in
    between; a frame starts at or above the offset already read. *)
Inductive session : StreamIo → bytes → list StreamFrame → Prop :=
  | session_open c : opened c → session c [] []
  | session_frame c dl fs f c' r : session c dl fs → frame_of f → len dl ≤ sf_offset f →
      process_stream_frame f c = (r, c') → session c' dl (f :: fs)
  | session_read c dl fs room out fin c' : session c dl fs → 0 ≤ room →
      stream_recv sid room c = (Ok (out, fin), c') → session c' (dl ++ out) fs.

Definition arrived (fs : list StreamFrame) (i : Z) : Prop :=
  ∃ f, f ∈ fs ∧ sf_offset f ≤ i < sf_offset f + len (sf_data f).
Definition fin_arrived (fs : list StreamFrame) : Prop := ∃ f, f ∈ fs ∧ sf_fin f = true.

Record session_inv (c : StreamIo) (dl : bytes) (fs : list StreamFrame) (s : StreamState) : Prop := {
  si_stream : stream_of c sid = Some s;
  si_readable : readable s;
  si_wf : buf_wf (recv_buf s);
  si_fresh : fresh (recv_offset s) (recv_buf s);
  si_offset : recv_offset s = len dl;
  si_delivered i b : seg_byte (0, dl) i b → seg_byte (0, S) i b;
  si_stored i b : holds (recv_buf s) i b → seg_byte (0, S) i b;
  si_arrived i : covers (recv_buf s) i ∨ 0 ≤ i < len dl ↔ arrived fs i;
  si_final : (final_size s = None ∧ ¬ fin_arrived fs) ∨
             (final_size s = Some (len S) ∧ fin_arrived fs);
  si_received : 0 ≤ Strm.received (flow_control s) ≤ len S;
  si_credit : len S ≤ Strm.recv_max (flow_control s);
  si_conn : Conn.received (io_flow c) + (len S - Strm.received (flow_control s))
              ≤ Conn.recv_max (io_flow c) ≤ U64_MAX;
  si_charged : Strm.received (flow_control s) ≤ Conn.received (io_flow c);
}.

Lemma session_open_inv c : opened c → ∃ s, session_inv c [] [] s.
Proof.
  intros (s & Hs & Hr & Hb & Ho & Hf & Hrc & Hm & H0 & Hc). exists s.
  assert (∀ i b, ¬ holds ∅ i b) as Hempty.
  { intros i b (? & ? & H & _). by rewrite lookup_empty in H. }
  split; rewrite ?Hb, ?Ho; try done.
  - unfold readable. by rewrite Hr.
  - intros i b []%seg_byte_nil.
  - intros i b []%Hempty.
  - intros i. rewrite (@len_nil Z). split.
    + intros [[b []%Hempty]|?]. lia.
    + intros (f & []%elem_of_nil & _).
  - left. split; [done|]. intros (f & []%elem_of_nil & _).
  - rewrite Hrc. pose proof (len_nonneg S). lia.
  - rewrite Hrc. lia.
  - by rewrite Hrc.
Qed.

Lemma frame_step c dl fs f s : session_inv c dl fs s → frame_of f → len dl ≤ sf_offset f →
  ∃ s' c', process_stream_frame f c = (Ok tt, c') ∧ session_inv c' dl (f :: fs) s'.
Proof.
  intros [Hs Hr Hwf Hfr Ho Hdl Hst Harr Hfin Hrc Hm Hc Hc0] (Hsid & H0 & Hend & Hdata & Hff) Hoff.
  destruct (stream_frame_ok c sid f s Hsid Hs (proj1 Hr) Hwf)
    as (s' & c' & E & Hs' & Hc1 & Hc2 & Hs1 & Hs2 & Hside & fc & Hfc & Hsto); try lia.
  { intros n Hn. destruct Hfin as [[? _]|[Hf _]]; [congruence|].
    replace n with (len S) by congruence. split; [lia|]. intros Ef. by apply Hff. }
  { intros Ef. rewrite (Hff Ef). lia. }
  destruct Hsto as [Hbuf Hoff' Hflow Hfinal Hread _ _]. cbn in Hbuf, Hoff', Hfinal.
  destruct (buffer_spec (recv_buf s) (sf_offset f) (sf_data f) Hwf H0) as (buf & Eb & Hwf' & Hh); [lia|].
  rewrite Hbuf in Eb. injection Eb as Eb. rewrite <- Eb in *.
  exists s', c'. split; [done|]. split; rewrite ?Hoff', ?Ho; try done; try lia.
  - by apply Hread.
  - apply holds_fresh; [apply Hwf'|]. intros i b [H|[_ H]]%Hh.
    + rewrite <- Ho. by eapply fresh_holds.
    + apply seg_byte_range in H. cbn in H. lia.
  - intros i b [H|[_ H]]%Hh; [by apply Hst|by apply Hdata].
  - intros i. unfold arrived in *. setoid_rewrite elem_of_cons. split.
    + intros [[b [H|[_ H]]%Hh]|H].
      * destruct (proj1 (Harr i)) as (f' & ? & ?); [left; by exists b|]. eauto.
      * apply seg_byte_range in H. unfold seg_end in H. cbn in H. eauto.
      * destruct (proj1 (Harr i)) as (f' & ? & ?); [by right|]. eauto.
    + intros (f' & [->|Hin] & Hi).
      * left. destruct (seg_byte_total (sf_offset f, sf_data f) i Hi) as [b Hb].
        destruct (decide (covers (recv_buf s) i)) as [[b' Hb']|Hn]; [exists b'|exists b]; apply Hh; tauto.
      * destruct (proj2 (Harr i)) as [[b Hb]|?]; [by exists f'| |by right].
        left. exists b. apply Hh. by left.
  - unfold fin_arrived in *. setoid_rewrite elem_of_cons. rewrite Hfinal. destruct (sf_fin f) eqn:Ef.
    + right. rewrite (Hff eq_refl). split; [done|]. exists f. tauto.
    + destruct Hfin as [[-> Hn]|[-> (f' & ? & ?)]]; [left|right].
      * split; [done|]. intros (f' & [->|?] & ?); [congruence|]. apply Hn. eauto.
      * split; [done|]. exists f'. tauto.
Qed.

Lemma read_step c dl fs s room : session_inv c dl fs s → 0 ≤ room →
  ∃ out fin s' c', stream_recv sid room c = (Ok (out, fin), c') ∧
    session_inv c' (dl ++ out) fs s' ∧ len out ≤ room ∧
    (len out < room → ¬ arrived fs (len (dl ++ out))) ∧
    (fin = true ↔ fin_arrived fs ∧ len S ≤ len (dl ++ out)).
Proof.
  intros [Hs Hr Hwf Hfr Ho Hdl Hst Harr Hfin Hrc Hm Hc Hc0] Hroom.
  destruct (stream_recv_ok c sid s room Hs Hr Hwf Hfr Hroom)
    as (out & buf & s' & c' & fin & E & Hs' & Hrr & Hb & Hoff & Hf & Hfs & Hfl & Hrd & Hio & _).
  destruct Hrr as [Hwf' Hfr' Hlen Hout Hmax Hrest]. rewrite Ho in *. pose proof (len_nonneg dl).
  pose proof (len_nonneg out). exists out, fin, s', c'. rewrite len_app.
  split; [done|]. split_and!; [|done| |].
  - split; rewrite ?Hb, ?Hoff, ?Hfs, ?Hfl, ?Hio, ?len_app; try done.
    + intros i b [H1|H1]%seg_byte_app; [by apply Hdl|]. apply Hst, Hout. exact H1.
    + intros i b [H1 _]%Hrest. by apply Hst.
    + intros i. rewrite <- Harr. split.
      * intros [[b [H1 _]%Hrest]|Hi]; [left; by exists b|].
        destruct (decide (i < len dl)); [right; lia|left].
        destruct (seg_byte_total (len dl, out) i) as [b Hb1]; [unfold seg_end; cbn; lia|].
        exists b. by apply Hout.
      * intros [[b H1]|Hi]; [|right; lia]. pose proof (fresh_holds _ _ _ _ Hfr H1).
        destruct (decide (len dl + len out ≤ i)); [left; exists b; by apply Hrest|right; lia].
  - intros Hlt Ha. apply Harr in Ha as [Hcov|?]; [|lia]. by apply (Hmax Hlt).
  - rewrite Hf. destruct Hfin as [[-> Hn]|[-> Ha]]; [split; [done|tauto]|].
    rewrite Z.leb_le. tauto.
Qed.

Lemma session_has_inv c dl fs : session c dl fs → ∃ s, session_inv c dl fs s.
Proof.
  induction 1 as [c Hop|c dl fs f c' r _ [s Hs] Hf Hoff E|c dl fs room out fin c' _ [s Hs] Hroom E].
  - by apply session_open_inv.
  - destruct (frame_step c dl fs f s Hs Hf Hoff) as (s' & c'' & E' & ?).
    rewrite E in E'. injection E' as -> ->. eauto.
  - destruct (read_step c dl fs s room Hs Hroom) as (out' & fin' & s' & c'' & E' & ? & _).
    rewrite E in E'. injection E' as -> -> ->. eauto.
Qed.

(** C4: whatever the order, duplication and overlap in which the frames of a
    byte sequence arrive, interleaved with reads of any size, and as long as
    each frame starts at or above the offset already read: every frame is
    accepted; what was read is a prefix of the sequence; the next read
    continues it, stops short of its buffer only at a byte that has not
    arrived, and reports the end exactly when the FIN has arrived and the
    whole sequence is read. *)
Theorem in_order_delivery (c : StreamIo) (dl : bytes) (fs : list StreamFrame)
    (Hsession : session c dl fs) :
  dl `prefix_of` S ∧
  (∀ f, frame_of f → len dl ≤ sf_offset f → ∃ c', process_stream_frame f c = (Ok tt, c')) ∧
  ∀ room, 0 ≤ room → ∃ out fin c', stream_recv sid room c = (Ok (out, fin), c') ∧
    (dl ++ out) `prefix_of` S ∧ len out ≤ room ∧
    (len out < room → ¬ arrived fs (len (dl ++ out))) ∧
    (fin = true ↔ fin_arrived fs ∧ dl ++ out = S).
Proof.
  destruct (session_has_inv c dl fs Hsession) as [s Hs]. split_and!.
  - apply seg_byte_prefix, Hs.
  - intros f Hf Hoff. destruct (frame_step c dl fs f s Hs Hf Hoff) as (s' & c' & E & _). eauto.
  - intros room Hroom. destruct (read_step c dl fs s room Hs Hroom)
      as (out & fin & s' & c' & E & Hs' & Hlen & Hmax & Hfin).
    assert ((dl ++ out) `prefix_of` S) as Hp by apply seg_byte_prefix, Hs'.
    exists out, fin, c'. split_and!; [done..|]. rewrite Hfin. split; [|by intros [? <-]].
    intros [? Hle]. split; [done|]. apply prefix_length_eq; [done|]. unfold len in Hle. lia.
Qed.
End Receive.

(** A receiver with one open stream, used in the examples below. *)
Definition sample_io : StreamIo := {|
  io_streams := (accept_stream 0 (manager_new Server 4 4 100)).2;
  io_flow := Conn.new 100 100; io_pending := [] |}.

Definition sample_frame (o : Z) (fin : bool) (d : bytes) : StreamFrame :=
  {| sf_stream_id := 0; sf_offset := o; sf_fin := fin; sf_data := d |}.

Lemma in_order_delivery_witness :
  ∃ c, session 0 [1; 2; 3; 4; 5] c [] [sample_frame 0 false [1; 2; 3]; sample_frame 2 true [3; 4; 5]] ∧
    ∃ out fin c', stream_recv 0 10 c = (Ok (out, fin), c') ∧ [] ++ out = [1; 2; 3; 4; 5] ∧ fin = true.
Proof.
  set (S := [1; 2; 3; 4; 5]).
  set (f1 := sample_frame 2 true [3; 4; 5]). set (f2 := sample_frame 0 false [1; 2; 3]).
  set (c1 := (process_stream_frame f1 sample_io).2). set (c2 := (process_stream_frame f2 c1).2).
  assert (∀ o k d, S = k ++ d → o = len k → ∀ d1 d2, d = d1 ++ d2 →
            ∀ i b, seg_byte (o, d1) i b → seg_byte (0, S) i b) as Hsub.
  { intros o k d -> -> d1 d2 -> i b H. apply seg_byte_app. right. apply seg_byte_app. by left. }
  assert (session 0 S c2 [] [f2; f1]) as Hc2.
  { eapply session_frame; [eapply session_frame; [apply session_open| | |apply surjective_pairing]| | |
      apply surjective_pairing]; try (cbn; rewrite len_nil; lia).
    - eexists. split; [reflexivity|]. vm_compute. split_and!; try done; lia.
    - split_and!; try done. by apply (Hsub _ [1; 2] [3; 4; 5] eq_refl eq_refl _ []).
    - split_and!; try done. by apply (Hsub _ [] S eq_refl eq_refl _ [4; 5]). }
  exists c2. split; [exact Hc2|].
  destruct (in_order_delivery 0 S c2 [] _ Hc2) as (_ & _ & H).
  destruct (H 10) as (out & fin & c' & E & Hp & Hroom & Hmax & Hfin); [lia|].
  exists out, fin, c'.
  assert ([] ++ out = S) as Hout.
  { apply (f_equal fst) in E. vm_compute in E. injection E as <- _. reflexivity. }
  split_and!; [exact E|exact Hout|]. apply Hfin. split; [|exact Hout]. exists f1. split; [set_solver|done].
Defined.

(** ** The stall *)

(** Preservation of a property of one stream by an operation, on every exit. *)
Section Preserve.
Context (sid : StreamId) (J : StreamState → Prop).

Definition on_stream (c : StreamIo) : Prop := ∃ s, stream_of c sid = Some s ∧ J s.
Definition preserves {A} (m : ioM A) : Prop := ∀ c, on_stream c → on_stream (m c).2.

Lemma pres_bind {A B} (m : ioM A) (k : A → ioM B) :
  preserves m → (∀ a, preserves (k a)) → preserves (m ≫= k).
Proof.
  intros Hm Hk c Hc. unfold mbind, stM_bind. specialize (Hm c Hc).
  destruct (m c) as [[] c']; cbn in *; try done. by apply Hk.
Qed.

Lemma pres_lift_bind {A B} (m : qres A) (k : A → ioM B) :
  (∀ a, m = Ok a → preserves (k a)) → preserves (lift m ≫= k).
Proof. intros Hk c Hc. destruct m; try done. by apply (Hk a eq_refl). Qed.

Lemma pres_gets {A} (f : StreamIo → A) : preserves (gets f).
Proof. by intros c Hc. Qed.

Lemma pres_ret {A} (a : A) : preserves (mret a).
Proof. by intros c Hc. Qed.

Lemma pres_fail {A} e : preserves (fail e : ioM A).
Proof. by intros c Hc. Qed.

Lemma pres_get_bind {A} (k : option StreamState → ioM A) :
  (∀ s, J s → preserves (k (Some s))) → preserves (get_stream sid ≫= k).
Proof.
  intros Hk c (s & Hs & HJ). unfold get_stream. run_stM. unfold stream_of in Hs. rewrite Hs.
  apply (Hk s HJ). by exists s.
Qed.

Lemma pres_put s : J s → preserves (put_stream sid s).
Proof. intros HJ c _. exists s. split; [apply lookup_insert_eq|done]. Qed.

(** Operations that leave the stream table alone. *)
Lemma pres_modify f : (∀ c, streams (io_streams (f c)) = streams (io_streams c)) →
  preserves (modify f).
Proof. intros Hf c (s & Hs & HJ). exists s. split; [|done]. unfold stream_of. cbn. by rewrite Hf. Qed.
End Preserve.

(** The stream has read [off] bytes, the bytes around [off] are stored in one
    segment, and its final size is not known to be [off] or less. *)
Record stalled (off : Z) (s : StreamState) : Prop := {
  sl_wf : buf_wf (recv_buf s);
  sl_stuck : stuck off (recv_buf s);
  sl_off : recv_offset s = off;
  sl_readable : readable s;
  sl_received : off < Strm.received (flow_control s);
  sl_final n : final_size s = Some n → off < n;
}.

Section Stalled.
Context (sid : StreamId) (off : Z).

Lemma stalled_note_complete s : stalled off s → preserves sid (stalled off) (note_complete sid s).
Proof.
  intros [] . unfold note_complete. dif; [|apply pres_ret]. apply pres_lift_bind. intros [] _;
    [|apply pres_ret]. apply pres_put. by split.
Qed.

Lemma stalled_note_fin stop s c : stalled off s → on_stream sid (stalled off) c →
  match note_fin sid stop s c with
  | (Ok s', c') => stalled off s' ∧ on_stream sid (stalled off) c'
  | (_, c') => on_stream sid (stalled off) c'
  end.
Proof.
  intros Hs Hc. unfold note_fin. destruct (validate_stream_final_size sid s stop) as [u|e| |] eqn:E;
    try (run_stM; exact Hc).
  run_io. set (s' := if bool_decide _ then _ else _).
  assert (stalled off s') as Hs'.
  { destruct Hs as [Hwf Hst Ho [Hr1 Hr2] Hrc Hf].
    assert (off < stop) as Hstop.
    { unfold validate_stream_final_size, Strm.received_max_offset in E.
      apply bind_ok_inv in E as (? & _ & E). destruct (_ <? _) eqn:Hlt in E; [done|]. lia. }
    unfold s'. dif; split; try done; by intros n [= <-]. }
  split; [done|]. exists s'. split; [apply lookup_insert_eq|done].
Qed.

Lemma stalled_store f stop s : 0 ≤ sf_offset f → sf_offset f + len (sf_data f) ≤ U64_MAX →
  stalled off s → preserves sid (stalled off) (store_stream_data sid f stop s).
Proof.
  intros H0 Hmax Hs. unfold store_stream_data. apply pres_lift_bind. intros buf Ebuf.
  assert (stalled off (set_recv_buf buf (recv_offset s) s)) as Hs1.
  { destruct Hs as [Hwf Hst Ho [Hr1 Hr2] Hrc Hf].
    destruct (buffer_spec (recv_buf s) (sf_offset f) (sf_data f) Hwf H0 Hmax) as (buf' & Eb & Hwf' & Hh).
    assert (buf = buf') as -> 
      by (destruct (sf_data f); [change (Ok (recv_buf s) = (Ok buf' : qres _)) in Eb|]; congruence).
    split; try done. eapply stuck_buffer; [|exact Hst]. intros i b ?. apply Hh. by left. }
  apply pres_bind; [by apply pres_put|]. intros _ c Hc. destruct (sf_fin f).
  - pose proof (stalled_note_fin stop _ c Hs1 Hc) as H.
    unfold mbind at 1, stM_bind at 1. destruct (note_fin _ _ _ c) as [[] c']; try done.
    destruct H. by apply stalled_note_complete.
  - run_stM. by apply stalled_note_complete.
Qed.

(** Only the receive side matters. *)
Lemma stalled_ext s s' : stalled off s → recv_buf s' = recv_buf s → recv_offset s' = recv_offset s →
  st_recv s' = st_recv s → final_size s' = final_size s →
  Strm.received (flow_control s) ≤ Strm.received (flow_control s') → stalled off s'.
Proof.
  intros [Hwf Hst Ho [Hr1 Hr2] Hrc Hf] E1 E2 E3 E4 Hle.
  split; unfold readable; rewrite ?E1, ?E2, ?E3, ?E4; try done. lia.
Qed.

Lemma stalled_stream_frame f : sf_stream_id f = sid → 0 ≤ sf_offset f →
  preserves sid (stalled off) (process_stream_frame f).
Proof.
  intros Esid H0. unfold process_stream_frame, accept_if_new. cbn zeta. rewrite Esid.
  apply pres_bind.
  { apply pres_get_bind. intros s _. apply pres_ret. }
  intros _. apply pres_get_bind. intros s Hs.
  destruct (st_recv s) eqn:Er; [|apply pres_fail]. apply pres_lift_bind. intros stop Estop.
  unfold checked_add_u64, ok_or in Estop. destruct (_ <=? _) eqn:Hmax in Estop; [|done].
  apply Z.leb_le in Hmax. apply pres_lift_bind. intros _ _.
  apply pres_lift_bind. intros [delta fc] Efc.
  assert (Strm.received (flow_control s) ≤ Strm.received fc) as Hfc.
  { unfold Strm.on_data_received in Efc. rewrite add_u64_ok, bind_ok in Efc by done.
    destruct (_ <? _) eqn:Hlt in Efc.
    - rewrite sub_u64_ok, bind_ok in Efc by lia. injection Efc as <- <-. cbn. lia.
    - injection Efc as <- <-. lia. }
  assert (stalled off (set_flow fc s)) as Hs' by (by apply (stalled_ext s)).
  apply pres_bind; [by apply pres_put|]. intros _. apply pres_bind; [apply pres_gets|].
  intros cfc. apply pres_lift_bind. intros cfc' _. apply pres_bind; [by apply pres_modify|].
  intros _. dif; [apply pres_fail|]. dif; [apply pres_fail|]. by apply stalled_store.
Qed.

Lemma stalled_recv c s room : stream_of c sid = Some s → stalled off s → 0 ≤ room →
  ∃ c', stream_recv sid room c = (Ok ([], false), c') ∧ on_stream sid (stalled off) c'.
Proof.
  intros Hs Hst Hroom. destruct Hst as [Hwf Hstk Ho [Hr1 Hr2] Hrc Hf].
  unfold stream_recv. run_io. unfold stream_of in Hs. rewrite Hs. cbn iota beta.
  pose proof (stuck_copy off (recv_buf s) room Hroom Hwf Hstk) as Hcopy. rewrite <- Ho in Hcopy.
  assert ((match final_size s with Some n => n <=? recv_offset s | None => false end) = false) as Hfin.
  { destruct (final_size s) as [n|]; [|done]. specialize (Hf n eq_refl). lia. }
  assert (stalled off (set_recv_buf (recv_buf s) (recv_offset s) s)) as Hst by by split.
  destruct (st_recv s) as [[]|] eqn:Er; try done; rewrite Hcopy; run_io; cbn; rewrite Hfin;
    (eexists; split; [reflexivity|]); eexists; (split; [apply lookup_insert_eq|done]).
Qed.

Lemma stalled_commit_send s data n fin : stalled off s →
  preserves sid (stalled off) (commit_send sid s data n fin).
Proof.
  intros Hs. unfold commit_send. apply pres_lift_bind. intros new_offset _.
  apply pres_lift_bind. intros fc Hfc. apply pres_bind; [apply pres_gets|]. intros cfc.
  apply pres_lift_bind. intros cfc' _. apply pres_bind; [by apply pres_modify|]. intros _.
  apply pres_bind.
  - unfold Strm.on_data_sent in Hfc. apply bind_ok_inv in Hfc as (? & _ & [= <-]).
    apply pres_put, (stalled_ext s); try done; repeat dif; done.
  - intros _. apply pres_lift_bind. intros d _. apply pres_bind; [by apply pres_modify|].
    intros _. apply pres_ret.
Qed.

Lemma stalled_send kind st data fin :
  preserves sid (stalled off) (stream_send kind st sid data fin).
Proof.
  unfold stream_send. dif; [apply pres_fail|]. apply pres_get_bind. intros s Hs.
  destruct (st_send s) as [[]|] eqn:Es; try apply pres_fail;
    (apply pres_bind; [apply pres_gets|]; intros cfc; dif; [|apply pres_ret];
     by apply stalled_commit_send).
Qed.

(** The frames of [process_stream_arm] that concern this stream or the whole
    connection, RESET_STREAM excepted, with a u64 offset. *)
Definition concerns (f : Frame) : Prop :=
  match f with
  | Stream sf => sf_stream_id sf = sid ∧ 0 ≤ sf_offset sf
  | MaxStreamData id _ | StopSending id _ | StreamDataBlocked id _ => id = sid
  | ResetStream _ _ _ => False
  | _ => True
  end.

Lemma stalled_arm f : concerns f → preserves sid (stalled off) (process_stream_arm f).
Proof.
  destruct f; cbn [concerns process_stream_arm]; intros Hf; try apply pres_ret; try done.
  - subst. unfold process_stop_sending, accept_if_new. apply pres_bind.
    { apply pres_get_bind. intros s _. apply pres_ret. }
    intros _. apply pres_get_bind. intros s Hs. destruct (st_send s); [|apply pres_fail].
    apply pres_bind; [|intros _; by apply pres_modify].
    apply pres_put. by apply (stalled_ext s).
  - destruct Hf. by apply stalled_stream_frame.
  - by apply pres_modify.
  - subst. unfold process_max_stream_data. apply pres_get_bind. intros s Hs.
    apply pres_put. apply (stalled_ext s); try done. cbn. unfold Strm.update_send_max. by dif.
  - unfold process_max_streams. dif; [apply pres_fail|]. apply pres_modify. intros c.
    unfold update_max_bidi_streams, update_max_uni_streams. repeat dif; done.
  - unfold process_data_blocked. apply pres_bind; [apply pres_gets|]. intros fc.
    destruct (Conn.update_from_data_blocked _ _) as [[] fc'].
    + apply pres_bind; [by apply pres_modify|]. intros _. by apply pres_modify.
    + apply pres_bind; [by apply pres_modify|]. intros _. apply pres_ret.
  - subst. unfold process_stream_data_blocked. apply pres_get_bind. intros s Hs.
    destruct (st_recv s) eqn:Er; [|apply pres_ret].
    destruct (Strm.update_from_stream_data_blocked _ _) as [upd fc'] eqn:E.
    apply pres_bind; [|intros _; destruct upd; [by apply pres_modify|apply pres_ret]].
    apply pres_put, (stalled_ext s); try done. cbn.
    unfold Strm.update_from_stream_data_blocked in E. destruct (_ <? _) in E; [by injection E as _ <-|].
    destruct (_ <? _) in E; by injection E as _ <-.
  - unfold process_streams_blocked. apply pres_bind; [apply pres_gets|]. intros lim.
    dif; [by apply pres_modify|apply pres_ret].
Qed.

(** What may happen later on this stream. *)
Inductive later (c0 : StreamIo) : StreamIo → Prop :=
  | later_refl : later c0 c0
  | later_arm c f : later c0 c → concerns f → later c0 (process_stream_arm f c).2
  | later_send c kind st data fin : later c0 c → later c0 (stream_send kind st sid data fin c).2
  | later_read c room : later c0 c → 0 ≤ room → later c0 (stream_recv sid room c).2.

Lemma later_stalled c0 c : on_stream sid (stalled off) c0 → later c0 c → on_stream sid (stalled off) c.
Proof.
  intros H0. induction 1 as [|c f _ IH Hf|c kind st data fin _ IH|c room _ (s & Hs & IH) Hroom].
  - done.
  - by apply stalled_arm.
  - by apply stalled_send.
  - destruct (stalled_recv c s room Hs IH Hroom) as (c' & -> & ?). done.
Qed.
End Stalled.

(** What a frame within the sequence needs of the stream, and keeps, wherever
    it starts. *)
Record room_for (sid : StreamId) (n : Z) (c : StreamIo) (s : StreamState) : Prop := {
  rf_stream : stream_of c sid = Some s;
  rf_readable : readable s;
  rf_wf : buf_wf (recv_buf s);
  rf_final : final_size s = None;
  rf_received : 0 ≤ Strm.received (flow_control s) ≤ n;
  rf_credit : n ≤ Strm.recv_max (flow_control s) ∧ n ≤ U64_MAX;
  rf_conn : Conn.received (io_flow c) + (n - Strm.received (flow_control s))
              ≤ Conn.recv_max (io_flow c) ≤ U64_MAX;
}.

Lemma room_frame sid n c s o d : room_for sid n c s → 0 ≤ o → o + len d ≤ n →
  let f := {| sf_stream_id := sid; sf_offset := o; sf_fin := false; sf_data := d |} in
  ∃ s' c', process_stream_frame f c = (Ok tt, c') ∧ room_for sid n c' s' ∧
    recv_offset s' = recv_offset s ∧
    Strm.received (flow_control s') = Z.max (Strm.received (flow_control s)) (o + len d) ∧
    ∀ i, covers (recv_buf s') i ↔ covers (recv_buf s) i ∨ o ≤ i < o + len d.
Proof.
  intros [Hs Hr Hwf Hfin Hrc [Hm Hmax] Hc] H0 Hend f.
  destruct (stream_frame_ok c sid f s eq_refl Hs (proj1 Hr) Hwf)
    as (s' & c' & E & Hs' & Hc1 & Hc2 & Hs1 & Hs2 & Hside & fc & Hfc & Hsto); cbn; try done; try lia.
  { intros k Hk. congruence. }
  destruct Hsto as [Hbuf Hoff Hflow Hfinal Hread _ _]. cbn in *.
  destruct (buffer_spec (recv_buf s) o d Hwf H0) as (buf & Eb & Hwf' & Hh); [lia|].
  rewrite Hbuf in Eb. injection Eb as Eb. rewrite <- Eb in *.
  exists s', c'. split_and!; [done| |done|done|].
  - split; try done; try lia; [by apply Hread|by rewrite Hfinal].
  - intros i. split.
    + intros [b [H|[_ H]]%Hh]; [left; by exists b|right]. by apply seg_byte_range in H.
    + intros [[b H]|Hi]; [exists b; apply Hh; by left|].
      destruct (decide (covers (recv_buf s) i)) as [[b Hb]|Hn]; [exists b; apply Hh; by left|].
      destruct (seg_byte_total (o, d) i Hi) as [b Hb]. exists b. apply Hh. by right.
Qed.

(** After one frame from the start of the sequence, a read with enough room
    takes exactly its bytes and leaves nothing stored. *)
Lemma read_first_frame sid d1 d2 c s room :
  let f := {| sf_stream_id := sid; sf_offset := 0; sf_fin := false; sf_data := d1 |} in
  session_inv sid (d1 ++ d2) c [] [f] s → len d1 ≤ room →
  ∃ s' c', stream_recv sid room c = (Ok (d1, false), c') ∧ session_inv sid (d1 ++ d2) c' d1 [f] s' ∧
    ∀ i, ¬ covers (recv_buf s') i.
Proof.
  intros f Hs Hroom. pose proof (len_nonneg d1).
  assert (∀ i, arrived [f] i ↔ 0 ≤ i < len d1) as Harr.
  { intros i. unfold arrived. setoid_rewrite list_elem_of_singleton. split.
    - intros (? & -> & ?). done.
    - intros ?. exists f. done. }
  destruct (read_step sid (d1 ++ d2) c [] [f] s room Hs) as (out & fin & s' & c' & E & Hs' & Hlen & Hmax & Hfin);
    [lia|]. cbn [app] in *. pose proof (len_nonneg out).
  assert (len out = len d1) as Hl.
  { destruct (Z.lt_trichotomy (len out) (len d1)) as [Hlt|[?|Hgt]]; [|done|].
    - destruct Hmax; [lia|]. apply Harr. lia.
    - destruct (proj1 (Harr (len d1))); [|lia]. apply (si_arrived _ _ _ _ _ _ Hs'). right. lia. }
  assert (out = d1) as ->.
  { assert (out `prefix_of` d1 ++ d2) as Hp by apply seg_byte_prefix, Hs'.
    destruct Hp as [k Hk]. unfold len in Hl. by apply app_inj_1 in Hk as [-> _]; [|lia]. }
  exists s', c'. split_and!; [|done|].
  - rewrite E. destruct fin; [|done]. destruct (proj1 Hfin eq_refl) as [(f' & Hf' & Hff) _].
    apply list_elem_of_singleton in Hf' as ->. done.
  - intros i Hi. assert (arrived [f] i) as Ha%Harr by (apply (si_arrived _ _ _ _ _ _ Hs'); by left).
    destruct Hi as [b Hb]. pose proof (fresh_holds _ _ _ _ (si_fresh _ _ _ _ _ _ Hs') Hb).
    rewrite (si_offset _ _ _ _ _ _ Hs') in *. lia.
Qed.

(** C40: (a defect) a STREAM frame is received, its bytes are read, the frame is
    received a second time - a retransmission whose acknowledgement was lost -
    and the next bytes of the stream arrive.  Everything is accepted, but the
    repeated bytes are stored again and merged with the new ones into a
    segment that starts below the read offset, and no read finds it: whatever
    frames other than RESET_STREAM and whatever reads and writes follow, the
    stream never delivers another byte, nor its end. *)
Theorem retransmission_stalls_stream (sid : StreamId) (d1 d2 : bytes) (c0 : StreamIo) (room : Z)
    (Hd1 : d1 ≠ []) (Hd2 : d2 ≠ []) (Hop : opened sid (d1 ++ d2) c0) (Hroom : len d1 ≤ room) :
  let frame o d := {| sf_stream_id := sid; sf_offset := o; sf_fin := false; sf_data := d |} in
  ∃ c1 c2 c3 c4,
    process_stream_frame (frame 0 d1) c0 = (Ok tt, c1) ∧
    stream_recv sid room c1 = (Ok (d1, false), c2) ∧
    process_stream_frame (frame 0 d1) c2 = (Ok tt, c3) ∧
    process_stream_frame (frame (len d1) d2) c3 = (Ok tt, c4) ∧
    ∀ c r, later sid c4 c → 0 ≤ r → ∃ c', stream_recv sid r c = (Ok ([], false), c').
Proof.
  intros frame. apply len_pos in Hd1, Hd2. set (n := len (d1 ++ d2)).
  assert (n = len d1 + len d2) as En by apply len_app.
  destruct (session_open_inv sid (d1 ++ d2) c0 Hop) as [s0 Hs0].
  destruct (frame_step sid (d1 ++ d2) c0 [] [] (frame 0 d1) s0 Hs0) as (s1 & c1 & E1 & Hs1).
  { split_and!; cbn; try done; [rewrite len_app; lia|]. intros i b ?. apply seg_byte_app. by left. }
  { cbn. by rewrite (@len_nil Z). }
  destruct (read_first_frame sid d1 d2 c1 s1 room Hs1 Hroom) as (s2 & c2 & E2 & Hs2 & Hnone).
  assert (room_for sid n c2 s2) as Hroom2.
  { destruct Hs2 as [Hs Hr Hwf Hfr Ho Hdl Hst Harr Hfin Hrc Hm Hc Hc0]. split; try done; [|lia].
    destruct Hfin as [[? _]|[_ (f & Hf & Hff)]]; [done|].
    apply list_elem_of_singleton in Hf as ->. done. }
  destruct (room_frame sid n c2 s2 0 d1 Hroom2) as (s3 & c3 & E3 & Hroom3 & Ho3 & Hrc3 & Hcov3); [lia..|].
  destruct (room_frame sid n c3 s3 (len d1) d2 Hroom3) as (s4 & c4 & E4 & Hroom4 & Ho4 & Hrc4 & Hcov4); [lia..|].
  exists c1, c2, c3, c4. split_and!; [done..|]. intros c r Hlater Hr.
  assert (on_stream sid (stalled (len d1)) c4) as H4.
  { exists s4. destruct Hroom4 as [Hs Hrd Hwf Hfin Hrc Hm Hc]. split; [done|].
    split; try done; [|..|congruence].
    - split; apply Hcov4; [left; apply Hcov3; right; lia|right; lia].
    - rewrite Ho4, Ho3. apply Hs2.
    - lia. }
  destruct (later_stalled sid (len d1) c4 c H4 Hlater) as (s & Hs & Hst).
  destruct (stalled_recv sid (len d1) c s r Hs Hst Hr) as (c' & E & _). eauto.
Qed.

Lemma retransmission_stalls_stream_witness :
  let frame o d := {| sf_stream_id := 0; sf_offset := o; sf_fin := false; sf_data := d |} in
  ∃ c1 c2 c3 c4,
    process_stream_frame (frame 0 [1; 2; 3]) sample_io = (Ok tt, c1) ∧
    stream_recv 0 10 c1 = (Ok ([1; 2; 3], false), c2) ∧
    process_stream_frame (frame 0 [1; 2; 3]) c2 = (Ok tt, c3) ∧
    process_stream_frame (frame 3 [4; 5]) c3 = (Ok tt, c4) ∧
    ∀ c r, later 0 c4 c → 0 ≤ r → ∃ c', stream_recv 0 r c = (Ok ([], false), c').
Proof.
  apply (retransmission_stalls_stream 0 [1; 2; 3] [4; 5] sample_io 10); [done|done| |].
  - eexists. split; [reflexivity|]. vm_compute. split_and!; try done; lia.
  - vm_compute. discriminate.
Defined.

