(* ===== verification/StreamSendProps.v ===== *)
(** * Sending on streams: order, credit, the whole path, and two defects

    The frames queued by [stream_send] carry the accepted bytes once, in order
    and within both windows; fed to the receiver of [StreamIoProps] in any
    order they deliver those bytes.  Data may be sent after the FIN, and a late
    frame for a retired stream of this endpoint is a connection error. *)

From S2P Require Import Prelude QuicError Varint Frame Packet KeyUpdate FlowControl Streams.
From S2P Require Import StreamsProps Reassembly ReassemblyProps StreamIo StreamIoProps.

Definition sendable (kind : option ApplicationPacketKind) (state : ConnectionState) : bool :=
  match kind with
  | Some AppZeroRtt => true
  | Some AppOneRtt => bool_decide (state = CConnected)
  | None => false
  end.

(** The bytes both windows allow. *)
Definition window (c : StreamIo) (s : StreamState) : Z :=
  Z.min (Strm.send_window (flow_control s)) (Conn.send_window (io_flow c)).

Definition open_for_sending (s : StreamState) : Prop :=
  st_send s = Some SReady ∨ st_send s = Some SSend ∨ st_send s = Some SDataSent.

(** Both levels have sent no more than their limits. *)
Record within_credit (c : StreamIo) (s : StreamState) : Prop := {
  wc_stream : 0 ≤ Strm.sent (flow_control s) ≤ Strm.send_max (flow_control s);
  wc_stream_max : Strm.send_max (flow_control s) ≤ U64_MAX;
  wc_conn : 0 ≤ Conn.sent (io_flow c) ≤ Conn.send_max (io_flow c);
  wc_conn_max : Conn.send_max (io_flow c) ≤ U64_MAX;
}.

(** What [stream_send] does on a stream that may send. *)
Record sent_step (sid : StreamId) (data : bytes) (fin : bool) (n : Z)
    (c : StreamIo) (s : StreamState) (c' : StreamIo) (s' : StreamState) : Prop := {
  ss_stream : stream_of c' sid = Some s';
  ss_credit : within_credit c' s';
  ss_n : n = Z.min (len data) (window c s);
  ss_offset : send_offset s' = send_offset s + n;
  ss_sent : Strm.sent (flow_control s') = Strm.sent (flow_control s) + n;
  ss_conn : Conn.sent (io_flow c') = Conn.sent (io_flow c) + n;
  ss_max : Strm.send_max (flow_control s') = Strm.send_max (flow_control s) ∧
           Conn.send_max (io_flow c') = Conn.send_max (io_flow c);
  ss_pending : io_pending c' = io_pending c ++
    (if (0 <? n) || (fin && (n =? len data)) then
       [(SpaceApplicationData,
         Stream {| sf_stream_id := sid; sf_offset := send_offset s;
                   sf_fin := fin && (n =? len data); sf_data := take (Z.to_nat n) data |})]
     else []);
  ss_state : st_send s' = (if fin && (n =? len data) then Some SDataSent
                           else if (0 <? n) && bool_decide (st_send s = Some SReady)
                           then Some SSend else st_send s);
}.

Lemma commit_send_ok c sid s data fin n :
  stream_of c sid = Some s → within_credit c s → 0 ≤ send_offset s ≤ Strm.sent (flow_control s) →
  n = Z.min (len data) (window c s) → (0 <? n) || (fin && (n =? len data)) = true →
  ∃ c' s', commit_send sid s data n (fin && (n =? len data)) c = (Ok n, c') ∧
    sent_step sid data fin n c s c' s'.
Proof.
  intros Hs [Hw1 Hw2 Hw3 Hw4] Hoff Hn Hgo. pose proof (len_nonneg data).
  assert (0 ≤ n ≤ len data ∧ n ≤ Strm.send_max (flow_control s) - Strm.sent (flow_control s) ∧
          n ≤ Conn.send_max (io_flow c) - Conn.sent (io_flow c)) as (Hn0 & Hn1 & Hn2).
  { subst n. unfold window, Strm.send_window, Conn.send_window, saturating_sub. lia. }
  unfold commit_send, Strm.on_data_sent, Conn.on_data_sent.
  destruct (split_at data n) as (d1 & d2 & Ed & Hd1); [lia|].
  assert (slice data 0 n = Ok d1 :> qres bytes) as -> by (rewrite Ed; by apply slice_prefix).
  assert (take (Z.to_nat n) data = d1) as Htake.
  { rewrite Ed, <- Hd1. unfold len. by rewrite Nat2Z.id, take_app_length. }
  rewrite !add_u64_ok, !bind_ok by lia. run_io. cbn [set_conn_flow set_streams io_flow].
  rewrite add_u64_ok, bind_ok by lia. run_io.
  eexists _, _. split; [reflexivity|].
  split; [apply lookup_insert_eq|..]; cbn [io_pending io_flow set_streams set_conn_flow];
    rewrite ?Hgo, ?Htake; try done.
  - split; cbn; repeat dif; cbn; lia.
  - repeat dif; done.
  - repeat dif; done.
  - repeat dif; done.
  - destruct (fin && (n =? len data)) eqn:Ef; [done|]. rewrite orb_false_r in Hgo. rewrite Hgo.
    cbn. by repeat dif.
Qed.

Lemma stream_send_ok kind state c sid s data fin :
  sendable kind state = true → stream_of c sid = Some s → open_for_sending s →
  within_credit c s → 0 ≤ send_offset s ≤ Strm.sent (flow_control s) →
  ∃ n c' s', stream_send kind state sid data fin c = (Ok n, c') ∧ 0 ≤ n ≤ len data ∧
    sent_step sid data fin n c s c' s'.
Proof.
  intros Hk Hs Hopen Hw Hoff. pose proof (len_nonneg data).
  set (n := Z.min (len data) (window c s)). exists n.
  assert (0 ≤ n ≤ len data) as Hn.
  { unfold n, window, Strm.send_window, Conn.send_window, saturating_sub. lia. }
  assert (∃ c' s', (if (0 <? n) || (fin && (n =? len data))
      then commit_send sid s data n (fin && (n =? len data)) else mret n) c = (Ok n, c') ∧
      sent_step sid data fin n c s c' s') as (c' & s' & E & Hst).
  { dif; [by apply commit_send_ok|]. apply orb_false_iff in Heqb as [H1 H2].
    assert (n = 0) as En by lia.
    exists c, s. split; [done|]. split; rewrite ?H1, ?H2, ?app_nil_r; try done; lia. }
  exists c', s'. split; [|done]. unfold stream_send. fold (sendable kind state). rewrite Hk.
  cbn [negb]. run_io. pose proof Hs as Hs0. unfold stream_of in Hs0. rewrite Hs0. cbn iota beta.
  destruct Hopen as [-> | [-> | ->]]; run_stM; exact E.
Qed.

(** ** A sender *)

(** The STREAM frames of one stream in the queue. *)
Definition stream_frames (sid : StreamId) (q : list (PacketNumberSpace * Frame)) : list StreamFrame :=
  omap (λ '(_, f), match f with
                   | Stream sf => if sf_stream_id sf =? sid then Some sf else None
                   | _ => None end) q.

Definition credit_frame (f : Frame) : Prop :=
  match f with MaxData m | MaxStreamData _ m => is_u64 m | _ => False end.

(** The application writes to a new stream, each time as much as the windows
    take, until a FIN is accepted; credit frames of the peer come in between. *)
Inductive sending (sid : StreamId) : StreamIo → bytes → bool → Prop :=
  | sending_start c s : stream_of c sid = Some s → st_send s = Some SReady →
      send_offset s = 0 → Strm.sent (flow_control s) = 0 → within_credit c s →
      stream_frames sid (io_pending c) = [] → sending sid c [] false
  | sending_send c acc kind state data fin n c' : sending sid c acc false →
      sendable kind state = true → stream_send kind state sid data fin c = (Ok n, c') →
      sending sid c' (acc ++ take (Z.to_nat n) data) (fin && (n =? len data))
  | sending_credit c acc fin f : sending sid c acc fin → credit_frame f →
      sending sid (process_stream_arm f c).2 acc fin.

(** The frames [fs] are a transmission of [acc], ended by a FIN when [fin]. *)
Record transmits (sid : StreamId) (acc : bytes) (fin : bool) (fs : list StreamFrame) : Prop := {
  tr_frame f : f ∈ fs → frame_of sid acc f;
  tr_all i : 0 ≤ i < len acc → arrived fs i;
  tr_fin : fin_arrived fs ↔ fin = true;
}.

Record sending_inv (sid : StreamId) (c : StreamIo) (acc : bytes) (fin : bool) (s : StreamState) : Prop := {
  sd_stream : stream_of c sid = Some s;
  sd_credit : within_credit c s;
  sd_offset : send_offset s = len acc;
  sd_sent : Strm.sent (flow_control s) = len acc;
  sd_open : fin = false → open_for_sending s;
  sd_frames : transmits sid acc fin (stream_frames sid (io_pending c));
}.

Lemma transmits_snoc sid acc fs d fin :
  transmits sid acc false fs → d ≠ [] ∨ fin = true →
  transmits sid (acc ++ d) fin
    (fs ++ [{| sf_stream_id := sid; sf_offset := len acc; sf_fin := fin; sf_data := d |}]).
Proof.
  intros [Hf Hall Hfin] Hd. pose proof (len_nonneg acc). pose proof (len_nonneg d). split.
  - intros f [Hin|Hin%list_elem_of_singleton]%elem_of_app; [|subst f].
    + destruct (Hf f Hin) as (? & ? & ? & Hb & Hff). split_and!; try done.
      * rewrite len_app. lia.
      * intros i b ?%Hb. apply seg_byte_app. by left.
      * intros Ef. assert (false = true) by (apply Hfin; by exists f). done.
    + split_and!; cbn; rewrite ?len_app; try done; try lia.
      intros i b ?. apply seg_byte_app. by right.
  - intros i Hi. rewrite len_app in Hi. unfold arrived. setoid_rewrite elem_of_app.
    destruct (decide (i < len acc)).
    + destruct (Hall i) as (f & ? & ?); [lia|]. exists f. auto.
    + eexists. split; [right; by apply list_elem_of_singleton|]. cbn. lia.
  - unfold fin_arrived in *. setoid_rewrite elem_of_app. split.
    + intros (f & [Hin|Hin%list_elem_of_singleton] & Ef); [|by subst f].
      assert (false = true) by (apply Hfin; by exists f). done.
    + intros ->. eexists. split; [right; by apply list_elem_of_singleton|done].
Qed.

Lemma sending_step_inv sid c acc kind state data fin n c' s :
  sending_inv sid c acc false s → sendable kind state = true →
  stream_send kind state sid data fin c = (Ok n, c') →
  ∃ s', sending_inv sid c' (acc ++ take (Z.to_nat n) data) (fin && (n =? len data)) s'.
Proof.
  intros [Hs Hw Ho Hsent Hopen Htr] Hk E. pose proof (len_nonneg acc).
  destruct (stream_send_ok kind state c sid s data fin Hk Hs (Hopen eq_refl) Hw)
    as (n' & c'' & s' & E' & Hn & Hst); [lia|].
  rewrite E in E'. injection E' as <- <-. exists s'.
  destruct Hst as [Hs' Hw' Hn' Ho' Hsent' Hc' _ Hp' Hst'].
  assert (len (take (Z.to_nat n) data) = n) as Ht.
  { unfold len in *. rewrite length_take. lia. }
  split; [done|done|rewrite len_app; lia|rewrite len_app; lia| |].
  - intros Hf. rewrite Hf in Hst'. unfold open_for_sending in *. rewrite Hst'.
    destruct ((0 <? n) && _); auto.
  - rewrite Hp'. unfold stream_frames. rewrite omap_app. fold (stream_frames sid (io_pending c)).
    destruct ((0 <? n) || (fin && (n =? len data))) eqn:Eg; cbn.
    + rewrite Z.eqb_refl. cbn. rewrite Ho. apply transmits_snoc; [done|].
      destruct (fin && (n =? len data)); [by right|left].
      rewrite orb_false_r in Eg. intros Hnil. rewrite Hnil, (@len_nil Z) in Ht. lia.
    + apply orb_false_iff in Eg as [E0 ->]. rewrite app_nil_r.
      assert (n = 0) as -> by lia. rewrite take_0, app_nil_r. done.
Qed.

Lemma sending_credit_inv sid c acc fin f s :
  sending_inv sid c acc fin s → credit_frame f →
  ∃ s', sending_inv sid (process_stream_arm f c).2 acc fin s'.
Proof.
  intros [Hs [Hw1 Hw2 Hw3 Hw4] Ho Hsent Hopen Htr] Hf. destruct f; try done; destruct Hf as [H1 H2];
    cbn [process_stream_arm].
  - exists s. split; try done. split; try done; cbn; unfold Conn.update_send_max; dif; cbn; lia.
  - unfold process_max_stream_data. run_io. destruct (streams (io_streams c) !! stream_id) as [s0|] eqn:E.
    2:{ by exists s. }
    destruct (decide (stream_id = sid)) as [->|Hne].
    + unfold stream_of in Hs. replace s0 with s in * by congruence. clear E.
      exists (set_flow (Strm.update_send_max (flow_control s) maximum_stream_data) s).
      split; try done.
      * apply lookup_insert_eq.
      * split; try done; cbn; unfold Strm.update_send_max; dif; cbn; lia.
      * cbn. unfold Strm.update_send_max. by dif.
    + exists s. split; try done. unfold stream_of. cbn. by rewrite lookup_insert_ne.
Qed.

Lemma sending_has_inv sid c acc fin : sending sid c acc fin → ∃ s, sending_inv sid c acc fin s.
Proof.
  induction 1 as [c s Hs Hst Ho Hsent Hw Hfr|c acc kind state data fin n c' _ [s Hs] Hk E
                 |c acc fin f _ [s Hs] Hf].
  - exists s. split; try done; [by left|]. rewrite Hfr. split.
    + intros f []%elem_of_nil.
    + intros i Hi. rewrite (@len_nil Z) in Hi. lia.
    + split; [|done]. intros (f & []%elem_of_nil & _).
  - by eapply sending_step_inv.
  - by eapply sending_credit_inv.
Qed.

(** The frames a sender has queued for a stream carry exactly the bytes it
    accepted, in place, with the FIN on the last byte if a FIN was accepted,
    and neither the stream nor the connection has sent more than its limit. *)
Theorem sender_transmits_accepted_data (sid : StreamId) (c : StreamIo) (acc : bytes) (fin : bool)
    (Hsend : sending sid c acc fin) :
  transmits sid acc fin (stream_frames sid (io_pending c)) ∧
  ∃ s, stream_of c sid = Some s ∧ Strm.sent (flow_control s) = len acc ∧ within_credit c s.
Proof.
  destruct (sending_has_inv sid c acc fin Hsend) as [s []]. split; [done|]. by exists s.
Qed.

(** C1: the whole path of a stream: what one endpoint's application wrote, up
    to the FIN, is what the other endpoint's application reads, when the
    receiver was fed the sender's frames in any order and with any repetition
    at or above its read offset, all of them at least once: the next read
    with enough room completes the data and reports its end. *)
Theorem stream_end_to_end (sid : StreamId) (c : StreamIo) (acc : bytes)
    (cr : StreamIo) (dl : bytes) (fs : list StreamFrame) (room : Z)
    (Hsend : sending sid c acc true) (Hrecv : session sid acc cr dl fs)
    (Hall : ∀ f, f ∈ stream_frames sid (io_pending c) → f ∈ fs) (Hroom : len acc < room) :
  ∃ out cr', stream_recv sid room cr = (Ok (out, true), cr') ∧ dl ++ out = acc.
Proof.
  destruct (sending_has_inv sid c acc true Hsend) as [s Hs].
  destruct (session_has_inv sid acc cr dl fs Hrecv) as [sr Hsr]. pose proof (len_nonneg acc).
  destruct (read_step sid acc cr dl fs sr room Hsr) as (out & fin & s' & cr' & E & Hs' & Hlen & Hmax & Hfin);
    [lia|].
  destruct (sd_frames _ _ _ _ _ Hs) as [Hf Ha Hfa].
  assert ((dl ++ out) `prefix_of` acc) as Hp by apply seg_byte_prefix, Hs'.
  assert (len (dl ++ out) ≤ len acc) as Hle by (apply prefix_length in Hp; unfold len; lia).
  assert (len (dl ++ out) = len acc) as Heq.
  { destruct (decide (len (dl ++ out) < len acc)) as [Hlt|]; [exfalso|lia].
    destruct (Ha (len (dl ++ out))) as (f & Hin & Hr); [split; [apply len_nonneg|done]|].
    apply Hmax; [|by exists f; auto]. rewrite len_app in *. pose proof (len_nonneg dl). lia. }
  assert (dl ++ out = acc) as Hout by (apply prefix_length_eq; [done|unfold len in Heq; lia]).
  exists out, cr'. split; [|done]. replace true with fin; [done|]. apply Hfin. split; [|lia].
  destruct (proj2 Hfa eq_refl) as (f & ? & ?). exists f. auto.
Qed.

(** ** Witnesses *)

Definition sample_sender : StreamIo := {|
  io_streams := (open_bidi (manager_new Client 4 4 100)).2;
  io_flow := Conn.new 100 100; io_pending := [] |}.

Definition sample_write (d : bytes) (fin : bool) (c : StreamIo) : StreamIo :=
  (stream_send (Some AppOneRtt) CConnected 0 d fin c).2.

Lemma sample_write_sending c acc d fin n acc' fin' :
  sending 0 c acc false → (stream_send (Some AppOneRtt) CConnected 0 d fin c).1 = Ok n →
  acc' = acc ++ take (Z.to_nat n) d → fin' = fin && (n =? len d) →
  sending 0 (sample_write d fin c) acc' fin'.
Proof.
  intros Hs Hn -> ->. apply (sending_send 0 c acc (Some AppOneRtt) CConnected); [done|done|].
  unfold sample_write. rewrite <- Hn. apply surjective_pairing.
Qed.

Lemma sample_sending :
  sending 0 (sample_write [4; 5] true (sample_write [1; 2; 3] false sample_sender)) [1; 2; 3; 4; 5] true.
Proof.
  eapply (sample_write_sending _ [1; 2; 3] _ _ 2); [|vm_compute; reflexivity|reflexivity|reflexivity].
  eapply (sample_write_sending _ [] _ _ 3); [|vm_compute; reflexivity|reflexivity|reflexivity].
  eapply (sending_start _ sample_sender); [reflexivity|done|done|done| |done].
  split; vm_compute; repeat split; congruence.
Qed.

Lemma sender_transmits_accepted_data_witness :
  let c := sample_write [4; 5] true (sample_write [1; 2; 3] false sample_sender) in
  transmits 0 [1; 2; 3; 4; 5] true (stream_frames 0 (io_pending c)) ∧
  ∃ s, stream_of c 0 = Some s ∧ Strm.sent (flow_control s) = len [1; 2; 3; 4; 5] ∧ within_credit c s.
Proof. exact (sender_transmits_accepted_data 0 _ _ _ sample_sending). Defined.

(** The receiver of the example, fed the two frames in the wrong order. *)
Definition sample_receiver : StreamIo :=
  (process_stream_frame (sample_frame 0 false [1; 2; 3])
     (process_stream_frame (sample_frame 3 true [4; 5]) sample_io).2).2.

Lemma sample_session :
  session 0 [1; 2; 3; 4; 5] sample_receiver []
    [sample_frame 0 false [1; 2; 3]; sample_frame 3 true [4; 5]].
Proof.
  eapply session_frame; [eapply session_frame; [apply session_open| | |apply surjective_pairing]| | |
    apply surjective_pairing]; try (cbn; rewrite (@len_nil Z); lia).
  - eexists. split; [reflexivity|]. vm_compute. split_and!; try done; lia.
  - split_and!; try done. intros i b H. apply (seg_byte_app 0 [1; 2; 3] [4; 5]). by right.
  - split_and!; try done. intros i b H. apply (seg_byte_app 0 [1; 2; 3] [4; 5]). by left.
Qed.

Lemma stream_end_to_end_witness :
  ∃ out cr', stream_recv 0 10 sample_receiver = (Ok (out, true), cr') ∧ [] ++ out = [1; 2; 3; 4; 5].
Proof.
  apply (stream_end_to_end 0 (sample_write [4; 5] true (sample_write [1; 2; 3] false sample_sender))
           [1; 2; 3; 4; 5] sample_receiver [] [sample_frame 0 false [1; 2; 3]; sample_frame 3 true [4; 5]] 10).
  - exact sample_sending.
  - exact sample_session.
  - assert (stream_frames 0 (io_pending (sample_write [4; 5] true (sample_write [1; 2; 3] false sample_sender)))
      = [sample_frame 0 false [1; 2; 3]; sample_frame 3 true [4; 5]]) as -> by (vm_compute; reflexivity).
    done.
  - vm_compute. reflexivity.
Defined.

(** ** Two defects *)

Lemma beyond_final_size c sid f s n :
  sf_stream_id f = sid → stream_of c sid = Some s → st_recv s ≠ None → final_size s = Some n →
  n < sf_offset f + len (sf_data f) ≤ U64_MAX →
  process_stream_frame f c =
    (Err (Transport FinalSizeError
            (Msg "stream {sid} received data beyond final size {final_size}" [sid; n])), c).
Proof.
  intros <- Hs Hr Hf [Hlt Hmax]. unfold process_stream_frame, accept_if_new. run_io.
  unfold stream_of in Hs. rewrite Hs. run_stM. rewrite Hs. cbn iota beta.
  destruct (st_recv s); [|done]. unfold checked_add_u64. rewrite (proj2 (Z.leb_le _ _) Hmax).
  cbn [ok_or]. run_stM. unfold check_within_final_size. rewrite Hf, (proj2 (Z.ltb_lt _ _) Hlt).
  by run_stM.
Qed.

(** (a defect) after a FIN was sent, [stream_send] still accepts data: it
    queues a second frame beyond the final size its first frame declared, and
    a peer that runs this code answers it with a FINAL_SIZE_ERROR. *)
Theorem data_after_fin_breaks_connection (sid : StreamId) (kind : option ApplicationPacketKind)
    (state : ConnectionState) (d1 d2 : bytes) (fin2 : bool) (c cr : StreamIo) (s : StreamState)
    (Hk : sendable kind state = true) (Hs : stream_of c sid = Some s)
    (Hready : st_send s = Some SReady) (Hoff : send_offset s = 0) (Hw : within_credit c s)
    (Hwin : len d1 + len d2 ≤ window c s) (Hd2 : d2 ≠ []) (Hop : opened sid (d1 ++ d2) cr) :
  let f1 := {| sf_stream_id := sid; sf_offset := 0; sf_fin := true; sf_data := d1 |} in
  let f2 := {| sf_stream_id := sid; sf_offset := len d1; sf_fin := fin2; sf_data := d2 |} in
  (∃ c1 c2, stream_send kind state sid d1 true c = (Ok (len d1), c1) ∧
     stream_send kind state sid d2 fin2 c1 = (Ok (len d2), c2) ∧
     io_pending c2 = io_pending c ++ [(SpaceApplicationData, Stream f1); (SpaceApplicationData, Stream f2)]) ∧
  ∃ cr1 cr2, process_stream_frame f1 cr = (Ok tt, cr1) ∧
    process_stream_frame f2 cr1 =
      (Err (Transport FinalSizeError
              (Msg "stream {sid} received data beyond final size {final_size}" [sid; len d1])), cr2).
Proof.
  intros f1 f2. pose proof (len_nonneg d1). apply len_pos in Hd2. split.
  - destruct (stream_send_ok kind state c sid s d1 true Hk Hs (or_introl Hready) Hw)
      as (n1 & c1 & s1 & E1 & _ & [Hs1 Hw1 Hn1 Ho1 Hsent1 Hc1 [Hm1 Hm1'] Hp1 Hst1]).
    { destruct Hw. lia. }
    replace n1 with (len d1) in * by lia. rewrite Z.eqb_refl in *. rewrite orb_true_r in Hp1. cbn in Hst1.
    assert (window c1 s1 = window c s - len d1) as Hwin1.
    { unfold window, Strm.send_window, Conn.send_window, saturating_sub in *. destruct Hw1, Hw. lia. }
    destruct (stream_send_ok kind state c1 sid s1 d2 fin2 Hk Hs1) as
      (n2 & c2 & s2 & E2 & _ & [Hs2 Hw2 Hn2 Ho2 Hsent2 Hc2 _ Hp2 Hst2]); [by right; right|done| |].
    { destruct Hw. lia. }
    replace n2 with (len d2) in * by lia. exists c1, c2. split_and!; [done..|].
    rewrite Hp2, Hp1, (proj2 (Z.ltb_lt 0 (len d2))), Z.eqb_refl by lia. cbn [orb].
    rewrite <- app_assoc, !take_len. unfold f1, f2. rewrite Hoff. rewrite Ho1, Hoff, Z.add_0_l, !andb_true_r. done.
  - destruct Hop as (sr & Hsr & Hr & Hb & Ho & Hf & Hrc & Hm & Hc0 & Hc). rewrite len_app in *.
    destruct (stream_frame_ok cr sid f1 sr eq_refl Hsr)
      as (s1 & cr1 & E1 & Hs1 & Hc1 & Hc2 & Hs1' & Hs2 & _ & fc & Hfc & Hsto); cbn; try done; try lia.
    { congruence. }
    { rewrite Hb. split; intros ??; by rewrite lookup_empty. }
    { congruence. }
    exists cr1, cr1. split; [done|]. destruct Hsto as [_ _ _ Hfinal Hread _ _].
    apply (beyond_final_size cr1 sid f2 s1); cbn; try done; [|lia].
    apply Hread. split; cbn; congruence.
Qed.

Lemma data_after_fin_breaks_connection_witness :
  ∃ cr1 cr2,
    process_stream_frame {| sf_stream_id := 0; sf_offset := 0; sf_fin := true; sf_data := [1; 2; 3] |}
      sample_io = (Ok tt, cr1) ∧
    process_stream_frame {| sf_stream_id := 0; sf_offset := 3; sf_fin := false; sf_data := [4] |} cr1 =
      (Err (Transport FinalSizeError
              (Msg "stream {sid} received data beyond final size {final_size}" [0; 3])), cr2).
Proof.
  destruct (data_after_fin_breaks_connection 0 (Some AppOneRtt) CConnected [1; 2; 3] [4] false
              sample_sender sample_io (stream_new 0 Bidirectional true 100 100)) as [_ H]; try done.
  eexists. split; [reflexivity|]. vm_compute. split_and!; try done; lia.
Defined.

(** A frame for a stream of this endpoint that is not in the table. *)
Lemma unknown_local_stream c f :
  local_initiated (side (io_streams c)) (sf_stream_id f) = true →
  stream_of c (sf_stream_id f) = None →
  (process_stream_frame f c).1 =
    Err (Transport StreamStateError (Msg "stream {id} is locally initiated" [sf_stream_id f])).
Proof.
  intros Hl Hn. unfold process_stream_frame, accept_if_new. run_io. unfold stream_of in Hn. rewrite Hn.
  cbn iota beta. unfold mbind at 1, stM_bind at 1, on_streams, accept_stream. run_stM.
  rewrite bool_decide_eq_false_2 by (rewrite Hn; by intros [? ?]).
  unfold is_local_initiated. rewrite Hl. done.
Qed.

(** A stream with both sides finished is collected. *)
Lemma gc_collects m sid s : streams m !! sid = Some s → closed s = true →
  streams (gc_closed_streams m).2 !! sid = None ∧ side (gc_closed_streams m).2 = side m.
Proof.
  intros Hs Hc. split; [|done]. cbn. apply map_lookup_filter_None. right. intros s' Hs' Hc'.
  replace s' with s in * by congruence. congruence.
Qed.

(** (a defect) this endpoint opened a stream, its own data is sent and
    acknowledged, the peer's data [d] with FIN arrives and is read, and the
    stream is collected.  The same frame arriving once more - a retransmission
    whose acknowledgement was lost - is answered with a connection error,
    STREAM_STATE_ERROR, as if the peer had used a stream that was never
    opened. *)
Theorem late_retransmission_is_connection_error (sid : StreamId) (d : bytes) (room : Z)
    (c0 : StreamIo) (s0 : StreamState)
    (Hop : opened sid d c0) (Hs0 : stream_of c0 sid = Some s0) (Hsent : st_send s0 = Some SDataRecvd)
    (Hlocal : local_initiated (side (io_streams c0)) sid = true) (Hroom : len d < room) :
  let f := {| sf_stream_id := sid; sf_offset := 0; sf_fin := true; sf_data := d |} in
  ∃ c1 c2, process_stream_frame f c0 = (Ok tt, c1) ∧
    stream_recv sid room c1 = (Ok (d, true), c2) ∧
    let c3 := set_streams (gc_closed_streams (io_streams c2)).2 c2 in
    (process_stream_frame f c3).1 =
      Err (Transport StreamStateError (Msg "stream {id} is locally initiated" [sid])).
Proof.
  intros f. pose proof (len_nonneg d). destruct (session_open_inv sid d c0 Hop) as [s Hs].
  destruct (frame_step sid d c0 [] [] f s Hs) as (s1 & c1 & E1 & Hs1).
  { split_and!; cbn; done. }
  { cbn. by rewrite (@len_nil Z). }
  destruct (read_step sid d c1 [] [f] s1 room Hs1) as (out & fin & s2 & c2 & E2 & Hs2 & Hlen & Hmax & Hfin);
    [lia|]. cbn [app] in *.
  assert (out `prefix_of` d) as Hp by apply seg_byte_prefix, Hs2.
  assert (len out = len d) as Hl.
  { pose proof (prefix_length _ _ Hp). destruct (decide (len out < len d)); [|unfold len in *; lia].
    destruct Hmax; [lia|]. exists f. split; [by apply list_elem_of_singleton|]. cbn.
    pose proof (len_nonneg out). lia. }
  assert (out = d) as -> by (apply prefix_length_eq; [done|unfold len in Hl; lia]).
  assert (fin = true) as ->.
  { apply Hfin. split; [|lia]. exists f. split; [by apply list_elem_of_singleton|done]. }
  exists c1, c2. split_and!; [done..|]. cbn zeta.
  pose proof Hop as (s' & Hs' & Hr & Hb & Ho & Hf & Hrc & Hm & Hc0 & Hc).
  rewrite Hs0 in Hs'. injection Hs' as <-.
  assert (buf_wf (recv_buf s0)) as Hwf0 by (rewrite Hb; split; intros ??; by rewrite lookup_empty).
  destruct (stream_frame_ok c0 sid f s0 eq_refl Hs0) as (s1' & c1' & E1' & Hs1' & _ & _ & _ & _ & Hside & fc & _ & Hst);
    cbn; try done; try lia; [congruence|congruence|].
  rewrite E1 in E1'. injection E1' as <-.
  replace s1' with s1 in * by (pose proof (si_stream _ _ _ _ _ _ Hs1); congruence).
  destruct (stream_recv_ok c1 sid s1 room Hs1' (si_readable _ _ _ _ _ _ Hs1) (si_wf _ _ _ _ _ _ Hs1)
              (si_fresh _ _ _ _ _ _ Hs1)) as
    (out' & buf & s2' & c2' & fin' & E2' & Hs2' & _ & _ & _ & _ & _ & _ & _ & _ & Hside2 & Hsd2 & Hrv2); [lia|].
  rewrite E2 in E2'. injection E2' as <- <- <-.
  destruct (gc_collects (io_streams c2) sid s2' Hs2') as [Hgone Hside3].
  { unfold closed. rewrite Hsd2, (so_send _ _ _ _ Hst), (Hrv2 eq_refl (so_recv _ _ _ _ Hst eq_refl Hr)).
    cbn. by rewrite Hsent. }
  apply unknown_local_stream.
  - change (local_initiated (side (gc_closed_streams (io_streams c2)).2) sid = true).
    by rewrite Hside3, Hside2, Hside.
  - exact Hgone.
Qed.

(** The first stream of a client whose request was sent and acknowledged. *)
Definition sample_client : StreamIo :=
  (acknowledge_stream_frame (sample_frame 0 true [7]) (sample_write [7] true sample_sender)).2.

Lemma late_retransmission_is_connection_error_witness :
  let f := {| sf_stream_id := 0; sf_offset := 0; sf_fin := true; sf_data := [1; 2] |} in
  ∃ c1 c2, process_stream_frame f sample_client = (Ok tt, c1) ∧
    stream_recv 0 10 c1 = (Ok ([1; 2], true), c2) ∧
    let c3 := set_streams (gc_closed_streams (io_streams c2)).2 c2 in
    (process_stream_frame f c3).1 =
      Err (Transport StreamStateError (Msg "stream {id} is locally initiated" [0])).
Proof.
  eapply (late_retransmission_is_connection_error 0 [1; 2] 10 sample_client);
    [|vm_compute; reflexivity|vm_compute; reflexivity|vm_compute; reflexivity|vm_compute; reflexivity].
  eexists. split; [vm_compute; reflexivity|]. vm_compute. split_and!; try done; lia.
Defined.
