(* ===== verification/AckTracking.v ===== *)
(** * Acknowledgement state (starfish-quic/src/connection.rs, RFC 9000 section 13.2)

    The packet numbers received in one packet number space as descending
    ranges, the decision when to acknowledge, and the ACK frame.  Times are
    nanoseconds of the monotonic clock. *)

From S2P Require Import Prelude QuicError Varint Frame.

Definition MAX_TRACKED_RECV_PN_RANGES : nat := 32.

(** The index of the first range that ends below [pn], or the length. *)
Fixpoint position_below (pn : Z) (ranges : list (Z * Z)) : nat :=
  match ranges with
  | [] => 0
  | (_, stop) :: rest => if stop <? pn then 0 else S (position_below pn rest)
  end.

Definition packet_numbers_are_adjacent (lower higher : Z) : bool :=
  match checked_add_u64 lower 1 with Some n => n =? higher | None => false end.

Definition in_range (pn : Z) (r : Z * Z) : bool := (r.1 <=? pn) && (pn <=? r.2).

(** [ranges[i]] for an index that is checked to be in range. *)
Definition range_at (ranges : list (Z * Z)) (i : nat) : option (Z * Z) := ranges !! i.

Definition record_recv_pn (ranges : list (Z * Z)) (pn : Z) : list (Z * Z) :=
  let insert_idx := position_below pn ranges in
  let before := if decide (0 < insert_idx)%nat then range_at ranges (insert_idx - 1) else None in
  let after := if decide (insert_idx < length ranges)%nat then range_at ranges insert_idx else None in
  if match before with Some r => in_range pn r | None => false end then ranges
  else if match after with Some r => in_range pn r | None => false end then ranges
  else
    let '(merged_end, remove_from) := match before with
      | Some (start, stop) =>
          if packet_numbers_are_adjacent pn start then (stop, (insert_idx - 1)%nat)
          else (pn, insert_idx)
      | None => (pn, insert_idx)
      end in
    let '(merged_start, merged_end, remove_to) := match after with
      | Some (start, stop) =>
          if packet_numbers_are_adjacent stop pn then (start, Z.max merged_end stop, S insert_idx)
          else (pn, merged_end, insert_idx)
      | None => (pn, merged_end, insert_idx)
      end in
    let ranges := take remove_from ranges ++ [(merged_start, merged_end)] ++ drop remove_to ranges in
    take MAX_TRACKED_RECV_PN_RANGES ranges.

Inductive UdpEcnCodepoint := Ect0 | Ect1 | Ce.

#[export] Instance UdpEcnCodepoint_eq_dec : EqDecision UdpEcnCodepoint.
Proof. solve_decision. Defined.

Definition ecn_zero : EcnCounts := {| ect0 := 0; ect1 := 0; ce := 0 |}.

#[export] Instance EcnCounts_eq_dec : EqDecision EcnCounts.
Proof. solve_decision. Defined.

(** The fields of one packet number space. *)
Record AckState := {
  recv_pn_ranges : list (Z * Z);
  recv_ecn_counts : EcnCounts;
  largest_recv_pn : Z;
  largest_recv_pn_time : option Z;
  received_packets : bool;
  ack_needed : bool;
  ack_immediate : bool;
  ack_eliciting_packets_since_last_ack : Z;
  last_ack_eliciting_recv : option Z;
}.

Definition ack_state_new : AckState := {|
  recv_pn_ranges := []; recv_ecn_counts := ecn_zero; largest_recv_pn := 0;
  largest_recv_pn_time := None; received_packets := false; ack_needed := false;
  ack_immediate := false; ack_eliciting_packets_since_last_ack := 0;
  last_ack_eliciting_recv := None |}.

Definition record_recv_ecn (counts : EcnCounts) (e : option UdpEcnCodepoint) : EcnCounts :=
  match e with
  | None => counts
  | Some Ect0 => {| ect0 := saturating_add_u64 (ect0 counts) 1; ect1 := ect1 counts; ce := ce counts |}
  | Some Ect1 => {| ect0 := ect0 counts; ect1 := saturating_add_u64 (ect1 counts) 1; ce := ce counts |}
  | Some Ce => {| ect0 := ect0 counts; ect1 := ect1 counts; ce := saturating_add_u64 (ce counts) 1 |}
  end.

Definition should_ack_immediately_for_packet (had_previous_packets : bool) (previous_largest full_pn : Z)
    (range_count : nat) : bool :=
  bool_decide (1 < range_count)%nat
  || (had_previous_packets && (full_pn <? previous_largest))
  || (negb had_previous_packets && (0 <? full_pn))
  || (had_previous_packets && (previous_largest + 1 <? full_pn)).

(** The bookkeeping of [process_packet] for a packet that was opened. *)
Definition note_packet (s : AckState) (full_pn : Z) (e : option UdpEcnCodepoint)
    (has_ack_eliciting : bool) (recv_time : Z) : AckState :=
  let had_previous_packets := received_packets s in
  let previous_largest := largest_recv_pn s in
  let is_largest := negb had_previous_packets || (previous_largest <? full_pn) in
  let ranges := record_recv_pn (recv_pn_ranges s) full_pn in
  {| recv_pn_ranges := ranges;
     recv_ecn_counts := record_recv_ecn (recv_ecn_counts s) e;
     largest_recv_pn := if is_largest then full_pn else previous_largest;
     largest_recv_pn_time := if is_largest then Some recv_time else largest_recv_pn_time s;
     received_packets := true;
     ack_needed := ack_needed s || has_ack_eliciting;
     ack_immediate := ack_immediate s ||
       (has_ack_eliciting &&
        should_ack_immediately_for_packet had_previous_packets previous_largest full_pn (length ranges));
     ack_eliciting_packets_since_last_ack :=
       if has_ack_eliciting then Z.min U8_MAX (ack_eliciting_packets_since_last_ack s + 1)
       else ack_eliciting_packets_since_last_ack s;
     last_ack_eliciting_recv :=
       if has_ack_eliciting then Some recv_time else last_ack_eliciting_recv s |}.

Definition duration_since (now t : Z) : Z := Z.max 0 (now - t).
Definition as_micros (d : Z) : Z := d / 1000.

Definition ack_ecn_counts (s : AckState) : option EcnCounts :=
  if bool_decide (recv_ecn_counts s = ecn_zero) then None else Some (recv_ecn_counts s).

(** The turn of [generate_acks] for one space: [app] tells the application
    space from the handshake ones, [has_keys] whether it can be sent in. *)
Definition generate_ack (app has_keys : bool) (local_ack_delay_exponent local_max_ack_delay now : Z)
    (s : AckState) : option AckFrame * AckState :=
  if negb (ack_needed s) || bool_decide (recv_pn_ranges s = []) then (None, s)
  else if negb has_keys then (None, s)
  else
    let should_send :=
      if app then
        ack_immediate s || (2 <=? ack_eliciting_packets_since_last_ack s)
        || match last_ack_eliciting_recv s with
           | Some t => local_max_ack_delay <=? duration_since now t | None => false end
      else true in
    if negb should_send then (None, s)
    else
      match recv_pn_ranges s with
      | [] => (None, s)
      | (start, stop) :: rest =>
          let delay := match largest_recv_pn_time s with
            | Some t => Z.shiftr (as_micros (duration_since now t) mod 2 ^ 64) local_ack_delay_exponent
            | None => 0 end in
          (Some {| largest_acknowledged := stop; ack_delay := delay;
                   ranges := (λ r, {| range_start := r.1; range_end := r.2 |}) <$> recv_pn_ranges s;
                   ecn := ack_ecn_counts s |},
           {| recv_pn_ranges := recv_pn_ranges s; recv_ecn_counts := recv_ecn_counts s;
              largest_recv_pn := largest_recv_pn s; largest_recv_pn_time := largest_recv_pn_time s;
              received_packets := received_packets s; ack_needed := false; ack_immediate := false;
              ack_eliciting_packets_since_last_ack := 0;
              last_ack_eliciting_recv := last_ack_eliciting_recv s |})
      end.
