(* ===== verification/AckTrackingProps.v ===== *)
(** * Acknowledgements: what an ACK frame claims

    The ranges are the set of received packet numbers, cut off below the
    oldest of 32 ranges; the ACK frame built from them acknowledges only
    received packets, always the largest, and has a wire form. *)

From S2P Require Import Prelude QuicError Varint Frame FrameProps AckTracking.

Definition contains (l : list (Z * Z)) (n : Z) : Prop := ∃ r, r ∈ l ∧ r.1 ≤ n ≤ r.2.
(** [x] is above [y], with a packet number missing in between. *)
Definition above (x y : Z * Z) : Prop := y.2 + 1 < x.1.
Definition pn_ranges_ok (l : list (Z * Z)) : Prop :=
  StronglySorted above l ∧ Forall (λ r, 0 ≤ r.1 ≤ r.2 ∧ r.2 ≤ MAX_VARINT) l.

Lemma contains_cons r l n : contains (r :: l) n ↔ r.1 ≤ n ≤ r.2 ∨ contains l n.
Proof.
  unfold contains. setoid_rewrite elem_of_cons. split.
  - intros (x & [->|?] & ?); eauto.
  - intros [?|(x & ? & ?)]; eauto.
Qed.

Lemma contains_nil n : ¬ contains [] n.
Proof. intros (r & []%elem_of_nil & _). Qed.

Lemma contains_app l k n : contains (l ++ k) n ↔ contains l n ∨ contains k n.
Proof.
  induction l as [|r l IH]; cbn; [|rewrite !contains_cons, IH; tauto].
  split; [tauto|]. intros [[]%contains_nil|?]; done.
Qed.

(** The list splits at the insertion index. *)
Lemma position_split pn l : ∃ pre suf, l = pre ++ suf ∧ position_below pn l = length pre ∧
  Forall (λ r, pn ≤ r.2) pre ∧ (suf = [] ∨ ∃ r suf', suf = r :: suf' ∧ r.2 < pn).
Proof.
  induction l as [|[a b] l (pre & suf & -> & Hp & Hpre & Hsuf)]; cbn.
  { exists [], []. split_and!; [done|done|constructor|by left]. }
  dif.
  - exists [], ((a, b) :: pre ++ suf). split_and!; [done|done|constructor|].
    right. exists (a, b), (pre ++ suf). split; [done|]. cbn. lia.
  - exists ((a, b) :: pre), suf. split_and!; [done|cbn; by rewrite Hp| |done].
    constructor; [cbn; lia|done].
Qed.

Lemma adjacent_iff a b : a ≤ MAX_VARINT → packet_numbers_are_adjacent a b = bool_decide (b = a + 1).
Proof.
  intros Ha. unfold packet_numbers_are_adjacent, checked_add_u64, MAX_VARINT in *.
  rewrite (proj2 (Z.leb_le _ _)) by (unfold_ints; lia).
  destruct (Z.eqb_spec (a + 1) b); symmetry; [apply bool_decide_eq_true|apply bool_decide_eq_false]; lia.
Qed.

Lemma ranges_ok_app P Q : pn_ranges_ok (P ++ Q) ↔
  pn_ranges_ok P ∧ pn_ranges_ok Q ∧ ∀ p q, p ∈ P → q ∈ Q → above p q.
Proof. unfold pn_ranges_ok. rewrite StronglySorted_app, Forall_app. tauto. Qed.

Lemma ranges_ok_singleton m : 0 ≤ m.1 ≤ m.2 → m.2 ≤ MAX_VARINT → pn_ranges_ok [m].
Proof. intros. split; [by repeat constructor|]. apply Forall_singleton. done. Qed.

(** Putting a range between two parts. *)
Lemma sandwich_ok P m Q : pn_ranges_ok P → pn_ranges_ok Q → (∀ p q, p ∈ P → q ∈ Q → above p q) →
  0 ≤ m.1 ≤ m.2 → m.2 ≤ MAX_VARINT → (∀ p, p ∈ P → above p m) → (∀ q, q ∈ Q → above m q) →
  pn_ranges_ok (P ++ [m] ++ Q).
Proof.
  intros HP HQ HPQ Hm Hm' HPm HmQ. rewrite !ranges_ok_app.
  split_and!; [done|by apply ranges_ok_singleton|done| |].
  - by intros p q ->%list_elem_of_singleton ?; apply HmQ.
  - intros p q Hp [->%list_elem_of_singleton|Hq]%elem_of_app; auto.
Qed.

Lemma sandwich_contains P m Q n :
  contains (P ++ [m] ++ Q) n ↔ contains P n ∨ m.1 ≤ n ≤ m.2 ∨ contains Q n.
Proof. rewrite !contains_app, contains_cons. pose proof (contains_nil n). tauto. Qed.

Lemma before_eq pre suf :
  (if decide (0 < length pre)%nat then range_at (pre ++ suf) (length pre - 1) else None) = last pre.
Proof.
  destruct pre as [|x pre _] using rev_ind; [done|]. rewrite last_snoc, length_app. cbn.
  rewrite decide_True by lia. unfold range_at. rewrite <- app_assoc, lookup_app_r by lia. cbn.
  by replace (length pre + 1 - 1 - length pre)%nat with 0%nat by lia.
Qed.

Lemma after_eq (pre suf : list (Z * Z)) :
  (if decide (length pre < length (pre ++ suf))%nat then range_at (pre ++ suf) (length pre) else None)
  = head suf.
Proof.
  rewrite length_app. unfold range_at. rewrite lookup_app_r, Nat.sub_diag by lia.
  destruct suf; cbn; [by rewrite decide_False by lia|by rewrite decide_True by lia].
Qed.

(** The merged range: [P] and [Q] are what is kept above and below it. *)
Lemma record_split pre suf pn :
  0 ≤ pn ≤ MAX_VARINT → position_below pn (pre ++ suf) = length pre →
  pn_ranges_ok (pre ++ suf) → (∀ q, q ∈ suf → q.2 < pn) → (∀ p, p ∈ pre → pn ≤ p.2) →
  (contains (pre ++ suf) pn ∧ record_recv_pn (pre ++ suf) pn = pre ++ suf) ∨
  ∃ P m Q, record_recv_pn (pre ++ suf) pn = take MAX_TRACKED_RECV_PN_RANGES (P ++ [m] ++ Q) ∧
    (pre = P ∧ m.2 = pn ∧ (∀ a, last P = Some a → pn + 1 < a.1) ∨
     ∃ a, pre = P ++ [a] ∧ a.1 = pn + 1 ∧ m.2 = a.2) ∧
    (suf = Q ∧ m.1 = pn ∧ (∀ c, head Q = Some c → c.2 + 1 < pn) ∨
     ∃ c, suf = c :: Q ∧ c.2 + 1 = pn ∧ m.1 = c.1).
Proof.
  intros Hpn Hpos (_ & [_ Hoks] & _)%ranges_ok_app Hlow Hhigh. rewrite Forall_forall in Hoks.
  unfold record_recv_pn. rewrite Hpos, before_eq, after_eq. cbn zeta.
  assert ((match head suf with Some r => in_range pn r | None => false end) = false) as Haf.
  { destruct suf as [|c suf]; [done|]. cbn. specialize (Hlow c ltac:(left)). unfold in_range. lia. }
  rewrite Haf.
  destruct (match last pre with Some r => in_range pn r | None => false end) eqn:Hbf.
  { left. split; [|done]. destruct (last pre) as [a|] eqn:Ea; [|done]. exists a.
    split; [|unfold in_range in Hbf; lia]. apply elem_of_app. left.
    apply last_Some in Ea as [pre' ->]. apply elem_of_app. right. by apply list_elem_of_singleton. }
  right.
  assert (∃ me rf P, (match last pre with
      | Some (start, stop) => if packet_numbers_are_adjacent pn start then (stop, (length pre - 1)%nat)
                              else (pn, length pre)
      | None => (pn, length pre) end) = (me, rf) ∧ take rf (pre ++ suf) = P ∧ pn ≤ me ∧
      (pre = P ∧ me = pn ∧ (∀ a, last P = Some a → pn + 1 < a.1) ∨
       ∃ a, pre = P ++ [a] ∧ a.1 = pn + 1 ∧ me = a.2)) as (me & rf & P & -> & HP & Hme & HcP).
  { destruct pre as [|[a b] pre _] using rev_ind; [exists pn, 0%nat, []; split_and!; [done|done|lia|by left]|].
    rewrite last_snoc in *. unfold in_range in Hbf. cbn in Hbf.
    specialize (Hhigh (a, b) ltac:(apply elem_of_app; right; by apply list_elem_of_singleton)). cbn in Hhigh.
    rewrite adjacent_iff by lia. rewrite length_app. cbn. destruct (bool_decide (a = pn + 1)) eqn:Ead.
    - apply bool_decide_eq_true in Ead. exists b, (length pre + 1 - 1)%nat, pre. split_and!; [done| |lia|].
      + rewrite <- app_assoc. replace (length pre + 1 - 1)%nat with (length pre) by lia.
        by rewrite take_app_length.
      + right. exists (a, b). done.
    - apply bool_decide_eq_false in Ead. exists pn, (length pre + 1)%nat, (pre ++ [(a, b)]).
      split_and!; [done| |lia|].
      + replace (length pre + 1)%nat with (length (pre ++ [(a, b)])) by (rewrite length_app; done).
        by rewrite take_app_length.
      + left. split_and!; [done|done|]. intros r. rewrite last_snoc. intros [= <-]. cbn. lia. }
  destruct suf as [|[c d] suf]; cbn [head].
  - eexists P, (pn, me), []. rewrite HP. split_and!.
    + by rewrite app_nil_r, drop_all.
    + exact HcP.
    + by left.
  - specialize (Hlow (c, d) ltac:(left)). specialize (Hoks (c, d) ltac:(left)). cbn in Hlow, Hoks.
    rewrite adjacent_iff by lia. destruct (bool_decide (pn = d + 1)) eqn:Ead.
    + apply bool_decide_eq_true in Ead. eexists P, (c, me), suf. rewrite HP. split_and!.
      * rewrite Z.max_l by lia. by rewrite drop_app_ge, Nat.sub_succ_l, Nat.sub_diag by lia.
      * exact HcP.
      * right. exists (c, d). done.
    + apply bool_decide_eq_false in Ead. eexists P, (pn, me), ((c, d) :: suf). rewrite HP. split_and!.
      * by rewrite drop_app_length.
      * exact HcP.
      * left. split_and!; [done|done|]. intros r [= <-]. cbn. lia.
Qed.

(** Everything in a sorted list is below its head and above its last. *)
Lemma ranges_ok_last P a : pn_ranges_ok (P ++ [a]) → ∀ p, p ∈ P → above p a.
Proof. intros (_ & _ & H)%ranges_ok_app p Hp. apply H; [done|by apply list_elem_of_singleton]. Qed.

Lemma above_all_above P lo : pn_ranges_ok P → (∀ a, last P = Some a → lo < a.1) →
  ∀ p, p ∈ P → lo < p.1.
Proof.
  intros Hok Hl p Hp. destruct P as [|a P _] using rev_ind; [by apply elem_of_nil in Hp|].
  specialize (Hl a (last_snoc _ _)).
  apply elem_of_app in Hp as [Hp|Hp%list_elem_of_singleton]; [|by subst].
  pose proof (ranges_ok_last _ _ Hok p Hp) as H. apply ranges_ok_app in Hok as (_ & [_ Ha] & _).
  rewrite Forall_singleton in Ha. cbn beta in Ha. unfold above in H. lia.
Qed.

Lemma below_all_below Q hi : pn_ranges_ok Q → (∀ c, head Q = Some c → c.2 < hi) →
  ∀ q, q ∈ Q → q.2 < hi.
Proof.
  intros [Hs Hf] Hh q Hq. destruct Q as [|c Q]; [by apply elem_of_nil in Hq|].
  specialize (Hh c eq_refl). apply elem_of_cons in Hq as [->|Hq]; [done|].
  inversion Hs as [|?? _ Hall]; subst. rewrite Forall_forall in Hall, Hf.
  specialize (Hall q Hq). pose proof (Hf c ltac:(left)) as Hc. cbn beta in Hc. unfold above in Hall. lia.
Qed.

(** Recording a packet number adds exactly it, before the cut at 32 ranges. *)
Lemma record_exact l pn : pn_ranges_ok l → 0 ≤ pn ≤ MAX_VARINT →
  ∃ full, pn_ranges_ok full ∧ (∀ n, contains full n ↔ contains l n ∨ n = pn) ∧
    (record_recv_pn l pn = take MAX_TRACKED_RECV_PN_RANGES full ∨ record_recv_pn l pn = full).
Proof.
  intros Hok Hpn. destruct (position_split pn l) as (pre & suf & -> & Hpos & Hpre & Hsuf).
  rewrite Forall_forall in Hpre. pose proof Hok as (Hokp & Hoks & Hps)%ranges_ok_app.
  assert (∀ q, q ∈ suf → q.2 < pn) as Hlow.
  { apply below_all_below; [done|]. intros c Hc. destruct Hsuf as [->|(r & suf' & -> & ?)]; [done|].
    by injection Hc as <-. }
  destruct (record_split pre suf pn) as [[Hin E]|(P & m & Q & E & HP & HQ)]; try done.
  { exists (pre ++ suf). split_and!; [done| |by right]. intros n. split; [tauto|].
    intros [?| ->]; done. }
  exists (P ++ [m] ++ Q). split_and!; [|..|by left].
  - assert (pn_ranges_ok P ∧ (∀ p, p ∈ P → m.2 + 1 < p.1) ∧ pn ≤ m.2 ≤ MAX_VARINT ∧ (∀ p, p ∈ P → p ∈ pre))
      as (HokP & HabP & Hm2 & HsubP).
    { destruct HP as [(-> & -> & Hl)|(a & -> & Ha & ->)].
      - split_and!; try done; try lia. by apply above_all_above.
      - pose proof Hokp as (HokP & [_ Haok] & _)%ranges_ok_app. rewrite Forall_singleton in Haok. cbn beta in Haok.
        split_and!; try done; try lia.
        + intros p Hp. by apply (ranges_ok_last _ _ Hokp).
        + intros p Hp. apply elem_of_app. by left. }
    assert (pn_ranges_ok Q ∧ (∀ q, q ∈ Q → q.2 + 1 < m.1) ∧ 0 ≤ m.1 ≤ pn ∧ (∀ q, q ∈ Q → q ∈ suf))
      as (HokQ & HabQ & Hm1 & HsubQ).
    { destruct HQ as [(-> & -> & Hh)|(c & -> & Hc & ->)].
      - split_and!; try done; try lia. intros q Hq.
        assert (q.2 < pn - 1); [|lia]. apply (below_all_below Q); [done| |done].
        intros c Hc. specialize (Hh c Hc). lia.
      - destruct Hoks as [Hs Hf]. inversion Hs as [|?? Hs' Hall]; subst.
        apply Forall_cons in Hf as [Hc' Hf]. cbn beta in Hc'. rewrite Forall_forall in Hall.
        split_and!; try done; try lia. intros q Hq. by right. }
    apply sandwich_ok; try done; try lia; auto.
  - assert (∀ r, r ∈ pre ++ suf → r.1 ≤ r.2) as Hb.
    { destruct Hok as [_ Hf]. rewrite Forall_forall in Hf. intros r Hr. apply (Hf r Hr). }
    intros n. rewrite sandwich_contains, contains_app. pose proof (contains_nil n).
    destruct HP as [(-> & -> & _)|(a & -> & Ha & ->)]; destruct HQ as [(-> & -> & _)|(c & -> & Hc & ->)];
      rewrite ?contains_app, ?contains_cons;
      try (assert (a.1 ≤ a.2) by (apply Hb; rewrite !elem_of_app; auto using list_elem_of_here));
      try (assert (c.1 ≤ c.2) by (apply Hb; rewrite !elem_of_app; auto using list_elem_of_here)).
    + assert (pn ≤ n ≤ pn ↔ n = pn) by lia. tauto.
    + assert (c.1 ≤ n ≤ pn ↔ n = pn ∨ c.1 ≤ n ≤ c.2) by lia. tauto.
    + assert (pn ≤ n ≤ a.2 ↔ n = pn ∨ a.1 ≤ n ≤ a.2) by lia. tauto.
    + assert (c.1 ≤ n ≤ a.2 ↔ n = pn ∨ a.1 ≤ n ≤ a.2 ∨ c.1 ≤ n ≤ c.2) by lia. tauto.
Qed.

(** ** A run of packets *)

(** A packet: number, ECN mark, whether it elicits an acknowledgement, time. *)
Definition packet_seen : Type := Z * option UdpEcnCodepoint * bool * Z.
Definition seen_pn (p : packet_seen) : Z := p.1.1.1.

Definition note_all (s : AckState) (pkts : list packet_seen) : AckState :=
  foldl (λ s '(pn, e, el, t), note_packet s pn e el t) s pkts.

Record ack_inv (pns : list Z) (s : AckState) : Prop := {
  ai_ranges : pn_ranges_ok (recv_pn_ranges s);
  ai_count : (length (recv_pn_ranges s) ≤ MAX_TRACKED_RECV_PN_RANGES)%nat;
  ai_sound n : contains (recv_pn_ranges s) n → n ∈ pns;
  ai_largest : match recv_pn_ranges s with
               | [] => pns = [] | r :: _ => r.2 ∈ pns ∧ ∀ n, n ∈ pns → n ≤ r.2 end;
  ai_ecn : 0 ≤ ect0 (recv_ecn_counts s) ≤ len pns ∧ 0 ≤ ect1 (recv_ecn_counts s) ≤ len pns ∧
           0 ≤ ce (recv_ecn_counts s) ≤ len pns;
}.

Lemma ack_inv_new : ack_inv [] ack_state_new.
Proof.
  split; cbn; try done.
  - split; constructor.
  - lia.
  - intros n []%contains_nil.
Qed.

Lemma take_ranges_ok k l : pn_ranges_ok l → pn_ranges_ok (take k l).
Proof. intros H. rewrite <- (take_drop k l) in H. by apply ranges_ok_app in H as [? _]. Qed.

Lemma contains_take k l n : contains (take k l) n → contains l n.
Proof. intros H. rewrite <- (take_drop k l). apply contains_app. by left. Qed.

(** The first range of a list holds the greatest number of its set. *)
Lemma head_is_max r l n : pn_ranges_ok (r :: l) → contains (r :: l) n → n ≤ r.2.
Proof.
  intros [Hs Hf] [?|(q & Hq & ?)]%contains_cons; [lia|]. inversion Hs as [|?? _ Hall]; subst.
  rewrite Forall_forall in Hall, Hf. specialize (Hall q Hq). unfold above in Hall.
  pose proof (Hf r ltac:(left)) as Hr. cbn in Hr. lia.
Qed.

(** The list after a packet: its head does not depend on the cut. *)
Lemma record_head l pn : pn_ranges_ok l → (length l ≤ MAX_TRACKED_RECV_PN_RANGES)%nat →
  0 ≤ pn ≤ MAX_VARINT →
  let out := record_recv_pn l pn in
  pn_ranges_ok out ∧ (length out ≤ MAX_TRACKED_RECV_PN_RANGES)%nat ∧
  (∀ n, contains out n → contains l n ∨ n = pn) ∧
  ∃ r rest, out = r :: rest ∧ (contains l r.2 ∨ r.2 = pn) ∧ pn ≤ r.2 ∧
    ∀ n, contains l n → n ≤ r.2.
Proof.
  intros Hok Hlen Hpn out. destruct (record_exact l pn Hok Hpn) as (full & Hfull & Hin & Hout).
  assert (pn_ranges_ok out ∧ (length out ≤ MAX_TRACKED_RECV_PN_RANGES)%nat) as [Hok' Hlen'].
  { assert (out = l ∨ out = take MAX_TRACKED_RECV_PN_RANGES (out)) as Hcut.
    { unfold out, record_recv_pn. repeat (case_match; [left; reflexivity|]).
      cbn zeta. repeat case_match; try (left; reflexivity); right;
        by rewrite take_take, Nat.min_id. }
    assert (pn_ranges_ok out) by (unfold out; destruct Hout as [-> | ->]; [by apply take_ranges_ok|done]).
    split; [done|]. destruct Hcut as [-> | ->]; [done|]. rewrite length_take. lia. }
  assert (∃ r rest, out = r :: rest ∧ ∃ rest', full = r :: rest') as (r & rest & Er & rest' & Efull).
  { destruct full as [|r rest'].
    - destruct (contains_nil pn). apply Hin. by right.
    - unfold out. destruct Hout as [-> | ->]; cbn; eauto. }
  split_and!; try done.
  - intros n Hn. apply Hin. unfold out in Hn. destruct Hout as [E|E]; rewrite E in Hn; [|done].
    by apply contains_take in Hn.
  - exists r, rest. rewrite Efull in Hin, Hfull. split_and!; [done|..].
    + apply Hin, contains_cons. left. destruct Hfull as [_ [Hr _]%Forall_cons]. lia.
    + apply (head_is_max r rest'); [done|]. apply Hin. by right.
    + intros n Hn. apply (head_is_max r rest'); [done|]. apply Hin. by left.
Qed.

Lemma note_packet_inv pns s pn e el t : ack_inv pns s → 0 ≤ pn ≤ MAX_VARINT →
  ack_inv (pn :: pns) (note_packet s pn e el t).
Proof.
  intros [Hok Hlen Hsound Hlarge Hecn] Hpn.
  destruct (record_head (recv_pn_ranges s) pn Hok Hlen Hpn) as (Hok' & Hlen' & Hin & r & rest & Er & Hr1 & Hr2 & Hr3).
  split; cbn; try done.
  - intros n [?| ->]%Hin; [right; by apply Hsound|left].
  - rewrite Er. split.
    + destruct Hr1 as [Hc| ->]; [right; by apply Hsound|left].
    + intros n [->|Hn]%elem_of_cons; [done|]. destruct (recv_pn_ranges s) as [|r0 l].
      * by rewrite Hlarge in Hn; apply elem_of_nil in Hn.
      * destruct Hlarge as [_ Hmax]. specialize (Hmax n Hn).
        assert (r0.2 ≤ r.2); [|lia]. apply Hr3, contains_cons. left.
        destruct Hok as [_ [H0 _]%Forall_cons]. lia.
  - rewrite len_cons. unfold record_recv_ecn, saturating_add_u64.
    destruct e as [[]|]; cbn; unfold_ints; lia.
Qed.

Lemma note_all_inv pkts : ∀ pns s, ack_inv pns s →
  Forall (λ p, 0 ≤ seen_pn p ≤ MAX_VARINT) pkts →
  ack_inv (rev (seen_pn <$> pkts) ++ pns) (note_all s pkts).
Proof.
  induction pkts as [|[[[pn e] el] t] pkts IH]; intros pns s Hs Hp; [done|].
  apply Forall_cons in Hp as [Hpn Hp]. cbn. rewrite <- app_assoc. cbn.
  apply (IH (pn :: pns)); [|done]. by apply note_packet_inv.
Qed.

Lemma ranges_below_of l : ∀ s, pn_ranges_ok l → (∀ q, q ∈ l → q.2 + 1 < s) →
  ranges_below s ((λ r, {| range_start := r.1; range_end := r.2 |}) <$> l).
Proof.
  induction l as [|r l IH]; intros s [Hs Hf] Hb; cbn; [done|].
  inversion Hs as [|?? Hs' Hall]; subst. apply Forall_cons in Hf as [Hr Hf]. cbn beta in Hr.
  specialize (Hb r ltac:(left)) as Hr'. rewrite Forall_forall in Hall.
  split_and!; try lia. apply IH; [by split|]. intros q Hq. apply (Hall q Hq).
Qed.

Lemma generate_ack_some app has_keys exponent max_delay now s ack s' :
  generate_ack app has_keys exponent max_delay now s = (Some ack, s') →
  ∃ r rest, recv_pn_ranges s = r :: rest ∧ largest_acknowledged ack = r.2 ∧
    ranges ack = (λ r, {| range_start := r.1; range_end := r.2 |}) <$> recv_pn_ranges s ∧
    ecn ack = ack_ecn_counts s ∧
    ∃ d, ack_delay ack = Z.shiftr (d mod 2 ^ 64) exponent ∨ ack_delay ack = 0.
Proof.
  unfold generate_ack. repeat (dif; [done|]).
  destruct (recv_pn_ranges s) as [|[a b] rest] eqn:E; [done|].
  intros [= <- <-]. exists (a, b), rest. cbn [largest_acknowledged ranges ecn ack_delay].
  split_and!; try done. destruct (largest_recv_pn_time s) as [t|]; [exists (as_micros (duration_since now t)); by left|].
  exists 0. by right.
Qed.

(** C20: after any packets, in any order and with duplicates, an ACK frame that
    is generated has a wire form, acknowledges only packets that were
    received, and its largest acknowledged number is the greatest received. *)
Theorem ack_frame_faithful (pkts : list packet_seen) (app has_keys : bool) (max_delay now : Z)
    (ack : AckFrame) (s' : AckState)
    (Hpns : Forall (λ p, 0 ≤ seen_pn p ≤ MAX_VARINT) pkts) (Hlen : len pkts ≤ MAX_VARINT)
    (Hgen : generate_ack app has_keys 3 max_delay now (note_all ack_state_new pkts) = (Some ack, s')) :
  ack_wf ack ∧
  (∀ r n, r ∈ ranges ack → range_start r ≤ n ≤ range_end r → n ∈ seen_pn <$> pkts) ∧
  largest_acknowledged ack ∈ seen_pn <$> pkts ∧
  (∀ n, n ∈ seen_pn <$> pkts → n ≤ largest_acknowledged ack).
Proof.
  pose proof (note_all_inv pkts [] ack_state_new ack_inv_new Hpns) as [Hok Hcnt Hsound Hlarge Hecn].
  rewrite app_nil_r in *. set (s := note_all ack_state_new pkts) in *. clearbody s.
  assert (∀ n, n ∈ rev (seen_pn <$> pkts) ↔ n ∈ seen_pn <$> pkts) as Hrev.
  { intros n. by rewrite !list_elem_of_In, <- in_rev. }
  assert (len (rev (seen_pn <$> pkts)) = len pkts) as Hlr.
  { unfold len. by rewrite length_rev, length_fmap. }
  apply generate_ack_some in Hgen as (r & rest & Er & Hl & Hr & He & d & Hd).
  rewrite Er in *. destruct Hlarge as [Hin Hmax]. rewrite Hrev in Hin. setoid_rewrite Hrev in Hmax.
  pose proof Hok as [Hs Hf]. apply Forall_cons in Hf as [Hr0 Hf]. cbn beta in Hr0.
  inversion Hs as [|?? Hs' Hall]; subst. rewrite Forall_forall in Hall.
  split_and!.
  - unfold ack_wf. rewrite Hl, Hr, He. cbn. split_and!; try done; try (unfold varint_ok; lia).
    + unfold varint_ok, MAX_VARINT. destruct Hd as [-> | ->]; [|lia].
      rewrite shiftr_div by lia. pose proof (Z.mod_pos_bound d (2 ^ 64)). dlia.
    + apply ranges_below_of; [by split|]. intros q Hq. apply (Hall q Hq).
    + unfold ack_ecn_counts. dif; [done|]. unfold ecn_wf, varint_ok. lia.
  - intros r' n Hr' Hn. apply Hrev, Hsound. rewrite Hr in Hr'.
    apply list_elem_of_fmap in Hr' as (q & -> & Hq). exists q. done.
  - by rewrite Hl.
  - intros n Hn. rewrite Hl. by apply Hmax.
Qed.

Definition sample_packets : list packet_seen :=
  [(3, None, true, 0); (0, Some Ect0, true, 5); (1, None, true, 7); (3, None, true, 9)].

Lemma ack_frame_faithful_witness :
  ∃ ack s', generate_ack true true 3 25000 100 (note_all ack_state_new sample_packets) = (Some ack, s') ∧
    ranges ack = [{| range_start := 3; range_end := 3 |}; {| range_start := 0; range_end := 1 |}] ∧
    ack_wf ack ∧ largest_acknowledged ack ∈ seen_pn <$> sample_packets.
Proof.
  eexists _, _. split; [vm_compute; reflexivity|]. split; [reflexivity|].
  destruct (ack_frame_faithful sample_packets true true 25000 100
    (default {| largest_acknowledged := 0; ack_delay := 0; ranges := []; ecn := None |}
       (generate_ack true true 3 25000 100 (note_all ack_state_new sample_packets)).1)
    (generate_ack true true 3 25000 100 (note_all ack_state_new sample_packets)).2)
    as (Hwf & _ & Hin & _).
  - repeat constructor; vm_compute; congruence.
  - vm_compute. congruence.
  - vm_compute. reflexivity.
  - split; [exact Hwf|exact Hin].
Defined.
