(* ===== verification/ConnIds.v ===== *)
(** * Connection identifiers (starfish-quic/src/transport/connection_id.rs, RFC 9000 section 5.1)

    The identifiers this endpoint has issued and those the peer has issued to
    it.  The random bytes [issue_new_cid] draws are arguments: [fill n] and [token]. *)

From S2P Require Import Prelude QuicError Varint Frame Packet StreamIo.

Record IssuedConnectionId := {
  sequence_number : Z;
  cid : ConnectionId;
  stateless_reset_token : option bytes;
  retired : bool;
  advertised_to_peer : bool;
}.

Record ConnectionIdManager := {
  issued : list IssuedConnectionId;
  peer : list IssuedConnectionId;
  active_peer_cid_index : nat;
  next_sequence : Z;
  m_cid_len : Z;
  max_peer_retire_prior_to : Z;
}.

Definition with_retired (e : IssuedConnectionId) (b : bool) : IssuedConnectionId :=
  {| sequence_number := sequence_number e; cid := cid e;
     stateless_reset_token := stateless_reset_token e; retired := b;
     advertised_to_peer := advertised_to_peer e |}.

Definition with_issued (m : ConnectionIdManager) (l : list IssuedConnectionId) (next : Z)
    : ConnectionIdManager :=
  {| issued := l; peer := peer m; active_peer_cid_index := active_peer_cid_index m;
     next_sequence := next; m_cid_len := m_cid_len m;
     max_peer_retire_prior_to := max_peer_retire_prior_to m |}.

Definition with_peer (m : ConnectionIdManager) (l : list IssuedConnectionId) (i : nat) (r : Z)
    : ConnectionIdManager :=
  {| issued := issued m; peer := l; active_peer_cid_index := i;
     next_sequence := next_sequence m; m_cid_len := m_cid_len m;
     max_peer_retire_prior_to := r |}.

(** [iter().position(p)]. *)
Fixpoint position {A} (p : A → bool) (l : list A) : option nat :=
  match l with
  | [] => None
  | x :: rest => if p x then Some 0%nat else S <$> position p rest
  end.

Definition prune_retired_local_cids (m : ConnectionIdManager) : ConnectionIdManager :=
  with_issued m (filter (λ e, retired e = false) (issued m)) (next_sequence m).

Definition retire_peer_cids_below (m : ConnectionIdManager) (retire_prior_to : Z)
    : ConnectionIdManager :=
  with_peer m
    ((λ e, if sequence_number e <? retire_prior_to then with_retired e true else e) <$> peer m)
    (active_peer_cid_index m) (max_peer_retire_prior_to m).

Definition active_peer (m : ConnectionIdManager) : qres IssuedConnectionId :=
  match peer m !! active_peer_cid_index m with Some e => Ok e | None => Panic end.

Definition rotate_away_from_retired_active_peer_cid (m : ConnectionIdManager)
    : qres ConnectionIdManager :=
  e ← active_peer m;
  if retired e then
    match position (λ e, negb (retired e)) (peer m) with
    | Some new_index => Ok (with_peer m (peer m) new_index (max_peer_retire_prior_to m))
    | None => Ok m
    end
  else Ok m.

Definition cid_manager_new (initial_local_cid initial_peer_cid : ConnectionId) : ConnectionIdManager :=
  let entry c := {| sequence_number := 0; cid := c; stateless_reset_token := None;
                    retired := false; advertised_to_peer := true |} in
  {| issued := [entry initial_local_cid]; peer := [entry initial_peer_cid];
     active_peer_cid_index := 0; next_sequence := 1;
     m_cid_len := as_u8 (len (as_slice initial_local_cid)); max_peer_retire_prior_to := 0 |}.

Definition issue_new_cid (fill : Z → bytes) (token : bytes)
    : stM ConnectionIdManager QuicError IssuedConnectionId :=
  m ← gets (λ m, m);
  let entry := {| sequence_number := next_sequence m; cid := generate fill (m_cid_len m);
                  stateless_reset_token := Some token; retired := false;
                  advertised_to_peer := false |} in
  next ← lift (add_u64 (next_sequence m) 1);
  _ ← modify (λ m, with_issued m (issued m ++ [entry]) next);
  mret entry.

Definition add_peer_cid (seq : Z) (new_cid : ConnectionId) (token : bytes) (retire_prior_to : Z)
    : stM ConnectionIdManager QuicError unit :=
  m ← gets (λ m, m);
  let retire_prior_to := Z.max (max_peer_retire_prior_to m) retire_prior_to in
  _ ← modify (λ m, retire_peer_cids_below
        (with_peer m (peer m) (active_peer_cid_index m) retire_prior_to) retire_prior_to);
  m ← gets (λ m, m);
  match position (λ e, sequence_number e =? seq) (peer m) with
  | Some existing_index =>
      existing ← lift (match peer m !! existing_index with Some e => Ok e | None => Panic end);
      if negb (bool_decide (cid existing = new_cid))
         || negb (bool_decide (stateless_reset_token existing = Some token)) then
        fail (Transport ProtocolViolation
          (Msg "NEW_CONNECTION_ID sequence {sequence_number} conflicts with existing CID" [seq]))
      else
        _ ← (if seq <? retire_prior_to then
               modify (λ m, with_peer m (alter (λ e, with_retired e true) existing_index (peer m))
                 (active_peer_cid_index m) (max_peer_retire_prior_to m))
             else mret tt);
        m ← gets (λ m, m);
        m' ← lift (rotate_away_from_retired_active_peer_cid m);
        modify (λ _, m')
  | None =>
      let m := with_peer m
        (peer m ++ [{| sequence_number := seq; cid := new_cid; stateless_reset_token := Some token;
                       retired := seq <? retire_prior_to; advertised_to_peer := true |}])
        (active_peer_cid_index m) (max_peer_retire_prior_to m) in
      _ ← modify (λ _, m);
      m' ← lift (rotate_away_from_retired_active_peer_cid m);
      modify (λ _, m')
  end.

Definition retire_local_cid (seq : Z) (fill : Z → bytes) (token : bytes)
    : stM ConnectionIdManager QuicError unit :=
  _ ← modify (λ m, with_issued m
        ((λ e, if sequence_number e =? seq then with_retired e true else e) <$> issued m)
        (next_sequence m));
  _ ← modify prune_retired_local_cids;
  m ← gets (λ m, m);
  if bool_decide (issued m = []) then _ ← issue_new_cid fill token; mret tt else mret tt.

Definition active_peer_cid (m : ConnectionIdManager) : qres ConnectionId :=
  e ← active_peer m; Ok (cid e).

(** [max_by_key] keeps the last of equal keys. *)
Definition better (best : option (nat * Z)) (c : nat * Z) : option (nat * Z) :=
  match best with
  | Some b => if c.2 <? b.2 then Some b else Some c
  | None => Some c
  end.

Definition rotate_active_peer_cid (m : ConnectionIdManager) : bool * ConnectionIdManager :=
  let candidates := omap (λ '(i, e),
      if negb (bool_decide (i = active_peer_cid_index m)) && negb (retired e)
      then Some (i, sequence_number e) else None) (imap (λ i e, (i, e)) (peer m)) in
  match foldl better None candidates with
  | Some (new_index, _) => (true, with_peer m (peer m) new_index (max_peer_retire_prior_to m))
  | None => (false, m)
  end.

Definition primary_local_cid (m : ConnectionIdManager) : qres ConnectionId :=
  match position (λ e, negb (retired e)) (issued m) with
  | Some i => match issued m !! i with Some e => Ok (cid e) | None => Panic end
  | None => match issued m !! 0%nat with Some e => Ok (cid e) | None => Panic end
  end.

(** Assigning to a field of the active entry, [self.peer[i].f = v]. *)
Definition update_active (f : IssuedConnectionId → IssuedConnectionId) (m : ConnectionIdManager)
    : qres ConnectionIdManager :=
  _ ← active_peer m;
  Ok (with_peer m (alter f (active_peer_cid_index m) (peer m)) (active_peer_cid_index m)
        (max_peer_retire_prior_to m)).

Definition set_peer_cid (m : ConnectionIdManager) (c : ConnectionId) : qres ConnectionIdManager :=
  update_active (λ e, {| sequence_number := sequence_number e; cid := c;
    stateless_reset_token := stateless_reset_token e; retired := retired e;
    advertised_to_peer := advertised_to_peer e |}) m.

Definition set_active_peer_stateless_reset_token (m : ConnectionIdManager) (token : bytes)
    : qres ConnectionIdManager :=
  update_active (λ e, {| sequence_number := sequence_number e; cid := cid e;
    stateless_reset_token := Some token; retired := retired e;
    advertised_to_peer := advertised_to_peer e |}) m.

Definition set_primary_local_stateless_reset_token (m : ConnectionIdManager) (token : bytes)
    : qres ConnectionIdManager :=
  match issued m with
  | [] => Panic
  | e :: rest =>
      Ok (with_issued m ({| sequence_number := sequence_number e; cid := cid e;
            stateless_reset_token := Some token; retired := retired e;
            advertised_to_peer := advertised_to_peer e |} :: rest) (next_sequence m))
  end.

Definition is_peer_stateless_reset_token (m : ConnectionIdManager) (token : bytes) : bool :=
  existsb (λ e, bool_decide (stateless_reset_token e = Some token)) (peer m).

Definition local_cids (m : ConnectionIdManager) : list IssuedConnectionId :=
  filter (λ e, retired e = false) (issued m).

Definition active_local_cid_count (m : ConnectionIdManager) : nat := length (local_cids m).

Definition local_retire_prior_to (m : ConnectionIdManager) : Z :=
  match sequence_number <$> local_cids m with
  | [] => 0
  | x :: rest => foldl Z.min x rest
  end.

Definition unadvertised (e : IssuedConnectionId) : bool := negb (retired e) && negb (advertised_to_peer e).

Definition mark_advertised (e : IssuedConnectionId) : IssuedConnectionId :=
  if unadvertised e then
    {| sequence_number := sequence_number e; cid := cid e;
       stateless_reset_token := stateless_reset_token e; retired := retired e;
       advertised_to_peer := true |}
  else e.

Definition take_unadvertised_local_cids (m : ConnectionIdManager)
    : list IssuedConnectionId * ConnectionIdManager :=
  let pending := mark_advertised <$> filter (λ e, unadvertised e = true) (issued m) in
  (pending, prune_retired_local_cids
              (with_issued m (mark_advertised <$> issued m) (next_sequence m))).

(** The loop over the drained list: numbers to retire, entries kept, and the
    index of the active entry among them. *)
Fixpoint split_retired (active_seq : Z) (l retained : list IssuedConnectionId) (retire : list Z)
    (new_active_index : nat) : list Z * list IssuedConnectionId * nat :=
  match l with
  | [] => (retire, retained, new_active_index)
  | e :: rest =>
      if retired e && negb (sequence_number e =? active_seq) then
        split_retired active_seq rest retained (retire ++ [sequence_number e]) new_active_index
      else
        split_retired active_seq rest (retained ++ [e]) retire
          (if sequence_number e =? active_seq then length retained else new_active_index)
  end.

Definition take_peer_cids_to_retire (m : ConnectionIdManager)
    : qres (list Z * ConnectionIdManager) :=
  e ← active_peer m;
  let '(retire, retained, i) := split_retired (sequence_number e) (peer m) [] [] 0 in
  Ok (retire, with_peer m retained i (max_peer_retire_prior_to m)).

(** The arm of [process_frame_from] for NEW_CONNECTION_ID. *)
Definition process_new_connection_id (seq retire_prior_to : Z) (connection_id token : bytes)
    : stM ConnectionIdManager QuicError unit :=
  if seq <? retire_prior_to then
    fail (Transport FrameEncodingError
      (Msg "NEW_CONNECTION_ID retire_prior_to {retire_prior_to} exceeds sequence {sequence_number}"
         [retire_prior_to; seq]))
  else if negb ((1 <=? len connection_id) && (len connection_id <=? MAX_CID_LEN)) then
    fail (Transport FrameEncodingError
      (Msg "NEW_CONNECTION_ID invalid connection ID length {}" [len connection_id]))
  else
    c ← lift (from_slice connection_id);
    add_peer_cid seq c token retire_prior_to.

(** [generate_connection_id_updates] with the frames it queues.  [target] is
    the smaller of the peer's limit and 2, so two turns of the loop are enough;
    [fills] and [tokens] are the random bytes of each turn. *)
Fixpoint issue_up_to (fuel : nat) (target : nat) (fills : nat → Z → bytes) (tokens : nat → bytes)
    : stM ConnectionIdManager QuicError unit :=
  n ← gets active_local_cid_count;
  if decide (n < target)%nat then
    match fuel with
    | O => lift Diverge
    | S fuel => _ ← issue_new_cid (fills fuel) (tokens fuel); issue_up_to fuel target fills tokens
    end
  else mret tt.

Definition new_cid_frames (retire_prior_to : Z) (l : list IssuedConnectionId) : list Frame :=
  omap (λ e, match stateless_reset_token e with
             | Some token => Some (NewConnectionId (sequence_number e)
                 (Z.min retire_prior_to (sequence_number e)) (as_slice (cid e)) token)
             | None => None end) l.

Definition generate_connection_id_updates (peer_transport_parameters_applied : bool)
    (state : ConnectionState) (peer_active_connection_id_limit : Z)
    (fills : nat → Z → bytes) (tokens : nat → bytes)
    : stM ConnectionIdManager QuicError (list Frame) :=
  m ← gets (λ m, m);
  if negb peer_transport_parameters_applied || negb (bool_decide (state = CConnected))
     || (m_cid_len m =? 0) then mret []
  else
    _ ← issue_up_to 2 (Z.to_nat (Z.min peer_active_connection_id_limit 2)) fills tokens;
    m ← gets (λ m, m);
    '(retire, m') ← lift (take_peer_cids_to_retire m);
    _ ← modify (λ _, m');
    let retire_prior_to := local_retire_prior_to m' in
    let '(pending, m'') := take_unadvertised_local_cids m' in
    _ ← modify (λ _, m'');
    mret ((RetireConnectionId <$> retire) ++ new_cid_frames retire_prior_to pending).
