(* ===== verification/ConnIdsProps.v ===== *)
(** * Connection identifiers: the manager never loses its identifiers

    The index of the active peer identifier stays in range, sequence numbers stay
    unique, and the endpoint always has an identifier of its own, whatever
    operations fail; and as long as none did, the active identifier is not a
    retired one while another is available. *)

From S2P Require Import Prelude QuicError Varint Frame Packet ConnIds.

Definition seqs (l : list IssuedConnectionId) : list Z := sequence_number <$> l.

(** [ok]: no operation has failed so far. *)
Record cid_inv (ok : bool) (m : ConnectionIdManager) : Prop := {
  ci_active : is_Some (peer m !! active_peer_cid_index m);
  ci_unique : NoDup (seqs (peer m));
  ci_retired e : e ∈ peer m → sequence_number e < max_peer_retire_prior_to m → retired e = true;
  ci_settled a : ok = true → peer m !! active_peer_cid_index m = Some a → retired a = true →
                 ∀ e, e ∈ peer m → retired e = true;
  ci_issued : issued m ≠ [] ∧ Forall (λ e, retired e = false) (issued m);
  ci_issued_unique : NoDup (seqs (issued m));
  ci_next e : e ∈ issued m → sequence_number e < next_sequence m;
}.

Lemma cid_inv_new l p : cid_inv true (cid_manager_new l p).
Proof.
  split; cbn; try done.
  - apply NoDup_singleton.
  - intros e ->%list_elem_of_singleton. cbn. lia.
  - intros a _ [= <-]. done.
  - split; [done|]. by apply Forall_singleton.
  - apply NoDup_singleton.
  - intros e ->%list_elem_of_singleton. cbn. lia.
Qed.

(** Only the peer's part changes. *)
Definition same_issued (m m' : ConnectionIdManager) : Prop :=
  issued m' = issued m ∧ next_sequence m' = next_sequence m.

(** The peer's part of the invariant. *)
Definition peer_inv (m : ConnectionIdManager) : Prop :=
  is_Some (peer m !! active_peer_cid_index m) ∧ NoDup (seqs (peer m)) ∧
  (∀ e, e ∈ peer m → sequence_number e < max_peer_retire_prior_to m → retired e = true).

Section inv.
Context (ok : bool).

Lemma cid_inv_weaken m : cid_inv ok m → cid_inv false m.
Proof. by intros []. Qed.

Lemma cid_inv_peer m m' : cid_inv ok m → same_issued m m' → peer_inv m' →
  (∀ a, ok = true → peer m' !! active_peer_cid_index m' = Some a → retired a = true →
        ∀ e, e ∈ peer m' → retired e = true) → cid_inv ok m'.
Proof. intros [] [E1 E2] (H1 & H2 & H3) H4. split; rewrite ?E1, ?E2; done. Qed.

Lemma position_some {A} (p : A → bool) l i : position p l = Some i → ∃ x, l !! i = Some x ∧ p x = true.
Proof.
  revert i. induction l as [|x l IH]; intros i; cbn; [done|]. dif; [intros [= <-]; eauto|].
  intros (j & Hj & ->)%fmap_Some. destruct (IH j Hj) as (y & ? & ?). eauto.
Qed.

Lemma position_none {A} (p : A → bool) l : position p l = None → ∀ x, x ∈ l → p x = false.
Proof.
  induction l as [|y l IH]; cbn; [by intros _ x ?%elem_of_nil|]. dif; [done|].
  intros H%fmap_None x [->|Hx]%elem_of_cons; auto.
Qed.

(** Rotation settles the manager. *)
Lemma rotate_away_spec m : peer_inv m →
  ∃ m', rotate_away_from_retired_active_peer_cid m = Ok m' ∧ same_issued m m' ∧ peer_inv m' ∧
    ∀ a, peer m' !! active_peer_cid_index m' = Some a → retired a = true →
         ∀ e, e ∈ peer m' → retired e = true.
Proof.
  intros ([a Ha] & Hu & Hr). unfold rotate_away_from_retired_active_peer_cid, active_peer.
  rewrite Ha, bind_ok. destruct (retired a) eqn:Era.
  - destruct (position _ (peer m)) as [i|] eqn:Ep.
    + apply position_some in Ep as (x & Hx & Hnx). eexists. split; [reflexivity|].
      split_and!; [done|split_and!; cbn; eauto|]. cbn. intros a' Ha' Hra'.
      rewrite Hx in Ha'. injection Ha' as <-. by rewrite Hra' in Hnx.
    + exists m. split_and!; [done|done|split_and!; eauto|]. intros _ _ _ e He.
      pose proof (position_none _ _ Ep e He) as H. by apply negb_false_iff in H.
  - exists m. split_and!; [done|done|split_and!; eauto|]. intros a' Ha' Hra'. congruence.
Qed.

Lemma seqs_fmap f l : (∀ e, sequence_number (f e) = sequence_number e) → seqs (f <$> l) = seqs l.
Proof. intros H. unfold seqs. rewrite <- list_fmap_compose. apply list_fmap_ext. intros. apply H. Qed.

Lemma seqs_alter f i l : (∀ e, sequence_number (f e) = sequence_number e) → seqs (alter f i l) = seqs l.
Proof.
  intros H. unfold seqs. apply list_eq. intros j. rewrite !list_lookup_fmap.
  destruct (decide (i = j)) as [->|]; [|by rewrite list_lookup_alter_ne].
  rewrite list_lookup_alter_eq. destruct (l !! j); cbn; [by rewrite H|done].
Qed.

Lemma retire_below_inv m r : peer_inv m → max_peer_retire_prior_to m ≤ r →
  peer_inv (retire_peer_cids_below
    (with_peer m (peer m) (active_peer_cid_index m) r) r).
Proof.
  intros ([a Ha] & Hu & Hr) Hle. split_and!; cbn.
  - rewrite list_lookup_fmap, Ha. eauto.
  - rewrite seqs_fmap; [done|]. intros e. by dif.
  - intros e (x & -> & Hx)%list_elem_of_fmap. destruct (_ <? _) eqn:E; [done|]. lia.
Qed.

Lemma unretired_alter_inv m i : peer_inv m →
  peer_inv (with_peer m (alter (λ e, with_retired e true) i (peer m)) (active_peer_cid_index m)
              (max_peer_retire_prior_to m)).
Proof.
  intros ([a Ha] & Hu & Hr). split_and!; cbn.
  - destruct (decide (i = active_peer_cid_index m)) as [->|];
      [rewrite list_lookup_alter_eq, Ha; eauto|rewrite list_lookup_alter_ne by done; eauto].
  - by rewrite seqs_alter.
  - intros e [j Hj]%list_elem_of_lookup. destruct (decide (i = j)) as [->|].
    + rewrite list_lookup_alter_eq in Hj. apply fmap_Some in Hj as (x & _ & ->). done.
    + rewrite list_lookup_alter_ne in Hj by done. apply Hr. by eapply list_elem_of_lookup_2.
Qed.

Lemma cid_inv_peer_inv m : cid_inv ok m → peer_inv m.
Proof. intros []. by split_and!. Qed.

(** NEW_CONNECTION_ID: the invariant, or a protocol violation after the
    identifiers below Retire Prior To were retired; never a panic. *)
Lemma add_peer_cid_spec seq c tok r m : cid_inv ok m →
  match add_peer_cid seq c tok r m with
  | (Ok _, m') => cid_inv ok m'
  | (Err e, m') => cid_inv false m' ∧ ∃ t, e = Transport ProtocolViolation t
  | _ => False
  end.
Proof.
  intros Hm. unfold add_peer_cid. run_stM.
  set (r' := Z.max _ _).
  pose proof (retire_below_inv m r' (cid_inv_peer_inv _ Hm) ltac:(lia)) as Hp.
  set (m1 := retire_peer_cids_below _ _) in *.
  assert (same_issued m m1) as Hsame by done. 
  assert (max_peer_retire_prior_to m1 = r') as Hr1 by done. clearbody m1.
  destruct (position _ (peer m1)) as [i|] eqn:Ep.
  - apply position_some in Ep as (x & Hx & Hseq). rewrite Hx. run_stM.
    dif; run_stM.
    { split; [|by eexists]. destruct Hp as (? & ? & ?), Hsame as [E1 E2], Hm. split; rewrite ?E1, ?E2; done. }
    assert (∃ m2, ((if seq <? r' then modify (λ m, with_peer m
        (alter (λ e, with_retired e true) i (peer m)) (active_peer_cid_index m)
        (max_peer_retire_prior_to m)) else mret tt) : stM _ QuicError unit) m1 = (Ok tt, m2) ∧
        peer_inv m2 ∧ same_issued m m2) as (m2 & E2 & Hp2 & Hs2).
    { dif; [|by exists m1]. eexists. split; [reflexivity|]. split; [by apply unretired_alter_inv|done]. }
    rewrite (stM_bind_ok _ _ _ _ _ E2). run_stM.
    destruct (rotate_away_spec m2 Hp2) as (m3 & -> & Hs3 & Hp3 & Hset). run_stM. cbn.
    apply (cid_inv_peer m); try done; [destruct Hs2, Hs3; split; congruence|by intros ? _; apply Hset].
  - pose proof (position_none _ _ Ep) as Hnone. destruct Hp as ([a Ha] & Hu & Hr).
    match goal with |- context [rotate_away_from_retired_active_peer_cid ?m2] =>
      assert (peer_inv m2) as Hp2 end.
    { split_and!; cbn.
      - rewrite (lookup_app_l_Some _ _ _ _ Ha). eauto.
      - unfold seqs. rewrite fmap_app. apply NoDup_app. split_and!; [done| |apply NoDup_singleton].
        intros s (e & -> & He)%list_elem_of_fmap Hs%list_elem_of_singleton. specialize (Hnone e He).
        cbn in Hs, Hnone. lia.
      - intros e [He|He%list_elem_of_singleton]%elem_of_app; [by apply Hr|]. subst e. cbn. rewrite Hr1. lia. }
    run_stM. destruct (rotate_away_spec _ Hp2) as (m3 & -> & Hs3 & Hp3 & Hset). run_stM. cbn.
    apply (cid_inv_peer m); try done; [destruct Hsame, Hs3; split; cbn in *; congruence|by intros ? _; apply Hset].
Qed.

Lemma issue_new_cid_spec fill tok m : cid_inv ok m → next_sequence m < U64_MAX →
  ∃ e m', issue_new_cid fill tok m = (Ok e, m') ∧ cid_inv ok m' ∧
    issued m' = issued m ++ [e] ∧ retired e = false.
Proof.
  intros [H1 H2 H3 H4 [H5 H5'] H6 H7] Hlt. unfold issue_new_cid. run_stM. unfold add_u64.
  rewrite (proj2 (Z.leb_le _ _)) by lia. run_stM. eexists _, _. split; [reflexivity|].
  split_and!; [|done|done]. split; cbn; try done.
  - split; [by intros [_ ?]%app_nil|]. apply Forall_app. split; [done|]. by apply Forall_singleton.
  - unfold seqs. rewrite fmap_app. apply NoDup_app. split_and!; [done| |apply NoDup_singleton].
    intros s (e & -> & He)%list_elem_of_fmap Hs%list_elem_of_singleton. specialize (H7 e He).
    cbn in Hs. lia.
  - intros e [He|He%list_elem_of_singleton]%elem_of_app; [specialize (H7 e He)|subst e; cbn]; lia.
Qed.

Lemma seqs_filter P `{!∀ x, Decision (P x)} l : NoDup (seqs l) → NoDup (seqs (filter P l)).
Proof. intros Hnd. eapply sublist_NoDup; [exact Hnd|]. apply fmap_sublist, sublist_filter. Qed.

Lemma retire_local_cid_spec seq fill tok m : cid_inv ok m → next_sequence m < U64_MAX →
  ∃ m', retire_local_cid seq fill tok m = (Ok tt, m') ∧ cid_inv ok m'.
Proof.
  intros [H1 H2 H3 H4 [H5 H5'] H6 H7] Hlt. unfold retire_local_cid. run_stM.
  set (f := λ e, if sequence_number e =? seq then with_retired e true else e).
  set (l := filter (λ e, retired e = false) (f <$> issued m)).
  assert (∀ e, e ∈ l → e ∈ issued m ∧ retired e = false) as Hl.
  { intros e [Hr (x & -> & Hx)%list_elem_of_fmap]%list_elem_of_filter. unfold f in *.
    destruct (sequence_number x =? seq); [done|]. done. }
  assert (NoDup (seqs l)) as Hnd.
  { apply seqs_filter. rewrite seqs_fmap; [done|]. intros e. unfold f. by dif. }
  dif.
  - apply bool_decide_eq_true in Heqb. unfold issue_new_cid. run_stM. cbn in Heqb. unfold add_u64. cbn.
    rewrite (proj2 (Z.leb_le _ _)) by lia. run_stM. eexists. split; [reflexivity|].
    split; cbn; try done.
    + rewrite Heqb. cbn. split; [done|by apply Forall_singleton].
    + rewrite Heqb. apply NoDup_singleton.
    + rewrite Heqb. intros e ->%list_elem_of_singleton. cbn. lia.
  - apply bool_decide_eq_false in Heqb. eexists. split; [reflexivity|]. split; cbn; try done.
    + split; [done|]. apply Forall_forall. intros e He. apply (Hl e He).
    + intros e He. apply H7. apply (Hl e He).
Qed.

Definition keep (act_seq : Z) (e : IssuedConnectionId) : bool :=
  negb (retired e && negb (sequence_number e =? act_seq)).

(** Collecting the retired identifiers of the peer keeps the active one. *)
Lemma split_retired_spec act l : ∀ retained retire i,
  NoDup (seqs (retained ++ l)) → (retained !! i = Some act ∨ act ∈ l) →
  let '(_, retained', i') := split_retired (sequence_number act) l retained retire i in
  retained' !! i' = Some act ∧
  retained' = retained ++ filter (λ e, keep (sequence_number act) e = true) l.
Proof.
  induction l as [|e l IH]; intros retained retire i Hnd Hact; cbn [split_retired].
  { rewrite app_nil_r. destruct Hact as [?|?%elem_of_nil]; done. }
  assert (sequence_number e = sequence_number act → (retained !! i = Some act → False) ∧ (act ∈ e :: l → e = act))
    as Hsame.
  { intros E. unfold seqs in Hnd. rewrite fmap_app in Hnd. apply NoDup_app in Hnd as (_ & Hdis & Hnd).
    cbn in Hnd. inversion Hnd as [|?? Hn _]; subst. split.
    - intros Hi. apply (Hdis (sequence_number act)).
      + apply list_elem_of_fmap. exists act. split; [done|]. by eapply list_elem_of_lookup_2.
      + rewrite <- E. left.
    - intros [->|Hin]%elem_of_cons; [done|]. destruct Hn. apply list_elem_of_fmap. by exists act. }
  destruct (retired e && negb (sequence_number e =? sequence_number act)) eqn:Ek.
  - rewrite filter_cons_False by (unfold keep; by rewrite Ek). apply IH.
    + eapply sublist_NoDup; [exact Hnd|]. apply fmap_sublist. apply sublist_app; [done|]. by apply sublist_cons.
    + destruct Hact as [?|[->|?]%elem_of_cons]; [by left| |by right].
      apply andb_true_iff in Ek as [_ Ek]. by rewrite Z.eqb_refl in Ek.
  - rewrite filter_cons_True by (unfold keep; by rewrite Ek).
    specialize (IH (retained ++ [e]) retire
      (if sequence_number e =? sequence_number act then length retained else i)).
    rewrite <- (app_assoc _ _ l) in IH.
    replace (retained ++ e :: filter (λ e, keep (sequence_number act) e = true) l)
      with ((retained ++ [e]) ++ filter (λ e, keep (sequence_number act) e = true) l)
      by (by rewrite <- app_assoc).
    apply IH; [done|].
    destruct (Z.eqb_spec (sequence_number e) (sequence_number act)) as [E|E].
    + left. destruct (Hsame E) as [H1 H2]. destruct Hact as [?|Hin]; [by destruct H1|].
      rewrite (H2 Hin), lookup_app_r, Nat.sub_diag by lia. done.
    + destruct Hact as [Hi|[->|?]%elem_of_cons]; [|done|by right].
      left. by apply lookup_app_l_Some.
Qed.

Lemma take_retired_spec m : cid_inv ok m → ∃ retire m', take_peer_cids_to_retire m = Ok (retire, m') ∧ cid_inv ok m'.
Proof.
  intros Hm. pose proof Hm as [[a Ha] H2 H3 H4 _ _ _]. unfold take_peer_cids_to_retire, active_peer.
  rewrite Ha, bind_ok.
  pose proof (split_retired_spec a (peer m) [] [] 0%nat H2) as Hs.
  destruct (split_retired _ _ _ _ _) as [[retire retained] i].
  destruct Hs as [Hi ->]; [right; by eapply list_elem_of_lookup_2|]. cbn [app] in *.
  assert (∀ e, e ∈ filter (λ e, keep (sequence_number a) e = true) (peer m) → e ∈ peer m) as Hsub.
  { intros e He. by apply list_elem_of_filter in He as [_ ?]. }
  eexists retire, _. split; [reflexivity|]. apply (cid_inv_peer m); [done|done| |].
  - split_and!; cbn; [eauto|by apply seqs_filter|]. intros e ?%Hsub. by apply H3.
  - cbn. intros a' Hok Ha' Hr e He%Hsub. rewrite Hi in Ha'. injection Ha' as <-. by apply (H4 a).
Qed.

Lemma update_active_spec f m : (∀ e, sequence_number (f e) = sequence_number e ∧ retired (f e) = retired e) →
  cid_inv ok m → ∃ m', update_active f m = Ok m' ∧ cid_inv ok m'.
Proof.
  intros Hf Hm. pose proof Hm as [[a Ha] H2 H3 H4 _ _ _]. unfold update_active, active_peer.
  rewrite Ha, bind_ok. eexists. split; [reflexivity|]. set (i := active_peer_cid_index m) in *.
  assert (∀ e, e ∈ alter f i (peer m) → ∃ x, x ∈ peer m ∧ sequence_number e = sequence_number x ∧
            retired e = retired x) as Hx.
  { intros e [j Hj]%list_elem_of_lookup. rewrite list_lookup_alter in Hj. case_decide.
    - apply fmap_Some in Hj as (x & Hx & ->). destruct (Hf x). exists x.
      split; [by eapply list_elem_of_lookup_2|done].
    - exists e. split; [by eapply list_elem_of_lookup_2|done]. }
  apply (cid_inv_peer m); [done|done| |].
  - split_and!; cbn.
    + fold i. rewrite list_lookup_alter_eq, Ha. eauto.
    + rewrite seqs_alter; [done|]. apply Hf.
    + intros e (x & Hx' & -> & ->)%Hx. by apply H3.
  - cbn. fold i. rewrite list_lookup_alter_eq, Ha. intros a' Hok [= <-]. rewrite (proj2 (Hf a)).
    intros Hr e (x & ? & _ & ->)%Hx. by apply (H4 a).
Qed.

(** The best candidate is a candidate. *)
Lemma foldl_better l : ∀ b r, foldl better b l = Some r → b = Some r ∨ r ∈ l.
Proof.
  induction l as [|c l IH]; intros b r H; cbn in H; [by left|].
  apply IH in H as [H|H]; [|right; by right]. unfold better in H.
  destruct b as [b|]; [destruct (_ <? _)|]; injection H as <-; [by left|right; left|right; left].
Qed.

Lemma rotate_active_spec m : cid_inv ok m → cid_inv ok (rotate_active_peer_cid m).2.
Proof.
  intros Hm. unfold rotate_active_peer_cid.
  destruct (foldl better None _) as [[i s]|] eqn:E; [|done].
  apply foldl_better in E as [?|E]; [done|]. apply list_elem_of_omap in E as ([j e] & Hin & He).
  apply list_elem_of_lookup in Hin as [k Hk]. rewrite list_lookup_imap in Hk.
  apply fmap_Some in Hk as (e' & Hk & [= -> ->]).
  destruct (_ && _) eqn:Eb in He; [|done]. injection He as <- <-.
  apply andb_true_iff in Eb as [_ Er%negb_true_iff]. destruct Hm as [H1 H2 H3 H4 H5 H6 H7].
  split; cbn; try done. intros a _ Ha. rewrite Hk in Ha. injection Ha as <-. congruence.
Qed.

Lemma issued_update_inv m l : cid_inv ok m → seqs l = seqs (issued m) →
  Forall (λ e, retired e = false) l → cid_inv ok (with_issued m l (next_sequence m)).
Proof.
  intros [H1 H2 H3 H4 [H5 _] H6 H7] Hs Hr. split; cbn; try done.
  - split; [|done]. intros ->. cbn in Hs. by destruct (issued m).
  - by rewrite <- Hs in H6.
  - intros e He. assert (sequence_number e ∈ seqs (issued m)) as Hin.
    { rewrite <- Hs. by apply list_elem_of_fmap_2. }
    apply list_elem_of_fmap in Hin as (x & -> & Hx). by apply H7.
Qed.

Lemma take_unadvertised_spec m : cid_inv ok m → cid_inv ok (take_unadvertised_local_cids m).2.
Proof.
  intros Hm. cbn. unfold prune_retired_local_cids. cbn.
  assert (Forall (λ e, retired e = false) (mark_advertised <$> issued m)) as Hr.
  { apply Forall_fmap. eapply Forall_impl; [apply (ci_issued _ _ Hm)|]. intros e He. cbn.
    unfold mark_advertised. by dif. }
  assert (filter (λ e, retired e = false) (mark_advertised <$> issued m) = mark_advertised <$> issued m) as E.
  { clear -Hr. induction Hr as [|e l He _ IH]; [done|]. by rewrite filter_cons_True, IH. }
  rewrite E. apply (issued_update_inv m); [done| |done]. apply seqs_fmap. intros e.
  unfold mark_advertised. by dif.
Qed.

End inv.

(** ** The operations of a connection on its identifiers *)

Inductive cid_op :=
  | CidNew (seq retire_prior_to : Z) (connection_id token : bytes)
  | CidRetireLocal (seq : Z) (fill : Z → bytes) (token : bytes)
  | CidIssue (fill : Z → bytes) (token : bytes)
  | CidRotate
  | CidTakeRetired
  | CidTakeUnadvertised
  | CidSetPeer (c : ConnectionId)
  | CidSetPeerToken (token : bytes)
  | CidSetLocalToken (token : bytes).

Definition cid_step (op : cid_op) : stM ConnectionIdManager QuicError unit :=
  match op with
  | CidNew seq r c t => process_new_connection_id seq r c t
  | CidRetireLocal seq fill t => retire_local_cid seq fill t
  | CidIssue fill t => _ ← issue_new_cid fill t; mret tt
  | CidRotate => modify (λ m, (rotate_active_peer_cid m).2)
  | CidTakeRetired => m ← gets (λ m, m); '(_, m') ← lift (take_peer_cids_to_retire m); modify (λ _, m')
  | CidTakeUnadvertised => modify (λ m, (take_unadvertised_local_cids m).2)
  | CidSetPeer c => m ← gets (λ m, m); m' ← lift (set_peer_cid m c); modify (λ _, m')
  | CidSetPeerToken t =>
      m ← gets (λ m, m); m' ← lift (set_active_peer_stateless_reset_token m t); modify (λ _, m')
  | CidSetLocalToken t =>
      m ← gets (λ m, m); m' ← lift (set_primary_local_stateless_reset_token m t); modify (λ _, m')
  end.

(** A step keeps the invariant; it succeeds or fails with a transport error. *)
Lemma cid_step_spec ok op m : cid_inv ok m → next_sequence m < U64_MAX →
  match cid_step op m with
  | (Ok _, m') => cid_inv ok m'
  | (Err e, m') => cid_inv false m' ∧ ∃ c t, e = Transport c t
  | _ => False
  end.
Proof.
  intros Hm Hlt. pose proof (cid_inv_weaken ok m Hm) as Hw. destruct op; cbn [cid_step]; run_stM.
  - unfold process_new_connection_id. do 2 (dif; [split; [exact Hw|by eexists _, _]|]).
    unfold from_slice. rewrite (proj2 (Z.ltb_ge _ _)) by lia. run_stM.
    match goal with |- context [add_peer_cid ?s ?c ?t ?r m] =>
      pose proof (add_peer_cid_spec ok s c t r m Hm) as H; destruct (add_peer_cid s c t r m) as [[] ?] end;
      try done. destruct H as [? [? ->]]. split; [done|by eexists _, _].
  - destruct (retire_local_cid_spec ok seq fill token m Hm Hlt) as (m' & -> & ?). done.
  - destruct (issue_new_cid_spec ok fill token m Hm Hlt) as (e & m' & E & ? & _).
    rewrite (stM_bind_ok _ _ _ _ _ E). done.
  - by apply rotate_active_spec.
  - destruct (take_retired_spec ok m Hm) as (r & m' & -> & ?). by run_stM.
  - by apply take_unadvertised_spec.
  - unfold set_peer_cid. match goal with |- context [update_active ?f m] =>
      destruct (update_active_spec ok f m) as (m' & -> & ?) end; [done|done|]. by run_stM.
  - unfold set_active_peer_stateless_reset_token. match goal with |- context [update_active ?f m] =>
      destruct (update_active_spec ok f m) as (m' & -> & ?) end; [done|done|]. by run_stM.
  - unfold set_primary_local_stateless_reset_token.
    pose proof (ci_issued _ _ Hm) as [Hne Hr]. destruct (issued m) as [|e l] eqn:E; [done|]. run_stM. cbn.
    apply issued_update_inv; [done|by rewrite E|]. by inversion Hr; subst; constructor.
Qed.

Definition succeeded {E A} (r : result E A) : bool := match r with Ok _ => true | _ => false end.

(** The states any operations lead to, the failing ones included, with whether
    all of them succeeded. *)
Inductive cid_reachable (l p : ConnectionId) : bool → ConnectionIdManager → Prop :=
  | cid_start : cid_reachable l p true (cid_manager_new l p)
  | cid_next ok m op : cid_reachable l p ok m → next_sequence m < U64_MAX →
      cid_reachable l p (ok && succeeded (cid_step op m).1) (cid_step op m).2.

(** C24: in every state a connection's operations on its identifiers reach,
    whether they succeed or fail, the active peer identifier exists, every
    identifier below the peer's Retire Prior To is retired, sequence numbers are
    unique, an unretired local identifier exists, and no further operation
    panics: it succeeds or fails with a transport error.  While no operation has
    failed, the active peer identifier is not retired if an unretired one is
    known. *)
Theorem cid_manager_safe (l p : ConnectionId) (ok : bool) (m : ConnectionIdManager)
    (Hreach : cid_reachable l p ok m) :
  (∃ a, peer m !! active_peer_cid_index m = Some a ∧ active_peer_cid m = Ok (cid a) ∧
     (ok = true → (∃ e, e ∈ peer m ∧ retired e = false) → retired a = false)) ∧
  (∀ e, e ∈ peer m → sequence_number e < max_peer_retire_prior_to m → retired e = true) ∧
  NoDup (seqs (peer m)) ∧ NoDup (seqs (issued m)) ∧
  (∃ e, e ∈ local_cids m ∧ primary_local_cid m = Ok (cid e)) ∧
  ∀ op, next_sequence m < U64_MAX →
    match (cid_step op m).1 with Ok _ => True | Err e => ∃ c t, e = Transport c t | _ => False end.
Proof.
  assert (cid_inv ok m) as Hm.
  { induction Hreach as [|ok m op _ IH Hlt]; [apply cid_inv_new|].
    pose proof (cid_step_spec ok op m IH Hlt) as H. destruct (cid_step op m) as [[]]; cbn; try done.
    - by rewrite andb_true_r.
    - rewrite andb_false_r. by destruct H. }
  pose proof Hm as [[a Ha] H2 H3 H4 [H5 H5'] H6 H7]. split_and!; try done.
  - exists a. unfold active_peer_cid, active_peer. rewrite Ha. split_and!; [done|done|].
    intros Hok (e & He & Hr). destruct (retired a) eqn:Ea; [|done].
    pose proof (H4 a Hok Ha Ea e He). congruence.
  - unfold primary_local_cid, local_cids. destruct (issued m) as [|e rest] eqn:E; [done|].
    apply Forall_cons in H5' as [He _]. exists e. split.
    + apply list_elem_of_filter. split; [done|left].
    + cbn. by rewrite He.
  - intros op Hlt. pose proof (cid_step_spec ok op m Hm Hlt) as H.
    destruct (cid_step op m) as [[] ?]; try done. by destruct H.
Qed.

Definition sample_cid (b : Z) : ConnectionId := {| cid_len := 8; cid_bytes := replicate 20 b |}.

(** The peer retires its first identifier by issuing a second, and then fails
    by issuing another one with the same number. *)
Definition sample_ops : list cid_op :=
  [CidNew 1 1 [9; 9; 9; 9] (replicate 16 7); CidNew 1 1 [8; 8; 8; 8] (replicate 16 7)].
Definition sample_manager (n : nat) : ConnectionIdManager :=
  foldl (λ m op, (cid_step op m).2) (cid_manager_new (sample_cid 1) (sample_cid 2)) (take n sample_ops).

Lemma cid_manager_safe_witness :
  (∃ a, peer (sample_manager 1) !! active_peer_cid_index (sample_manager 1) = Some a ∧
    active_peer_cid (sample_manager 1) = Ok (cid a) ∧
    (true = true → (∃ e, e ∈ peer (sample_manager 1) ∧ retired e = false) → retired a = false)) ∧
  ∃ a, peer (sample_manager 2) !! active_peer_cid_index (sample_manager 2) = Some a ∧
    active_peer_cid (sample_manager 2) = Ok (cid a) ∧
    (false = true → (∃ e, e ∈ peer (sample_manager 2) ∧ retired e = false) → retired a = false).
Proof.
  assert (cid_reachable (sample_cid 1) (sample_cid 2) true (sample_manager 1)) as H1.
  { change true with (true && succeeded (cid_step (CidNew 1 1 [9; 9; 9; 9] (replicate 16 7))
      (cid_manager_new (sample_cid 1) (sample_cid 2))).1).
    apply cid_next; [apply cid_start|vm_compute; reflexivity]. }
  split.
  - exact (proj1 (cid_manager_safe (sample_cid 1) (sample_cid 2) true (sample_manager 1) H1)).
  - apply (cid_manager_safe (sample_cid 1) (sample_cid 2) false (sample_manager 2)).
    change false with (true && succeeded (cid_step (CidNew 1 1 [8; 8; 8; 8] (replicate 16 7)) (sample_manager 1)).1).
    apply cid_next; [exact H1|vm_compute; reflexivity].
Defined.
