(* ===== verification/Recovery.v ===== *)
(** * Loss detection and congestion control (starfish-quic/src/recovery, RFC 9002)

    The congestion controller interface with its NewReno implementation, the
    RTT estimator, loss detection, and how the connection drives them.  Times
    and durations are nanoseconds.  [usize] is 64 bits wide. *)

From Stdlib Require Import SpecFloat.
From S2P Require Import Prelude QuicError Varint Frame Packet TransportParams AckTracking.

(** ** Congestion controllers (congestion.rs) *)

Definition MINIMUM_WINDOW : Z := 2 * 1200.
Definition INITIAL_WINDOW : Z := 10 * 1200.

Class CongestionController (C : Type) := {
  cc_new : C;
  on_packet_sent : C → Z → Z → qres C;
  on_ack : C → Z → Z → Z → Z → qres C;
  on_loss : C → Z → Z → Z → qres C;
  on_ecn_ce : C → Z → Z → Z → qres C;
  on_packet_discarded : C → Z → C;
  on_persistent_congestion : C → C;
  window : C → Z;
  bytes_in_flight : C → Z;
}.

(** [can_send]: the sum of two [usize] panics on overflow. *)
Definition can_send {C} `{CongestionController C} (c : C) (bytes : Z) : qres bool :=
  n ← add_u64 (bytes_in_flight c) bytes; Ok (n <=? window c).

(** What every controller promises about the bytes in flight. *)
Class InFlightLaws C `{CongestionController C} := {
  law_new : bytes_in_flight cc_new = 0;
  law_sent c n t c' : on_packet_sent c n t = Ok c' →
    bytes_in_flight c' = bytes_in_flight c + n ∧ window c' = window c;
  law_ack c n r s t c' : on_ack c n r s t = Ok c' →
    bytes_in_flight c' = saturating_sub (bytes_in_flight c) n;
  law_loss c n s t c' : on_loss c n s t = Ok c' →
    bytes_in_flight c' = saturating_sub (bytes_in_flight c) n;
  law_ecn c n s t c' : on_ecn_ce c n s t = Ok c' →
    bytes_in_flight c' = saturating_sub (bytes_in_flight c) n;
  law_discard c n : bytes_in_flight (on_packet_discarded c n) = saturating_sub (bytes_in_flight c) n;
  law_discard_window c n : window (on_packet_discarded c n) = window c;
  law_persistent c : bytes_in_flight (on_persistent_congestion c) = bytes_in_flight c;
}.

(** *** NewReno (new_reno.rs) *)
Module NewReno.

Record NewReno := {
  cwnd : Z;
  ssthresh : Z;
  in_flight : Z;
  congestion_recovery_start : option Z;
}.

Definition new : NewReno := {|
  cwnd := INITIAL_WINDOW; ssthresh := USIZE_MAX; in_flight := 0;
  congestion_recovery_start := None |}.

Definition in_congestion_recovery (c : NewReno) (sent_time : Z) : bool :=
  match congestion_recovery_start c with Some start => sent_time <=? start | None => false end.

Definition reno_sent (c : NewReno) (bytes _now : Z) : qres NewReno :=
  n ← add_u64 (in_flight c) bytes;
  Ok {| cwnd := cwnd c; ssthresh := ssthresh c; in_flight := n;
        congestion_recovery_start := congestion_recovery_start c |}.

Definition reno_ack (c : NewReno) (bytes _rtt sent_time _now : Z) : qres NewReno :=
  let n := saturating_sub (in_flight c) bytes in
  let with_cwnd w := {| cwnd := w; ssthresh := ssthresh c; in_flight := n;
                        congestion_recovery_start := congestion_recovery_start c |} in
  if in_congestion_recovery c sent_time then Ok (with_cwnd (cwnd c))
  else if cwnd c <? ssthresh c then
    w ← add_u64 (cwnd c) bytes; Ok (with_cwnd w)
  else
    p ← mul_u64 1200 bytes;
    q ← (if cwnd c =? 0 then Panic else Ok (p / cwnd c));
    w ← add_u64 (cwnd c) q; Ok (with_cwnd w).

(** The bodies of [on_loss] and [on_ecn_ce] are the same. *)
Definition reno_loss (c : NewReno) (bytes sent_time now : Z) : qres NewReno :=
  let n := saturating_sub (in_flight c) bytes in
  if negb (in_congestion_recovery c sent_time) then
    let half := cwnd c / 2 in
    Ok {| cwnd := Z.max half MINIMUM_WINDOW; ssthresh := half; in_flight := n;
          congestion_recovery_start := Some now |}
  else
    Ok {| cwnd := cwnd c; ssthresh := ssthresh c; in_flight := n;
          congestion_recovery_start := congestion_recovery_start c |}.

Definition reno_discarded (c : NewReno) (bytes : Z) : NewReno :=
  {| cwnd := cwnd c; ssthresh := ssthresh c; in_flight := saturating_sub (in_flight c) bytes;
     congestion_recovery_start := congestion_recovery_start c |}.

Definition reno_persistent (c : NewReno) : NewReno :=
  {| cwnd := MINIMUM_WINDOW; ssthresh := USIZE_MAX; in_flight := in_flight c;
     congestion_recovery_start := congestion_recovery_start c |}.

#[export] Instance new_reno_controller : CongestionController NewReno := {
  cc_new := new; on_packet_sent := reno_sent; on_ack := reno_ack; on_loss := reno_loss;
  on_ecn_ce := reno_loss; on_packet_discarded := reno_discarded;
  on_persistent_congestion := reno_persistent; window := cwnd; bytes_in_flight := in_flight }.

End NewReno.

#[export] Existing Instance NewReno.new_reno_controller.

(** ** Double precision arithmetic

    [f64] values are the binary64 numbers of [SpecFloat]; the operations round
    to nearest, ties to even. *)

Definition f64 := spec_float.
Definition f64_of_Z (z : Z) : f64 := binary_normalize 53 1024 z 0 false.
Definition f64_add : f64 → f64 → f64 := SFadd 53 1024.
Definition f64_sub : f64 → f64 → f64 := SFsub 53 1024.
Definition f64_mul : f64 → f64 → f64 := SFmul 53 1024.
Definition f64_div : f64 → f64 → f64 := SFdiv 53 1024.
Definition f64_lt : f64 → f64 → bool := SFltb.

(** [x as usize]: truncation that saturates; NaN gives 0. *)
Definition f64_to_usize (x : f64) : Z :=
  match x with
  | S754_finite false m e => Z.min USIZE_MAX (Z.shiftl (Zpos m) e)
  | S754_infinity false => USIZE_MAX
  | _ => 0
  end.

(** [f64::max] with a zero argument: NaN and negative numbers give zero. *)
Definition f64_max_zero (x : f64) : f64 := if f64_lt (f64_of_Z 0) x then x else f64_of_Z 0.

Definition NANOS_PER_SEC : Z := 1000000000.

(** [Duration::as_secs_f64] *)
Definition as_secs_f64 (d : Z) : f64 :=
  f64_add (f64_of_Z (d / NANOS_PER_SEC))
          (f64_div (f64_of_Z (d mod NANOS_PER_SEC)) (f64_of_Z NANOS_PER_SEC)).

(** [n / 2^k] rounded to nearest, ties to even. *)
Definition div_pow2_even (n k : Z) : Z :=
  let q := Z.shiftr n k in
  let r := 2 * (n - Z.shiftl q k) in
  match r ?= 2 ^ k with
  | Lt => q
  | Gt => q + 1
  | Eq => if Z.even q then q else q + 1
  end.

(** [Duration::from_secs_f64]: panics on a negative number, on NaN, and when
    the seconds exceed [u64]. *)
Definition from_secs_f64 (x : f64) : qres Z :=
  match x with
  | S754_zero _ => Ok 0
  | S754_finite false m e =>
      let n := if 0 <=? e then Zpos m * 2 ^ e * NANOS_PER_SEC
               else div_pow2_even (Zpos m * NANOS_PER_SEC) (- e) in
      if n / NANOS_PER_SEC <=? U64_MAX then Ok n else Panic
  | _ => Panic
  end.

(** *** Cubic (cubic.rs)

    The cube root and the third power are library functions whose last bits
    are not specified: they are parameters. *)
Module Cubic.
Section Cubic.

Context (cbrt powi3 : f64 → f64).

Definition CUBIC_C : f64 := f64_div (f64_of_Z 4) (f64_of_Z 10).
Definition CUBIC_BETA : f64 := f64_div (f64_of_Z 7) (f64_of_Z 10).

Record Cubic := {
  cwnd : Z;
  ssthresh : Z;
  in_flight : Z;
  w_max : f64;
  k : f64;
  epoch_start : option Z;
  congestion_recovery_start : option Z;
  mss : Z;
}.

Definition new : Cubic := {|
  cwnd := INITIAL_WINDOW; ssthresh := USIZE_MAX; in_flight := 0; w_max := f64_of_Z 0;
  k := f64_of_Z 0; epoch_start := None; congestion_recovery_start := None; mss := 1200 |}.

Definition in_congestion_recovery (c : Cubic) (sent_time : Z) : bool :=
  match congestion_recovery_start c with Some start => sent_time <=? start | None => false end.

Definition set_in_flight (n : Z) (c : Cubic) : Cubic := {|
  cwnd := cwnd c; ssthresh := ssthresh c; in_flight := n; w_max := w_max c; k := k c;
  epoch_start := epoch_start c; congestion_recovery_start := congestion_recovery_start c;
  mss := mss c |}.
Definition set_cwnd (w : Z) (c : Cubic) : Cubic := {|
  cwnd := w; ssthresh := ssthresh c; in_flight := in_flight c; w_max := w_max c; k := k c;
  epoch_start := epoch_start c; congestion_recovery_start := congestion_recovery_start c;
  mss := mss c |}.
Definition set_epoch (e : option Z) (c : Cubic) : Cubic := {|
  cwnd := cwnd c; ssthresh := ssthresh c; in_flight := in_flight c; w_max := w_max c; k := k c;
  epoch_start := e; congestion_recovery_start := congestion_recovery_start c; mss := mss c |}.

Definition compute_k (w_max : f64) : f64 :=
  cbrt (f64_div (f64_mul w_max (f64_sub (f64_of_Z 1) CUBIC_BETA)) CUBIC_C).

Definition w_cubic (c : Cubic) (t : f64) : f64 :=
  f64_add (f64_mul CUBIC_C (powi3 (f64_sub t (k c)))) (w_max c).

Definition enter_congestion_recovery (c : Cubic) (sent_time now : Z) : Cubic :=
  if in_congestion_recovery c sent_time then c
  else
    let cwnd_mss := f64_div (f64_of_Z (cwnd c)) (f64_of_Z (mss c)) in
    let wm := if f64_lt cwnd_mss (w_max c)
              then f64_div (f64_mul cwnd_mss (f64_add (f64_of_Z 1) CUBIC_BETA)) (f64_of_Z 2)
              else cwnd_mss in
    let thresh := f64_to_usize (f64_mul (f64_of_Z (cwnd c)) CUBIC_BETA) in
    {| cwnd := Z.max thresh MINIMUM_WINDOW; ssthresh := thresh; in_flight := in_flight c;
       w_max := wm; k := compute_k wm; epoch_start := None;
       congestion_recovery_start := Some now; mss := mss c |}.

Definition cubic_sent (c : Cubic) (bytes _now : Z) : qres Cubic :=
  n ← add_u64 (in_flight c) bytes; Ok (set_in_flight n c).

Definition checked_div (a b : Z) : qres Z := if b =? 0 then Panic else Ok (a / b).

Definition cubic_ack (c : Cubic) (bytes _rtt sent_time now : Z) : qres Cubic :=
  let c := set_in_flight (saturating_sub (in_flight c) bytes) c in
  if in_congestion_recovery c sent_time then Ok c
  else if cwnd c <? ssthresh c then
    w ← add_u64 (cwnd c) bytes; Ok (set_cwnd w c)
  else
    let start := default now (epoch_start c) in
    let c := set_epoch (Some start) c in
    let t := as_secs_f64 (duration_since now start) in
    let target := f64_to_usize (f64_max_zero (f64_mul (w_cubic c t) (f64_of_Z (mss c)))) in
    if cwnd c <? target then
      p ← mul_u64 (target - cwnd c) bytes;
      q ← checked_div p (cwnd c);
      w ← add_u64 (cwnd c) (Z.max q 1); Ok (set_cwnd w c)
    else
      p ← mul_u64 (mss c) bytes;
      q ← checked_div p (cwnd c);
      w ← add_u64 (cwnd c) q; Ok (set_cwnd w c).

(** The bodies of [on_loss] and [on_ecn_ce] are the same. *)
Definition cubic_loss (c : Cubic) (bytes sent_time now : Z) : qres Cubic :=
  Ok (enter_congestion_recovery (set_in_flight (saturating_sub (in_flight c) bytes) c)
        sent_time now).

Definition cubic_discarded (c : Cubic) (bytes : Z) : Cubic :=
  set_in_flight (saturating_sub (in_flight c) bytes) c.

Definition cubic_persistent (c : Cubic) : Cubic := {|
  cwnd := MINIMUM_WINDOW; ssthresh := MINIMUM_WINDOW; in_flight := in_flight c;
  w_max := f64_of_Z 0; k := f64_of_Z 0; epoch_start := None;
  congestion_recovery_start := congestion_recovery_start c; mss := mss c |}.

Definition cubic_controller : CongestionController Cubic := {|
  cc_new := new; on_packet_sent := cubic_sent; on_ack := cubic_ack; on_loss := cubic_loss;
  on_ecn_ce := cubic_loss; on_packet_discarded := cubic_discarded;
  on_persistent_congestion := cubic_persistent; window := cwnd; bytes_in_flight := in_flight |}.

End Cubic.
End Cubic.

(** ** Loss detection (loss_detection.rs) *)

Definition PACKET_THRESHOLD : Z := 3.
Definition TIME_THRESHOLD_MULTIPLIER : f64 := f64_div (f64_of_Z 9) (f64_of_Z 8).
Definition PERSISTENT_CONGESTION_THRESHOLD : Z := 3.
Definition from_millis (ms : Z) : Z := ms * 1000000.
Definition INITIAL_RTT : Z := from_millis 333.
Definition DURATION_MAX : Z := U64_MAX * NANOS_PER_SEC + 999999999.

Record SentPacket := {
  sp_pn : Z;
  sp_space : PacketNumberSpace;
  sp_time_sent : Z;
  sp_size : Z;
  sp_ack_eliciting : bool;
  sp_ecn_marking : option UdpEcnCodepoint;
}.

(** *** The RTT estimator *)

Record RttEstimator := {
  smoothed_rtt : Z;
  rttvar : Z;
  min_rtt : Z;
  latest_rtt : Z;
  first_sample : bool;
}.

Definition rtt_new : RttEstimator := {|
  smoothed_rtt := INITIAL_RTT; rttvar := INITIAL_RTT / 2; min_rtt := DURATION_MAX;
  latest_rtt := 0; first_sample := true |}.

Definition rtt_update (r : RttEstimator) (rtt_sample ack_delay : Z) : RttEstimator :=
  let lowest := Z.min (min_rtt r) rtt_sample in
  if first_sample r then
    {| smoothed_rtt := rtt_sample; rttvar := rtt_sample / 2; min_rtt := lowest;
       latest_rtt := rtt_sample; first_sample := false |}
  else
    let adjusted_rtt := if lowest + ack_delay <? rtt_sample then rtt_sample - ack_delay
                        else rtt_sample in
    let diff := Z.abs (smoothed_rtt r - adjusted_rtt) in
    {| smoothed_rtt := (smoothed_rtt r * 7 + adjusted_rtt) / 8;
       rttvar := (rttvar r * 3 + diff) / 4; min_rtt := lowest;
       latest_rtt := rtt_sample; first_sample := false |}.

Definition rtt_pto (r : RttEstimator) : Z :=
  smoothed_rtt r + Z.max (rttvar r) (from_millis 1) * 4.

(** *** Packet number spaces *)

Record SpaceState := {
  space_largest_acked : option Z;
  loss_time : option Z;
  sent_packets : gmap Z SentPacket;
  acked_ack_eliciting_times : gset Z;
  time_of_last_ack_eliciting : option Z;
}.

Definition space_new : SpaceState := {|
  space_largest_acked := None; loss_time := None; sent_packets := ∅;
  acked_ack_eliciting_times := ∅; time_of_last_ack_eliciting := None |}.

Definition set_largest_acked (la : option Z) (s : SpaceState) : SpaceState := {|
  space_largest_acked := la; loss_time := loss_time s; sent_packets := sent_packets s;
  acked_ack_eliciting_times := acked_ack_eliciting_times s;
  time_of_last_ack_eliciting := time_of_last_ack_eliciting s |}.
Definition set_loss_time (t : option Z) (s : SpaceState) : SpaceState := {|
  space_largest_acked := space_largest_acked s; loss_time := t; sent_packets := sent_packets s;
  acked_ack_eliciting_times := acked_ack_eliciting_times s;
  time_of_last_ack_eliciting := time_of_last_ack_eliciting s |}.
Definition set_sent_packets (m : gmap Z SentPacket) (s : SpaceState) : SpaceState := {|
  space_largest_acked := space_largest_acked s; loss_time := loss_time s; sent_packets := m;
  acked_ack_eliciting_times := acked_ack_eliciting_times s;
  time_of_last_ack_eliciting := time_of_last_ack_eliciting s |}.
Definition set_acked_times (ts : gset Z) (s : SpaceState) : SpaceState := {|
  space_largest_acked := space_largest_acked s; loss_time := loss_time s;
  sent_packets := sent_packets s; acked_ack_eliciting_times := ts;
  time_of_last_ack_eliciting := time_of_last_ack_eliciting s |}.

Record LossDetection := {
  spaces : PacketNumberSpace → SpaceState;
  ld_rtt : RttEstimator;
  pto_count : Z;
  max_ack_delay : Z;
}.

Definition loss_detection_new : LossDetection := {|
  spaces := λ _, space_new; ld_rtt := rtt_new; pto_count := 0;
  max_ack_delay := from_millis DEFAULT_MAX_ACK_DELAY_MS |}.

Definition set_max_ack_delay (d : Z) (l : LossDetection) : LossDetection := {|
  spaces := spaces l; ld_rtt := ld_rtt l; pto_count := pto_count l; max_ack_delay := d |}.

Definition per_space {A} (f : PacketNumberSpace → A) (sp : PacketNumberSpace) (a : A)
    : PacketNumberSpace → A := λ sp', if decide (sp' = sp) then a else f sp'.

Definition update_space (sp : PacketNumberSpace) (s : SpaceState) (l : LossDetection)
    : LossDetection := {|
  spaces := per_space (spaces l) sp s; ld_rtt := ld_rtt l; pto_count := pto_count l;
  max_ack_delay := max_ack_delay l |}.

Definition ld_on_packet_sent (l : LossDetection) (pkt : SentPacket) : LossDetection :=
  if negb (sp_ack_eliciting pkt) then l
  else
    let s := spaces l (sp_space pkt) in
    update_space (sp_space pkt) {|
      space_largest_acked := space_largest_acked s; loss_time := loss_time s;
      sent_packets := <[sp_pn pkt := pkt]> (sent_packets s);
      acked_ack_eliciting_times := acked_ack_eliciting_times s;
      time_of_last_ack_eliciting := Some (sp_time_sent pkt) |} l.

(** The entries of a [BTreeMap], in the order of their keys. *)
Definition sorted_entries {A} (m : gmap Z A) : list (Z * A) := merge_sort by_start (map_to_list m).

(** One range of an ACK frame: the packets it acknowledges leave the map.
    [BTreeMap::range] panics on a range whose start is above its end. *)
Definition ack_range (acc : list SentPacket * gmap Z SentPacket) (r : Z * Z)
    : qres (list SentPacket * gmap Z SentPacket) :=
  let '(acked, m) := acc in
  if r.2 <? r.1 then Panic
  else
    let entries := filter (λ e, r.1 <= e.1 <= r.2) (sorted_entries m) in
    Ok (acked ++ entries.*2, foldl (λ m pn, delete pn m) m entries.*1).

Definition loss_delay (r : RttEstimator) : qres Z :=
  d ← from_secs_f64 (f64_mul (as_secs_f64 (Z.max (latest_rtt r) (smoothed_rtt r)))
                             TIME_THRESHOLD_MULTIPLIER);
  Ok (Z.max d (from_millis 1)).

(** One packet below the largest acknowledged number.  [now.checked_sub] always
    has a result: an [Instant] ranges over signed 64-bit seconds. *)
Definition detect_one (largest delay now : Z) (acc : list SentPacket * SpaceState)
    (e : Z * SentPacket) : list SentPacket * SpaceState :=
  let '(lost, s) := acc in
  let '(pn, pkt) := e in
  if (PACKET_THRESHOLD <=? largest - pn) || (sp_time_sent pkt <=? now - delay) then
    (lost ++ [pkt], set_sent_packets (delete pn (sent_packets s)) s)
  else
    let t := sp_time_sent pkt + delay in
    (lost, match loss_time s with
           | Some existing => if existing <=? t then s else set_loss_time (Some t) s
           | None => set_loss_time (Some t) s
           end).

Definition detect_lost_packets (l : LossDetection) (sp : PacketNumberSpace) (now : Z)
    : qres (list SentPacket * LossDetection) :=
  let s := spaces l sp in
  match space_largest_acked s with
  | None => Ok ([], l)
  | Some largest =>
      delay ← loss_delay (ld_rtt l);
      let entries := filter (λ e, e.1 < largest) (sorted_entries (sent_packets s)) in
      let '(lost, s) := foldl (detect_one largest delay now) ([], set_loss_time None s) entries in
      Ok (lost, update_space sp s l)
  end.

Definition new_largest (s : SpaceState) (largest_acked : Z) : bool :=
  match space_largest_acked s with Some prev => prev <? largest_acked | None => true end.

Definition on_ack_received (l : LossDetection) (sp : PacketNumberSpace) (largest_acked ack_delay : Z)
    (ranges : list (Z * Z)) (now : Z) : qres (list SentPacket * list SentPacket * LossDetection) :=
  let s := spaces l sp in
  let is_new_largest := new_largest s largest_acked in
  let s := if is_new_largest then set_largest_acked (Some largest_acked) s else s in
  x ← foldM ack_range ([], sent_packets s) ranges;
  let '(newly_acked, m) := x in
  let times := foldl (λ ts p, if sp_ack_eliciting p then {[sp_time_sent p]} ∪ ts else ts)
                     (acked_ack_eliciting_times s) newly_acked in
  let s := set_acked_times times (set_sent_packets m s) in
  let rtt := if is_new_largest then
               match filter (λ p, sp_pn p = largest_acked) newly_acked with
               | p :: _ => rtt_update (ld_rtt l) (duration_since now (sp_time_sent p)) ack_delay
               | [] => ld_rtt l
               end
             else ld_rtt l in
  let l := {| spaces := per_space (spaces l) sp s; ld_rtt := rtt; pto_count := 0;
              max_ack_delay := max_ack_delay l |} in
  y ← detect_lost_packets l sp now;
  let '(lost, l) := y in
  Ok (newly_acked, lost, l).

(** *** Timers *)

Definition all_spaces : list PacketNumberSpace :=
  [SpaceInitial; SpaceHandshake; SpaceApplicationData].

Definition min_instant (ts : list Z) : option Z :=
  match ts with [] => None | t :: ts => Some (foldl Z.min t ts) end.

Definition earliest_loss_time (l : LossDetection) : option Z :=
  min_instant (omap (λ sp, loss_time (spaces l sp)) all_spaces).

Definition has_unacked (l : LossDetection) (sp : PacketNumberSpace) : bool :=
  negb (bool_decide (sent_packets (spaces l sp) = ∅)).

Definition pto_backoff (l : LossDetection) : Z := Z.shiftl 1 (Z.min (pto_count l) 30).

Definition pto_timeout_for_space (l : LossDetection) (sp : PacketNumberSpace) : Z :=
  (rtt_pto (ld_rtt l) + match sp with SpaceApplicationData => max_ack_delay l | _ => 0 end)
  * pto_backoff l.

Definition pto_deadline (l : LossDetection) : option Z :=
  min_instant (omap (λ sp,
    if has_unacked l sp
    then (λ sent_at, sent_at + pto_timeout_for_space l sp)
         <$> time_of_last_ack_eliciting (spaces l sp)
    else None) all_spaces).

Definition pto_timeout (l : LossDetection) : Z :=
  (rtt_pto (ld_rtt l) + if has_unacked l SpaceApplicationData then max_ack_delay l else 0)
  * pto_backoff l.

Definition on_pto_timeout (l : LossDetection) : qres LossDetection :=
  n ← add_u32 (pto_count l) 1;
  Ok {| spaces := spaces l; ld_rtt := ld_rtt l; pto_count := n; max_ack_delay := max_ack_delay l |}.

(** *** Persistent congestion *)

Definition persistent_congestion_duration (l : LossDetection) (sp : PacketNumberSpace) : Z :=
  (rtt_pto (ld_rtt l) + match sp with SpaceApplicationData => max_ack_delay l | _ => 0 end)
  * PERSISTENT_CONGESTION_THRESHOLD.

Definition sent_within (start stop : Z) (p : SentPacket) : bool :=
  sp_ack_eliciting p && (start <=? sp_time_sent p) && (sp_time_sent p <=? stop).

Definition detects_persistent_congestion (l : LossDetection) (sp : PacketNumberSpace)
    (acked lost : list SentPacket) : bool :=
  match filter (λ p, sp_ack_eliciting p = true) lost with
  | [] => false
  | first :: rest =>
      let start := foldl (λ t p, Z.min t (sp_time_sent p)) (sp_time_sent first) rest in
      let stop := foldl (λ t p, Z.max t (sp_time_sent p)) (sp_time_sent first) rest in
      let s := spaces l sp in
      if duration_since stop start <? persistent_congestion_duration l sp then false
      else if existsb (sent_within start stop) acked then false
      else if existsb (λ t, (start <=? t) && (t <=? stop)) (elements (acked_ack_eliciting_times s))
      then false
      else negb (existsb (sent_within start stop) (map_to_list (sent_packets s)).*2)
  end.

Definition prune_acknowledged_ack_eliciting_times (l : LossDetection) (sp : PacketNumberSpace)
    : LossDetection :=
  let s := spaces l sp in
  let outstanding := filter (λ p, sp_ack_eliciting p = true) (map_to_list (sent_packets s)).*2 in
  let times := match min_instant (sp_time_sent <$> outstanding) with
               | None => ∅
               | Some oldest => filter (λ t, oldest <= t) (acked_ack_eliciting_times s)
               end in
  update_space sp (set_acked_times times s) l.

(** *** Other operations *)

Definition largest_acked (l : LossDetection) (sp : PacketNumberSpace) : option Z :=
  space_largest_acked (spaces l sp).

Definition remove_sent_packet (l : LossDetection) (sp : PacketNumberSpace) (pn : Z)
    : option SentPacket * LossDetection :=
  let s := spaces l sp in
  (sent_packets s !! pn, update_space sp (set_sent_packets (delete pn (sent_packets s)) s) l).

Definition take_sent_packets (l : LossDetection) (sp : PacketNumberSpace)
    : list SentPacket * LossDetection :=
  let s := spaces l sp in
  ((sorted_entries (sent_packets s)).*2, update_space sp (set_sent_packets ∅ s) l).
