(* ===== verification/ConnRecovery.v ===== *)
(** * The connection's use of loss recovery (starfish-quic/src/connection.rs)

    The fields of [QuicConnection] that sending and acknowledging packets work
    on, for any congestion controller: the accounting of sent datagrams, the
    ACK arm of [process_frame_from] with the validation of ECN feedback, path
    MTU probes, probe timeouts, and the places that give up sent packets. *)

From S2P Require Import Prelude QuicError Varint Frame Packet TransportParams KeyUpdate Streams.
From S2P Require Import StreamIo AckTracking Recovery.

Definition MAX_DATAGRAM_SIZE : Z := 1472.
Definition MAX_LOCAL_UDP_PAYLOAD_SIZE : Z := DEFAULT_MAX_UDP_PAYLOAD_SIZE.
Definition PACKET_OVERHEAD : Z := 100.

(** ** Path MTU discovery: the state *)

Record PathMtuProbe := {
  probe_pn : Z;
  probe_size : Z;
  probe_sent_at : Z;
}.

Record PathMtuState := {
  peer_max_udp_payload_size : Z;
  local_max_udp_payload_size : Z;
  probe_upper_bound : Z;
  in_flight_probe : option PathMtuProbe;
  next_probe_at : option Z;
}.

Definition path_mtu_new : PathMtuState := {|
  peer_max_udp_payload_size := MAX_DATAGRAM_SIZE;
  local_max_udp_payload_size := MAX_LOCAL_UDP_PAYLOAD_SIZE;
  probe_upper_bound := MAX_LOCAL_UDP_PAYLOAD_SIZE;
  in_flight_probe := None; next_probe_at := None |}.

Definition search_limit (p : PathMtuState) : Z :=
  Z.min (Z.min (local_max_udp_payload_size p) (peer_max_udp_payload_size p)) (probe_upper_bound p).

Definition set_probe (probe : option PathMtuProbe) (p : PathMtuState) : PathMtuState := {|
  peer_max_udp_payload_size := peer_max_udp_payload_size p;
  local_max_udp_payload_size := local_max_udp_payload_size p;
  probe_upper_bound := probe_upper_bound p; in_flight_probe := probe;
  next_probe_at := next_probe_at p |}.
Definition set_next_probe_at (t : option Z) (p : PathMtuState) : PathMtuState := {|
  peer_max_udp_payload_size := peer_max_udp_payload_size p;
  local_max_udp_payload_size := local_max_udp_payload_size p;
  probe_upper_bound := probe_upper_bound p; in_flight_probe := in_flight_probe p;
  next_probe_at := t |}.
Definition set_upper_bound (n : Z) (p : PathMtuState) : PathMtuState := {|
  peer_max_udp_payload_size := peer_max_udp_payload_size p;
  local_max_udp_payload_size := local_max_udp_payload_size p;
  probe_upper_bound := n; in_flight_probe := in_flight_probe p;
  next_probe_at := next_probe_at p |}.

(** ** Packets as they leave [build_packet_to_addr] *)

Record BuiltPacket := {
  bp_space : PacketNumberSpace;
  bp_pn : Z;
  bp_frames : list Frame;
  bp_bytes : bytes;
  bp_ack_eliciting : bool;
  bp_track_retransmission : bool;
  bp_congestion_controlled : bool;
  bp_app_kind : option ApplicationPacketKind;
}.

(** Only CONNECTION_CLOSE frames. *)
Definition is_close_only (frames : list Frame) : bool :=
  negb (bool_decide (length frames = 0%nat)) &&
  forallb (λ f, match f with ConnectionClose _ _ _ _ => true | _ => false end) frames.

Section Recovery.
Context {C : Type} `{CongestionController C}.

Record Recovery := {
  rc_loss : LossDetection;
  rc_cc : C;
  rc_io : StreamIo;
  rc_sent_frames : PacketNumberSpace → gmap Z (list Frame);
  rc_zero_rtt_in_flight : gset Z;
  rc_outbound_ecn_enabled : bool;
  rc_peer_ack_ecn : PacketNumberSpace → option EcnCounts;
  rc_sent_ecn : PacketNumberSpace → EcnCounts;
  rc_path_mtu : PathMtuState;
  rc_max_send_udp : Z;
}.

Definition with_loss (x : LossDetection) (r : Recovery) : Recovery := {|
  rc_loss := x; rc_cc := rc_cc r; rc_io := rc_io r; rc_sent_frames := rc_sent_frames r;
  rc_zero_rtt_in_flight := rc_zero_rtt_in_flight r;
  rc_outbound_ecn_enabled := rc_outbound_ecn_enabled r; rc_peer_ack_ecn := rc_peer_ack_ecn r;
  rc_sent_ecn := rc_sent_ecn r; rc_path_mtu := rc_path_mtu r;
  rc_max_send_udp := rc_max_send_udp r |}.
Definition with_cc (x : C) (r : Recovery) : Recovery := {|
  rc_loss := rc_loss r; rc_cc := x; rc_io := rc_io r; rc_sent_frames := rc_sent_frames r;
  rc_zero_rtt_in_flight := rc_zero_rtt_in_flight r;
  rc_outbound_ecn_enabled := rc_outbound_ecn_enabled r; rc_peer_ack_ecn := rc_peer_ack_ecn r;
  rc_sent_ecn := rc_sent_ecn r; rc_path_mtu := rc_path_mtu r;
  rc_max_send_udp := rc_max_send_udp r |}.
Definition with_io (x : StreamIo) (r : Recovery) : Recovery := {|
  rc_loss := rc_loss r; rc_cc := rc_cc r; rc_io := x; rc_sent_frames := rc_sent_frames r;
  rc_zero_rtt_in_flight := rc_zero_rtt_in_flight r;
  rc_outbound_ecn_enabled := rc_outbound_ecn_enabled r; rc_peer_ack_ecn := rc_peer_ack_ecn r;
  rc_sent_ecn := rc_sent_ecn r; rc_path_mtu := rc_path_mtu r;
  rc_max_send_udp := rc_max_send_udp r |}.
Definition with_sent_frames (x : PacketNumberSpace → gmap Z (list Frame)) (r : Recovery) : Recovery := {|
  rc_loss := rc_loss r; rc_cc := rc_cc r; rc_io := rc_io r; rc_sent_frames := x;
  rc_zero_rtt_in_flight := rc_zero_rtt_in_flight r;
  rc_outbound_ecn_enabled := rc_outbound_ecn_enabled r; rc_peer_ack_ecn := rc_peer_ack_ecn r;
  rc_sent_ecn := rc_sent_ecn r; rc_path_mtu := rc_path_mtu r;
  rc_max_send_udp := rc_max_send_udp r |}.
Definition with_zero_rtt (x : gset Z) (r : Recovery) : Recovery := {|
  rc_loss := rc_loss r; rc_cc := rc_cc r; rc_io := rc_io r; rc_sent_frames := rc_sent_frames r;
  rc_zero_rtt_in_flight := x; rc_outbound_ecn_enabled := rc_outbound_ecn_enabled r;
  rc_peer_ack_ecn := rc_peer_ack_ecn r; rc_sent_ecn := rc_sent_ecn r;
  rc_path_mtu := rc_path_mtu r; rc_max_send_udp := rc_max_send_udp r |}.
Definition with_ecn_enabled (x : bool) (r : Recovery) : Recovery := {|
  rc_loss := rc_loss r; rc_cc := rc_cc r; rc_io := rc_io r; rc_sent_frames := rc_sent_frames r;
  rc_zero_rtt_in_flight := rc_zero_rtt_in_flight r; rc_outbound_ecn_enabled := x;
  rc_peer_ack_ecn := rc_peer_ack_ecn r; rc_sent_ecn := rc_sent_ecn r;
  rc_path_mtu := rc_path_mtu r; rc_max_send_udp := rc_max_send_udp r |}.
Definition with_peer_ecn (x : PacketNumberSpace → option EcnCounts) (r : Recovery) : Recovery := {|
  rc_loss := rc_loss r; rc_cc := rc_cc r; rc_io := rc_io r; rc_sent_frames := rc_sent_frames r;
  rc_zero_rtt_in_flight := rc_zero_rtt_in_flight r;
  rc_outbound_ecn_enabled := rc_outbound_ecn_enabled r; rc_peer_ack_ecn := x;
  rc_sent_ecn := rc_sent_ecn r; rc_path_mtu := rc_path_mtu r;
  rc_max_send_udp := rc_max_send_udp r |}.
Definition with_sent_ecn (x : PacketNumberSpace → EcnCounts) (r : Recovery) : Recovery := {|
  rc_loss := rc_loss r; rc_cc := rc_cc r; rc_io := rc_io r; rc_sent_frames := rc_sent_frames r;
  rc_zero_rtt_in_flight := rc_zero_rtt_in_flight r;
  rc_outbound_ecn_enabled := rc_outbound_ecn_enabled r; rc_peer_ack_ecn := rc_peer_ack_ecn r;
  rc_sent_ecn := x; rc_path_mtu := rc_path_mtu r; rc_max_send_udp := rc_max_send_udp r |}.
Definition with_mtu (x : PathMtuState) (r : Recovery) : Recovery := {|
  rc_loss := rc_loss r; rc_cc := rc_cc r; rc_io := rc_io r; rc_sent_frames := rc_sent_frames r;
  rc_zero_rtt_in_flight := rc_zero_rtt_in_flight r;
  rc_outbound_ecn_enabled := rc_outbound_ecn_enabled r; rc_peer_ack_ecn := rc_peer_ack_ecn r;
  rc_sent_ecn := rc_sent_ecn r; rc_path_mtu := x; rc_max_send_udp := rc_max_send_udp r |}.
Definition with_max_send (x : Z) (r : Recovery) : Recovery := {|
  rc_loss := rc_loss r; rc_cc := rc_cc r; rc_io := rc_io r; rc_sent_frames := rc_sent_frames r;
  rc_zero_rtt_in_flight := rc_zero_rtt_in_flight r;
  rc_outbound_ecn_enabled := rc_outbound_ecn_enabled r; rc_peer_ack_ecn := rc_peer_ack_ecn r;
  rc_sent_ecn := rc_sent_ecn r; rc_path_mtu := rc_path_mtu r; rc_max_send_udp := x |}.

(** Bytes of a packet that is given up leave the count of bytes in flight. *)
Definition discard_bytes (r : Recovery) (p : SentPacket) : Recovery :=
  with_cc (on_packet_discarded (rc_cc r) (sp_size p)) r.

Definition push_pending (sp : PacketNumberSpace) (f : Frame) (r : Recovery) : Recovery :=
  with_io {| io_streams := io_streams (rc_io r); io_flow := io_flow (rc_io r);
             io_pending := io_pending (rc_io r) ++ [(sp, f)] |} r.

Definition requeue (sp : PacketNumberSpace) (frames : list Frame) (r : Recovery) : Recovery :=
  foldl (λ r f, push_pending sp f r) r (filter (λ f, is_retransmittable f = true) frames).

(** [self.sent_frames[space].remove(&pn)] *)
Definition forget_frames (sp : PacketNumberSpace) (pn : Z) (r : Recovery) : Recovery :=
  with_sent_frames (per_space (rc_sent_frames r) sp (delete pn (rc_sent_frames r sp))) r.

(** ** Sending *)

(** The gate of [build_packet_to_addr]: whether the congestion controller lets
    a packet of these frames out. *)
Definition congestion_gate (r : Recovery) (frames : list Frame)
    (payload_len tag_len pending_datagram_bytes : Z) : qres bool :=
  if negb (is_close_only frames) && existsb is_ack_eliciting frames
  then can_send (rc_cc r) (payload_len + PACKET_OVERHEAD + tag_len + pending_datagram_bytes)
  else Ok true.

(** The packet the rest of [build_packet_to_addr] returns for these frames. *)
Definition built_packet (sp : PacketNumberSpace) (pn : Z) (frames : list Frame) (data : bytes)
    (track_retransmission : bool) (app_kind : option ApplicationPacketKind) : BuiltPacket := {|
  bp_space := sp; bp_pn := pn; bp_frames := frames; bp_bytes := data;
  bp_ack_eliciting := existsb is_ack_eliciting frames;
  bp_track_retransmission := track_retransmission;
  bp_congestion_controlled := negb (is_close_only frames); bp_app_kind := app_kind |}.

Definition count_sent_ecn (e : option UdpEcnCodepoint) (c : EcnCounts) : EcnCounts :=
  match e with
  | Some Ect0 => {| ect0 := saturating_add_u64 (ect0 c) 1; ect1 := ect1 c; ce := ce c |}
  | Some Ect1 => {| ect0 := ect0 c; ect1 := saturating_add_u64 (ect1 c) 1; ce := ce c |}
  | _ => c
  end.

(** One packet of a datagram that was handed to the socket. *)
Definition record_sent (e : option UdpEcnCodepoint) (now : Z) (r : Recovery) (p : BuiltPacket)
    : qres Recovery :=
  let sp := bp_space p in
  let r := if bp_ack_eliciting p
           then with_sent_ecn (per_space (rc_sent_ecn r) sp (count_sent_ecn e (rc_sent_ecn r sp))) r
           else r in
  let r :=
    if bp_track_retransmission p then
      let r := with_sent_frames
                 (per_space (rc_sent_frames r) sp (<[bp_pn p := bp_frames p]> (rc_sent_frames r sp))) r in
      let r := with_loss (ld_on_packet_sent (rc_loss r) {|
                 sp_pn := bp_pn p; sp_space := sp; sp_time_sent := now; sp_size := len (bp_bytes p);
                 sp_ack_eliciting := bp_ack_eliciting p; sp_ecn_marking := e |}) r in
      match bp_app_kind p with
      | Some AppZeroRtt => with_zero_rtt ({[bp_pn p]} ∪ rc_zero_rtt_in_flight r) r
      | _ => r
      end
    else r in
  if bp_congestion_controlled p then
    c ← on_packet_sent (rc_cc r) (len (bp_bytes p)) now; Ok (with_cc c r)
  else Ok r.

Definition datagram_ecn (r : Recovery) (packets : list BuiltPacket) : option UdpEcnCodepoint :=
  if rc_outbound_ecn_enabled r &&
     forallb (λ p, bool_decide (bp_space p = SpaceApplicationData)) packets
  then Some Ect0 else None.

(** [send_built_datagram_to_addr] once the socket took the datagram. *)
Definition send_built_datagram (r : Recovery) (datagram : bytes) (packets : list BuiltPacket)
    (now : Z) : qres Recovery :=
  match datagram with
  | [] => Ok r
  | _ => foldM (record_sent (datagram_ecn r packets) now) r packets
  end.

(** ** Path MTU probes *)

Definition path_mtu_probe_interval (r : Recovery) : Z :=
  Z.max (smoothed_rtt (ld_rtt (rc_loss r))) (from_millis 10).

Definition path_mtu_probe_timeout_deadline (r : Recovery) : option Z :=
  (λ probe, probe_sent_at probe + Z.max (pto_timeout (rc_loss r)) (path_mtu_probe_interval r))
  <$> in_flight_probe (rc_path_mtu r).

Definition next_path_mtu_probe_size (r : Recovery) : option Z :=
  let current := rc_max_send_udp r in
  let limit := search_limit (rc_path_mtu r) in
  if limit <=? current then None
  else
    let doubled := Z.min USIZE_MAX (current * 2) in
    let candidate := if limit <? doubled then current + (limit - current + 1) / 2 else doubled in
    if current <? candidate then Some (Z.min candidate limit) else None.

Definition schedule_next_path_mtu_probe (now : Z) (r : Recovery) : Recovery :=
  with_mtu (set_next_probe_at
              (match next_path_mtu_probe_size r with
               | Some _ => Some (now + path_mtu_probe_interval r)
               | None => None
               end) (rc_path_mtu r)) r.

Definition is_probe (r : Recovery) (pn : Z) : option PathMtuProbe :=
  match in_flight_probe (rc_path_mtu r) with
  | Some probe => if probe_pn probe =? pn then Some probe else None
  | None => None
  end.

Definition complete_path_mtu_probe_success (pn now : Z) (r : Recovery) : Recovery :=
  match is_probe r pn with
  | None => r
  | Some probe =>
      schedule_next_path_mtu_probe now
        (with_max_send (probe_size probe) (with_mtu (set_probe None (rc_path_mtu r)) r))
  end.

(** Stop tracking one packet of the application space and account for it. *)
Definition drop_sent_packet (account : Recovery → SentPacket → qres Recovery) (pn : Z)
    (r : Recovery) : qres Recovery :=
  let '(pkt, l) := remove_sent_packet (rc_loss r) SpaceApplicationData pn in
  let r := with_loss l r in
  match pkt with Some p => account r p | None => Ok r end.

Definition abandon_path_mtu_probe (pn : Z) (r : Recovery) : qres Recovery :=
  match is_probe r pn with
  | None => Ok r
  | Some _ =>
      let r := forget_frames SpaceApplicationData pn
                 (with_mtu (set_probe None (rc_path_mtu r)) r) in
      drop_sent_packet (λ r p, Ok (discard_bytes r p)) pn r
  end.

Definition lose_bytes (now : Z) (r : Recovery) (p : SentPacket) : qres Recovery :=
  c ← on_loss (rc_cc r) (sp_size p) (sp_time_sent p) now; Ok (with_cc c r).

Definition complete_path_mtu_probe_failure (pn now : Z) (r : Recovery) : qres Recovery :=
  match is_probe r pn with
  | None => Ok r
  | Some probe =>
      let r := forget_frames SpaceApplicationData pn
                 (with_mtu (set_probe None (rc_path_mtu r)) r) in
      r ← drop_sent_packet (lose_bytes now) pn r;
      let bound := Z.min (probe_upper_bound (rc_path_mtu r)) (saturating_sub (probe_size probe) 1) in
      Ok (schedule_next_path_mtu_probe now (with_mtu (set_upper_bound bound (rc_path_mtu r)) r))
  end.

Definition handle_path_mtu_probe_timeout (now : Z) (r : Recovery) : qres Recovery :=
  match path_mtu_probe_timeout_deadline r, in_flight_probe (rc_path_mtu r) with
  | Some deadline, Some probe =>
      if now <? deadline then Ok r else complete_path_mtu_probe_failure (probe_pn probe) now r
  | _, _ => Ok r
  end.

(** ** Acknowledgements *)

Definition marked (m : UdpEcnCodepoint) (acked : list SentPacket) : Z :=
  len (filter (λ p, sp_ecn_marking p = Some m) acked).

(** The validated number of CE marks, and the state. *)
Definition validate_ack_ecn_and_count_ce (sp : PacketNumberSpace) (ack_ecn : option EcnCounts)
    (acked : list SentPacket) (is_new_largest : bool) (r : Recovery) : qres (Z * Recovery) :=
  if negb (rc_outbound_ecn_enabled r) then Ok (0, r)
  else
    newly_acked_ecn ← add_u64 (marked Ect0 acked) (marked Ect1 acked);
    match ack_ecn with
    | None => Ok (0, if (0 <? newly_acked_ecn) && is_new_largest then with_ecn_enabled false r else r)
    | Some e =>
        let no_signal := Ok (0, if is_new_largest then with_ecn_enabled false r else r) in
        let previous := default ecn_zero (rc_peer_ack_ecn r sp) in
        if (ect0 e <? ect0 previous) || (ect1 e <? ect1 previous) || (ce e <? ce previous)
        then no_signal
        else
          let sent := rc_sent_ecn r sp in
          d ← add_u64 (ect0 e - ect0 previous) (ect1 e - ect1 previous);
          d ← add_u64 d (ce e - ce previous);
          if ((ect0 sent <? ect0 e) || (ect1 sent <? ect1 e)) || (newly_acked_ecn <? d)
          then no_signal
          else Ok (ce e - ce previous,
                   with_peer_ecn (per_space (rc_peer_ack_ecn r) sp (Some e)) r)
    end.

Definition acknowledge_frames (frames : list Frame) (r : Recovery) : qres Recovery :=
  foldM (λ r f, match f with
                | Stream sf => x ← exec (acknowledge_stream_frame sf) (rc_io r); Ok (with_io x.2 r)
                | _ => Ok r
                end) r frames.

(** The body of the loop over the acknowledged packets; the first component
    counts the CE marks left to account for. *)
Definition packet_acked (sp : PacketNumberSpace) (rtt now : Z) (acc : Z * Recovery) (p : SentPacket)
    : qres (Z * Recovery) :=
  let '(ce_marked, r) := acc in
  let r := with_zero_rtt (rc_zero_rtt_in_flight r ∖ {[sp_pn p]}) r in
  let r := if bool_decide (sp_space p = SpaceApplicationData)
           then complete_path_mtu_probe_success (sp_pn p) now r else r in
  '(ce_marked, c) ←
    (if (0 <? ce_marked) && match sp_ecn_marking p with Some Ect0 | Some Ect1 => true | _ => false end
     then c ← on_ecn_ce (rc_cc r) (sp_size p) (sp_time_sent p) now; Ok (ce_marked - 1, c)
     else c ← on_ack (rc_cc r) (sp_size p) rtt (sp_time_sent p) now; Ok (ce_marked, c));
  let frames := default [] (rc_sent_frames r sp !! sp_pn p) in
  r ← acknowledge_frames frames (forget_frames sp (sp_pn p) (with_cc c r));
  Ok (ce_marked, r).

(** The body of the loop over the lost packets. *)
Definition packet_lost (sp : PacketNumberSpace) (now : Z) (r : Recovery) (p : SentPacket)
    : qres Recovery :=
  let r := with_zero_rtt (rc_zero_rtt_in_flight r ∖ {[sp_pn p]}) r in
  r ← (if bool_decide (sp_space p = SpaceApplicationData)
       then complete_path_mtu_probe_failure (sp_pn p) now r else Ok r);
  r ← lose_bytes now r p;
  let frames := default [] (rc_sent_frames r sp !! sp_pn p) in
  Ok (requeue sp frames (forget_frames sp (sp_pn p) r)).

(** [checked_shl] drops the bits that leave the word. *)
Definition scaled_ack_delay (delay exponent : Z) : Z :=
  Z.shiftl delay (Z.min exponent MAX_ACK_DELAY_EXPONENT) mod 2 ^ 64 * 1000.

Definition process_ack (peer_ack_delay_exponent : Z) (sp : PacketNumberSpace) (ack : AckFrame)
    (now : Z) (r : Recovery) : qres Recovery :=
  let previous_largest_acked := largest_acked (rc_loss r) sp in
  '(acked, lost, l) ←
    on_ack_received (rc_loss r) sp (largest_acknowledged ack)
      (scaled_ack_delay (ack_delay ack) peer_ack_delay_exponent)
      ((λ x, (range_start x, range_end x)) <$> ranges ack) now;
  let persistent_congestion := detects_persistent_congestion l sp acked lost in
  let l := prune_acknowledged_ack_eliciting_times l sp in
  let r := with_loss l r in
  let is_new_largest := match previous_largest_acked with
                        | Some previous => previous <? largest_acknowledged ack
                        | None => true
                        end in
  '(ce_marked, r) ← validate_ack_ecn_and_count_ce sp (ecn ack) acked is_new_largest r;
  '(_, r) ← foldM (packet_acked sp (latest_rtt (ld_rtt l)) now) (ce_marked, r) acked;
  r ← foldM (packet_lost sp now) r lost;
  Ok (if persistent_congestion then with_cc (on_persistent_congestion (rc_cc r)) r else r).

(** ** Probe timeouts *)

Definition queue_pto_probes_if_due (has_keys : PacketNumberSpace → bool) (now : Z) (r : Recovery)
    : qres (bool * Recovery) :=
  match pto_deadline (rc_loss r) with
  | None => Ok (false, r)
  | Some deadline =>
      if now <? deadline then Ok (false, r)
      else
        let due := filter (λ sp, has_keys sp && has_unacked (rc_loss r) sp = true) all_spaces in
        let r := foldl (λ r sp, push_pending sp Ping r) r due in
        if bool_decide (due = []) then Ok (false, r)
        else l ← on_pto_timeout (rc_loss r); Ok (true, with_loss l r)
  end.

(** ** Giving up packets *)

(** Every packet of a space is given up without counting as lost. *)
Definition discard_sent_packets (sp : PacketNumberSpace) (r : Recovery) : Recovery :=
  let '(pkts, l) := take_sent_packets (rc_loss r) sp in
  foldl discard_bytes (with_loss l r) pkts.

(** [process_deferred_key_discards] for one space, and the reset of the
    Handshake space when the client sees HANDSHAKE_DONE. *)
Definition discard_space (sp : PacketNumberSpace) (r : Recovery) : Recovery :=
  let r := discard_sent_packets sp r in
  let r := with_sent_frames (per_space (rc_sent_frames r) sp ∅) r in
  with_sent_ecn (per_space (rc_sent_ecn r) sp ecn_zero)
    (with_peer_ecn (per_space (rc_peer_ack_ecn r) sp None) r).

Definition requeue_zero_rtt_packet (r : Recovery) (pn : Z) : qres Recovery :=
  r ← drop_sent_packet (λ r p, Ok (discard_bytes r p)) pn r;
  let frames := default [] (rc_sent_frames r SpaceApplicationData !! pn) in
  let r := requeue SpaceApplicationData frames (forget_frames SpaceApplicationData pn r) in
  Ok (with_zero_rtt (rc_zero_rtt_in_flight r ∖ {[pn]}) r).

(** The packets of the set in the order of their numbers. *)
Definition requeue_zero_rtt_in_flight (r : Recovery) : qres Recovery :=
  foldM requeue_zero_rtt_packet r (merge_sort Z.le (elements (rc_zero_rtt_in_flight r))).

Definition requeue_all_frames (sp : PacketNumberSpace) (r : Recovery) : Recovery :=
  let frames := (sorted_entries (rc_sent_frames r sp)).*2 in
  foldl (λ r fs, requeue sp fs r) (with_sent_frames (per_space (rc_sent_frames r) sp ∅) r) frames.

Definition reset_path_recovery_after_validation (peer_max_ack_delay now : Z) (r : Recovery)
    : Recovery :=
  let peer_max := peer_max_udp_payload_size (rc_path_mtu r) in
  let r := foldl (λ r sp, requeue_all_frames sp (discard_sent_packets sp r)) r all_spaces in
  let r := with_loss (set_max_ack_delay peer_max_ack_delay loss_detection_new) r in
  let r := with_max_send MAX_DATAGRAM_SIZE (with_cc cc_new r) in
  let mtu := {| peer_max_udp_payload_size := peer_max;
                local_max_udp_payload_size := local_max_udp_payload_size path_mtu_new;
                probe_upper_bound := probe_upper_bound path_mtu_new;
                in_flight_probe := None; next_probe_at := None |} in
  let mtu := set_upper_bound (search_limit mtu) mtu in
  with_mtu (if MAX_DATAGRAM_SIZE <? search_limit mtu then set_next_probe_at (Some now) mtu else mtu) r.

End Recovery.
