(* ===== verification/RecoveryProps.v ===== *)
(** * Properties of loss detection and congestion control *)

From S2P Require Import Prelude QuicError Varint Frame Packet TransportParams AckTracking.
From S2P Require Import Recovery.

(** ** Sorted maps *)

Lemma sorted_entries_perm {A} (m : gmap Z A) : sorted_entries m ≡ₚ map_to_list m.
Proof. apply merge_sort_Permutation. Qed.

Lemma elem_sorted_entries {A} (m : gmap Z A) k a : (k, a) ∈ sorted_entries m ↔ m !! k = Some a.
Proof. by rewrite sorted_entries_perm, elem_of_map_to_list. Qed.

Lemma NoDup_sorted_entries {A} (m : gmap Z A) : NoDup (sorted_entries m).*1.
Proof. rewrite sorted_entries_perm. apply NoDup_fst_map_to_list. Qed.

Lemma NoDup_fst_filter {A} (P : Z * A → Prop) `{!∀ e, Decision (P e)} (m : gmap Z A) :
  NoDup (filter P (sorted_entries m)).*1.
Proof.
  apply NoDup_fmap_fst.
  - intros x y1 y2 [_ H1]%list_elem_of_filter [_ H2]%list_elem_of_filter.
    apply elem_sorted_entries in H1, H2. congruence.
  - apply NoDup_filter, (NoDup_fmap_1 fst), NoDup_sorted_entries.
Qed.

Lemma NoDup_filter_fmap {A B} (f : A → B) (P : A → Prop) `{!∀ a, Decision (P a)} l :
  NoDup (f <$> l) → NoDup (f <$> filter P l).
Proof.
  induction l as [|a l IH]; [done|]. rewrite filter_cons. intros [Ha Hl]%NoDup_cons.
  case_decide; [|by apply IH]. apply NoDup_cons. split; [|by apply IH].
  intros (b & Eb & [_ Hb]%list_elem_of_filter)%list_elem_of_fmap. apply Ha.
  apply list_elem_of_fmap. by exists b.
Qed.

(** Deleting the keys of a list. *)
Lemma lookup_foldl_delete {A} (ks : list Z) (m : gmap Z A) k :
  foldl (λ m k, delete k m) m ks !! k = if decide (k ∈ ks) then None else m !! k.
Proof.
  revert m; induction ks as [|j ks IH]; intros m; cbn [foldl].
  { by rewrite decide_False by apply not_elem_of_nil. }
  rewrite IH. destruct (decide (k ∈ ks)).
  - by rewrite decide_True by (by right).
  - destruct (decide (k = j)) as [->|Hn].
    + by rewrite lookup_delete_eq, decide_True by left.
    + rewrite lookup_delete_ne by done. rewrite decide_False; [done|]. by intros [?|?]%elem_of_cons.
Qed.

(** ** Tracked packets *)

(** The packets of a space are stored under their numbers. *)
Definition keyed (m : gmap Z SentPacket) : Prop := ∀ pn p, m !! pn = Some p → sp_pn p = pn.

Definition acked_by (rs : list (Z * Z)) (pn : Z) : Prop := Exists (λ r, r.1 ≤ pn ≤ r.2) rs.

#[export] Instance acked_by_dec rs pn : Decision (acked_by rs pn).
Proof. unfold acked_by. apply _. Defined.

(** The packet counts as lost: it is below the greatest acknowledged number by
    the packet threshold, or it was sent long enough ago. *)
Definition overdue (top delay now : Z) (p : SentPacket) : Prop :=
  sp_pn p < top ∧ (PACKET_THRESHOLD ≤ top - sp_pn p ∨ sp_time_sent p ≤ now - delay).

#[export] Instance overdue_dec top delay now p : Decision (overdue top delay now p).
Proof. unfold overdue. apply _. Defined.

Lemma elem_snd_filter (P : Z * SentPacket → Prop) `{!∀ e, Decision (P e)} m p :
  keyed m → p ∈ (filter P (sorted_entries m)).*2 ↔ m !! sp_pn p = Some p ∧ P (sp_pn p, p).
Proof.
  intros Hk. rewrite list_elem_of_fmap. split.
  - intros ([k q] & -> & [HP Hin]%list_elem_of_filter). apply elem_sorted_entries in Hin. cbn.
    by rewrite (Hk _ _ Hin).
  - intros [E HP]. exists (sp_pn p, p). split; [done|]. apply list_elem_of_filter. split; [done|].
    by apply elem_sorted_entries.
Qed.

Lemma elem_fst_filter {A} (P : Z * A → Prop) `{!∀ e, Decision (P e)} (m : gmap Z A) k :
  k ∈ (filter P (sorted_entries m)).*1 ↔ ∃ a, m !! k = Some a ∧ P (k, a).
Proof.
  rewrite list_elem_of_fmap. split.
  - intros ([k' a] & -> & [HP Hin]%list_elem_of_filter). apply elem_sorted_entries in Hin. by exists a.
  - intros (a & E & HP). exists (k, a). split; [done|]. apply list_elem_of_filter.
    by rewrite elem_sorted_entries.
Qed.

Lemma pn_of_entries m es : keyed m → es ⊆ sorted_entries m → sp_pn <$> es.*2 = es.*1.
Proof.
  intros Hk Hs. rewrite <- list_fmap_compose. apply list_fmap_ext. intros i [k p] E. cbn.
  apply Hk, elem_sorted_entries, Hs. by apply list_elem_of_lookup_2 in E.
Qed.

Lemma NoDup_snd_filter (P : Z * SentPacket → Prop) `{!∀ e, Decision (P e)} m :
  keyed m → NoDup (sp_pn <$> (filter P (sorted_entries m)).*2).
Proof.
  intros Hk. rewrite (pn_of_entries m) by (done || (intros e; by intros [_ ?]%list_elem_of_filter)).
  apply NoDup_fst_filter.
Qed.

(** ** Acknowledged ranges *)

Lemma keyed_subseteq m m' : keyed m → m' ⊆ m → keyed m'.
Proof. intros Hk Hs pn p E. by apply Hk, (lookup_weaken _ _ _ _ E). Qed.

Lemma acked_by_cons r rs pn : acked_by (r :: rs) pn ↔ r.1 ≤ pn ≤ r.2 ∨ acked_by rs pn.
Proof. apply Exists_cons. Qed.

Lemma ack_range_ok acked m r : r.1 ≤ r.2 →
  let es := filter (λ e, r.1 ≤ e.1 ≤ r.2) (sorted_entries m) in
  ack_range (acked, m) r = Ok (acked ++ es.*2, foldl (λ m pn, delete pn m) m es.*1).
Proof. intros Hr. unfold ack_range. by rewrite (proj2 (Z.ltb_ge _ _)). Qed.

(** What the loop over the ranges computes: the acknowledged packets leave the
    map, each exactly once. *)
Lemma ack_ranges_spec rs : Forall (λ r, r.1 ≤ r.2) rs → ∀ acked m, keyed m →
  ∃ acked' m', foldM ack_range (acked, m) rs = Ok (acked ++ acked', m') ∧
    (∀ p, p ∈ acked' ↔ m !! sp_pn p = Some p ∧ acked_by rs (sp_pn p)) ∧
    NoDup (sp_pn <$> acked') ∧
    (∀ pn, m' !! pn = if decide (acked_by rs pn) then None else m !! pn).
Proof.
  induction 1 as [|r rs Hr Hrs IH]; intros acked m Hk; cbn [foldM].
  { exists [], m. rewrite app_nil_r. split_and!; [done| |constructor|].
    - intros p. split; [by intros ?%not_elem_of_nil|]. by intros [_ ?%Exists_nil].
    - intros pn. rewrite decide_False; [done|]. by intros ?%Exists_nil. }
  rewrite (ack_range_ok acked m r Hr), bind_ok.
  set (es := filter _ _).
  set (m1 := foldl _ m _).
  assert (Hm1 : ∀ pn, m1 !! pn = if decide (r.1 ≤ pn ≤ r.2) then None else m !! pn).
  { intros pn. unfold m1. rewrite lookup_foldl_delete. destruct (decide (pn ∈ es.*1)) as [Hi|Hi].
    - apply elem_fst_filter in Hi as (p & _ & ?). by rewrite decide_True.
    - destruct (decide (r.1 ≤ pn ≤ r.2)); [|done]. destruct (m !! pn) as [p|] eqn:E; [|done].
      destruct Hi. apply elem_fst_filter. by exists p. }
  assert (Hsub : m1 ⊆ m).
  { apply map_subseteq_spec. intros pn p. rewrite Hm1. by case_decide. }
  destruct (IH (acked ++ es.*2) m1 (keyed_subseteq _ _ Hk Hsub)) as (acked' & m' & -> & Ha & Hn & Hm').
  exists (es.*2 ++ acked'), m'. rewrite app_assoc. split_and!; [done|..].
  - intros p. rewrite elem_of_app, Ha, Hm1. unfold es. rewrite elem_snd_filter by done. cbn.
    unfold acked_by. rewrite Exists_cons. case_decide; naive_solver.
  - rewrite fmap_app. apply NoDup_app. split_and!; [by apply NoDup_snd_filter| |done].
    intros pn (p & -> & Hp)%list_elem_of_fmap (q & Eq & Hq)%list_elem_of_fmap.
    unfold es in Hp. apply elem_snd_filter in Hp as [_ Hp]; [|done]. cbn in Hp.
    apply Ha in Hq as [Hq _]. rewrite Hm1, <- Eq, decide_True in Hq by done. done.
  - intros pn. rewrite Hm', Hm1. rewrite (decide_ext _ _ _ _ (acked_by_cons r rs pn)).
    destruct (decide (acked_by rs pn)), (decide (r.1 ≤ pn ≤ r.2)).
    all: rewrite ?decide_True by tauto; try done. by rewrite decide_False by tauto.
Qed.

(** ** Lost packets *)

Definition sooner (t : option Z) (t' : Z) : option Z :=
  Some (match t with Some e => Z.min e t' | None => t' end).

(** The loop over the packets below the greatest acknowledged number. *)
Lemma detect_fold top delay now es : ∀ lost s,
  (∀ pn p, (pn, p) ∈ es → sp_pn p = pn ∧ pn < top) →
  let dead := filter (overdue top delay now) es.*2 in
  let alive := filter (λ p, ¬ overdue top delay now p) es.*2 in
  ∃ s', foldl (detect_one top delay now) (lost, s) es = (lost ++ dead, s') ∧
    sent_packets s' = foldl (λ m pn, delete pn m) (sent_packets s) (sp_pn <$> dead) ∧
    loss_time s' = foldl (λ t p, sooner t (sp_time_sent p + delay)) (loss_time s) alive ∧
    space_largest_acked s' = space_largest_acked s ∧
    acked_ack_eliciting_times s' = acked_ack_eliciting_times s ∧
    time_of_last_ack_eliciting s' = time_of_last_ack_eliciting s.
Proof.
  induction es as [|[pn p] es IH]; intros lost s He; cbn zeta.
  { exists s. by rewrite app_nil_r. }
  destruct (He pn p ltac:(left)) as [Hpn Hlt].
  assert (He' : ∀ pn p, (pn, p) ∈ es → sp_pn p = pn ∧ pn < top) by (intros; apply He; by right).
  cbn [foldl fmap list_fmap snd]. rewrite (filter_cons (overdue _ _ _)), (filter_cons (λ p, ¬ _)).
  destruct (decide (overdue top delay now p)) as [Hd|Hd].
  - rewrite decide_False by (intros Hn; by apply Hn).
    replace (detect_one top delay now (lost, s) (pn, p))
      with (lost ++ [p], set_sent_packets (delete pn (sent_packets s)) s).
    2: { unfold detect_one. destruct Hd as [_ Hd]. rewrite Hpn in Hd. dif; [done|lia]. }
    destruct (IH (lost ++ [p]) (set_sent_packets (delete pn (sent_packets s)) s) He')
      as (s' & -> & E1 & E2 & E3 & E4 & E5).
    exists s'. rewrite <- app_assoc. cbn [fmap list_fmap foldl]. rewrite Hpn. done.
  - rewrite decide_True by done.
    replace (detect_one top delay now (lost, s) (pn, p))
      with (lost, set_loss_time (sooner (loss_time s) (sp_time_sent p + delay)) s).
    2: { unfold detect_one, overdue in *. rewrite Hpn in Hd. dif; [lia|]. unfold sooner.
         destruct (loss_time s) eqn:El; [|done]. dif; [|by rewrite Z.min_r by lia].
         rewrite Z.min_l by lia. destruct s; cbn in *; by subst. }
    destruct (IH lost (set_loss_time (sooner (loss_time s) (sp_time_sent p + delay)) s) He')
      as (s' & -> & E1 & E2 & E3 & E4 & E5).
    exists s'. done.
Qed.

(** The least time of a list, with the packet that has it. *)
Lemma sooner_min (f : SentPacket → Z) ps t :
  foldl (λ t p, sooner t (f p)) None ps = t ↔
  match t with
  | None => ps = []
  | Some t => (∃ p, p ∈ ps ∧ f p = t) ∧ ∀ p, p ∈ ps → t ≤ f p
  end.
Proof.
  assert (Hgen : ∀ ps a, ∃ t, foldl (λ t p, sooner t (f p)) (Some a) ps = Some t ∧
    (t = a ∨ ∃ p, p ∈ ps ∧ f p = t) ∧ t ≤ a ∧ ∀ p, p ∈ ps → t ≤ f p).
  { clear. induction ps as [|p ps IH]; intros a; cbn [foldl].
    { exists a. split_and!; [done|by left|lia|by intros p ?%not_elem_of_nil]. }
    change (sooner (Some a) (f p)) with (Some (Z.min a (f p))). destruct (IH (Z.min a (f p))) as (t & -> & H1 & H2 & H3). exists t.
    split_and!; [done| |lia|].
    - destruct H1 as [->|(q & Hq & <-)]; [|right; exists q; split; [by right|done]].
      destruct (Z.min_spec a (f p)) as [[_ ->]|[_ ->]]; [by left|]. right. exists p. by split; [left|].
    - intros q [->|Hq]%elem_of_cons; [lia|by apply H3]. }
  destruct ps as [|p ps]; cbn [foldl].
  { destruct t; split; try done. by intros [(p & ?%not_elem_of_nil & _) _]. }
  change (sooner None (f p)) with (Some (f p)). destruct (Hgen ps (f p)) as (u & -> & H1 & H2 & H3). split.
  - intros <-. split.
    + destruct H1 as [->|(q & Hq & <-)]; [exists p; by split; [left|]|exists q; by split; [right|]].
    + intros q [->|Hq]%elem_of_cons; [lia|by apply H3].
  - destruct t as [t|]; [|done]. intros [(q & Hq & <-) Hle]. f_equal.
    assert (u ≤ f q) by (apply elem_of_cons in Hq as [->|Hq]; [lia|by apply H3]).
    assert (f q ≤ u); [|lia]. destruct H1 as [->|(r & Hr & <-)]; apply Hle; [left|by right].
Qed.

(** The lost packets among those still tracked, and the loss timer. *)
Lemma detect_lost_spec l sp top d now :
  let m := sent_packets (spaces l sp) in
  keyed m → space_largest_acked (spaces l sp) = Some top → loss_delay (ld_rtt l) = Ok d →
  ∃ lost l', detect_lost_packets l sp now = Ok (lost, l') ∧
    let m' := sent_packets (spaces l' sp) in
    (∀ p, p ∈ lost ↔ m !! sp_pn p = Some p ∧ overdue top d now p) ∧
    NoDup (sp_pn <$> lost) ∧
    (∀ pn p, m' !! pn = Some p ↔ m !! pn = Some p ∧ ¬ overdue top d now p) ∧
    loss_time (spaces l' sp) =
      foldl (λ t p, sooner t (sp_time_sent p + d)) None
        (filter (λ p, ¬ overdue top d now p) (filter (λ e, e.1 < top) (sorted_entries m)).*2) ∧
    space_largest_acked (spaces l' sp) = Some top ∧
    acked_ack_eliciting_times (spaces l' sp) = acked_ack_eliciting_times (spaces l sp) ∧
    time_of_last_ack_eliciting (spaces l' sp) = time_of_last_ack_eliciting (spaces l sp) ∧
    (∀ sp', sp' ≠ sp → spaces l' sp' = spaces l sp') ∧
    ld_rtt l' = ld_rtt l ∧ pto_count l' = pto_count l ∧ max_ack_delay l' = max_ack_delay l.
Proof.
  intros m Hk Hl Hd. unfold detect_lost_packets. rewrite Hl, Hd. cbn [mbind result_bind].
  fold m. set (es := filter _ _).
  assert (He : ∀ pn p, (pn, p) ∈ es → sp_pn p = pn ∧ pn < top).
  { intros pn p [Hlt Hin]%list_elem_of_filter. apply elem_sorted_entries in Hin.
    by rewrite (Hk _ _ Hin). }
  destruct (detect_fold top d now es [] (set_loss_time None (spaces l sp)) He)
    as (s' & -> & E1 & E2 & E3 & E4 & E5).
  set (dead := filter (overdue top d now) es.*2) in *.
  assert (Hdead : ∀ p, p ∈ dead ↔ m !! sp_pn p = Some p ∧ overdue top d now p).
  { intros p. unfold dead, es. rewrite list_elem_of_filter, elem_snd_filter by done. cbn.
    unfold overdue. tauto. }
  eexists dead, _. split; [done|]. cbn [spaces update_space]. unfold per_space.
  rewrite decide_True by done. cbn zeta. split_and!; try done.
  - unfold dead. apply (NoDup_filter_fmap sp_pn), NoDup_snd_filter, Hk.
  - intros pn p. rewrite E1, lookup_foldl_delete. cbn [sent_packets set_loss_time]. fold m. split.
    + case_decide as Hn; [done|]. intros E. split; [done|]. intros Ho. destruct Hn.
      apply list_elem_of_fmap. exists p. rewrite Hdead, (Hk _ _ E). done.
    + intros [E Ho]. rewrite decide_False; [done|]. intros (q & -> & Hq)%list_elem_of_fmap.
      apply Hdead in Hq as [Hq ?]. congruence.
  - by rewrite E3.
  - intros sp' Hn. by rewrite decide_False.
Qed.

(** The loss timer the loop leaves is the earliest due time of the packets
    below [top] that stay. *)
Lemma loss_timer_earliest (m m' : gmap Z SentPacket) top d now t :
  keyed m → (∀ pn p, m' !! pn = Some p ↔ m !! pn = Some p ∧ ¬ overdue top d now p) →
  t = foldl (λ t p, sooner t (sp_time_sent p + d)) None
        (filter (λ p, ¬ overdue top d now p) (filter (λ e, e.1 < top) (sorted_entries m)).*2) →
  match t with
  | None => ∀ pn p, m' !! pn = Some p → top ≤ pn
  | Some t => (∃ pn p, m' !! pn = Some p ∧ pn < top ∧ sp_time_sent p + d = t) ∧
              (∀ pn p, m' !! pn = Some p → pn < top → t ≤ sp_time_sent p + d)
  end.
Proof.
  intros Hk Hm' Ht. set (alive := filter _ _) in Ht. symmetry in Ht. apply sooner_min in Ht.
  assert (Hin : ∀ pn p, m' !! pn = Some p → pn < top → p ∈ alive).
  { intros pn p E Hlt. apply Hm' in E as [E Ho]. apply list_elem_of_filter. split; [done|].
    apply elem_snd_filter; [done|]. by rewrite (Hk _ _ E). }
  destruct t as [t|].
  - destruct Ht as [(p & Hp & <-) Hle]. split; [|by eauto].
    apply list_elem_of_filter in Hp as [Ho Hp]. apply elem_snd_filter in Hp as [E Hlt]; [|done].
    exists (sp_pn p), p. by rewrite Hm'.
  - intros pn p E. destruct (Z.le_gt_cases top pn) as [|Hlt]; [done|].
    pose proof (Hin _ _ E Hlt) as H. rewrite Ht in H. by apply not_elem_of_nil in H.
Qed.

(** C15: an ACK frame with well-formed ranges splits the tracked packets of its
    space exactly in three: the packets in its ranges are acknowledged, each
    once; of the others those [PACKET_THRESHOLD] or more below the greatest
    acknowledged number, and those below it sent a loss delay ago, are lost,
    each once; the rest stays tracked, and the loss timer is the earliest time
    at which one of them below that number is due.  The delay is computed with
    the sample the frame gave, if its largest number is new and newly
    acknowledged; the other spaces are untouched. *)
Theorem loss_detection_exact l sp largest delay rs now :
  let m := sent_packets (spaces l sp) in
  let top := Z.max largest (default largest (space_largest_acked (spaces l sp))) in
  keyed m → Forall (λ r, r.1 ≤ r.2) rs →
  (∀ r, r = ld_rtt l ∨ (∃ p, m !! largest = Some p ∧
          r = rtt_update (ld_rtt l) (duration_since now (sp_time_sent p)) delay) →
        ∃ d, loss_delay r = Ok d) →
  ∃ acked lost l' d, on_ack_received l sp largest delay rs now = Ok (acked, lost, l') ∧
    let m' := sent_packets (spaces l' sp) in
    loss_delay (ld_rtt l') = Ok d ∧
    (∀ p, p ∈ acked ↔ m !! sp_pn p = Some p ∧ acked_by rs (sp_pn p)) ∧
    (∀ p, p ∈ lost ↔ m !! sp_pn p = Some p ∧ ¬ acked_by rs (sp_pn p) ∧ overdue top d now p) ∧
    (∀ pn p, m' !! pn = Some p ↔ m !! pn = Some p ∧ ¬ acked_by rs pn ∧ ¬ overdue top d now p) ∧
    NoDup (sp_pn <$> acked) ∧ NoDup (sp_pn <$> lost) ∧
    match loss_time (spaces l' sp) with
    | None => ∀ pn p, m' !! pn = Some p → top ≤ pn
    | Some t => (∃ pn p, m' !! pn = Some p ∧ pn < top ∧ sp_time_sent p + d = t) ∧
                (∀ pn p, m' !! pn = Some p → pn < top → t ≤ sp_time_sent p + d)
    end ∧
    space_largest_acked (spaces l' sp) = Some top ∧ pto_count l' = 0 ∧
    (∀ sp', sp' ≠ sp → spaces l' sp' = spaces l sp').
Proof.
  intros m top Hk Hrs Hd. unfold on_ack_received.
  set (s := if new_largest _ _ then _ else _).
  assert (Es : space_largest_acked s = Some top ∧ sent_packets s = m).
  { unfold s, new_largest, top. destruct (space_largest_acked (spaces l sp)) as [prev|] eqn:E; cbn.
    - dif; cbn; [by rewrite Z.max_l by lia|]. rewrite E. by rewrite Z.max_r by lia.
    - by rewrite Z.max_id. }
  destruct Es as [Ela Em]. rewrite Em.
  destruct (ack_ranges_spec rs Hrs [] m Hk) as (acked & m1 & -> & Ha & Hna & Hm1).
  cbn [mbind result_bind app]. set (times := foldl _ _ acked). set (r := if new_largest _ _ then _ else _).
  set (l1 := {| spaces := _ |}).
  destruct (Hd r) as [d Ed].
  { unfold r. destruct (new_largest _ _); [|by left].
    destruct (filter _ acked) as [|p ps] eqn:Ef; [by left|right].
    assert (Hp : p ∈ filter (λ p, sp_pn p = largest) acked) by (rewrite Ef; left).
    apply list_elem_of_filter in Hp as [<- Hp]. apply Ha in Hp as [Hp _]. by exists p. }
  assert (Hs1 : spaces l1 sp = set_acked_times times (set_sent_packets m1 s)).
  { unfold l1. cbn. unfold per_space. by rewrite decide_True. }
  destruct (detect_lost_spec l1 sp top d now) as (lost & l' & -> & Hl & Hnl & Hm' & Ht & Hla & _ & _ & Ho & Hr & Hp & _).
  { rewrite Hs1. apply (keyed_subseteq m); [done|]. apply map_subseteq_spec. intros pn p. cbn.
    rewrite Hm1. by case_decide. }
  { by rewrite Hs1. }
  { done. }
  rewrite Hs1 in Hl, Hm', Ht. cbn [sent_packets set_acked_times set_sent_packets] in Hl, Hm', Ht.
  exists acked, lost, l', d. split; [done|].
  assert (Hm1' : ∀ pn p, m1 !! pn = Some p ↔ m !! pn = Some p ∧ ¬ acked_by rs pn).
  { intros pn p. rewrite Hm1. case_decide; naive_solver. }
  cbn zeta. split_and!; try done.
  - by rewrite Hr.
  - intros p. rewrite Hl, Hm1'. tauto.
  - intros pn p. rewrite Hm', Hm1'. tauto.
  - eapply loss_timer_earliest; [|exact Hm'|exact Ht]. intros pn p E. by apply Hk, Hm1', E.
  - intros sp' Hn. rewrite Ho by done. unfold l1. cbn. unfold per_space. by rewrite decide_False.
Qed.

(** Five packets, a millisecond apart. *)
Definition sample_packet (pn : Z) : SentPacket := {|
  sp_pn := pn; sp_space := SpaceInitial; sp_time_sent := from_millis pn; sp_size := 1200;
  sp_ack_eliciting := true; sp_ecn_marking := None |}.
Definition sample_loss : LossDetection :=
  foldl ld_on_packet_sent loss_detection_new (sample_packet <$> [0; 1; 2; 3; 4]).

Lemma loss_detection_exact_witness :
  ∃ acked lost l', on_ack_received sample_loss SpaceInitial 4 0 [(4, 4)] (from_millis 24) =
    Ok (acked, lost, l') ∧ sample_packet 4 ∈ acked ∧ sample_packet 1 ∈ lost ∧
    sent_packets (spaces l' SpaceInitial) !! 2 = Some (sample_packet 2).
Proof.
  destruct (loss_detection_exact sample_loss SpaceInitial 4 0 [(4, 4)] (from_millis 24))
    as (acked & lost & l' & d & E & Ed & Ha & Hl & Hm & _).
  { intros pn p. change (sent_packets _) with (list_to_map ((λ n, (n, sample_packet n)) <$> [4; 3; 2; 1; 0]) : gmap Z SentPacket).
    intros H%elem_of_list_to_map_2. cbn in H. set_unfold in H.
    destruct H as [H|[H|[H|[H|[H|H]]]]]; [injection H as -> ->; done..|done]. }
  { repeat constructor; cbn; lia. }
  { intros r [->|(p & Hp & ->)]; [eexists; vm_compute; reflexivity|].
    change (sent_packets _ !! 4) with (Some (sample_packet 4)) in Hp. injection Hp as <-.
    eexists. vm_compute. reflexivity. }
  exists acked, lost, l'. split; [exact E|].
  assert (Htop : Z.max 4 (default 4 (space_largest_acked (spaces sample_loss SpaceInitial))) = 4)
    by reflexivity.
  assert (Hd : d = 22500000).
  { assert (E' : (λ r, match r with Ok (_, _, l') => loss_delay (ld_rtt l') | _ => Panic end)
      (on_ack_received sample_loss SpaceInitial 4 0 [(4, 4)] (from_millis 24)) = Ok 22500000)
      by (vm_compute; reflexivity).
    rewrite E in E'. congruence. }
  subst d. split_and!.
  - apply Ha. split; [reflexivity|]. left. cbn. lia.
  - apply Hl. split; [reflexivity|]. rewrite Htop. split; [|unfold overdue, PACKET_THRESHOLD; cbn; lia].
    intros H. apply acked_by_cons in H as [H|H%Exists_nil]; [cbn in H; lia|done].
  - apply Hm. split; [reflexivity|]. split.
    + intros H. apply acked_by_cons in H as [H|H%Exists_nil]; [cbn in H; lia|done].
    + rewrite Htop. unfold overdue, PACKET_THRESHOLD, sample_packet, from_millis. cbn. lia.
Defined.

(** ** Bytes in flight *)

(** Both controllers keep the laws of the interface. *)
#[export] Instance new_reno_laws : InFlightLaws NewReno.NewReno.
Proof.
  split; cbn; try done; unfold NewReno.reno_sent, NewReno.reno_ack, NewReno.reno_loss.
  - intros c n t c'. unfold add_u64. dif; [|done]. by intros [= <-].
  - intros c n r s t c'. unfold add_u64, mul_u64.
    repeat (dif; cbn; try done); by intros [= <-].
  - intros c n s t c'. dif; by intros [= <-].
  - intros c n s t c'. dif; by intros [= <-].
Qed.

Lemma cubic_laws cbrt powi3 :
  @InFlightLaws Cubic.Cubic (Cubic.cubic_controller cbrt powi3).
Proof.
  split; cbn; try done; unfold Cubic.cubic_sent, Cubic.cubic_ack, Cubic.cubic_loss,
    Cubic.enter_congestion_recovery.
  - intros c n t c'. unfold add_u64. dif; [|done]. by intros [= <-].
  - intros c n r s t c'. unfold add_u64, mul_u64, Cubic.checked_div.
    repeat (dif; cbn; try done); by intros [= <-].
  - intros c n s t c' [= <-]. by dif.
  - intros c n s t c' [= <-]. by dif.
Qed.

(** The window never falls below the minimum, whatever NewReno is told. *)
Lemma new_reno_window_min c :
  MINIMUM_WINDOW ≤ NewReno.cwnd c →
  (∀ n t c', NewReno.reno_sent c n t = Ok c' → NewReno.cwnd c' = NewReno.cwnd c) ∧
  (∀ n r s t c', 0 ≤ n → NewReno.reno_ack c n r s t = Ok c' → NewReno.cwnd c ≤ NewReno.cwnd c') ∧
  (∀ n s t c', NewReno.reno_loss c n s t = Ok c' → MINIMUM_WINDOW ≤ NewReno.cwnd c') ∧
  MINIMUM_WINDOW ≤ NewReno.cwnd (NewReno.reno_persistent c).
Proof.
  intros Hc. unfold NewReno.reno_sent, NewReno.reno_ack, NewReno.reno_loss, add_u64, mul_u64.
  split_and!.
  - intros n t c'. dif; [|done]. by intros [= <-].
  - intros n r s t c' Hn. repeat (dif; cbn; try done); intros [= <-]; cbn; try lia.
    pose proof (Z.div_pos (1200 * n) (NewReno.cwnd c)). unfold MINIMUM_WINDOW in *. lia.
  - intros n s t c'. dif; intros [= <-]; cbn; lia.
  - done.
Qed.

(** The bytes of the tracked packets of a space. *)
Definition size_sum (m : gmap Z SentPacket) : Z := map_fold (λ _ p n, sp_size p + n) 0 m.

Lemma size_sum_empty : size_sum ∅ = 0.
Proof. apply map_fold_empty. Qed.

Lemma size_sum_insert m pn p : m !! pn = None → size_sum (<[pn := p]> m) = sp_size p + size_sum m.
Proof. intros E. unfold size_sum. rewrite map_fold_insert_L; [done| |done]. intros; lia. Qed.

Lemma size_sum_delete m pn p : m !! pn = Some p → size_sum m = sp_size p + size_sum (delete pn m).
Proof.
  intros E. rewrite <- (insert_delete_id m pn p E) at 1. by rewrite size_sum_insert by apply lookup_delete_eq.
Qed.

Definition sizes (ps : list SentPacket) : Z := foldr (λ p n, sp_size p + n) 0 ps.

Lemma sizes_app ps qs : sizes (ps ++ qs) = sizes ps + sizes qs.
Proof. unfold sizes. induction ps as [|p ps IH]; cbn; [done|]. rewrite IH. lia. Qed.

(** Removing packets from a space removes their bytes. *)
Lemma size_sum_remove ps : ∀ m, NoDup (sp_pn <$> ps) → (∀ p, p ∈ ps → m !! sp_pn p = Some p) →
  size_sum m = sizes ps + size_sum (foldl (λ m k, delete k m) m (sp_pn <$> ps)).
Proof.
  induction ps as [|p ps IH]; intros m Hn Hin; cbn [sizes foldr fmap list_fmap foldl]; [done|].
  apply NoDup_cons in Hn as [Hp Hn]. rewrite (size_sum_delete m (sp_pn p) p) by (apply Hin; left).
  rewrite (IH (delete (sp_pn p) m)); [unfold sizes; lia|done|].
  intros q Hq. rewrite lookup_delete_ne; [apply Hin; by right|].
  intros Eq. apply Hp, list_elem_of_fmap. by exists q.
Qed.

Lemma size_sum_all m : keyed m → size_sum m = sizes (sorted_entries m).*2.
Proof.
  intros Hk. pose proof (pn_of_entries m (sorted_entries m) Hk) as Epn.
  rewrite (size_sum_remove (sorted_entries m).*2 m).
  - rewrite Epn by done. rewrite (map_eq (foldl _ m _) ∅); [rewrite size_sum_empty; lia|]. intros k.
    rewrite lookup_foldl_delete, lookup_empty. case_decide as Hk'; [done|].
    destruct (m !! k) as [p|] eqn:E; [|done]. destruct Hk'. apply list_elem_of_fmap. exists (k, p).
    by rewrite elem_sorted_entries.
  - rewrite Epn by done. apply NoDup_sorted_entries.
  - intros p ([k q] & -> & Hin%elem_sorted_entries)%list_elem_of_fmap. cbn. by rewrite (Hk _ _ Hin).
Qed.

(** ** What an ACK removes from the tracked packets *)

Definition removed (m m' : gmap Z SentPacket) (ps : list SentPacket) : Prop :=
  NoDup (sp_pn <$> ps) ∧ (∀ p, p ∈ ps → m !! sp_pn p = Some p) ∧
  (∀ pn, m' !! pn = if decide (pn ∈ sp_pn <$> ps) then None else m !! pn).

Lemma removed_sum m m' ps : removed m m' ps → size_sum m = sizes ps + size_sum m'.
Proof.
  intros (Hn & Hin & Hm'). rewrite (size_sum_remove ps m Hn Hin). f_equal. f_equal.
  apply map_eq. intros pn. by rewrite lookup_foldl_delete, Hm'.
Qed.

Lemma removed_subseteq m m' ps : removed m m' ps → m' ⊆ m.
Proof. intros (_ & _ & Hm'). apply map_subseteq_spec. intros pn p. rewrite Hm'. by case_decide. Qed.

Lemma removed_trans m1 m2 m3 ps qs : removed m1 m2 ps → removed m2 m3 qs → removed m1 m3 (ps ++ qs).
Proof.
  intros (Hn1 & Hi1 & H1) (Hn2 & Hi2 & H2). unfold removed. rewrite fmap_app. split_and!.
  - apply NoDup_app. split_and!; [done| |done]. intros pn Hp (q & -> & Hq)%list_elem_of_fmap.
    apply Hi2 in Hq. rewrite H1, decide_True in Hq by done. done.
  - intros p [Hp|Hp]%elem_of_app; [by apply Hi1|]. apply Hi2 in Hp. rewrite H1 in Hp. by case_decide.
  - intros pn. rewrite H2, H1. rewrite (decide_ext (pn ∈ _ ++ _) (pn ∈ sp_pn <$> ps ∨ pn ∈ sp_pn <$> qs))
      by apply elem_of_app.
    destruct (decide (pn ∈ sp_pn <$> qs)), (decide (pn ∈ sp_pn <$> ps)).
    all: rewrite ?decide_True by tauto; try done. by rewrite decide_False by tauto.
Qed.

Lemma foldM_ranges_ok rs : ∀ acc acc', foldM ack_range acc rs = Ok acc' → Forall (λ r, r.1 ≤ r.2) rs.
Proof.
  induction rs as [|r rs IH]; intros [a m] acc'; cbn [foldM]; [constructor|].
  intros (x & E & H)%bind_ok_inv. unfold ack_range in E. destruct (Z.ltb_spec r.2 r.1); [done|].
  constructor; [done|]. eapply IH, H.
Qed.

Lemma ranges_removed rs m acked m' : keyed m → foldM ack_range ([], m) rs = Ok (acked, m') →
  removed m m' acked.
Proof.
  intros Hk E. destruct (ack_ranges_spec rs (foldM_ranges_ok _ _ _ E) [] m Hk)
    as (acked' & m'' & E' & Ha & Hn & Hm). rewrite E' in E. injection E as <- <-.
  split_and!; [done|by intros p [? _]%Ha|]. intros pn. rewrite Hm.
  destruct (decide (acked_by rs pn)) as [Hb|Hb].
  - case_decide as Hi; [done|]. destruct (m !! pn) as [p|] eqn:E; [|done]. destruct Hi.
    apply list_elem_of_fmap. exists p. rewrite Ha, (Hk _ _ E). done.
  - rewrite decide_False; [done|]. by intros (p & -> & [_ ?]%Ha)%list_elem_of_fmap.
Qed.

Lemma detect_removed l sp now lost l' : keyed (sent_packets (spaces l sp)) →
  detect_lost_packets l sp now = Ok (lost, l') →
  removed (sent_packets (spaces l sp)) (sent_packets (spaces l' sp)) lost ∧
  ∀ sp', sp' ≠ sp → spaces l' sp' = spaces l sp'.
Proof.
  intros Hk E. destruct (space_largest_acked (spaces l sp)) as [top|] eqn:Et.
  2: { unfold detect_lost_packets in E. rewrite Et in E. injection E as <- <-.
       split; [|done]. split_and!; [constructor|by intros p ?%not_elem_of_nil|].
       intros pn. by rewrite decide_False by apply not_elem_of_nil. }
  destruct (loss_delay (ld_rtt l)) as [d| | |] eqn:Ed.
  2-4: unfold detect_lost_packets in E; rewrite Et, Ed in E; done.
  destruct (detect_lost_spec l sp top d now Hk Et Ed) as (lost' & l'' & E' & Hl & Hn & Hm & _ & _ & _ & _ & Ho & _).
  rewrite E' in E. injection E as <- <-. split; [|done].
  split_and!; [done|by intros p [? _]%Hl|]. intros pn.
  apply option_eq. intros p. rewrite Hm. case_decide as Hi.
  - split; [|done]. intros [E Ho']. apply list_elem_of_fmap in Hi as (q & -> & Hq).
    apply Hl in Hq as [Hq ?]. congruence.
  - split; [by intros []|]. intros E. split; [done|]. intros Hv. destruct Hi.
    apply list_elem_of_fmap. exists p. rewrite Hl, (Hk _ _ E). done.
Qed.

(** The packets an ACK reports are the ones it removes. *)
Lemma on_ack_removes l sp la delay rs now acked lost l' :
  keyed (sent_packets (spaces l sp)) →
  on_ack_received l sp la delay rs now = Ok (acked, lost, l') →
  removed (sent_packets (spaces l sp)) (sent_packets (spaces l' sp)) (acked ++ lost) ∧
  ∀ sp', sp' ≠ sp → spaces l' sp' = spaces l sp'.
Proof.
  intros Hk. unfold on_ack_received.
  replace (sent_packets (if _ : bool then _ else _)) with (sent_packets (spaces l sp)) by by destruct (new_largest _ _).
  intros ([a m] & E1 & ([ls l2] & E2 & [= <- <- <-])%bind_ok_inv)%bind_ok_inv.
  apply ranges_removed in E1; [|done].
  match type of E2 with detect_lost_packets ?l1 _ _ = _ => set (l1' := l1) in E2 end.
  assert (Hs1 : sent_packets (spaces l1' sp) = m).
  { cbn. unfold per_space. by rewrite decide_True. }
  apply detect_removed in E2 as [H2 Ho].
  2: { rewrite Hs1. eapply keyed_subseteq; [exact Hk|]. by eapply removed_subseteq. }
  rewrite Hs1 in H2. split; [by eapply removed_trans|].
  intros sp' Hn. rewrite Ho by done. cbn. unfold per_space. by rewrite decide_False.
Qed.
