(* ===== verification/ConnRecoveryProps.v ===== *)
(** * Properties of the connection's loss recovery

    What the congestion controller's count of bytes in flight consists of, for
    every controller that keeps the laws of the interface. *)

From S2P Require Import Prelude QuicError Varint Frame Packet TransportParams KeyUpdate Streams.
From S2P Require Import FlowControl StreamIo AckTracking Recovery RecoveryProps ConnRecovery.

(** ** The tracked packets of a connection *)

(** Every tracked packet is stored in its space under its number. *)
Definition well_keyed (l : LossDetection) : Prop :=
  ∀ sp pn p, sent_packets (spaces l sp) !! pn = Some p →
    sp_pn p = pn ∧ sp_space p = sp ∧ 0 ≤ sp_size p.

Definition tracked (l : LossDetection) : Z :=
  size_sum (sent_packets (spaces l SpaceInitial)) +
  size_sum (sent_packets (spaces l SpaceHandshake)) +
  size_sum (sent_packets (spaces l SpaceApplicationData)).

Lemma well_keyed_keyed l sp : well_keyed l → keyed (sent_packets (spaces l sp)).
Proof. intros Hw pn p E. by apply (Hw sp). Qed.

Lemma size_sum_nonneg m : (∀ pn p, m !! pn = Some p → 0 ≤ sp_size p) → 0 ≤ size_sum m.
Proof.
  induction m as [|pn p m E IH] using map_ind; intros Hm; [by rewrite size_sum_empty|].
  rewrite size_sum_insert by done.
  assert (0 ≤ sp_size p) by (eapply Hm; apply lookup_insert_eq).
  assert (0 ≤ size_sum m); [|lia]. apply IH. intros pn' p' E'. eapply (Hm pn').
  rewrite lookup_insert_ne; [done|]. by intros ->; rewrite E in E'.
Qed.

Lemma tracked_nonneg l : well_keyed l → 0 ≤ tracked l.
Proof.
  intros Hw. unfold tracked.
  pose proof (size_sum_nonneg _ (λ pn p E, proj2 (proj2 (Hw SpaceInitial pn p E)))).
  pose proof (size_sum_nonneg _ (λ pn p E, proj2 (proj2 (Hw SpaceHandshake pn p E)))).
  pose proof (size_sum_nonneg _ (λ pn p E, proj2 (proj2 (Hw SpaceApplicationData pn p E)))). lia.
Qed.

(** The same packets are tracked. *)
Definition same_packets (l l' : LossDetection) : Prop :=
  ∀ sp, sent_packets (spaces l' sp) = sent_packets (spaces l sp).

Lemma same_packets_keyed l l' : same_packets l l' → well_keyed l → well_keyed l'.
Proof. intros Hs Hw sp pn p. rewrite Hs. apply Hw. Qed.

Lemma same_packets_tracked l l' : same_packets l l' → tracked l' = tracked l.
Proof. intros Hs. unfold tracked. by rewrite !Hs. Qed.

(** One space changed. *)
Lemma tracked_change l l' sp n :
  (∀ sp', sp' ≠ sp → sent_packets (spaces l' sp') = sent_packets (spaces l sp')) →
  size_sum (sent_packets (spaces l' sp)) = size_sum (sent_packets (spaces l sp)) + n →
  tracked l' = tracked l + n.
Proof.
  intros Ho Hs. unfold tracked.
  destruct sp;
    [rewrite (Ho SpaceHandshake), (Ho SpaceApplicationData) by done
    |rewrite (Ho SpaceInitial), (Ho SpaceApplicationData) by done
    |rewrite (Ho SpaceInitial), (Ho SpaceHandshake) by done]; lia.
Qed.

Lemma update_space_packets sp s l :
  sent_packets (spaces (update_space sp s l) sp) = sent_packets s ∧
  ∀ sp', sp' ≠ sp → sent_packets (spaces (update_space sp s l) sp') = sent_packets (spaces l sp').
Proof.
  cbn. unfold per_space. split; [by rewrite decide_True|]. intros sp' Hn. by rewrite decide_False.
Qed.

(** Removed packets leave the rest well keyed, and take their bytes. *)
Lemma removed_tracked l l' sp ps : well_keyed l →
  removed (sent_packets (spaces l sp)) (sent_packets (spaces l' sp)) ps →
  (∀ sp', sp' ≠ sp → sent_packets (spaces l' sp') = sent_packets (spaces l sp')) →
  well_keyed l' ∧ tracked l = tracked l' + sizes ps ∧ 0 ≤ sizes ps.
Proof.
  intros Hw Hr Ho. split_and!.
  - intros sp' pn p E. apply Hw. destruct (decide (sp' = sp)) as [->|Hn]; [|by rewrite <- Ho].
    by eapply lookup_weaken, removed_subseteq.
  - rewrite (tracked_change l l' sp (- sizes ps)); [lia|done|].
    rewrite (removed_sum _ _ _ Hr). lia.
  - destruct Hr as (_ & Hin & _). assert (Hp : Forall (λ p, 0 ≤ sp_size p) ps).
    { apply Forall_forall. intros p Hp. by apply (Hw sp (sp_pn p)), Hin. }
    clear -Hp. induction Hp; unfold sizes in *; cbn; lia.
Qed.

Section Accounting.
Context {C : Type} `{CongestionController C} `{!InFlightLaws C}.

(** ** Steps that leave loss detection and congestion control alone *)

Definition same_core (r r' : @Recovery C) : Prop := rc_loss r' = rc_loss r ∧ rc_cc r' = rc_cc r.

Lemma requeue_core sp fs (r : @Recovery C) : same_core r (requeue sp fs r).
Proof.
  unfold requeue. generalize (filter (λ f, is_retransmittable f = true) fs). intros l.
  revert r. induction l as [|f l IH]; intros r; [done|]. cbn [foldl].
  unfold same_core. destruct (IH (push_pending sp f r)) as [-> ->]. done.
Qed.

Lemma schedule_core now (r : @Recovery C) : same_core r (schedule_next_path_mtu_probe now r).
Proof. done. Qed.

Lemma probe_success_core pn now (r : @Recovery C) :
  same_core r (complete_path_mtu_probe_success pn now r).
Proof. unfold complete_path_mtu_probe_success. by destruct (is_probe r pn). Qed.

Lemma acknowledge_frames_core fs : ∀ (r r' : @Recovery C),
  acknowledge_frames fs r = Ok r' → same_core r r'.
Proof.
  induction fs as [|f fs IH]; intros r r'; cbn.
  { by intros [= <-]. }
  intros (r1 & E1 & E2)%bind_ok_inv. unfold same_core. destruct (IH _ _ E2) as [-> ->].
  destruct f; try (by injection E1 as <-). apply bind_ok_inv in E1 as (x & _ & [= <-]). done.
Qed.

Lemma validate_ecn_core sp e acked new (r r' : @Recovery C) n :
  validate_ack_ecn_and_count_ce sp e acked new r = Ok (n, r') → same_core r r'.
Proof.
  unfold validate_ack_ecn_and_count_ce. dif; [by intros [= _ <-]|].
  intros (a & _ & E)%bind_ok_inv. destruct e as [e|]; [|injection E as _ <-; by dif].
  destruct ((ect0 e <? _) || _ || _); [injection E as _ <-; by dif|].
  apply bind_ok_inv in E as (d & _ & (d' & _ & E)%bind_ok_inv).
  destruct ((_ || _) || _); injection E as _ <-; [by dif|done].
Qed.

(** ** Packets that are accounted for *)

(** Each acknowledged packet leaves the count of bytes in flight. *)
Lemma packet_acked_bytes sp rtt now n (r : @Recovery C) p n' r' :
  packet_acked sp rtt now (n, r) p = Ok (n', r') →
  rc_loss r' = rc_loss r ∧
  bytes_in_flight (rc_cc r') = saturating_sub (bytes_in_flight (rc_cc r)) (sp_size p).
Proof.
  unfold packet_acked. cbv zeta.
  set (r1 := if bool_decide _ then _ else _).
  assert (Hc : same_core r r1).
  { unfold r1. case_bool_decide; [|done]. unfold same_core.
    match goal with |- context [complete_path_mtu_probe_success ?pn ?t ?r0] =>
      destruct (probe_success_core pn t r0) as [-> ->] end. done. }
  destruct Hc as [Hl Hcc]. intros ([n1 c] & E1 & (r2 & E2 & [= _ <-])%bind_ok_inv)%bind_ok_inv.
  destruct (acknowledge_frames_core _ _ _ E2) as [-> ->]. cbn. split; [done|]. rewrite <- Hcc.
  destruct (_ && _); apply bind_ok_inv in E1 as (c' & E1 & [= _ <-]);
    [by eapply law_ecn|by eapply law_ack].
Qed.

Lemma packets_acked_bytes sp rtt now ps : ∀ n (r : @Recovery C) n' r',
  foldM (packet_acked sp rtt now) (n, r) ps = Ok (n', r') →
  Forall (λ p, 0 ≤ sp_size p) ps → sizes ps ≤ bytes_in_flight (rc_cc r) →
  rc_loss r' = rc_loss r ∧
  bytes_in_flight (rc_cc r') = bytes_in_flight (rc_cc r) - sizes ps.
Proof.
  induction ps as [|p ps IH]; intros n r n' r'; cbn [foldM].
  { intros [= _ <-] _ _. unfold sizes. cbn. split; [done|lia]. }
  intros ([n1 r1] & E1 & E2)%bind_ok_inv [Hp Hps]%Forall_cons. change (sizes (p :: ps)) with (sp_size p + sizes ps).
  intros Hs. assert (0 ≤ sizes ps) by (clear -Hps; induction Hps; unfold sizes in *; cbn; lia).
  destruct (packet_acked_bytes _ _ _ _ _ _ _ _ E1) as [Hl Hb]. unfold saturating_sub in Hb.
  destruct (IH _ _ _ _ E2 Hps) as [-> ->]; [lia|]. split; [done|lia].
Qed.

(** Giving up a packet that is not tracked changes nothing. *)
Lemma drop_untracked account pn (r r' : @Recovery C) :
  sent_packets (spaces (rc_loss r) SpaceApplicationData) !! pn = None →
  drop_sent_packet account pn r = Ok r' → same_packets (rc_loss r) (rc_loss r') ∧ rc_cc r' = rc_cc r.
Proof.
  intros En. unfold drop_sent_packet, remove_sent_packet. rewrite En. intros [= <-]. split; [|done].
  intros sp. cbn. unfold per_space. case_decide as Hsp; [|done]. subst. cbn. by rewrite delete_id.
Qed.

Lemma probe_failure_untracked pn now (r r' : @Recovery C) :
  sent_packets (spaces (rc_loss r) SpaceApplicationData) !! pn = None →
  complete_path_mtu_probe_failure pn now r = Ok r' →
  same_packets (rc_loss r) (rc_loss r') ∧ rc_cc r' = rc_cc r.
Proof.
  intros En. unfold complete_path_mtu_probe_failure. destruct (is_probe r pn); [|by intros [= <-]].
  intros (r1 & E1 & [= <-])%bind_ok_inv. by apply drop_untracked in E1.
Qed.

Lemma packet_lost_bytes sp now (r : @Recovery C) p r' :
  packet_lost sp now r p = Ok r' →
  sent_packets (spaces (rc_loss r) (sp_space p)) !! sp_pn p = None →
  same_packets (rc_loss r) (rc_loss r') ∧
  bytes_in_flight (rc_cc r') = saturating_sub (bytes_in_flight (rc_cc r)) (sp_size p).
Proof.
  unfold packet_lost. cbv zeta. intros (r1 & E1 & (r2 & E2 & [= <-])%bind_ok_inv)%bind_ok_inv Hn.
  assert (H1 : same_packets (rc_loss r) (rc_loss r1) ∧ rc_cc r1 = rc_cc r).
  { case_bool_decide as Hsp; [|by injection E1 as <-]. rewrite Hsp in Hn.
    by eapply probe_failure_untracked in E1. }
  destruct (requeue_core sp (default [] (rc_sent_frames r2 sp !! sp_pn p)) (forget_frames sp (sp_pn p) r2))
    as [-> ->]. cbn.
  unfold lose_bytes in E2. apply bind_ok_inv in E2 as (c & E2 & [= <-]). cbn.
  destruct H1 as [H1 H2]. split; [done|]. rewrite <- H2. by eapply law_loss.
Qed.

Lemma packets_lost_bytes sp now ps : ∀ (r : @Recovery C) r',
  foldM (packet_lost sp now) r ps = Ok r' →
  Forall (λ p, 0 ≤ sp_size p ∧ sent_packets (spaces (rc_loss r) (sp_space p)) !! sp_pn p = None) ps →
  sizes ps ≤ bytes_in_flight (rc_cc r) →
  same_packets (rc_loss r) (rc_loss r') ∧
  bytes_in_flight (rc_cc r') = bytes_in_flight (rc_cc r) - sizes ps.
Proof.
  induction ps as [|p ps IH]; intros r r'; cbn [foldM].
  { intros [= <-] _ _. unfold sizes. cbn. split; [done|lia]. }
  intros (r1 & E1 & E2)%bind_ok_inv [[Hp Hn] Hps]%Forall_cons.
  change (sizes (p :: ps)) with (sp_size p + sizes ps). intros Hs.
  assert (0 ≤ sizes ps).
  { clear -Hps. induction Hps as [|q ps [Hq _] _ IH]; unfold sizes in *; cbn; [done|lia]. }
  destruct (packet_lost_bytes _ _ _ _ _ E1 Hn) as [Hl Hb]. unfold saturating_sub in Hb.
  destruct (IH _ _ E2) as [Hs1 Hb1].
  { eapply Forall_impl; [exact Hps|]. cbn. intros q [? ?]. by rewrite Hl. }
  { lia. }
  split; [|lia]. intros sp'. by rewrite Hs1, Hl.
Qed.

(** ** The account *)

(** The bytes in flight are those of the tracked packets and [leak] more. *)
Definition acct (r : @Recovery C) (leak : Z) : Prop :=
  well_keyed (rc_loss r) ∧ bytes_in_flight (rc_cc r) = tracked (rc_loss r) + leak ∧ 0 ≤ leak.

Lemma acct_same (r r' : @Recovery C) leak :
  same_packets (rc_loss r) (rc_loss r') → bytes_in_flight (rc_cc r') = bytes_in_flight (rc_cc r) →
  acct r leak → acct r' leak.
Proof.
  intros Hs Hb (Hw & He & Hl). split_and!; [by eapply same_packets_keyed| |done].
  by rewrite Hb, He, (same_packets_tracked _ _ Hs).
Qed.

(** Bytes the controller counts although loss detection does not track their packet. *)
Definition untracked_size (p : BuiltPacket) : Z :=
  if bp_congestion_controlled p && negb (bp_track_retransmission p && bp_ack_eliciting p)
  then len (bp_bytes p) else 0.

Definition is_tracked (p : BuiltPacket) : bool := bp_track_retransmission p && bp_ack_eliciting p.

(** A packet as [build_packet_to_addr] makes it, with a number that is not in use. *)
Definition sendable (l : LossDetection) (p : BuiltPacket) : Prop :=
  (is_tracked p = true → bp_congestion_controlled p = true) ∧
  sent_packets (spaces l (bp_space p)) !! bp_pn p = None.

(** The entry of a packet in loss detection. *)
Definition entry (e : option UdpEcnCodepoint) (now : Z) (p : BuiltPacket) : SentPacket := {|
  sp_pn := bp_pn p; sp_space := bp_space p; sp_time_sent := now; sp_size := len (bp_bytes p);
  sp_ack_eliciting := bp_ack_eliciting p; sp_ecn_marking := e |}.

(** What one sent packet does to loss detection. *)
Lemma record_sent_loss e now (r r' : @Recovery C) p : record_sent e now r p = Ok r' →
  (∀ sp pn, sent_packets (spaces (rc_loss r') sp) !! pn =
     if decide (is_tracked p = true ∧ sp = bp_space p ∧ pn = bp_pn p)
     then Some (entry e now p)
     else sent_packets (spaces (rc_loss r) sp) !! pn) ∧
  bytes_in_flight (rc_cc r') =
    bytes_in_flight (rc_cc r) + (if bp_congestion_controlled p then len (bp_bytes p) else 0) ∧
  window (rc_cc r') = window (rc_cc r).
Proof.
  unfold record_sent. cbv zeta. intros E.
  match type of E with (if _ then c ← on_packet_sent (rc_cc ?r1) _ _; _ else _) = _ => set (r1' := r1) in E end.
  assert (H1 : rc_cc r1' = rc_cc r ∧ rc_loss r1' =
    if bp_track_retransmission p then ld_on_packet_sent (rc_loss r) (entry e now p) else rc_loss r).
  { unfold r1', entry. by destruct (bp_track_retransmission p), (bp_ack_eliciting p), (bp_app_kind p) as [[]|]. }
  destruct H1 as [Hc Hl].
  assert (H2 : rc_loss r' = rc_loss r1' ∧ bytes_in_flight (rc_cc r') = bytes_in_flight (rc_cc r1') +
    (if bp_congestion_controlled p then len (bp_bytes p) else 0) ∧ window (rc_cc r') = window (rc_cc r1')).
  { destruct (bp_congestion_controlled p).
    - apply bind_ok_inv in E as (c & E & [= <-]). cbn. split; [done|]. by eapply law_sent.
    - injection E as <-. split; [done|]. split; [lia|done]. }
  destruct H2 as (-> & -> & ->). rewrite Hc. split; [|done]. intros sp pn. rewrite Hl. unfold is_tracked.
  destruct (bp_track_retransmission p); cbn [andb]; [|by rewrite decide_False by (by intros [? _])].
  unfold ld_on_packet_sent. change (sp_ack_eliciting (entry e now p)) with (bp_ack_eliciting p).
  destruct (bp_ack_eliciting p); cbn [negb].
  2: { by rewrite decide_False by (by intros [? _]). }
  cbn. unfold per_space. destruct (decide (sp = bp_space p)) as [->|Hn]; cbn.
  - destruct (decide (pn = bp_pn p)) as [->|Hn].
    + by rewrite lookup_insert_eq, decide_True.
    + rewrite lookup_insert_ne by done. by rewrite decide_False by tauto.
  - by rewrite decide_False by tauto.
Qed.

Lemma record_sent_acct e now (r r' : @Recovery C) p leak : acct r leak → sendable (rc_loss r) p →
  record_sent e now r p = Ok r' → acct r' (leak + untracked_size p).
Proof.
  intros (Hw & He & Hl) [Hcc Hf] E. destruct (record_sent_loss _ _ _ _ _ E) as (Hs & Hb & _).
  pose proof (len_nonneg (bp_bytes p)). unfold acct, untracked_size, is_tracked in *. rewrite Hb, He.
  destruct (bp_track_retransmission p && bp_ack_eliciting p) eqn:Et; cbn [negb].
  - rewrite (Hcc eq_refl). cbn [andb].
    split_and!; [| |lia].
    + intros sp pn q. rewrite Hs. destruct (decide _) as [Hd|_]; [|apply Hw]. destruct Hd as [_ [-> ->]].
      intros [= <-]. cbn. split_and!; [done..|lia].
    + rewrite (tracked_change (rc_loss r) (rc_loss r') (bp_space p) (len (bp_bytes p))); [lia| |].
      * intros sp' Hn. apply map_eq. intros pn. rewrite Hs. by rewrite decide_False by tauto.
      * rewrite (map_eq (sent_packets (spaces (rc_loss r') (bp_space p)))
          (<[bp_pn p := entry e now p]> (sent_packets (spaces (rc_loss r) (bp_space p))))).
        2: { intros pn. rewrite Hs. destruct (decide (pn = bp_pn p)) as [->|Hn].
             - rewrite decide_True by done. symmetry. apply lookup_insert_eq.
             - rewrite decide_False by tauto. by rewrite lookup_insert_ne. }
        rewrite size_sum_insert by done. cbn. lia.
  - rewrite andb_true_r. eassert (Hsame : same_packets (rc_loss r) (rc_loss r')).
    { intros sp. apply map_eq. intros pn. rewrite Hs. by rewrite decide_False by (by intros [? _]). }
    split_and!; [by eapply same_packets_keyed| |destruct (bp_congestion_controlled p); lia].
    rewrite (same_packets_tracked _ _ Hsame). lia.
Qed.

(** Packets that leave loss detection and the count together. *)
Lemma acct_removed (r r' : @Recovery C) sp ps leak : acct r leak →
  removed (sent_packets (spaces (rc_loss r) sp)) (sent_packets (spaces (rc_loss r') sp)) ps →
  (∀ sp', sp' ≠ sp → sent_packets (spaces (rc_loss r') sp') = sent_packets (spaces (rc_loss r) sp')) →
  bytes_in_flight (rc_cc r') = bytes_in_flight (rc_cc r) - sizes ps → acct r' leak.
Proof.
  intros (Hw & He & Hl) Hr Ho Hb. destruct (removed_tracked _ _ _ _ Hw Hr Ho) as (Hw' & Ht & _).
  split_and!; [done|lia|done].
Qed.

(** The bytes of removed packets are in flight. *)
Lemma acct_covers (r : @Recovery C) l' sp ps leak : acct r leak →
  removed (sent_packets (spaces (rc_loss r) sp)) (sent_packets (spaces l' sp)) ps →
  (∀ sp', sp' ≠ sp → sent_packets (spaces l' sp') = sent_packets (spaces (rc_loss r) sp')) →
  sizes ps ≤ bytes_in_flight (rc_cc r) ∧
  Forall (λ p, 0 ≤ sp_size p ∧ sent_packets (spaces l' (sp_space p)) !! sp_pn p = None) ps.
Proof.
  intros (Hw & He & Hl) Hr Ho. destruct (removed_tracked _ _ _ _ Hw Hr Ho) as (Hw' & Ht & Hs).
  pose proof (tracked_nonneg _ Hw'). split; [lia|]. apply Forall_forall. intros p Hp.
  destruct Hr as (_ & Hin & Hm). destruct (Hw _ _ _ (Hin p Hp)) as (_ & -> & ?). split; [done|].
  rewrite Hm, decide_True; [done|]. apply list_elem_of_fmap. by exists p.
Qed.

Lemma sizes_nonneg ps : Forall (λ p, 0 ≤ sp_size p) ps → 0 ≤ sizes ps.
Proof. unfold sizes. induction 1; cbn; lia. Qed.

Lemma prune_packets l sp : same_packets l (prune_acknowledged_ack_eliciting_times l sp).
Proof.
  intros sp'. unfold prune_acknowledged_ack_eliciting_times. cbn. unfold per_space.
  case_decide; [|done]. by subst.
Qed.

(** An ACK: acknowledged and lost packets leave the count, and nothing else does. *)
Lemma process_ack_acct exp sp ack now (r r' : @Recovery C) leak :
  acct r leak → process_ack exp sp ack now r = Ok r' → acct r' leak.
Proof.
  intros Ha. unfold process_ack. intros ([[acked lost] l] & E1 & E)%bind_ok_inv.
  apply bind_ok_inv in E as ([n r2] & E2 & E). apply bind_ok_inv in E as ([n' r3] & E3 & E).
  apply bind_ok_inv in E as (r4 & E4 & [= <-]).
  apply on_ack_removes in E1 as [Hr Ho]; [|by apply well_keyed_keyed, Ha].
  assert (Ho' : ∀ sp', sp' ≠ sp → sent_packets (spaces l sp') = sent_packets (spaces (rc_loss r) sp'))
    by (intros; by rewrite Ho). clear Ho.
  destruct (acct_covers _ _ _ _ _ Ha Hr Ho') as [Hs Hf]. rewrite sizes_app in Hs.
  apply Forall_app in Hf as [Hfa Hfl].
  destruct (validate_ecn_core _ _ _ _ _ _ _ E2) as [Hl2 Hc2]. cbn [rc_loss with_loss rc_cc] in Hl2, Hc2.
  assert (Hfa' : Forall (λ p, 0 ≤ sp_size p) acked) by (eapply Forall_impl; [exact Hfa|]; by intros p []).
  assert (Hfl' : 0 ≤ sizes lost).
  { apply sizes_nonneg. eapply Forall_impl; [exact Hfl|]. by intros p []. }
  destruct (packets_acked_bytes _ _ _ _ _ _ _ _ E3 Hfa') as [Hl3 Hb3]; [rewrite Hc2; lia|].
  destruct (packets_lost_bytes _ _ _ _ _ E4) as [Hl4 Hb4].
  { eapply Forall_impl; [exact Hfl|]. cbn. intros p [? ?]. split; [done|].
    by rewrite Hl3, Hl2, prune_packets. }
  { rewrite Hb3, Hc2. lia. }
  assert (Hl : same_packets l (rc_loss r4)).
  { intros sp'. by rewrite Hl4, Hl3, Hl2, prune_packets. }
  assert (acct r4 leak).
  { eapply (acct_removed r r4 sp (acked ++ lost)); [done|by rewrite Hl| |].
    - intros sp' Hn. rewrite Hl. by apply Ho'.
    - rewrite Hb4, Hb3, Hc2, sizes_app. lia. }
  match goal with |- context [if ?b then _ else _] => destruct b end; [|done].
  eapply acct_same; [| |done]; [done|]. cbn. apply law_persistent.
Qed.

(** One packet that is given up or lost by itself. *)
Lemma drop_acct account pn (r r' : @Recovery C) leak : acct r leak →
  (∀ r r' p, account r p = Ok r' → rc_loss r' = rc_loss r ∧
     bytes_in_flight (rc_cc r') = saturating_sub (bytes_in_flight (rc_cc r)) (sp_size p)) →
  drop_sent_packet account pn r = Ok r' → acct r' leak.
Proof.
  intros Ha Hacc E. destruct (sent_packets (spaces (rc_loss r) SpaceApplicationData) !! pn) as [p|] eqn:Ep.
  2: { destruct (drop_untracked _ _ _ _ Ep E) as [Hs Hc]. eapply acct_same; [done| |done]. by rewrite Hc. }
  unfold drop_sent_packet, remove_sent_packet in E. rewrite Ep in E.
  apply Hacc in E as [Hl Hb]. cbn in Hl, Hb.
  destruct (proj1 Ha _ _ _ Ep) as (Hpn & _ & _).
  assert (Hr : removed (sent_packets (spaces (rc_loss r) SpaceApplicationData))
                 (sent_packets (spaces (rc_loss r') SpaceApplicationData)) [p]).
  { rewrite Hl. rewrite (proj1 (update_space_packets _ _ _)). cbn. split_and!.
    - apply NoDup_singleton.
    - intros q ->%list_elem_of_singleton. by rewrite Hpn.
    - intros k. cbn [fmap list_fmap]. rewrite Hpn. destruct (decide (k = pn)) as [->|Hn].
      + by rewrite lookup_delete_eq, decide_True by left.
      + rewrite lookup_delete_ne, decide_False by (done || by intros ?%list_elem_of_singleton). done. }
  assert (Ho : ∀ sp', sp' ≠ SpaceApplicationData →
    sent_packets (spaces (rc_loss r') sp') = sent_packets (spaces (rc_loss r) sp')).
  { rewrite Hl. apply update_space_packets. }
  destruct (acct_covers _ _ _ _ _ Ha Hr Ho) as [Hc _].
  eapply acct_removed; [done..|]. rewrite Hb. unfold sizes, saturating_sub in *. cbn in *. lia.
Qed.

Lemma discard_bytes_ok (r r' : @Recovery C) p : Ok (E:=QuicError) (discard_bytes r p) = Ok r' →
  rc_loss r' = rc_loss r ∧
  bytes_in_flight (rc_cc r') = saturating_sub (bytes_in_flight (rc_cc r)) (sp_size p).
Proof. intros [= <-]. split; [done|]. apply law_discard. Qed.

Lemma lose_bytes_ok now (r r' : @Recovery C) p : lose_bytes now r p = Ok r' →
  rc_loss r' = rc_loss r ∧
  bytes_in_flight (rc_cc r') = saturating_sub (bytes_in_flight (rc_cc r)) (sp_size p).
Proof. intros (c & E & [= <-])%bind_ok_inv. split; [done|]. by eapply law_loss. Qed.

Lemma abandon_acct pn (r r' : @Recovery C) leak :
  acct r leak → abandon_path_mtu_probe pn r = Ok r' → acct r' leak.
Proof.
  intros Ha. unfold abandon_path_mtu_probe. destruct (is_probe r pn); [|by intros [= <-]].
  intros E. eapply drop_acct; [|apply discard_bytes_ok|exact E]. done.
Qed.

Lemma probe_failure_acct pn now (r r' : @Recovery C) leak :
  acct r leak → complete_path_mtu_probe_failure pn now r = Ok r' → acct r' leak.
Proof.
  intros Ha. unfold complete_path_mtu_probe_failure. destruct (is_probe r pn); [|by intros [= <-]].
  intros (r1 & E & [= <-])%bind_ok_inv. apply (acct_same r1); [done..|].
  eapply drop_acct; [|apply lose_bytes_ok|exact E]. done.
Qed.

Lemma requeue_zero_rtt_acct pns : ∀ (r r' : @Recovery C) leak,
  acct r leak → foldM requeue_zero_rtt_packet r pns = Ok r' → acct r' leak.
Proof.
  induction pns as [|pn pns IH]; intros r r' leak Ha; cbn [foldM]; [by intros [= <-]|].
  intros (r1 & E1 & E2)%bind_ok_inv. eapply IH; [|exact E2]. unfold requeue_zero_rtt_packet in E1.
  apply bind_ok_inv in E1 as (r0 & E0 & [= <-]).
  assert (Ha0 : acct r0 leak) by (eapply drop_acct; [done|apply discard_bytes_ok|exact E0]).
  match goal with |- acct (with_zero_rtt _ (requeue ?sp ?fs ?r)) _ =>
    destruct (requeue_core sp fs r) as [Hl Hc] end.
  eapply acct_same; [| |exact Ha0]; cbn; [|by rewrite Hc]. intros sp. by rewrite Hl.
Qed.

Lemma discard_bytes_fold ps : ∀ r : @Recovery C, Forall (λ p, 0 ≤ sp_size p) ps →
  sizes ps ≤ bytes_in_flight (rc_cc r) →
  rc_loss (foldl discard_bytes r ps) = rc_loss r ∧
  bytes_in_flight (rc_cc (foldl discard_bytes r ps)) = bytes_in_flight (rc_cc r) - sizes ps ∧
  window (rc_cc (foldl discard_bytes r ps)) = window (rc_cc r).
Proof.
  induction ps as [|p ps IH]; intros r Hp Hs; cbn [foldl].
  { unfold sizes. cbn. split_and!; [done|lia|done]. }
  apply Forall_cons in Hp as [Hp Hps]. change (sizes (p :: ps)) with (sp_size p + sizes ps) in *.
  pose proof (sizes_nonneg _ Hps).
  assert (Hb : bytes_in_flight (rc_cc (discard_bytes r p)) = bytes_in_flight (rc_cc r) - sp_size p).
  { cbn. rewrite law_discard. unfold saturating_sub. lia. }
  destruct (IH (discard_bytes r p) Hps) as (-> & -> & ->); [lia|]. rewrite Hb. cbn.
  split_and!; [done|lia|apply law_discard_window].
Qed.

Lemma discard_acct sp (r : @Recovery C) leak : acct r leak →
  acct (discard_sent_packets sp r) leak ∧
  window (rc_cc (discard_sent_packets sp r)) = window (rc_cc r) ∧
  sent_packets (spaces (rc_loss (discard_sent_packets sp r)) sp) = ∅ ∧
  ∀ sp', sp' ≠ sp → sent_packets (spaces (rc_loss (discard_sent_packets sp r)) sp') =
    sent_packets (spaces (rc_loss r) sp').
Proof.
  intros Ha. unfold discard_sent_packets, take_sent_packets. cbv zeta.
  set (ps := (sorted_entries _).*2). set (l' := update_space _ _ _).
  destruct (update_space_packets sp (set_sent_packets ∅ (spaces (rc_loss r) sp)) (rc_loss r)) as [He Ho].
  fold l' in He, Ho. cbn [sent_packets set_sent_packets] in He.
  pose proof (well_keyed_keyed _ sp (proj1 Ha)) as Hk.
  assert (Hr : removed (sent_packets (spaces (rc_loss r) sp)) (sent_packets (spaces l' sp)) ps).
  { rewrite He. unfold ps. split_and!.
    - rewrite (pn_of_entries _ _ Hk) by done. apply NoDup_sorted_entries.
    - intros p ([k q] & -> & Hin%elem_sorted_entries)%list_elem_of_fmap. cbn. by rewrite (Hk _ _ Hin).
    - intros pn. rewrite lookup_empty, (pn_of_entries _ _ Hk) by done. case_decide as Hn; [done|].
      destruct (_ !! pn) as [p|] eqn:E; [|done]. destruct Hn. apply list_elem_of_fmap.
      exists (pn, p). by rewrite elem_sorted_entries. }
  destruct (acct_covers _ _ _ _ _ Ha Hr Ho) as [Hs Hf].
  destruct (discard_bytes_fold ps (with_loss l' r)) as (El & Eb & Ew).
  { eapply Forall_impl; [exact Hf|]. by intros p []. }
  { exact Hs. }
  rewrite Ew, El. split_and!; [|done..].
  eapply (acct_removed r _ sp ps); [done|by rewrite El..|exact Eb].
Qed.

Lemma requeue_all_core sp (r : @Recovery C) : same_core r (requeue_all_frames sp r).
Proof.
  unfold requeue_all_frames. generalize (sorted_entries (rc_sent_frames r sp)).*2. intros l.
  assert (Hg : ∀ r0 : @Recovery C, same_core r0 (foldl (λ r fs, requeue sp fs r) r0 l)).
  { induction l as [|fs l IH]; intros r0; [done|]. cbn [foldl]. unfold same_core.
    destruct (IH (requeue sp fs r0)) as [-> ->]. apply requeue_core. }
  apply (Hg (with_sent_frames (per_space (rc_sent_frames r) sp ∅) r)).
Qed.

Lemma reset_path_acct d now (r : @Recovery C) : acct (reset_path_recovery_after_validation d now r) 0.
Proof.
  unfold reset_path_recovery_after_validation. cbv zeta. set (r1 := foldl _ r all_spaces).
  assert (Hc : ∀ b mtu, let r' := with_mtu (if b : bool then set_next_probe_at (Some now) mtu else mtu)
    (with_max_send MAX_DATAGRAM_SIZE (with_cc cc_new
       (with_loss (set_max_ack_delay d loss_detection_new) r1))) in acct r' 0).
  { intros b mtu. split_and!; [|cbn; rewrite law_new; cbn; unfold tracked; cbn; by rewrite size_sum_empty|done].
    intros sp pn p. cbn. by rewrite lookup_empty. }
  apply Hc.
Qed.

Lemma pto_acct hk now (r r' : @Recovery C) b leak :
  acct r leak → queue_pto_probes_if_due hk now r = Ok (b, r') →
  acct r' leak ∧ rc_cc r' = rc_cc r ∧ same_packets (rc_loss r) (rc_loss r').
Proof.
  intros Ha. unfold queue_pto_probes_if_due. destruct (pto_deadline _); [|by intros [= _ <-]].
  dif; [by intros [= _ <-]|]. set (due := filter _ _).
  set (r1 := foldl (λ r sp, push_pending sp Ping r) r due).
  assert (Hc : rc_loss r1 = rc_loss r ∧ rc_cc r1 = rc_cc r).
  { unfold r1. clearbody due. clear. revert r. induction due as [|sp l IH]; intros r; [done|]. cbn [foldl].
    destruct (IH (push_pending sp Ping r)) as [-> ->]. done. }
  clearbody r1. destruct Hc as [Hl Hc]. case_bool_decide.
  - intros [= _ <-]. split_and!; [|done|intros sp; by rewrite Hl].
    eapply acct_same; [| |exact Ha]; [intros sp; by rewrite Hl|by rewrite Hc].
  - intros (l & El & [= _ <-])%bind_ok_inv. unfold on_pto_timeout in El.
    apply bind_ok_inv in El as (n & _ & [= <-]). cbn.
    split_and!; [|done|intros sp; cbn; by rewrite Hl].
    eapply acct_same; [| |exact Ha]; cbn; [intros sp; cbn; by rewrite Hl|by rewrite Hc].
Qed.

(** ** Runs of a connection *)

Inductive rc_event :=
  | EvSend (datagram : bytes) (packets : list BuiltPacket) (now : Z)
  | EvAck (exponent : Z) (sp : PacketNumberSpace) (ack : AckFrame) (now : Z)
  | EvPto (has_keys : PacketNumberSpace → bool) (now : Z)
  | EvProbeTimeout (now : Z)
  | EvAbandonProbe (pn : Z)
  | EvDiscard (sp : PacketNumberSpace)
  | EvRejectZeroRtt
  | EvNewPath (peer_max_ack_delay now : Z).

Definition rc_exec (ev : rc_event) (r : @Recovery C) : qres Recovery :=
  match ev with
  | EvSend d ps now => send_built_datagram r d ps now
  | EvAck e sp ack now => process_ack e sp ack now r
  | EvPto hk now => '(_, r) ← queue_pto_probes_if_due hk now r; Ok r
  | EvProbeTimeout now => handle_path_mtu_probe_timeout now r
  | EvAbandonProbe pn => abandon_path_mtu_probe pn r
  | EvDiscard sp => Ok (discard_space sp r)
  | EvRejectZeroRtt => requeue_zero_rtt_in_flight r
  | EvNewPath d now => Ok (reset_path_recovery_after_validation d now r)
  end.

(** A packet [build_packet_to_addr] returned in this state: the congestion gate
    let it pass.  Packets of CONNECTION_CLOSE frames alone are sent by
    [send_connection_close_frames], which does not track them. *)
Definition gated (r : @Recovery C) (p : BuiltPacket) : Prop :=
  ∃ sp pn fs data track kind payload_len tag_len pending,
    p = built_packet sp pn fs data track kind ∧
    0 ≤ payload_len ∧ 0 ≤ tag_len ∧ 0 ≤ pending ∧ (track = true → is_close_only fs = false) ∧
    congestion_gate r fs payload_len tag_len pending = Ok true.

(** Packets of a datagram pass the gate and have numbers of their own that are
    not in use; other events are not restricted. *)
Definition admissible (ev : rc_event) (r : @Recovery C) : Prop :=
  match ev with
  | EvSend _ ps _ =>
      Forall (gated r) ps ∧ NoDup ((λ p, (bp_space p, bp_pn p)) <$> ps) ∧
      Forall (λ p, sent_packets (spaces (rc_loss r) (bp_space p)) !! bp_pn p = None) ps
  | _ => True
  end.

Definition leak_after (ev : rc_event) (leak : Z) : Z :=
  match ev with
  | EvSend [] _ _ => leak
  | EvSend _ ps _ => foldl (λ n p, n + untracked_size p) leak ps
  | EvNewPath _ _ => 0
  | _ => leak
  end.

(** The states of a connection, with the bytes of the packets sent on this path
    that loss detection does not track. *)
Inductive accounted : @Recovery C → Z → Prop :=
  | accounted_new r : (∀ sp, spaces (rc_loss r) sp = space_new) → rc_cc r = cc_new → accounted r 0
  | accounted_step r leak ev r' : accounted r leak → admissible ev r → rc_exec ev r = Ok r' →
      accounted r' (leak_after ev leak).

Lemma send_acct e now ps : ∀ (r r' : @Recovery C) leak, acct r leak →
  Forall (λ p, is_tracked p = true → bp_congestion_controlled p = true) ps →
  NoDup ((λ p, (bp_space p, bp_pn p)) <$> ps) →
  Forall (λ p, sent_packets (spaces (rc_loss r) (bp_space p)) !! bp_pn p = None) ps →
  foldM (record_sent e now) r ps = Ok r' → acct r' (foldl (λ n p, n + untracked_size p) leak ps).
Proof.
  induction ps as [|p ps IH]; intros r r' leak Ha Hc Hn Hf; cbn [foldM foldl]; [by intros [= <-]|].
  intros (r1 & E1 & E2)%bind_ok_inv. apply Forall_cons in Hc as [Hc Hcs], Hf as [Hf Hfs].
  cbn in Hn. apply NoDup_cons in Hn as [Hp Hn]. eapply IH; [|done|done| |exact E2].
  - by eapply record_sent_acct.
  - apply Forall_forall. intros q Hq. rewrite (proj1 (record_sent_loss _ _ _ _ _ E1)).
    rewrite decide_False; [by eapply Forall_forall in Hfs|]. intros (_ & Es & Ep). apply Hp.
    apply list_elem_of_fmap. exists q. by rewrite Es, Ep.
Qed.

Lemma gated_controlled (r : @Recovery C) p : gated r p →
  is_tracked p = true → bp_congestion_controlled p = true.
Proof.
  intros (sp & pn & fs & data & track & kind & n & t & pd & -> & _ & _ & _ & Ht & _).
  unfold is_tracked. cbn. intros [Htr _]%andb_prop. by rewrite (Ht Htr).
Qed.

Lemma exec_acct ev (r r' : @Recovery C) leak :
  acct r leak → admissible ev r → rc_exec ev r = Ok r' → acct r' (leak_after ev leak).
Proof.
  intros Ha Hadm E. destruct ev; cbn in *.
  - unfold send_built_datagram in E. destruct datagram; [by injection E as <-|].
    destruct Hadm as (Hg & Hn & Hf). eapply send_acct; [done| |done|done|exact E].
    eapply Forall_impl; [exact Hg|]. apply gated_controlled.
  - by eapply process_ack_acct.
  - apply bind_ok_inv in E as ([b r1] & E & [= <-]). by eapply pto_acct.
  - unfold handle_path_mtu_probe_timeout in E. destruct (path_mtu_probe_timeout_deadline r); [|by injection E as <-].
    destruct (in_flight_probe _); [|by injection E as <-]. destruct (now <? _); [by injection E as <-|].
    by eapply probe_failure_acct.
  - by eapply abandon_acct.
  - injection E as <-. by apply (acct_same (discard_sent_packets sp r)), discard_acct.
  - by eapply requeue_zero_rtt_acct.
  - injection E as <-. apply reset_path_acct.
Qed.

Lemma accounted_acct r leak : accounted r leak → acct r leak.
Proof.
  induction 1 as [r Hs Hc|r leak ev r' _ IH Hadm E]; [|by eapply exec_acct].
  split_and!; [| |done].
  - intros sp pn p. rewrite Hs. cbn. by rewrite lookup_empty.
  - rewrite Hc, law_new. unfold tracked. rewrite !Hs. cbn. by rewrite size_sum_empty.
Qed.

(** C11: in every state a connection reaches, whatever its peer acknowledges, the
    controller's bytes in flight are exactly the bytes of the packets loss
    detection tracks and the bytes of the packets sent on this path that it
    does not track.  No acknowledgement, loss, timeout or discarded key takes a
    tracked packet out of one account and leaves it in the other. *)
Theorem in_flight_accounting (r : @Recovery C) leak : accounted r leak →
  well_keyed (rc_loss r) ∧ bytes_in_flight (rc_cc r) = tracked (rc_loss r) + leak ∧ 0 ≤ leak.
Proof. apply accounted_acct. Qed.

(** ** A window taken by packets nobody acknowledges *)

(** Nothing is tracked, and what is not tracked fills the window. *)
Definition stuck (r : @Recovery C) : Prop :=
  (∀ sp, sent_packets (spaces (rc_loss r) sp) = ∅) ∧ window (rc_cc r) ≤ bytes_in_flight (rc_cc r).

Definition new_path (ev : rc_event) : bool := match ev with EvNewPath _ _ => true | _ => false end.

(** What can happen on the same path. *)
Inductive later : @Recovery C → @Recovery C → Prop :=
  | later_refl r : later r r
  | later_step r1 ev r2 r3 : later r1 r2 → new_path ev = false → admissible ev r2 →
      rc_exec ev r2 = Ok r3 → later r1 r3.

Lemma stuck_gate (r : @Recovery C) fs n t pd : stuck r → 0 ≤ n → 0 ≤ t → 0 ≤ pd →
  existsb is_ack_eliciting fs = true → is_close_only fs = false →
  congestion_gate r fs n t pd ≠ Ok true.
Proof.
  intros [_ Hw] Hn Ht Hp He Hc. unfold congestion_gate. rewrite He, Hc. cbn [negb andb].
  unfold can_send, add_u64, PACKET_OVERHEAD. dif; [|done]. cbn. intros [= Hle]. lia.
Qed.

Lemma stuck_same (r r' : @Recovery C) : stuck r →
  same_packets (rc_loss r) (rc_loss r') → rc_cc r' = rc_cc r → stuck r'.
Proof. intros [He Hw] Hs Hc. split; [intros sp; by rewrite Hs|by rewrite Hc]. Qed.

Lemma stuck_send e now ps : ∀ r r' : @Recovery C, stuck r →
  Forall (λ p, is_tracked p = false) ps → foldM (record_sent e now) r ps = Ok r' → stuck r'.
Proof.
  induction ps as [|p ps IH]; intros r r' Hs Hp; cbn [foldM]; [by intros [= <-]|].
  apply Forall_cons in Hp as [Hp Hps]. intros (r1 & E1 & E2)%bind_ok_inv.
  eapply IH; [|done|exact E2]. destruct Hs as [He Hw].
  destruct (record_sent_loss _ _ _ _ _ E1) as (Hl & Hb & Hwin). split.
  - intros sp. apply map_eq. intros pn. rewrite Hl, He, Hp. by rewrite decide_False by (by intros [? _]).
  - rewrite Hb, Hwin. pose proof (len_nonneg (bp_bytes p)). destruct (bp_congestion_controlled p); lia.
Qed.

Lemma stuck_ack exp sp ack now (r r' : @Recovery C) :
  stuck r → process_ack exp sp ack now r = Ok r' → stuck r'.
Proof.
  intros Hs. unfold process_ack. intros ([[acked lost] l] & E1 & E)%bind_ok_inv.
  apply bind_ok_inv in E as ([n r2] & E2 & E). apply bind_ok_inv in E as ([n' r3] & E3 & E).
  apply bind_ok_inv in E as (r4 & E4 & [= <-]). destruct Hs as [He Hw].
  apply on_ack_removes in E1 as [(_ & Hin & Hm) Ho].
  2: { intros pn p. by rewrite He, lookup_empty. }
  assert (Hnil : acked ++ lost = []).
  { destruct (acked ++ lost) as [|p ps]; [done|]. specialize (Hin p ltac:(left)).
    by rewrite He, lookup_empty in Hin. }
  apply app_nil in Hnil as [-> ->]. injection E3 as _ <-. injection E4 as <-.
  change (detects_persistent_congestion l sp [] []) with false. cbv iota.
  destruct (validate_ecn_core _ _ _ _ _ _ _ E2) as [Hl Hc]. cbn in Hl, Hc.
  split; [|by rewrite Hc]. intros sp'. rewrite Hl, prune_packets. apply map_eq. intros pn.
  rewrite lookup_empty. destruct (decide (sp' = sp)) as [->|Hn].
  - rewrite Hm, He. by case_decide.
  - by rewrite Ho, He.
Qed.

Lemma stuck_zero_rtt pns : ∀ r r' : @Recovery C,
  stuck r → foldM requeue_zero_rtt_packet r pns = Ok r' → stuck r'.
Proof.
  induction pns as [|pn pns IH]; intros r r' Hs; cbn [foldM]; [by intros [= <-]|].
  intros (r1 & E1 & E2)%bind_ok_inv. eapply IH; [|exact E2]. unfold requeue_zero_rtt_packet in E1.
  apply bind_ok_inv in E1 as (r0 & E0 & [= <-]).
  apply drop_untracked in E0 as [Hp Hc]; [|by rewrite (proj1 Hs), lookup_empty].
  match goal with |- stuck (with_zero_rtt _ (requeue ?sp ?fs ?r)) =>
    destruct (requeue_core sp fs r) as [Hl Hc'] end.
  eapply stuck_same; [exact Hs| |]; cbn; [|by rewrite Hc']. intros sp. rewrite Hl. apply Hp.
Qed.

Lemma gated_stuck (r : @Recovery C) p : stuck r → gated r p → is_tracked p = false.
Proof.
  intros Hs (sp & pn & fs & data & track & kind & n & t & pd & -> & Hn & Ht & Hp & Htr & Hg).
  unfold is_tracked. cbn. destruct track; [|done]. cbn. apply not_true_iff_false. intros He.
  apply (stuck_gate r fs n t pd); auto.
Qed.

Lemma stuck_exec ev (r r' : @Recovery C) leak : acct r leak → stuck r → new_path ev = false →
  admissible ev r → rc_exec ev r = Ok r' → stuck r'.
Proof.
  intros Ha Hs Hnp Hadm E.
  assert (Hnone : ∀ pn, sent_packets (spaces (rc_loss r) SpaceApplicationData) !! pn = None)
    by (intros pn; by rewrite (proj1 Hs), lookup_empty).
  destruct ev; cbn in *; try done.
  - unfold send_built_datagram in E. destruct datagram; [by injection E as <-|].
    eapply stuck_send; [done| |exact E]. eapply Forall_impl; [exact (proj1 Hadm)|]. intros p. by apply gated_stuck.
  - by eapply stuck_ack.
  - apply bind_ok_inv in E as ([b r1] & E & [= <-]).
    destruct (pto_acct _ _ _ _ _ _ Ha E) as (_ & ? & ?). by eapply stuck_same.
  - unfold handle_path_mtu_probe_timeout in E. destruct (path_mtu_probe_timeout_deadline r); [|by injection E as <-].
    destruct (in_flight_probe _); [|by injection E as <-]. destruct (now <? _); [by injection E as <-|].
    apply probe_failure_untracked in E as [? ?]; [|done]. by eapply stuck_same.
  - unfold abandon_path_mtu_probe in E. destruct (is_probe r pn); [|by injection E as <-].
    apply drop_untracked in E as [? ?]; [|done]. by eapply stuck_same.
  - injection E as <-. destruct (discard_acct sp r leak Ha) as ((_ & Hb & _) & Hw & He & Ho).
    destruct Ha as (_ & Hb' & _).
    assert (Hsp : same_packets (rc_loss r) (rc_loss (discard_sent_packets sp r))).
    { intros sp'. destruct (decide (sp' = sp)) as [->|Hn]; [by rewrite He, (proj1 Hs)|by apply Ho]. }
    apply (stuck_same (discard_sent_packets sp r)); [|done..].
    split; [intros sp'; by rewrite Hsp, (proj1 Hs)|].
    rewrite Hw, Hb, (same_packets_tracked _ _ Hsp), <- Hb'. apply Hs.
  - by eapply stuck_zero_rtt.
Qed.

(** C39: (a defect) packets without ack-eliciting frames are counted as bytes in
    flight when they are sent, but loss detection does not track them and no
    acknowledgement takes them out again.  Once they fill the window and
    nothing else is in flight, the congestion gate closes for good: whatever
    the peer acknowledges, whatever timers fire and keys are discarded, no
    packet with data, a probe or a credit update is ever let out on this path. *)
Theorem ack_only_packets_block_sending (r r' : @Recovery C) leak fs n t pd :
  accounted r leak → (∀ sp, sent_packets (spaces (rc_loss r) sp) = ∅) → window (rc_cc r) ≤ leak →
  later r r' → existsb is_ack_eliciting fs = true → is_close_only fs = false →
  0 ≤ n → 0 ≤ t → 0 ≤ pd → congestion_gate r' fs n t pd ≠ Ok true.
Proof.
  intros Hacc He Hw Hl Hf Hc Hn Ht Hp.
  assert (Hs : stuck r' ∧ ∃ leak', acct r' leak').
  { induction Hl as [|r1 ev r2 r3 Hl IH Hnp Hadm E].
    - pose proof (accounted_acct _ _ Hacc) as Ha. split; [|by exists leak]. split; [done|].
      destruct Ha as (Hk & -> & _). pose proof (tracked_nonneg _ Hk). lia.
    - destruct IH as (Hs & leak' & Ha); [done..|]. split; [by eapply stuck_exec|].
      exists (leak_after ev leak'). by eapply exec_acct. }
  apply stuck_gate; [apply Hs|done..].
Qed.

End Accounting.

(** ** A receiver that only acknowledges *)

(** The controller a connection starts with; its cube root plays no role here. *)
#[local] Instance sample_cubic : CongestionController Cubic.Cubic :=
  Cubic.cubic_controller (λ x, x) (λ x, x).
#[local] Instance sample_cubic_laws : InFlightLaws Cubic.Cubic := cubic_laws _ _.

Definition sample_recovery : @Recovery Cubic.Cubic := {|
  rc_loss := loss_detection_new; rc_cc := cc_new;
  rc_io := {| io_streams := manager_new Client 100 100 262144; io_flow := Conn.new 1048576 1048576;
              io_pending := [] |};
  rc_sent_frames := λ _, ∅; rc_zero_rtt_in_flight := ∅; rc_outbound_ecn_enabled := true;
  rc_peer_ack_ecn := λ _, None; rc_sent_ecn := λ _, ecn_zero; rc_path_mtu := path_mtu_new;
  rc_max_send_udp := MAX_DATAGRAM_SIZE |}.

(** An ACK frame in a packet of forty bytes. *)
Definition ack_packet (pn : Z) : BuiltPacket :=
  built_packet SpaceApplicationData pn
    [Ack {| largest_acknowledged := pn; ack_delay := 0;
            ranges := [{| range_start := 0; range_end := pn |}]; ecn := None |}]
    (replicate 40 0) true (Some AppOneRtt).

Lemma ack_only_run k : (k ≤ 1000)%nat →
  ∃ r : @Recovery Cubic.Cubic, accounted r (40 * Z.of_nat k) ∧
    (∀ sp, sent_packets (spaces (rc_loss r) sp) = ∅) ∧ window (rc_cc r) = INITIAL_WINDOW.
Proof.
  induction k as [|k IH]; intros Hk.
  { exists sample_recovery. split_and!; [by constructor|done..]. }
  destruct IH as (r & Ha & He & Hw); [lia|].
  pose proof (accounted_acct _ _ Ha) as (_ & Hb & _).
  assert (Ht : tracked (rc_loss r) = 0) by (unfold tracked; by rewrite !He, size_sum_empty).
  set (ev := EvSend (replicate 40 0) [ack_packet (Z.of_nat k)] 0).
  assert (Hok : ∃ c, on_packet_sent (rc_cc r) 40 0 = Ok c).
  { rewrite Ht in Hb. cbn in *. unfold Cubic.cubic_sent, add_u64. rewrite Hb.
    rewrite (proj2 (Z.leb_le _ _)) by (unfold U64_MAX; lia). by eexists. }
  destruct Hok as [c Hok].
  assert (E : ∃ r', rc_exec ev r = Ok r').
  { eexists. cbn -[on_packet_sent]. unfold record_sent. cbn -[on_packet_sent].
    change (len _) with 40. rewrite Hok. cbn. reflexivity. }
  destruct E as [r' E].
  exists r'. assert (E' := E). cbn in E'.
  apply bind_ok_inv in E' as (r1 & E1 & [= <-]).
  destruct (record_sent_loss _ _ _ _ _ E1) as (Hl & _ & Hw'). split_and!.
  - replace (40 * Z.of_nat (S k)) with (leak_after ev (40 * Z.of_nat k)).
    2: { change (40 * Z.of_nat k + 40 = 40 * Z.of_nat (S k)). lia. }
    eapply accounted_step; [exact Ha| |exact E]. cbn. split_and!.
    + apply Forall_singleton. do 9 eexists. split; [done|]. do 4 (split; [done || lia|]). done.
    + apply NoDup_singleton.
    + apply Forall_singleton. by rewrite He.
  - intros sp. apply map_eq. intros pn. rewrite Hl, He. by rewrite decide_False by (by intros [? _]).
  - by rewrite Hw'.
Qed.

(** After three hundred acknowledgements a PING no longer passes. *)
Lemma ack_only_packets_block_sending_witness :
  ∃ r : @Recovery Cubic.Cubic, accounted r 12000 ∧ congestion_gate r [Ping] 1 16 0 ≠ Ok true.
Proof.
  destruct (ack_only_run 300 ltac:(lia)) as (r & Ha & He & Hw). exists r. split; [exact Ha|].
  apply (ack_only_packets_block_sending r r 12000); [exact Ha|exact He| |constructor|reflexivity|reflexivity|lia|lia|lia].
  rewrite Hw. reflexivity.
Defined.

Lemma in_flight_accounting_witness :
  ∃ r : @Recovery Cubic.Cubic, bytes_in_flight (rc_cc r) = tracked (rc_loss r) + 80.
Proof.
  destruct (ack_only_run 2 ltac:(lia)) as (r & Ha & _). exists r.
  destruct (in_flight_accounting r _ Ha) as (_ & E & _). exact E.
Defined.
