(* ===== verification/Packing.v ===== *)
(** * Filling packets with frames (starfish-quic/src/connection.rs)

    [split_frame] and the loop of [send_pending_frames] that packs the queued
    frames of one packet number space into packets. *)

From S2P Require Import Prelude QuicError Varint Frame Packet ConnRecovery.

Definition encode_frame (f : Frame) : qres bytes := '(buf, _) ← build (frame_encode f); Ok buf.

(** ** Splitting a frame *)

(** The binary search for the longest head that fits: [size mid] is the length
    of the encoded head with [mid] bytes of data; [None] is the early return of
    [.ok()?]. *)
Fixpoint search_split (size : Z → qres Z) (budget : Z) (fuel : nat) (low high split_at : Z)
    : qres (option Z) :=
  if high <? low then Ok (Some split_at)
  else
    match fuel with
    | O => Diverge
    | S fuel =>
        let mid := low + (high - low) / 2 in
        match size mid with
        | Ok n =>
            if n <=? budget then search_split size budget fuel (mid + 1) high mid
            else search_split size budget fuel low (saturating_sub mid 1) split_at
        | Err _ => Ok None
        | Panic => Panic
        | Diverge => Diverge
        end
    end.

(** The common part of both arms: [head n] is the frame with the first [n]
    bytes, [tail n] the frame with the rest. *)
Definition split_data (f : Frame) (data : bytes) (head tail : Z → qres Frame) (budget : Z)
    : qres (option (Frame * Frame)) :=
  if len data <=? 1 then Ok None
  else
    match encode_frame f with
    | Ok full =>
        if len full <=? budget then Ok None
        else
          r ← search_split (λ n, h ← head n; b ← encode_frame h; Ok (len b)) budget
                (length data) 1 (len data - 1) 0;
          match r with
          | Some split_at =>
              if split_at =? 0 then Ok None
              else h ← head split_at; t ← tail split_at; Ok (Some (h, t))
          | None => Ok None
          end
    | Err _ => Ok None
    | Panic => Panic
    | Diverge => Diverge
    end.

Definition split_frame (f : Frame) (budget : Z) : qres (option (Frame * Frame)) :=
  match f with
  | Crypto cf =>
      split_data f (crypto_data cf)
        (λ n, d ← slice (crypto_data cf) 0 n;
              Ok (Crypto {| crypto_offset := crypto_offset cf; crypto_data := d |}))
        (λ n, off ← add_u64 (crypto_offset cf) n; d ← slice_from (crypto_data cf) n;
              Ok (Crypto {| crypto_offset := off; crypto_data := d |})) budget
  | Stream sf =>
      split_data f (sf_data sf)
        (λ n, d ← slice (sf_data sf) 0 n;
              Ok (Stream {| sf_stream_id := sf_stream_id sf; sf_offset := sf_offset sf;
                            sf_fin := false; sf_data := d |}))
        (λ n, off ← add_u64 (sf_offset sf) n; d ← slice_from (sf_data sf) n;
              Ok (Stream {| sf_stream_id := sf_stream_id sf; sf_offset := off;
                            sf_fin := sf_fin sf; sf_data := d |})) budget
  | _ => Ok None
  end.

(** ** Filling one packet *)

Definition carries_data (f : Frame) : bool :=
  match f with Crypto _ | Stream _ => true | _ => false end.

(** The inner loop: the frames of the packet, its payload, and the queue that is
    left.  A frame that [split_frame] does not split was taken from the queue
    and is not put back. *)
Fixpoint fill_packet (max_payload : Z) (space_frames packet_frames : list Frame) (payload : bytes)
    : qres (list Frame * bytes * list Frame) :=
  match space_frames with
  | [] => Ok (packet_frames, payload, [])
  | f :: rest =>
      trial_buf ← encode_frame f;
      let budget := saturating_sub max_payload (len payload) in
      if len trial_buf <=? budget then
        fill_packet max_payload rest (packet_frames ++ [f]) (payload ++ trial_buf)
      else if (0 <? budget) && carries_data f then
        s ← split_frame f budget;
        match s with
        | Some (head, tail) =>
            head_buf ← encode_frame head;
            Ok (packet_frames ++ [head], payload ++ head_buf, tail :: rest)
        | None => Ok (packet_frames, payload, rest)
        end
      else
        match payload with
        | [] => fill_packet max_payload rest (packet_frames ++ [f]) (payload ++ trial_buf)
        | _ => Ok (packet_frames, payload, f :: rest)
        end
  end.

(** ** Sending the frames of one space *)

Definition data_of (f : Frame) : bytes :=
  match f with Crypto cf => crypto_data cf | Stream sf => sf_data sf | _ => [] end.

(** Every packet takes a frame or some of its data from the queue: a bound on
    the number of packets. *)
Definition weight (fs : list Frame) : nat := sum_list_with (λ f, S (length (data_of f))) fs.

Definition max_payload (max_send_udp_payload_size tag_len : Z) : Z :=
  saturating_sub (saturating_sub max_send_udp_payload_size PACKET_OVERHEAD) tag_len.

(** The packets that were sent and the frames that are queued again.  [gate i]
    says whether [build_packet_to_addr] returned the [i]-th packet. *)
Fixpoint pack_space (fuel : nat) (gate : nat → bool) (i : nat) (max_payload : Z)
    (space_frames : list Frame) : qres (list (list Frame * bytes) * list Frame) :=
  match space_frames with
  | [] => Ok ([], [])
  | _ =>
      match fuel with
      | O => Diverge
      | S fuel =>
          '(packet_frames, payload, rest) ← fill_packet max_payload space_frames [] [];
          match packet_frames with
          | [] => Ok ([], rest)
          | _ =>
              if gate i then
                '(packets, queued) ← pack_space fuel gate (S i) max_payload rest;
                Ok ((packet_frames, payload) :: packets, queued)
              else Ok ([], packet_frames ++ rest)
          end
      end
  end.
