(* ===== verification/PackingProps.v ===== *)
(** * Properties of the packing of frames into packets *)

From S2P Require Import Prelude QuicError Varint Frame FrameProps Packet ConnRecovery Packing.

Lemma encode_frame_ok f : frame_wf f → encode_frame f = Ok (frame_bytes f).
Proof.
  intros Hf. unfold encode_frame, build, exec. by rewrite frame_encode_eq.
Qed.

(** ** The binary search *)

Lemma search_split_spec size s budget N :
  (∀ n, 1 ≤ n ≤ N → size n = Ok (s n)) →
  (∀ n n', 1 ≤ n → n ≤ n' → n' ≤ N → s n ≤ s n') →
  ∀ fuel low high, 1 ≤ low → high ≤ N → low ≤ high + 1 → high - low + 1 ≤ Z.of_nat fuel →
  (∀ n, 1 ≤ n < low → s n ≤ budget) → (∀ n, high < n ≤ N → budget < s n) →
  ∃ r, search_split size budget fuel low high (low - 1) = Ok (Some r) ∧ 0 ≤ r ≤ N ∧
    (∀ n, 1 ≤ n ≤ r → s n ≤ budget) ∧ (∀ n, r < n ≤ N → budget < s n).
Proof.
  intros Hsz Hmono. induction fuel as [|fuel IH]; intros low high Hl Hh Hlh Hf Hin Hout; cbn [search_split].
  { rewrite (proj2 (Z.ltb_lt _ _)) by lia. exists (low - 1).
    split_and!; [done|lia|lia|intros; apply Hin; lia|intros; apply Hout; lia]. }
  destruct (Z.ltb_spec high low).
  { exists (low - 1). split_and!; [done|lia|lia|intros; apply Hin; lia|intros; apply Hout; lia]. }
  set (mid := low + (high - low) / 2).
  assert (Hmid : low ≤ mid ≤ high).
  { unfold mid. pose proof (Z.div_pos (high - low) 2). pose proof (Z.div_le_upper_bound (high - low) 2 (high - low)). lia. }
  rewrite Hsz by lia. destruct (Z.leb_spec (s mid) budget).
  - replace (search_split size budget fuel (mid + 1) high mid)
      with (search_split size budget fuel (mid + 1) high (mid + 1 - 1)) by (f_equal; lia).
    apply IH; try lia; [|done]. intros n Hn. pose proof (Hmono n mid). lia.
  - unfold saturating_sub. rewrite Z.max_r by lia. apply IH; try lia; [done|].
    intros n Hn. pose proof (Hmono mid n). lia.
Qed.

(** ** Heads and tails *)

(** The first [n] bytes of a frame, and the rest with the FIN. *)
Definition head_of (f : Frame) (n : Z) : Frame :=
  match f with
  | Crypto cf => Crypto {| crypto_offset := crypto_offset cf;
                           crypto_data := take (Z.to_nat n) (crypto_data cf) |}
  | Stream sf => Stream {| sf_stream_id := sf_stream_id sf; sf_offset := sf_offset sf;
                           sf_fin := false; sf_data := take (Z.to_nat n) (sf_data sf) |}
  | _ => f
  end.
Definition tail_of (f : Frame) (n : Z) : Frame :=
  match f with
  | Crypto cf => Crypto {| crypto_offset := crypto_offset cf + n;
                           crypto_data := drop (Z.to_nat n) (crypto_data cf) |}
  | Stream sf => Stream {| sf_stream_id := sf_stream_id sf; sf_offset := sf_offset sf + n;
                           sf_fin := sf_fin sf; sf_data := drop (Z.to_nat n) (sf_data sf) |}
  | _ => f
  end.
Definition offset_of (f : Frame) : Z :=
  match f with Crypto cf => crypto_offset cf | Stream sf => sf_offset sf | _ => 0 end.

(** The last byte of a frame is below 2^62, as flow control sees to. *)
Definition in_stream (f : Frame) : Prop :=
  frame_wf f ∧ (carries_data f = true → offset_of f + len (data_of f) ≤ MAX_VARINT).

Lemma len_take_to {A} (l : list A) n : 0 ≤ n ≤ len l → len (take (Z.to_nat n) l) = n.
Proof. unfold len. rewrite length_take. lia. Qed.

Lemma data_wf_take d n : data_wf d → 0 ≤ n ≤ len d → data_wf (take (Z.to_nat n) d).
Proof. intros [Hb Hl] Hn. split; [by apply bytes_ok_take|]. rewrite len_take_to by done. lia. Qed.

Lemma data_wf_drop d n : data_wf d → 0 ≤ n ≤ len d → data_wf (drop (Z.to_nat n) d).
Proof. intros [Hb Hl] Hn. split; [by apply bytes_ok_drop|]. rewrite len_drop by done. lia. Qed.

Lemma head_wf f n : in_stream f → carries_data f = true → 0 ≤ n ≤ len (data_of f) →
  frame_wf (head_of f n).
Proof.
  intros [Hf Ho] Hc Hn. destruct f; try done; cbn in *.
  - destruct Hf. split; [done|]. by apply data_wf_take.
  - destruct Hf as (? & ? & ?). split_and!; [done..|]. by apply data_wf_take.
Qed.

Lemma tail_in_stream f n : in_stream f → carries_data f = true → 0 ≤ n ≤ len (data_of f) →
  in_stream (tail_of f n).
Proof.
  intros [Hf Ho] Hc Hn. specialize (Ho Hc). destruct f; try done; cbn in *.
  - destruct Hf as [Hv Hd]. unfold varint_ok in Hv.
    split; cbn; [split; [unfold varint_ok; lia|by apply data_wf_drop]|]. rewrite len_drop by done. lia.
  - destruct Hf as (Hi & Hv & Hd). unfold varint_ok in Hv.
    split; cbn; [split_and!; [done|unfold varint_ok; lia|by apply data_wf_drop]|].
    rewrite len_drop by done. lia.
Qed.

(** The encoded length of a head grows with its data. *)
Definition head_size (f : Frame) (n : Z) : Z :=
  match f with
  | Crypto cf => 1 + varint_len (crypto_offset cf) + varint_len n + n
  | Stream sf => 1 + varint_len (sf_stream_id sf) + varint_len (sf_offset sf) + varint_len n + n
  | _ => 0
  end.

Lemma head_size_mono f n n' : n ≤ n' → head_size f n ≤ head_size f n'.
Proof.
  intros Hn. assert (varint_len n ≤ varint_len n') by (unfold varint_len; repeat dif; lia).
  destruct f; cbn; lia.
Qed.

Lemma len_head f n : in_stream f → carries_data f = true → 0 ≤ n ≤ len (data_of f) →
  len (frame_bytes (head_of f n)) = head_size f n.
Proof.
  intros Hs Hc Hn. pose proof (head_wf f n Hs Hc Hn) as Hw.
  destruct Hs as [Hf Ho]. specialize (Ho Hc). destruct f; try done; unfold frame_bytes; cbn [frame_encode head_of head_size].
  - cbn in Hw, Hf, Hn, Ho. destruct Hw as [Hv Hd]. pose proof (data_len_ok _ Hd) as Hl.
    cbn in Hv. unfold crypto_encode. cbn [crypto_offset crypto_data].
    rewrite !encode_varint_bind by (done || by apply varint_ok_small). unfold extend. cbn [snd app].
    rewrite !len_app, !len_varint_bytes by (done || by apply varint_ok_small).
    rewrite len_take_to by lia. change (varint_len 6) with 1. lia.
  - cbn in Hn, Ho. rewrite stream_encode_eq by done. cbn [snd app].
    destruct Hw as (Hi & Hv & Hd). pose proof (data_len_ok _ Hd) as Hl. cbn in Hi, Hv, Hl |- *.
    rewrite len_cons, !len_app, !len_varint_bytes by done. rewrite len_take_to by lia. lia.
Qed.

Lemma split_data_spec f head tail budget : in_stream f → carries_data f = true →
  budget < len (frame_bytes f) →
  (∀ n, 1 ≤ n < len (data_of f) → head n = Ok (head_of f n) ∧ tail n = Ok (tail_of f n)) →
  ∃ r, 0 ≤ r ∧ (r = 0 ∨ r < len (data_of f)) ∧
    (∀ n, 1 ≤ n ≤ r → head_size f n ≤ budget) ∧
    (∀ n, r < n < len (data_of f) → budget < head_size f n) ∧
    split_data f (data_of f) head tail budget =
      Ok (if r =? 0 then None else Some (head_of f r, tail_of f r)).
Proof.
  intros Hs Hc Hb Hht. unfold split_data. destruct (Z.leb_spec (len (data_of f)) 1).
  { exists 0. split_and!; [lia|by left|lia|lia|done]. }
  rewrite encode_frame_ok by apply Hs. rewrite (proj2 (Z.leb_gt _ _)) by lia.
  set (size := λ n, h ← head n; _).
  destruct (search_split_spec size (head_size f) budget (len (data_of f) - 1))
    with (fuel := length (data_of f)) (low := 1) (high := len (data_of f) - 1)
    as (r & E & Hr & Hin & Hout).
  - intros n Hn. unfold size. rewrite (proj1 (Hht n ltac:(lia))). cbn [mbind result_bind].
    rewrite encode_frame_ok by (apply head_wf; done || lia). cbn [mbind result_bind].
    by rewrite len_head by (done || lia).
  - intros. by apply head_size_mono.
  - lia.
  - lia.
  - lia.
  - unfold len. lia.
  - lia.
  - lia.
  - exists r. split_and!; [lia|lia|done|intros; apply Hout; lia|].
    change (1 - 1) with 0 in E. rewrite E. cbn [mbind result_bind]. destruct (Z.eqb_spec r 0); [done|].
    destruct (Hht r ltac:(lia)) as [-> ->]. done.
Qed.

Lemma split_frame_spec f budget : in_stream f → carries_data f = true →
  budget < len (frame_bytes f) →
  ∃ r, 0 ≤ r ∧ (r = 0 ∨ r < len (data_of f)) ∧
    (∀ n, 1 ≤ n ≤ r → head_size f n ≤ budget) ∧
    (∀ n, r < n < len (data_of f) → budget < head_size f n) ∧
    split_frame f budget = Ok (if r =? 0 then None else Some (head_of f r, tail_of f r)).
Proof.
  intros Hs Hc Hb. destruct f; try done; unfold split_frame.
  - apply split_data_spec; [done..|]. intros n Hn. destruct Hs as [_ Ho]. specialize (Ho Hc). cbn in *.
    rewrite slice_take, slice_from_drop by lia. rewrite add_u64_ok by (unfold MAX_VARINT, U64_MAX in *; lia). done.
  - apply split_data_spec; [done..|]. intros n Hn. destruct Hs as [_ Ho]. specialize (Ho Hc). cbn in *.
    rewrite slice_take, slice_from_drop by lia. rewrite add_u64_ok by (unfold MAX_VARINT, U64_MAX in *; lia). done.
Qed.

(** ** Filling packets *)

(** A data frame that the packing loop takes from the queue and does not put
    back: some budget is left in the packet, and not even one byte of the
    frame's data fits into it. *)
Definition unsplittable (M : Z) (f : Frame) : Prop :=
  carries_data f = true ∧ ∃ budget, 0 < budget ≤ M ∧ budget < len (frame_bytes f) ∧
    (len (data_of f) ≤ 1 ∨ budget < head_size f 1).

(** [cut M fs out]: [out] are the frames [fs], in order, some of them cut in
    pieces that follow each other, and without some unsplittable ones. *)
Inductive cut (M : Z) : list Frame → list Frame → Prop :=
| cut_nil : cut M [] []
| cut_keep f fs out : cut M fs out → cut M (f :: fs) (f :: out)
| cut_split f n fs out : carries_data f = true → 0 < n < len (data_of f) →
    cut M (tail_of f n :: fs) out → cut M (f :: fs) (head_of f n :: out)
| cut_drop f fs out : unsplittable M f → cut M fs out → cut M (f :: fs) out.

Lemma cut_refl M fs : cut M fs fs.
Proof. induction fs; by constructor. Qed.

Definition payload_of (fs : list Frame) : bytes := concat (frame_bytes <$> fs).

Lemma payload_of_nil fs : Forall frame_wf fs → len (payload_of fs) ≤ 0 → fs = [].
Proof.
  intros [|f fs' Hf Hfs']; [done|]. unfold payload_of. cbn. rewrite len_app. intros H.
  pose proof (frame_bytes_nonempty f Hf). destruct (frame_bytes f); [done|].
  rewrite len_cons in H. pose proof (len_nonneg l). pose proof (len_nonneg (concat (frame_bytes <$> fs'))). lia.
Qed.

Definition fits (M : Z) (before : bytes) (g : list Frame) : Prop :=
  len before + len (payload_of g) ≤ Z.max M (len before) ∨
  before = [] ∧ ∃ f, g = [f] ∧ (carries_data f = true → M = 0).

Lemma split_step M f fs pf pl : 0 ≤ M → in_stream f → Forall in_stream fs → carries_data f = true →
  0 < saturating_sub M (len pl) < len (frame_bytes f) →
  ∃ g rest, fill_packet M (f :: fs) pf pl = Ok (pf ++ g, pl ++ payload_of g, rest) ∧
    Forall in_stream rest ∧ Forall frame_wf g ∧ fits M pl g ∧
    (length g + weight rest ≤ weight (f :: fs))%nat ∧
    ∀ out, cut M rest out → cut M (f :: fs) (g ++ out).
Proof.
  intros HM Hf Hfs Hc Hb. cbn [fill_packet]. rewrite encode_frame_ok by apply Hf. rewrite bind_ok.
  rewrite (proj2 (Z.leb_gt _ _)) by lia. rewrite (proj2 (Z.ltb_lt _ _)) by lia. rewrite Hc. cbn [andb].
  destruct (split_frame_spec f _ Hf Hc (proj2 Hb)) as (r & Hr & Hr' & Hin & Hout & ->).
  rewrite bind_ok. destruct (Z.eqb_spec r 0) as [->|Hr0].
  - exists [], fs. unfold payload_of. cbn. rewrite !app_nil_r. split_and!; [done..| | |].
    + left. unfold payload_of; cbn [fmap list_fmap concat]; rewrite len_nil; lia.
    + unfold weight; cbn; lia.
    + intros out Ho. apply cut_drop; [|done]. split; [done|]. eexists. split_and!; [apply Hb| |apply Hb|].
      * unfold saturating_sub in *. pose proof (len_nonneg pl). lia.
      * destruct (Z.leb_spec (len (data_of f)) 1); [by left|right; apply Hout; lia].
  - destruct Hr' as [?|Hrl]; [done|]. rewrite encode_frame_ok by (apply head_wf; done || lia).
    rewrite bind_ok. exists [head_of f r], (tail_of f r :: fs). unfold payload_of. cbn. rewrite app_nil_r.
    split_and!; [done|constructor; [apply tail_in_stream|]; done || lia| | | |].
    + repeat constructor. apply head_wf; done || lia.
    + left. unfold payload_of. cbn. rewrite app_nil_r, len_head by (done || lia).
      pose proof (Hin r). unfold saturating_sub in *. lia.
    + unfold weight. cbn [sum_list_with length]. assert (length (data_of (tail_of f r)) = length (data_of f) - Z.to_nat r)%nat as ->.
      { destruct f; try done; cbn; by rewrite length_drop. }
      unfold len in Hrl. cbn. lia.
    + intros out Ho. apply cut_split; [done|lia|done].
Qed.

Lemma payload_of_cons f fs : payload_of (f :: fs) = frame_bytes f ++ payload_of fs.
Proof. done. Qed.

Lemma fits_nil M pl : fits M pl [].
Proof. left. unfold payload_of. cbn [fmap list_fmap concat]. rewrite len_nil. lia. Qed.

Lemma fits_cons M pl f g : frame_wf f → Forall frame_wf g →
  len pl + len (frame_bytes f) ≤ M ∨ pl = [] ∧ M < len (frame_bytes f) ∧ (carries_data f = true → M = 0) →
  fits M (pl ++ frame_bytes f) g → fits M pl (f :: g).
Proof.
  intros Hf Hg H [Hl|[E _]].
  - rewrite !len_app in Hl. destruct H as [H|(-> & H & Hc)].
    + left. rewrite payload_of_cons, len_app. lia.
    + right. split; [done|]. exists f. split; [|done]. f_equal. apply payload_of_nil; [done|].
      rewrite len_nil in Hl. lia.
  - apply app_nil in E as [_ E]. by apply frame_bytes_nonempty in E.
Qed.

Lemma fill_packet_spec M fs : 0 ≤ M → Forall in_stream fs → ∀ pf pl,
  ∃ g rest, fill_packet M fs pf pl = Ok (pf ++ g, pl ++ payload_of g, rest) ∧
    Forall in_stream rest ∧ Forall frame_wf g ∧ fits M pl g ∧
    (length g + weight rest ≤ weight fs)%nat ∧
    ∀ out, cut M rest out → cut M fs (g ++ out).
Proof.
  intros HM Hfs. induction Hfs as [|f fs Hf Hfs IH]; intros pf pl.
  { exists [], []. cbn. rewrite !app_nil_r. split_and!; try done. apply fits_nil. }
  assert (Take : len pl + len (frame_bytes f) ≤ M ∨
      pl = [] ∧ M < len (frame_bytes f) ∧ (carries_data f = true → M = 0) →
    ∃ g rest, fill_packet M fs (pf ++ [f]) (pl ++ frame_bytes f) = Ok (pf ++ g, pl ++ payload_of g, rest) ∧
      Forall in_stream rest ∧ Forall frame_wf g ∧ fits M pl g ∧
      (length g + weight rest ≤ weight (f :: fs))%nat ∧
      ∀ out, cut M rest out → cut M (f :: fs) (g ++ out)).
  { intros H. destruct (IH (pf ++ [f]) (pl ++ frame_bytes f)) as (g & rest & E & Hr & Hg & Hfit & Hw & Hcut).
    exists (f :: g), rest. rewrite E, payload_of_cons, <-!app_assoc. split_and!; [done..| | | |].
    - constructor; [apply Hf|done].
    - apply fits_cons; [apply Hf|done..].
    - unfold weight in *. cbn. lia.
    - intros out Ho. cbn. apply cut_keep. by apply Hcut. }
  destruct (decide (carries_data f = true ∧ 0 < saturating_sub M (len pl) < len (frame_bytes f))) as [[Hc Hb]|Hn].
  { by apply split_step. }
  cbn [fill_packet]. rewrite encode_frame_ok by apply Hf. rewrite bind_ok.
  assert (1 ≤ len (frame_bytes f)).
  { pose proof (frame_bytes_nonempty f (proj1 Hf)). destruct (frame_bytes f) as [|b X]; [done|].
    rewrite len_cons. pose proof (len_nonneg X). lia. }
  pose proof (len_nonneg pl). destruct (Z.leb_spec (len (frame_bytes f)) (saturating_sub M (len pl))).
  { apply Take. left. unfold saturating_sub in *. lia. }
  replace ((0 <? saturating_sub M (len pl)) && carries_data f) with false.
  2:{ symmetry. apply andb_false_iff. destruct (carries_data f); [left|by right]. apply Z.ltb_ge.
      destruct (Z.le_gt_cases (saturating_sub M (len pl)) 0); [done|]. destruct Hn. split; [done|lia]. }
  destruct pl as [|b pl].
  - apply Take. right. change (len (@nil Z)) with 0 in *. unfold saturating_sub in *. split_and!; [done|lia|].
    intros Hc. destruct (Z.le_gt_cases M 0); [lia|]. destruct Hn. split; [done|lia].
  - exists [], (f :: fs). rewrite !app_nil_r. split_and!; [done|by constructor|done|apply fits_nil|cbn; lia|].
    by intros out Ho.
Qed.

Definition packed (M : Z) (p : list Frame * bytes) : Prop :=
  p.1 ≠ [] ∧ p.2 = payload_of p.1 ∧
  (len p.2 ≤ M ∨ ∃ f, p.1 = [f] ∧ (carries_data f = true → M = 0)).

Lemma pack_space_spec M gate : 0 ≤ M → ∀ fuel fs i, Forall in_stream fs → (weight fs < fuel)%nat →
  ∃ packets queued, pack_space fuel gate i M fs = Ok (packets, queued) ∧
    Forall (packed M) packets ∧ cut M fs (concat packets.*1 ++ queued).
Proof.
  intros HM. induction fuel as [|fuel IH]; intros fs i Hfs Hw; [lia|].
  destruct fs as [|f fs]; [exists [], []; split_and!; by constructor|].
  cbn [pack_space].
  destruct (fill_packet_spec M (f :: fs) HM Hfs [] []) as (g & rest & -> & Hr & Hg & Hfit & Hl & Hcut).
  rewrite bind_ok. cbn [app]. destruct g as [|x g].
  { exists [], rest. split_and!; [done|done|]. apply Hcut, cut_refl. }
  destruct (gate i).
  - destruct (IH rest (S i) Hr) as (packets & queued & -> & Hp & Ho); [cbn [length] in Hl; lia|].
    rewrite bind_ok. eexists _, _. split_and!; [done| |].
    + constructor; [|done]. split_and!; [done..|]. unfold fits in Hfit. change (len (@nil Z)) with 0 in Hfit.
      destruct Hfit as [?|(_ & ?)]; [left; cbn [snd fst]; lia|by right].
    + cbn [fmap list_fmap concat fst]. rewrite <-app_assoc. by apply Hcut.
  - exists [], ((x :: g) ++ rest). split_and!; [done|done|]. apply Hcut, cut_refl.
Qed.

(** ** What packing promises, and what it does not *)

(** C27: whatever frames are queued for a space and whichever packets the
    congestion window lets through, the packing loop ends, and every packet it
    builds carries the encoding of its frames, is not empty, and fits in the
    payload limit unless it is one frame that carries no data (or the limit is
    zero).  The frames sent, followed by the frames queued again, are the given
    ones in order: whole, or cut into consecutive pieces, the last one with the
    FIN; a frame is only missing where a packet has some room left that does not
    hold one byte of its data. *)
Theorem packing_exact M gate i fs : 0 ≤ M → Forall in_stream fs →
  ∃ packets queued, pack_space (S (weight fs)) gate i M fs = Ok (packets, queued) ∧
    Forall (packed M) packets ∧ cut M fs (concat packets.*1 ++ queued).
Proof. intros HM Hfs. apply pack_space_spec; [done..|lia]. Qed.

Definition stream_frame (id off : Z) (fin : bool) (data : bytes) : Frame :=
  Stream {| sf_stream_id := id; sf_offset := off; sf_fin := fin; sf_data := data |}.

Lemma stream_frame_in_stream id off fin data : varint_ok id → 0 ≤ off →
  off + len data ≤ MAX_VARINT → bytes_ok data → in_stream (stream_frame id off fin data).
Proof.
  intros Hi Ho Hl Hd. pose proof (len_nonneg data).
  split; [|done]. cbn. split_and!; [done|unfold varint_ok; lia|]. split; [done|lia].
Qed.

Ltac concrete_stream :=
  apply stream_frame_in_stream;
    [unfold varint_ok, MAX_VARINT; lia|lia|unfold MAX_VARINT; vm_compute; discriminate
    |unfold bytes_ok, is_u8, U8_MAX; cbn [replicate]; rewrite ?Forall_cons, ?Forall_nil; lia].

Lemma packing_exact_witness :
  let fs := [Ping; stream_frame 0 0 true (replicate 30 7); stream_frame 4 0 false [1; 2; 3]] in
  Forall in_stream fs ∧
  ∃ packets queued, pack_space (S (weight fs)) (λ i, Nat.ltb i 2) 0 24 fs = Ok (packets, queued) ∧
    Forall (packed 24) packets ∧ cut 24 fs (concat packets.*1 ++ queued) ∧
    packets.*1 = [[Ping; stream_frame 0 0 false (replicate 19 7)];
                  [stream_frame 0 19 true (replicate 11 7); stream_frame 4 0 false [1; 2; 3]]] ∧ queued = [].
Proof.
  intros fs. assert (Hfs : Forall in_stream fs).
  { constructor; [done|]. repeat (constructor; [concrete_stream|]). constructor. }
  split; [done|]. destruct (packing_exact 24 (λ i, Nat.ltb i 2) 0 fs ltac:(lia) Hfs) as (ps & q & E & Hp & Hc).
  exists ps, q. split_and!; [done..| |]; vm_compute in E; by injection E as <- <-.
Defined.

(** C38: a queued STREAM or CRYPTO frame is lost without a trace when the packet
    being filled has some room left but not enough for the frame's header and one byte:
    the frame is in no packet and no longer queued, although it alone would fit in
    the next packet.  (Its data was already counted as sent, so it is not
    retransmitted either.) *)
Theorem packing_drops_stream_data M gate i f1 f2 fs :
  in_stream f1 → in_stream f2 → carries_data f2 = true → gate i = true →
  len (frame_bytes f1) < M → M - len (frame_bytes f1) < head_size f2 1 →
  1 < len (data_of f2) → M - len (frame_bytes f1) < len (frame_bytes f2) →
  ∀ fuel, pack_space (S fuel) gate i M (f1 :: f2 :: fs) =
    '(packets, queued) ← pack_space fuel gate (S i) M fs;
    Ok (([f1], frame_bytes f1) :: packets, queued).
Proof.
  intros H1 H2 Hc Hg Hl1 Hl2 Hd Hl fuel. pose proof (len_nonneg (frame_bytes f1)).
  cbn [pack_space fill_packet]. rewrite (encode_frame_ok f1) by apply H1. rewrite bind_ok.
  change (len (@nil Z)) with 0. unfold saturating_sub at 1. rewrite (proj2 (Z.leb_le _ _)) by lia.
  rewrite (encode_frame_ok f2) by apply H2. rewrite bind_ok. cbn [app].
  assert (Hs : saturating_sub M (len (frame_bytes f1)) = M - len (frame_bytes f1)) by (unfold saturating_sub; lia).
  rewrite Hs. rewrite (proj2 (Z.leb_gt _ _)), (proj2 (Z.ltb_lt _ _)), Hc by lia. cbn [andb].
  destruct (split_frame_spec f2 _ H2 Hc Hl) as (r & Hr & Hr' & Hin & _ & ->).
  assert (r = 0) as -> by (destruct (Z.eq_dec r 0); [done|]; pose proof (Hin 1); lia).
  rewrite !bind_ok, Hg. done.
Qed.

Lemma packing_drops_stream_data_witness :
  pack_space 9 (λ _, true) 0 24 [stream_frame 0 0 false (replicate 18 7); stream_frame 4 0 true (replicate 10 9)] =
    Ok ([([stream_frame 0 0 false (replicate 18 7)], frame_bytes (stream_frame 0 0 false (replicate 18 7)))], []).
Proof.
  apply (packing_drops_stream_data 24 (λ _, true) 0); [concrete_stream..|done|done| | | |]; by vm_compute.
Defined.
