(* ===== verification/Connection.v ===== *)
(** * The connection (starfish-quic/src/connection.rs): its state

    The fields of [QuicConnection], grouped by what they are for, with the
    modelled components as sub-states; the constructors of both sides; and the
    queries the other parts share.  rustls and the cryptographic primitives are
    interfaces.  Random bytes are drawn from a stream that is part of the state,
    the time of a call is an argument.  [qc_wire] are the datagrams the socket
    took, in their order.  The pacing of datagrams and the queue of the endpoint
    are not part of the state. *)

From coqutil Require Export Datatypes.RecordSetters.
From S2P Require Import Prelude QuicError Varint Frame Packet TransportParams Crypto KeyUpdate Retry.
From S2P Require Import FlowControl Streams StreamIo AckTracking ConnIds Recovery ConnRecovery.
Export TriangleBracketNotations.

Definition DEFAULT_INITIAL_MAX_DATA : Z := 1048576.
Definition DEFAULT_INITIAL_MAX_STREAM_DATA : Z := 262144.
Definition DEFAULT_INITIAL_MAX_STREAMS_BIDI : Z := 100.
Definition DEFAULT_INITIAL_MAX_STREAMS_UNI : Z := 100.
Definition DEFAULT_IDLE_TIMEOUT_MS : Z := 30000.
Definition KEEP_ALIVE_FRACTION : Z := 2.
Definition DEFAULT_ACK_DELAY_EXPONENT : Z := 3.
Definition DEFAULT_ACTIVE_CONNECTION_ID_LIMIT : Z := 2.
Definition MIN_STATELESS_RESET_LEN : Z := 21.
Definition KEY_UPDATE_SAFETY_MARGIN : Z := 1024.

#[export] Instance SocketAddr_eq_dec : EqDecision SocketAddr.
Proof. solve_decision. Defined.
#[export] Instance SocketAddr_countable : Countable SocketAddr.
Proof.
  refine (inj_countable'
    (λ a, match a with SocketV4 o p => inl (o, p) | SocketV6 o p f s => inr (o, p, f, s) end)
    (λ x, match x with inl (o, p) => SocketV4 o p | inr (o, p, f, s) => SocketV6 o p f s end) _).
  by intros [].
Defined.

(** ** What is not part of the repository *)

(** [quic::KeyChange] of rustls. *)
Inductive KeyChange (Secrets : Type) : Type :=
  | ChangeHandshake (keys : RustlsKeys)
  | ChangeOneRtt (keys : RustlsKeys) (next : Secrets).
Arguments ChangeHandshake {_}.
Arguments ChangeOneRtt {_}.

(** The TLS session: [read_hs] reports whether it took the bytes, [write_hs]
    gives handshake bytes and a change of keys. *)
Class TlsSession (Session Secrets : Type) := {
  read_hs : Session → bytes → bool * Session;
  write_hs : Session → bytes * option (KeyChange Secrets) * Session;
  quic_transport_parameters : Session → option bytes;
  zero_rtt_keys : Session → option RustlsDirectional;
  is_early_data_accepted : Session → option bool;
  next_packet_keys : Secrets → (PacketKey * PacketKey) * Secrets;
}.

(** The primitives of ring and the initial keys of rustls; [None] when the
    provider lacks the cipher suite. *)
Class Primitives := {
  hkdf : bytes → string → bytes;
  gcm128_seal : bytes → bytes → bytes → bytes → option bytes;
  gcm256_seal : bytes → bytes → bytes → bytes → option bytes;
  initial_keys : bytes → bool → option RustlsKeys;
  confidentiality_limit : PacketKey → Z;
}.

Definition derive_initial_keys `{Primitives} (dcid : bytes) (is_client : bool) : qres RustlsKeys :=
  ok_or Tls (initial_keys dcid is_client).

(** The clocks a call reads: [Instant::now], in nanoseconds, and the
    milliseconds since the epoch, when the system clock is not before it. *)
Record Clock := { instant : Z; wall : option Z }.

(** ** Parts of the state *)

Record PreferredPeerAddress := {
  pref_addr : SocketAddr;
  pref_cid : ConnectionId;
  pref_token : bytes;
}.

Inductive PathValidationKind :=
  | ObservedPeerMigration
  | PreferredAddress (p : PreferredPeerAddress).

#[export] Instance PreferredPeerAddress_eq_dec : EqDecision PreferredPeerAddress.
Proof. solve_decision. Defined.
#[export] Instance PathValidationKind_eq_dec : EqDecision PathValidationKind.
Proof. solve_decision. Defined.

Record PendingPeerPathValidation := {
  pv_addr : SocketAddr;
  pv_challenge : bytes;
  pv_kind : PathValidationKind;
}.

Record PeerPathState := {
  bytes_received : Z;
  bytes_sent : Z;
  validated : bool;
}.
Definition path_default : PeerPathState := {|
  bytes_received := 0; bytes_sent := 0; validated := false |}.

(** The active peer address with its counters ([bytes_received], [bytes_sent],
    [peer_address_validated]), the other addresses, and path validation. *)
Record Paths := {
  p_addr : SocketAddr;
  p_active : PeerPathState;
  p_peer_paths : gmap SocketAddr PeerPathState;
  p_targeted : list (SocketAddr * PacketNumberSpace * Frame);
  p_pending : option PendingPeerPathValidation;
  p_preferred : option PreferredPeerAddress;
  p_disable_active_migration : bool;
}.

(** The crypto streams. *)
Record CryptoStreams := {
  c_recv_buf : PacketNumberSpace → gmap Z bytes;
  c_recv_offset : PacketNumberSpace → Z;
  c_send_offset : PacketNumberSpace → Z;
  c_initial_data : option bytes;
}.

Record Timers := {
  t_idle_timeout : Z;
  t_last_recv : Z;
  t_idle_start : Z;
  t_sent_ack_eliciting : bool;
  t_last_send : Z;
}.

Record Closing := {
  draining_until : option Z;
  closing_frames : list (PacketNumberSpace * Frame);
  closing_response_pending : bool;
}.

(** Connection identifiers and limits of the handshake. *)
Record PeerParams := {
  pp_applied : bool;
  pp_ack_delay_exponent : Z;
  pp_max_ack_delay : Z;
  pp_active_cid_limit : Z;
  pp_initial_scid : option ConnectionId;
  pp_expected_retry_scid : option ConnectionId;
  pp_original_dcid : ConnectionId;
}.

(** What a client remembers of a server, shared with other connections. *)
Record Resumption := {
  r_remembered : option PeerTransportParameters;
  r_cache_key : option string;
  r_param_cache : option (gmap string PeerTransportParameters);
  r_token_cache : option (gmap string bytes);
  r_attempted_zero_rtt : bool;
  r_early_data_accepted : option bool;
}.

Record Tokens := {
  tk_retry_token : bytes;
  tk_retry_received : bool;
  tk_new_token_secret : option bytes;
  tk_new_token_sent : bool;
}.

Section Connection.
Context {C Session Secrets : Type} `{CongestionController C} `{TlsSession Session Secrets} `{Primitives}.

Record QuicConnection := {
  qc_state : ConnectionState;
  qc_side : Side;
  qc_tls : Session;
  qc_keys : KeyState (Secrets := Secrets);
  qc_cids : ConnectionIdManager;
  qc_rc : Recovery (C := C);
  qc_acks : PacketNumberSpace → AckState;
  qc_next_pn : PacketNumberSpace → Z;
  qc_crypto : CryptoStreams;
  qc_paths : Paths;
  qc_time : Timers;
  qc_close : Closing;
  qc_params : PeerParams;
  qc_resume : Resumption;
  qc_tokens : Tokens;
  qc_deferred : list PacketNumberSpace;
  qc_random : nat → Z → bytes;
  qc_wire : list (SocketAddr * bytes);
}.

(** ** Constructors *)

Definition key_state_new (keys : PacketKeys) : KeyState (Secrets := Secrets) := {|
  ks_keys := keys; ks_next_secrets := None; ks_local_key_phase := false;
  ks_remote_key_phase := false; ks_pending_remote := None; ks_packets_sent := 0;
  ks_key_update_pn := 0 |}.

Definition recovery_new (sd : Side) : Recovery (C := C) := {|
  rc_loss := loss_detection_new; rc_cc := cc_new;
  rc_io := {| io_streams := manager_new sd DEFAULT_INITIAL_MAX_STREAMS_BIDI
                DEFAULT_INITIAL_MAX_STREAMS_UNI DEFAULT_INITIAL_MAX_STREAM_DATA;
              io_flow := Conn.new DEFAULT_INITIAL_MAX_DATA DEFAULT_INITIAL_MAX_DATA;
              io_pending := [] |};
  rc_sent_frames := λ _, ∅; rc_zero_rtt_in_flight := ∅; rc_outbound_ecn_enabled := true;
  rc_peer_ack_ecn := λ _, None; rc_sent_ecn := λ _, ecn_zero; rc_path_mtu := path_mtu_new;
  rc_max_send_udp := MAX_DATAGRAM_SIZE |}.

Definition paths_new (peer_addr : SocketAddr) (ok : bool) : Paths :=
  let st := {| bytes_received := 0; bytes_sent := 0; validated := ok |} in {|
  p_addr := peer_addr; p_active := st; p_peer_paths := {[ peer_addr := st ]};
  p_targeted := []; p_pending := None; p_preferred := None;
  p_disable_active_migration := false |}.

(** What both constructors set. *)
Definition connection_new (sd : Side) (tls : Session) (keys : RustlsKeys)
    (local_cid remote_cid original_dcid : ConnectionId) (peer_addr : SocketAddr) (ok : bool)
    (initial_scid retry_scid : option ConnectionId) (new_token_secret : option bytes)
    (random : nat → Z → bytes) (now : Z) : QuicConnection := {|
  qc_state := CInitial; qc_side := sd; qc_tls := tls;
  qc_keys := key_state_new (set_from_quic_keys keys_new SpaceInitial keys);
  qc_cids := cid_manager_new local_cid remote_cid; qc_rc := recovery_new sd;
  qc_acks := λ _, ack_state_new; qc_next_pn := λ _, 0;
  qc_crypto := {| c_recv_buf := λ _, ∅; c_recv_offset := λ _, 0; c_send_offset := λ _, 0;
                  c_initial_data := None |};
  qc_paths := paths_new peer_addr ok;
  qc_time := {| t_idle_timeout := from_millis DEFAULT_IDLE_TIMEOUT_MS; t_last_recv := now;
                t_idle_start := now; t_sent_ack_eliciting := false; t_last_send := now |};
  qc_close := {| draining_until := None; closing_frames := []; closing_response_pending := false |};
  qc_params := {| pp_applied := false; pp_ack_delay_exponent := DEFAULT_ACK_DELAY_EXPONENT;
                  pp_max_ack_delay := from_millis DEFAULT_MAX_ACK_DELAY_MS;
                  pp_active_cid_limit := DEFAULT_ACTIVE_CONNECTION_ID_LIMIT;
                  pp_initial_scid := initial_scid; pp_expected_retry_scid := retry_scid;
                  pp_original_dcid := original_dcid |};
  qc_resume := {| r_remembered := None; r_cache_key := None; r_param_cache := None;
                  r_token_cache := None; r_attempted_zero_rtt := false;
                  r_early_data_accepted := None |};
  qc_tokens := {| tk_retry_token := []; tk_retry_received := false;
                  tk_new_token_secret := new_token_secret; tk_new_token_sent := false |};
  qc_deferred := []; qc_random := random; qc_wire := [] |}.

Definition new_client (peer_addr : SocketAddr) (local_cid remote_cid : ConnectionId) (tls : Session)
    (random : nat → Z → bytes) (now : Z) : qres QuicConnection :=
  keys ← derive_initial_keys (as_slice remote_cid) true;
  Ok (connection_new Client tls keys local_cid remote_cid remote_cid peer_addr true None None None
        random now).

Definition new_server (peer_addr : SocketAddr) (local_cid remote_cid : ConnectionId) (tls : Session)
    (initial_dcid : bytes) (original_dcid : ConnectionId)
    (retry_source_connection_id : option ConnectionId) (new_token_secret : option bytes)
    (peer_address_validated : bool) (random : nat → Z → bytes) (now : Z) : qres QuicConnection :=
  keys ← derive_initial_keys initial_dcid false;
  Ok (connection_new Server tls keys local_cid remote_cid original_dcid peer_addr
        peer_address_validated (Some remote_cid) retry_source_connection_id new_token_secret
        random now).

(** ** Working on a part of the state *)

Local Abbreviation connM := (stM QuicConnection QuicError).

Definition on_keys {A} (m : stM (KeyState (Secrets := Secrets)) QuicError A) : connM A :=
  λ c, let '(r, s) := m (qc_keys c) in (r, c <| qc_keys := s |>).
Definition on_cids {A} (m : stM ConnectionIdManager QuicError A) : connM A :=
  λ c, let '(r, s) := m (qc_cids c) in (r, c <| qc_cids := s |>).
Definition on_io {A} (m : ioM A) : connM A :=
  λ c, let '(r, s) := m (rc_io (qc_rc c)) in (r, c <| qc_rc := with_io s (qc_rc c) |>).

(** An operation that fails only by a panic and replaces its component. *)
Definition cids_to (f : ConnectionIdManager → qres ConnectionIdManager) : connM unit :=
  m ← gets qc_cids; m ← lift (f m); modify (λ c, c <| qc_cids := m |>).
Definition rc_to (f : Recovery (C := C) → qres (Recovery (C := C))) : connM unit :=
  r ← gets qc_rc; r ← lift (f r); modify (λ c, c <| qc_rc := r |>).
Definition push (sp : PacketNumberSpace) (f : Frame) : connM unit :=
  modify (λ c, c <| qc_rc := push_pending sp f (qc_rc c) |>).
Definition set_packet_keys (k : PacketKeys) (s : KeyState (Secrets := Secrets))
    : KeyState (Secrets := Secrets) := s <| ks_keys := k |>.

(** [rand::rng().fill] of [n] bytes. *)
Definition draw (n : Z) : connM bytes := λ c,
  (Ok (qc_random c 0 n), c <| qc_random := λ i, qc_random c (S i) |>).

(** ** Queries *)

Definition has_keys (c : QuicConnection) (sp : PacketNumberSpace) : bool :=
  bool_decide (is_Some (keys_get (ks_keys (qc_keys c)) sp)).
Definition has_one_rtt (c : QuicConnection) : bool := has_keys c SpaceApplicationData.

Definition can_send_zero_rtt (c : QuicConnection) : bool :=
  bool_decide (qc_side c = Client)
  && bool_decide (is_Some (k_zero_rtt_local (ks_keys (qc_keys c))))
  && negb (has_one_rtt c)
  && bool_decide (is_Some (r_remembered (qc_resume c))).

Definition application_send_kind (c : QuicConnection) : option ApplicationPacketKind :=
  if has_one_rtt c then Some AppOneRtt
  else if can_send_zero_rtt c then Some AppZeroRtt
  else None.

Definition closed_or_closing (s : ConnectionState) : bool :=
  match s with CClosing | CDraining | CClosed => true | _ => false end.
End Connection.

Definition frame_allowed_in_zero_rtt (f : Frame) : bool :=
  match f with
  | Ack _ | Crypto _ | HandshakeDone | NewToken _ | PathResponse _ | RetireConnectionId _ => false
  | _ => true
  end.

Arguments QuicConnection : clear implicits.

Abbreviation connM C Session Secrets := (stM (QuicConnection C Session Secrets) QuicError).
