(* ===== verification/ConnPaths.v ===== *)
(** * Paths of a connection (starfish-quic/src/connection.rs, RFC 9000 sections 8 and 9)

    The addresses a peer was seen at: the bytes counted for the limit on
    amplification, path validation by PATH_CHALLENGE and PATH_RESPONSE,
    migration, and the preferred address of a server. *)

From S2P Require Import Prelude QuicError Varint Frame Packet TransportParams Crypto KeyUpdate.
From S2P Require Import Streams StreamIo ConnIds Recovery ConnRecovery Connection.

Definition saturating_add_usize (a b : Z) : Z := Z.min USIZE_MAX (a + b).
Definition saturating_mul_usize (a b : Z) : Z := Z.min USIZE_MAX (a * b).

Section Paths.
Context {C Session Secrets : Type} `{CongestionController C} `{TlsSession Session Secrets} `{Primitives}.
Abbreviation conn := (QuicConnection C Session Secrets).
Abbreviation connM := (connM C Session Secrets).

(** ** The limit on amplification *)

Definition peer_path_state_for_addr (c : conn) (a : SocketAddr) : PeerPathState :=
  let p := qc_paths c in
  if bool_decide (qc_side c = Server) && bool_decide (a = p_addr p) then p_active p
  else default path_default (p_peer_paths p !! a).

Definition store_active_peer_path_state (c : conn) : conn :=
  if negb (bool_decide (qc_side c = Server)) then c
  else
    let p := qc_paths c in
    c <| qc_paths -> p_peer_paths := <[p_addr p := p_active p]> (p_peer_paths p) |>.

Definition load_active_peer_path_state (c : conn) : conn :=
  if negb (bool_decide (qc_side c = Server)) then c
  else
    let p := qc_paths c in
    c <| qc_paths -> p_active := default path_default (p_peer_paths p !! p_addr p) |>.

(** [peer_paths.entry(a).or_default()] and an assignment through it. *)
Definition with_entry (f : PeerPathState → PeerPathState) (a : SocketAddr) (c : conn) : conn :=
  let m := p_peer_paths (qc_paths c) in
  c <| qc_paths -> p_peer_paths := <[a := f (default path_default (m !! a))]> m |>.

Definition set_active_peer_addr (a : SocketAddr) (c : conn) : conn :=
  let c := if bool_decide (qc_side c = Server)
           then with_entry (λ st, st) a (store_active_peer_path_state c) else c in
  load_active_peer_path_state (c <| qc_paths -> p_addr := a |>).

(** The common part of the two counting functions. *)
Definition count_unvalidated (f : PeerPathState → PeerPathState) (a : SocketAddr) (c : conn)
    : conn :=
  if negb (bool_decide (qc_side c = Server)) then c
  else if bool_decide (a = p_addr (qc_paths c)) then
    if validated (p_active (qc_paths c)) then c
    else store_active_peer_path_state (c <| qc_paths -> p_active ::= f |>)
  else with_entry (λ st, if validated st then st else f st) a c.

Definition record_unvalidated_bytes_received (a : SocketAddr) (n : Z) (c : conn) : conn :=
  count_unvalidated (λ st, st <| bytes_received := saturating_add_usize (bytes_received st) n |>) a c.
Definition record_unvalidated_bytes_sent (a : SocketAddr) (n : Z) (c : conn) : conn :=
  count_unvalidated (λ st, st <| bytes_sent := saturating_add_usize (bytes_sent st) n |>) a c.

Definition mark_peer_path_validated (a : SocketAddr) (c : conn) : conn :=
  if negb (bool_decide (qc_side c = Server)) then c
  else if bool_decide (a = p_addr (qc_paths c)) then
    store_active_peer_path_state (c <| qc_paths -> p_active -> validated := true |>)
  else with_entry (λ st, st <| validated := true |>) a c.

Definition should_auto_validate_peer_path (sp : PacketNumberSpace) (a : SocketAddr) (c : conn)
    : bool :=
  bool_decide (qc_side c = Server) && negb (bool_decide (sp = SpaceInitial))
  && bool_decide (a = p_addr (qc_paths c)).

Definition can_send_to_addr (c : conn) (a : SocketAddr) (packet_len : Z) : bool :=
  if negb (bool_decide (qc_side c = Server)) then true
  else
    let st := peer_path_state_for_addr c a in
    validated st
    || (saturating_add_usize (bytes_sent st) packet_len <=?
        saturating_mul_usize (bytes_received st) 3).

(** ** Path validation *)

Definition queue_targeted_frame (a : SocketAddr) (sp : PacketNumberSpace) (f : Frame) : connM unit :=
  modify (λ c, c <| qc_paths -> p_targeted ::= (λ l, l ++ [(a, sp, f)]) |>).

Definition start_path_validation (a : SocketAddr) (kind : PathValidationKind) : connM unit :=
  c ← gets (λ c, c);
  if negb (bool_decide (qc_state c = CConnected))
     || bool_decide (a = p_addr (qc_paths c)) || (m_cid_len (qc_cids c) =? 0) then mret tt
  else
    _ ← modify (λ c, if bool_decide (qc_side c = Server) then with_entry (λ st, st) a c else c);
    if bool_decide (kind = ObservedPeerMigration) && bool_decide (qc_side c = Client)
       && p_disable_active_migration (qc_paths c) then mret tt
    else
      match p_pending (qc_paths c) with
      | Some _ => mret tt
      | None =>
          challenge_data ← draw 8;
          _ ← modify (λ c, c <| qc_paths -> p_pending :=
                Some {| pv_addr := a; pv_challenge := challenge_data; pv_kind := kind |} |>);
          queue_targeted_frame a SpaceApplicationData (PathChallenge challenge_data)
      end.

Definition begin_peer_path_validation (a : SocketAddr) : connM unit :=
  start_path_validation a ObservedPeerMigration.

(** The peer's identifier and token are those of its preferred address. *)
Definition adopt_preferred (p : PreferredPeerAddress) : connM unit :=
  _ ← cids_to (λ m, set_peer_cid m (pref_cid p));
  _ ← cids_to (λ m, set_active_peer_stateless_reset_token m (pref_token p));
  modify (λ c, c <| qc_paths -> p_preferred := None |>).

Definition maybe_begin_preferred_address_validation : connM unit :=
  c ← gets (λ c, c);
  if negb (bool_decide (qc_side c = Client)) || negb (bool_decide (qc_state c = CConnected))
  then mret tt
  else
    match p_preferred (qc_paths c) with
    | None => mret tt
    | Some preferred =>
        if bool_decide (pref_addr preferred = p_addr (qc_paths c)) then adopt_preferred preferred
        else start_path_validation (pref_addr preferred) (PreferredAddress preferred)
    end.

Definition process_path_response (a : SocketAddr) (data : bytes) (now : Z) : connM unit :=
  c ← gets (λ c, c);
  match p_pending (qc_paths c) with
  | None => mret tt
  | Some v =>
      if bool_decide (pv_addr v = a) && bool_decide (pv_challenge v = data) then
        _ ← modify (mark_peer_path_validated a);
        _ ← (if negb (bool_decide (a = p_addr (qc_paths c))) then
               _ ← modify (λ c, c <| qc_rc := reset_path_recovery_after_validation
                     (pp_max_ack_delay (qc_params c)) now (qc_rc c) |>);
               match pv_kind v with
               | ObservedPeerMigration =>
                   modify (λ c, c <| qc_cids := (rotate_active_peer_cid (qc_cids c)).2 |>)
               | PreferredAddress p => adopt_preferred p
               end
             else
               match pv_kind v with
               | PreferredAddress p => adopt_preferred p
               | ObservedPeerMigration => mret tt
               end);
        _ ← modify (set_active_peer_addr a);
        _ ← modify (λ c, c <| qc_paths -> p_pending := None |>);
        maybe_begin_preferred_address_validation
      else mret tt
  end.

Definition peer_cid_for_addr (c : conn) (a : SocketAddr) : qres ConnectionId :=
  match p_pending (qc_paths c) with
  | Some {| pv_addr := va; pv_kind := PreferredAddress p |} =>
      if bool_decide (va = a) then Ok (pref_cid p) else active_peer_cid (qc_cids c)
  | _ => active_peer_cid (qc_cids c)
  end.

Definition is_ipv4 (a : SocketAddr) : bool := match a with SocketV4 _ _ => true | _ => false end.

Definition select_preferred_peer_address (c : conn) (encoded : bytes)
    : qres (option PreferredPeerAddress) :=
  match decode_preferred_address encoded with
  | Ok d =>
      let addr := if is_ipv4 (p_addr (qc_paths c))
                  then match pa_ipv4 d with Some a => Some a | None => pa_ipv6 d end
                  else match pa_ipv6 d with Some a => Some a | None => pa_ipv4 d end in
      Ok ((λ a, {| pref_addr := a; pref_cid := pa_connection_id d;
                   pref_token := pa_stateless_reset_token d |}) <$> addr)
  | Err _ => Ok None
  | Panic => Panic
  | Diverge => Diverge
  end.
End Paths.
