(* ===== verification/ConnHandshake.v ===== *)
(** * The handshake of a connection (starfish-quic/src/connection.rs, RFC 9000 section 7, RFC 9001 section 4)

    The transport parameters of the peer, the crypto streams between the
    packets and the TLS session, the keys the session hands out and when they
    are given up, 0-RTT, and the Retry packet. *)

From S2P Require Import Prelude QuicError Varint Frame Packet TransportParams Crypto KeyUpdate Retry.
From S2P Require Import FlowControl Streams StreamIo AckTracking ConnIds Recovery ConnRecovery.
From S2P Require Import Connection ConnPaths.

Definition negotiated_idle_timeout (local_ms peer_ms : Z) : Z :=
  from_millis (if (local_ms =? 0) && (peer_ms =? 0) then 0
               else if local_ms =? 0 then peer_ms
               else if peer_ms =? 0 then local_ms
               else Z.min local_ms peer_ms).

(** ** Checking the transport parameters of the peer *)

Definition same_cid (a b : ConnectionId) : bool := bool_decide (as_slice a = as_slice b).

Definition check_initial_source_cid (expected : ConnectionId) (actual : option ConnectionId)
    : qres unit :=
  match actual with
  | Some a =>
      if same_cid a expected then Ok tt
      else Err (transport_parameter_error
             (msg "initial_source_connection_id {:?} does not match peer source CID {:?}"))
  | None => Err (transport_parameter_error (msg "missing initial_source_connection_id"))
  end.

Definition check_original_dcid (expected : ConnectionId) (actual : option ConnectionId) : qres unit :=
  match actual with
  | Some a =>
      if same_cid a expected then Ok tt
      else Err (transport_parameter_error
             (msg "original_destination_connection_id {:?} does not match original DCID {:?}"))
  | None => Err (transport_parameter_error (msg "missing original_destination_connection_id"))
  end.

Definition check_retry_source_cid (expected actual : option ConnectionId) : qres unit :=
  match expected, actual with
  | Some e, Some a =>
      if same_cid a e then Ok tt
      else Err (transport_parameter_error
             (msg "retry_source_connection_id {:?} does not match Retry SCID {:?}"))
  | Some _, None => Err (transport_parameter_error (msg "missing retry_source_connection_id"))
  | None, Some _ =>
      Err (transport_parameter_error (msg "unexpected retry_source_connection_id {:?}"))
  | None, None => Ok tt
  end.

Definition validate_peer_transport_parameters_for_state (sd : Side) (original_dcid : ConnectionId)
    (peer_initial_scid expected_retry_scid : option ConnectionId)
    (params : PeerTransportParameters) : qres unit :=
  if MAX_ACK_DELAY_EXPONENT <? ack_delay_exponent params then
    Err (transport_parameter_error
      (Msg "ack_delay_exponent {} exceeds {}" [ack_delay_exponent params; MAX_ACK_DELAY_EXPONENT]))
  else
    match peer_initial_scid with
    | None => Err (transport_parameter_error
                (msg "peer initial source connection ID is not known yet"))
    | Some expected =>
        _ ← check_initial_source_cid expected (initial_source_connection_id params);
        match sd with
        | Client =>
            _ ← check_original_dcid original_dcid (original_destination_connection_id params);
            check_retry_source_cid expected_retry_scid (retry_source_connection_id params)
        | Server =>
            if bool_decide (is_Some (original_destination_connection_id params)) then
              Err (transport_parameter_error (msg
                "client transport parameters must not include original_destination_connection_id"))
            else if bool_decide (is_Some (retry_source_connection_id params)) then
              Err (transport_parameter_error (msg
                "client transport parameters must not include retry_source_connection_id"))
            else Ok tt
        end
    end.

Section Handshake.
Context {C Session Secrets : Type} `{CongestionController C} `{TlsSession Session Secrets} `{Primitives}.
Abbreviation conn := (QuicConnection C Session Secrets).
Abbreviation connM := (connM C Session Secrets).

(** ** Applying the transport parameters of the peer *)

Definition apply_remembered_peer_transport_parameter_values (params : PeerTransportParameters)
    (c : conn) : conn :=
  let io := rc_io (qc_rc c) in
  let io := set_streams (apply_peer_initial_limits (io_streams io)
              (initial_max_stream_data_bidi_local params) (initial_max_stream_data_bidi_remote params)
              (initial_max_stream_data_uni params) (initial_max_streams_bidi params)
              (initial_max_streams_uni params))
              (set_conn_flow (Conn.set_send_max (io_flow io) (initial_max_data params)) io) in
  c <| qc_rc := with_io io (qc_rc c) |>.

(** The part about the size of datagrams. *)
Definition apply_max_udp_payload_size (n now : Z) (r : Recovery (C := C)) : qres Recovery :=
  let r := with_mtu ((rc_path_mtu r) <| peer_max_udp_payload_size := n |>) r in
  let r := with_max_send (Z.min (rc_max_send_udp r) (search_limit (rc_path_mtu r))) r in
  r ← match in_flight_probe (rc_path_mtu r) with
      | Some probe =>
          if search_limit (rc_path_mtu r) <? probe_size probe
          then abandon_path_mtu_probe (probe_pn probe) r else Ok r
      | None => Ok r
      end;
  let mtu := rc_path_mtu r in
  Ok (with_mtu (set_next_probe_at
        (if rc_max_send_udp r <? search_limit mtu
         then Some (default now (next_probe_at mtu)) else None) mtu) r).

Definition apply_peer_transport_parameter_values (params : PeerTransportParameters) (now : Z)
    : connM unit :=
  _ ← modify (apply_remembered_peer_transport_parameter_values params);
  _ ← modify (λ c, c <| qc_time -> t_idle_timeout :=
        negotiated_idle_timeout DEFAULT_IDLE_TIMEOUT_MS (max_idle_timeout_ms params) |>
        <| qc_params -> pp_ack_delay_exponent := ack_delay_exponent params |>
        <| qc_params -> pp_max_ack_delay := from_millis (max_ack_delay_ms params) |>);
  _ ← modify (λ c, c <| qc_rc := with_loss
        (set_max_ack_delay (pp_max_ack_delay (qc_params c)) (rc_loss (qc_rc c))) (qc_rc c) |>);
  _ ← rc_to (apply_max_udp_payload_size (max_udp_payload_size params) now);
  _ ← modify (λ c, c <| qc_paths -> p_disable_active_migration := disable_active_migration params |>
        <| qc_params -> pp_active_cid_limit := active_connection_id_limit params |>);
  _ ← match TransportParams.stateless_reset_token params with
      | Some token => cids_to (λ m, set_active_peer_stateless_reset_token m token)
      | None => mret tt
      end;
  c ← gets (λ c, c);
  preferred ← lift (match preferred_address params with
                    | Some encoded => select_preferred_peer_address c encoded
                    | None => Ok None
                    end);
  _ ← modify (λ c, c <| qc_paths -> p_preferred := preferred |>);
  maybe_begin_preferred_address_validation.

Definition cache_peer_transport_parameters (params : PeerTransportParameters) (c : conn) : conn :=
  match r_param_cache (qc_resume c), r_cache_key (qc_resume c) with
  | Some cache, Some key => c <| qc_resume -> r_param_cache := Some (<[key := params]> cache) |>
  | _, _ => c
  end.

Definition cache_new_token (token : bytes) (c : conn) : conn :=
  match r_token_cache (qc_resume c), r_cache_key (qc_resume c) with
  | Some cache, Some key => c <| qc_resume -> r_token_cache := Some (<[key := token]> cache) |>
  | _, _ => c
  end.

Definition configure_client_resumption_state (key : string)
    (cache : gmap string PeerTransportParameters) (token_cache : gmap string bytes) (c : conn) : conn :=
  let c := c <| qc_resume -> r_cache_key := Some key |> <| qc_resume -> r_param_cache := Some cache |>
             <| qc_resume -> r_token_cache := Some (delete key token_cache) |> in
  let c := match cache !! key with
           | Some params => apply_remembered_peer_transport_parameter_values params
                              (c <| qc_resume -> r_remembered := Some params |>)
           | None => c
           end in
  match token_cache !! key with
  | Some token => c <| qc_tokens -> tk_retry_token := token |>
  | None => c
  end.

Definition apply_peer_transport_parameters (t : Clock) : connM unit :=
  c ← gets (λ c, c);
  if pp_applied (qc_params c) then mret tt
  else
    match quic_transport_parameters (qc_tls c) with
    | None => mret tt
    | Some raw =>
        if bool_decide (qc_side c = Client) && negb (has_one_rtt c) then mret tt
        else
          params ← lift (parse_transport_parameters raw);
          _ ← lift (validate_peer_transport_parameters_for_state (qc_side c)
                      (pp_original_dcid (qc_params c)) (pp_initial_scid (qc_params c))
                      (pp_expected_retry_scid (qc_params c)) params);
          _ ← modify (λ c, c <| qc_params -> pp_applied := true |>);
          _ ← apply_peer_transport_parameter_values params (instant t);
          if bool_decide (qc_side c = Client) then
            modify (λ c, cache_peer_transport_parameters params
                           (c <| qc_resume -> r_remembered := Some params |>))
          else mret tt
    end.

(** ** Keys *)

Definition discard_zero_rtt_keys (c : conn) : conn :=
  c <| qc_keys ::= (λ k, set_packet_keys (discard_zero_rtt (ks_keys k)) k) |>.

Definition refresh_zero_rtt_keys (c : conn) : conn :=
  let keys := ks_keys (qc_keys c) in
  if bool_decide (qc_side c = Client) && has_one_rtt c then discard_zero_rtt_keys c
  else
    let has_zero_rtt := match qc_side c with
                        | Client => bool_decide (is_Some (k_zero_rtt_local keys))
                        | Server => bool_decide (is_Some (k_zero_rtt_remote keys))
                        end in
    if has_zero_rtt then c
    else
      match zero_rtt_keys (qc_tls c) with
      | Some k =>
          if bool_decide (qc_side c = Server) || bool_decide (is_Some (r_remembered (qc_resume c)))
          then c <| qc_keys ::= set_packet_keys (set_zero_rtt keys (bool_decide (qc_side c = Client)) k) |>
          else c
      | None => c
      end.

Definition finalize_client_early_data_state : connM unit :=
  c ← gets (λ c, c);
  if negb (bool_decide (qc_side c = Client)) || negb (has_one_rtt c) then mret tt
  else if negb (r_attempted_zero_rtt (qc_resume c)) then modify discard_zero_rtt_keys
  else if bool_decide (is_Some (r_early_data_accepted (qc_resume c))) then
    modify discard_zero_rtt_keys
  else
    let accepted := default false (is_early_data_accepted (qc_tls c)) in
    _ ← modify (λ c, c <| qc_resume -> r_early_data_accepted := Some accepted |>);
    _ ← (if accepted then mret tt else rc_to requeue_zero_rtt_in_flight);
    modify discard_zero_rtt_keys.

Definition queue_new_token_frame (t : Clock) : connM unit :=
  c ← gets (λ c, c);
  if negb (bool_decide (qc_side c = Server)) || tk_new_token_sent (qc_tokens c)
     || negb (has_one_rtt c) then mret tt
  else
    match tk_new_token_secret (qc_tokens c) with
    | None => mret tt
    | Some secret =>
        nonce ← draw NEW_TOKEN_NONCE_LEN;
        token ← lift (encode_new_token hkdf gcm256_seal (wall t) nonce (p_addr (qc_paths c)) secret);
        _ ← push SpaceApplicationData (NewToken token);
        modify (λ c, c <| qc_tokens -> tk_new_token_sent := true |>)
    end.

Definition install_keys (change : KeyChange Secrets) (t : Clock) : connM unit :=
  match change with
  | ChangeHandshake keys =>
      modify (λ c, c
        <| qc_keys ::= (λ k, set_packet_keys (set_from_quic_keys (ks_keys k) SpaceHandshake keys) k) |>
        <| qc_deferred ::= (λ l, l ++ [SpaceInitial]) |>
        <| qc_state ::= (λ s, if bool_decide (s = CInitial) then CHandshake else s) |>)
  | ChangeOneRtt keys next =>
      _ ← modify (λ c, c <| qc_keys ::= (λ k, install_one_rtt k keys next) |>
            <| qc_state := CConnected |>);
      sd ← gets qc_side;
      match sd with
      | Server => _ ← push SpaceApplicationData HandshakeDone; queue_new_token_frame t
      | Client => modify (λ c, c <| qc_deferred ::= (λ l, l ++ [SpaceHandshake]) |>)
      end
  end.

(** One space of [process_deferred_key_discards]. *)
Definition discard_keys (c : conn) (sp : PacketNumberSpace) : conn :=
  c <| qc_keys ::= (λ k, set_packet_keys (discard (ks_keys k) sp) k) |>
    <| qc_rc ::= discard_space sp |>
    <| qc_acks := per_space (qc_acks c) sp
         ((qc_acks c sp) <| recv_ecn_counts := ecn_zero |> <| largest_recv_pn_time := None |>) |>.

Definition process_deferred_key_discards (c : conn) : conn :=
  (foldl discard_keys c (qc_deferred c)) <| qc_deferred := [] |>.

(** ** The crypto streams *)

Definition crypto_frame (offset : Z) (data : bytes) : Frame :=
  Crypto {| crypto_offset := offset; crypto_data := data |}.

(** The turns of [process_tls_output]: [write_hs] until it reports no change of
    keys. *)
Fixpoint tls_output_loop (fuel : nat) (sp : PacketNumberSpace) (t : Clock) : connM unit :=
  match fuel with
  | O => lift Diverge
  | S fuel =>
      tls ← gets qc_tls;
      let '(data, key_change, tls) := write_hs tls in
      _ ← modify (λ c, c <| qc_tls := tls |>);
      _ ← match data with
          | [] => mret tt
          | _ =>
              _ ← modify (λ c, c <| qc_crypto -> c_initial_data ::= (λ d,
                    if bool_decide (sp = SpaceInitial)
                    then Some (default data d) else d) |>);
              offset ← gets (λ c, c_send_offset (qc_crypto c) sp);
              next ← lift (add_u64 offset (len data));
              _ ← modify (λ c, c <| qc_crypto -> c_send_offset ::= (λ f, per_space f sp next) |>);
              push sp (crypto_frame offset data)
          end;
      match key_change with
      | Some change =>
          _ ← install_keys change t;
          tls_output_loop fuel
            (match sp with SpaceInitial => SpaceHandshake | _ => SpaceApplicationData end) t
      | None => mret tt
      end
  end.

(** A session changes its keys twice, so three turns are enough. *)
Definition process_tls_output (t : Clock) : connM unit :=
  _ ← modify refresh_zero_rtt_keys;
  st ← gets qc_state;
  _ ← tls_output_loop 3 (match st with
                         | CInitial => SpaceInitial
                         | CHandshake => SpaceHandshake
                         | _ => SpaceApplicationData
                         end) t;
  _ ← modify refresh_zero_rtt_keys;
  _ ← apply_peer_transport_parameters t;
  finalize_client_early_data_state.

(** The bytes of [data], which starts at [offset], from the expected offset on
    go to the session. *)
Definition feed_tls (sp : PacketNumberSpace) (offset : Z) (data : bytes) : connM unit :=
  expected ← gets (λ c, c_recv_offset (qc_crypto c) sp);
  useful ← lift (slice_from data (expected - offset));
  next ← lift (add_u64 expected (len useful));
  _ ← modify (λ c, c <| qc_crypto -> c_recv_offset ::= (λ f, per_space f sp next) |>);
  tls ← gets qc_tls;
  let '(ok, tls) := read_hs tls useful in
  _ ← modify (λ c, c <| qc_tls := tls |>);
  if ok then mret tt else fail Tls.

Definition set_recv_buf (sp : PacketNumberSpace) (m : gmap Z bytes) (c : conn) : conn :=
  c <| qc_crypto -> c_recv_buf ::= (λ f, per_space f sp m) |>.

(** A chunk that ends at or below [next] has nothing new. *)
Definition is_stale (next : Z) (e : Z * bytes) : bool := e.1 + len e.2 <=? next.

(** The last chunk that starts at or below [next]. *)
Definition next_chunk (next : Z) (m : gmap Z bytes) : option (Z * bytes) :=
  last (filter (λ e, e.1 ≤ next ∧ is_stale next e = false) (sorted_entries m)).

(** The loop over the chunks that became contiguous; every turn but the last
    removes one. *)
Fixpoint drain_crypto (fuel : nat) (sp : PacketNumberSpace) : connM unit :=
  match fuel with
  | O => lift Diverge
  | S fuel =>
      next ← gets (λ c, c_recv_offset (qc_crypto c) sp);
      m ← gets (λ c, c_recv_buf (qc_crypto c) sp);
      let m := filter (λ e, is_stale next e = false) m in
      _ ← modify (set_recv_buf sp m);
      match next_chunk next m with
      | None => mret tt
      | Some (start, buffered) =>
          _ ← modify (set_recv_buf sp (delete start m));
          _ ← feed_tls sp start buffered;
          drain_crypto fuel sp
      end
  end.

(** An out-of-order chunk replaces a shorter one at its offset. *)
Definition buffer_chunk (offset : Z) (data : bytes) (m : gmap Z bytes) : gmap Z bytes :=
  match m !! offset with
  | Some existing => if len existing <? len data then <[offset := data]> m else m
  | None => <[offset := data]> m
  end.

(** [process_crypto_data] up to the transport parameters: the bytes that go to
    the session.  [false]: the function has returned. *)
Definition receive_crypto (sp : PacketNumberSpace) (offset : Z) (data : bytes) : connM bool :=
  expected ← gets (λ c, c_recv_offset (qc_crypto c) sp);
  stop ← lift (add_u64 offset (len data));
  if stop <=? expected then mret false
  else
    m ← gets (λ c, c_recv_buf (qc_crypto c) sp);
    if expected <? offset then
      _ ← modify (set_recv_buf sp (buffer_chunk offset data m)); mret false
    else
      _ ← feed_tls sp offset data;
      _ ← drain_crypto (S (size m)) sp;
      mret true.

Definition process_crypto_data (sp : PacketNumberSpace) (offset : Z) (data : bytes) (t : Clock)
    : connM unit :=
  fed ← receive_crypto sp offset data;
  if fed : bool then
    _ ← apply_peer_transport_parameters t;
    _ ← process_tls_output t;
    modify (λ c,
      if bool_decide (qc_side c = Server) && bool_decide (sp = SpaceHandshake)
         && has_one_rtt c && has_keys c SpaceHandshake
         && negb (bool_decide (SpaceHandshake ∈ qc_deferred c))
      then c <| qc_deferred ::= (λ l, l ++ [SpaceHandshake]) |> else c)
  else mret tt.

(** ** Retry *)

(** The Initial packet number space starts again, with the keys of the new
    connection ID. *)
Definition reset_initial_space (keys : RustlsKeys) (c : conn) : conn :=
  let sp := SpaceInitial in
  c <| qc_keys ::= (λ k, set_packet_keys (set_from_quic_keys (ks_keys k) sp keys) k) |>
    <| qc_next_pn ::= (λ f, per_space f sp 0) |>
    <| qc_acks := per_space (qc_acks c) sp
         ((qc_acks c sp) <| largest_recv_pn := 0 |> <| largest_recv_pn_time := None |>
            <| received_packets := false |> <| recv_pn_ranges := [] |>
            <| recv_ecn_counts := ecn_zero |> <| ack_needed := false |>) |>
    <| qc_rc ::= discard_space sp |>
    <| qc_crypto -> c_recv_offset ::= (λ f, per_space f sp 0) |>
    <| qc_crypto -> c_send_offset ::= (λ f, per_space f sp 0) |>
    <| qc_crypto -> c_recv_buf ::= (λ f, per_space f sp ∅) |>.

Definition drop_pending_initial (r : Recovery (C := C)) : Recovery :=
  let io := rc_io r in
  with_io {| io_streams := io_streams io; io_flow := io_flow io;
             io_pending := filter (λ x, x.1 ≠ SpaceInitial) (io_pending io) |} r.

Definition process_retry (data : bytes) (header : LongHeader) : connM unit :=
  c ← gets (λ c, c);
  if negb (bool_decide (qc_side c = Client)) then mret tt
  else if tk_retry_received (qc_tokens c) then mret tt
  else
    ok ← lift (verify_retry_integrity_tag gcm128_seal (pp_original_dcid (qc_params c)) data);
    if negb ok then fail (InvalidPacket (msg "retry integrity tag validation failed"))
    else
      retry ← lift (parse_retry_fields data (lh_header_len header) (lh_dcid header) (lh_scid header));
      if bool_decide (rp_token retry = []) then
        fail (InvalidPacket (msg "retry packet has empty token"))
      else
        _ ← modify (λ c, c <| qc_tokens -> tk_retry_token := rp_token retry |>
              <| qc_tokens -> tk_retry_received := true |>
              <| qc_params -> pp_expected_retry_scid := Some (rp_scid retry) |>);
        _ ← cids_to (λ m, set_peer_cid m (rp_scid retry));
        keys ← lift (derive_initial_keys (as_slice (rp_scid retry)) true);
        _ ← modify (reset_initial_space keys);
        _ ← modify (λ c, c <| qc_rc ::= drop_pending_initial |>);
        _ ← rc_to requeue_zero_rtt_in_flight;
        data ← gets (λ c, c_initial_data (qc_crypto c));
        match data with
        | Some data =>
            _ ← modify (λ c, c <| qc_crypto -> c_send_offset ::=
                  (λ f, per_space f SpaceInitial (len data)) |>);
            push SpaceInitial (crypto_frame 0 data)
        | None => mret tt
        end.
End Handshake.
