(* ===== verification/ConnReceive.v ===== *)
(** * Receiving (starfish-quic/src/connection.rs)

    A datagram with its coalesced packets, a packet with its frames, and the
    dispatch of a frame to the part of the connection it is for. *)

From S2P Require Import Prelude QuicError Varint Frame Packet TransportParams Crypto KeyUpdate Retry.
From S2P Require Import Streams StreamIo AckTracking ConnIds Recovery ConnRecovery.
From S2P Require Import Connection ConnPaths ConnHandshake.

#[export] Instance LongPacketType_eq_dec : EqDecision LongPacketType.
Proof. solve_decision. Defined.

(** The messages of packets that do not authenticate. *)
Definition should_silently_drop_protected_packet (e : QuicError) : bool :=
  match e with
  | InvalidPacket m =>
      String.eqb (msg_text m) "AEAD decryption failed"
      || String.eqb (msg_text m) "header protection decrypt failed"
  | _ => false
  end.

Section Receive.
Context {C Session Secrets : Type}.
Context `{CongestionController C} `{TlsSession Session Secrets} `{Primitives}.
Abbreviation conn := (QuicConnection C Session Secrets).
Abbreviation connM := (connM C Session Secrets).

Fixpoint for_each {A} (f : A → connM unit) (l : list A) : connM unit :=
  match l with
  | [] => mret tt
  | x :: rest => _ ← f x; for_each f rest
  end.

Definition enter_draining_at (now : Z) (c : conn) : conn :=
  if bool_decide (qc_state c = CClosed) then c
  else c <| qc_state := CDraining |>
         <| qc_close := {| draining_until := Some (now + pto_timeout (rc_loss (qc_rc c)) * 3);
                           closing_frames := []; closing_response_pending := false |} |>.

Definition record_packet_received (now : Z) (c : conn) : conn :=
  c <| qc_time -> t_last_recv := now |> <| qc_time -> t_idle_start := now |>
    <| qc_time -> t_sent_ack_eliciting := false |>.

(** ** Frames *)

Definition process_handshake_done : connM unit :=
  sd ← gets qc_side;
  match sd with
  | Client =>
      _ ← modify (λ c, c <| qc_state := CConnected |>);
      _ ← finalize_client_early_data_state;
      modify (λ c, c
        <| qc_keys ::= (λ k, set_packet_keys (discard (ks_keys k) SpaceHandshake) k) |>
        <| qc_rc ::= discard_space SpaceHandshake |>
        <| qc_acks := per_space (qc_acks c) SpaceHandshake
             ((qc_acks c SpaceHandshake) <| recv_ecn_counts := ecn_zero |>) |>)
  | Server => mret tt
  end.

Definition process_new_token (token : bytes) : connM unit :=
  c ← gets (λ c, c);
  if negb (bool_decide (qc_side c = Client)) then
    fail (Transport ProtocolViolation (msg "clients must not send NEW_TOKEN"))
  else if bool_decide (token = []) then
    fail (Transport FrameEncodingError (msg "NEW_TOKEN token must be non-empty"))
  else if bool_decide (tk_retry_token (qc_tokens c) = token) then mret tt
  else modify (λ c, cache_new_token token (c <| qc_tokens -> tk_retry_token := token |>)).

(** The random bytes of a new connection ID and its token are the next two
    draws. *)
Definition process_retire_connection_id (seq : Z) : connM unit := λ c,
  let '(r, m) := retire_local_cid seq (qc_random c 0) (qc_random c 1 16) (qc_cids c) in
  (r, c <| qc_cids := m |> <| qc_random := λ i, qc_random c (S (S i)) |>).

Definition process_frame_from (sp : PacketNumberSpace) (kind : ReceivedPacketKind) (f : Frame)
    (a : SocketAddr) (t : Clock) : connM unit :=
  if match kind with RZeroRtt => negb (frame_allowed_in_zero_rtt f) | _ => false end then
    fail (Transport ProtocolViolation (msg "frame {:?} is not permitted in 0-RTT packets"))
  else
    match f with
    | Padding | Ping => mret tt
    | Ack ack =>
        exponent ← gets (λ c, pp_ack_delay_exponent (qc_params c));
        rc_to (process_ack exponent sp ack (instant t))
    | Crypto cf => process_crypto_data sp (crypto_offset cf) (crypto_data cf) t
    | ConnectionClose _ _ _ _ => modify (enter_draining_at (instant t))
    | HandshakeDone => process_handshake_done
    | PathChallenge data => queue_targeted_frame a SpaceApplicationData (PathResponse data)
    | PathResponse data => process_path_response a data (instant t)
    | NewConnectionId seq retire_prior_to connection_id token =>
        on_cids (process_new_connection_id seq retire_prior_to connection_id token)
    | RetireConnectionId seq => process_retire_connection_id seq
    | NewToken token => process_new_token token
    | _ => on_io (process_stream_arm f)
    end.

(** ** Packets *)

Definition process_packet (sp : PacketNumberSpace) (kind : ReceivedPacketKind) (data : bytes)
    (a : SocketAddr) (e : option UdpEcnCodepoint) (t : Clock) : connM unit :=
  cid_len ← gets (λ c, m_cid_len (qc_cids c));
  largest ← gets (λ c, largest_recv_pn (qc_acks c sp));
  opened ← on_keys (open_packet next_packet_keys sp kind cid_len largest data);
  match opened with
  | None => mret tt
  | Some (full_pn, frames) =>
      _ ← modify (record_packet_received (instant t));
      _ ← modify (λ c, c <| qc_acks := per_space (qc_acks c) sp
            (note_packet (qc_acks c sp) full_pn e (existsb is_ack_eliciting frames) (instant t)) |>);
      _ ← for_each (λ f, process_frame_from sp kind f a t) frames;
      modify (λ c, if should_auto_validate_peer_path sp a c
                   then mark_peer_path_validated a c else c)
  end.

(** ** Datagrams *)

Definition is_stateless_reset (c : conn) (data : bytes) : bool :=
  match data with
  | first :: _ =>
      (MIN_STATELESS_RESET_LEN <=? len data) && (Z.land first 0x80 =? 0)
      && is_peer_stateless_reset_token (qc_cids c) (drop (Z.to_nat (len data - 16)) data)
  | [] => false
  end.

(** The identifier the peer chose for itself in its first packet. *)
Definition note_initial_scid (h : LongHeader) : connM unit :=
  c ← gets (λ c, c);
  if negb (bool_decide (lh_packet_type h = Packet.Retry))
     && bool_decide (pp_initial_scid (qc_params c) = None) then
    _ ← modify (λ c, c <| qc_params -> pp_initial_scid := Some (lh_scid h) |>);
    if bool_decide (qc_side c = Client) then cids_to (λ m, set_peer_cid m (lh_scid h)) else mret tt
  else mret tt.

(** Where a packet with a long header ends. *)
Definition long_packet_end (remaining : bytes) (h : LongHeader) : qres Z :=
  stop ← match lh_packet_type h with
         | Initial =>
             f ← parse_initial_fields remaining (lh_header_len h) (lh_first_byte h);
             add_u64 (ip_pn_offset f) (ip_length f)
         | Handshake =>
             f ← parse_handshake_fields remaining (lh_header_len h) (lh_first_byte h);
             add_u64 (hp_pn_offset f) (hp_length f)
         | ZeroRtt =>
             f ← parse_zero_rtt_fields remaining (lh_header_len h) (lh_first_byte h);
             add_u64 (zp_pn_offset f) (zp_length f)
         | Packet.Retry => Ok (len remaining)
         end;
  Ok (Z.min stop (len remaining)).

Definition long_space (ty : LongPacketType) : PacketNumberSpace :=
  match ty with
  | Initial => SpaceInitial
  | Handshake => SpaceHandshake
  | ZeroRtt | Packet.Retry => SpaceApplicationData
  end.
Definition long_kind (ty : LongPacketType) : ReceivedPacketKind :=
  match ty with Initial => RInitial | Handshake => RHandshake | ZeroRtt | Packet.Retry => RZeroRtt end.

(** The call of [process_packet] for a long header: an error that shows a
    packet that does not authenticate is swallowed. *)
Definition try_long_packet (sp : PacketNumberSpace) (kind : ReceivedPacketKind) (data : bytes)
    (a : SocketAddr) (e : option UdpEcnCodepoint) (t : Clock) : connM unit := λ c,
  match process_packet sp kind data a e t c with
  | (Ok _, c) => begin_peer_path_validation a c
  | (Err err, c) => if should_silently_drop_protected_packet err then (Ok tt, c) else (Err err, c)
  | (r, c) => (r, c)
  end.

(** The arm for a short header, which ends the datagram. *)
Definition short_packet (remaining : bytes) (a : SocketAddr) (e : option UdpEcnCodepoint)
    (t : Clock) : connM unit := λ c,
  let reset c := (Ok tt, enter_draining_at (instant t) c) in
  match process_packet SpaceApplicationData ROneRtt remaining a e t c with
  | (Ok _, c) =>
      (_ ← begin_peer_path_validation a;
       modify (λ c,
         if negb (bool_decide (qc_state c = CDraining)) && negb (has_one_rtt c)
            && is_stateless_reset c remaining
         then enter_draining_at (instant t) c else c)) c
  | (Err err, c) =>
      if is_stateless_reset c remaining then reset c
      else if should_silently_drop_protected_packet err then (Ok tt, c)
      else (Err err, c)
  | (r, c) => (r, c)
  end.

Fixpoint datagram_loop (fuel : nat) (remaining : bytes) (a : SocketAddr)
    (e : option UdpEcnCodepoint) (t : Clock) : connM unit :=
  match remaining with
  | [] => mret tt
  | _ =>
      match fuel with
      | O => lift Diverge
      | S fuel =>
          c ← gets (λ c, c);
          match parse_header remaining (m_cid_len (qc_cids c)) with
          | Err err =>
              if is_stateless_reset c remaining then modify (enter_draining_at (instant t))
              else fail err
          | Panic => lift Panic
          | Diverge => lift Diverge
          | Ok (HLong h) =>
              _ ← note_initial_scid h;
              let ty := lh_packet_type h in
              if bool_decide (ty = Packet.Retry) then process_retry remaining h
              else
                packet_end ← lift (long_packet_end remaining h);
                packet ← lift (slice remaining 0 packet_end);
                rest ← lift (slice_from remaining packet_end);
                if bool_decide (qc_side c = Client) && bool_decide (ty = ZeroRtt)
                then datagram_loop fuel rest a e t
                else
                  _ ← try_long_packet (long_space ty) (long_kind ty) packet a e t;
                  datagram_loop fuel rest a e t
          | Ok (HShort _) => short_packet remaining a e t
          | Ok (HVersionNegotiation _ _ supported_versions) =>
              if bool_decide (qc_side c = Client)
                 && negb (bool_decide (QUIC_VERSION_1 ∈ supported_versions))
              then fail (Transport InternalError (msg "server does not support QUIC v1"))
              else mret tt
          end
      end
  end.

(** [process_datagram_from_with_ecn]; every turn of the loop takes a byte. *)
Definition process_datagram (data : bytes) (a : SocketAddr) (e : option UdpEcnCodepoint)
    (t : Clock) : connM unit :=
  _ ← modify (record_unvalidated_bytes_received a (len data));
  datagram_loop (length data) data a e t.

(** [feed_datagram_from_with_ecn]. *)
Definition feed_datagram (data : bytes) (a : SocketAddr) (e : option UdpEcnCodepoint) (t : Clock)
    : connM unit :=
  st ← gets qc_state;
  match st with
  | CClosing => modify (λ c, c <| qc_close -> closing_response_pending := true |>)
  | CDraining | CClosed => mret tt
  | _ =>
      _ ← process_datagram data a e t;
      st ← gets qc_state;
      if closed_or_closing st then mret tt else process_tls_output t
  end.
End Receive.
