(* ===== verification/ConnSend.v ===== *)
(** * Sending (starfish-quic/src/connection.rs)

    A packet is built for an address when the congestion controller and the
    limit on amplification let it out; the queued frames are packed into
    packets, coalesced into datagrams and handed to the socket, which takes
    every datagram. *)

From S2P Require Import Prelude QuicError Varint Frame Packet TransportParams Crypto KeyUpdate.
From S2P Require Import Streams StreamIo AckTracking ConnIds Recovery ConnRecovery Packing.
From S2P Require Import Connection ConnPaths ConnHandshake ConnReceive.

Section Send.
Context {C Session Secrets : Type}.
Context `{CongestionController C} `{TlsSession Session Secrets} `{Primitives}.
Abbreviation conn := (QuicConnection C Session Secrets).
Abbreviation connM := (connM C Session Secrets).

(** ** One packet *)

(** The keys a packet is sealed with. *)
Definition local_keys (c : conn) (sp : PacketNumberSpace) (k : option ApplicationPacketKind)
    : option (PacketKey * HeaderProtectionKey) :=
  match k with
  | Some AppZeroRtt => (λ d, (rd_packet d, rd_header d)) <$> k_zero_rtt_local (ks_keys (qc_keys c))
  | _ => (λ d, (dk_local d, dk_local_header d)) <$> keys_get (ks_keys (qc_keys c)) sp
  end.
(** [tag_len()] is a [usize]. *)
Definition tag_len_of (c : conn) (sp : PacketNumberSpace) (k : option ApplicationPacketKind) : Z :=
  default 16 ((λ x, Z.max 0 (pk_tag_len x.1)) <$> local_keys c sp k).
Definition sample_len_of (c : conn) (sp : PacketNumberSpace) (k : option ApplicationPacketKind) : Z :=
  default 16 ((λ x, hpk_sample_len x.2) <$> local_keys c sp k).

(** Packets of the application space are 0-RTT or 1-RTT, the others neither;
    [None]: nothing can be sent. *)
Definition packet_kind (c : conn) (sp : PacketNumberSpace) : option (option ApplicationPacketKind) :=
  if bool_decide (sp = SpaceApplicationData) then Some <$> application_send_kind c else Some None.

Definition build_packet_to_addr (sp : PacketNumberSpace) (frames : list Frame) (payload : bytes)
    (a : SocketAddr) (track_retransmission : bool) (pending_datagram_bytes : Z)
    : connM (option BuiltPacket) :=
  c ← gets (λ c, c);
  match packet_kind c sp with
  | None => mret None
  | Some kind =>
      let tag_len := tag_len_of c sp kind in
      let sample_len := sample_len_of c sp kind in
      allowed ← lift (congestion_gate (qc_rc c) frames (len payload) tag_len pending_datagram_bytes);
      if negb allowed then mret None
      else
        let pn := qc_next_pn c sp in
        let largest := default 0 (largest_acked (rc_loss (qc_rc c)) sp) in
        dcid ← lift (peer_cid_for_addr c a);
        local_cid ← lift (primary_local_cid (qc_cids c));
        '(packet_data, (pn_offset, pn_len)) ←
          lift (encode_padded sp kind dcid local_cid (tk_retry_token (qc_tokens c))
                  (ks_local_key_phase (qc_keys c)) pn largest tag_len sample_len payload);
        let packet_len := saturating_add_usize (len packet_data) tag_len in
        if negb (can_send_to_addr c a (saturating_add_usize pending_datagram_bytes packet_len))
        then mret None
        else
          match local_keys c sp kind with
          | None => mret None
          | Some (packet_key, header_key) =>
              data ← lift (seal_packet pn packet_data pn_offset pn_len packet_key header_key);
              _ ← modify (λ c, match kind with
                               | Some AppZeroRtt => c <| qc_resume -> r_attempted_zero_rtt := true |>
                               | _ => c
                               end);
              next ← lift (add_u64 pn 1);
              _ ← modify (λ c, c <| qc_next_pn ::= (λ f, per_space f sp next) |>);
              mret (Some (built_packet sp pn frames data track_retransmission kind))
          end
  end.

(** ** One datagram *)

Definition record_packet_sent (now : Z) (ack_eliciting : bool) (c : conn) : conn :=
  let c := c <| qc_time -> t_last_send := now |> in
  if ack_eliciting && negb (t_sent_ack_eliciting (qc_time c)) then
    c <| qc_time -> t_idle_start := now |> <| qc_time -> t_sent_ack_eliciting := true |>
  else c.

Definition count_one_rtt (packets : list BuiltPacket) (k : KeyState (Secrets := Secrets))
    : KeyState (Secrets := Secrets) :=
  foldl (λ k p, match bp_app_kind p with
                | Some AppOneRtt => k <| ks_packets_sent ::= (λ n, saturating_add_u64 n 1) |>
                | _ => k
                end) k packets.

Definition send_built_datagram_to_addr (a : SocketAddr) (datagram : bytes)
    (packets : list BuiltPacket) (now : Z) : connM unit :=
  match datagram with
  | [] => mret tt
  | _ =>
      _ ← modify (λ c, c <| qc_wire ::= (λ w, w ++ [(a, datagram)]) |>);
      _ ← modify (record_packet_sent now (existsb bp_ack_eliciting packets));
      _ ← modify (record_unvalidated_bytes_sent a (len datagram));
      _ ← rc_to (λ r, send_built_datagram r datagram packets now);
      modify (λ c, c <| qc_keys ::= count_one_rtt packets |>)
  end.

Definition send_frames_to_addr (sp : PacketNumberSpace) (frames : list Frame) (payload : bytes)
    (a : SocketAddr) (track_retransmission : bool) (now : Z) : connM bool :=
  r ← build_packet_to_addr sp frames payload a track_retransmission 0;
  match r with
  | None => mret false
  | Some p => _ ← send_built_datagram_to_addr a (bp_bytes p) [p] now; mret true
  end.

(** ** Key updates before the limit of the cipher *)

Definition should_initiate_key_update (c : conn) : bool :=
  match k_one_rtt (ks_keys (qc_keys c)), ks_pending_remote (qc_keys c) with
  | Some keys, None =>
      saturating_sub (confidentiality_limit (dk_local keys)) KEY_UPDATE_SAFETY_MARGIN
      <=? ks_packets_sent (qc_keys c)
  | _, _ => false
  end.

Definition maybe_initiate_key_update : connM unit :=
  due ← gets should_initiate_key_update;
  if due : bool then _ ← on_keys (initiate_key_update next_packet_keys); mret tt else mret tt.

(** ** The frames of one packet number space *)

Definition flush_coalesced (dat : bytes) (pkts : list BuiltPacket) (now : Z)
    : connM (bytes * list BuiltPacket) :=
  match pkts with
  | [] => mret (dat, [])
  | _ =>
      a ← gets (λ c, p_addr (qc_paths c));
      _ ← send_built_datagram_to_addr a dat pkts now; mret ([], [])
  end.

(** The loop that packs and sends the frames of a space.  [dat] and [pkts] are
    the coalesced datagram; the frames in the result are queued again. *)
Fixpoint send_space (fuel : nat) (sp : PacketNumberSpace) (frames : list Frame)
    (dat : bytes) (pkts : list BuiltPacket) (now : Z)
    : connM (list Frame * (bytes * list BuiltPacket)) :=
  match frames with
  | [] => mret ([], (dat, pkts))
  | _ =>
      match fuel with
      | O => lift Diverge
      | S fuel =>
          let app := bool_decide (sp = SpaceApplicationData) in
          _ ← (if app then maybe_initiate_key_update else mret tt);
          c ← gets (λ c, c);
          let tag_len := tag_len_of c sp (default None (packet_kind c sp)) in
          '(packet_frames, payload, rest) ←
            lift (fill_packet (max_payload (rc_max_send_udp (qc_rc c)) tag_len) frames [] []);
          match packet_frames with
          | [] => mret (rest, (dat, pkts))
          | _ =>
              r ← build_packet_to_addr sp packet_frames payload (p_addr (qc_paths c)) true
                    (if app then 0 else len dat);
              match r with
              | None => mret (packet_frames ++ rest, (dat, pkts))
              | Some p =>
                  if app then
                    '(dat, pkts) ← flush_coalesced dat pkts now;
                    _ ← send_built_datagram_to_addr (p_addr (qc_paths c)) (bp_bytes p) [p] now;
                    send_space fuel sp rest dat pkts now
                  else if len dat + len (bp_bytes p) <=? rc_max_send_udp (qc_rc c) then
                    send_space fuel sp rest (dat ++ bp_bytes p) (pkts ++ [p]) now
                  else
                    '(_, pkts) ← flush_coalesced dat pkts now;
                    send_space fuel sp rest (bp_bytes p) (pkts ++ [p]) now
              end
          end
      end
  end.

(** ** Everything that is queued *)

Definition pending (c : conn) : list (PacketNumberSpace * Frame) := io_pending (rc_io (qc_rc c)).
Definition set_pending (l : list (PacketNumberSpace * Frame)) (c : conn) : conn :=
  let io := rc_io (qc_rc c) in
  c <| qc_rc := with_io {| io_streams := io_streams io; io_flow := io_flow io; io_pending := l |}
                  (qc_rc c) |>.

(** The turn of the loop over the spaces. *)
Definition send_one_space (acc : bytes * list BuiltPacket) (sp : PacketNumberSpace) (now : Z)
    : connM (bytes * list BuiltPacket) :=
  c ← gets (λ c, c);
  let ready := if bool_decide (sp = SpaceApplicationData)
               then bool_decide (is_Some (application_send_kind c)) else has_keys c sp in
  if negb ready then mret acc
  else
    let mine := (filter (λ x, x.1 = sp) (pending c)).*2 in
    let others := filter (λ x, x.1 ≠ sp) (pending c) in
    let early := bool_decide (sp = SpaceApplicationData)
                 && match application_send_kind c with Some AppZeroRtt => true | _ => false end in
    let frames := if early then filter (λ f, frame_allowed_in_zero_rtt f = true) mine else mine in
    let kept := if early then filter (λ f, frame_allowed_in_zero_rtt f = false) mine else [] in
    _ ← modify (set_pending (others ++ ((sp,.) <$> kept)));
    '(unsent, acc) ← send_space (S (weight frames)) sp frames acc.1 acc.2 now;
    _ ← modify (λ c, set_pending (pending c ++ ((sp,.) <$> unsent)) c);
    mret acc.

(** [generate_acks]: a later space is queued in front of an earlier one. *)
Definition generate_acks (now : Z) (c : conn) : conn :=
  foldl (λ c sp,
    let app := bool_decide (sp = SpaceApplicationData) in
    let ready := if app then bool_decide (is_Some (application_send_kind c)) else has_keys c sp in
    let '(ack, st) := generate_ack app ready DEFAULT_ACK_DELAY_EXPONENT
                        (from_millis DEFAULT_MAX_ACK_DELAY_MS) now (qc_acks c sp) in
    match ack with
    | Some ack => set_pending ((sp, Ack ack) :: pending c)
                    (c <| qc_acks := per_space (qc_acks c) sp st |>)
    | None => c
    end) c all_spaces.

(** The random bytes of up to two identifiers are the next four draws. *)
Definition connection_id_updates : connM unit := λ c,
  let '(r, m) := generate_connection_id_updates (pp_applied (qc_params c)) (qc_state c)
                   (pp_active_cid_limit (qc_params c)) (λ i, qc_random c (2 * i)%nat)
                   (λ i, qc_random c (2 * i + 1)%nat 16) (qc_cids c) in
  let c := c <| qc_cids := m |> <| qc_random := λ i, qc_random c (4 + i)%nat |> in
  match r with
  | Ok frames => (Ok tt, set_pending (pending c ++ ((SpaceApplicationData,.) <$> frames)) c)
  | Err e => (Err e, c)
  | Panic => (Panic, c)
  | Diverge => (Diverge, c)
  end.

(** A frame for an address other than the peer's: whether it can go out now. *)
Definition targeted_ready (c : conn) (sp : PacketNumberSpace) (f : Frame) : bool :=
  if bool_decide (sp = SpaceApplicationData) then
    match application_send_kind c with
    | None => false
    | Some AppZeroRtt => frame_allowed_in_zero_rtt f
    | Some AppOneRtt => true
    end
  else has_keys c sp.

Fixpoint send_targeted (l remaining : list (SocketAddr * PacketNumberSpace * Frame)) (now : Z)
    : connM unit :=
  match l with
  | [] => modify (λ c, c <| qc_paths -> p_targeted := remaining |>)
  | (a, sp, f) :: rest =>
      _ ← modify (λ c, c <| qc_paths -> p_targeted := rest |>);
      ready ← gets (λ c, targeted_ready c sp f);
      if negb ready then send_targeted rest (remaining ++ [(a, sp, f)]) now
      else
        _ ← (if bool_decide (sp = SpaceApplicationData) then maybe_initiate_key_update else mret tt);
        payload ← lift (encode_frame f);
        sent ← send_frames_to_addr sp [f] payload a false now;
        if sent : bool then send_targeted rest remaining now
        else modify (λ c, c <| qc_paths -> p_targeted := remaining ++ (a, sp, f) :: rest |>)
  end.

(** ** Path MTU probes *)

Definition path_mtu_probe_due (c : conn) (now : Z) : bool :=
  bool_decide (qc_state c = CConnected) && has_one_rtt c && pp_applied (qc_params c)
  && bool_decide (in_flight_probe (rc_path_mtu (qc_rc c)) = None)
  && bool_decide (is_Some (next_path_mtu_probe_size (qc_rc c)))
  && match next_probe_at (rc_path_mtu (qc_rc c)) with
     | Some deadline => deadline <=? now | None => true end.

Definition build_path_mtu_probe_packet (target_size : Z) : connM (option BuiltPacket) :=
  c ← gets (λ c, c);
  match k_one_rtt (ks_keys (qc_keys c)) with
  | None => mret None
  | Some keys =>
      let largest := default 0 (largest_acked (rc_loss (qc_rc c)) SpaceApplicationData) in
      dcid ← lift (active_peer_cid (qc_cids c));
      '(base_packet, _) ← lift (encode_one_rtt_packet dcid false (ks_local_key_phase (qc_keys c))
                                  (qc_next_pn c SpaceApplicationData) largest [0x01]);
      let base_size := len base_packet + pk_tag_len (dk_local keys) in
      if target_size <=? base_size then mret None
      else build_packet_to_addr SpaceApplicationData [Ping]
             (resize (1 + (target_size - base_size)) [0x01]) (p_addr (qc_paths c)) true 0
  end.

Definition send_path_mtu_probe (now : Z) : connM unit :=
  c ← gets (λ c, c);
  if negb (path_mtu_probe_due c now) then mret tt
  else
    match next_path_mtu_probe_size (qc_rc c) with
    | None => mret tt
    | Some target_size =>
        r ← build_path_mtu_probe_packet target_size;
        match r with
        | None => modify (λ c, c <| qc_rc ::= schedule_next_path_mtu_probe now |>)
        | Some p =>
            _ ← send_built_datagram_to_addr (p_addr (qc_paths c)) (bp_bytes p) [p] now;
            modify (λ c, c <| qc_rc := with_mtu (set_next_probe_at None (set_probe
              (Some {| probe_pn := bp_pn p; probe_size := len (bp_bytes p); probe_sent_at := now |})
              (rc_path_mtu (qc_rc c)))) (qc_rc c) |>)
        end
    end.

(** [ids] are the stream identifiers in the order the hash map yields them. *)
Definition send_pending_frames (ids : list StreamId) (now : Z) : connM unit :=
  _ ← modify (λ c, c <| qc_rc := with_io (set_streams
        (gc_closed_streams (io_streams (rc_io (qc_rc c)))).2 (rc_io (qc_rc c))) (qc_rc c) |>);
  _ ← modify (generate_acks now);
  _ ← on_io (generate_flow_control_updates ids);
  _ ← on_io generate_stream_limit_updates;
  _ ← connection_id_updates;
  acc ← send_one_space ([], []) SpaceInitial now;
  acc ← send_one_space acc SpaceHandshake now;
  acc ← send_one_space acc SpaceApplicationData now;
  _ ← flush_coalesced acc.1 acc.2 now;
  l ← gets (λ c, p_targeted (qc_paths c));
  _ ← send_targeted l [] now;
  _ ← send_path_mtu_probe now;
  modify process_deferred_key_discards.
End Send.
