(* ===== verification/ConnLifecycle.v ===== *)
(** * Life of a connection (starfish-quic/src/connection.rs, RFC 9000 section 10)

    Idle timeout and keep-alive, the closing and draining states, the timers,
    and the calls that drive a connection: [flush], [close] and [poll]. *)

From S2P Require Import Prelude QuicError Varint Frame Packet TransportParams Crypto KeyUpdate.
From S2P Require Import Streams StreamIo AckTracking ConnIds Recovery ConnRecovery Packing.
From S2P Require Import Connection ConnPaths ConnHandshake ConnReceive ConnSend.

Section Lifecycle.
Context {C Session Secrets : Type}.
Context `{CongestionController C} `{TlsSession Session Secrets} `{Primitives}.
Abbreviation conn := (QuicConnection C Session Secrets).
Abbreviation connM := (connM C Session Secrets).

(** ** Deadlines *)

Definition idle_timeout_active (c : conn) : bool :=
  negb (t_idle_timeout (qc_time c) =? 0)
  && match qc_state c with CInitial | CHandshake | CConnected => true | _ => false end.

Definition idle_deadline (c : conn) : option Z :=
  if idle_timeout_active c then Some (t_idle_start (qc_time c) + t_idle_timeout (qc_time c))
  else None.

Definition keep_alive_deadline (c : conn) : option Z :=
  if negb (bool_decide (qc_state c = CConnected)) || (t_idle_timeout (qc_time c) =? 0) then None
  else Some (t_last_send (qc_time c) + t_idle_timeout (qc_time c) / KEEP_ALIVE_FRACTION).

Definition close_deadline (c : conn) : option Z :=
  match qc_state c with
  | CClosing | CDraining => draining_until (qc_close c)
  | _ => None
  end.

Definition ack_deadline (c : conn) (sp : PacketNumberSpace) (now : Z) : option Z :=
  let st := qc_acks c sp in
  if negb (ack_needed st) || negb (has_keys c sp) then None
  else
    match sp with
    | SpaceInitial | SpaceHandshake => Some now
    | SpaceApplicationData =>
        if ack_immediate st || (2 <=? ack_eliciting_packets_since_last_ack st) then Some now
        else (λ t, t + from_millis DEFAULT_MAX_ACK_DELAY_MS) <$> last_ack_eliciting_recv st
    end.

Definition passed (now : Z) (deadline : option Z) : bool :=
  match deadline with Some d => d <=? now | None => false end.

Definition earliest (l : list (option Z)) : option Z :=
  foldl (λ acc d, match acc, d with
                  | Some a, Some b => Some (Z.min a b)
                  | Some a, None => Some a
                  | None, _ => d
                  end) None l.

Definition next_internal_deadline (c : conn) (now : Z) : option Z :=
  match qc_state c with
  | CClosed => None
  | CClosing | CDraining => close_deadline c
  | _ => earliest [pto_deadline (rc_loss (qc_rc c)); path_mtu_probe_timeout_deadline (qc_rc c);
                   next_probe_at (rc_path_mtu (qc_rc c)); idle_deadline c; keep_alive_deadline c;
                   ack_deadline c SpaceInitial now; ack_deadline c SpaceHandshake now;
                   ack_deadline c SpaceApplicationData now]
  end.

(** ** Timers *)

Definition become_closed (c : conn) : conn :=
  c <| qc_state := CClosed |>
    <| qc_close := {| draining_until := None; closing_frames := [];
                      closing_response_pending := false |} |>.

Definition handle_internal_timers (now : Z) : connM unit :=
  c ← gets (λ c, c);
  if passed now (idle_deadline c) then modify become_closed
  else if passed now (close_deadline c) then modify become_closed
  else
    _ ← (if bool_decide (qc_state c = CConnected) && passed now (keep_alive_deadline c)
         then push SpaceApplicationData Ping else mret tt);
    if closed_or_closing (qc_state c) then mret tt
    else
      _ ← rc_to (handle_path_mtu_probe_timeout now);
      rc_to (λ r, '(_, r) ← queue_pto_probes_if_due (has_keys c) now r; Ok r).

Definition has_pending_send_work (c : conn) (now : Z) : bool :=
  negb (bool_decide (pending c = [])) || negb (bool_decide (p_targeted (qc_paths c) = []))
  || existsb (λ sp, ack_needed (qc_acks c sp)) all_spaces || path_mtu_probe_due c now.

(** ** Closing *)

Definition local_close_frames (c : conn) (error_code : Z) (reason : bytes)
    : list (PacketNumberSpace * Frame) :=
  let transport_close := ConnectionClose true (to_u64 ApplicationError) (Some 0) [] in
  let application_close := ConnectionClose false error_code None reason in
  if has_one_rtt c then
    (if has_keys c SpaceHandshake then [(SpaceHandshake, transport_close)] else [])
    ++ [(SpaceApplicationData, application_close)]
  else if can_send_zero_rtt c then
    (if has_keys c SpaceInitial then [(SpaceInitial, transport_close)] else [])
    ++ [(SpaceApplicationData, application_close)]
  else if has_keys c SpaceHandshake then [(SpaceHandshake, transport_close)]
  else if has_keys c SpaceInitial then [(SpaceInitial, transport_close)]
  else [].

Definition begin_local_close (frames : list (PacketNumberSpace * Frame)) (now : Z) (c : conn) : conn :=
  let quiet st := st <| ack_needed := false |> <| ack_eliciting_packets_since_last_ack := 0 |>
                     <| ack_immediate := false |> in
  let c := set_pending [] c in
  c <| qc_state := CClosing |>
    <| qc_close := {| draining_until := Some (now + pto_timeout (rc_loss (qc_rc c)) * 3);
                      closing_frames := frames; closing_response_pending := false |} |>
    <| qc_paths -> p_targeted := [] |>
    <| qc_acks ::= (λ f sp, quiet (f sp)) |>
    <| qc_rc := with_mtu (set_next_probe_at None (set_probe None (rc_path_mtu (qc_rc c)))) (qc_rc c) |>.

Fixpoint send_connection_close_frames (frames : list (PacketNumberSpace * Frame)) (now : Z)
    : connM bool :=
  match frames with
  | [] => mret true
  | (sp, f) :: rest =>
      payload ← lift (encode_frame f);
      a ← gets (λ c, p_addr (qc_paths c));
      sent ← send_frames_to_addr sp [f] payload a false now;
      all ← send_connection_close_frames rest now;
      mret (sent && all)
  end.

Definition flush_pending_connection_close (now : Z) : connM unit :=
  c ← gets (λ c, c);
  if bool_decide (qc_state c = CClosing) && closing_response_pending (qc_close c) then
    sent ← send_connection_close_frames (closing_frames (qc_close c)) now;
    modify (λ c, c <| qc_close -> closing_response_pending := negb sent |>)
  else mret tt.

Definition close (error_code : Z) (reason : bytes) (now : Z) : connM unit :=
  c ← gets (λ c, c);
  if closed_or_closing (qc_state c) then mret tt
  else
    match local_close_frames c error_code reason with
    | [] => fail (Transport InternalError
              (msg "no packet protection keys available to send CONNECTION_CLOSE"))
    | frames =>
        _ ← modify (begin_local_close frames now);
        _ ← modify (λ c, c <| qc_close -> closing_response_pending := true |>);
        flush_pending_connection_close now
    end.

(** ** Driving a connection *)

Definition flush (ids : list StreamId) (t : Clock) : connM unit :=
  st ← gets qc_state;
  match st with
  | CClosing | CDraining => flush_pending_connection_close (instant t)
  | CClosed => mret tt
  | _ => _ ← process_tls_output t; send_pending_frames ids (instant t)
  end.

(** What the socket gives: a datagram, or an error. *)
Inductive Received :=
  | Datagram (data : bytes) (from : SocketAddr) (e : option UdpEcnCodepoint)
  | WouldBlock
  | TimedOut
  | Failed.

Definition send_if_work (ids : list StreamId) (t : Clock) : connM unit :=
  _ ← process_tls_output t;
  work ← gets (λ c, has_pending_send_work c (instant t));
  if work : bool then send_pending_frames ids (instant t) else mret tt.

(** [poll_with_timeout] while closing: a datagram only asks for another
    CONNECTION_CLOSE. *)
Definition poll_closing (received : Received) (t : Clock) : connM unit :=
  _ ← match received with
      | Datagram _ _ _ =>
          modify (λ c, if bool_decide (qc_state c = CClosing)
                       then c <| qc_close -> closing_response_pending := true |> else c)
      | WouldBlock | TimedOut => mret tt
      | Failed => fail Io
      end;
  _ ← flush_pending_connection_close (instant t);
  _ ← handle_internal_timers (instant t);
  st ← gets qc_state;
  if bool_decide (st = CClosed) then fail ConnectionDraining else mret tt.

(** [poll_with_timeout] once the socket has answered. *)
Definition after_receive (ids : list StreamId) (t : Clock) : connM unit :=
  _ ← handle_internal_timers (instant t);
  st ← gets qc_state;
  match st with
  | CClosed => fail ConnectionDraining
  | CClosing | CDraining => flush_pending_connection_close (instant t)
  | _ =>
      _ ← send_if_work ids t;
      modify (λ c, c <| qc_rc := with_io (set_streams
        (gc_closed_streams (io_streams (rc_io (qc_rc c)))).2 (rc_io (qc_rc c))) (qc_rc c) |>)
  end.

(** The part of [poll_with_timeout] from the socket on, which was asked at the
    time [asked]. *)
Definition poll_receive (received : Received) (ids : list StreamId) (asked t : Clock) : connM unit :=
  deadline ← gets (λ c, next_internal_deadline c (instant asked));
  _ ← match received with
      | Datagram data from e => process_datagram data from e t
      | WouldBlock => mret tt
      | TimedOut => if passed (instant t) deadline then mret tt else fail Io
      | Failed => fail Io
      end;
  after_receive ids t.

Definition idle_closed : QuicError := ConnectionClosed NoError (msg "idle timeout").

(** [poll_with_timeout] of a connection that owns its socket: [t] is the time of
    the call, [t'] the time the socket answers. *)
Definition poll (received : Received) (ids ids' : list StreamId) (t t' : Clock) : connM unit :=
  c ← gets (λ c, c);
  if bool_decide (qc_state c = CClosed) then fail ConnectionDraining
  else if passed (instant t) (idle_deadline c) then _ ← modify become_closed; fail idle_closed
  else if closed_or_closing (qc_state c) then poll_closing received t'
  else
    _ ← handle_internal_timers (instant t);
    st ← gets qc_state;
    match st with
    | CClosed => fail idle_closed
    | CClosing | CDraining => flush_pending_connection_close (instant t)
    | _ => _ ← send_if_work ids t; poll_receive received ids' t t'
    end.
End Lifecycle.
