(* ===== verification/ConnFrame.v ===== *)
(** * What the operations of a connection leave alone

    [keeps P m]: the computation [m] keeps the state predicate [P], whatever
    its result.  A predicate that depends only on the side, the paths and the
    datagrams sent is kept by everything a connection does on receiving, as
    soon as it is kept by the few operations on paths. *)

From S2P Require Import Prelude QuicError Varint Frame Packet TransportParams Crypto KeyUpdate Retry.
From S2P Require Import Streams StreamIo AckTracking ConnIds Recovery ConnRecovery.
From S2P Require Import Connection ConnPaths ConnHandshake ConnReceive.

(** ** Keeping a predicate *)

Definition keeps {S E A} (P : S → Prop) (m : stM S E A) : Prop := ∀ s, P s → P (m s).2.

Section keeps.
Context {S E : Type} (P : S → Prop).

Lemma keeps_ret {A} (a : A) : keeps P (mret a : stM S E A).
Proof. by intros s. Qed.
Lemma keeps_gets {A} (f : S → A) : keeps P (gets f : stM S E A).
Proof. by intros s. Qed.
Lemma keeps_lift {A} (r : result E A) : keeps P (lift r : stM S E A).
Proof. by intros s. Qed.
Lemma keeps_fail {A} (e : E) : keeps P (fail e : stM S E A).
Proof. by intros s. Qed.
Lemma keeps_modify (f : S → S) : (∀ s, P s → P (f s)) → keeps P (modify f : stM S E unit).
Proof. intros Hf s Hs. by apply Hf. Qed.
Lemma keeps_bind {A B} (m : stM S E A) (f : A → stM S E B) :
  keeps P m → (∀ a, keeps P (f a)) → keeps P (m ≫= f).
Proof.
  intros Hm Hf s Hs. unfold mbind, stM_bind. specialize (Hm s Hs).
  destruct (m s) as [[a|e| |] s']; [by apply Hf|done..].
Qed.

(** The value a computation reads may be used. *)
Lemma keeps_gets_bind {A B} (g : S → A) (f : A → stM S E B) :
  (∀ s, P s → P (f (g s) s).2) → keeps P (gets g ≫= f).
Proof. intros Hf s Hs. by apply Hf. Qed.
End keeps.

Create HintDb keeps discriminated.
#[export] Hint Resolve keeps_ret keeps_gets keeps_lift keeps_fail : keeps.
#[export] Hint Constants Opaque : keeps.

(** Splits a computation along its binds and case distinctions. *)
Ltac keeps_step :=
  match goal with
  | |- keeps _ (_ ≫= _) => apply keeps_bind; [|intros ?]
  | |- keeps _ (modify _) => apply keeps_modify; intros ? ?
  | |- keeps _ (if ?b then _ else _) => destruct b
  | |- keeps _ (match ?x with _ => _ end) => destruct x
  | |- keeps _ _ => solve [auto with keeps]
  end.
Ltac keeps_tac := repeat keeps_step.

Section Frame.
Context {C Session Secrets : Type}.
Context `{CongestionController C} `{TlsSession Session Secrets} `{Primitives}.
Abbreviation conn := (QuicConnection C Session Secrets).
Abbreviation connM := (connM C Session Secrets).

(** ** The part of the state that is about paths *)

Definition path_view (c : conn)
    : Side * SocketAddr * PeerPathState * gmap SocketAddr PeerPathState * list (SocketAddr * bytes) :=
  (qc_side c, p_addr (qc_paths c), p_active (qc_paths c), p_peer_paths (qc_paths c), qc_wire c).

Context (P : conn → Prop) (P_view : ∀ c c', path_view c' = path_view c → P c → P c').

Local Ltac same := match goal with Hc : P ?c |- P ?c' => exact (P_view c c' eq_refl Hc) end.

Local Ltac by_view l :=
  match goal with Hc : P ?c |- P _ => apply (P_view c); [rewrite l; reflexivity|exact Hc] end.

Lemma keeps_on_keys {A} (m : stM (KeyState (Secrets := Secrets)) QuicError A) : keeps P (on_keys m).
Proof using P_view. intros c Hc. unfold on_keys. destruct (m _) as [r s]. same. Qed.
Lemma keeps_on_cids {A} (m : stM ConnectionIdManager QuicError A) : keeps P (on_cids m).
Proof using P_view. intros c Hc. unfold on_cids. destruct (m _) as [r s]. same. Qed.
Lemma keeps_on_io (m : ioM unit) : keeps P (on_io m).
Proof using P_view. intros c Hc. unfold on_io. destruct (m _) as [r s]. same. Qed.
Lemma keeps_cids_to f : keeps P (cids_to f).
Proof using P_view. unfold cids_to. keeps_tac. same. Qed.
Lemma keeps_rc_to f : keeps P (rc_to f).
Proof using P_view. unfold rc_to. keeps_tac. same. Qed.
Lemma keeps_push sp f : keeps P (push sp f).
Proof using P_view. unfold push. keeps_tac. same. Qed.
Lemma keeps_draw n : keeps P (draw n).
Proof using P_view. intros c Hc. same. Qed.
Lemma keeps_targeted a sp f : keeps P (queue_targeted_frame a sp f).
Proof using P_view. unfold queue_targeted_frame. keeps_tac. same. Qed.

Hint Resolve keeps_on_keys keeps_on_cids keeps_on_io keeps_cids_to keeps_rc_to keeps_push
  keeps_draw keeps_targeted : keeps.

(** ** The operations on paths *)

Context (P_entry : ∀ a c, P c → P (with_entry (λ st, st) a c)).
Context (P_mark : ∀ a c, P c → P (mark_peer_path_validated a c)).
Context (P_active : ∀ a c, P c → P (set_active_peer_addr a c)).

Lemma keeps_start_path_validation a k : keeps P (start_path_validation a k).
Proof using P_view P_entry.
  unfold start_path_validation. keeps_tac; [|same].
  destruct (bool_decide _); [by apply P_entry|done].
Qed.

Lemma keeps_adopt p : keeps P (adopt_preferred p).
Proof using P_view. unfold adopt_preferred. keeps_tac. same. Qed.
Hint Resolve keeps_start_path_validation keeps_adopt : keeps.

Lemma keeps_preferred : keeps P maybe_begin_preferred_address_validation.
Proof using P_view P_entry. unfold maybe_begin_preferred_address_validation. keeps_tac. Qed.
Hint Resolve keeps_preferred : keeps.

Lemma keeps_path_response a d now : keeps P (process_path_response a d now).
Proof using P_view P_entry P_mark P_active.
  unfold process_path_response. keeps_tac; first [by apply P_mark|by apply P_active|same].
Qed.

(** ** The handshake *)

Lemma view_remembered params c :
  path_view (apply_remembered_peer_transport_parameter_values params c) = path_view c.
Proof. done. Qed.

Lemma keeps_apply_values params now : keeps P (apply_peer_transport_parameter_values params now).
Proof using P_view P_entry.
  unfold apply_peer_transport_parameter_values. keeps_tac; same.
Qed.
Hint Resolve keeps_apply_values : keeps.

Lemma view_cache params (c : conn) : path_view (cache_peer_transport_parameters params c) = path_view c.
Proof. unfold cache_peer_transport_parameters. by destruct (r_param_cache (qc_resume c)), (r_cache_key (qc_resume c)). Qed.
Lemma view_cache_token token (c : conn) : path_view (cache_new_token token c) = path_view c.
Proof. unfold cache_new_token. by destruct (r_token_cache (qc_resume c)), (r_cache_key (qc_resume c)). Qed.

Lemma keeps_apply_params t : keeps P (apply_peer_transport_parameters t).
Proof using P_view P_entry.
  unfold apply_peer_transport_parameters. keeps_tac; [same|].
  by_view @view_cache.
Qed.
Hint Resolve keeps_apply_params : keeps.

Lemma view_refresh (c : conn) : path_view (refresh_zero_rtt_keys c) = path_view c.
Proof.
  unfold refresh_zero_rtt_keys. destruct (_ && _); [done|]. cbn zeta.
  destruct (match qc_side c with Client => _ | Server => _ end); [done|].
  destruct (zero_rtt_keys _); [|done]. by destruct (_ || _).
Qed.

Lemma keeps_refresh : keeps P (modify refresh_zero_rtt_keys : connM unit).
Proof using P_view. keeps_tac. eapply P_view; [apply view_refresh|done]. Qed.
Hint Resolve keeps_refresh : keeps.

Lemma keeps_finalize : keeps P finalize_client_early_data_state.
Proof using P_view. unfold finalize_client_early_data_state. keeps_tac; same. Qed.
Hint Resolve keeps_finalize : keeps.

Lemma keeps_new_token_frame t : keeps P (queue_new_token_frame t).
Proof using P_view. unfold queue_new_token_frame. keeps_tac. same. Qed.
Hint Resolve keeps_new_token_frame : keeps.

Lemma keeps_install_keys k t : keeps P (install_keys k t).
Proof using P_view. unfold install_keys. keeps_tac; same. Qed.
Hint Resolve keeps_install_keys : keeps.

Lemma keeps_tls_output_loop fuel : ∀ sp t, keeps P (tls_output_loop fuel sp t).
Proof using P_view.
  induction fuel as [|fuel IH]; intros sp t; cbn [tls_output_loop]; keeps_tac; first [by apply IH|same].
Qed.
Hint Resolve keeps_tls_output_loop : keeps.

Lemma keeps_tls_output t : keeps P (process_tls_output t).
Proof using P_view P_entry.
  unfold process_tls_output. apply keeps_bind; [apply keeps_refresh|intros _].
  apply keeps_bind; [apply keeps_gets|intros st].
  apply keeps_bind; [apply keeps_tls_output_loop|intros _].
  apply keeps_bind; [apply keeps_refresh|intros _].
  apply keeps_bind; [apply keeps_apply_params|intros _; apply keeps_finalize].
Qed.
Hint Resolve keeps_tls_output : keeps.

Lemma keeps_feed_tls sp offset data : keeps P (feed_tls sp offset data).
Proof using P_view. unfold feed_tls. keeps_tac; same. Qed.
Hint Resolve keeps_feed_tls : keeps.

Lemma keeps_drain fuel : ∀ sp, keeps P (drain_crypto fuel sp).
Proof using P_view.
  induction fuel as [|fuel IH]; intros sp; cbn [drain_crypto]; keeps_tac; first [by apply IH|same].
Qed.
Hint Resolve keeps_drain : keeps.

Lemma keeps_crypto sp offset data t : keeps P (process_crypto_data sp offset data t).
Proof using P_view P_entry.
  unfold process_crypto_data, receive_crypto. keeps_tac; try same.
  destruct (_ && negb _); [same|done].
Qed.
Hint Resolve keeps_crypto : keeps.

Lemma keeps_retry data h : keeps P (process_retry data h).
Proof using P_view. unfold process_retry. keeps_tac; same. Qed.
Hint Resolve keeps_retry : keeps.

(** ** Frames, packets and datagrams *)

Lemma view_draining now (c : conn) : path_view (enter_draining_at now c) = path_view c.
Proof. unfold enter_draining_at. by destruct (bool_decide _). Qed.

Lemma keeps_handshake_done : keeps P process_handshake_done.
Proof using P_view. unfold process_handshake_done. keeps_tac; same. Qed.
Lemma keeps_new_token token : keeps P (process_new_token token).
Proof using P_view.
  unfold process_new_token. keeps_tac. by_view @view_cache_token.
Qed.
Lemma keeps_retire_cid seq : keeps P (process_retire_connection_id seq).
Proof using P_view.
  intros c Hc. unfold process_retire_connection_id. destruct (retire_local_cid _ _ _ _). same.
Qed.
Hint Resolve keeps_handshake_done keeps_new_token keeps_retire_cid keeps_path_response : keeps.

Lemma keeps_frame sp kind f a t : keeps P (process_frame_from sp kind f a t).
Proof using P_view P_entry P_mark P_active.
  unfold process_frame_from. destruct (match kind with RZeroRtt => _ | _ => _ end); [auto with keeps|].
  destruct f; keeps_tac. eapply P_view; [apply view_draining|done].
Qed.

Lemma keeps_for_each {A} (f : A → connM unit) l : (∀ x, keeps P (f x)) → keeps P (for_each f l).
Proof. intros Hf. induction l as [|x l IH]; cbn [for_each]; [auto with keeps|]. by apply keeps_bind. Qed.

Lemma keeps_packet sp kind data a e t : keeps P (process_packet sp kind data a e t).
Proof using P_view P_entry P_mark P_active.
  unfold process_packet. repeat (apply keeps_bind; [solve [auto with keeps]|intros ?]).
  destruct a2 as [[pn frames]|]; [|auto with keeps].
  apply keeps_bind; [keeps_tac; same|intros _]. apply keeps_bind; [keeps_tac; same|intros _].
  apply keeps_bind; [apply keeps_for_each; intros; apply keeps_frame|intros _]. keeps_tac.
  destruct (should_auto_validate_peer_path _ _ _); [by apply P_mark|done].
Qed.

Lemma keeps_note_scid h : keeps P (note_initial_scid h).
Proof using P_view. unfold note_initial_scid. keeps_tac. same. Qed.

Lemma keeps_long sp kind data a e t : keeps P (try_long_packet sp kind data a e t).
Proof using P_view P_entry P_mark P_active.
  intros c Hc. unfold try_long_packet. pose proof (keeps_packet sp kind data a e t c Hc) as Hp.
  destruct (process_packet _ _ _ _ _ _ c) as [[[]|err| |] c']; cbn in *; try done.
  - by apply keeps_start_path_validation.
  - by destruct (should_silently_drop_protected_packet err).
Qed.

Lemma keeps_short data a e t : keeps P (short_packet data a e t).
Proof using P_view P_entry P_mark P_active.
  intros c Hc. unfold short_packet.
  pose proof (keeps_packet SpaceApplicationData ROneRtt data a e t c Hc) as Hp.
  destruct (process_packet _ _ _ _ _ _ c) as [[[]|err| |] c']; cbn [snd] in *; try done.
  - revert c' Hp. change (keeps P (begin_peer_path_validation a ≫= λ _, modify (λ c,
      if negb (bool_decide (qc_state c = CDraining)) && negb (has_one_rtt c)
         && is_stateless_reset c data then enter_draining_at (instant t) c else c))).
    apply keeps_bind; [apply keeps_start_path_validation|intros _]. keeps_tac.
    destruct (_ && _); [|done]. eapply P_view; [apply view_draining|done].
  - destruct (is_stateless_reset c' data); [eapply P_view; [apply view_draining|done]|].
    by destruct (should_silently_drop_protected_packet err).
Qed.

Lemma keeps_datagram_loop fuel : ∀ data a e t, keeps P (datagram_loop fuel data a e t).
Proof using P_view P_entry P_mark P_active.
  induction fuel as [|fuel IH]; intros [|x data] a e t; cbn [datagram_loop]; auto with keeps.
  apply keeps_bind; [auto with keeps|intros c]. destruct (parse_header _ _) as [[h|h|]|err| |];
    auto with keeps.
  - apply keeps_bind; [apply keeps_note_scid|intros _]. destruct (bool_decide _); [auto with keeps|].
    do 3 (apply keeps_bind; [auto with keeps|intros ?]). destruct (_ && _); [apply IH|].
    apply keeps_bind; [apply keeps_long|intros; apply IH].
  - apply keeps_short.
  - destruct (_ && _); auto with keeps.
  - keeps_tac. eapply P_view; [apply view_draining|done].
Qed.
End Frame.
