(* ===== verification/ConnAmpProps.v ===== *)
(** * The limit on amplification (starfish-quic/src/connection.rs, RFC 9000 section 8.1)

    What a server sends to an address it has not validated, for any sequence
    of calls on a connection. *)

From S2P Require Import Prelude QuicError Varint Frame Packet TransportParams Crypto CryptoProps.
From S2P Require Import KeyUpdate Retry Streams StreamIo AckTracking ConnIds Recovery ConnRecovery.
From S2P Require Import Packing Connection ConnPaths ConnHandshake ConnReceive ConnSend ConnLifecycle.
From S2P Require Import ConnFrame.

(** ** The length of a sealed packet *)

Lemma len_take_z {A} (n : Z) (l : list A) : 0 ≤ n → len (take (Z.to_nat n) l) = Z.min n (len l).
Proof. unfold len. rewrite length_take. lia. Qed.
Lemma len_drop_z {A} (n : Z) (l : list A) : 0 ≤ n → len (drop (Z.to_nat n) l) = Z.max 0 (len l - n).
Proof. unfold len. rewrite length_drop. lia. Qed.

Lemma encrypt_packet_len pn hdr k p p' : encrypt_packet pn hdr k p = (Ok tt, p') →
  len p' = len p + Z.max 0 (pk_tag_len k).
Proof.
  unfold encrypt_packet. set (q := resize _ _). set (plain := take _ _).
  destruct (pk_encrypt_in_place k pn hdr plain) as [sealed [tag|]]; [|done]. dif; [|done].
  intros [= <-]. pose proof (len_nonneg p). pose proof (len_nonneg tag).
  assert (len q = Z.max 0 (len p + pk_tag_len k)) as Hq.
  { subst q. unfold resize. rewrite len_app, len_replicate. unfold len in *. rewrite length_take. lia. }
  rewrite len_app, len_take_z, len_app, len_overlay, len_drop_z by lia.
  rewrite len_app, len_overlay, len_drop_z in * by lia. subst plain. rewrite len_take_z in * by lia. lia.
Qed.

Lemma len_patch first pn off buf : 1 ≤ off → off + len pn ≤ len buf →
  len (patch first pn off buf) = len buf.
Proof.
  intros Ho Hl. pose proof (len_nonneg pn). unfold patch.
  rewrite len_cons, !len_app, len_take_z, len_drop_z by lia.
  change (drop 1 buf) with (drop (Z.to_nat 1) buf). rewrite len_drop_z by lia. lia.
Qed.

Lemma slice_ok_inv {E A} (l : list A) a b r : slice (E:=E) l a b = Ok r →
  0 ≤ a ≤ b ∧ b ≤ len l ∧ len r = b - a.
Proof.
  unfold slice. dif; [|done]. intros [= <-].
  assert (0 ≤ a ≤ b ∧ b ≤ len l) as [? ?] by lia. split; [done|]. split; [done|].
  rewrite len_take_z, len_drop_z by lia. lia.
Qed.

Lemma apply_hp_len off n k buf buf' : apply_header_protection off n k buf = (Ok tt, buf') →
  len buf' = len buf.
Proof.
  unfold apply_header_protection. dif; [done|]. destruct (slice buf _ _) as [sample| | |] eqn:Es; try done.
  destruct ((off =? 0) || (len buf =? 0)) eqn:E0; [done|]. destruct buf as [|first rest] eqn:Eb; [done|].
  destruct (slice rest _ _) as [pnb| | |] eqn:Ep; try done.
  destruct (hpk_encrypt_in_place k sample first pnb) as [[f' pn']|]; [|done]. intros [= <-].
  apply slice_ok_inv in Ep as (? & ? & Hl). rewrite len_patch; [done|lia|].
  rewrite len_overlay, len_cons. lia.
Qed.

Lemma seal_packet_len pn data off n pk hk out : seal_packet pn data off n pk hk = Ok out →
  len out = len data + Z.max 0 (pk_tag_len pk).
Proof.
  unfold seal_packet, exec. intros (hdr & Eh & H1)%bind_ok_inv. apply bind_ok_inv in H1 as (pl & Ep & H2).
  destruct (encrypt_packet pn hdr pk pl) as [[[]| | |] pl'] eqn:Ee; try done. cbn [mbind result_bind] in H2.
  destruct (apply_header_protection _ _ _ _) as [[[]| | |] o] eqn:Ea; try done. injection H2 as <-.
  apply apply_hp_len in Ea. apply encrypt_packet_len in Ee. rewrite Ea, len_app, Ee.
  apply slice_ok_inv in Eh as (? & ? & ->). revert Ep. unfold slice_from. dif; [|done]. intros [= <-].
  rewrite len_drop_z by lia. lia.
Qed.

(** Bytes handed to the socket for an address. *)
Definition wire_to (w : list (SocketAddr * bytes)) (a : SocketAddr) : Z :=
  len (concat (filter (λ x, x.1 = a) w).*2).

Lemma wire_to_snoc w a b d :
  wire_to (w ++ [(b, d)]) a = wire_to w a + if bool_decide (b = a) then len d else 0.
Proof.
  unfold wire_to. rewrite filter_app, fmap_app, concat_app, len_app. f_equal.
  case_bool_decide as Hb.
  - rewrite filter_cons_True by done. cbn. by rewrite app_nil_r.
  - by rewrite filter_cons_False by done.
Qed.

Lemma wire_to_nonneg w a : 0 ≤ wire_to w a.
Proof. apply len_nonneg. Qed.

(** [m], run where [P] holds, ends with a value where [Q] holds or stops where
    [I] holds. *)
Definition triple {S E A} (I P : S → Prop) (m : stM S E A) (Q : A → S → Prop) : Prop :=
  ∀ s, P s → match m s with (Ok a, s') => Q a s' | (_, s') => I s' end.

Section triple.
Context {S E : Type} (I : S → Prop).

Lemma triple_bind {A B} P (m : stM S E A) (f : A → stM S E B) Q R :
  triple I P m Q → (∀ a, triple I (Q a) (f a) R) → triple I P (m ≫= f) R.
Proof.
  intros Hm Hf s Hs. unfold mbind, stM_bind. specialize (Hm s Hs).
  destruct (m s) as [[a|e| |] s']; [by apply Hf|done..].
Qed.
Lemma triple_keeps {A} P (m : stM S E A) : keeps P m → (∀ s, P s → I s) → triple I P m (λ _, P).
Proof. intros Hm HP s Hs. specialize (Hm s Hs). destruct (m s) as [[]]; [done|by apply HP..]. Qed.
Lemma triple_ret {A} (P : S → Prop) (a : A) (Q : A → S → Prop) :
  (∀ s, P s → Q a s) → triple I P (mret a : stM S E A) Q.
Proof. intros HQ s Hs. by apply HQ. Qed.
Lemma triple_gets {A B} (P : S → Prop) (g : S → A) (f : A → stM S E B) Q :
  (∀ s, P s → triple I (λ s', s' = s ∧ P s) (f (g s)) Q) → triple I P (gets g ≫= f) Q.
Proof. intros Hf s Hs. by apply (Hf s Hs s). Qed.
Lemma triple_pre {A} (P P' : S → Prop) (m : stM S E A) Q :
  (∀ s, P s → P' s) → triple I P' m Q → triple I P m Q.
Proof. intros HP Hm s Hs. by apply Hm, HP. Qed.
Lemma keeps_triple {A} (m : stM S E A) : triple I I m (λ _, I) → keeps I m.
Proof. intros Hm s Hs. specialize (Hm s Hs). by destruct (m s) as [[]]. Qed.
End triple.

Section Amplification.
Context {C Session Secrets : Type}.
Context `{CongestionController C} `{TlsSession Session Secrets} `{Primitives}.
Abbreviation conn := (QuicConnection C Session Secrets).
Abbreviation connM := (connM C Session Secrets).

(** ** The counters *)

Definition table (c : conn) (a : SocketAddr) : PeerPathState :=
  default path_default (p_peer_paths (qc_paths c) !! a).

(** The active path is in the table too. *)
Definition synced (c : conn) : Prop :=
  p_peer_paths (qc_paths c) !! p_addr (qc_paths c) = Some (p_active (qc_paths c)).

(** [heard a] bounds the bytes that came from the address. *)
Record amp (heard : SocketAddr → Z) (c : conn) : Prop := {
  amp_server : qc_side c = Server;
  amp_synced : synced c;
  amp_bound : ∀ a, validated (table c a) = false →
    bytes_sent (table c a) = wire_to (qc_wire c) a ∧
    0 ≤ bytes_received (table c a) ≤ heard a ∧
    bytes_sent (table c a) ≤ 6 * bytes_received (table c a);
}.

Lemma amp_view heard c c' : path_view c' = path_view c → amp heard c → amp heard c'.
Proof.
  intros [= E1 E2 E3 E4 E5] [Hs Hy Hb]. split.
  - congruence.
  - unfold synced. congruence.
  - intros a. unfold table. rewrite E4, E5. apply Hb.
Qed.

Lemma path_state_table c a : qc_side c = Server → synced c → peer_path_state_for_addr c a = table c a.
Proof.
  intros Hs Hy. unfold peer_path_state_for_addr, table. rewrite bool_decide_eq_true_2 by done.
  cbn [andb]. case_bool_decide as Ha; [|done]. subst a. by rewrite Hy.
Qed.

Lemma peer_paths_with_entry f a (c : conn) : p_peer_paths (qc_paths (with_entry f a c)) =
  <[a := f (table c a)]> (p_peer_paths (qc_paths c)).
Proof. done. Qed.

Lemma table_with_entry f a c b :
  table (with_entry f a c) b = if bool_decide (b = a) then f (table c a) else table c b.
Proof.
  unfold table at 1. rewrite peer_paths_with_entry. case_bool_decide as Hb.
  - subst. by rewrite lookup_insert_eq.
  - by rewrite lookup_insert_ne by congruence.
Qed.

Lemma synced_with_entry f a c : a ≠ p_addr (qc_paths c) → synced c → synced (with_entry f a c).
Proof.
  intros Ha Hy. unfold synced. rewrite peer_paths_with_entry.
  change (p_addr (qc_paths (with_entry f a c))) with (p_addr (qc_paths c)).
  by rewrite lookup_insert_ne.
Qed.

Lemma store_active_eq (c : conn) : qc_side c = Server → store_active_peer_path_state c =
  c <| qc_paths -> p_peer_paths := <[p_addr (qc_paths c) := p_active (qc_paths c)]>
         (p_peer_paths (qc_paths c)) |>.
Proof. intros Hs. unfold store_active_peer_path_state. by rewrite bool_decide_eq_true_2. Qed.

(** A change of one entry of the table, wherever it is kept. *)
Lemma change_entry f a (c : conn) : qc_side c = Server → synced c →
  let c' := if bool_decide (a = p_addr (qc_paths c))
            then store_active_peer_path_state (c <| qc_paths -> p_active ::= f |>)
            else with_entry f a c in
  qc_side c' = Server ∧ synced c' ∧ qc_wire c' = qc_wire c ∧
  p_addr (qc_paths c') = p_addr (qc_paths c) ∧
  ∀ b, table c' b = if bool_decide (b = a) then f (table c a) else table c b.
Proof.
  intros Hs Hy c'. subst c'. case_bool_decide as Ha.
  - rewrite store_active_eq by done. set (m := <[_ := _]> _).
    assert (m = <[a := f (table c a)]> (p_peer_paths (qc_paths c))) as Em.
    { subst a. unfold table. by rewrite Hy. }
    clearbody m. split_and!; [done| |done|done|].
    + change (m !! p_addr (qc_paths c) = Some (f (p_active (qc_paths c)))).
      subst a m. rewrite lookup_insert_eq. unfold table. by rewrite Hy.
    + intros b. unfold table at 1. change (p_peer_paths _) with m. rewrite Em.
      case_bool_decide; [subst b; by rewrite lookup_insert_eq|by rewrite lookup_insert_ne by congruence].
  - split_and!; [done|by apply synced_with_entry|done|done|]. apply table_with_entry.
Qed.

(** [amp] only looks at the table. *)
Lemma amp_table heard c c' : qc_side c' = Server → synced c' → qc_wire c' = qc_wire c →
  (∀ b, table c' b = table c b ∨ validated (table c' b) = true) → amp heard c → amp heard c'.
Proof.
  intros Hs Hy Hw Ht [_ _ Hb]. split; [done..|]. intros b Hv. rewrite Hw.
  destruct (Ht b) as [E|E]; [|congruence]. rewrite E in Hv |- *. by apply Hb.
Qed.

Lemma amp_entry heard a c : amp heard c → amp heard (with_entry (λ st, st) a c).
Proof.
  intros Ha. pose proof (amp_synced _ _ Ha) as Hy. apply (amp_table heard c); [apply Ha| |done| |done].
  - destruct (decide (a = p_addr (qc_paths c))) as [->|Hn]; [|by apply synced_with_entry].
    unfold synced. rewrite peer_paths_with_entry.
    change (p_addr (qc_paths (with_entry _ _ c))) with (p_addr (qc_paths c)).
    change (p_active (qc_paths (with_entry _ _ c))) with (p_active (qc_paths c)).
    rewrite lookup_insert_eq. unfold table. by rewrite Hy.
  - intros b. left. rewrite table_with_entry. by case_bool_decide; subst.
Qed.

Lemma amp_mark heard a c : amp heard c → amp heard (mark_peer_path_validated a c).
Proof.
  intros Ha. unfold mark_peer_path_validated. rewrite bool_decide_eq_true_2 by apply Ha. cbn [negb].
  destruct (change_entry (λ st, st <| validated := true |>) a c) as (Hs & Hy & Hw & _ & Ht);
    [apply Ha..|].
  match type of Hs with qc_side ?x = _ => change (amp heard x); generalize dependent x end.
  intros c' Hs Hy Hw Ht. apply (amp_table heard c); [done..| |done].
  intros b. rewrite Ht. case_bool_decide; [by right|by left].
Qed.

Lemma set_active_eq a (c : conn) : qc_side c = Server → synced c →
  let c' := set_active_peer_addr a c in
  qc_side c' = Server ∧ synced c' ∧ qc_wire c' = qc_wire c ∧ ∀ b, table c' b = table c b.
Proof.
  intros Hs Hy. unfold set_active_peer_addr. rewrite bool_decide_eq_true_2 by done.
  set (c1 := store_active_peer_path_state c).
  assert (qc_side c1 = Server ∧ qc_wire c1 = qc_wire c ∧ table c1 = table c) as (Hs1 & Hw1 & E1).
  { subst c1. rewrite store_active_eq by done. split_and!; [done..|]. unfold table. cbn.
    by rewrite insert_id. }
  set (c2 := with_entry _ a c1). unfold load_active_peer_path_state.
  match goal with |- context [bool_decide (qc_side ?x = Server)] =>
    change (qc_side x) with (qc_side c1) end. rewrite bool_decide_eq_true_2 by done. cbn [negb].
  assert (p_peer_paths (qc_paths c2) !! a = Some (table c a)) as E2.
  { subst c2. by rewrite peer_paths_with_entry, lookup_insert_eq, E1. }
  split_and!; [done| |done|].
  - change (p_peer_paths (qc_paths c2) !! a = Some (default path_default (p_peer_paths (qc_paths c2) !! a))).
    by rewrite E2.
  - intros b. change (table c2 b = table c b). subst c2. rewrite table_with_entry, E1.
    by case_bool_decide; subst.
Qed.

Lemma amp_active heard a c : amp heard c → amp heard (set_active_peer_addr a c).
Proof.
  intros Ha. destruct (set_active_eq a c) as (Hs & Hy & Hw & Ht); [apply Ha..|].
  apply (amp_table heard c); [done..| |done]. auto.
Qed.

(** Counting: an entry that is not validated changes by [f]. *)
Lemma count_unvalidated_eq f a (c : conn) : qc_side c = Server → synced c →
  let c' := count_unvalidated f a c in
  qc_side c' = Server ∧ synced c' ∧ qc_wire c' = qc_wire c ∧
  p_addr (qc_paths c') = p_addr (qc_paths c) ∧
  ∀ b, table c' b = if bool_decide (b = a) && negb (validated (table c a))
                    then f (table c a) else table c b.
Proof.
  intros Hs Hy c'. subst c'. unfold count_unvalidated. rewrite bool_decide_eq_true_2 by done. cbn [negb].
  destruct (change_entry (λ st, if validated st then st else f st) a c Hs Hy) as (Hs1 & Hy1 & Hw1 & Hp1 & Ht1).
  case_bool_decide as Ha.
  - assert (table c a = p_active (qc_paths c)) as Et by (subst a; unfold table; by rewrite Hy).
    destruct (validated (p_active (qc_paths c))) eqn:Ev.
    + split_and!; [done..|]. intros b. by rewrite Et, Ev, andb_false_r.
    + destruct (change_entry f a c Hs Hy) as (Hs2 & Hy2 & Hw2 & Hp2 & Ht2).
      rewrite bool_decide_eq_true_2 in * by done. split_and!; [done..|]. intros b. rewrite Ht2, Et, Ev.
      by rewrite andb_true_r.
  - split_and!; [done..|]. intros b. rewrite Ht1. case_bool_decide as Hb; [|done]. subst b. cbn [andb].
    by destruct (validated (table c a)).
Qed.

(** [heard] with [n] more bytes from [a]. *)
Definition hear (heard : SocketAddr → Z) (a : SocketAddr) (n : Z) (b : SocketAddr) : Z :=
  heard b + if bool_decide (b = a) then n else 0.

Lemma amp_received heard a n c : 0 ≤ n → (∀ b, 6 * heard b ≤ USIZE_MAX) → amp heard c →
  amp (hear heard a n) (record_unvalidated_bytes_received a n c).
Proof.
  intros Hn Hh Ha. unfold record_unvalidated_bytes_received.
  destruct (count_unvalidated_eq (λ st, st <| bytes_received := saturating_add_usize (bytes_received st) n |>) a c)
    as (Hs & Hy & Hw & _ & Ht); [apply Ha..|]. split; [done..|].
  intros b Hv. rewrite Hw, Ht in *. unfold hear. pose proof (amp_bound _ _ Ha) as Hb.
  case_bool_decide as Hba; cbn [andb] in *.
  - subst b. destruct (validated (table c a)) eqn:Ev; cbn [negb] in *; [congruence|].
    destruct (Hb a Ev) as (H1' & H2' & H3'). specialize (Hh a). clear Hb Ht Hv.
    destruct (table c a). cbn in *. unfold saturating_add_usize, RecordSetters.constant. lia.
  - destruct (Hb b Hv) as (H1' & H2' & H3'). split_and!; [done|lia..].
Qed.
(** ** Building a packet *)

Definition room (k : Z) (c : conn) (a : SocketAddr) (n : Z) : Prop :=
  validated (table c a) = true ∨ bytes_sent (table c a) + n ≤ k * bytes_received (table c a).

Lemma room_weaken k k' c a n n' heard : amp heard c → k ≤ k' → n' ≤ n → room k c a n → room k' c a n'.
Proof.
  intros Ha Hk Hn [?|?]; [by left|]. destruct (validated (table c a)) eqn:E; [by left|].
  destruct (amp_bound _ _ Ha a E) as (_ & ? & _). right. nia.
Qed.

Lemma path_view_table c c' : path_view c' = path_view c → table c' = table c.
Proof. intros [= _ _ _ E _]. unfold table. by rewrite E. Qed.

Lemma can_send_room heard (c : conn) a n m : (∀ b, 6 * heard b ≤ USIZE_MAX) → amp heard c →
  Z.min USIZE_MAX m ≤ n → can_send_to_addr c a n = true → room 3 c a m.
Proof.
  intros Hh Ha Hm. unfold can_send_to_addr. rewrite bool_decide_eq_true_2 by apply Ha. cbn [negb].
  rewrite path_state_table by apply Ha. intros [Hv|Hl]%orb_true_iff; [by left|].
  destruct (validated (table c a)) eqn:Ev; [by left|right].
  destruct (amp_bound _ _ Ha a Ev) as (H1' & H2' & H3'). pose proof (wire_to_nonneg (qc_wire c) a).
  specialize (Hh a). unfold saturating_add_usize, saturating_mul_usize in Hl.
  assert (0 < USIZE_MAX) by (unfold_ints; lia). lia.
Qed.

Lemma build_packet_room heard sp frames payload a track pend (c : conn) :
  (∀ b, 6 * heard b ≤ USIZE_MAX) → amp heard c → 0 ≤ pend →
  let '(r, c') := build_packet_to_addr sp frames payload a track pend c in
  path_view c' = path_view c ∧
  ∀ p, r = Ok (Some p) → room 3 c a (pend + len (bp_bytes p)).
Proof.
  intros Hh Ha Hp. unfold build_packet_to_addr. unfold mbind at 1, stM_bind, gets at 1.
  destruct (packet_kind c sp) as [kind|]; [|done].
  destruct (congestion_gate _ _ _ _ _) as [[]| | |]; try done. cbn [negb].
  unfold mbind, stM_bind, lift. cbn [negb].
  destruct (peer_cid_for_addr c a) as [dcid| | |]; try done.
  destruct (primary_local_cid (qc_cids c)) as [lcid| | |]; try done.
  destruct (encode_padded _ _ _ _ _ _ _ _ _ _ _) as [[data [off n]]| | |]; try done.
  destruct (can_send_to_addr _ _ _) eqn:Hc; [|done]. cbn [negb].
  destruct (local_keys c sp kind) as [[pk hk]|] eqn:Ek; [|done].
  destruct (seal_packet _ _ _ _ _ _) as [out| | |] eqn:Es; try done.
  assert (room 3 c a (pend + len out)) as Hr.
  { apply seal_packet_len in Es. eapply can_send_room; [done..| |exact Hc].
    unfold tag_len_of. rewrite Ek. cbn. unfold saturating_add_usize.
    pose proof (len_nonneg data). lia. }
  assert (path_view (match kind with Some AppZeroRtt => c <| qc_resume -> r_attempted_zero_rtt := true |>
                     | _ => c end) = path_view c) as Hv by by destruct kind as [[]|].
  cbn -[path_view room]. destruct (add_u64 _ _); (split; [exact Hv|]); try done.
  intros p [= <-]. exact Hr.
Qed.
(** ** Sending a datagram *)

(** [n] bytes more were sent to [a], if it is counted. *)
Definition sent_more (a : SocketAddr) (n : Z) (c c' : conn) : Prop :=
  p_addr (qc_paths c') = p_addr (qc_paths c) ∧
  ∀ b, validated (table c' b) = validated (table c b) ∧
       bytes_received (table c' b) = bytes_received (table c b) ∧
       (validated (table c b) = false →
        bytes_sent (table c' b) = bytes_sent (table c b) + if bool_decide (b = a) then n else 0).

Lemma amp_sent heard a d (c c1 : conn) : (∀ b, 6 * heard b ≤ USIZE_MAX) → amp heard c →
  room 6 c a (len d) →
  path_view c1 = path_view (c <| qc_wire ::= (λ w, w ++ [(a, d)]) |>) →
  let c' := record_unvalidated_bytes_sent a (len d) c1 in amp heard c' ∧ sent_more a (len d) c c'.
Proof.
  intros Hh Ha Hr [= E1 E2 E3 E4 E5]. unfold record_unvalidated_bytes_sent.
  assert (table c1 = table c) as Et by (unfold table; by rewrite E4).
  destruct (count_unvalidated_eq (λ st, st <| bytes_sent := saturating_add_usize (bytes_sent st) (len d) |>) a c1)
    as (Hs & Hy & Hw & Hp & Ht).
  { rewrite E1. apply Ha. } { unfold synced. rewrite E2, E3, E4. apply Ha. }
  match type of Hs with qc_side ?x = _ => generalize dependent x end. intros c' Hs Hy Hw Hp Ht.
  rewrite Et in Ht. rewrite E5 in Hw.
  assert (sent_more a (len d) c c') as Hm.
  { split; [by rewrite Hp, E2|]. intros b. rewrite Ht. specialize (Hh a). pose proof (amp_bound _ _ Ha a) as Hb.
    case_bool_decide as Hba; cbn [andb]; [|split_and!; [done..|lia]]. subst b.
    destruct (validated (table c a)) eqn:Ev; cbn [negb]; [done|]. destruct (Hb eq_refl) as (Hb1 & Hb2 & Hb3).
    destruct Hr as [Hr|Hr]; [congruence|]. destruct (table c a). cbn in *.
    unfold saturating_add_usize, RecordSetters.constant. split_and!; [done..|]. intros _. lia. }
  split; [|done]. destruct Hm as [_ Hm]. split; [done..|]. intros b Hv.
  destruct (Hm b) as (M1 & M2 & M3). rewrite M1 in Hv. destruct (amp_bound _ _ Ha b Hv) as (Hb1 & Hb2 & Hb3).
  rewrite M2, M3, Hw by done. change (qc_wire _) with (qc_wire c ++ [(a, d)]).
  rewrite wire_to_snoc, Hb1. rewrite (bool_decide_ext (a = b) (b = a)) by naive_solver.
  split; [done|]. split; [done|]. rewrite <- Hb1. case_bool_decide; [subst b|lia].
  destruct Hr as [Hr|Hr]; [congruence|lia].
Qed.

Lemma sent_more_nil a (c : conn) : sent_more a 0 c c.
Proof. split; [done|]. intros b. split_and!; [done..|]. intros _. case_bool_decide; lia. Qed.

Lemma send_datagram heard a d pkts now (c : conn) : (∀ b, 6 * heard b ≤ USIZE_MAX) → amp heard c →
  (d = [] ∨ room 6 c a (len d)) →
  let c' := (send_built_datagram_to_addr a d pkts now c).2 in amp heard c' ∧ sent_more a (len d) c c'.
Proof.
  intros Hh Ha Hr. destruct d as [|x d]; [by split; [|apply sent_more_nil]|].
  destruct Hr as [[=]|Hr]. set (d' := x :: d) in *.
  destruct (amp_sent heard a d' c (record_packet_sent now (existsb bp_ack_eliciting pkts)
    (c <| qc_wire ::= (λ w, w ++ [(a, d')]) |>))) as [Ha' Hm]; [done..| |].
  { unfold record_packet_sent. by destruct (_ && _). }
  set (c1 := record_unvalidated_bytes_sent _ _ _) in *.
  set (tail := _ ← rc_to (λ r, send_built_datagram r d' pkts now);
    modify (λ c : conn, c <| qc_keys ::= count_one_rtt pkts |>) : connM unit).
  change (send_built_datagram_to_addr a d' pkts now c) with (tail c1). clearbody c1.
  assert (∀ c2, path_view c2 = path_view c1 → amp heard c2 ∧ sent_more a (len d') c c2) as K.
  { intros c2 Hv. split; [by eapply amp_view|]. unfold sent_more. rewrite (path_view_table _ _ Hv).
    injection Hv as _ -> _ _ _. exact Hm. }
  apply K. apply (keeps_bind (λ c2, path_view c2 = path_view c1)); [| |done].
  - apply keeps_rc_to. congruence.
  - intros _. by apply keeps_modify.
Qed.
(** ** Sending what is queued *)

Section Calls.
Context (heard : SocketAddr → Z) (Hh : ∀ b, 6 * heard b ≤ USIZE_MAX).

Lemma keeps_send_frames sp frames payload a track now :
  keeps (amp heard) (send_frames_to_addr sp frames payload a track now).
Proof using Hh.
  intros c Ha. unfold send_frames_to_addr, mbind, stM_bind.
  pose proof (build_packet_room heard sp frames payload a track 0 c Hh Ha ltac:(lia)) as Hb.
  destruct (build_packet_to_addr _ _ _ _ _ _ c) as [[[p|]|e| |] c1]; destruct Hb as [Hv Hr];
    try (by apply (amp_view heard c)).
  assert (amp heard c1) as Ha1 by by apply (amp_view heard c).
  destruct (send_datagram heard a (bp_bytes p) [p] now c1 Hh Ha1) as [Ha2 _].
  { right. unfold room. rewrite (path_view_table _ _ Hv). eapply room_weaken; [exact Ha| | |by apply Hr]; lia. }
  by destruct (send_built_datagram_to_addr _ _ _ _ c1) as [[]].
Qed.

(** A coalesced datagram that is still to be sent is within the limit. *)
Definition coalesced (dat : bytes) (pkts : list BuiltPacket) (c : conn) : Prop :=
  amp heard c ∧ (pkts = [] → dat = []) ∧ (dat = [] ∨ room 3 c (p_addr (qc_paths c)) (len dat)).

Lemma coalesced_view dat pkts c c' : path_view c' = path_view c → coalesced dat pkts c → coalesced dat pkts c'.
Proof.
  intros Hv (Ha & Hn & Hr). split; [by apply (amp_view heard c)|]. split; [done|].
  unfold room. rewrite (path_view_table _ _ Hv). injection Hv as _ -> _ _ _. exact Hr.
Qed.
Lemma coalesced_amp dat pkts c : coalesced dat pkts c → amp heard c.
Proof. by intros [? _]. Qed.
Lemma coalesced_nil c : amp heard c → coalesced [] [] c.
Proof. split; [done|]. auto. Qed.

(** The datagram is flushed: what there was room for behind it now has room. *)
Lemma triple_flush c0 dat pkts now : coalesced dat pkts c0 →
  triple (amp heard) (λ c, c = c0) (flush_coalesced dat pkts now)
    (λ r c, r = ([], []) ∧ amp heard c ∧ p_addr (qc_paths c) = p_addr (qc_paths c0) ∧
       ∀ k n, room k c0 (p_addr (qc_paths c0)) (len dat + n) → room k c (p_addr (qc_paths c0)) n).
Proof using Hh.
  intros (Ha & Hn & Hr) c ->. unfold flush_coalesced.
  destruct pkts as [|p pkts]; [by rewrite (Hn eq_refl)|]. unfold mbind, stM_bind, gets.
  destruct (send_datagram heard (p_addr (qc_paths c0)) dat (p :: pkts) now c0 Hh Ha) as [Ha' [Hp' Hm]].
  { destruct Hr as [?|Hr]; [by left|right]. eapply room_weaken; [exact Ha| | |exact Hr]; lia. }
  destruct (send_built_datagram_to_addr _ _ _ _ c0) as [[[]|e| |] c']; [|done..]. cbn [snd] in *.
  split_and!; [done..|]. intros k n. destruct (Hm (p_addr (qc_paths c0))) as (M1 & M2 & M3). unfold room.
  destruct (validated (table c0 (p_addr (qc_paths c0)))) eqn:Ev; [by left; congruence|].
  rewrite M1, M2, M3, bool_decide_eq_true_2 by done. intros [?|?]; [done|right; lia].
Qed.

(** A packet that was checked without the datagram has twice the limit. *)
Lemma coalesced_room dat pkts c n : coalesced dat pkts c → room 3 c (p_addr (qc_paths c)) n →
  room 6 c (p_addr (qc_paths c)) (len dat + n).
Proof.
  intros (Ha & Hn & Hr) Hp. unfold room in *.
  destruct (validated (table c (p_addr (qc_paths c)))) eqn:Ev; [by left|right].
  destruct (amp_bound _ _ Ha _ Ev) as (B1 & B2 & B3). rewrite B1 in *.
  pose proof (wire_to_nonneg (qc_wire c) (p_addr (qc_paths c))).
  destruct Hp as [?|Hp]; [done|]. destruct Hr as [->|[?|Hr]]; [|done|]; change (len []) with 0 in *; lia.
Qed.

Lemma triple_build sp frames payload track pend dat pkts a : 0 ≤ pend →
  triple (amp heard) (λ c, coalesced dat pkts c ∧ a = p_addr (qc_paths c))
    (build_packet_to_addr sp frames payload a track pend)
    (λ r c, (coalesced dat pkts c ∧ a = p_addr (qc_paths c)) ∧
       match r with Some p => room 3 c a (pend + len (bp_bytes p)) | None => True end).
Proof using Hh.
  intros Hp c [Hc ->].
  pose proof (build_packet_room heard sp frames payload (p_addr (qc_paths c)) track pend c Hh
    (coalesced_amp _ _ _ Hc) Hp) as Hb.
  destruct (build_packet_to_addr _ _ _ _ _ _ c) as [r c1]. destruct Hb as [Hv Hr].
  assert (coalesced dat pkts c1) as Hc1 by by eapply coalesced_view.
  destruct r as [o|e| |]; [|by eapply coalesced_amp..].
  split; [split; [done|by injection Hv]|]. destruct o as [p|]; [|done].
  unfold room. rewrite (path_view_table _ _ Hv). by apply Hr.
Qed.

Lemma triple_send_built a d pkts now :
  triple (amp heard) (λ c, amp heard c ∧ room 6 c a (len d))
    (send_built_datagram_to_addr a d pkts now) (λ _, amp heard).
Proof using Hh.
  intros c [Ha Hr]. destruct (send_datagram heard a d pkts now c Hh Ha) as [Ha' _]; [by right|].
  by destruct (send_built_datagram_to_addr _ _ _ _ c) as [[]].
Qed.

Lemma coalesced_app dat pkts p a c : coalesced dat pkts c → a = p_addr (qc_paths c) →
  room 3 c a (len dat + len (bp_bytes p)) → coalesced (dat ++ bp_bytes p) (pkts ++ [p]) c.
Proof.
  intros (Ha & Hn & Hr) -> Hp. split; [done|]. split; [by intros [_ [=]]%app_nil|].
  right. by rewrite len_app.
Qed.

Lemma keeps_key_update dat pkts : keeps (coalesced dat pkts) maybe_initiate_key_update.
Proof.
  unfold maybe_initiate_key_update. keeps_tac. apply keeps_on_keys. eauto using coalesced_view.
Qed.

Lemma triple_send_space fuel : ∀ sp frames dat pkts now,
  triple (amp heard) (coalesced dat pkts) (send_space fuel sp frames dat pkts now)
    (λ r, coalesced r.2.1 r.2.2).
Proof using Hh.
  induction fuel as [|fuel IH]; intros sp frames dat pkts now; destruct frames as [|f frames];
    try (by apply triple_ret); [by intros c [Ha _]|].
  cbn [send_space]. eapply triple_bind.
  { apply triple_keeps; [|apply coalesced_amp]. destruct (bool_decide _); [apply keeps_key_update|apply keeps_ret]. }
  intros []. apply triple_gets. intros c Hc. eapply triple_bind.
  { apply triple_keeps; [apply keeps_lift|]. intros s [-> _]. by eapply coalesced_amp. }
  intros [[pf payload] rest]. destruct pf as [|f0 pf]; [apply triple_ret; by intros s [-> _]|].
  eapply triple_bind.
  { eapply triple_pre; [|apply (triple_build sp (f0 :: pf) payload true
      (if bool_decide (sp = SpaceApplicationData) then 0 else len dat) dat pkts)].
    - intros s [-> _]. by split.
    - pose proof (len_nonneg dat). destruct (bool_decide _); lia. }
  intros [p|]; [|apply triple_ret; by intros s [[? _] _]].
  destruct (bool_decide (sp = SpaceApplicationData)).
  - intros c0 [[Hc0 Ep] Hr]. rewrite Ep in *. eapply (triple_bind _ (λ c, c = c0)); [by apply triple_flush| |done].
    intros [dat' pkts'] c1 ([= -> ->] & Ha1 & Ep1 & Hr1).
    eapply triple_bind; [apply triple_send_built|intros; eapply triple_pre; [apply coalesced_nil|apply IH]|].
    split; [done|]. eapply Hr1, coalesced_room; [done|exact Hr].
  - dif; [eapply triple_pre; [|apply IH]; intros s [[? ?] ?]; by eapply coalesced_app|].
    intros c0 [[Hc0 Ep] Hr]. rewrite Ep in *. eapply (triple_bind _ (λ c, c = c0)); [by apply triple_flush| |done].
    intros [dat' pkts']. eapply triple_pre; [|apply IH]. intros c' ([= -> ->] & Ha' & Ep' & Hr').
    split; [done|]. split; [done|]. right. rewrite Ep'. by apply Hr'.
Qed.
Lemma triple_send_one_space acc sp now :
  triple (amp heard) (coalesced acc.1 acc.2) (send_one_space acc sp now) (λ r, coalesced r.1 r.2).
Proof using Hh.
  unfold send_one_space. apply triple_gets. intros c Hc.
  match goal with |- context [if negb ?b then _ else _] => destruct b end; cbn [negb];
    [|apply triple_ret; by intros s [-> ?]].
  eapply triple_bind with (Q := λ _, coalesced acc.1 acc.2).
  { intros s [-> _]. by apply (coalesced_view _ _ c). }
  intros []. eapply triple_bind; [apply triple_send_space|]. intros [unsent [dat pkts]].
  intros s Hs. by apply (coalesced_view _ _ s).
Qed.

Lemma keeps_send_targeted now l : ∀ remaining, keeps (amp heard) (send_targeted l remaining now).
Proof using Hh.
  induction l as [|[[a sp] f] l IH]; intros remaining; cbn [send_targeted].
  - apply keeps_modify. intros c. by apply amp_view.
  - apply keeps_bind; [apply keeps_modify; intros c; by apply amp_view|intros []].
    apply keeps_bind; [apply keeps_gets|intros ready]. destruct (negb ready); [apply IH|].
    apply keeps_bind; [|intros []].
    { destruct (bool_decide _); [|apply keeps_ret]. unfold maybe_initiate_key_update. keeps_tac.
      apply keeps_on_keys, amp_view. }
    apply keeps_bind; [apply keeps_lift|intros payload].
    apply keeps_bind; [apply keeps_send_frames|intros []]; [apply IH|].
    apply keeps_modify. intros c. by apply amp_view.
Qed.

Lemma keeps_send_path_mtu_probe now : keeps (amp heard) (send_path_mtu_probe now).
Proof using Hh.
  apply keeps_triple. unfold send_path_mtu_probe. apply triple_gets. intros c Ha.
  destruct (negb _); [apply triple_ret; by intros s [-> _]|].
  destruct (next_path_mtu_probe_size _) as [target|]; [|apply triple_ret; by intros s [-> _]].
  eapply triple_bind with (Q := λ r c', (coalesced [] [] c' ∧ p_addr (qc_paths c) = p_addr (qc_paths c')) ∧
    match r with Some p => room 3 c' (p_addr (qc_paths c)) (0 + len (bp_bytes p)) | None => True end).
  - unfold build_path_mtu_probe_packet. apply triple_gets. intros s [-> _].
    destruct (k_one_rtt _); [|apply triple_ret; intros s' [-> _]; auto using coalesced_nil].
    eapply triple_bind; [apply triple_keeps; [apply keeps_lift|by intros s' [-> _]]|intros dcid].
    eapply triple_bind; [apply triple_keeps; [apply keeps_lift|by intros s' [-> _]]|intros [base ?]].
    dif; [apply triple_ret; intros s' [-> _]; auto using coalesced_nil|].
    eapply triple_pre; [|by apply triple_build]. intros s' [-> _]. auto using coalesced_nil.
  - intros [p|].
    + eapply triple_bind with (Q := λ _, amp heard); [|intros [] s; by apply amp_view].
      eapply triple_pre; [|apply triple_send_built]. intros s [[[Hs _] _] Hr]. split; [done|].
      eapply room_weaken; [exact Hs| | |exact Hr]; lia.
    + intros s [[[Hs _] _] _]. by apply (amp_view heard s).
Qed.

Lemma view_generate_acks now (c : conn) : path_view (generate_acks now c) = path_view c.
Proof.
  unfold generate_acks. generalize all_spaces. intros l. revert c.
  induction l as [|sp l IH]; intros c; [done|]. cbn [foldl]. rewrite IH.
  by destruct (generate_ack _ _ _ _ _ _) as [[]].
Qed.

Lemma keeps_connection_id_updates : keeps (amp heard) connection_id_updates.
Proof.
  intros c Hc. unfold connection_id_updates. destruct (generate_connection_id_updates _ _ _ _ _ _) as [[] m];
    by apply (amp_view heard c).
Qed.

Lemma view_process_discards (c : conn) : path_view (process_deferred_key_discards c) = path_view c.
Proof.
  unfold process_deferred_key_discards. set (l := qc_deferred c). clearbody l.
  assert (path_view (foldl discard_keys c l) = path_view c) as E; [|exact E].
  revert c. induction l as [|sp l IH]; intros c; [done|]. cbn [foldl]. by rewrite IH.
Qed.

Lemma keeps_send_pending_frames ids now : keeps (amp heard) (send_pending_frames ids now).
Proof using Hh.
  unfold send_pending_frames.
  apply keeps_bind; [apply keeps_modify; intros c; by apply amp_view|intros []].
  apply keeps_bind; [apply keeps_modify; intros c; apply amp_view, view_generate_acks|intros []].
  apply keeps_bind; [apply keeps_on_io, amp_view|intros []].
  apply keeps_bind; [apply keeps_on_io, amp_view|intros []].
  apply keeps_bind; [apply keeps_connection_id_updates|intros []]. apply keeps_triple.
  eapply triple_bind; [eapply triple_pre; [apply coalesced_nil|apply (triple_send_one_space ([], []))]|intros acc1].
  eapply triple_bind; [apply triple_send_one_space|intros acc2].
  eapply triple_bind; [apply triple_send_one_space|intros [dat pkts]].
  eapply triple_bind with (Q := λ _, amp heard).
  { intros c Hc. pose proof (triple_flush c dat pkts now Hc c eq_refl) as Hf.
    by destruct (flush_coalesced _ _ _ c) as [[]]; [destruct Hf as (_ & ? & _)|..]. }
  intros _. apply triple_keeps; [|done].
  apply keeps_bind; [apply keeps_gets|intros l].
  apply keeps_bind; [apply keeps_send_targeted|intros []].
  apply keeps_bind; [apply keeps_send_path_mtu_probe|intros []].
  apply keeps_modify. intros c. apply amp_view, view_process_discards.
Qed.

(** ** The calls *)

Lemma keeps_send_close now frames : keeps (amp heard) (send_connection_close_frames frames now).
Proof using Hh.
  induction frames as [|[sp f] frames IH]; cbn [send_connection_close_frames]; [apply keeps_ret|].
  apply keeps_bind; [apply keeps_lift|intros payload]. apply keeps_bind; [apply keeps_gets|intros a].
  apply keeps_bind; [apply keeps_send_frames|intros sent].
  apply keeps_bind; [exact IH|intros all]. apply keeps_ret.
Qed.

Lemma keeps_flush_close now : keeps (amp heard) (flush_pending_connection_close now).
Proof using Hh.
  unfold flush_pending_connection_close. apply keeps_bind; [apply keeps_gets|intros c].
  destruct (_ && _); [|apply keeps_ret]. apply keeps_bind; [apply keeps_send_close|intros sent].
  apply keeps_modify. intros s. by apply amp_view.
Qed.

Lemma keeps_close code reason now : keeps (amp heard) (close code reason now).
Proof using Hh.
  unfold close. apply keeps_bind; [apply keeps_gets|intros c].
  destruct (closed_or_closing _); [apply keeps_ret|].
  destruct (local_close_frames _ _ _) as [|f frames]; [apply keeps_fail|].
  do 2 (apply keeps_bind; [apply keeps_modify; intros s; by apply amp_view|intros []]).
  apply keeps_flush_close.
Qed.

Lemma keeps_timers now : keeps (amp heard) (handle_internal_timers now).
Proof.
  unfold handle_internal_timers. keeps_tac; try (apply (keeps_rc_to _ (amp_view heard)));
    try (apply (keeps_push _ (amp_view heard))); match goal with Hc : amp heard ?c |- amp heard ?c' =>
      exact (amp_view heard c c' eq_refl Hc) end.
Qed.

Lemma keeps_tls_out t : keeps (amp heard) (process_tls_output t).
Proof. apply keeps_tls_output; [apply amp_view|intros; by apply amp_entry..]. Qed.

Lemma keeps_flush_call ids t : keeps (amp heard) (flush ids t).
Proof using Hh.
  unfold flush. apply keeps_bind; [apply keeps_gets|intros st].
  destruct st; try apply keeps_flush_close; try apply keeps_ret;
    (apply keeps_bind; [apply keeps_tls_out|intros []; apply keeps_send_pending_frames]).
Qed.

Lemma keeps_send_if_work ids t : keeps (amp heard) (send_if_work ids t).
Proof using Hh.
  unfold send_if_work. apply keeps_bind; [apply keeps_tls_out|intros []].
  apply keeps_bind; [apply keeps_gets|intros []]; [apply keeps_send_pending_frames|apply keeps_ret].
Qed.
Lemma keeps_loop data a e t fuel : keeps (amp heard) (datagram_loop fuel data a e t).
Proof.
  apply keeps_datagram_loop;
    [apply amp_view|intros; by apply amp_entry|intros; by apply amp_mark|intros; by apply amp_active].
Qed.

Lemma keeps_after_receive ids t : keeps (amp heard) (after_receive ids t).
Proof using Hh.
  unfold after_receive. apply keeps_bind; [apply keeps_timers|intros []].
  apply keeps_bind; [apply keeps_gets|intros st].
  destruct st; try apply keeps_fail; try apply keeps_flush_close;
    (apply keeps_bind; [apply keeps_send_if_work|intros []]; apply keeps_modify; intros c; by apply amp_view).
Qed.
End Calls.

(** ** Receiving *)

Lemma amp_weaken (heard heard' : SocketAddr → Z) c : (∀ a, heard a ≤ heard' a) → amp heard c → amp heard' c.
Proof.
  intros Hle [Hs Hy Hb]. split; [done..|]. intros a Hv. destruct (Hb a Hv) as (? & ? & ?).
  specialize (Hle a). split_and!; [done|lia..].
Qed.

Lemma hear_ge (heard : SocketAddr → Z) a n b : 0 ≤ n → heard b ≤ hear heard a n b.
Proof. unfold hear. case_bool_decide; lia. Qed.

(** The bytes of an answer of the socket count for its sender. *)
Definition hear_received (heard : SocketAddr → Z) (r : Received) : SocketAddr → Z :=
  match r with Datagram data from _ => hear heard from (len data) | _ => heard end.

Lemma hear_received_ge heard r b : heard b ≤ hear_received heard r b.
Proof. destruct r; [apply hear_ge, len_nonneg|done..]. Qed.

Lemma amp_process_datagram heard data a e t (c : conn) : (∀ b, 6 * hear heard a (len data) b ≤ USIZE_MAX) →
  amp heard c → amp (hear heard a (len data)) (process_datagram data a e t c).2.
Proof.
  intros Hh Ha. pose proof (len_nonneg data). apply keeps_loop, amp_received; [done| |done].
  intros b. specialize (Hh b). pose proof (hear_ge heard a (len data) b). lia.
Qed.

Lemma amp_feed heard data a e t (c : conn) : (∀ b, 6 * hear heard a (len data) b ≤ USIZE_MAX) →
  amp heard c → amp (hear heard a (len data)) (feed_datagram data a e t c).2.
Proof.
  intros Hh Ha. assert (amp (hear heard a (len data)) c) as Ha'.
  { eapply amp_weaken; [|exact Ha]. intros b. apply hear_ge, len_nonneg. }
  unfold feed_datagram. match goal with |- context [(gets qc_state ≫= ?f) c] =>
    change ((gets qc_state ≫= f) c) with (f (qc_state c) c) end. cbv beta.
  pose proof (amp_process_datagram heard data a e t c Hh Ha) as Hd.
  assert (amp (hear heard a (len data)) ((_ ← process_datagram data a e t; st ← gets qc_state;
    if closed_or_closing st then mret tt else process_tls_output t) c).2) as K.
  { unfold mbind at 1, stM_bind. destruct (process_datagram _ _ _ _ c) as [[[]|err| |] c1]; try done.
    revert c1 Hd. change (keeps (amp (hear heard a (len data))) (st ← gets qc_state;
      if closed_or_closing st then mret tt else process_tls_output t)).
    apply keeps_bind; [apply keeps_gets|intros st]. destruct (closed_or_closing st); [apply keeps_ret|].
    apply keeps_tls_out. }
  destruct (qc_state c); first [exact K|exact Ha'|by eapply amp_view; [|exact Ha']].
Qed.

Lemma amp_poll_receive heard r ids asked t (c : conn) : (∀ b, 6 * hear_received heard r b ≤ USIZE_MAX) →
  amp heard c → amp (hear_received heard r) (poll_receive r ids asked t c).2.
Proof.
  intros Hh Ha. assert (amp (hear_received heard r) c) as Ha'.
  { eapply amp_weaken; [|exact Ha]. apply hear_received_ge. }
  unfold poll_receive. match goal with |- context [(gets ?g ≫= ?f) c] =>
    change ((gets g ≫= f) c) with (f (g c) c) end. cbv beta. set (deadline := next_internal_deadline _ _).
  pose proof (keeps_after_receive _ Hh ids t) as Kt.
  destruct r as [data from e| | |]; [|by apply keeps_bind; [apply keeps_ret|intros []|]| |done].
  - pose proof (amp_process_datagram heard data from e t c Hh Ha) as Hd. unfold mbind, stM_bind.
    destruct (process_datagram _ _ _ _ c) as [[[]|err| |] c1]; [by apply Kt|done..].
  - apply keeps_bind; [|intros []; exact Kt|done]. destruct (passed _ _); [apply keeps_ret|apply keeps_fail].
Qed.

Lemma amp_poll heard r ids ids' t t' (c : conn) : (∀ b, 6 * hear_received heard r b ≤ USIZE_MAX) →
  amp heard c → amp (hear_received heard r) (poll r ids ids' t t' c).2.
Proof.
  intros Hh Ha. assert (∀ b, 6 * heard b ≤ USIZE_MAX) as H0h.
  { intros b. pose proof (hear_received_ge heard r b). specialize (Hh b). lia. }
  set (h' := hear_received heard r) in *.
  assert (∀ c, amp heard c → amp h' c) as Hw by (intros; eapply amp_weaken; [apply hear_received_ge|done]).
  unfold poll. match goal with |- context [(gets ?g ≫= ?f) c] =>
    change ((gets g ≫= f) c) with (f (g c) c) end. cbv beta.
  destruct (bool_decide _); [by apply Hw|].
  destruct (passed _ _); [apply Hw; by eapply amp_view; [|exact Ha]|].
  destruct (closed_or_closing _).
  - unfold poll_closing. apply keeps_bind; [| |by apply Hw].
    + destruct r; keeps_tac. destruct (bool_decide _); [|done].
      by eapply amp_view; [|eassumption].
    + intros []. apply keeps_bind; [by apply keeps_flush_close|intros []].
      apply keeps_bind; [apply keeps_timers|intros []]. keeps_tac.
  - unfold mbind at 1, stM_bind at 1. pose proof (keeps_timers heard (instant t) c Ha) as Ht.
    destruct (handle_internal_timers _ c) as [[[]|err| |] c1]; try (by apply Hw). cbn [snd] in Ht.
    match goal with |- context [(gets ?g ≫= ?f) c1] =>
      change ((gets g ≫= f) c1) with (f (g c1) c1) end. cbv beta.
    assert (amp h' ((_ ← send_if_work ids t; poll_receive r ids' t t') c1).2) as K.
    { unfold mbind, stM_bind. pose proof (keeps_send_if_work heard H0h ids t c1 Ht) as Hs.
      destruct (send_if_work _ _ c1) as [[[]|err| |] c2]; try (by apply Hw). by apply amp_poll_receive. }
    destruct (qc_state c1); first [exact K|by apply Hw|by apply Hw, keeps_flush_close].
Qed.

(** ** Whole runs *)

(** A call on a connection: the endpoint feeds a datagram, the application polls,
    flushes, closes, or works on its streams. *)
Inductive Call :=
  | CallPoll (r : Received) (ids ids' : list StreamId) (t t' : Clock)
  | CallFeed (data : bytes) (from : SocketAddr) (e : option UdpEcnCodepoint) (t : Clock)
  | CallFlush (ids : list StreamId) (t : Clock)
  | CallClose (error_code : Z) (reason : bytes) (now : Z)
  | CallStreams (m : ioM unit).

Definition call (x : Call) : connM unit :=
  match x with
  | CallPoll r ids ids' t t' => poll r ids ids' t t'
  | CallFeed data from e t => feed_datagram data from e t
  | CallFlush ids t => flush ids t
  | CallClose error_code reason now => close error_code reason now
  | CallStreams m => on_io m
  end.

(** The connection is used further whatever a call returned. *)
Definition run (calls : list Call) (c : conn) : conn := foldl (λ c x, (call x c).2) c calls.

Definition hear_call (heard : SocketAddr → Z) (x : Call) : SocketAddr → Z :=
  match x with
  | CallPoll r _ _ _ _ => hear_received heard r
  | CallFeed data from _ _ => hear heard from (len data)
  | _ => heard
  end.
(** The bytes the calls brought from each address. *)
Definition bytes_from (calls : list Call) : SocketAddr → Z := foldl hear_call (λ _, 0) calls.

Lemma hear_call_ge heard x b : heard b ≤ hear_call heard x b.
Proof. destruct x; [apply hear_received_ge|apply hear_ge, len_nonneg|done..]. Qed.

Lemma amp_call heard x (c : conn) : (∀ b, 6 * hear_call heard x b ≤ USIZE_MAX) → amp heard c →
  amp (hear_call heard x) (call x c).2.
Proof.
  intros Hh Ha. destruct x; cbn [hear_call call] in *;
    [by apply amp_poll|by apply amp_feed|by apply keeps_flush_call|by apply keeps_close|].
  by apply keeps_on_io; [apply amp_view|].
Qed.

Lemma hear_calls_ge calls : ∀ heard b, heard b ≤ foldl hear_call heard calls b.
Proof.
  induction calls as [|x calls IH]; intros heard b; [done|]. cbn [foldl].
  etransitivity; [apply (hear_call_ge _ x)|apply IH].
Qed.

Lemma amp_run calls : ∀ heard (c : conn), (∀ b, 6 * foldl hear_call heard calls b ≤ USIZE_MAX) →
  amp heard c → amp (foldl hear_call heard calls) (run calls c).
Proof.
  induction calls as [|x calls IH]; intros heard c Hh Ha; [done|]. apply IH; [exact Hh|].
  apply amp_call; [|done]. intros b. specialize (Hh b). pose proof (hear_calls_ge calls (hear_call heard x) b).
  cbn [foldl] in Hh. lia.
Qed.

Lemma amp_new addr lcid rcid (tls : Session) dcid odcid rscid secret ok random now c :
  new_server addr lcid rcid tls dcid odcid rscid secret ok random now = Ok c → amp (λ _, 0) c.
Proof.
  intros (keys & _ & [= <-])%bind_ok_inv. split; [done|apply lookup_singleton_eq|].
  intros a. unfold table. cbn -[lookup]. destruct (decide (a = addr)) as [->|Hn].
  - by rewrite lookup_singleton_eq.
  - by rewrite lookup_singleton_ne.
Qed.

(** C3: a server sends at most six times what it received to an address that it
    has not validated, whatever the datagrams and the calls of the application
    are. *)
Theorem amplification_bounded addr lcid rcid (tls : Session) dcid odcid rscid secret ok random now c calls a :
  new_server addr lcid rcid tls dcid odcid rscid secret ok random now = Ok c →
  (∀ b, 6 * bytes_from calls b ≤ USIZE_MAX) →
  validated (peer_path_state_for_addr (run calls c) a) = false →
  wire_to (qc_wire (run calls c)) a ≤ 6 * bytes_from calls a.
Proof.
  intros Hc Hh. pose proof (amp_run calls _ c Hh (amp_new _ _ _ _ _ _ _ _ _ _ _ _ Hc)) as Ha.
  rewrite path_state_table by apply Ha. intros Hv. destruct (amp_bound _ _ Ha a Hv) as (<- & ? & ?).
  unfold bytes_from. lia.
Qed.
End Amplification.
