(* ===== verification/ConnSample.v ===== *)
(** * A handshake with a session in miniature

    A TLS session that follows a script, keys whose tags name their
    generation, and the runs of a client and a server over them. *)

From S2P Require Import Prelude QuicError Varint Frame Packet PacketProps TransportParams Crypto CryptoProps.
From S2P Require Import KeyUpdate KeyUpdateProps Retry RetryProps.
From S2P Require Import Streams StreamIo AckTracking ConnIds Recovery ConnRecovery Packing.
From S2P Require Import Connection ConnPaths ConnHandshake ConnReceive ConnSend ConnLifecycle ConnFrame ConnAmpProps.

(** Each flight waits for a number of handshake bytes. *)
Record Script := {
  sc_read : Z;
  sc_flights : list (Z * bytes * option (KeyChange Z));
  sc_params : bytes;
}.

Definition script_write (s : Script) : bytes * option (KeyChange Z) * Script :=
  match sc_flights s with
  | (need, data, change) :: rest =>
      if need <=? sc_read s
      then (data, change, {| sc_read := sc_read s; sc_flights := rest; sc_params := sc_params s |})
      else ([], None, s)
  | [] => ([], None, s)
  end.

#[export] Instance script_session : TlsSession Script Z := {|
  read_hs s data :=
    (true, {| sc_read := sc_read s + len data; sc_flights := sc_flights s; sc_params := sc_params s |});
  write_hs := script_write;
  quic_transport_parameters s := if sc_read s =? 0 then None else Some (sc_params s);
  zero_rtt_keys _ := None;
  is_early_data_accepted _ := None;
  next_packet_keys := toy_next;
|}.

Definition toy_keys (g : Z) : RustlsKeys :=
  let d := {| rd_header := toy_header_key; rd_packet := toy_packet_key g |} in
  {| rk_local := d; rk_remote := d |}.

#[export] Instance toy_primitives : Primitives := {|
  hkdf := toy_hkdf; gcm128_seal := toy_seal; gcm256_seal := toy_seal;
  initial_keys dcid _ := Some (toy_keys 1);
  confidentiality_limit _ := 2 ^ 23;
|}.

Definition sample_cid (x : Z) : ConnectionId := {| cid_len := 8; cid_bytes := replicate 8 x ++ replicate 12 0 |}.
Definition client_cid : ConnectionId := sample_cid 0xc1.
Definition server_cid : ConnectionId := sample_cid 0x5e.
Definition original_cid : ConnectionId := sample_cid 0x0d.
Definition client_addr : SocketAddr := SocketV4 [10; 0; 0; 1] 4433.
Definition server_addr : SocketAddr := SocketV4 [10; 0; 0; 2] 443.

Definition tp (id : Z) (cid : ConnectionId) : bytes := [id; cid_len cid] ++ as_slice cid.
Definition limits : bytes :=
  [4; 2; 0x44; 0x00; 5; 2; 0x44; 0x00; 6; 2; 0x44; 0x00; 7; 2; 0x44; 0x00; 8; 1; 10; 9; 1; 10].

(** A handshake of [n] and [m] bytes from the server. *)
Definition client_script (n m : nat) : Script := {|
  sc_read := 0;
  sc_flights := [(0, replicate 20 0xaa, None);
                 (Z.of_nat n, [], Some (ChangeHandshake (toy_keys 2)));
                 (Z.of_nat (n + m), replicate 20 0xcc, Some (ChangeOneRtt (toy_keys 3) 4))];
  sc_params := tp 0x0f server_cid ++ tp 0x00 original_cid ++ limits |}.
Definition server_script (n m : nat) : Script := {|
  sc_read := 0;
  sc_flights := [(20, replicate n 0xbb, Some (ChangeHandshake (toy_keys 2)));
                 (20, replicate m 0xdd, Some (ChangeOneRtt (toy_keys 3) 4))];
  sc_params := tp 0x0f client_cid ++ limits |}.

Abbreviation sample_conn := (QuicConnection NewReno.NewReno Script Z).

Definition random (i : nat) (n : Z) : bytes := replicate (Z.to_nat n) (Z.of_nat i).
Definition clock (ms : Z) : Clock := {| instant := ms * 1000000; wall := Some (1000000 + ms) |}.

Definition sample_client (n m : nat) : sample_conn :=
  connection_new Client (client_script n m) (toy_keys 1) client_cid original_cid original_cid
    server_addr true None None None random 0.
Definition sample_server (n m : nat) : sample_conn :=
  connection_new Server (server_script n m) (toy_keys 1) server_cid client_cid original_cid
    client_addr false (Some client_cid) None None random 0.

Lemma sample_client_new n m :
  new_client server_addr client_cid original_cid (client_script n m) random 0 = Ok (sample_client n m).
Proof. done. Qed.
Lemma sample_server_new n m :
  new_server client_addr server_cid client_cid (server_script n m) (as_slice original_cid)
    original_cid None None false random 0 = Ok (sample_server n m).
Proof. done. Qed.

Definition sent (c : sample_conn) : list bytes := (qc_wire c).*2.

(** The client's first flight. *)
Definition client_hello (n m : nat) : bytes :=
  hd [] (sent (flush [] (clock 1) (sample_client n m)).2).

(** The application writes on a stream as soon as the server has keys. *)
Definition write_early (n : nat) : ioM unit :=
  sid ← on_streams open_bidi;
  _ ← stream_send (Some AppOneRtt) CConnected sid (replicate n 0x61) false; mret tt.

Definition early_calls : list Call :=
  [CallFeed (client_hello 60 2300) client_addr None (clock 2); CallStreams (write_early 800);
   CallFlush [] (clock 3)].

Lemma bytes_from_early b : bytes_from early_calls b = if bool_decide (b = client_addr) then 1201 else 0.
Proof.
  cbn -[client_hello]. unfold hear. assert (len (client_hello 60 2300) = 1201) as -> by (vm_compute; reflexivity).
  by case_bool_decide.
Qed.

Lemma amplification_bounded_witness :
  wire_to (qc_wire (run early_calls (sample_server 60 2300))) client_addr ≤ 6 * bytes_from early_calls client_addr.
Proof.
  eapply amplification_bounded.
  - apply sample_server_new.
  - intros b. rewrite bytes_from_early. case_bool_decide; vm_compute; discriminate.
  - vm_compute. reflexivity.
Defined.

(** The limit of three times is not kept: the first packet with application
    data is checked without the handshake packets that wait in the coalesced
    datagram and go out before it. *)
Theorem amplification_limit_exceeded :
  let c := run early_calls (sample_server 60 2300) in
  validated (peer_path_state_for_addr c client_addr) = false ∧
  bytes_from early_calls client_addr = 1201 ∧ wire_to (qc_wire c) client_addr = 4453.
Proof. split_and!; vm_compute; reflexivity. Qed.

(** ** Two endpoints over a network *)

Definition news (seen : nat) (c : sample_conn) : list bytes := drop seen (sent c).

Definition feed_all (from : SocketAddr) (t : Clock) (ds : list bytes) (c : sample_conn) : sample_conn :=
  foldl (λ c d, (feed_datagram d from None t c).2) c ds.

(** A poll that finds no datagram. *)
Definition tick (t : Clock) (c : sample_conn) : sample_conn := (poll WouldBlock [0] [0] t t c).2.

(** Every [step] milliseconds both endpoints poll, and what they put on the
    wire since is delivered. *)
Fixpoint exchange (turns : nat) (ms step : Z) (cl sv : sample_conn) (seen_cl seen_sv : nat)
    : sample_conn * sample_conn :=
  match turns with
  | O => (cl, sv)
  | S turns =>
      let cl := tick (clock ms) cl in
      let sv := tick (clock ms) (feed_all client_addr (clock ms) (news seen_cl cl) sv) in
      let seen_cl := length (qc_wire cl) in
      let cl := feed_all server_addr (clock ms) (news seen_sv sv) cl in
      exchange turns (ms + step) step cl sv seen_cl (length (qc_wire sv))
  end.

(** The first [lost] datagrams of the server do not arrive. *)
Definition handshake (lost turns : nat) (step : Z) : sample_conn * sample_conn :=
  let cl := tick (clock 1) (sample_client 60 80) in
  let sv := tick (clock 2) (feed_all client_addr (clock 2) (news 0 cl) (sample_server 60 80)) in
  exchange turns 10 step cl sv (length (qc_wire cl)) lost.

(** Without loss both endpoints are connected after two turns, with the same
    keys, and the client has validated its peer's parameters. *)
Lemma handshake_completes :
  let '(cl, sv) := handshake 0 2 10 in
  qc_state cl = CConnected ∧ qc_state sv = CConnected ∧
  pp_applied (qc_params cl) = true ∧ pp_applied (qc_params sv) = true ∧
  validated (peer_path_state_for_addr sv client_addr) = true.
Proof. vm_compute. done. Qed.

(** One lost datagram, the server's first, is never sent again: the server has
    dropped its Initial keys and frames when it sent it.  Every later datagram
    of both sides arrives, and the handshake ends by the idle timeout. *)
Theorem lost_server_hello_is_fatal :
  (let '(cl, sv) := handshake 1 3 6000 in qc_state cl = CInitial ∧ qc_state sv = CConnected) ∧
  (let '(cl, sv) := handshake 1 7 6000 in qc_state cl = CClosed ∧ qc_state sv = CClosed).
Proof. vm_compute. done. Qed.

(** ** A migration that is blocked *)

Definition evil_addr : SocketAddr := SocketV4 [6; 6; 6; 6] 666.
Definition new_addr : SocketAddr := SocketV4 [10; 0; 0; 3] 5000.

(** An Initial packet with nothing but the server's identifier in it. *)
Definition forged_initial : bytes :=
  [0xc0; 0; 0; 0; 1; 8] ++ as_slice server_cid ++ [0; 0; 20] ++ replicate 20 0.

Definition attacked : sample_conn * sample_conn :=
  let '(cl, sv) := handshake 0 2 10 in
  (cl, (feed_datagram forged_initial evil_addr None (clock 40) sv).2).

(** The client sends from its new address; the server gets it and polls. *)
Definition migrated : sample_conn :=
  let '(cl, sv) := attacked in
  let cl' := tick (clock 16000) cl in
  tick (clock 16001) (feed_all new_addr (clock 16000) (news (length (qc_wire cl)) cl') sv).

(** An Initial packet that nobody authenticated, its keys being gone, makes a
    connected server validate the sender's address.  The server has one pending
    validation, which has no timer: a client that migrates afterwards is never
    challenged and the server keeps sending to its old address. *)
Theorem forged_initial_blocks_migration :
  has_keys attacked.2 SpaceInitial = false ∧
  pv_addr <$> p_pending (qc_paths attacked.2) = Some evil_addr ∧
  pv_addr <$> p_pending (qc_paths migrated) = Some evil_addr ∧
  p_addr (qc_paths migrated) = client_addr ∧ new_addr ∉ (qc_wire migrated).*1.
Proof.
  assert ((has_keys attacked.2 SpaceInitial, pv_addr <$> p_pending (qc_paths attacked.2),
           pv_addr <$> p_pending (qc_paths migrated), p_addr (qc_paths migrated),
           bool_decide (new_addr ∈ (qc_wire migrated).*1)) =
          (false, Some evil_addr, Some evil_addr, client_addr, false)) as E by (vm_compute; reflexivity).
  apply pair_equal_spec in E as [E E5]. apply pair_equal_spec in E as [E E4].
  apply pair_equal_spec in E as [E E3]. apply pair_equal_spec in E as [E1 E2].
  apply bool_decide_eq_false in E5. exact (conj E1 (conj E2 (conj E3 (conj E4 E5)))).
Qed.
