(* ===== verification/ConnCloseProps.v ===== *)
(** * The end of a connection

    A connection that drains sends nothing, whatever is done with it, and is
    closed at its deadline. *)

From S2P Require Import Prelude QuicError Varint Frame Packet TransportParams Crypto KeyUpdate.
From S2P Require Import Streams StreamIo AckTracking ConnIds Recovery ConnRecovery Packing.
From S2P Require Import Connection ConnPaths ConnHandshake ConnReceive ConnSend ConnLifecycle.
From S2P Require Import ConnFrame ConnAmpProps ConnSample.

Section Close.
Context {C Session Secrets : Type}.
Context `{CongestionController C} `{TlsSession Session Secrets} `{Primitives}.
Abbreviation conn := (QuicConnection C Session Secrets).
Abbreviation connM := (connM C Session Secrets).

Definition over (s : ConnectionState) : bool :=
  match s with CDraining | CClosed => true | _ => false end.

Section Silent.
Context (w : list (SocketAddr * bytes)).

(** Over, with the datagrams [w] sent so far. *)
Definition silent (c : conn) : Prop := over (qc_state c) = true ∧ qc_wire c = w.

Lemma silent_flush_close now : keeps silent (flush_pending_connection_close now).
Proof.
  intros c Hs. pose proof Hs as [Ho Hw]. unfold flush_pending_connection_close, mbind, stM_bind, gets.
  destruct (qc_state c); try done; exact Hs.
Qed.

Lemma silent_closed (c : conn) : silent c → silent (become_closed c).
Proof. by intros [_ Hw]. Qed.

Lemma silent_timers now : keeps silent (handle_internal_timers now).
Proof.
  intros c Hs. pose proof Hs as [Ho Hw]. unfold handle_internal_timers.
  match goal with |- context [(gets ?g ≫= ?f) c] => change ((gets g ≫= f) c) with (f (g c) c) end. cbv beta.
  destruct (passed now (idle_deadline c)); [by apply silent_closed|].
  destruct (passed now (close_deadline c)); [by apply silent_closed|].
  destruct (qc_state c); try done; exact Hs.
Qed.

Lemma silent_poll r ids ids' t t' : keeps silent (poll r ids ids' t t').
Proof.
  intros c Hs. pose proof Hs as [Ho Hw]. unfold poll.
  match goal with |- context [(gets ?g ≫= ?f) c] => change ((gets g ≫= f) c) with (f (g c) c) end. cbv beta.
  destruct (bool_decide (qc_state c = CClosed)); [done|].
  destruct (passed _ _); [by apply silent_closed|].
  replace (closed_or_closing (qc_state c)) with true by by destruct (qc_state c).
  revert c Hs Ho Hw. unfold poll_closing. intros c Hs _ _. revert c Hs. apply keeps_bind.
  - destruct r; keeps_tac. destruct (bool_decide _) eqn:E; [|done].
    apply bool_decide_eq_true in E. destruct H2 as [Ho _]. by rewrite E in Ho.
  - intros []. apply keeps_bind; [apply silent_flush_close|intros []].
    apply keeps_bind; [apply silent_timers|intros []]. keeps_tac.
Qed.

Lemma silent_call x : keeps silent (call x).
Proof.
  destruct x; cbn [call]; [apply silent_poll| | | |]; intros c Hs; pose proof Hs as [Ho Hw].
  - unfold feed_datagram, mbind, stM_bind, gets. destruct (qc_state c); try done; exact Hs.
  - unfold flush. match goal with |- context [(gets ?g ≫= ?f) c] => change ((gets g ≫= f) c) with (f (g c) c) end.
    cbv beta. destruct (qc_state c) eqn:E; try done; by apply silent_flush_close.
  - unfold close, mbind, stM_bind, gets. destruct (qc_state c); try done; exact Hs.
  - unfold on_io. by destruct (m _).
Qed.

Lemma run_silent calls : ∀ c, silent c → silent (run calls c).
Proof.
  induction calls as [|x calls IH]; intros c Hs; [done|]. by apply IH, silent_call.
Qed.
End Silent.

(** C23: once a connection drains, no call sends a datagram or brings the
    connection back. *)
Theorem draining_silent calls (c : conn) : over (qc_state c) = true →
  over (qc_state (run calls c)) = true ∧ qc_wire (run calls c) = qc_wire c.
Proof.
  intros Ho. apply (run_silent (qc_wire c) calls c). by split.
Qed.

Lemma flush_close_draining now (c : conn) : qc_state c = CDraining →
  flush_pending_connection_close now c = (Ok tt, c).
Proof.
  intros Hs. unfold flush_pending_connection_close, mbind, stM_bind, gets. by rewrite Hs.
Qed.

Lemma timers_draining now d (c : conn) : qc_state c = CDraining → draining_until (qc_close c) = Some d →
  d ≤ now → handle_internal_timers now c = (Ok tt, become_closed c).
Proof.
  intros Hs Hd Ht. unfold handle_internal_timers, mbind, stM_bind, gets, idle_deadline, idle_timeout_active,
    close_deadline. rewrite Hs, andb_false_r, Hd. cbn [passed]. by rewrite (proj2 (Z.leb_le d now) Ht).
Qed.

(** A draining connection is closed by the first poll after its deadline. *)
Theorem draining_ends (c : conn) d r ids ids' t t' :
  qc_state c = CDraining → draining_until (qc_close c) = Some d → d ≤ instant t' → r ≠ Failed →
  ∃ c', poll r ids ids' t t' c = (Err ConnectionDraining, c') ∧ qc_state c' = CClosed.
Proof.
  intros Hs Hd Ht Hr. exists (become_closed c). split; [|done].
  unfold poll. match goal with |- context [(gets ?g ≫= ?f) c] => change ((gets g ≫= f) c) with (f (g c) c) end.
  cbv beta. rewrite bool_decide_eq_false_2 by congruence.
  unfold idle_deadline, idle_timeout_active. rewrite Hs, andb_false_r. cbn [passed closed_or_closing].
  unfold poll_closing. set (read := match r with Datagram _ _ _ => _ | _ => _ end).
  assert (read c = (Ok tt, c)) as E.
  { subst read. destruct r; try done. unfold modify. by rewrite Hs. }
  unfold mbind at 1, stM_bind at 1. rewrite E.
  unfold mbind at 1, stM_bind at 1. rewrite flush_close_draining by done.
  unfold mbind at 1, stM_bind at 1. by rewrite (timers_draining _ d).
Qed.
End Close.

Definition drained : sample_conn := enter_draining_at 5000 (sample_server 60 80).

Lemma draining_silent_witness :
  over (qc_state (run [CallFlush [] (clock 9); CallClose 1 [] 10; CallPoll WouldBlock [] [] (clock 11) (clock 12)]
    drained)) = true ∧
  qc_wire (run [CallFlush [] (clock 9); CallClose 1 [] 10; CallPoll WouldBlock [] [] (clock 11) (clock 12)]
    drained) = qc_wire drained.
Proof. apply draining_silent. vm_compute. reflexivity. Defined.

Lemma draining_ends_witness :
  ∃ c', poll TimedOut [] [] (clock 10) (clock 10000) drained = (Err ConnectionDraining, c') ∧ qc_state c' = CClosed.
Proof.
  apply (draining_ends drained (5000 + pto_timeout (rc_loss (qc_rc (sample_server 60 80))) * 3)).
  - reflexivity.
  - reflexivity.
  - vm_compute. discriminate.
  - discriminate.
Defined.
