(* ===== verification/ConnCryptoProps.v ===== *)
(** * The crypto streams

    CRYPTO frames may come in any order, repeated and overlapping; the session
    reads the bytes of the stream in their order, each once, and as far as
    they have come. *)

From S2P Require Import Prelude QuicError Varint Frame Packet TransportParams Crypto KeyUpdate.
From S2P Require Import Streams StreamIo AckTracking ConnIds Recovery RecoveryProps ConnRecovery.
From S2P Require Import Connection ConnPaths ConnHandshake ConnReceive ConnSample.

(** A chunk of the stream [d] at its offset. *)
Definition piece (d : bytes) (f : Z * bytes) : Prop :=
  0 ≤ f.1 ∧ f.1 + len f.2 ≤ len d ∧ f.2 = take (Z.to_nat (len f.2)) (drop (Z.to_nat f.1) d).

Definition covers (f : Z * bytes) (i : Z) : Prop := f.1 ≤ i < f.1 + len f.2.

(** The part of a piece from [e] on continues the prefix of length [e]. *)
Lemma piece_continues d f e : piece d f → f.1 ≤ e ≤ f.1 + len f.2 →
  take (Z.to_nat e) d ++ drop (Z.to_nat (e - f.1)) f.2 = take (Z.to_nat (f.1 + len f.2)) d.
Proof.
  intros (H1 & H2 & H3) He. rewrite H3 at 1. unfold len in *.
  rewrite skipn_firstn_comm, drop_drop.
  replace (Z.to_nat f.1 + Z.to_nat (e - f.1))%nat with (Z.to_nat e) by lia.
  replace (Z.to_nat (f.1 + Z.of_nat (length f.2)))
    with (Z.to_nat e + (Z.to_nat (Z.of_nat (length f.2)) - Z.to_nat (e - f.1)))%nat by lia.
  by rewrite take_take_drop.
Qed.

Section Crypto.
Context {C Session Secrets : Type}.
Context `{CongestionController C} `{TlsSession Session Secrets} `{Primitives}.
Abbreviation conn := (QuicConnection C Session Secrets).
Abbreviation connM := (connM C Session Secrets).
Context (sp : PacketNumberSpace).

Definition expected (c : conn) : Z := c_recv_offset (qc_crypto c) sp.
Definition buffered (c : conn) : gmap Z bytes := c_recv_buf (qc_crypto c) sp.

(** The session after it read the chunks. *)
Definition reads (s : Session) (xs : list bytes) : Session := foldl (λ s x, (read_hs s x).2) s xs.

(** The session takes the stream [d], however it is cut. *)
Definition accepts (s : Session) (d : bytes) : Prop :=
  ∀ xs x, concat (xs ++ [x]) `prefix_of` d → (read_hs (reads s xs) x).1 = true.

(** What the session has read is the stream up to the expected offset. *)
Definition in_order (d : bytes) (s : Session) (c : conn) : Prop :=
  ∃ xs, qc_tls c = reads s xs ∧ concat xs = take (Z.to_nat (expected c)) d.

(** What the frames [fs] of the stream [d] have left behind. *)
Record received (d : bytes) (s : Session) (fs : list (Z * bytes)) (c : conn) : Prop := {
  rec_read : in_order d s c;
  rec_range : 0 ≤ expected c ≤ len d;
  rec_pieces : ∀ f, buffered c !! f.1 = Some f.2 → piece d f ∧ ∀ i, covers f i → ∃ g, g ∈ fs ∧ covers g i;
  rec_prefix : ∀ i, 0 ≤ i < expected c → ∃ g, g ∈ fs ∧ covers g i;
  rec_kept : ∀ g i, g ∈ fs → covers g i → i < expected c ∨ ∃ f, buffered c !! f.1 = Some f.2 ∧ covers f i;
}.

Lemma per_space_eq {A} (f : PacketNumberSpace → A) a : per_space f sp a sp = a.
Proof. unfold per_space. by destruct sp. Qed.

Lemma buffered_set m (c : conn) : buffered (set_recv_buf sp m c) = m.
Proof. apply per_space_eq. Qed.

Context (d : bytes) (s : Session) (Hs : accepts s d) (Hd : len d ≤ U64_MAX).

(** A chunk that reaches beyond the expected offset is read. *)
Lemma feed_tls_ok f c : in_order d s c → piece d f → f.1 ≤ expected c < f.1 + len f.2 →
  ∃ c', feed_tls sp f.1 f.2 c = (Ok tt, c') ∧ in_order d s c' ∧ expected c' = f.1 + len f.2 ∧
    buffered c' = buffered c.
Proof using Hs Hd.
  intros (xs & Et & Ex) Hf He. pose proof Hf as (Hf1 & Hf2 & _).
  set (x := drop (Z.to_nat (expected c - f.1)) f.2).
  assert (len x = f.1 + len f.2 - expected c) as Hx.
  { subst x. unfold len in *. rewrite length_drop. lia. }
  assert (concat (xs ++ [x]) = take (Z.to_nat (f.1 + len f.2)) d) as Ex'.
  { rewrite concat_app, Ex. cbn [concat]. rewrite app_nil_r. apply piece_continues; [done|lia]. }
  assert ((read_hs (qc_tls c) x).1 = true) as Ok1.
  { rewrite Et. apply Hs. rewrite Ex'. apply prefix_take. }
  unfold feed_tls, mbind, stM_bind, gets, lift, modify. fold (expected c).
  rewrite slice_from_drop by lia. fold x. rewrite add_u64_ok by lia.
  replace (expected c + len x) with (f.1 + len f.2) by lia.
  match goal with |- context [read_hs ?t x] => change t with (qc_tls c) end.
  destruct (read_hs (qc_tls c) x) as [ok tls'] eqn:Er. cbn [fst] in Ok1. subst ok.
  eexists. split; [reflexivity|].
  match goal with |- _ ∧ expected ?c' = _ ∧ _ => assert (expected c' = f.1 + len f.2) as E by apply per_space_eq end.
  split; [|split; [exact E|reflexivity]].
  exists (xs ++ [x]). rewrite E. split; [|done].
  unfold reads. rewrite foldl_app. fold (reads s xs). rewrite <- Et. cbn. by rewrite Er.
Qed.
Lemma next_chunk_some next m f : next_chunk next m = Some f →
  m !! f.1 = Some f.2 ∧ f.1 ≤ next < f.1 + len f.2.
Proof.
  unfold next_chunk. intros Hl%last_Some_elem_of. apply list_elem_of_filter in Hl as [[H1' H2'] Hin].
  destruct f as [o b]. apply elem_sorted_entries in Hin. split; [done|]. unfold is_stale in H2'. cbn in *. lia.
Qed.

Lemma next_chunk_none next m f : next_chunk next m = None → m !! f.1 = Some f.2 →
  next < f.1 ∨ f.1 + len f.2 ≤ next.
Proof.
  unfold next_chunk. intros Hl%last_None Hf. destruct f as [o b]. apply elem_sorted_entries in Hf.
  destruct (decide (o ≤ next ∧ is_stale next (o, b) = false)) as [Hd'|Hd'].
  - assert ((o, b) ∈ filter (λ e, e.1 ≤ next ∧ is_stale next e = false) (sorted_entries m)) as Hin.
    { by apply list_elem_of_filter. }
    rewrite Hl in Hin. by apply not_elem_of_nil in Hin.
  - unfold is_stale in Hd'. cbn in *. destruct (decide (o ≤ next)); [right|left]; [|lia].
    destruct (o + len b <=? next) eqn:E; [lia|]. by destruct Hd'.
Qed.

(** Removing stale chunks loses nothing. *)
Lemma received_fresh fs c : received d s fs c →
  received d s fs (set_recv_buf sp (filter (λ e, is_stale (expected c) e = false) (buffered c)) c).
Proof.
  intros [Hi Hr Hp Hpre Hk]. split; [exact Hi|exact Hr| |exact Hpre|].
  - intros f. rewrite buffered_set, map_lookup_filter_Some. intros [Hf _]. by apply Hp.
  - intros g i Hg Hc. destruct (Hk g i Hg Hc) as [?|(f & Hf & Hcf)]; [by left|].
    destruct (decide (i < expected c)); [by left|right]. exists f. split; [|done].
    rewrite buffered_set. apply map_lookup_filter_Some. split; [done|].
    destruct f as [o b]. unfold is_stale, covers in *. cbn in *. lia.
Qed.

Lemma received_feed fs f c : received d s fs c → buffered c !! f.1 = Some f.2 →
  f.1 ≤ expected c < f.1 + len f.2 →
  ∃ c', feed_tls sp f.1 f.2 (set_recv_buf sp (delete f.1 (buffered c)) c) = (Ok tt, c') ∧
    received d s fs c' ∧ expected c < expected c' ∧ buffered c' = delete f.1 (buffered c).
Proof using Hs Hd.
  intros [Hi Hr Hp Hpre Hk] Hf He. destruct (Hp f Hf) as [Hpf Hcf].
  destruct (feed_tls_ok f (set_recv_buf sp (delete f.1 (buffered c)) c) Hi Hpf He)
    as (c' & E & Hi' & Ee & Eb). rewrite buffered_set in Eb. exists c'.
  split; [done|]. split; [|split; [lia|done]]. pose proof Hpf as (? & ? & _).
  split; [done|rewrite Ee; pose proof (len_nonneg f.2); lia| | |].
  - intros g. rewrite Eb. intros [_ Hg]%lookup_delete_Some. by apply Hp.
  - intros i Hi0. destruct (decide (i < expected c)); [by apply Hpre; lia|]. apply Hcf. unfold covers. lia.
  - intros g i Hg Hc. rewrite Ee, Eb. destruct (Hk g i Hg Hc) as [?|(f' & Hf' & Hc')]; [left; lia|].
    destruct (decide (f'.1 = f.1)) as [E'|Hne].
    + left. rewrite E', Hf in Hf'. injection Hf' as Eq. unfold covers in Hc'. rewrite <- Eq, E' in Hc'. lia.
    + right. exists f'. by rewrite lookup_delete_ne by congruence.
Qed.

(** The loop ends with nothing left that could be read. *)
Lemma drain_ok fs fuel : ∀ c, received d s fs c → (size (buffered c) < fuel)%nat →
  ∃ c', drain_crypto fuel sp c = (Ok tt, c') ∧ received d s fs c' ∧
    ∀ f, buffered c' !! f.1 = Some f.2 → expected c' < f.1.
Proof using Hs Hd.
  induction fuel as [|fuel IH]; intros c Hc Hf; [lia|]. cbn [drain_crypto].
  unfold mbind at 1, stM_bind at 1, gets at 1. unfold mbind at 1, stM_bind at 1, gets at 1.
  fold (expected c) (buffered c). unfold mbind at 1, stM_bind at 1, modify at 1.
  apply received_fresh in Hc. set (m := filter _ (buffered c)) in *.
  assert (size m ≤ size (buffered c))%nat as Hm by apply map_size_filter.
  set (c1 := set_recv_buf sp m c) in *. assert (expected c1 = expected c) as Ee by done.
  assert (buffered c1 = m) as Eb by apply buffered_set.
  destruct (next_chunk (expected c) m) as [[o b]|] eqn:En.
  - apply next_chunk_some in En as [Hl Hr]. cbn [fst snd] in *.
    destruct (received_feed fs (o, b) c1 Hc) as (c' & E & Hc' & _ & Eb'); [by rewrite Eb|by rewrite Ee|].
    cbn [fst snd] in *. rewrite Eb in E, Eb'. unfold mbind, stM_bind, modify. rewrite E.
    apply IH; [done|]. rewrite Eb', map_size_delete_Some by done.
    assert (size m ≠ 0)%nat by (apply map_size_ne_0_lookup; eauto). lia.
  - exists c1. split; [done|]. split; [done|]. intros f. rewrite Eb, Ee. intros Hl.
    destruct (next_chunk_none _ _ _ En Hl) as [?|Hst]; [done|].
    subst m. apply map_lookup_filter_Some in Hl as [_ Hl]. unfold is_stale in Hl. cbn in Hl. lia.
Qed.
Definition settled (c : conn) : Prop := ∀ f, buffered c !! f.1 = Some f.2 → expected c < f.1.

(** One more frame that brings nothing beyond the expected offset. *)
Lemma received_old fs f c : received d s fs c → f.1 + len f.2 ≤ expected c → received d s (f :: fs) c.
Proof.
  intros [Hi Hr Hp Hpre Hk] Hf. split; [done..| | |].
  - intros g Hg. destruct (Hp g Hg) as [? Hc]. split; [done|]. intros i (h & ? & ?)%Hc. exists h. by split; [right|].
  - intros i (h & ? & ?)%Hpre. exists h. by split; [right|].
  - intros g i [->|Hg]%elem_of_cons Hc; [left; unfold covers in Hc; lia|by eapply Hk].
Qed.

(** One more frame that is kept for later. *)
Lemma received_buffer fs f c : received d s fs c → piece d f →
  received d s (f :: fs) (set_recv_buf sp (buffer_chunk f.1 f.2 (buffered c)) c).
Proof.
  intros [Hi Hr Hp Hpre Hk] Hf. destruct f as [o b]. cbn [fst snd].
  assert (∀ g, buffer_chunk o b (buffered c) !! g.1 = Some g.2 → g = (o, b) ∨ buffered c !! g.1 = Some g.2) as Hb.
  { intros [o' b']. unfold buffer_chunk. cbn. assert (<[o := b]> (buffered c) !! o' = Some b' →
      (o', b') = (o, b) ∨ buffered c !! o' = Some b') as Hins by (intros [[-> ->]|[_ ?]]%lookup_insert_Some; auto).
    destruct (buffered c !! o); [dif|]; auto. }
  assert (∀ g i, buffered c !! g.1 = Some g.2 ∨ g = (o, b) → covers g i →
    ∃ h, buffer_chunk o b (buffered c) !! h.1 = Some h.2 ∧ covers h i) as Hkeep.
  { intros [o' b'] i Hg Hc. unfold buffer_chunk, covers in *. cbn in *.
    destruct (decide (o' = o)) as [->|Hne].
    - destruct (buffered c !! o) as [old|] eqn:Eo; [destruct (len old <? len b) eqn:El|].
      + exists (o, b). rewrite lookup_insert_eq. split; [done|]. cbn. destruct Hg; simplify_eq; lia.
      + exists (o, old). split; [done|]. cbn. destruct Hg; simplify_eq; lia.
      + exists (o, b). rewrite lookup_insert_eq. split; [done|]. cbn. destruct Hg; simplify_eq; lia.
    - destruct Hg as [Hg|[=]]; [|done]. exists (o', b'). split; [|done]. cbn.
      destruct (buffered c !! o); [dif|]; by rewrite ?lookup_insert_ne by done. }
  split; [exact Hi|exact Hr| |intros i (h & ? & ?)%Hpre; exists h; by split; [right|]|].
  - intros g. rewrite buffered_set. intros [->|Hg]%Hb.
    + split; [done|]. intros i Hc. exists (o, b). by split; [left|].
    + destruct (Hp g Hg) as [? Hc]. split; [done|]. intros i (h & ? & ?)%Hc. exists h. by split; [right|].
  - intros g i Hg Hc. rewrite buffered_set. apply elem_of_cons in Hg as [->|Hg]; [right; apply (Hkeep (o, b)); auto|].
    destruct (Hk g i Hg Hc) as [?|(h & Hh & Hch)]; [by left|right]. apply (Hkeep h); auto.
Qed.
(** One more frame that is read at once. *)
Lemma received_read fs f c : received d s fs c → piece d f → f.1 ≤ expected c < f.1 + len f.2 →
  ∃ c', feed_tls sp f.1 f.2 c = (Ok tt, c') ∧ received d s (f :: fs) c' ∧ buffered c' = buffered c.
Proof using Hs Hd.
  intros [Hi Hr Hp Hpre Hk] Hf He. destruct (feed_tls_ok f c Hi Hf He) as (c' & E & Hi' & Ee & Eb).
  exists c'. split; [done|]. split; [|done]. pose proof Hf as (? & ? & _).
  split; [done|pose proof (len_nonneg f.2); lia| | |].
  - intros g. rewrite Eb. intros Hg. destruct (Hp g Hg) as [? Hc]. split; [done|].
    intros i (h & ? & ?)%Hc. exists h. by split; [right|].
  - intros i Hi0. destruct (decide (i < expected c)) as [Hlt|].
    + destruct (Hpre i) as (h & ? & ?); [lia|]. exists h. by split; [right|].
    + exists f. split; [left|unfold covers; lia].
  - intros g i [->|Hg]%elem_of_cons Hc; rewrite Ee, Eb; [left; unfold covers in Hc; lia|].
    destruct (Hk g i Hg Hc) as [?|?]; [left; lia|by right].
Qed.

Lemma receive_crypto_ok fs f c : received d s fs c → settled c → piece d f →
  ∃ b c', receive_crypto sp f.1 f.2 c = (Ok b, c') ∧ received d s (f :: fs) c' ∧ settled c'.
Proof using Hs Hd.
  intros Hc Hset Hf. pose proof Hf as (? & ? & _). unfold receive_crypto, gets, lift.
  unfold mbind at 1, stM_bind at 1. fold (expected c). unfold mbind at 1, stM_bind at 1.
  rewrite add_u64_ok by lia. dif.
  { exists false, c. split; [done|]. split; [apply received_old; [done|lia]|done]. }
  unfold mbind at 1, stM_bind at 1. fold (buffered c). dif.
  { exists false. eexists. split; [reflexivity|]. split; [by apply received_buffer|].
    intros g. rewrite buffered_set. unfold buffer_chunk.
    change (expected (set_recv_buf _ _ c)) with (expected c).
    assert (<[f.1 := f.2]> (buffered c) !! g.1 = Some g.2 → expected c < g.1) as Hins.
    { intros [[<- _]|[_ Hg]]%lookup_insert_Some; [lia|by apply Hset]. }
    destruct (buffered c !! f.1); [dif|]; auto. }
  destruct (received_read fs f c Hc Hf) as (c1 & E1 & Hc1 & Eb1); [lia|].
  destruct (drain_ok (f :: fs) (S (size (buffered c))) c1 Hc1) as (c2 & E2 & Hc2 & Hs2); [rewrite Eb1; lia|].
  exists true, c2. unfold mbind, stM_bind. by rewrite E1, E2.
Qed.

(** The frames [fs], one after the other. *)
Definition receive_all (fs : list (Z * bytes)) : connM unit :=
  for_each (λ f, _ ← receive_crypto sp f.1 f.2; mret tt) fs.

Lemma receive_all_ok fs : ∀ done c, received d s done c → settled c → Forall (piece d) fs →
  ∃ c', receive_all fs c = (Ok tt, c') ∧ received d s (reverse fs ++ done) c' ∧ settled c'.
Proof using Hs Hd.
  induction fs as [|f fs IH]; intros dn c Hc Hset Hfs; [by exists c|].
  apply Forall_cons in Hfs as [Hf Hfs].
  destruct (receive_crypto_ok dn f c Hc Hset Hf) as (b & c1 & E1 & Hc1 & Hs1).
  destruct (IH (f :: dn) c1 Hc1 Hs1 Hfs) as (c2 & E2 & Hc2 & Hs2). exists c2. split.
  - unfold receive_all. cbn [for_each]. unfold mbind, stM_bind. by rewrite E1.
  - split; [|done]. by rewrite reverse_cons, <- app_assoc.
Qed.
End Crypto.

(** C7: cRYPTO frames that carry pieces of a stream, in any order, repeated and
    overlapping: the session reads exactly the bytes up to the first one that
    is missing, in order and each once, and no frame fails. *)
Theorem crypto_in_order `{CongestionController C, TlsSession Session Secrets, Primitives}
    sp d fs (c : QuicConnection C Session Secrets) :
  expected sp c = 0 → buffered sp c = ∅ → accepts (qc_tls c) d → len d ≤ U64_MAX → Forall (piece d) fs →
  ∃ c' xs n, receive_all sp fs c = (Ok tt, c') ∧ qc_tls c' = reads (qc_tls c) xs ∧
    concat xs = take (Z.to_nat n) d ∧ 0 ≤ n ≤ len d ∧
    (∀ i, 0 ≤ i < n → ∃ f, f ∈ fs ∧ covers f i) ∧ (∀ f, f ∈ fs → ¬ covers f n).
Proof.
  intros He Hb Ha Hd Hfs.
  assert (received sp d (qc_tls c) [] c) as Hc.
  { split; rewrite ?He, ?Hb.
    - exists []. by rewrite He.
    - pose proof (len_nonneg d). lia.
    - intros f. by rewrite lookup_empty.
    - lia.
    - by intros g i Hg%elem_of_nil. }
  destruct (receive_all_ok sp d (qc_tls c) Ha Hd fs [] c Hc) as (c' & E & Hc' & Hset); [|done|].
  { intros f. by rewrite Hb, lookup_empty. }
  destruct Hc' as [(xs & Et & Ex) Hr Hp Hpre Hk]. exists c', xs, (expected sp c').
  rewrite app_nil_r in *. split_and!; try done; try lia.
  - intros i (f & Hf & Hcf)%Hpre. rewrite elem_of_reverse in Hf. by exists f.
  - intros f Hf Hcf. destruct (Hk f (expected sp c')) as [?|(g & Hg & Hcg)]; [|done|lia|].
    + by apply elem_of_reverse.
    + apply Hset in Hg. unfold covers in Hcg. lia.
Qed.

(** The pieces of a stream of four bytes in a bad order. *)
Lemma crypto_in_order_witness :
  ∃ c' xs n, receive_all SpaceInitial [(2, [3; 4]); (2, [3]); (1, [2; 3]); (0, [1; 2])] (sample_server 60 80) = (Ok tt, c') ∧
    qc_tls c' = reads (qc_tls (sample_server 60 80)) xs ∧
    concat xs = take (Z.to_nat n) [1; 2; 3; 4] ∧ 0 ≤ n ≤ len [1; 2; 3; 4] ∧
    (∀ i, 0 ≤ i < n → ∃ f, f ∈ [(2, [3; 4]); (2, [3]); (1, [2; 3]); (0, [1; 2])] ∧ covers f i) ∧
    (∀ f, f ∈ [(2, [3; 4]); (2, [3]); (1, [2; 3]); (0, [1; 2])] → ¬ covers f n).
Proof.
  apply (crypto_in_order SpaceInitial [1; 2; 3; 4]).
  - reflexivity.
  - reflexivity.
  - by intros xs x _.
  - vm_compute. discriminate.
  - repeat apply Forall_cons_2; try apply Forall_nil_2; split_and!; vm_compute; try discriminate; reflexivity.
Defined.
