(* ===== verification/ConnInitialProps.v ===== *)
(** * The end of the Initial packets of a server

    A server drops its Initial keys at the end of the flush that follows the
    Handshake keys, and nothing brings them back: no call makes it send another
    Initial packet, whether the one with its ServerHello arrived or not. *)

From S2P Require Import Prelude QuicError Varint Frame Packet TransportParams Crypto KeyUpdate Retry.
From S2P Require Import Streams StreamIo AckTracking ConnIds Recovery ConnRecovery Packing.
From S2P Require Import Connection ConnPaths ConnHandshake ConnReceive ConnSend ConnLifecycle.
From S2P Require Import ConnFrame ConnAmpProps ConnSample.

Lemma initial_put k sp v : sp ≠ SpaceInitial → k_initial (keys_put k sp v) = k_initial k.
Proof. by destruct k, sp. Qed.

(** ** What the key machinery does to the Initial keys *)

Section Keys.
Context {Secrets : Type} (next : Secrets → (PacketKey * PacketKey) * Secrets).

Definition initial_keys (i : option DirectionalKeys) (k : KeyState (Secrets := Secrets)) : Prop :=
  k_initial (ks_keys k) = i.

Lemma initial_one_rtt_with k f : k_initial (one_rtt_with k f) = k_initial k.
Proof. by apply initial_put. Qed.

Lemma initial_initiate i : keeps (initial_keys i) (initiate_key_update next).
Proof.
  intros k Hk. unfold initiate_key_update. destruct (k_one_rtt (ks_keys k)), (ks_next_secrets k), (ks_pending_remote k);
    try done. destruct (next s) as [[l r] s']. unfold initial_keys. cbn. by rewrite initial_one_rtt_with.
Qed.

Lemma initial_next_generation i pn phase h ct : keeps (initial_keys i) (decrypt_next_generation next pn phase h ct).
Proof.
  intros k Hk. unfold decrypt_next_generation. destruct (ks_next_secrets k) as [s|]; [|done].
  destruct (next s) as [[l r] s']. destruct (exec _ _); try done. unfold initial_keys. cbn.
  by rewrite initial_one_rtt_with.
Qed.

Lemma initial_try_next i pn phase h ct : keeps (initial_keys i) (try_decrypt_with_next_keys next pn phase h ct).
Proof.
  intros k Hk. unfold try_decrypt_with_next_keys. destruct (_ <? _); [done|].
  destruct (ks_pending_remote k) as [[p r]|]; [|by apply initial_next_generation].
  destruct (eqb p phase); [|by apply initial_next_generation].
  destruct (exec _ _); try done. unfold initial_keys. cbn. by rewrite initial_one_rtt_with.
Qed.
Hint Resolve initial_initiate initial_try_next : keeps.

Lemma initial_open i sp kind n pn data : keeps (initial_keys i) (open_packet next sp kind n pn data).
Proof. unfold open_packet. keeps_tac. Qed.
End Keys.

(** ** What a server's operations leave alone *)

Section Frame.
Context {C Session Secrets : Type}.
Context `{CongestionController C} `{TlsSession Session Secrets} `{Primitives}.
Abbreviation conn := (QuicConnection C Session Secrets).
Abbreviation connM := (connM C Session Secrets).

Definition initial_view (c : conn) : Side * option DirectionalKeys * Z * list PacketNumberSpace :=
  (qc_side c, k_initial (ks_keys (qc_keys c)), qc_next_pn c SpaceInitial, qc_deferred c).

Lemma view_keys f (c : conn) : (∀ k, k_initial (ks_keys (f k)) = k_initial (ks_keys k)) →
  initial_view (c <| qc_keys ::= f |>) = initial_view c.
Proof.
  intros Hf. transitivity (qc_side c, k_initial (ks_keys (f (qc_keys c))), qc_next_pn c SpaceInitial, qc_deferred c);
    [done|]. by rewrite Hf.
Qed.

Context (P : conn → Prop) (P_view : ∀ c c', initial_view c' = initial_view c → P c → P c').
Context (P_server : ∀ c, P c → qc_side c = Server).
(** Keys may be marked for dropping, and a packet number may be used while there are keys. *)
Context (P_defer : ∀ sp c, P c → P (c <| qc_deferred ::= (λ l, l ++ [sp]) |>)).
Context (P_next : ∀ n c, P c → is_Some (k_initial (ks_keys (qc_keys c))) →
  P (c <| qc_next_pn ::= (λ f, per_space f SpaceInitial n) |>)).

Local Ltac same := match goal with Hc : P ?c |- P ?c' => exact (P_view c c' eq_refl Hc) end.
Local Ltac by_view l := match goal with Hc : P ?c |- P _ => apply (P_view c); [apply l|exact Hc] end.

Lemma initial_on_keys {A} (m : stM (KeyState (Secrets := Secrets)) QuicError A) :
  (∀ i, keeps (initial_keys i) m) → keeps P (on_keys m).
Proof using P_view.
  intros Hm c Hc. unfold on_keys. pose proof (Hm (k_initial (ks_keys (qc_keys c))) (qc_keys c) eq_refl) as Hk.
  destruct (m (qc_keys c)) as [r s]. apply (P_view c); [|done]. unfold initial_keys in Hk. cbn [snd] in Hk.
  transitivity (qc_side c, k_initial (ks_keys s), qc_next_pn c SpaceInitial, qc_deferred c); [done|].
  by rewrite Hk.
Qed.
Lemma initial_on_cids {A} (m : stM ConnectionIdManager QuicError A) : keeps P (on_cids m).
Proof using P_view. intros c Hc. unfold on_cids. destruct (m _) as [r s]. same. Qed.
Lemma initial_on_io (m : ioM unit) : keeps P (on_io m).
Proof using P_view. intros c Hc. unfold on_io. destruct (m _) as [r s]. same. Qed.
Lemma initial_cids_to f : keeps P (cids_to f).
Proof using P_view. unfold cids_to. keeps_tac. same. Qed.
Lemma initial_rc_to f : keeps P (rc_to f).
Proof using P_view. unfold rc_to. keeps_tac. same. Qed.
Lemma initial_push sp f : keeps P (push sp f).
Proof using P_view. unfold push. keeps_tac. same. Qed.
Lemma initial_draw n : keeps P (draw n).
Proof using P_view. intros c Hc. same. Qed.
Lemma initial_targeted a sp f : keeps P (queue_targeted_frame a sp f).
Proof using P_view. unfold queue_targeted_frame. keeps_tac. same. Qed.
Hint Resolve initial_on_cids initial_on_io initial_cids_to initial_rc_to initial_push initial_draw
  initial_targeted : keeps.

(** *** Paths *)

Lemma view_entry f a (c : conn) : initial_view (with_entry f a c) = initial_view c.
Proof. done. Qed.
Lemma view_store (c : conn) : initial_view (store_active_peer_path_state c) = initial_view c.
Proof. unfold store_active_peer_path_state. by destruct (negb _). Qed.
Lemma view_mark a (c : conn) : initial_view (mark_peer_path_validated a c) = initial_view c.
Proof.
  unfold mark_peer_path_validated. destruct (negb _); [done|]. destruct (bool_decide _); [|done].
  by rewrite view_store.
Qed.
Lemma view_active a (c : conn) : initial_view (set_active_peer_addr a c) = initial_view c.
Proof.
  unfold set_active_peer_addr, load_active_peer_path_state. set (c1 := if bool_decide _ then _ else c).
  assert (initial_view c1 = initial_view c) as <-.
  { unfold c1. destruct (bool_decide _); [|done]. by rewrite view_entry, view_store. }
  by destruct (negb _).
Qed.
Lemma view_count f a (c : conn) : initial_view (count_unvalidated f a c) = initial_view c.
Proof.
  unfold count_unvalidated. destruct (negb _); [done|]. destruct (bool_decide _); [|done].
  destruct (validated _); [done|]. by rewrite view_store.
Qed.

Lemma initial_start_validation a k : keeps P (start_path_validation a k).
Proof using P_view.
  unfold start_path_validation. keeps_tac; [|same]. destruct (bool_decide _); [same|done].
Qed.
Lemma initial_adopt p : keeps P (adopt_preferred p).
Proof using P_view. unfold adopt_preferred. keeps_tac. same. Qed.
Hint Resolve initial_start_validation initial_adopt : keeps.
Lemma initial_preferred : keeps P maybe_begin_preferred_address_validation.
Proof using P_view. unfold maybe_begin_preferred_address_validation. keeps_tac. Qed.
Hint Resolve initial_preferred : keeps.
Lemma initial_path_response a d now : keeps P (process_path_response a d now).
Proof using P_view.
  unfold process_path_response. keeps_tac; first [by_view view_mark|by_view view_active|same].
Qed.
Hint Resolve initial_path_response : keeps.

(** *** The handshake *)

Lemma initial_apply_values params now : keeps P (apply_peer_transport_parameter_values params now).
Proof using P_view. unfold apply_peer_transport_parameter_values. keeps_tac; same. Qed.
Hint Resolve initial_apply_values : keeps.

Lemma view_cache_params params (c : conn) :
  initial_view (cache_peer_transport_parameters params c) = initial_view c.
Proof.
  unfold cache_peer_transport_parameters. by destruct (r_param_cache (qc_resume c)), (r_cache_key (qc_resume c)).
Qed.
Lemma initial_apply_params t : keeps P (apply_peer_transport_parameters t).
Proof using P_view.
  unfold apply_peer_transport_parameters. keeps_tac; [same|].
  match goal with Hc : P ?c |- _ => apply (P_view c); [by rewrite view_cache_params|done] end.
Qed.
Hint Resolve initial_apply_params : keeps.

Lemma initial_discard_zero k : k_initial (discard_zero_rtt k) = k_initial k.
Proof. by destruct k. Qed.
Lemma view_discard_zero (c : conn) : initial_view (discard_zero_rtt_keys c) = initial_view c.
Proof. apply view_keys. intros k. apply initial_discard_zero. Qed.
Lemma view_refresh_zero (c : conn) : initial_view (refresh_zero_rtt_keys c) = initial_view c.
Proof.
  unfold refresh_zero_rtt_keys. destruct (_ && _); [apply view_discard_zero|]. cbn zeta.
  destruct (match qc_side c with Client => _ | Server => _ end); [done|].
  destruct (zero_rtt_keys _); [|done]. destruct (_ || _); [|done].
  unfold initial_view. cbn. unfold set_zero_rtt. destruct (ks_keys (qc_keys c)). by destruct (bool_decide _).
Qed.

Lemma initial_refresh : keeps P (modify refresh_zero_rtt_keys : connM unit).
Proof using P_view. keeps_tac. by_view view_refresh_zero. Qed.
Lemma initial_finalize : keeps P finalize_client_early_data_state.
Proof using P_view.
  unfold finalize_client_early_data_state. keeps_tac; first [same|by_view view_discard_zero].
Qed.
Lemma initial_new_token_frame t : keeps P (queue_new_token_frame t).
Proof using P_view. unfold queue_new_token_frame. keeps_tac. same. Qed.
Hint Resolve initial_refresh initial_finalize initial_new_token_frame : keeps.

Lemma initial_install_keys k t : keeps P (install_keys k t).
Proof using P_view P_defer.
  destruct k as [keys|keys next]; cbn [install_keys].
  - apply keeps_modify. intros c Hc.
    apply (P_view ((c <| qc_keys ::= (λ k, set_packet_keys (set_from_quic_keys (ks_keys k) SpaceHandshake keys) k) |>)
      <| qc_deferred ::= (λ l, l ++ [SpaceInitial]) |>)); [done|].
    apply P_defer, (P_view c); [|done]. apply view_keys. intros k. by apply initial_put.
  - apply keeps_bind; [apply keeps_modify; intros c Hc|intros []].
    { apply (P_view (c <| qc_keys ::= (λ k, install_one_rtt k keys next) |>)); [done|].
      apply (P_view c); [|done]. apply view_keys. intros k. by apply initial_put. }
    apply keeps_bind; [apply keeps_gets|intros []].
    + apply keeps_modify. intros c. apply P_defer.
    + apply keeps_bind; [auto with keeps|intros []]. auto with keeps.
Qed.
Hint Resolve initial_install_keys : keeps.

Lemma initial_tls_output_loop fuel : ∀ sp t, keeps P (tls_output_loop fuel sp t).
Proof using P_view P_defer.
  induction fuel as [|fuel IH]; intros sp t; cbn [tls_output_loop]; keeps_tac; first [by apply IH|same].
Qed.
Hint Resolve initial_tls_output_loop : keeps.
Lemma initial_tls_output t : keeps P (process_tls_output t).
Proof using P_view P_defer.
  unfold process_tls_output. apply keeps_bind; [apply initial_refresh|intros _].
  apply keeps_bind; [apply keeps_gets|intros st].
  apply keeps_bind; [apply initial_tls_output_loop|intros _].
  apply keeps_bind; [apply initial_refresh|intros _].
  apply keeps_bind; [apply initial_apply_params|intros _; apply initial_finalize].
Qed.
Hint Resolve initial_tls_output : keeps.

Lemma initial_feed_tls sp offset data : keeps P (feed_tls sp offset data).
Proof using P_view. unfold feed_tls. keeps_tac; same. Qed.
Hint Resolve initial_feed_tls : keeps.
Lemma initial_drain fuel : ∀ sp, keeps P (drain_crypto fuel sp).
Proof using P_view.
  induction fuel as [|fuel IH]; intros sp; cbn [drain_crypto]; keeps_tac; first [by apply IH|same].
Qed.
Hint Resolve initial_drain : keeps.
Lemma initial_crypto sp offset data t : keeps P (process_crypto_data sp offset data t).
Proof using P_view P_defer.
  unfold process_crypto_data, receive_crypto. keeps_tac; try same.
  destruct (_ && negb _); [by apply P_defer|done].
Qed.
Lemma initial_retry data h : keeps P (process_retry data h).
Proof using P_view P_server.
  unfold process_retry. apply keeps_gets_bind. intros c Hc. by rewrite (P_server c Hc).
Qed.
Hint Resolve initial_crypto initial_retry : keeps.

(** *** Frames, packets and datagrams *)

Lemma view_enter_draining now (c : conn) : initial_view (enter_draining_at now c) = initial_view c.
Proof. unfold enter_draining_at. by destruct (bool_decide _). Qed.
Lemma view_cache_new_token token (c : conn) : initial_view (cache_new_token token c) = initial_view c.
Proof. unfold cache_new_token. by destruct (r_token_cache (qc_resume c)), (r_cache_key (qc_resume c)). Qed.

Lemma initial_handshake_done : keeps P process_handshake_done.
Proof using P_view P_server.
  unfold process_handshake_done. apply keeps_gets_bind. intros c Hc. by rewrite (P_server c Hc).
Qed.
Lemma initial_new_token token : keeps P (process_new_token token).
Proof using P_view.
  unfold process_new_token. keeps_tac.
  match goal with Hc : P ?c |- _ => apply (P_view c); [by rewrite view_cache_new_token|done] end.
Qed.
Lemma initial_retire_cid seq : keeps P (process_retire_connection_id seq).
Proof using P_view.
  intros c Hc. unfold process_retire_connection_id. destruct (retire_local_cid _ _ _ _). same.
Qed.
Hint Resolve initial_handshake_done initial_new_token initial_retire_cid : keeps.

Lemma initial_frame sp kind f a t : keeps P (process_frame_from sp kind f a t).
Proof using P_view P_server P_defer.
  unfold process_frame_from. destruct (match kind with RZeroRtt => _ | _ => _ end); [auto with keeps|].
  destruct f; keeps_tac. by_view view_enter_draining.
Qed.

Lemma initial_packet sp kind data a e t : keeps P (process_packet sp kind data a e t).
Proof using P_view P_server P_defer.
  unfold process_packet. do 2 (apply keeps_bind; [apply keeps_gets|intros ?]).
  apply keeps_bind; [apply initial_on_keys; intros i; apply initial_open|intros [[pn frames]|]]; [|auto with keeps].
  apply keeps_bind; [keeps_tac; same|intros _]. apply keeps_bind; [keeps_tac; same|intros _].
  apply keeps_bind; [apply keeps_for_each; intros; apply initial_frame|intros _]. keeps_tac.
  destruct (should_auto_validate_peer_path _ _ _); [by_view view_mark|done].
Qed.

Lemma initial_note_scid h : keeps P (note_initial_scid h).
Proof using P_view. unfold note_initial_scid. keeps_tac. same. Qed.

Lemma initial_long sp kind data a e t : keeps P (try_long_packet sp kind data a e t).
Proof using P_view P_server P_defer.
  intros c Hc. unfold try_long_packet. pose proof (initial_packet sp kind data a e t c Hc) as Hp.
  destruct (process_packet _ _ _ _ _ _ c) as [[[]|err| |] c']; cbn in *; try done.
  - by apply initial_start_validation.
  - by destruct (should_silently_drop_protected_packet err).
Qed.

Lemma initial_short data a e t : keeps P (short_packet data a e t).
Proof using P_view P_server P_defer.
  intros c Hc. unfold short_packet.
  pose proof (initial_packet SpaceApplicationData ROneRtt data a e t c Hc) as Hp.
  destruct (process_packet _ _ _ _ _ _ c) as [[[]|err| |] c']; cbn [snd] in *; try done.
  - revert c' Hp. change (keeps P (begin_peer_path_validation a ≫= λ _, modify (λ c,
      if negb (bool_decide (qc_state c = CDraining)) && negb (has_one_rtt c)
         && is_stateless_reset c data then enter_draining_at (instant t) c else c))).
    apply keeps_bind; [apply initial_start_validation|intros _]. keeps_tac.
    destruct (_ && _); [|done]. by_view view_enter_draining.
  - destruct (is_stateless_reset c' data); [by_view view_enter_draining|].
    by destruct (should_silently_drop_protected_packet err).
Qed.

Lemma initial_datagram_loop fuel : ∀ data a e t, keeps P (datagram_loop fuel data a e t).
Proof using P_view P_server P_defer.
  induction fuel as [|fuel IH]; intros [|x data] a e t; cbn [datagram_loop]; auto with keeps.
  apply keeps_bind; [auto with keeps|intros c]. destruct (parse_header _ _) as [[h|h|]|err| |];
    auto with keeps.
  - apply keeps_bind; [apply initial_note_scid|intros _]. destruct (bool_decide _); [auto with keeps|].
    do 3 (apply keeps_bind; [auto with keeps|intros ?]). destruct (_ && _); [apply IH|].
    apply keeps_bind; [apply initial_long|intros; apply IH].
  - apply initial_short.
  - destruct (_ && _); auto with keeps.
  - keeps_tac. by_view view_enter_draining.
Qed.

Lemma initial_datagram data a e t : keeps P (process_datagram data a e t).
Proof using P_view P_server P_defer.
  unfold process_datagram. apply keeps_bind; [|intros []; apply initial_datagram_loop].
  apply keeps_modify. intros c Hc. by_view view_count.
Qed.

(** *** Packets out *)

Lemma next_pn_other sp n (c : conn) : sp ≠ SpaceInitial →
  initial_view (c <| qc_next_pn ::= (λ f, per_space f sp n) |>) = initial_view c.
Proof.
  intros Hs. unfold initial_view. cbn. unfold per_space. by rewrite decide_False by congruence.
Qed.

Lemma initial_build sp frames payload a track pend : keeps P (build_packet_to_addr sp frames payload a track pend).
Proof using P_view P_next.
  unfold build_packet_to_addr. apply keeps_gets_bind. intros c Hc.
  destruct (packet_kind c sp) as [kind|] eqn:Ek; [|done]. cbn zeta.
  assert (∀ A (r : qres A) (f : A → connM (option BuiltPacket)), (∀ x, P (f x c).2) → P ((lift r ≫= f) c).2) as Hl.
  { intros A r f Hf. unfold mbind, stM_bind, lift. by destruct r. }
  apply Hl. intros allowed. destruct (negb allowed); [done|]. do 2 (apply Hl; intros ?).
  apply Hl. intros [data [off n]]. destruct (negb _); [done|].
  destruct (local_keys c sp kind) as [[pk hk]|] eqn:El; [|done]. apply Hl. intros out.
  unfold mbind at 1, stM_bind at 1, modify at 1.
  set (c1 := match kind with Some AppZeroRtt => _ | _ => c end).
  assert (initial_view c1 = initial_view c) as Hv by (unfold c1; by destruct kind as [[]|]).
  assert (P c1) as Hc1 by (by apply (P_view c)).
  unfold mbind at 1, stM_bind at 1, lift at 1. destruct (add_u64 _ _) as [next| | |]; try done.
  change (P (c1 <| qc_next_pn ::= (λ f, per_space f sp next) |>)).
  destruct (decide (sp = SpaceInitial)) as [->|Hne]; [|by apply (P_view c1); [apply next_pn_other|]].
  apply P_next; [done|]. assert (kind = None) as -> by (unfold packet_kind in Ek; by injection Ek).
  change c1 with c. cbn in El. apply fmap_Some in El as (d & El & _). by exists d.
Qed.

Lemma view_packet_sent now ae (c : conn) : initial_view (record_packet_sent now ae c) = initial_view c.
Proof. unfold record_packet_sent. by destruct (_ && _). Qed.
Lemma view_count_one_rtt pkts (c : conn) : initial_view (c <| qc_keys ::= count_one_rtt pkts |>) = initial_view c.
Proof.
  apply view_keys. unfold count_one_rtt. induction pkts as [|p pkts IH]; intros k; [done|]. cbn [foldl].
  rewrite IH. by destruct (bp_app_kind p) as [[]|].
Qed.

Lemma initial_send_built a d pkts now : keeps P (send_built_datagram_to_addr a d pkts now).
Proof using P_view.
  unfold send_built_datagram_to_addr. destruct d as [|x d]; [apply keeps_ret|].
  apply keeps_bind; [keeps_tac; same|intros []]. apply keeps_bind; [keeps_tac; by_view view_packet_sent|intros []].
  apply keeps_bind; [keeps_tac; by_view view_count|intros []].
  apply keeps_bind; [auto with keeps|intros []]. keeps_tac. by_view view_count_one_rtt.
Qed.
Hint Resolve initial_build initial_send_built : keeps.

Lemma initial_send_frames sp frames payload a track now : keeps P (send_frames_to_addr sp frames payload a track now).
Proof using P_view P_next. unfold send_frames_to_addr. keeps_tac. Qed.
Lemma initial_key_update : keeps P maybe_initiate_key_update.
Proof using P_view.
  unfold maybe_initiate_key_update. keeps_tac. apply initial_on_keys. intros i. apply initial_initiate.
Qed.
Lemma initial_flush_coalesced dat pkts now : keeps P (flush_coalesced dat pkts now).
Proof using P_view. unfold flush_coalesced. keeps_tac. Qed.
Hint Resolve initial_send_frames initial_key_update initial_flush_coalesced : keeps.

Lemma initial_send_space fuel : ∀ sp frames dat pkts now, keeps P (send_space fuel sp frames dat pkts now).
Proof using P_view P_next.
  induction fuel as [|fuel IH]; intros sp [|f frames] dat pkts now; cbn [send_space]; auto with keeps.
  keeps_tac; by apply IH.
Qed.
Hint Resolve initial_send_space : keeps.

Lemma initial_send_one_space acc sp now : keeps P (send_one_space acc sp now).
Proof using P_view P_next. unfold send_one_space. keeps_tac; same. Qed.

Lemma view_generate_acks_initial now (c : conn) : initial_view (generate_acks now c) = initial_view c.
Proof.
  unfold generate_acks. generalize all_spaces as l. intros l. revert c. induction l as [|sp l IH]; intros c; [done|].
  cbn [foldl]. rewrite IH. by destruct (generate_ack _ _ _ _ _ _) as [[ack|] st].
Qed.

Lemma initial_cid_updates : keeps P connection_id_updates.
Proof using P_view.
  intros c Hc. unfold connection_id_updates. destruct (generate_connection_id_updates _ _ _ _ _ _) as [[] m]; same.
Qed.

Lemma initial_send_targeted now l : ∀ remaining, keeps P (send_targeted l remaining now).
Proof using P_view P_next.
  induction l as [|[[a sp] f] l IH]; intros remaining; cbn [send_targeted]; keeps_tac; first [by apply IH|same].
Qed.

Lemma initial_send_mtu_probe now : keeps P (send_path_mtu_probe now).
Proof using P_view P_next. unfold send_path_mtu_probe, build_path_mtu_probe_packet. keeps_tac; same. Qed.

(** [send_pending_frames] up to the dropping of keys. *)
Lemma initial_send_pending (P' : conn → Prop) ids now : (∀ c, P c → P' (process_deferred_key_discards c)) →
  ∀ c, P c → match send_pending_frames ids now c with (Ok _, c') => P' c' | (_, c') => P c' end.
Proof using P_view P_next.
  intros Hd. change (triple P P (send_pending_frames ids now) (λ _, P')). unfold send_pending_frames.
  assert (∀ A B (m : connM A) (f : A → connM B) Q, keeps P m → (∀ a, triple P P (f a) Q) → triple P P (m ≫= f) Q) as Hb.
  { intros A B m f Q Hm Hf. eapply triple_bind; [apply triple_keeps; [done|auto]|exact Hf]. }
  apply Hb; [keeps_tac; same|intros []]. apply Hb; [keeps_tac; by_view view_generate_acks_initial|intros []].
  do 2 (apply Hb; [auto with keeps|intros []]). apply Hb; [apply initial_cid_updates|intros []].
  do 3 (apply Hb; [apply initial_send_one_space|intros ?]). apply Hb; [auto with keeps|intros ?].
  apply Hb; [apply keeps_gets|intros l]. apply Hb; [apply initial_send_targeted|intros []].
  apply Hb; [apply initial_send_mtu_probe|intros []]. intros c Hc. by apply Hd.
Qed.
End Frame.

(** ** Servers without Initial keys *)

Section Server.
Context {C Session Secrets : Type}.
Context `{CongestionController C} `{TlsSession Session Secrets} `{Primitives}.
Abbreviation conn := (QuicConnection C Session Secrets).
Abbreviation connM := (connM C Session Secrets).

Lemma initial_discard k sp : k_initial (discard k sp) = if bool_decide (sp = SpaceInitial) then None else k_initial k.
Proof. by destruct k, sp. Qed.

(** Dropping keys touches the Initial keys only to drop them. *)
Lemma discards_initial (l : list PacketNumberSpace) : ∀ c : conn,
  let c' := foldl discard_keys c l in
  qc_side c' = qc_side c ∧ qc_next_pn c' = qc_next_pn c ∧
  k_initial (ks_keys (qc_keys c')) =
    if bool_decide (SpaceInitial ∈ l) then None else k_initial (ks_keys (qc_keys c)).
Proof.
  induction l as [|sp l IH]; intros c; [done|]. cbn [foldl]. destruct (IH (discard_keys c sp)) as (-> & -> & ->).
  split; [done|]. split; [done|].
  change (k_initial (ks_keys (qc_keys (discard_keys c sp)))) with (k_initial (discard (ks_keys (qc_keys c)) sp)).
  rewrite initial_discard. destruct (decide (SpaceInitial ∈ l)) as [Hi|Hi].
  { by rewrite !bool_decide_eq_true_2 by set_solver. }
  rewrite (bool_decide_eq_false_2 (SpaceInitial ∈ l)) by done. destruct (decide (sp = SpaceInitial)) as [->|Hn].
  - by rewrite !bool_decide_eq_true_2 by set_solver.
  - by rewrite !bool_decide_eq_false_2 by set_solver.
Qed.

Section Closed.
Context (n : Z).

(** A server without Initial keys that has used the Initial packet numbers below [n]. *)
Definition initial_closed (c : conn) : Prop :=
  qc_side c = Server ∧ k_initial (ks_keys (qc_keys c)) = None ∧ qc_next_pn c SpaceInitial = n.

Lemma closed_view c c' : initial_view c' = initial_view c → initial_closed c → initial_closed c'.
Proof. unfold initial_closed. by intros [= -> -> -> _]. Qed.
Lemma closed_server c : initial_closed c → qc_side c = Server.
Proof. by intros [? _]. Qed.
Lemma closed_defer sp c : initial_closed c → initial_closed (c <| qc_deferred ::= (λ l, l ++ [sp]) |>).
Proof. done. Qed.
Lemma closed_next i c : initial_closed c → is_Some (k_initial (ks_keys (qc_keys c))) →
  initial_closed (c <| qc_next_pn ::= (λ f, per_space f SpaceInitial i) |>).
Proof. intros (_ & -> & _) [? ?]. done. Qed.
Lemma closed_discards c : initial_closed c → initial_closed (process_deferred_key_discards c).
Proof.
  intros (Hs & Hk & Hn). destruct (discards_initial (qc_deferred c) c) as (E1 & E2 & E3).
  split_and!.
  - by rewrite <-Hs, <-E1.
  - transitivity (k_initial (ks_keys (qc_keys (foldl discard_keys c (qc_deferred c))))); [done|].
    rewrite E3. by destruct (bool_decide _).
  - by rewrite <-Hn, <-E2.
Qed.

Local Ltac same := match goal with Hc : initial_closed ?c |- initial_closed ?c' => exact (closed_view c c' eq_refl Hc) end.

Lemma closed_send_pending ids now : keeps initial_closed (send_pending_frames ids now).
Proof.
  apply keeps_triple. intros c Hc.
  apply (initial_send_pending initial_closed closed_view closed_next initial_closed ids now closed_discards c Hc).
Qed.
Lemma closed_tls_output t : keeps initial_closed (process_tls_output t).
Proof. apply initial_tls_output; [exact closed_view|exact closed_defer]. Qed.
Lemma closed_datagram data a e t : keeps initial_closed (process_datagram data a e t).
Proof. apply initial_datagram; [exact closed_view|exact closed_server|exact closed_defer]. Qed.
Lemma closed_send_frames sp frames payload a track now :
  keeps initial_closed (send_frames_to_addr sp frames payload a track now).
Proof. apply initial_send_frames; [exact closed_view|exact closed_next]. Qed.
Lemma closed_rc_to f : keeps initial_closed (rc_to f).
Proof. apply initial_rc_to, closed_view. Qed.
Lemma closed_push sp f : keeps initial_closed (push sp f).
Proof. apply initial_push, closed_view. Qed.
Hint Resolve closed_send_pending closed_tls_output closed_datagram closed_send_frames closed_rc_to closed_push : keeps.

Lemma closed_send_close now frames : keeps initial_closed (send_connection_close_frames frames now).
Proof. induction frames as [|[sp f] frames IH]; cbn [send_connection_close_frames]; keeps_tac; exact IH. Qed.
Hint Resolve closed_send_close : keeps.
Lemma closed_flush_close now : keeps initial_closed (flush_pending_connection_close now).
Proof. unfold flush_pending_connection_close. keeps_tac. same. Qed.
Hint Resolve closed_flush_close : keeps.
Lemma closed_timers now : keeps initial_closed (handle_internal_timers now).
Proof. unfold handle_internal_timers. keeps_tac; same. Qed.
Lemma closed_send_if_work ids t : keeps initial_closed (send_if_work ids t).
Proof. unfold send_if_work. keeps_tac. Qed.
Hint Resolve closed_timers closed_send_if_work : keeps.
Lemma closed_poll_closing r t : keeps initial_closed (poll_closing r t).
Proof. unfold poll_closing. keeps_tac. destruct (bool_decide _); [same|done]. Qed.
Lemma closed_poll_receive r ids asked t : keeps initial_closed (poll_receive r ids asked t).
Proof. unfold poll_receive, after_receive. keeps_tac; same. Qed.
Hint Resolve closed_poll_closing closed_poll_receive : keeps.

Lemma closed_call x : keeps initial_closed (call x).
Proof.
  destruct x; cbn [call].
  - unfold poll. keeps_tac. same.
  - unfold feed_datagram. keeps_tac. same.
  - unfold flush. keeps_tac.
  - unfold close. keeps_tac; same.
  - apply initial_on_io, closed_view.
Qed.
Lemma closed_run calls : ∀ c, initial_closed c → initial_closed (run calls c).
Proof. induction calls as [|x calls IH]; intros c Hc; [done|]. by apply IH, closed_call. Qed.
End Closed.

(** ** The flush that ends them *)

(** A server whose Initial keys are marked for dropping. *)
Definition initial_ending (c : conn) : Prop := qc_side c = Server ∧ SpaceInitial ∈ qc_deferred c.

(** The Handshake keys mark the Initial keys for dropping. *)
Lemma handshake_keys_end_initial keys t (c : conn) : qc_side c = Server →
  initial_ending (install_keys (ChangeHandshake keys) t c).2.
Proof. intros Hs. split; [done|]. cbn. set_solver. Qed.

Lemma ending_view c c' : initial_view c' = initial_view c → initial_ending c → initial_ending c'.
Proof. unfold initial_ending. by intros [= -> _ _ ->]. Qed.
Lemma ending_defer sp c : initial_ending c → initial_ending (c <| qc_deferred ::= (λ l, l ++ [sp]) |>).
Proof. intros [Hs Hi]. split; [done|]. cbn. set_solver. Qed.
Lemma ending_discards c : initial_ending c →
  initial_closed (qc_next_pn (process_deferred_key_discards c) SpaceInitial) (process_deferred_key_discards c).
Proof.
  intros [Hs Hi]. destruct (discards_initial (qc_deferred c) c) as (E1 & _ & E3). split_and!; [by rewrite <-Hs, <-E1| |done].
  transitivity (k_initial (ks_keys (qc_keys (foldl discard_keys c (qc_deferred c))))); [done|].
  by rewrite E3, bool_decide_eq_true_2.
Qed.

Lemma flush_ends_initial ids t (c c1 : conn) : initial_ending c → closed_or_closing (qc_state c) = false →
  flush ids t c = (Ok tt, c1) → initial_closed (qc_next_pn c1 SpaceInitial) c1.
Proof.
  intros Hc Hst.
  assert (flush ids t c = (process_tls_output t ≫= λ _, send_pending_frames ids (instant t)) c) as ->.
  { unfold flush, mbind at 1, stM_bind at 1, gets. by destruct (qc_state c). }
  unfold mbind, stM_bind. pose proof (initial_tls_output _ ending_view ending_defer t c Hc) as Ht.
  destruct (process_tls_output t c) as [[u|e| |] c2]; try done. cbn [snd] in Ht. intros E.
  pose proof (initial_send_pending initial_ending ending_view (λ n c Hc _, Hc)
    (λ c, initial_closed (qc_next_pn c SpaceInitial) c) ids (instant t) ending_discards c2 Ht) as Hs.
  by rewrite E in Hs.
Qed.

End Server.

(** The server has read the client's first datagram and answers it; the answer
    is lost, and the client sends again. *)
Definition answering : sample_conn :=
  (feed_datagram (client_hello 60 80) client_addr None (clock 2) (sample_server 60 80)).2.
Definition answered : sample_conn := (flush [] (clock 3) answering).2.

Lemma answering_state :
  bool_decide (SpaceInitial ∈ qc_deferred answering) = true ∧ (flush [] (clock 3) answering).1 = Ok tt ∧
  closed_or_closing (qc_state answering) = false.
Proof. vm_compute. done. Qed.

Definition asked_again : list Call :=
  [CallFeed (client_hello 60 80) client_addr None (clock 400); CallPoll TimedOut [] [] (clock 900) (clock 1200)].

