(* ===== verification/Endpoint.v ===== *)
(** * The server endpoint (starfish-quic/src/server.rs)

    [QuicEndpoint] owns the socket and routes the datagrams to its connections
    by their destination identifier; it answers Initial packets of new clients
    with a connection, a Retry or nothing.

    The connections of the hash map are visited in an order that is an argument
    of the operation, and so are the streams of a connection.  What the endpoint
    itself hands to the socket is in [ep_wire]; a connection keeps its own. *)

From S2P Require Import Prelude QuicError Varint Frame Packet TransportParams Crypto KeyUpdate Retry.
From S2P Require Import Streams StreamIo AckTracking ConnIds Recovery ConnRecovery Packing.
From S2P Require Import Connection ConnPaths ConnHandshake ConnReceive ConnSend ConnLifecycle.

(** [quic::ServerConnection::new] of rustls with the encoded transport
    parameters, and the primitives of ring that validate tokens. *)
Class TlsServer (Session : Type) := server_session : bytes → option Session.
Class TokenPrimitives := {
  hmac_sign : bytes → bytes → bytes;
  gcm256_open : bytes → bytes → bytes → bytes → option bytes;
}.

Record QuicServerConfig := {
  cfg_cid_len : Z;
  require_retry : bool;
  retry_secret : bytes;
}.

Definition ConnectionHandle : Type := Z.

(** ** Tokens of Initial packets *)

Inductive InitialTokenDecision :=
  | SendRetry
  | Drop
  | Proceed (original_dcid : ConnectionId) (retry_source_connection_id : option ConnectionId)
      (peer_address_validated : bool).

Definition evaluate_initial_token `{Primitives, TokenPrimitives} (retry : bool) (initial_token : bytes)
    (peer_addr : SocketAddr) (initial_dcid : ConnectionId) (secret : bytes) (wall : option Z)
    : qres InitialTokenDecision :=
  let unvalidated := if retry then SendRetry else Proceed initial_dcid None false in
  match initial_token with
  | [] => Ok unvalidated
  | _ =>
      r ← (if retry then validate_retry_token hkdf hmac_sign wall initial_token peer_addr secret
           else Ok Unknown);
      match r with
      | Valid original_dcid => Ok (Proceed original_dcid (Some initial_dcid) true)
      | Invalid => Ok Drop
      | Unknown =>
          ok ← validate_new_token hkdf gcm256_open wall initial_token peer_addr secret;
          if ok : bool then Ok (Proceed initial_dcid None true) else Ok unvalidated
      end
  end.

Definition version_negotiation_ids (h : PacketHeader) : option (ConnectionId * ConnectionId) :=
  match h with
  | HLong h =>
      if negb (lh_version h =? 0) && negb (lh_version h =? QUIC_VERSION_1)
      then Some (lh_scid h, lh_dcid h) else None
  | _ => None
  end.

(** ** What a connection tells its endpoint *)

Section Conn.
Context {C Session Secrets : Type}.
Abbreviation conn := (QuicConnection C Session Secrets).

Definition is_established (c : conn) : bool := bool_decide (qc_state c = CConnected).

Definition local_cid_bytes (c : conn) : list bytes := (λ e, as_slice (cid e)) <$> local_cids (qc_cids c).

Definition local_cid_reset_tokens (c : conn) : list (bytes * bytes) :=
  omap (λ e, (λ token, (as_slice (cid e), token)) <$> stateless_reset_token e) (local_cids (qc_cids c)).

Record ConnectionUpdate := {
  u_local_cids : list bytes;
  u_reset_tokens : list (bytes * bytes);
  u_established : bool;
  u_closed : bool;
}.

Definition capture (c : conn) : ConnectionUpdate := {|
  u_local_cids := local_cid_bytes c;
  u_reset_tokens := local_cid_reset_tokens c;
  u_established := is_established c;
  u_closed := bool_decide (qc_state c = CClosed) |}.
End Conn.

(** [random] is what the generator gives for the front of the packet. *)
Definition encode_stateless_reset (token : bytes) (triggering_datagram_len : Z) (random : Z → bytes)
    : option bytes :=
  if triggering_datagram_len <=? MIN_STATELESS_RESET_LEN then None
  else
    let target_len := Z.min MAX_DATAGRAM_SIZE
          (Z.max MIN_STATELESS_RESET_LEN (saturating_sub triggering_datagram_len 1)) in
    match random (target_len - 16) with
    | first :: rest => Some (Z.lor (Z.land first 0x7f) 0x40 :: rest ++ token)
    | [] => None
    end.

(** ** The endpoint *)

Section Endpoint.
Context {C Session Secrets : Type}.
Context `{CongestionController C} `{TlsSession Session Secrets} `{Primitives}.
Context `{TlsServer Session} `{TokenPrimitives}.
Abbreviation conn := (QuicConnection C Session Secrets).
Abbreviation connM := (connM C Session Secrets).

Record QuicEndpoint := {
  ep_config : QuicServerConfig;
  ep_connections : gmap Z conn;
  ep_cid_to_handle : gmap bytes Z;
  ep_initial_dcid_to_handle : gmap bytes Z;
  ep_cid_to_reset_token : gmap bytes bytes;
  ep_next_handle : Z;
  ep_established_queue : list Z;
  ep_established_set : gset Z;
  ep_random : nat → Z → bytes;
  ep_grease : Z;
  ep_wire : list (SocketAddr * bytes);
}.

Local Abbreviation epM := (stM QuicEndpoint QuicError).

Definition bind (config : QuicServerConfig) (random : nat → Z → bytes) (grease : Z) : QuicEndpoint := {|
  ep_config := config; ep_connections := ∅; ep_cid_to_handle := ∅; ep_initial_dcid_to_handle := ∅;
  ep_cid_to_reset_token := ∅; ep_next_handle := 0; ep_established_queue := []; ep_established_set := ∅;
  ep_random := random; ep_grease := grease; ep_wire := [] |}.

Definition send_to (a : SocketAddr) (packet : bytes) : epM unit :=
  modify (λ e, e <| ep_wire ::= (λ w, w ++ [(a, packet)]) |>).

Definition draw_bytes (n : Z) : epM bytes := λ e,
  (Ok (ep_random e 0 n), e <| ep_random := λ i, ep_random e (S i) |>).

(** *** The queue of established connections *)

Definition queue_established_handle (h : Z) (e : QuicEndpoint) : QuicEndpoint :=
  if bool_decide (h ∈ ep_established_set e) then e
  else e <| ep_established_set ::= ({[h]} ∪.) |> <| ep_established_queue ::= (λ q, q ++ [h]) |>.

Definition dequeue_established_handle (e : QuicEndpoint) : option Z * QuicEndpoint :=
  match ep_established_queue e with
  | [] => (None, e)
  | h :: q => (Some h, e <| ep_established_queue := q |> <| ep_established_set ::= (.∖ {[h]}) |>)
  end.

Definition unqueue_established_handle (h : Z) (e : QuicEndpoint) : QuicEndpoint :=
  e <| ep_established_set ::= (.∖ {[h]}) |> <| ep_established_queue ::= filter (.≠ h) |>.

(** *** The tables *)

Definition cids_for_handle (m : gmap bytes Z) (h : Z) : gset bytes :=
  dom (filter (λ e, e.2 = h) m).

Definition insert_all {A} (l : list (bytes * A)) (m : gmap bytes A) : gmap bytes A :=
  foldl (λ m e, <[e.1 := e.2]> m) m l.

Definition remove_connection (h : Z) (e : QuicEndpoint) : QuicEndpoint :=
  let previous := cids_for_handle (ep_cid_to_handle e) h in
  unqueue_established_handle h (e
    <| ep_connections ::= delete h |>
    <| ep_cid_to_handle ::= filter (λ x, x.2 ≠ h) |>
    <| ep_initial_dcid_to_handle ::= filter (λ x, x.2 ≠ h) |>
    <| ep_cid_to_reset_token ::= filter (λ x, x.1 ∉ previous) |>).

Definition apply_connection_update (h : Z) (u : ConnectionUpdate) (e : QuicEndpoint) : QuicEndpoint :=
  if u_closed u then remove_connection h e
  else
    let previous := cids_for_handle (ep_cid_to_handle e) h in
    let current : gset bytes := list_to_set (u_local_cids u) in
    let e := e
      <| ep_cid_to_handle ::= (λ m, insert_all ((., h) <$> u_local_cids u)
           (filter (λ x, x.2 ≠ h ∨ x.1 ∈ current) m)) |>
      <| ep_cid_to_reset_token ::= (λ m, insert_all (u_reset_tokens u)
           (filter (λ x, x.1 ∉ previous ∨ x.1 ∈ current) m)) |> in
    if u_established u then queue_established_handle h e else e.

(** *** Working on a connection *)

(** The connection of a handle; [None] when there is none. *)
Definition with_conn {A} (h : Z) (m : connM A) : epM (option A) := λ e,
  match ep_connections e !! h with
  | None => (Ok None, e)
  | Some c =>
      let '(r, c) := m c in
      (match r with Ok a => Ok (Some a) | Err err => Err err | Panic => Panic | Diverge => Diverge end,
       e <| ep_connections ::= <[h := c]> |>)
  end.

(** [match m { Ok(()) => ok, Err(_) => err }]. *)
Definition catch {A} (m : epM A) (ok : A → epM unit) (err : epM unit) : epM unit := λ e,
  match m e with
  | (Ok a, e) => ok a e
  | (Err _, e) => err e
  | (Panic, e) => (Panic, e)
  | (Diverge, e) => (Diverge, e)
  end.

Definition drop_failing_connection (h : Z) : epM unit := modify (remove_connection h).

Definition apply_update (h : Z) (u : option ConnectionUpdate) : epM unit :=
  match u with
  | Some u => modify (apply_connection_update h u)
  | None => mret tt
  end.

(** [ids] gives the streams of a connection in the order its hash map yields them. *)
Definition flush_connection (h : Z) (ids : Z → list StreamId) (t : Clock) : epM unit :=
  catch (with_conn h (_ ← flush (ids h) t; gets capture)) (apply_update h) (drop_failing_connection h).

Definition route_datagram_to_connection (h : Z) (data : bytes) (a : SocketAddr)
    (ecn : option UdpEcnCodepoint) (ids : Z → list StreamId) (t : Clock) : epM unit :=
  catch (with_conn h (_ ← feed_datagram data a ecn t; _ ← flush (ids h) t; gets capture))
    (apply_update h) (drop_failing_connection h).

Definition next_connection_deadline (e : QuicEndpoint) (now : Z) : option Z :=
  earliest ((λ x, next_internal_deadline x.2 now) <$> map_to_list (ep_connections e)).

(** One turn of [handle_connection_timeouts]: whether the connection is closed. *)
Definition time_connection (h : Z) (ids : Z → list StreamId) (t : Clock) : epM bool :=
  st ← with_conn h (_ ← handle_internal_timers (instant t); gets qc_state);
  match st with
  | None => mret false
  | Some CClosed => mret true
  | Some CDraining => mret false
  | Some _ => _ ← flush_connection h ids t; mret false
  end.

Fixpoint time_connections (handles : list Z) (ids : Z → list StreamId) (t : Clock) : epM (list Z) :=
  match handles with
  | [] => mret []
  | h :: rest =>
      closed ← time_connection h ids t;
      others ← time_connections rest ids t;
      mret (if closed : bool then h :: others else others)
  end.

Definition handle_connection_timeouts (handles : list Z) (ids : Z → list StreamId) (t : Clock)
    : epM unit :=
  closed ← time_connections handles ids t;
  modify (λ e, foldl (λ e h, remove_connection h e) e closed).

(** *** New connections *)

Definition send_version_negotiation (a : SocketAddr) (dcid scid : ConnectionId) : epM unit :=
  '(packet, _) ← lift (encode_version_negotiation dcid scid [QUIC_VERSION_1]);
  send_to a packet.

Definition send_retry_for_initial (a : SocketAddr) (client_dcid client_scid : ConnectionId)
    (wall : option Z) : epM unit :=
  cfg ← gets ep_config;
  bytes ← draw_bytes (Z.min (cfg_cid_len cfg) MAX_CID_LEN);
  let retry_cid := generate (λ _, bytes) (cfg_cid_len cfg) in
  token ← lift (encode_retry_token hkdf hmac_sign wall a client_dcid (retry_secret cfg));
  '(retry_pkt, _) ← lift (encode_retry_packet client_scid retry_cid token);
  tag ← lift (compute_retry_integrity_tag gcm128_seal client_dcid retry_pkt);
  send_to a (retry_pkt ++ tag).

(** The transport parameters of a server. *)
Definition server_parameters (local_cid original_dcid : ConnectionId)
    (retry_source_connection_id : option ConnectionId) (token : option bytes) : LocalTransportParameters :=
  let p := local_new DEFAULT_INITIAL_MAX_DATA DEFAULT_INITIAL_MAX_STREAM_DATA
             DEFAULT_INITIAL_MAX_STREAMS_BIDI DEFAULT_INITIAL_MAX_STREAMS_UNI in
  p <| l_max_idle_timeout_ms := DEFAULT_IDLE_TIMEOUT_MS |>
    <| l_stateless_reset_token := token |>
    <| l_max_udp_payload_size := MAX_LOCAL_UDP_PAYLOAD_SIZE |>
    <| l_original_destination_connection_id := Some original_dcid |>
    <| l_initial_source_connection_id := Some local_cid |>
    <| l_retry_source_connection_id := retry_source_connection_id |>.

Definition encode_parameters (p : LocalTransportParameters) : epM bytes := λ e,
  let '(r, grease) := encode_transport_parameters p (ep_grease e) in (r, e <| ep_grease := grease |>).

(** The random bytes of a connection are every other draw from there on. *)
Definition split_random : epM (nat → Z → bytes) := λ e,
  (Ok (λ i, ep_random e (2 * i)%nat), e <| ep_random := λ i, ep_random e (2 * i + 1)%nat |>).

(** The connection for an Initial packet, not yet registered. *)
Definition new_connection (a : SocketAddr) (initial_dcid scid original_dcid : ConnectionId)
    (retry_source_connection_id : option ConnectionId) (validated : bool) (now : Z)
    : epM (ConnectionId * conn) :=
  cfg ← gets ep_config;
  bytes ← draw_bytes (Z.min (cfg_cid_len cfg) MAX_CID_LEN);
  let local_cid := generate (λ _, bytes) (cfg_cid_len cfg) in
  token ← (if cfg_cid_len cfg =? 0 then mret None else b ← draw_bytes 16; mret (Some b));
  params ← encode_parameters (server_parameters local_cid original_dcid retry_source_connection_id token);
  tls ← lift (ok_or Tls (server_session params));
  random ← split_random;
  c ← lift (new_server a local_cid scid tls (as_slice initial_dcid) original_dcid
              retry_source_connection_id (Some (retry_secret cfg)) validated random now);
  c ← lift (match token with
            | Some token => m ← set_primary_local_stateless_reset_token (qc_cids c) token;
                            Ok (c <| qc_cids := m |>)
            | None => Ok c
            end);
  mret (local_cid, c).

Definition register_connection (h : Z) (local_cid initial_dcid : ConnectionId) (c : conn)
    (e : QuicEndpoint) : QuicEndpoint :=
  let e := e
    <| ep_cid_to_handle ::= (λ m, insert_all ((., h) <$> local_cid_bytes c) (<[as_slice local_cid := h]> m)) |>
    <| ep_cid_to_reset_token ::= insert_all (local_cid_reset_tokens c) |>
    <| ep_initial_dcid_to_handle ::= <[as_slice initial_dcid := h]> |> in
  let e := if is_established c then queue_established_handle h e else e in
  e <| ep_connections ::= <[h := c]> |>.

(** The token of an Initial packet, empty when its fields do not parse. *)
Definition initial_token_of (data : bytes) (h : LongHeader) : qres bytes :=
  match parse_initial_fields data (lh_header_len h) (lh_first_byte h) with
  | Ok f => Ok (ip_token f)
  | Err _ => Ok []
  | Panic => Panic
  | Diverge => Diverge
  end.

(** An Initial packet that belongs to no connection. *)
Definition accept_initial (data : bytes) (h : LongHeader) (a : SocketAddr)
    (ecn : option UdpEcnCodepoint) (ids : Z → list StreamId) (t : Clock) : epM unit :=
  initial_token ← lift (initial_token_of data h);
  cfg ← gets ep_config;
  let initial_dcid := lh_dcid h in
  decision ← lift (evaluate_initial_token (require_retry cfg) initial_token a initial_dcid
                     (retry_secret cfg) (wall t));
  match decision with
  | SendRetry => send_retry_for_initial a initial_dcid (lh_scid h) (wall t)
  | Drop => mret tt
  | Proceed original_dcid retry_source_connection_id validated =>
      '(local_cid, c) ← new_connection a initial_dcid (lh_scid h) original_dcid
                          retry_source_connection_id validated (instant t);
      handle ← gets ep_next_handle;
      match (_ ← feed_datagram data a ecn t; flush (ids handle) t) c with
      | (Ok _, c) =>
          next ← lift (add_u64 handle 1);
          _ ← modify (λ e, e <| ep_next_handle := next |>);
          modify (register_connection handle local_cid initial_dcid c)
      | (Err _, _) => mret tt
      | (Panic, _) => lift Panic
      | (Diverge, _) => lift Diverge
      end
  end.

(** The destination identifier of a packet. *)
Definition header_dcid (h : PacketHeader) : option bytes :=
  match h with
  | HLong h => Some (as_slice (lh_dcid h))
  | HShort h => Some (as_slice (sh_dcid h))
  | HVersionNegotiation _ _ _ => None
  end.

(** [drive_once] from the datagram on. *)
Definition receive_datagram (data : bytes) (a : SocketAddr) (ecn : option UdpEcnCodepoint)
    (ids : Z → list StreamId) (t : Clock) : epM unit :=
  cfg ← gets ep_config;
  match parse_header data (cfg_cid_len cfg) with
  | Err _ => mret tt
  | Panic => lift Panic
  | Diverge => lift Diverge
  | Ok parsed =>
      match version_negotiation_ids parsed with
      | Some (dcid, scid) => send_version_negotiation a dcid scid
      | None =>
          match header_dcid parsed with
          | None => mret tt
          | Some dcid =>
              e ← gets (λ e, e);
              match ep_cid_to_handle e !! dcid, ep_initial_dcid_to_handle e !! dcid,
                    ep_cid_to_reset_token e !! dcid with
              | Some handle, _, _ | None, Some handle, _ =>
                  route_datagram_to_connection handle data a ecn ids t
              | None, None, Some token =>
                  random ← gets ep_random;
                  match encode_stateless_reset token (len data) (random 0%nat) with
                  | Some packet =>
                      _ ← draw_bytes (len packet - 16);
                      send_to a packet
                  | None => mret tt
                  end
              | None, None, None =>
                  match parsed with
                  | HLong h =>
                      if bool_decide (lh_packet_type h = Initial) then accept_initial data h a ecn ids t
                      else mret tt
                  | _ => mret tt
                  end
              end
          end
      end
  end.

(** What a call of [drive_once] meets: the keys of the connections in the order
    of the two passes over the timers, the second of which runs when the socket
    times out, and the times of the two halves. *)
Record Turn := {
  tn_handles : list Z;
  tn_handles' : list Z;
  tn_received : Received;
  tn_ids : Z → list StreamId;
  tn_clock : Clock;
  tn_clock' : Clock;
}.

Definition drive_once (x : Turn) : epM unit :=
  _ ← handle_connection_timeouts (tn_handles x) (tn_ids x) (tn_clock x);
  match tn_received x with
  | Datagram data a ecn => receive_datagram data a ecn (tn_ids x) (tn_clock' x)
  | TimedOut => handle_connection_timeouts (tn_handles' x) (tn_ids x) (tn_clock' x)
  | WouldBlock | Failed => fail Io
  end.

(** [None]: still waiting after these turns. *)
Fixpoint accept (turns : list Turn) : epM (option Z) := λ e,
  let '(h, e) := dequeue_established_handle e in
  match h, turns with
  | Some h, _ => (Ok (Some h), e)
  | None, [] => (Ok None, e)
  | None, x :: turns => (_ ← drive_once x; accept turns) e
  end.

Definition flush_all (handles : list Z) (ids : Z → list StreamId) (t : Clock) : epM unit :=
  foldr (λ h m, _ ← flush_connection h ids t; m) (mret tt) handles.

Definition close_connection (h : Z) (error_code : Z) (reason : bytes) (now : Z) : epM unit := λ e,
  match ep_connections e !! h with
  | None => (Ok tt, e)
  | Some c =>
      let '(r, c) := close error_code reason now c in
      let e := e <| ep_connections ::= <[h := c]> |> in
      match r with
      | Ok _ => (Ok tt, unqueue_established_handle h e)
      | Err err => (Err err, remove_connection h e)
      | r => (r, e)
      end
  end.

(** [get_conn_mut] and an operation on the streams of the connection. *)
Definition on_conn_streams {A} (h : Z) (m : ioM A) : epM A := λ e,
  match ep_connections e !! h with
  | None => (Err (Transport InternalError (msg "unknown connection handle {handle}")), e)
  | Some c =>
      let '(r, s) := m (rc_io (qc_rc c)) in
      (r, e <| ep_connections ::= <[h := c <| qc_rc := with_io s (qc_rc c) |>]> |>)
  end.
End Endpoint.

Arguments QuicEndpoint : clear implicits.
