(* ===== verification/EndpointProps.v ===== *)
(** * Properties of the server endpoint

    The tables of an endpoint agree in every state it can reach, whatever
    datagrams arrive and in whatever order its connections are visited. *)

From S2P Require Import Prelude QuicError Varint Frame Packet TransportParams Crypto KeyUpdate Retry.
From S2P Require Import Streams StreamIo AckTracking ConnIds Recovery ConnRecovery Packing.
From S2P Require Import Connection ConnPaths ConnHandshake ConnReceive ConnSend ConnLifecycle.
From S2P Require Import ConnFrame Endpoint PacketProps.

(** ** Tables *)

Lemma insert_pairs_lookup {A} (l : list (bytes * A)) : ∀ m k,
  (∃ x, (k, x) ∈ l ∧ insert_all l m !! k = Some x) ∨ (k ∉ l.*1 ∧ insert_all l m !! k = m !! k).
Proof.
  induction l as [|[k' x] l IH] using rev_ind; intros m k; [by right; split; [apply not_elem_of_nil|]|].
  unfold insert_all. rewrite foldl_snoc. cbn. destruct (decide (k' = k)) as [->|Hn].
  - left. exists x. rewrite lookup_insert_eq. split; [|done]. apply elem_of_app. right. by apply list_elem_of_singleton.
  - rewrite lookup_insert_ne by done. destruct (IH m k) as [(y & Hy & E)|[Hk E]].
    + left. exists y. split; [|done]. apply elem_of_app. by left.
    + right. split; [|done]. rewrite fmap_app, elem_of_app. cbn. rewrite list_elem_of_singleton. naive_solver.
Qed.

Section Endpoint.
Context {C Session Secrets : Type}.
Context `{CongestionController C} `{TlsSession Session Secrets} `{Primitives}.
Context `{TlsServer Session} `{TokenPrimitives}.
Abbreviation conn := (QuicConnection C Session Secrets).
Abbreviation connM := (connM C Session Secrets).
Abbreviation endpoint := (QuicEndpoint C Session Secrets).

Record consistent (e : endpoint) : Prop := {
  ct_cids : ∀ cid h, ep_cid_to_handle e !! cid = Some h → is_Some (ep_connections e !! h);
  ct_initial : ∀ cid h, ep_initial_dcid_to_handle e !! cid = Some h → is_Some (ep_connections e !! h);
  ct_tokens : ∀ cid, is_Some (ep_cid_to_reset_token e !! cid) → is_Some (ep_cid_to_handle e !! cid);
  ct_queue : ∀ h, h ∈ ep_established_queue e ↔ h ∈ ep_established_set e;
  ct_once : NoDup (ep_established_queue e);
  ct_alive : ∀ h, h ∈ ep_established_queue e → is_Some (ep_connections e !! h);
  ct_fresh : ∀ h, is_Some (ep_connections e !! h) → h < ep_next_handle e;
}.

(** The tables, and which handles have a connection. *)
Definition tables (e : endpoint) :=
  (ep_cid_to_handle e, ep_initial_dcid_to_handle e, ep_cid_to_reset_token e,
   ep_established_queue e, ep_established_set e, ep_next_handle e).

Lemma consistent_tables e e' : tables e' = tables e →
  (∀ h, is_Some (ep_connections e' !! h) ↔ is_Some (ep_connections e !! h)) → consistent e → consistent e'.
Proof.
  intros [= E1 E2 E3 E4 E5 E6] Hd [H1' H2' H3' H4' H5' H6' H7']. split; rewrite ?E1, ?E2, ?E3, ?E4, ?E5, ?E6; auto.
  - intros cid h Hc. apply Hd. eauto.
  - intros cid h Hc. apply Hd. eauto.
  - intros h Hh. apply Hd. eauto.
  - intros h Hh%Hd. eauto.
Qed.

Lemma consistent_same e e' : tables e' = tables e → ep_connections e' = ep_connections e →
  consistent e → consistent e'.
Proof. intros E1 E2. apply consistent_tables; [done|]. intros h. by rewrite E2. Qed.

Lemma consistent_bind cfg random grease : consistent (bind cfg random grease).
Proof.
  split; unfold bind; cbn.
  - intros cid h. by rewrite lookup_empty.
  - intros cid h. by rewrite lookup_empty.
  - intros cid. rewrite lookup_empty. by intros [].
  - intros h. by rewrite elem_of_empty, elem_of_nil.
  - constructor.
  - by intros h Hh%elem_of_nil.
  - intros h. rewrite lookup_empty. by intros [].
Qed.

(** *** The queue *)

Lemma consistent_queue h e : is_Some (ep_connections e !! h) → consistent e →
  consistent (queue_established_handle h e).
Proof.
  intros Hh [H1' H2' H3' H4' H5' H6' H7']. unfold queue_established_handle. case_bool_decide as Hin; [done|].
  split; cbn; try done.
  - intros x. rewrite elem_of_app, list_elem_of_singleton, elem_of_union, elem_of_singleton, H4'. naive_solver.
  - apply NoDup_app. split; [done|]. split; [|apply NoDup_singleton].
    intros x Hx ->%list_elem_of_singleton. by apply Hin, H4'.
  - intros x. rewrite elem_of_app, list_elem_of_singleton. naive_solver.
Qed.

Lemma consistent_dequeue e : consistent e → consistent (dequeue_established_handle e).2.
Proof.
  intros He. unfold dequeue_established_handle.
  destruct (ep_established_queue e) as [|h q] eqn:Eq; [done|].
  destruct He as [H1' H2' H3' H4' H5' H6' H7']. rewrite Eq in *.
  apply NoDup_cons in H5' as [Hn Hnd]. split; cbn; try done.
  - intros x. rewrite elem_of_difference, elem_of_singleton, <- H4', elem_of_cons. naive_solver.
  - intros x Hx. apply H6'. by right.
Qed.

Lemma consistent_unqueue h e : consistent e → consistent (unqueue_established_handle h e).
Proof.
  intros [H1' H2' H3' H4' H5' H6' H7']. split; cbn; try done.
  - intros x. rewrite list_elem_of_filter, elem_of_difference, elem_of_singleton, H4'. naive_solver.
  - by apply NoDup_filter.
  - intros x [_ Hx]%list_elem_of_filter. by apply H6'.
Qed.
(** *** Connections come and go *)

Lemma elem_cids_for_handle m h cid : cid ∈ cids_for_handle m h ↔ m !! cid = Some h.
Proof.
  unfold cids_for_handle. rewrite elem_of_dom. split.
  - intros [x [Hx <-]%map_lookup_filter_Some]. done.
  - intros Hc. exists h. by apply map_lookup_filter_Some.
Qed.

Lemma consistent_remove h e : consistent e → consistent (remove_connection h e).
Proof.
  intros [H1' H2' H3' H4' H5' H6' H7']. unfold remove_connection. split; cbn.
  - intros cid x [Hx Hne]%map_lookup_filter_Some. rewrite lookup_delete_ne by (cbn in Hne; congruence). eauto.
  - intros cid x [Hx Hne]%map_lookup_filter_Some. rewrite lookup_delete_ne by (cbn in Hne; congruence). eauto.
  - intros cid [x [Hx Hn]%map_lookup_filter_Some]. destruct (H3' cid) as [h' Hh']; [eauto|]. exists h'.
    apply map_lookup_filter_Some. split; [done|]. cbn in *. intros ->. apply Hn. by apply elem_cids_for_handle.
  - intros x. rewrite list_elem_of_filter, elem_of_difference, elem_of_singleton, H4'. naive_solver.
  - by apply NoDup_filter.
  - intros x [Hne Hx]%list_elem_of_filter. rewrite lookup_delete_ne by congruence. by apply H6'.
  - intros x. rewrite lookup_delete_is_Some. intros [_ Hx]. by apply H7'.
Qed.

(** The tokens a connection has are those of its identifiers. *)
Lemma reset_tokens_cids (c : conn) cid token :
  (cid, token) ∈ local_cid_reset_tokens c → cid ∈ local_cid_bytes c.
Proof.
  unfold local_cid_reset_tokens, local_cid_bytes. rewrite list_elem_of_omap. intros (e & He & Et).
  apply list_elem_of_fmap. exists e. split; [|done].
  destruct (stateless_reset_token e); [|done]. by injection Et.
Qed.

(** Registering the identifiers of a connection. *)
Lemma consistent_register h (c : conn) cids tokens e e' : consistent e →
  is_Some (ep_connections e' !! h) →
  ep_cid_to_handle e' = insert_all ((., h) <$> local_cid_bytes c) cids →
  ep_cid_to_reset_token e' = insert_all (local_cid_reset_tokens c) tokens →
  (∀ cid h', cids !! cid = Some h' → is_Some (ep_connections e' !! h')) →
  (∀ cid, is_Some (tokens !! cid) → is_Some (cids !! cid) ∨ cid ∈ local_cid_bytes c) →
  (∀ cid h', ep_initial_dcid_to_handle e' !! cid = Some h' → is_Some (ep_connections e' !! h')) →
  (∀ h', is_Some (ep_connections e !! h') → is_Some (ep_connections e' !! h')) →
  (∀ h', is_Some (ep_connections e' !! h') → h' < ep_next_handle e') →
  ep_established_queue e' = ep_established_queue e → ep_established_set e' = ep_established_set e →
  consistent e'.
Proof.
  intros [H1' H2' H3' H4' H5' H6' H7'] Hh Ec Et Hc Ht Hi Hmono Hlt Eq Es.
  assert (∀ cid, cid ∈ local_cid_bytes c → is_Some (ep_cid_to_handle e' !! cid)) as Hreg.
  { intros cid Hin. rewrite Ec. destruct (insert_pairs_lookup ((., h) <$> local_cid_bytes c) cids cid)
      as [(x & _ & E)|[Hn _]]; [rewrite E; eauto|].
    destruct Hn. rewrite <- list_fmap_compose. apply list_elem_of_fmap. by exists cid. }
  split; rewrite ?Eq, ?Es; try done; [| |by eauto].
  - intros cid x. rewrite Ec. destruct (insert_pairs_lookup ((., h) <$> local_cid_bytes c) cids cid)
      as [(y & Hy & E)|[_ E]]; rewrite E; [|apply Hc].
    intros [= <-]. by apply list_elem_of_fmap in Hy as (? & [= _ ->] & _).
  - intros cid. rewrite Et. destruct (insert_pairs_lookup (local_cid_reset_tokens c) tokens cid)
      as [(y & Hy & E)|[_ E]]; rewrite E.
    + intros _. eapply Hreg, reset_tokens_cids, Hy.
    + intros [Hs|Hin]%Ht; [|by apply Hreg]. rewrite Ec.
      destruct (insert_pairs_lookup ((., h) <$> local_cid_bytes c) cids cid) as [(z & _ & E')|[_ E']]; rewrite E'; eauto.
Qed.
Lemma consistent_update h (c : conn) e : is_Some (ep_connections e !! h) → consistent e →
  consistent (apply_connection_update h (capture c) e).
Proof.
  intros Hh He. unfold apply_connection_update. cbn [capture u_closed u_local_cids u_reset_tokens u_established].
  destruct (bool_decide (qc_state c = CClosed)); [by apply consistent_remove|].
  match goal with |- consistent (if _ then queue_established_handle h ?e' else _) => set (e1 := e') end.
  assert (consistent e1) as H1e.
  { eapply (consistent_register h c _ _ e e1); [done|done|reflexivity|reflexivity| | |apply He|done|apply He|done|done].
    - intros cid h' [Hc _]%map_lookup_filter_Some. exact (ct_cids e He cid h' Hc).
    - intros cid [x [Hx Hor]%map_lookup_filter_Some]. cbn [fst] in Hor.
      destruct (ct_tokens e He cid) as [h' Hh']; [eauto|].
      destruct (decide (cid ∈ local_cid_bytes c)) as [Hin|Hn]; [by right|left]. exists h'.
      apply map_lookup_filter_Some. split; [done|]. cbn. destruct Hor as [Hnp|Hc].
      + left. intros ->. apply Hnp. by apply elem_cids_for_handle.
      + by apply elem_of_list_to_set in Hc. }
  destruct (is_established c); [|done]. by apply consistent_queue.
Qed.

(** *** Operations *)

(** A connection that is worked on stays in its place. *)
Lemma with_conn_spec {A} h (m : connM A) e : consistent e →
  let '(r, e') := with_conn h m e in consistent e' ∧
  (∀ a, r = Ok (Some a) → is_Some (ep_connections e' !! h)).
Proof.
  intros He. unfold with_conn. destruct (ep_connections e !! h) as [c|] eqn:Ec; [|by split].
  destruct (m c) as [r c']. split.
  - apply (consistent_tables e); [done| |done]. intros h'. cbn. destruct (decide (h' = h)) as [->|Hn].
    + rewrite lookup_insert_eq, Ec. split; eauto.
    + by rewrite lookup_insert_ne.
  - intros a _. cbn. rewrite lookup_insert_eq. eauto.
Qed.

Lemma keeps_with_conn {A} h (m : connM A) : keeps consistent (with_conn h m).
Proof. intros e He. pose proof (with_conn_spec h m e He) as Hw. destruct (with_conn h m e). apply Hw. Qed.

Lemma keeps_drop h : keeps consistent (drop_failing_connection h).
Proof. apply keeps_modify. intros e. apply consistent_remove. Qed.

(** [m] ends by capturing a connection. *)
Definition captures (m : connM ConnectionUpdate) : Prop :=
  ∀ c u c', m c = (Ok u, c') → ∃ c0 : conn, u = capture c0.

Lemma captures_bind {A} (m : connM A) f : (∀ a, captures (f a)) → captures (m ≫= f).
Proof.
  intros Hf c u c'. unfold mbind, stM_bind. destruct (m c) as [[a|err| |] c1]; try done. apply Hf.
Qed.
Lemma captures_end : captures (gets capture).
Proof. intros c u c' [= <- <-]. by exists c. Qed.

Lemma keeps_captured h m : captures m →
  keeps consistent (catch (with_conn h m) (apply_update h) (drop_failing_connection h)).
Proof.
  intros Hm e He. unfold catch. pose proof (with_conn_spec h m e He) as Hw.
  unfold with_conn in *. destruct (ep_connections e !! h) as [c|]; [|done].
  specialize (Hm c). destruct (m c) as [[u|err| |] c']; destruct Hw as [Hc Hh]; try done.
  - destruct (Hm u c' eq_refl) as [c0 ->]. by apply consistent_update; [eapply Hh|].
  - by apply consistent_remove.
Qed.

Lemma keeps_flush_connection h ids t : keeps consistent (flush_connection h ids t).
Proof. apply keeps_captured, captures_bind. intros _. apply captures_end. Qed.

Lemma keeps_route h data a ecn ids t : keeps consistent (route_datagram_to_connection h data a ecn ids t).
Proof. apply keeps_captured. do 2 (apply captures_bind; intros _). apply captures_end. Qed.

Lemma keeps_time_connections ids t handles : keeps consistent (time_connections handles ids t).
Proof.
  induction handles as [|h handles IH]; [apply keeps_ret|]. cbn [time_connections].
  apply keeps_bind; [|intros closed].
  - unfold time_connection. apply keeps_bind; [apply keeps_with_conn|intros [[]|]]; try apply keeps_ret;
      (apply keeps_bind; [apply keeps_flush_connection|intros []; apply keeps_ret]).
  - apply keeps_bind; [exact IH|intros others]. apply keeps_ret.
Qed.

Lemma keeps_timeouts handles ids t : keeps consistent (handle_connection_timeouts handles ids t).
Proof.
  unfold handle_connection_timeouts. apply keeps_bind; [apply keeps_time_connections|intros closed].
  apply keeps_modify. induction closed as [|h closed IH]; intros e He; [done|]. by apply IH, consistent_remove.
Qed.

(** *** New connections *)

Lemma keeps_draw_bytes n : keeps consistent (draw_bytes n).
Proof. intros e. by apply consistent_same. Qed.
Lemma keeps_send_to a packet : keeps consistent (send_to a packet).
Proof. intros e. by apply consistent_same. Qed.
Lemma keeps_encode_parameters p : keeps consistent (encode_parameters p).
Proof. intros e He. unfold encode_parameters. destruct (encode_transport_parameters _ _). by apply (consistent_same e). Qed.
Lemma keeps_split_random : keeps consistent split_random.
Proof. intros e. by apply consistent_same. Qed.
Hint Resolve keeps_draw_bytes keeps_send_to keeps_encode_parameters keeps_split_random : keeps.

Lemma keeps_send_version_negotiation a d s : keeps consistent (send_version_negotiation a d s).
Proof. unfold send_version_negotiation. keeps_tac. Qed.
Lemma keeps_send_retry a d s w : keeps consistent (send_retry_for_initial a d s w).
Proof. unfold send_retry_for_initial. keeps_tac. Qed.
Lemma keeps_new_connection a d s o r v now : keeps consistent (new_connection a d s o r v now).
Proof. unfold new_connection. keeps_tac. Qed.

Lemma consistent_next n e : consistent e → ep_next_handle e ≤ n → consistent (e <| ep_next_handle := n |>).
Proof.
  intros [H1' H2' H3' H4' H5' H6' H7'] Hn. split; try done.
  intros h Hh%H7'. change (h < n). lia.
Qed.

Lemma consistent_registered h lcid idcid (c : conn) e : consistent e → ep_connections e !! h = None →
  h < ep_next_handle e → consistent (register_connection h lcid idcid c e).
Proof.
  intros He Hh Hlt. unfold register_connection.
  match goal with |- consistent ((if _ then queue_established_handle h ?x else _) <| ep_connections ::= _ |>) =>
    set (e1 := x); set (e2 := e1 <| ep_connections ::= <[h := c]> |>) end.
  assert (is_Some (ep_connections e2 !! h)) as Hs2.
  { exists c. apply lookup_insert_eq. }
  assert (∀ h', is_Some (ep_connections e !! h') → is_Some (ep_connections e2 !! h')) as Hmono.
  { intros h' Hs. destruct (decide (h' = h)) as [->|Hn]; [done|].
    change (is_Some (<[h := c]> (ep_connections e) !! h')). by rewrite lookup_insert_ne. }
  assert (consistent e2) as H2e.
  { eapply (consistent_register h c _ _ e e2); [done|done|reflexivity|reflexivity| | | |done| |done|done].
    - intros cid h' [[_ <-]|[_ Hc]]%lookup_insert_Some; [done|]. apply Hmono. by eapply ct_cids.
    - intros cid Hs. left. destruct (decide (as_slice lcid = cid)) as [->|Hn];
        [rewrite lookup_insert_eq; eauto|rewrite lookup_insert_ne by done; by apply ct_tokens].
    - intros cid h'. change (<[as_slice idcid := h]> (ep_initial_dcid_to_handle e) !! cid = Some h' →
        is_Some (ep_connections e2 !! h')).
      intros [[_ <-]|[_ Hc]]%lookup_insert_Some; [done|]. apply Hmono. by eapply ct_initial.
    - intros h'. change (is_Some (<[h := c]> (ep_connections e) !! h') → h' < ep_next_handle e).
      destruct (decide (h' = h)) as [->|Hn]; [done|]. rewrite lookup_insert_ne by done. by apply ct_fresh. }
  destruct (is_established c); [|done]. pose proof (consistent_queue h e2 Hs2 H2e) as Hq. revert Hq.
  unfold queue_established_handle. change (ep_established_set e2) with (ep_established_set e1).
  by destruct (bool_decide _).
Qed.

Lemma keeps_accept_initial data h a ecn ids t : keeps consistent (accept_initial data h a ecn ids t).
Proof.
  unfold accept_initial. apply keeps_bind; [apply keeps_lift|intros token].
  apply keeps_bind; [apply keeps_gets|intros cfg]. apply keeps_bind; [apply keeps_lift|intros []].
  - apply keeps_send_retry.
  - apply keeps_ret.
  - apply keeps_bind; [apply keeps_new_connection|intros [lcid c]]. apply keeps_gets_bind. intros e He.
    match goal with |- context [match ?m c with (_, _) => _ end] => destruct (m c) as [[u|err| |] c'] end; try done.
    unfold mbind at 1, stM_bind at 1, lift. unfold add_u64. dif; [|done].
    apply consistent_registered.
    + by apply consistent_next; [|lia].
    + destruct (ep_connections e !! ep_next_handle e) eqn:E; [|done].
      assert (ep_next_handle e < ep_next_handle e) by (apply (ct_fresh e He); eauto). lia.
    + change (ep_next_handle e < ep_next_handle e + 1). lia.
Qed.

Lemma keeps_receive_datagram data a ecn ids t : keeps consistent (receive_datagram data a ecn ids t).
Proof.
  unfold receive_datagram. apply keeps_bind; [apply keeps_gets|intros cfg].
  destruct (parse_header _ _) as [parsed|err| |]; try (apply keeps_ret || apply keeps_lift).
  destruct (version_negotiation_ids parsed) as [[d s]|]; [apply keeps_send_version_negotiation|].
  destruct (header_dcid parsed) as [dcid|]; [|apply keeps_ret].
  apply keeps_bind; [apply keeps_gets|intros e].
  destruct (ep_cid_to_handle e !! dcid); [apply keeps_route|].
  destruct (ep_initial_dcid_to_handle e !! dcid); [apply keeps_route|].
  destruct (ep_cid_to_reset_token e !! dcid).
  - keeps_tac.
  - destruct parsed as [h|h|]; try apply keeps_ret. destruct (bool_decide _); [apply keeps_accept_initial|apply keeps_ret].
Qed.

Lemma keeps_drive x : keeps consistent (drive_once x).
Proof.
  unfold drive_once. apply keeps_bind; [apply keeps_timeouts|intros []].
  destruct (tn_received x); [apply keeps_receive_datagram|apply keeps_fail|apply keeps_timeouts|apply keeps_fail].
Qed.

Lemma keeps_close_connection h code reason now : keeps consistent (close_connection h code reason now).
Proof.
  intros e He. unfold close_connection. destruct (ep_connections e !! h) as [c|] eqn:Ec; [|done].
  destruct (close code reason now c) as [r c'].
  pose proof (with_conn_spec h (λ _, (Ok tt, c')) e He) as Hw. unfold with_conn in Hw. rewrite Ec in Hw.
  destruct Hw as [Hw _]. destruct r; cbn [snd]; [by apply consistent_unqueue|by apply consistent_remove|done..].
Qed.

Lemma keeps_flush_all handles ids t : keeps consistent (flush_all handles ids t).
Proof.
  induction handles as [|h handles IH]; [apply keeps_ret|].
  apply keeps_bind; [apply keeps_flush_connection|intros []]. exact IH.
Qed.

Lemma keeps_on_conn_streams {A} h (m : ioM A) : keeps consistent (on_conn_streams h m).
Proof.
  intros e He. unfold on_conn_streams. destruct (ep_connections e !! h) as [c|] eqn:Ec; [|done].
  destruct (m _) as [r s]. cbn [snd].
  pose proof (with_conn_spec h (λ _, (Ok tt, c <| qc_rc := with_io s (qc_rc c) |>)) e He) as Hw.
  unfold with_conn in Hw. rewrite Ec in Hw. apply Hw.
Qed.

Lemma keeps_accept turns : keeps consistent (accept turns).
Proof.
  induction turns as [|x turns IH]; intros e He; cbn [accept]; pose proof (consistent_dequeue e He) as Hd;
    destruct (dequeue_established_handle e) as [[h|] e1]; try done.
  by apply (keeps_bind consistent (drive_once x) (λ _, accept turns) (keeps_drive x) (λ _, IH)).
Qed.

(** ** Whole runs *)

(** A call on an endpoint. *)
Inductive EndpointCall :=
  | EpDrive (x : Turn)
  | EpAccept (turns : list Turn)
  | EpFlushAll (handles : list Z) (ids : Z → list StreamId) (t : Clock)
  | EpClose (h error_code : Z) (reason : bytes) (now : Z)
  | EpStreams (h : Z) (m : ioM unit).

Definition endpoint_call (x : EndpointCall) (e : endpoint) : endpoint :=
  match x with
  | EpDrive x => (drive_once x e).2
  | EpAccept turns => (accept turns e).2
  | EpFlushAll handles ids t => (flush_all handles ids t e).2
  | EpClose h error_code reason now => (close_connection h error_code reason now e).2
  | EpStreams h m => (on_conn_streams h m e).2
  end.

Definition endpoint_run (calls : list EndpointCall) (e : endpoint) : endpoint :=
  foldl (λ e x, endpoint_call x e) e calls.

Lemma consistent_run calls : ∀ e, consistent e → consistent (endpoint_run calls e).
Proof.
  induction calls as [|x calls IH]; intros e He; [done|]. apply IH. destruct x; cbn [endpoint_call].
  - by apply keeps_drive.
  - by apply keeps_accept.
  - by apply keeps_flush_all.
  - by apply keeps_close_connection.
  - by apply keeps_on_conn_streams.
Qed.

(** *** Stateless resets *)

(** Every datagram the endpoint itself sent has a long header. *)
Definition long_headers (e : endpoint) : Prop :=
  Forall (λ x, match x.2 with first :: _ => is_long_header first | [] => false end = true) (ep_wire e).

Lemma keeps_catch {A} (P : endpoint → Prop) (m : stM endpoint QuicError A) ok err :
  keeps P m → (∀ a, keeps P (ok a)) → keeps P err → keeps P (catch m ok err).
Proof.
  intros Hm Ho He e Hp. specialize (Hm e Hp). unfold catch.
  destruct (m e) as [[a|er| |] e']; [by apply Ho|by apply He|done..].
Qed.

Lemma wire_remove h (e : endpoint) : ep_wire (remove_connection h e) = ep_wire e.
Proof. done. Qed.
Lemma wire_update h u (e : endpoint) : ep_wire (apply_connection_update h u e) = ep_wire e.
Proof.
  unfold apply_connection_update. destruct (u_closed u); [done|]. destruct (u_established u); [|done].
  unfold queue_established_handle. by destruct (bool_decide _).
Qed.
Lemma wire_register h l i c (e : endpoint) : ep_wire (register_connection h l i c e) = ep_wire e.
Proof.
  unfold register_connection. destruct (is_established c); [|done].
  unfold queue_established_handle. by destruct (bool_decide _).
Qed.

Lemma long_same e e' : ep_wire e' = ep_wire e → long_headers e → long_headers e'.
Proof. unfold long_headers. by intros ->. Qed.

Lemma long_with_conn {A} h (m : connM A) : keeps long_headers (with_conn h m).
Proof. intros e He. unfold with_conn. destruct (_ !! h); [|done]. by destruct (m _). Qed.

Lemma long_flush_connection h ids t : keeps long_headers (flush_connection h ids t).
Proof.
  apply keeps_catch; [apply long_with_conn|intros [u|]|].
  - apply keeps_modify. intros e. apply long_same, wire_update.
  - apply keeps_ret.
  - apply keeps_modify. intros e. by apply long_same.
Qed.

Lemma long_route h data a ecn ids t : keeps long_headers (route_datagram_to_connection h data a ecn ids t).
Proof.
  apply keeps_catch; [apply long_with_conn|intros [u|]|].
  - apply keeps_modify. intros e. apply long_same, wire_update.
  - apply keeps_ret.
  - apply keeps_modify. intros e. by apply long_same.
Qed.

Lemma long_timeouts handles ids t : keeps long_headers (handle_connection_timeouts handles ids t).
Proof.
  unfold handle_connection_timeouts. apply keeps_bind; [|intros closed].
  - induction handles as [|h handles IH]; [apply keeps_ret|]. cbn [time_connections].
    apply keeps_bind; [|intros closed; apply keeps_bind; [exact IH|intros others; apply keeps_ret]].
    unfold time_connection. apply keeps_bind; [apply long_with_conn|intros [[]|]]; try apply keeps_ret;
      (apply keeps_bind; [apply long_flush_connection|intros []; apply keeps_ret]).
  - apply keeps_modify. induction closed as [|h closed IH]; intros e He; [done|]. by apply IH, (long_same e).
Qed.

Lemma long_send a first rest (e : endpoint) : is_long_header first = true → long_headers e →
  long_headers (send_to a (first :: rest) e).2.
Proof. intros Hf He. apply Forall_app. split; [done|]. by apply Forall_singleton. Qed.

Lemma long_send_version_negotiation a d s : keeps long_headers (send_version_negotiation a d s).
Proof.
  intros e He. unfold send_version_negotiation, mbind, stM_bind, lift.
  destruct (encode_version_negotiation _ _ _) as [[packet u]| | |] eqn:E; try done.
  revert E. unfold encode_version_negotiation, build, exec. autorewrite with enc.
  cbn -[as_slice as_u8 to_be]. rewrite <- !app_assoc. intros [= <- _]. by apply long_send.
Qed.

Lemma long_draw_bytes n : keeps long_headers (draw_bytes n).
Proof. intros e. by apply long_same. Qed.
Lemma long_encode_parameters p : keeps long_headers (encode_parameters p).
Proof. intros e He. unfold encode_parameters. by destruct (encode_transport_parameters _ _). Qed.
Lemma long_split_random : keeps long_headers split_random.
Proof. intros e. by apply long_same. Qed.
Hint Resolve long_draw_bytes long_encode_parameters long_split_random : keeps.

Lemma long_send_retry a d s w : keeps long_headers (send_retry_for_initial a d s w).
Proof.
  unfold send_retry_for_initial. apply keeps_bind; [apply keeps_gets|intros cfg].
  apply keeps_bind; [apply long_draw_bytes|intros b]. apply keeps_bind; [apply keeps_lift|intros token].
  intros e He. unfold mbind, stM_bind, lift.
  destruct (encode_retry_packet _ _ _) as [[packet u]| | |] eqn:E; try done.
  destruct (compute_retry_integrity_tag _ _ _); try done.
  revert E. unfold encode_retry_packet, build, exec. autorewrite with enc.
  cbn -[as_slice as_u8 to_be]. rewrite <- !app_assoc. intros [= <- _]. by apply long_send.
Qed.

Lemma long_new_connection a d s o r v now : keeps long_headers (new_connection a d s o r v now).
Proof. unfold new_connection. keeps_tac. Qed.

Lemma long_accept_initial data h a ecn ids t : keeps long_headers (accept_initial data h a ecn ids t).
Proof.
  unfold accept_initial. apply keeps_bind; [apply keeps_lift|intros token].
  apply keeps_bind; [apply keeps_gets|intros cfg]. apply keeps_bind; [apply keeps_lift|intros []].
  - apply long_send_retry.
  - apply keeps_ret.
  - apply keeps_bind; [apply long_new_connection|intros [lcid c]]. apply keeps_gets_bind. intros e He.
    match goal with |- context [match ?m c with (_, _) => _ end] => destruct (m c) as [[u|err| |] c'] end; try done.
    unfold mbind at 1, stM_bind at 1, lift. unfold add_u64. dif; [|done].
    eapply long_same; [apply wire_register|exact He].
Qed.

(** Only a token without a connection is answered with a reset, and there is none. *)
Lemma long_receive_datagram data a ecn ids t e : consistent e → long_headers e →
  long_headers (receive_datagram data a ecn ids t e).2.
Proof.
  intros Hc He. unfold receive_datagram.
  match goal with |- context [(gets ?g ≫= ?f) e] => change ((gets g ≫= f) e) with (f (g e) e) end. cbv beta.
  destruct (parse_header _ _) as [parsed|err| |]; try done.
  destruct (version_negotiation_ids parsed) as [[d s]|]; [by apply long_send_version_negotiation|].
  destruct (header_dcid parsed) as [dcid|]; [|done].
  match goal with |- context [(gets ?g ≫= ?f) e] => change ((gets g ≫= f) e) with (f (g e) e) end. cbv beta.
  destruct (ep_cid_to_handle e !! dcid) eqn:Ed; [by apply long_route|].
  destruct (ep_initial_dcid_to_handle e !! dcid); [by apply long_route|].
  destruct (ep_cid_to_reset_token e !! dcid) eqn:Et.
  - destruct (ct_tokens e Hc dcid) as [? ?]; [eauto|]. congruence.
  - destruct parsed as [h|h|]; try done. destruct (bool_decide _); [by apply long_accept_initial|done].
Qed.

Lemma long_drive x e : consistent e → long_headers e → long_headers (drive_once x e).2.
Proof.
  intros Hc He. unfold drive_once, mbind, stM_bind. pose proof (keeps_timeouts (tn_handles x) (tn_ids x) (tn_clock x) e Hc) as Hc1.
  pose proof (long_timeouts (tn_handles x) (tn_ids x) (tn_clock x) e He) as He1.
  destruct (handle_connection_timeouts _ _ _ e) as [[[]|err| |] e1]; try done.
  destruct (tn_received x); [by apply long_receive_datagram|done|by apply long_timeouts|done].
Qed.

Lemma long_accept turns : ∀ e, consistent e → long_headers e → long_headers (accept turns e).2.
Proof.
  induction turns as [|x turns IH]; intros e Hc He; cbn [accept]; pose proof (consistent_dequeue e Hc) as Hd;
    assert (long_headers (dequeue_established_handle e).2) as Hl
      by (unfold dequeue_established_handle; by destruct (ep_established_queue e));
    destruct (dequeue_established_handle e) as [[h|] e1]; try done.
  unfold mbind, stM_bind. pose proof (keeps_drive x e1 Hd) as Hc2. pose proof (long_drive x e1 Hd Hl) as Hl2.
  destruct (drive_once x e1) as [[[]|err| |] e2]; try done. by apply IH.
Qed.

Lemma long_call x e : consistent e → long_headers e → long_headers (endpoint_call x e).
Proof.
  intros Hc He. destruct x; cbn [endpoint_call].
  - by apply long_drive.
  - by apply long_accept.
  - revert e Hc He. induction handles as [|h handles IH]; intros e Hc He; [done|]. cbn [flush_all foldr].
    unfold mbind, stM_bind. pose proof (long_flush_connection h ids t e He) as He1.
    pose proof (keeps_flush_connection h ids t e Hc) as Hc1.
    destruct (flush_connection h ids t e) as [[[]|err| |] e1]; [by apply IH|done..].
  - unfold close_connection. destruct (_ !! h); [|done]. by destruct (close _ _ _ _) as [[]].
  - unfold on_conn_streams. destruct (_ !! h); [|done]. by destruct (m _).
Qed.

Lemma long_run calls : ∀ e, consistent e → long_headers e → long_headers (endpoint_run calls e).
Proof.
  induction calls as [|x calls IH]; intros e Hc He; [done|]. apply IH; [|by apply long_call].
  by apply (consistent_run [x]).
Qed.

(** An endpoint never sends a stateless reset: it forgets the token of an
    identifier together with the connection, and keeps no token of an
    identifier without one. *)
Theorem no_stateless_reset cfg random grease calls :
  Forall (λ x, ∃ first rest, x.2 = first :: rest ∧ is_long_header first = true)
    (ep_wire (endpoint_run calls (bind cfg random grease))).
Proof.
  pose proof (long_run calls (bind cfg random grease) (consistent_bind _ _ _)) as Hl.
  eapply Forall_impl; [apply Hl, Forall_nil_2|]. intros [a [|first rest]]; [done|]. cbn. by exists first, rest.
Qed.

(** ** One datagram ends a connection *)

(** An Initial packet that ends before its token. *)
Definition cut_initial (dcid scid : ConnectionId) : bytes := long_prefix 0xc0 QUIC_VERSION_1 dcid scid.

Lemma parse_cut_initial dcid scid n : cid_wf dcid → cid_wf scid →
  ∃ h, parse_header (cut_initial dcid scid) n = Ok (HLong h) ∧ lh_packet_type h = Initial ∧
    lh_version h = QUIC_VERSION_1 ∧ lh_dcid h = dcid ∧
    parse_initial_fields (cut_initial dcid scid) (lh_header_len h) (lh_first_byte h) = Err BufferTooSmall.
Proof.
  intros Hd Hs. destruct (parse_long_eq (cut_initial dcid scid) 0xc0 QUIC_VERSION_1 dcid scid [])
    as [Hp E]; [unfold is_u32; unfold_ints; unfold QUIC_VERSION_1; lia|done|done|rewrite app_nil_r; apply at_pos_0|].
  eexists. split; [exact E|]. split_and!; try done. cbn [lh_header_len lh_first_byte].
  unfold parse_initial_fields, read_varint. rewrite (slice_from_at _ _ _ Hp). done.
Qed.

Lemma loop_cut_initial fuel dcid scid a ecn t (c : conn) : cid_wf dcid → cid_wf scid → qc_side c = Server →
  ∃ c', datagram_loop (S fuel) (cut_initial dcid scid) a ecn t c = (Err BufferTooSmall, c').
Proof.
  intros Hd Hs Hside. destruct (parse_cut_initial dcid scid (m_cid_len (qc_cids c)) Hd Hs) as (h & E & Et & _ & _ & Ef).
  assert (∃ c1, note_initial_scid h c = (Ok tt, c1)) as [c1 E1].
  { unfold note_initial_scid, mbind, stM_bind, gets. rewrite Hside. destruct (_ && _); by eexists. }
  exists c1. change (cut_initial dcid scid) with (0xc0 :: tail (cut_initial dcid scid)) at 1.
  cbn [datagram_loop]. change (0xc0 :: tail (cut_initial dcid scid)) with (cut_initial dcid scid).
  unfold mbind at 1, stM_bind at 1, gets. rewrite E. unfold mbind at 1, stM_bind at 1. rewrite E1, Et.
  unfold mbind, stM_bind, lift, long_packet_end. rewrite Et, Ef. done.
Qed.

Lemma side_received a n (c : conn) : qc_side (record_unvalidated_bytes_received a n c) = qc_side c.
Proof.
  unfold record_unvalidated_bytes_received, count_unvalidated, store_active_peer_path_state.
  repeat match goal with |- context [if ?b then _ else _] => destruct b end; done.
Qed.

Lemma feed_cut_initial dcid scid a ecn t (c : conn) : cid_wf dcid → cid_wf scid → qc_side c = Server →
  closed_or_closing (qc_state c) = false →
  ∃ c', feed_datagram (cut_initial dcid scid) a ecn t c = (Err BufferTooSmall, c').
Proof.
  intros Hd Hs Hside Hst.
  destruct (loop_cut_initial (length (tail (cut_initial dcid scid))) dcid scid a ecn t
    (record_unvalidated_bytes_received a (len (cut_initial dcid scid)) c) Hd Hs) as [c' E]; [by rewrite side_received|].
  change (S (length (tail (cut_initial dcid scid)))) with (length (cut_initial dcid scid)) in E.
  exists c'. unfold feed_datagram, process_datagram. unfold mbind at 1, stM_bind at 1, gets at 1.
  assert (∀ (k : unit → connM unit), ((_ ← modify (record_unvalidated_bytes_received a (len (cut_initial dcid scid)));
    datagram_loop (length (cut_initial dcid scid)) (cut_initial dcid scid) a ecn t) ≫= k) c = (Err BufferTooSmall, c')) as K.
  { intros k. unfold mbind, stM_bind, modify. by rewrite E. }
  destruct (qc_state c); try done; apply K.
Qed.

(** C35: a datagram that nobody authenticated, an Initial packet that ends before its
    token, makes the endpoint drop the connection whose identifier it names,
    whatever the address of the sender and the state of the connection. *)
Theorem cut_initial_drops_connection dcid scid h (c : conn) a ecn ids t (e : endpoint) :
  cid_wf dcid → cid_wf scid → ep_cid_to_handle e !! as_slice dcid = Some h →
  ep_connections e !! h = Some c → qc_side c = Server → closed_or_closing (qc_state c) = false →
  ∃ e', receive_datagram (cut_initial dcid scid) a ecn ids t e = (Ok tt, e') ∧
    ep_connections e' = delete h (ep_connections e).
Proof.
  intros Hd Hs Hroute Hc Hside Hst.
  destruct (parse_cut_initial dcid scid (cfg_cid_len (ep_config e)) Hd Hs) as (hd & E & _ & Ev & Ed & _).
  destruct (feed_cut_initial dcid scid a ecn t c Hd Hs Hside Hst) as [c' Ef].
  unfold receive_datagram. unfold mbind at 1, stM_bind at 1, gets at 1. rewrite E.
  assert (version_negotiation_ids (HLong hd) = None) as -> by (cbn; by rewrite Ev).
  cbn [header_dcid]. rewrite Ed. unfold mbind at 1, stM_bind at 1, gets at 1. rewrite Hroute.
  eexists. split.
  - unfold route_datagram_to_connection, catch, with_conn. rewrite Hc. unfold mbind at 1, stM_bind at 1. rewrite Ef. done.
  - cbn. apply delete_insert_eq.
Qed.

(** ** Which connections a datagram reaches *)

(** The connections and the next handle are [m] and [n]. *)
Definition table_is (m : gmap Z conn) (n : Z) (e : endpoint) : Prop :=
  ep_connections e = m ∧ ep_next_handle e = n.

Lemma table_draw m n k : keeps (table_is m n) (draw_bytes k).
Proof. by intros e. Qed.
Lemma table_encode m n p : keeps (table_is m n) (encode_parameters p).
Proof. intros e He. unfold encode_parameters. by destruct (encode_transport_parameters _ _). Qed.
Lemma table_split m n : keeps (table_is m n) split_random.
Proof. by intros e. Qed.
Lemma table_send m n a p : keeps (table_is m n) (send_to a p).
Proof. by intros e. Qed.
Hint Resolve table_draw table_encode table_split table_send : keeps.

Lemma table_new_connection m n a d s o r v now : keeps (table_is m n) (new_connection a d s o r v now).
Proof. unfold new_connection. keeps_tac. Qed.
Lemma table_send_retry m n a d s w : keeps (table_is m n) (send_retry_for_initial a d s w).
Proof. unfold send_retry_for_initial. keeps_tac. Qed.

Lemma connections_register h l i c (e : endpoint) :
  ep_connections (register_connection h l i c e) = <[h := c]> (ep_connections e).
Proof.
  unfold register_connection. destruct (is_established c); [|done].
  unfold queue_established_handle. by destruct (bool_decide _).
Qed.

Lemma next_register h l i c (e : endpoint) : ep_next_handle (register_connection h l i c e) = ep_next_handle e.
Proof.
  unfold register_connection. destruct (is_established c); [|done].
  unfold queue_established_handle. by destruct (bool_decide _).
Qed.

(** An Initial packet of no connection leaves the connections alone, or adds one
    for which its token was good enough. *)
Lemma accept_initial_spec data h a ecn ids t (e e' : endpoint) :
  (accept_initial data h a ecn ids t e).2 = e' →
  table_is (ep_connections e) (ep_next_handle e) e' ∨
  ∃ token o s v c, initial_token_of data h = Ok token ∧
    evaluate_initial_token (require_retry (ep_config e)) token a (lh_dcid h) (retry_secret (ep_config e))
      (wall t) = Ok (Proceed o s v) ∧
    table_is (<[ep_next_handle e := c]> (ep_connections e)) (ep_next_handle e + 1) e'.
Proof.
  unfold accept_initial. unfold mbind at 1, stM_bind at 1, lift at 1.
  destruct (initial_token_of data h) as [token| | |]; try (intros <-; by left). cbn [snd].
  unfold mbind at 1, stM_bind at 1, gets at 1. unfold mbind at 1, stM_bind at 1, lift at 1.
  destruct (evaluate_initial_token _ _ _ _ _ _) as [[| |o s v]| | |] eqn:Ee; try (intros <-; by left).
  { intros <-. left. by apply (table_send_retry (ep_connections e) (ep_next_handle e)). }
  unfold mbind at 1, stM_bind at 1.
  pose proof (table_new_connection (ep_connections e) (ep_next_handle e) a (lh_dcid h) (lh_scid h) o s v (instant t) e)
    as [Ec En]; [done|].
  destruct (new_connection _ _ _ _ _ _ _ e) as [[[lcid c]|err| |] e1]; cbn [snd] in *; try (intros <-; by left).
  unfold mbind at 1, stM_bind at 1, gets at 1.
  match goal with |- context [match ?m c with (_, _) => _ end] => destruct (m c) as [[u|err| |] c'] end; try (intros <-; by left).
  unfold mbind at 1, stM_bind at 1, lift, add_u64. destruct (_ <=? _); intros <-; [right|by left].
  exists token, o, s, v, c'. do 2 (split; [done|]).
  split; [etransitivity; [apply connections_register|]|etransitivity; [apply next_register|]]; by rewrite <- ?Ec, <- En.
Qed.

Lemma connections_update h u (e : endpoint) h' : h' ≠ h →
  ep_connections (apply_connection_update h u e) !! h' = ep_connections e !! h'.
Proof.
  intros Hn. unfold apply_connection_update. destruct (u_closed u); [by cbn; rewrite lookup_delete_ne|].
  destruct (u_established u); [|done]. unfold queue_established_handle. by destruct (bool_decide _).
Qed.

Lemma route_other h data a ecn ids t (e : endpoint) h' : h' ≠ h →
  ep_connections (route_datagram_to_connection h data a ecn ids t e).2 !! h' = ep_connections e !! h'.
Proof.
  intros Hn. unfold route_datagram_to_connection, catch, with_conn.
  destruct (ep_connections e !! h) as [c|]; [|done].
  match goal with |- context [let '(_, _) := ?m c in _] => destruct (m c) as [[u|err| |] c'] end; cbn.
  - rewrite connections_update by done. cbn. by rewrite lookup_insert_ne.
  - by rewrite lookup_delete_ne, lookup_insert_ne.
  - by rewrite lookup_insert_ne.
  - by rewrite lookup_insert_ne.
Qed.

(** The connection a datagram is for. *)
Definition routed (e : endpoint) (data : bytes) : option Z :=
  match parse_header data (cfg_cid_len (ep_config e)) with
  | Ok parsed =>
      match header_dcid parsed with
      | Some dcid =>
          match ep_cid_to_handle e !! dcid with
          | Some h => Some h
          | None => ep_initial_dcid_to_handle e !! dcid
          end
      | None => None
      end
  | _ => None
  end.

(** C14: a datagram changes no connection but the one its identifier names: a
    connection that fails does not disturb the others. *)
Theorem datagram_isolated data a ecn ids t (e : endpoint) h' :
  routed e data ≠ Some h' → h' < ep_next_handle e →
  ep_connections (receive_datagram data a ecn ids t e).2 !! h' = ep_connections e !! h'.
Proof.
  unfold routed, receive_datagram. intros Hr Hlt. unfold mbind at 1, stM_bind at 1, gets at 1.
  destruct (parse_header _ _) as [parsed|err| |]; try done.
  destruct (version_negotiation_ids parsed) as [[d s]|].
  { unfold send_version_negotiation, mbind, stM_bind, lift. by destruct (encode_version_negotiation _ _ _) as [[]| | |]. }
  destruct (header_dcid parsed) as [dcid|]; [|done]. unfold mbind at 1, stM_bind at 1, gets at 1.
  destruct (ep_cid_to_handle e !! dcid) as [h|]; [apply route_other; congruence|].
  destruct (ep_initial_dcid_to_handle e !! dcid) as [h|]; [apply route_other; congruence|].
  destruct (ep_cid_to_reset_token e !! dcid).
  { unfold mbind at 1, stM_bind at 1, gets at 1. by destruct (encode_stateless_reset _ _ _). }
  destruct parsed as [h|h|]; try done. destruct (bool_decide _); [|done].
  destruct (accept_initial_spec data h a ecn ids t e _ eq_refl) as [[-> _]|(token & o & s & v & c & _ & _ & -> & _)]; [done|].
  rewrite lookup_insert_ne by lia. done.
Qed.

(** The connection is not there before and hence not after a step that leaves the table alone. *)
Local Ltac unchanged :=
  let E := fresh in intros E;
  match goal with
  | Hn : ep_connections ?e !! ?h = None |- _ =>
      match type of E with _ = ?x => change (ep_connections e !! h = x) in E; congruence end
  end.

(** C12: an endpoint that requires Retry makes a connection only for a datagram
    that is an Initial packet whose own token validates, at that time, for the
    address the datagram came from: as a Retry token, or as a token of an earlier
    connection. *)
Theorem retry_required data a ecn ids t (e : endpoint) h c :
  require_retry (ep_config e) = true → ep_connections e !! h = None →
  ep_connections (receive_datagram data a ecn ids t e).2 !! h = Some c →
  ∃ hd f, parse_header data (cfg_cid_len (ep_config e)) = Ok (HLong hd) ∧ lh_packet_type hd = Initial ∧
    parse_initial_fields data (lh_header_len hd) (lh_first_byte hd) = Ok f ∧
    ((∃ dcid, validate_retry_token hkdf hmac_sign (wall t) (ip_token f) a (retry_secret (ep_config e)) =
        Ok (Valid dcid)) ∨
     validate_new_token hkdf gcm256_open (wall t) (ip_token f) a (retry_secret (ep_config e)) = Ok true).
Proof.
  intros Hreq Hn.
  assert (∀ h0, ep_connections (route_datagram_to_connection h0 data a ecn ids t e).2 !! h = Some c →
    ∃ c', ep_connections e !! h = Some c') as Hroute.
  { intros h0. destruct (decide (h = h0)) as [->|Hne]; [|rewrite route_other by done; eauto].
    unfold route_datagram_to_connection, catch, with_conn. destruct (ep_connections e !! h0) as [c0|] eqn:E0; eauto.
    cbn. by rewrite E0. }
  unfold receive_datagram. unfold mbind at 1, stM_bind at 1, gets at 1.
  destruct (parse_header _ _) as [parsed|err| |] eqn:Eh; [|unchanged..].
  destruct (version_negotiation_ids parsed) as [[d s]|].
  { unfold send_version_negotiation, mbind, stM_bind, lift.
    destruct (encode_version_negotiation _ _ _) as [[]| | |]; unchanged. }
  destruct (header_dcid parsed) as [dcid|]; [|unchanged]. unfold mbind at 1, stM_bind at 1, gets at 1.
  destruct (ep_cid_to_handle e !! dcid) as [h0|]; [intros [? ?]%Hroute; congruence|].
  destruct (ep_initial_dcid_to_handle e !! dcid) as [h0|]; [intros [? ?]%Hroute; congruence|].
  destruct (ep_cid_to_reset_token e !! dcid).
  { unfold mbind at 1, stM_bind at 1, gets at 1. destruct (encode_stateless_reset _ _ _); unchanged. }
  destruct parsed as [hd|hd|]; [|unchanged..]. destruct (bool_decide _) eqn:Ety; [|unchanged].
  apply bool_decide_eq_true in Ety.
  destruct (accept_initial_spec data hd a ecn ids t e _ eq_refl)
    as [[-> _]|(token & o & s & v & c' & Etok & Ee & _)]; [congruence|].
  intros _. revert Etok Ee. rewrite Hreq. unfold initial_token_of.
  destruct (parse_initial_fields _ _ _) as [f| | |] eqn:Ef; [|by intros [= <-]|done..]. intros [= <-].
  exists hd, f. do 3 (split; [done|]). revert Ee. unfold evaluate_initial_token. destruct (ip_token f); [done|].
  intros (r & Er & Ee)%bind_ok_inv. destruct r as [odcid| |]; [left; by exists odcid|done|right].
  apply bind_ok_inv in Ee as ([] & Ev & Ee); done.
Qed.

(** ** Handles are not used again *)

Section Spent.
Context (gone : bool) (h : Z).

(** The handle [h] was given out, and if [gone] it has no connection any more. *)
Definition spent (e : endpoint) : Prop :=
  h < ep_next_handle e ∧ (gone = true → ep_connections e !! h = None).

Lemma spent_le e e' : ep_next_handle e ≤ ep_next_handle e' →
  (ep_connections e !! h = None → ep_connections e' !! h = None) → spent e → spent e'.
Proof. intros Hn Hc [Hl Hg]. split; [lia|auto]. Qed.
Lemma spent_table {A} (m : stM endpoint QuicError A) :
  (∀ conns n, keeps (table_is conns n) m) → keeps spent m.
Proof.
  intros Hm e. destruct (Hm (ep_connections e) (ep_next_handle e) e) as [Ec En]; [done|].
  apply spent_le; [lia|by rewrite Ec].
Qed.

Lemma spent_with_conn {A} h' (m : connM A) : keeps spent (with_conn h' m).
Proof.
  intros e. unfold with_conn. destruct (ep_connections e !! h') as [c|] eqn:E; [|done].
  destruct (m c) as [r c']. apply spent_le; [done|]. cbn. intros Hn.
  by rewrite lookup_insert_ne by congruence.
Qed.
Lemma spent_remove h' e : spent e → spent (remove_connection h' e).
Proof.
  apply spent_le; [done|]. cbn. intros Hn. destruct (decide (h' = h)) as [->|Hne].
  - by rewrite lookup_delete_eq.
  - by rewrite lookup_delete_ne.
Qed.
Lemma spent_update h' u e : spent e → spent (apply_connection_update h' u e).
Proof.
  intros He. unfold apply_connection_update. destruct (u_closed u); [by apply spent_remove|].
  destruct (u_established u); [|done]. unfold queue_established_handle. by destruct (bool_decide _).
Qed.
Lemma spent_captured h' (m : connM ConnectionUpdate) :
  keeps spent (catch (with_conn h' m) (apply_update h') (drop_failing_connection h')).
Proof.
  apply keeps_catch; [apply spent_with_conn|intros [u|]|].
  - apply keeps_modify. intros e. apply spent_update.
  - apply keeps_ret.
  - apply keeps_modify. intros e. apply spent_remove.
Qed.

Lemma spent_timeouts handles ids t : keeps spent (handle_connection_timeouts handles ids t).
Proof.
  unfold handle_connection_timeouts. apply keeps_bind; [|intros closed].
  - induction handles as [|h' handles IH]; [apply keeps_ret|]. cbn [time_connections].
    apply keeps_bind; [|intros closed; apply keeps_bind; [exact IH|intros others; apply keeps_ret]].
    unfold time_connection. apply keeps_bind; [apply spent_with_conn|intros [[]|]]; try apply keeps_ret;
      (apply keeps_bind; [apply spent_captured|intros []; apply keeps_ret]).
  - apply keeps_modify. induction closed as [|h' closed IH]; intros e He; [done|]. by apply IH, spent_remove.
Qed.

Lemma spent_receive data a ecn ids t : keeps spent (receive_datagram data a ecn ids t).
Proof.
  apply keeps_gets_bind. intros e He. destruct (parse_header _ _) as [parsed|err| |]; try done.
  destruct (version_negotiation_ids parsed) as [[d s]|].
  { apply spent_table; [|done]. intros conns n. unfold send_version_negotiation. keeps_tac. }
  destruct (header_dcid parsed) as [dcid|]; [|done]. revert e He. apply keeps_gets_bind. intros e He.
  destruct (ep_cid_to_handle e !! dcid) as [h'|]; [by apply spent_captured|].
  destruct (ep_initial_dcid_to_handle e !! dcid) as [h'|]; [by apply spent_captured|].
  destruct (ep_cid_to_reset_token e !! dcid).
  { apply spent_table; [|done]. intros conns n. keeps_tac. }
  destruct parsed as [hd|hd|]; try done. destruct (bool_decide _); [|done].
  destruct (accept_initial_spec data hd a ecn ids t e _ eq_refl) as [[Ec En]|(token & o & s & v & c & _ & _ & Ec & En)].
  - revert He. apply spent_le; [lia|by rewrite Ec].
  - pose proof He as [Hl _]. revert He. apply spent_le; [lia|]. rewrite Ec, lookup_insert_ne by lia. done.
Qed.

Lemma spent_drive x : keeps spent (drive_once x).
Proof.
  unfold drive_once. apply keeps_bind; [apply spent_timeouts|intros []].
  destruct (tn_received x); [apply spent_receive|apply keeps_fail|apply spent_timeouts|apply keeps_fail].
Qed.
Lemma spent_accept turns : keeps spent (accept turns).
Proof.
  induction turns as [|x turns IH]; intros e He; cbn [accept];
    (assert (spent (dequeue_established_handle e).2) as Hd
       by (unfold dequeue_established_handle; by destruct (ep_established_queue e)));
    destruct (dequeue_established_handle e) as [[h'|] e1]; try done.
  by apply (keeps_bind spent (drive_once x) (λ _, accept turns) (spent_drive x) (λ _, IH)).
Qed.

Lemma spent_call x e : spent e → spent (endpoint_call x e).
Proof.
  destruct x as [x|turns|handles ids t|h' code reason now|h' m]; cbn [endpoint_call].
  - apply spent_drive.
  - apply spent_accept.
  - revert e. induction handles as [|h' handles IH]; [done|].
    apply keeps_bind; [apply spent_captured|intros []]. exact IH.
  - intros He. unfold close_connection. destruct (ep_connections e !! h') as [c|] eqn:Ec; [|done].
    destruct (close code reason now c) as [r c'].
    pose proof (spent_with_conn h' (λ _, (Ok tt, c')) e He) as Hw. unfold with_conn in Hw. rewrite Ec in Hw.
    destruct r; [exact Hw|by apply spent_remove|exact Hw..].
  - intros He. unfold on_conn_streams. destruct (ep_connections e !! h') as [c|] eqn:Ec; [|done].
    destruct (m _) as [r s]. cbn [snd].
    pose proof (spent_with_conn h' (λ _, (Ok tt, c <| qc_rc := with_io s (qc_rc c) |>)) e He) as Hw.
    unfold with_conn in Hw. rewrite Ec in Hw. exact Hw.
Qed.
Lemma spent_run calls : ∀ e, spent e → spent (endpoint_run calls e).
Proof. induction calls as [|x calls IH]; intros e He; [done|]. by apply IH, spent_call. Qed.
End Spent.

(** C13: in every state an endpoint reaches, each identifier and each queued handle
    leads to a connection, and a connection is queued at most once; and a handle
    whose connection is gone never gets another one. *)
Theorem endpoint_consistent cfg random grease calls :
  let e := endpoint_run calls (bind cfg random grease) in
  consistent e ∧
  ∀ h calls' calls'', is_Some (ep_connections e !! h) →
    let e' := endpoint_run calls' e in
    ep_connections e' !! h = None → ep_connections (endpoint_run calls'' e') !! h = None.
Proof.
  intros e. assert (consistent e) as Hc by apply consistent_run, consistent_bind.
  split; [done|]. intros h calls' calls'' Hs e' Hn.
  assert (spent false h e) as Hl by (split; [by apply Hc|done]).
  destruct (spent_run false h calls' e Hl) as [Hl' _].
  by apply (spent_run true h calls'' e').
Qed.
End Endpoint.
