(* ===== verification/Client.v ===== *)
(** * Clients, the listener of one connection, and streams as byte channels
    (starfish-quic/src/client.rs, server.rs, stream.rs)

    The loops that wait for the network take what each turn meets as a list; when
    the list ends they are still waiting.  A listener is an endpoint of which it
    uses the configuration, the random source and the socket.  An
    [io::Error::other] is the error whose text it carries. *)

From S2P Require Import Prelude QuicError Varint Frame Packet TransportParams Crypto KeyUpdate Retry.
From S2P Require Import Streams StreamIo AckTracking ConnIds Recovery ConnRecovery Packing.
From S2P Require Import Connection ConnPaths ConnHandshake ConnReceive ConnSend ConnLifecycle Endpoint.

(** [ServerName::try_from] and [quic::ClientConnection::new] of rustls. *)
Class TlsClient (Session : Type) := {
  server_name_ok : string → bool;
  client_session : string → bytes → option Session;
}.

(** What one call of [poll] meets. *)
Record Polled := {
  po_received : Received;
  po_ids : list StreamId;
  po_ids' : list StreamId;
  po_clock : Clock;
  po_clock' : Clock;
}.

(** What one turn of [QuicListener::accept] meets: a datagram, or the error of
    the socket, and the polls of the connection it opens. *)
Record ListenerTurn := {
  lt_received : Received;
  lt_ids : list StreamId;
  lt_clock : Clock;
  lt_polls : list Polled;
}.

Section Client.
Context {C Session Secrets : Type}.
Context `{CongestionController C} `{TlsSession Session Secrets} `{Primitives} `{TlsClient Session}.
Context `{TlsServer Session} `{TokenPrimitives}.
Abbreviation conn := (QuicConnection C Session Secrets).
Abbreviation connM := (connM C Session Secrets).
Abbreviation endpoint := (QuicEndpoint C Session Secrets).
Local Abbreviation epM := (stM endpoint QuicError).

Definition poll_with (p : Polled) : connM unit :=
  poll (po_received p) (po_ids p) (po_ids' p) (po_clock p) (po_clock' p).

(** [while !conn.is_established() { conn.poll() }]: [false] while it waits. *)
Fixpoint poll_until_established (polls : list Polled) : connM bool :=
  established ← gets is_established;
  if established : bool then mret true
  else match polls with
       | [] => mret false
       | p :: polls => _ ← poll_with p; poll_until_established polls
       end.

(** ** Clients *)

Record QuicClientConfig := {
  cc_cid_len : Z;
  peer_transport_parameter_cache : gmap string PeerTransportParameters;
  token_cache : gmap string bytes;
}.

Definition client_parameters (local_cid : ConnectionId) : LocalTransportParameters :=
  let p := local_new DEFAULT_INITIAL_MAX_DATA DEFAULT_INITIAL_MAX_STREAM_DATA
             DEFAULT_INITIAL_MAX_STREAMS_BIDI DEFAULT_INITIAL_MAX_STREAMS_UNI in
  p <| l_max_idle_timeout_ms := DEFAULT_IDLE_TIMEOUT_MS |>
    <| l_max_udp_payload_size := MAX_LOCAL_UDP_PAYLOAD_SIZE |>
    <| l_initial_source_connection_id := Some local_cid |>.

(** [random] gives the two identifiers first. *)
Definition connect_start (a : SocketAddr) (server_name : string) (config : QuicClientConfig)
    (random : nat → Z → bytes) (grease : Z) (ids : list StreamId) (t : Clock) : qres conn :=
  let local_cid := generate (random 0%nat) (cc_cid_len config) in
  let remote_cid := generate (random 1%nat) (cc_cid_len config) in
  if negb (server_name_ok server_name) then Err (InvalidPacket (msg "invalid server name: {e}"))
  else
    params ← (encode_transport_parameters (client_parameters local_cid) grease).1;
    tls ← ok_or Tls (client_session server_name params);
    c ← new_client a local_cid remote_cid tls (λ i, random (S (S i))) (instant t);
    let c := configure_client_resumption_state server_name (peer_transport_parameter_cache config)
               (token_cache config) c in
    let '(r, c) := (_ ← process_tls_output t; send_pending_frames ids (instant t)) c in
    _ ← r; Ok c.

Definition connect (a : SocketAddr) (server_name : string) (config : QuicClientConfig)
    (random : nat → Z → bytes) (grease : Z) (ids : list StreamId) (t : Clock) (polls : list Polled)
    : qres (option conn) :=
  c ← connect_start a server_name config random grease ids t;
  let '(r, c) := poll_until_established polls c in
  established ← r; Ok (if established : bool then Some c else None).

(** ** The listener *)

Definition should_ignore_listener_connection_error (e : QuicError) : bool :=
  match e with
  | ConnectionDraining | ConnectionClosed _ _ | Transport _ _ | InvalidPacket _ | InvalidFrame _
  | BufferTooSmall | Tls => true
  | _ => false
  end.

(** A step of the connection being accepted: [None] when its error is ignored. *)
Definition unless_ignored {A} (m : connM A) (c : conn) : epM (option (A * conn)) :=
  match m c with
  | (Ok a, c) => mret (Some (a, c))
  | (Err e, _) => if should_ignore_listener_connection_error e then mret None else fail e
  | (Panic, _) => lift Panic
  | (Diverge, _) => lift Diverge
  end.

(** The connection of an Initial packet, driven until it is established:
    [None] when the listener goes on with the next datagram, [Some None] when it
    still waits. *)
Definition drive_accepted (data : bytes) (a : SocketAddr) (ecn : option UdpEcnCodepoint)
    (x : ListenerTurn) (c : conn) : epM (option (option conn)) :=
  let t := lt_clock x in
  r ← unless_ignored (_ ← feed_datagram data a ecn t;
                      _ ← process_tls_output t;
                      _ ← send_pending_frames (lt_ids x) (instant t);
                      poll_until_established (lt_polls x)) c;
  mret ((λ '(established, c), if established : bool then Some c else None) <$> r).

Definition listener_datagram (data : bytes) (a : SocketAddr) (ecn : option UdpEcnCodepoint)
    (x : ListenerTurn) : epM (option (option conn)) :=
  cfg ← gets ep_config;
  let t := lt_clock x in
  match parse_header data (cfg_cid_len cfg) with
  | Err _ => mret None
  | Panic => lift Panic
  | Diverge => lift Diverge
  | Ok parsed =>
      match version_negotiation_ids parsed, parsed with
      | Some (dcid, scid), _ => _ ← send_version_negotiation a dcid scid; mret None
      | None, HLong h =>
          if negb (bool_decide (lh_packet_type h = Initial)) then mret None
          else
            initial_token ← lift (initial_token_of data h);
            decision ← lift (evaluate_initial_token (require_retry cfg) initial_token a (lh_dcid h)
                               (retry_secret cfg) (wall t));
            match decision with
            | SendRetry => _ ← send_retry_for_initial a (lh_dcid h) (lh_scid h) (wall t); mret None
            | Drop => mret None
            | Proceed original_dcid retry_source_connection_id validated =>
                '(_, c) ← new_connection a (lh_dcid h) (lh_scid h) original_dcid
                            retry_source_connection_id validated (instant t);
                drive_accepted data a ecn x c
            end
      | None, _ => mret None
      end
  end.

(** [QuicListener::accept]: [None] while it waits. *)
Fixpoint listener_accept (turns : list ListenerTurn) : epM (option conn) :=
  match turns with
  | [] => mret None
  | x :: turns =>
      match lt_received x with
      | Datagram data a ecn =>
          r ← listener_datagram data a ecn x;
          match r with
          | Some accepted => mret accepted
          | None => listener_accept turns
          end
      | _ => fail Io
      end
  end.

(** ** Streams as byte channels *)

Definition conn_stream_send (sid : StreamId) (data : bytes) (fin : bool) : connM Z :=
  c ← gets (λ c, c);
  on_io (stream_send (application_send_kind c) (qc_state c) sid data fin).

(** [None] while it waits. *)
Fixpoint read_with_timeout (sid : StreamId) (room : Z) (polls : list Polled) : connM (option bytes) :=
  '(data, fin) ← on_io (stream_recv sid room);
  if (0 <? len data) || fin then mret (Some data)
  else match polls with
       | [] => mret None
       | p :: polls => _ ← poll_with p; read_with_timeout sid room polls
       end.

Fixpoint write_loop (sid : StreamId) (buf : bytes) (polls : list Polled) : connM (option Z) :=
  n ← conn_stream_send sid buf false;
  match polls with
  | [] => mret None
  | p :: polls => _ ← poll_with p; if 0 <? n then mret (Some n) else write_loop sid buf polls
  end.

Definition write_with_timeout (sid : StreamId) (buf : bytes) (polls : list Polled) : connM (option Z) :=
  match buf with
  | [] => mret (Some 0)
  | _ => write_loop sid buf polls
  end.

Definition close_stream (sid : StreamId) (p : Polled) : connM unit :=
  _ ← conn_stream_send sid [] true; poll_with p.
End Client.
