(* ===== verification/EndpointSample.v ===== *)
(** * Runs of a server endpoint, of clients, of a listener and of stream writers

    The endpoint over the session in miniature: the client's first datagram
    opens a connection, which is accepted twice; witnesses for the theorems
    about endpoints; a write that fails after its bytes were taken. *)

From S2P Require Import Prelude QuicError Varint Frame Packet PacketProps TransportParams Crypto CryptoProps.
From S2P Require Import KeyUpdate KeyUpdateProps Retry RetryProps.
From S2P Require Import Streams StreamIo AckTracking ConnIds Recovery ConnRecovery Packing.
From S2P Require Import Connection ConnPaths ConnHandshake ConnReceive ConnSend ConnLifecycle ConnFrame ConnAmpProps.
From S2P Require Import ConnSample Endpoint EndpointProps Client.

#[export] Instance script_server : TlsServer Script := λ _, Some (server_script 60 80).
#[export] Instance toy_tokens : TokenPrimitives := {| hmac_sign := toy_hmac; gcm256_open := toy_open |}.

Definition sample_config (retry : bool) : QuicServerConfig :=
  {| cfg_cid_len := 8; require_retry := retry; retry_secret := replicate 32 7 |}.

Abbreviation sample_endpoint := (QuicEndpoint NewReno.NewReno Script Z).

Definition no_streams (h : Z) : list StreamId := [].
Definition hello : bytes := client_hello 60 80.
Definition arrives (handles : list Z) (data : bytes) (from : SocketAddr) (ms : Z) : Turn := {|
  tn_handles := handles; tn_handles' := []; tn_received := Datagram data from None;
  tn_ids := no_streams; tn_clock := clock ms; tn_clock' := clock ms |}.

Definition opened (retry : bool) : sample_endpoint :=
  endpoint_run [EpDrive (arrives [] hello client_addr 2)] (bind (sample_config retry) random 0).

(** [accept] returns a connection again after every datagram for it. *)
Theorem accepted_twice :
  let e1 := (accept [] (opened false)).2 in
  (accept [] (opened false)).1 = Ok (Some 0) ∧ (accept [] e1).1 = Ok None ∧
  (accept [arrives [0] hello client_addr 20] e1).1 = Ok (Some 0).
Proof. vm_compute. done. Qed.

(** ** A client that is asked to retry *)

Definition retry_packet : bytes := hd [] (ep_wire (opened true)).*2.
Definition second_hello : bytes :=
  let cl := (flush [] (clock 1) (sample_client 60 80)).2 in
  let cl := (feed_datagram retry_packet server_addr None (clock 5) cl).2 in
  hd [] (news 1 (flush [] (clock 6) cl).2).

Definition sample_conn_of (e : sample_endpoint) (h : Z) : sample_conn :=
  default (sample_server 0 0) (ep_connections e !! h).
Definition known (e : sample_endpoint) (h : Z) : bool := match ep_connections e !! h with Some _ => true | None => false end.
Lemma known_lookup e h : known e h = true → ep_connections e !! h = Some (sample_conn_of e h).
Proof. unfold known, sample_conn_of. by destruct (_ !! _). Qed.

Lemma retry_required_witness :
  let secret := retry_secret (sample_config true) in
  ∃ hd f, parse_header second_hello 8 = Ok (HLong hd) ∧ lh_packet_type hd = Initial ∧
    parse_initial_fields second_hello (lh_header_len hd) (lh_first_byte hd) = Ok f ∧
    ((∃ dcid, validate_retry_token hkdf hmac_sign (wall (clock 8)) (ip_token f) client_addr secret =
        Ok (Valid dcid)) ∨
     validate_new_token hkdf gcm256_open (wall (clock 8)) (ip_token f) client_addr secret = Ok true).
Proof.
  pose (e := (receive_datagram second_hello client_addr None no_streams (clock 8) (opened true)).2).
  apply (retry_required second_hello client_addr None no_streams (clock 8) (opened true) 0 (sample_conn_of e 0)).
  - vm_compute. reflexivity.
  - vm_compute. reflexivity.
  - apply (known_lookup e 0). vm_compute. reflexivity.
Defined.

Lemma sample_cid_wf x : 0 ≤ x < 256 → cid_wf (sample_cid x).
Proof.
  intros Hx. split_and!; [done|done| |done|done].
  apply Forall_take, Forall_app_2; apply Forall_replicate; unfold is_u8; unfold_ints; lia.
Qed.

Lemma cut_initial_drops_connection_witness :
  ∃ e', receive_datagram (cut_initial (sample_cid 8) client_cid) server_addr None no_streams (clock 9)
          (opened false) = (Ok tt, e') ∧
    ep_connections e' = delete 0 (ep_connections (opened false)).
Proof.
  apply (cut_initial_drops_connection _ _ 0 (sample_conn_of (opened false) 0)).
  - apply sample_cid_wf. lia.
  - apply sample_cid_wf. lia.
  - vm_compute. reflexivity.
  - apply known_lookup. vm_compute. reflexivity.
  - vm_compute. reflexivity.
  - vm_compute. reflexivity.
Defined.

Lemma datagram_isolated_witness :
  ep_connections (receive_datagram (cut_initial client_cid client_cid) client_addr None no_streams (clock 9)
    (opened false)).2 !! 0 = ep_connections (opened false) !! 0.
Proof.
  apply datagram_isolated.
  - vm_compute. discriminate.
  - vm_compute. reflexivity.
Defined.

(** ** Listeners *)

Definition polled (r : Received) (ms ms' : Z) : Polled :=
  {| po_received := r; po_ids := [0]; po_ids' := [0]; po_clock := clock ms; po_clock' := clock ms' |}.

(** A listener hands out the connection of the client's first datagram. *)
Lemma listener_accepts :
  match (listener_accept [{| lt_received := Datagram hello client_addr None; lt_ids := [];
                             lt_clock := clock 2; lt_polls := [] |}]
           (bind (sample_config false) random 0 : sample_endpoint)).1 with
  | Ok (Some c) => qc_state c = CConnected
  | _ => False
  end.
Proof. vm_compute. done. Qed.

(** ** A write that fails after its bytes were taken *)

(** The server opens a stream after the handshake; a write meets no datagram
    before its timeout. *)
Definition writer : sample_conn := ((on_io (on_streams open_bidi)) (handshake 0 2 10).2).2.
Definition attempt (ms : Z) (c : sample_conn) : qres (option Z) * sample_conn :=
  write_with_timeout 1 (replicate 5 0x61) [polled TimedOut ms ms] c.

(** What the client reads of the datagrams sent since. *)
Definition client_reads (c : sample_conn) : qres (option bytes) :=
  let cl := feed_all server_addr (clock 60) (news (length (qc_wire writer)) c) (handshake 0 2 10).1 in
  (read_with_timeout 1 100 [] cl).1.

(** A write that returns an error has sent its bytes: a caller who repeats it
    sends them twice. *)
Theorem failed_write_sends :
  let '(r1, c1) := attempt 40 writer in
  let '(r2, c2) := attempt 41 c1 in
  r1 = Err Io ∧ client_reads c1 = Ok (Some (replicate 5 0x61)) ∧
  r2 = Err Io ∧ client_reads c2 = Ok (Some (replicate 10 0x61)).
Proof. vm_compute. done. Qed.
