(* ===== verification/Incremental.v ===== *)
(** * Incremental parsers

    The loop of [feed] and [decode]: a step gets the bytes that are left and
    says how many it consumed, until the parser is complete.  When every step
    is a loop over single bytes, the whole loop is one over single bytes, and
    how the input is cut into pieces does not matter. *)

From S2P Require Import Prelude.

Section Incremental.
Context {S E : Type} (complete : S → bool) (step : bytes → stM S E Z).

Fixpoint loop (fuel : nat) (data : bytes) (pos : Z) : stM S E (Z * bool) :=
  c ← gets complete;
  if (pos <? len data) && negb c then
    match fuel with
    | O => lift Diverge
    | Datatypes.S fuel =>
        rest ← lift (slice_from data pos);
        n ← step rest;
        loop fuel data (pos + n)
    end
  else mret (pos, c).

(** The reference: one byte at a time. *)
Fixpoint bytewise (data : bytes) (pos : Z) : stM S E (Z * bool) :=
  c ← gets complete;
  if (c : bool) then mret (pos, true)
  else match data with
       | [] => mret (pos, false)
       | b :: data => _ ← step [b]; bytewise data (pos + 1)
       end.

Context (ok : S → Prop).

(** A step on more than one byte goes on after the first one only where it would
    be called again. *)
Definition byte_law : Prop := ∀ s b data, ok s → complete s = false →
  let '(r, s') := step [b] s in
  match r with
  | Ok n => n = 1 ∧ ok s' ∧
      (step (b :: data) s = (Ok 1, s') ∨
       complete s' = false ∧
       step (b :: data) s = match data with [] => (Ok 1, s') | _ => (m ← step data; mret (1 + m)) s' end)
  | Diverge => False
  | _ => step (b :: data) s = (r, s')
  end.

Context (law : byte_law).

Lemma step_bytewise data : ∀ s pos, ok s → complete s = false → data ≠ [] →
  bytewise data pos s = (n ← step data; bytewise (drop (Z.to_nat n) data) (pos + n)) s ∧
  let '(r, s') := step data s in
  match r with Ok n => 1 ≤ n ≤ len data ∧ ok s' | Diverge => False | _ => True end.
Proof.
  induction data as [|b data IH]; intros s pos Hs Hc Hd; [done|].
  specialize (law s b data Hs Hc). cbn [bytewise]. rewrite gets_bind, Hc.
  unfold mbind, stM_bind. destruct (step [b] s) as [[n| | |] s'] eqn:E1.
  2,3: rewrite law; split; done.
  2: done.
  destruct law as (-> & Hs' & [E2|[Hc' E2]]); rewrite E2.
  { rewrite len_cons. pose proof (len_nonneg data). split; [done|]. split; [lia|done]. }
  destruct data as [|b' data']; [by rewrite len_cons, len_nil; split; [|split; [lia|]]|].
  destruct (IH s' (pos + 1) Hs' Hc' ltac:(done)) as [-> Hstep].
  unfold mbind, stM_bind. destruct (step (b' :: data') s') as [[m| | |] s'']; try done.
  cbn [mret stM_ret]. destruct Hstep as [Hm Hok]. rewrite len_cons. split; [|split; [lia|done]].
  replace (Z.to_nat (1 + m)) with (Datatypes.S (Z.to_nat m)) by lia. cbn [drop]. f_equal. lia.
Qed.

Lemma loop_bytewise fuel : ∀ data pos s, ok s → 0 ≤ pos ≤ len data → len data - pos ≤ Z.of_nat fuel →
  loop fuel data pos s = bytewise (drop (Z.to_nat pos) data) pos s.
Proof.
  induction fuel as [|fuel IH]; intros data pos s Hs Hp Hf; cbn [loop]; rewrite gets_bind.
  { rewrite (proj2 (Z.ltb_ge _ _)) by lia. cbn [andb].
    replace (drop (Z.to_nat pos) data) with (@nil Z) by (rewrite drop_ge; [done|unfold len in *; lia]).
    cbn [bytewise]. rewrite gets_bind. by destruct (complete s). }
  destruct (complete s) eqn:Hc; cbn [negb andb].
  { rewrite andb_false_r. destruct (drop _ data); cbn [bytewise]; rewrite gets_bind, Hc; done. }
  rewrite andb_true_r. destruct (Z.ltb_spec pos (len data)).
  - rewrite (lift_bind _ (drop (Z.to_nat pos) data)) by (apply slice_from_drop; lia).
    destruct (step_bytewise (drop (Z.to_nat pos) data) s pos Hs Hc) as [-> Hst].
    { intros E0. apply (f_equal len) in E0. rewrite len_drop, len_nil in E0 by lia. lia. }
    unfold mbind, stM_bind. destruct (step (drop (Z.to_nat pos) data) s) as [[n| | |] s']; try done.
    destruct Hst as [Hn Hok]. rewrite len_drop in Hn by lia. rewrite IH by (done || lia).
    rewrite drop_drop. f_equal. f_equal. lia.
  - replace (drop (Z.to_nat pos) data) with (@nil Z) by (rewrite drop_ge; [done|unfold len in *; lia]).
    cbn [bytewise]. by rewrite gets_bind, Hc.
Qed.

Lemma bytewise_ok data : ∀ pos s, ok s →
  let '(r, s') := bytewise data pos s in
  match r with
  | Ok (n, c) => ok s' ∧ complete s' = c ∧ pos ≤ n ≤ pos + len data ∧ (c = false → n = pos + len data)
  | Diverge => False
  | _ => True
  end.
Proof.
  induction data as [|b data IH]; intros pos s Hs; cbn [bytewise]; rewrite gets_bind;
    destruct (complete s) eqn:Hc; cbn; rewrite ?len_nil, ?len_cons; try (pose proof (len_nonneg data)).
  1-3: split_and!; try done; lia.
  specialize (law s b [] Hs Hc). unfold mbind, stM_bind. destruct (step [b] s) as [[n| | |] s']; try done.
  destruct law as (_ & Hs' & _). specialize (IH (pos + 1) s' Hs').
  destruct (bytewise data (pos + 1) s') as [[[m c]| | |] s'']; try done.
  destruct IH as (? & ? & ? & H2). split_and!; try done; [lia..|]. intros Hcf. specialize (H2 Hcf). lia.
Qed.

Lemma bytewise_pos data : ∀ pos d s, bytewise data (pos + d) s =
  (x ← bytewise data pos; mret (x.1 + d, x.2)) s.
Proof.
  induction data as [|b data IH]; intros pos d s; cbn [bytewise]; unfold mbind, stM_bind, gets;
    destruct (complete s); [done..|].
  destruct (step [b] s) as [[n| | |] s']; [|done..].
  replace (pos + d + 1) with (pos + 1 + d) by lia. apply IH.
Qed.

Lemma bytewise_app a b : ∀ pos s,
  bytewise (a ++ b) pos s =
    (x ← bytewise a pos; if (x.2 : bool) then mret x else bytewise b x.1) s.
Proof.
  induction a as [|y a IH]; intros pos s; cbn [app bytewise]; unfold mbind, stM_bind, gets.
  - destruct (complete s) eqn:Hc; [|done]. destruct b; cbn [bytewise]; by rewrite gets_bind, Hc.
  - destruct (complete s); [done|]. destruct (step [y] s) as [[n| | |] s']; [|done..]. apply IH.
Qed.
End Incremental.
