(* ===== verification/Text.v ===== *)
(** * Rust strings

    A [str] as the list of its code points, with the operations of the standard
    library that the HTTP code uses: UTF-8 validation and encoding, trimming,
    splitting, comparison without ASCII case, and parsing and printing of
    unsigned integers. *)

From S2P Require Import Prelude.

Definition text := list Z.

(** A literal of the source. *)
Fixpoint str (s : string) : text :=
  match s with
  | EmptyString => []
  | String a s => Z.of_N (Ascii.N_of_ascii a) :: str s
  end.

(** ** UTF-8 *)

Definition between (a b x : Z) : bool := (a <=? x) && (x <=? b).
Definition continuation (b : Z) : bool := between 0x80 0xbf b.

(** The second byte that may follow the first of a longer sequence. *)
Definition second_of_three (b0 b1 : Z) : bool :=
  if b0 =? 0xe0 then between 0xa0 0xbf b1
  else if b0 =? 0xed then between 0x80 0x9f b1
  else between 0xe1 0xef b0 && continuation b1.
Definition second_of_four (b0 b1 : Z) : bool :=
  if b0 =? 0xf0 then between 0x90 0xbf b1
  else if b0 =? 0xf4 then between 0x80 0x8f b1
  else between 0xf1 0xf3 b0 && continuation b1.

(** [std::str::from_utf8]. *)
Fixpoint from_utf8 (b : bytes) : option text :=
  match b with
  | [] => Some []
  | b0 :: t0 =>
      if b0 <? 0x80 then (b0 ::.) <$> from_utf8 t0
      else
        match t0 with
        | [] => None
        | b1 :: t1 =>
            if between 0xc2 0xdf b0 && continuation b1 then
              ((b0 - 0xc0) * 0x40 + (b1 - 0x80) ::.) <$> from_utf8 t1
            else
              match t1 with
              | [] => None
              | b2 :: t2 =>
                  if second_of_three b0 b1 && continuation b2 then
                    ((b0 - 0xe0) * 0x1000 + (b1 - 0x80) * 0x40 + (b2 - 0x80) ::.) <$> from_utf8 t2
                  else
                    match t2 with
                    | [] => None
                    | b3 :: t3 =>
                        if second_of_four b0 b1 && continuation b2 && continuation b3 then
                          ((b0 - 0xf0) * 0x40000 + (b1 - 0x80) * 0x1000 + (b2 - 0x80) * 0x40
                             + (b3 - 0x80) ::.) <$> from_utf8 t3
                        else None
                    end
              end
        end
  end.

(** [char::encode_utf8]. *)
Definition char_utf8 (c : Z) : bytes :=
  if c <? 0x80 then [c]
  else if c <? 0x800 then [0xc0 + c / 0x40; 0x80 + c mod 0x40]
  else if c <? 0x10000 then [0xe0 + c / 0x1000; 0x80 + c / 0x40 mod 0x40; 0x80 + c mod 0x40]
  else [0xf0 + c / 0x40000; 0x80 + c / 0x1000 mod 0x40; 0x80 + c / 0x40 mod 0x40; 0x80 + c mod 0x40].

(** [str::as_bytes]. *)
Definition as_bytes (s : text) : bytes := concat (char_utf8 <$> s).

(** A Unicode scalar value, the values of [char]. *)
Definition is_char (c : Z) : Prop := 0 ≤ c ≤ 0x10ffff ∧ ¬ (0xd800 ≤ c ≤ 0xdfff).

(** ** Trimming, splitting and comparing *)

(** [char::is_whitespace]: the White_Space property. *)
Definition is_whitespace (c : Z) : bool :=
  between 0x09 0x0d c || (c =? 0x20) || (c =? 0x85) || (c =? 0xa0) || (c =? 0x1680)
  || between 0x2000 0x200a c || (c =? 0x2028) || (c =? 0x2029) || (c =? 0x202f) || (c =? 0x205f)
  || (c =? 0x3000).

Fixpoint trim_start (s : text) : text :=
  match s with
  | [] => []
  | c :: s' => if is_whitespace c then trim_start s' else s
  end.
Definition trim (s : text) : text := rev (trim_start (rev (trim_start s))).

(** [str::split_once] and [str::split], on a character. *)
Fixpoint split_once (d : Z) (s : text) : option (text * text) :=
  match s with
  | [] => None
  | c :: s => if c =? d then Some ([], s)
              else '(a, b) ← split_once d s; Some (c :: a, b)
  end.

Fixpoint split (d : Z) (s : text) : list text :=
  match s with
  | [] => [[]]
  | c :: s =>
      if c =? d then [] :: split d s
      else match split d s with
           | [] => [[c]]
           | p :: ps => (c :: p) :: ps
           end
  end.

(** [str::splitn]. *)
Fixpoint splitn (n : nat) (d : Z) (s : text) : list text :=
  match n with
  | O => []
  | S O => [s]
  | S n => match split_once d s with
           | None => [s]
           | Some (a, b) => a :: splitn n d b
           end
  end.

Definition ascii_lowercase (c : Z) : Z := if between 65 90 c then c + 32 else c.
Definition eq_ignore_ascii_case (a b : text) : bool :=
  bool_decide (ascii_lowercase <$> a = ascii_lowercase <$> b).

Fixpoint starts_with {A} `{EqDecision A} (pre s : list A) : bool :=
  match pre, s with
  | [], _ => true
  | p :: pre, c :: s => bool_decide (p = c) && starts_with pre s
  | _ :: _, [] => false
  end.

(** ** Integers *)

(** [char::to_digit]. *)
Definition to_digit (radix c : Z) : option Z :=
  let d := if between 48 57 c then c - 48
           else if between 97 122 c then c - 87
           else if between 65 90 c then c - 55
           else radix in
  if d <? radix then Some d else None.

Fixpoint parse_digits (radix max acc : Z) (s : text) : option Z :=
  match s with
  | [] => Some acc
  | c :: s =>
      d ← to_digit radix c;
      if acc * radix + d <=? max then parse_digits radix max (acc * radix + d) s else None
  end.

(** [from_str_radix] of an unsigned type with maximum [max]: a leading [+] is
    skipped, a lone sign is an error. *)
Definition from_str_radix (radix max : Z) (s : text) : option Z :=
  match s with
  | [] => None
  | [43] => None
  | [45] => None
  | 43 :: s => parse_digits radix max 0 s
  | s => parse_digits radix max 0 s
  end.
(** [str::parse]. *)
Definition parse_uint (max : Z) (s : text) : option Z := from_str_radix 10 max s.

Definition digit_char (d : Z) : Z := if d <? 10 then 48 + d else 87 + d.
Fixpoint show_loop (fuel : nat) (radix n : Z) (acc : text) : text :=
  match fuel with
  | O => acc
  | S fuel =>
      let acc := digit_char (n mod radix) :: acc in
      if n / radix =? 0 then acc else show_loop fuel radix (n / radix) acc
  end.
(** [{}] and [{:x}] of an unsigned integer of at most 64 bits. *)
Definition show_radix (radix n : Z) : text := show_loop 64 radix n [].
Definition show_dec : Z → text := show_radix 10.
Definition show_hex : Z → text := show_radix 16.
