(* ===== verification/TextProps.v ===== *)
(** * Properties of the string operations *)

From S2P Require Import Prelude Text.

Ltac div_lia := Z.to_euclidean_division_equations; lia.

(** ** UTF-8 *)

(** The branches of [from_utf8] by the length of the sequence. *)
Lemma from_utf8_two b0 b1 rest : 0xc2 ≤ b0 ≤ 0xdf → 0x80 ≤ b1 ≤ 0xbf →
  from_utf8 (b0 :: b1 :: rest) = ((b0 - 0xc0) * 0x40 + (b1 - 0x80) ::.) <$> from_utf8 rest.
Proof.
  intros H0 H1. cbn [from_utf8]. rewrite (proj2 (Z.ltb_ge _ _)) by lia.
  replace (between 0xc2 0xdf b0 && continuation b1) with true; [done|].
  unfold continuation, between. lia.
Qed.

Lemma from_utf8_three b0 b1 b2 rest : 0xe0 ≤ b0 ≤ 0xef → second_of_three b0 b1 = true →
  0x80 ≤ b2 ≤ 0xbf →
  from_utf8 (b0 :: b1 :: b2 :: rest) =
    ((b0 - 0xe0) * 0x1000 + (b1 - 0x80) * 0x40 + (b2 - 0x80) ::.) <$> from_utf8 rest.
Proof.
  intros H0 H1 H2. cbn [from_utf8]. rewrite (proj2 (Z.ltb_ge _ _)) by lia.
  replace (between 0xc2 0xdf b0) with false by (unfold between; lia). cbn [andb]. rewrite H1.
  replace (continuation b2) with true; [done|]. unfold continuation, between. lia.
Qed.

Lemma from_utf8_four b0 b1 b2 b3 rest : 0xf0 ≤ b0 ≤ 0xf4 → second_of_four b0 b1 = true →
  0x80 ≤ b2 ≤ 0xbf → 0x80 ≤ b3 ≤ 0xbf →
  from_utf8 (b0 :: b1 :: b2 :: b3 :: rest) =
    ((b0 - 0xf0) * 0x40000 + (b1 - 0x80) * 0x1000 + (b2 - 0x80) * 0x40 + (b3 - 0x80) ::.)
      <$> from_utf8 rest.
Proof.
  intros H0 H1 H2 H3. cbn [from_utf8]. rewrite (proj2 (Z.ltb_ge _ _)) by lia.
  replace (between 0xc2 0xdf b0) with false by (unfold between; lia). cbn [andb].
  replace (second_of_three b0 b1) with false by (unfold second_of_three, between; repeat dif; lia). cbn [andb].
  rewrite H1. replace (continuation b2 && continuation b3) with true by (unfold continuation, between; lia).
  by replace (true && continuation b2 && continuation b3) with true by (unfold continuation, between; lia).
Qed.

Lemma from_utf8_char c rest : is_char c →
  from_utf8 (char_utf8 c ++ rest) = (c ::.) <$> from_utf8 rest.
Proof.
  intros [Hc Hs]. unfold char_utf8.
  destruct (Z.ltb_spec c 0x80); [cbn; by rewrite (proj2 (Z.ltb_lt _ _)) by lia|].
  destruct (Z.ltb_spec c 0x800).
  { cbn [app]. rewrite from_utf8_two by div_lia. f_equal. f_equal. div_lia. }
  destruct (Z.ltb_spec c 0x10000); cbn [app].
  - rewrite from_utf8_three; [f_equal; f_equal; div_lia|div_lia| |div_lia].
    unfold second_of_three, continuation, between. repeat case_match; div_lia.
  - rewrite from_utf8_four; [f_equal; f_equal; div_lia|div_lia| |div_lia..].
    unfold second_of_four, continuation, between. repeat case_match; div_lia.
Qed.

Lemma from_utf8_app s rest : Forall is_char s →
  from_utf8 (as_bytes s ++ rest) = (s ++.) <$> from_utf8 rest.
Proof.
  induction 1 as [|c s Hc Hs IH]; cbn; [by destruct (from_utf8 rest)|].
  change (concat (char_utf8 <$> s)) with (as_bytes s).
  rewrite <-app_assoc, from_utf8_char, IH by done. by destruct (from_utf8 rest).
Qed.

Lemma from_utf8_as_bytes s : Forall is_char s → from_utf8 (as_bytes s) = Some s.
Proof. intros Hs. rewrite <-(app_nil_r (as_bytes s)), from_utf8_app by done. cbn. by rewrite app_nil_r. Qed.

Definition ascii (s : text) : Prop := Forall (λ c, 0 ≤ c < 0x80) s.

Lemma as_bytes_app s1 s2 : as_bytes (s1 ++ s2) = as_bytes s1 ++ as_bytes s2.
Proof. unfold as_bytes. by rewrite fmap_app, concat_app. Qed.

Lemma as_bytes_ascii s : ascii s → as_bytes s = s.
Proof.
  induction 1 as [|c s Hc Hs IH]; [done|]. change (char_utf8 c ++ as_bytes s = c :: s).
  rewrite IH. unfold char_utf8. by rewrite (proj2 (Z.ltb_lt _ _)) by lia.
Qed.

Lemma ascii_chars s : ascii s → Forall is_char s.
Proof. intros Hs. eapply Forall_impl; [exact Hs|]. unfold is_char. cbn. lia. Qed.

Lemma from_utf8_ascii s : ascii s → from_utf8 s = Some s.
Proof. intros Hs. rewrite <-(as_bytes_ascii s Hs) at 1. by apply from_utf8_as_bytes, ascii_chars. Qed.

(** ** Splitting and trimming *)

Lemma split_once_spec d a b : d ∉ a → split_once d (a ++ d :: b) = Some (a, b).
Proof.
  induction a as [|c a IH]; cbn; intros Hd; [by rewrite Z.eqb_refl|].
  apply not_elem_of_cons in Hd as [Hc Ha]. rewrite (proj2 (Z.eqb_neq _ _)) by done. by rewrite IH.
Qed.

Lemma split_none d s : d ∉ s → split d s = [s].
Proof.
  induction s as [|c s IH]; cbn; intros Hd; [done|].
  apply not_elem_of_cons in Hd as [Hc Hs]. rewrite (proj2 (Z.eqb_neq _ _)) by done. by rewrite IH.
Qed.

(** A text that does not begin or end with whitespace. *)
Definition trimmed (s : text) : Prop := trim_start s = s ∧ trim_start (rev s) = rev s.

Lemma trim_trimmed s : trimmed s → trim s = s.
Proof. intros [H1 H2]. unfold trim. by rewrite H1, H2, rev_involutive. Qed.

Lemma trim_space s : trimmed s → trim (32 :: s) = s.
Proof. intros Hs. exact (trim_trimmed s Hs). Qed.

Lemma no_whitespace_trimmed s : Forall (λ c, is_whitespace c = false) s → trimmed s.
Proof.
  intros Hs. assert (H : ∀ l, Forall (λ c, is_whitespace c = false) l → trim_start l = l).
  { intros l [|c l' Hc _]; cbn; [done|by rewrite Hc]. }
  split; apply H; [done|by apply Forall_rev].
Qed.

(** ** Integers *)

Lemma parse_digits_app radix max acc s1 s2 :
  parse_digits radix max acc (s1 ++ s2) = parse_digits radix max acc s1 ≫= λ v, parse_digits radix max v s2.
Proof.
  revert acc. induction s1 as [|c s1 IH]; intros acc; cbn; [done|].
  destruct (to_digit radix c); cbn; [|done]. destruct (_ <=? _); [apply IH|done].
Qed.

Lemma to_digit_char radix d : 0 ≤ d < radix → radix ≤ 36 → to_digit radix (digit_char d) = Some d.
Proof.
  intros Hd Hr. unfold to_digit, digit_char, between. destruct (Z.ltb_spec d 10).
  - replace ((48 <=? 48 + d) && (48 + d <=? 57)) with true by lia.
    rewrite (proj2 (Z.ltb_lt _ _)) by lia. f_equal. lia.
  - replace ((48 <=? 87 + d) && (87 + d <=? 57)) with false by lia.
    replace ((97 <=? 87 + d) && (87 + d <=? 122)) with true by lia.
    rewrite (proj2 (Z.ltb_lt _ _)) by lia. f_equal. lia.
Qed.

Section Show.
Context (radix max : Z) (Hr : 2 ≤ radix ≤ 36).

Lemma show_loop_spec fuel : ∀ n acc, 0 ≤ n < radix ^ Z.of_nat fuel → n ≤ max →
  ∃ ds, show_loop fuel radix n acc = ds ++ acc ∧ parse_digits radix max 0 ds = Some n ∧
    (0 < Z.of_nat fuel → ds ≠ []) ∧ Forall (λ c, 48 ≤ c ≤ 57 ∨ 97 ≤ c ≤ 122) ds.
Proof.
  induction fuel as [|fuel IH]; intros n acc Hn Hm.
  { exists []. cbn in *. split_and!; [done|f_equal; lia|lia|constructor]. }
  rewrite Nat2Z.inj_succ, Z.pow_succ_r in Hn by lia. cbn [show_loop].
  pose proof (Z.mod_pos_bound n radix ltac:(lia)). pose proof (Z.div_mod n radix ltac:(lia)).
  assert (Hc : 48 ≤ digit_char (n mod radix) ≤ 57 ∨ 97 ≤ digit_char (n mod radix) ≤ 122)
    by (unfold digit_char; dif; lia).
  assert (Hd : to_digit radix (digit_char (n mod radix)) = Some (n mod radix)) by (apply to_digit_char; lia).
  destruct (Z.eqb_spec (n / radix) 0) as [E|E].
  - exists [digit_char (n mod radix)]. split_and!; [done| |done|by apply Forall_singleton].
    cbn. rewrite Hd. cbn. rewrite (proj2 (Z.leb_le _ _)) by lia. f_equal. nia.
  - assert (0 ≤ n / radix < radix ^ Z.of_nat fuel) by (split; [apply Z.div_pos; lia|apply Z.div_lt_upper_bound; lia]).
    assert (n / radix ≤ n) by (apply Z.div_le_upper_bound; nia).
    destruct (IH (n / radix) (digit_char (n mod radix) :: acc)) as (ds & Eds & Hp & Hne & Hds); [done|lia|].
    exists (ds ++ [digit_char (n mod radix)]). split_and!.
    + by rewrite Eds, <-app_assoc.
    + rewrite parse_digits_app, Hp. cbn. rewrite Hd. cbn. rewrite (proj2 (Z.leb_le _ _)) by nia. f_equal. nia.
    + by destruct ds.
    + apply Forall_app. split; [done|by apply Forall_singleton].
Qed.
End Show.

Lemma show_parses radix max n : 2 ≤ radix ≤ 36 → 0 ≤ n ≤ U64_MAX → n ≤ max →
  from_str_radix radix max (show_radix radix n) = Some n ∧ show_radix radix n ≠ [] ∧
  Forall (λ c, 48 ≤ c ≤ 57 ∨ 97 ≤ c ≤ 122) (show_radix radix n).
Proof.
  intros Hr Hn Hm. unfold show_radix.
  destruct (show_loop_spec radix max Hr 64 n []) as (ds & -> & Hp & Hne & Hds); [|done|].
  { split; [lia|]. apply Z.lt_le_trans with (2 ^ 64); [unfold U64_MAX in Hn; lia|].
    change (Z.of_nat 64) with 64. apply Z.pow_le_mono_l. lia. }
  rewrite app_nil_r. specialize (Hne ltac:(lia)). split_and!; [|done..].
  destruct Hds as [|c ds Hc Hds]; [done|]. unfold from_str_radix.
  destruct (decide (c = 43)) as [->|]; [lia|]. destruct (decide (c = 45)) as [->|]; [lia|].
  repeat case_match; subst; done.
Qed.

Lemma parse_digits_bounds radix max s : 0 < radix → ∀ acc v, 0 ≤ acc ≤ max →
  parse_digits radix max acc s = Some v → 0 ≤ v ≤ max.
Proof.
  intros Hr. induction s as [|c s IH]; intros acc v Ha; cbn; [by intros [= <-]|].
  destruct (to_digit radix c) as [d|] eqn:Ed; [|done]. cbn. destruct (Z.leb_spec (acc * radix + d) max); [|done].
  apply IH. split; [|done]. assert (0 ≤ d); [|nia].
  revert Ed. unfold to_digit, between. repeat case_match; intros [= <-]; lia.
Qed.

Lemma from_str_radix_bounds radix max s v : 0 < radix → 0 ≤ max →
  from_str_radix radix max s = Some v → 0 ≤ v ≤ max.
Proof.
  intros Hr Hm. unfold from_str_radix. repeat case_match; try done; subst; apply parse_digits_bounds; lia.
Qed.

Lemma show_loop_length radix fuel : 2 ≤ radix → ∀ k n acc, (0 < k)%nat → 0 ≤ n < radix ^ Z.of_nat k →
  (length (show_loop fuel radix n acc) ≤ k + length acc)%nat.
Proof.
  intros Hr. induction fuel as [|fuel IH]; intros k n acc Hk Hn; cbn [show_loop]; [lia|].
  destruct (Z.eqb_spec (n / radix) 0) as [E|E]; [cbn; lia|].
  destruct k as [|k]; [lia|]. rewrite Nat2Z.inj_succ, Z.pow_succ_r in Hn by lia.
  assert (0 ≤ n / radix < radix ^ Z.of_nat k) by (split; [apply Z.div_pos; lia|apply Z.div_lt_upper_bound; lia]).
  destruct k as [|k]; [cbn in *; lia|].
  specialize (IH (S k) (n / radix) (digit_char (n mod radix) :: acc) ltac:(lia) H). cbn [length] in *. lia.
Qed.

Lemma show_hex_spec n : 0 ≤ n ≤ U64_MAX →
  from_str_radix 16 USIZE_MAX (show_hex n) = Some n ∧ show_hex n ≠ [] ∧ len (show_hex n) ≤ 16 ∧
  Forall (λ c, 48 ≤ c ≤ 57 ∨ 97 ≤ c ≤ 122) (show_hex n).
Proof.
  intros Hn. destruct (show_parses 16 USIZE_MAX n) as (? & ? & ?); [lia|done|unfold USIZE_MAX, U64_MAX in *; lia|].
  split_and!; [done|done| |done]. unfold show_hex, show_radix, len.
  pose proof (show_loop_length 16 64 ltac:(lia) 16 n [] ltac:(lia)) as Hl. change (16 ^ Z.of_nat 16) with (2 ^ 64) in Hl.
  unfold U64_MAX in Hn. specialize (Hl ltac:(lia)). cbn [length] in Hl. lia.
Qed.
