(* ===== verification/HttpError.v ===== *)
(** * HTTP errors and line endings (starfish-http/src/error.rs, h1/mod.rs)

    The payloads of [Io], [Tls] and [Quic] are errors of other crates, which no
    modelled operation inspects. *)

From S2P Require Import Prelude Text.

Inductive HttpError :=
  | Io | Tls | Quic
  | Parse (m : message)
  | HeaderTooLarge
  | InvalidChunkEncoding
  | UnexpectedEof
  | ConnectionClosed
  | Timeout
  | Qpack (m : message).

Definition hres := result HttpError.

(** [strip_line_ending]: the line before a trailing LF or CRLF. *)
Definition strip_line_ending (buf : bytes) : option bytes :=
  match rev buf with
  | 10 :: 13 :: l => Some (rev l)
  | 10 :: l => Some (rev l)
  | _ => None
  end.
