(* ===== verification/H1Parser.v ===== *)
(** * HTTP/1.1 parsing (starfish-http/src/h1/parser.rs)

    [ResponseParser] and [RequestParser] have the same fields but for the first
    line, and the same methods but for the first line, the choice of the body
    kind and the reading of a body: a [Dialect] holds what differs. *)

From S2P Require Import Prelude Text HttpError.

Definition MAX_HEADER_SIZE : Z := 8 * 1024.
Definition MAX_CHUNK_SIZE_LINE : Z := 64.

Inductive BodyKind := ContentLength (n : Z) | Chunked | UntilClose | NoBody.

Inductive ParseState :=
  | RequestLine | StatusLine | HeaderLine | Body | ChunkSize
  | ChunkData (remaining : Z) | ChunkTrailer | Complete.

#[export] Instance ParseState_eq_dec : EqDecision ParseState.
Proof. solve_decision. Defined.
#[export] Instance BodyKind_eq_dec : EqDecision BodyKind.
Proof. solve_decision. Defined.

(** ** The parser's state *)

Record Parser (H : Type) := {
  state : ParseState;
  buf : bytes;
  head : H;
  headers : list (text * text);
  body : bytes;
  body_kind : BodyKind;
  body_remaining : Z;
  header_bytes_read : Z;
  saw_last_chunk : bool;
}.
Arguments state {H}. Arguments buf {H}. Arguments head {H}. Arguments headers {H}. Arguments body {H}.
Arguments body_kind {H}. Arguments body_remaining {H}. Arguments header_bytes_read {H}.
Arguments saw_last_chunk {H}.

Section Setters.
Context {H : Type}.
Implicit Type p : Parser H.

Definition with_state (st : ParseState) p : Parser H :=
  {| state := st; buf := buf p; head := head p; headers := headers p; body := body p;
     body_kind := body_kind p; body_remaining := body_remaining p;
     header_bytes_read := header_bytes_read p; saw_last_chunk := saw_last_chunk p |}.
Definition with_buf (b : bytes) p : Parser H :=
  {| state := state p; buf := b; head := head p; headers := headers p; body := body p;
     body_kind := body_kind p; body_remaining := body_remaining p;
     header_bytes_read := header_bytes_read p; saw_last_chunk := saw_last_chunk p |}.
Definition with_head (h : H) p : Parser H :=
  {| state := state p; buf := buf p; head := h; headers := headers p; body := body p;
     body_kind := body_kind p; body_remaining := body_remaining p;
     header_bytes_read := header_bytes_read p; saw_last_chunk := saw_last_chunk p |}.
Definition with_headers (hs : list (text * text)) p : Parser H :=
  {| state := state p; buf := buf p; head := head p; headers := hs; body := body p;
     body_kind := body_kind p; body_remaining := body_remaining p;
     header_bytes_read := header_bytes_read p; saw_last_chunk := saw_last_chunk p |}.
Definition with_body (b : bytes) p : Parser H :=
  {| state := state p; buf := buf p; head := head p; headers := headers p; body := b;
     body_kind := body_kind p; body_remaining := body_remaining p;
     header_bytes_read := header_bytes_read p; saw_last_chunk := saw_last_chunk p |}.
Definition with_framing (k : BodyKind) (remaining : Z) p : Parser H :=
  {| state := state p; buf := buf p; head := head p; headers := headers p; body := body p;
     body_kind := k; body_remaining := remaining;
     header_bytes_read := header_bytes_read p; saw_last_chunk := saw_last_chunk p |}.
Definition with_counted (n : Z) p : Parser H :=
  {| state := state p; buf := buf p; head := head p; headers := headers p; body := body p;
     body_kind := body_kind p; body_remaining := body_remaining p;
     header_bytes_read := n; saw_last_chunk := saw_last_chunk p |}.
Definition with_last_chunk (b : bool) p : Parser H :=
  {| state := state p; buf := buf p; head := head p; headers := headers p; body := body p;
     body_kind := body_kind p; body_remaining := body_remaining p;
     header_bytes_read := header_bytes_read p; saw_last_chunk := b |}.
End Setters.

Definition parser_new {H} (st : ParseState) (h : H) : Parser H :=
  {| state := st; buf := []; head := h; headers := []; body := []; body_kind := NoBody;
     body_remaining := 0; header_bytes_read := 0; saw_last_chunk := false |}.

(** ** Header fields *)

(** The value of the first field with this name. *)
Fixpoint find_header (name : text) (headers : list (text * text)) : option text :=
  match headers with
  | [] => None
  | (k, v) :: headers => if eq_ignore_ascii_case k name then Some v else find_header name headers
  end.

(** The values of all fields with this name, in order. *)
Definition header_values (name : text) (headers : list (text * text)) : list text :=
  snd <$> filter (λ h, eq_ignore_ascii_case h.1 name = true) headers.

Definition parse_keep_alive_max_param (param : text) : option Z :=
  '(key, val) ← split_once 61 (trim param);
  if eq_ignore_ascii_case (trim key) (str "max") then parse_uint U64_MAX (trim val) else None.

Fixpoint first_some {A B} (f : A → option B) (l : list A) : option B :=
  match l with
  | [] => None
  | x :: l => match f x with Some y => Some y | None => first_some f l end
  end.

Definition parse_keep_alive_max (headers : list (text * text)) : option Z :=
  ka_value ← find_header (str "keep-alive") headers;
  first_some parse_keep_alive_max_param (split 44 ka_value).

Definition has_final_chunked_transfer_coding (headers : list (text * text)) : bool :=
  let codings := trim <$> (header_values (str "transfer-encoding") headers ≫= split 44) in
  match last (filter (λ c, c ≠ []) codings) with
  | Some coding => eq_ignore_ascii_case coding (str "chunked")
  | None => false
  end.

(** One element of the list of one field. *)
Definition parse_content_length_item (value : text) (parsed : option Z) (raw : text) : hres (option Z) :=
  match parse_uint U64_MAX (trim raw) with
  | None => Err (Parse (Msg "invalid Content-Length: {value}" value))
  | Some n =>
      match parsed with
      | Some existing =>
          if negb (existing =? n) then
            Err (Parse (Msg "conflicting Content-Length headers: {existing} vs {len}" [existing; n]))
          else Ok parsed
      | None => Ok (Some n)
      end
  end.

Definition parse_content_length (headers : list (text * text)) : hres (option Z) :=
  foldM (λ parsed value, foldM (parse_content_length_item value) parsed (split 44 value))
    None (header_values (str "content-length") headers).

(** ** Reading lines *)

Section Lines.
Context {H : Type}.
Notation M := (stM (Parser H) HttpError).

(** The loop of every method that reads a line: a byte is pushed, [limit] counts
    and checks it, and [finish] gets the line when it is complete.  Returns the
    number of bytes consumed. *)
Fixpoint line_loop (limit : M unit) (finish : bytes → M unit) (data : bytes) (i : Z) : M Z :=
  match data with
  | [] => mret i
  | b :: data =>
      modify (λ p, with_buf (buf p ++ [b]) p) ;;
      limit ;;
      content ← gets (λ p, strip_line_ending (buf p));
      match content with
      | Some content => finish content ;; mret (i + 1)
      | None => line_loop limit finish data (i + 1)
      end
  end.

Definition header_limit : M unit :=
  modify (λ p, with_counted (header_bytes_read p + 1) p) ;;
  n ← gets header_bytes_read;
  if MAX_HEADER_SIZE <? n then fail HeaderTooLarge else mret tt.

Definition chunk_limit : M unit :=
  n ← gets (λ p, len (buf p));
  if MAX_CHUNK_SIZE_LINE <? n then fail InvalidChunkEncoding else mret tt.

Definition header_line (determine : M unit) (content : bytes) : M unit :=
  match content with
  | [] => modify (with_buf []) ;; determine
  | _ =>
      line ← lift (ok_or (Parse (msg "invalid UTF-8 in header")) (from_utf8 content));
      match split_once 58 line with
      | Some (name, value) =>
          modify (λ p, with_headers (headers p ++ [(trim name, trim value)]) p) ;;
          modify (with_buf [])
      | None => fail (Parse (Msg "malformed header: {line}" line))
      end
  end.

(** [line.split(';').next()]: the part before an extension. *)
Definition before_extension (line : text) : text :=
  match split 59 line with [] => [] | s :: _ => s end.

Definition chunk_size_line (content : bytes) : M unit :=
  line ← lift (ok_or InvalidChunkEncoding (from_utf8 content));
  size ← lift (ok_or InvalidChunkEncoding (from_str_radix 16 USIZE_MAX (trim (before_extension line))));
  modify (with_buf []) ;;
  if size =? 0 then modify (with_last_chunk true) ;; modify (with_state ChunkTrailer)
  else modify (with_state (ChunkData size)).

Definition trailer_line (_ : bytes) : M unit :=
  modify (with_buf []) ;;
  last ← gets saw_last_chunk;
  modify (with_state (if (last : bool) then Complete else ChunkSize)).

Definition parse_header_line (determine : M unit) (data : bytes) : M Z :=
  line_loop header_limit (header_line determine) data 0.
Definition parse_chunk_size (data : bytes) : M Z := line_loop chunk_limit chunk_size_line data 0.
Definition skip_chunk_trailer (data : bytes) : M Z := line_loop (mret tt) trailer_line data 0.

Definition read_chunk_data (data : bytes) : M Z :=
  st ← gets state;
  match st with
  | ChunkData remaining =>
      let n := Z.min (len data) remaining in
      d ← lift (slice data 0 n);
      modify (λ p, with_body (body p ++ d) p) ;;
      modify (with_state (if remaining - n =? 0 then ChunkTrailer else ChunkData (remaining - n))) ;;
      mret n
  | _ => mret 0
  end.

(** Reading a body of known length. *)
Definition read_fixed_body (data : bytes) : M Z :=
  remaining ← gets body_remaining;
  let want := Z.min remaining (len data) in
  d ← lift (slice data 0 want);
  modify (λ p, with_body (body p ++ d) p) ;;
  rem ← lift (sub_u64 remaining want);
  modify (λ p, with_framing (body_kind p) rem p) ;;
  (if rem =? 0 then modify (with_state Complete) else mret tt) ;;
  mret want.

(** The choice by Content-Length, common to both [determine_body_kind]. *)
Definition fixed_body (n : Z) : M unit :=
  if n =? 0 then modify (λ p, with_framing NoBody (body_remaining p) p) ;; modify (with_state Complete)
  else modify (with_framing (ContentLength n) n) ;; modify (with_state Body).

Definition chunked_body : M unit :=
  modify (λ p, with_framing Chunked (body_remaining p) p) ;; modify (with_state ChunkSize).

(** ** Feeding *)

(** What a [Dialect] of the parser adds. *)
Record Dialect := {
  first_state : ParseState;
  first_line : bytes → M unit;
  determine_body_kind : M unit;
  read_body : bytes → M Z;
}.

Context (D : Dialect).

Definition parse_first_line (data : bytes) : M Z := line_loop header_limit (first_line D) data 0.

Definition feed_step (data : bytes) : M Z :=
  st ← gets state;
  match st with
  | HeaderLine => parse_header_line (determine_body_kind D) data
  | Body => read_body D data
  | ChunkSize => parse_chunk_size data
  | ChunkData _ => read_chunk_data data
  | ChunkTrailer => skip_chunk_trailer data
  | Complete => mret 0
  | RequestLine | StatusLine =>
      if bool_decide (st = first_state D) then parse_first_line data
      else fail (Parse (msg "unexpected parser state"))
  end.

(** The loop of [feed] from position [pos]; it is left before a step in
    [Complete].  A step that consumes nothing repeats. *)
Fixpoint feed_loop (fuel : nat) (data : bytes) (pos : Z) : M (Z * bool) :=
  st ← gets state;
  if (pos <? len data) && negb (bool_decide (st = Complete)) then
    match fuel with
    | O => lift Diverge
    | S fuel =>
        rest ← lift (slice_from data pos);
        n ← feed_step rest;
        feed_loop fuel data (pos + n)
    end
  else mret (pos, bool_decide (st = Complete)).

Definition feed (data : bytes) : M (Z * bool) := feed_loop (length data) data 0.

Definition is_complete (p : Parser H) : bool := bool_decide (state p = Complete).
End Lines.

(** [Connection] and the version decide whether the connection is kept. *)
Definition keep_alive_by (version : option Z) (headers : list (text * text)) : bool :=
  let conn_header := find_header (str "connection") headers in
  let is_token s := match conn_header with Some v => eq_ignore_ascii_case v (str s) | None => false end in
  match version with
  | Some 1 => negb (is_token "close")
  | _ => is_token "keep-alive"
  end.

(** [&line[a..b]] of a [str] given by its bytes: a panic off a char boundary. *)
Definition is_char_boundary (b : bytes) (i : Z) : bool :=
  (i =? 0) || (i =? len b) ||
  match b !! Z.to_nat i with Some x => negb (continuation x) | None => false end.
Definition str_slice {E} (line : bytes) (a b : Z) : result E bytes :=
  if is_char_boundary line a && is_char_boundary line b then slice line a b else Panic.

Definition version_digit {H} (version_byte : Z) : stM (Parser H) HttpError Z :=
  if negb (version_byte =? 48) && negb (version_byte =? 49) then
    fail (Parse (Msg "unsupported HTTP version: HTTP/1.{}" [version_byte]))
  else mret (version_byte - 48).

(** ** Responses *)

Module Response.
Record Head := { status : option Z; version : option Z }.
Definition ResponseParser := Parser Head.
Notation M := (stM ResponseParser HttpError).

Definition new : ResponseParser := parser_new StatusLine {| status := None; version := None |}.

Definition status_line (content : bytes) : M unit :=
  line ← lift (ok_or (Parse (msg "invalid UTF-8 in status line")) (from_utf8 content));
  if (len content <? 12) || negb (starts_with (str "HTTP/1.") content) then
    fail (Parse (Msg "invalid status line: {line}" line))
  else
    version_byte ← lift (index content 7);
    v ← version_digit version_byte;
    modify (λ p, with_head {| status := status (head p); version := Some v |} p) ;;
    status_str ← lift (str_slice content 9 12);
    code ← lift (ok_or (Parse (Msg "invalid status: {status_str}" status_str))
                   (from_utf8 status_str ≫= parse_uint U16_MAX));
    modify (λ p, with_head {| status := Some code; version := version (head p) |} p) ;;
    modify (with_buf []) ;;
    modify (with_state HeaderLine).

(** Informational responses, 204 and 304 have no body. *)
Definition bodiless (status : option Z) : bool :=
  match status with
  | Some s => ((100 <=? s) && (s <? 200)) || (s =? 204) || (s =? 304)
  | None => false
  end.

Definition determine_body_kind : M unit :=
  h ← gets head;
  if bodiless (status h) then
    modify (λ p, with_framing NoBody (body_remaining p) p) ;; modify (with_state Complete)
  else
    hs ← gets headers;
    if has_final_chunked_transfer_coding hs then chunked_body
    else
      n ← lift (parse_content_length hs);
      match n with
      | Some n => fixed_body n
      | None => modify (λ p, with_framing UntilClose (body_remaining p) p) ;; modify (with_state Body)
      end.

Definition read_body (data : bytes) : M Z :=
  k ← gets body_kind;
  match k with
  | ContentLength _ => read_fixed_body data
  | UntilClose => modify (λ p, with_body (body p ++ data) p) ;; mret (len data)
  | _ => mret 0
  end.

Definition dialect : Dialect (H := Head) :=
  {| first_state := StatusLine; first_line := status_line;
     H1Parser.determine_body_kind := determine_body_kind; H1Parser.read_body := read_body |}.

Definition feed (data : bytes) : M (Z * bool) := H1Parser.feed dialect data.

Definition keep_alive (p : ResponseParser) : bool := keep_alive_by (version (head p)) (headers p).
Definition keep_alive_max (p : ResponseParser) : option Z := parse_keep_alive_max (headers p).

Definition is_head_complete (p : ResponseParser) : bool :=
  match status (head p), state p with
  | Some _, (Body | ChunkSize | ChunkData _ | ChunkTrailer | Complete) => true
  | _, _ => false
  end.

Definition complete_without_body (p : ResponseParser) : ResponseParser :=
  if negb (is_head_complete p) then p
  else with_state Complete (with_last_chunk false (with_framing NoBody 0 (with_body [] (with_buf [] p)))).

Definition signal_eof (p : ResponseParser) : ResponseParser :=
  if bool_decide (body_kind p = UntilClose) then with_state Complete p else p.

(** [take_response], for the [http] crate's status check and builder. *)
Definition take_response {S R} (from_u16 : Z → option S) (build : S → Z → list (text * text) → bytes → option R)
    : M R :=
  h ← gets head;
  code ← lift (ok_or (Parse (msg "no status code")) (status h));
  st ← lift (ok_or (Parse (msg "invalid status: {e}")) (from_u16 code));
  hs ← gets headers;
  b ← gets body;
  modify (with_body []) ;;
  lift (ok_or (Parse (msg "build response: {e}"))
          (build st (match version h with Some 0 => 0 | _ => 1 end) hs b)).
End Response.

(** ** Requests *)

Module Request.
Record Head := { method : option text; uri : option text; version : option Z }.
Definition RequestParser := Parser Head.
Notation M := (stM RequestParser HttpError).

Definition new : RequestParser := parser_new RequestLine {| method := None; uri := None; version := None |}.

Definition request_line (content : bytes) : M unit :=
  line ← lift (ok_or (Parse (msg "invalid UTF-8 in request line")) (from_utf8 content));
  match splitn 3 32 line with
  | [method; uri; version_str] =>
      if negb (starts_with (str "HTTP/1.") version_str) then
        fail (Parse (Msg "unsupported version: {version_str}" version_str))
      else
        version_byte ← lift (index (as_bytes version_str) 7);
        v ← version_digit version_byte;
        modify (with_head {| method := Some method; uri := Some uri; version := Some v |}) ;;
        modify (with_buf []) ;;
        modify (with_state HeaderLine)
  | [_; _] => fail (Parse (msg "missing HTTP version"))
  | [_] => fail (Parse (msg "missing URI"))
  | _ => fail (Parse (msg "missing method"))
  end.

Definition determine_body_kind : M unit :=
  hs ← gets headers;
  if has_final_chunked_transfer_coding hs then chunked_body
  else
    n ← lift (parse_content_length hs);
    match n with
    | Some n => fixed_body n
    | None => modify (λ p, with_framing NoBody (body_remaining p) p) ;; modify (with_state Complete)
    end.

Definition dialect : Dialect (H := Head) :=
  {| first_state := RequestLine; first_line := request_line;
     H1Parser.determine_body_kind := determine_body_kind; H1Parser.read_body := read_fixed_body |}.

Definition feed (data : bytes) : M (Z * bool) := H1Parser.feed dialect data.

Definition keep_alive (p : RequestParser) : bool := keep_alive_by (version (head p)) (headers p).
Definition keep_alive_max (p : RequestParser) : option Z := parse_keep_alive_max (headers p).

Definition reset (p : RequestParser) : RequestParser :=
  with_last_chunk false (with_counted 0 (with_framing NoBody 0 (with_body [] (with_headers []
    (with_head {| method := None; uri := None; version := None |} (with_buf [] (with_state RequestLine p))))))).

(** [take_request], for the [http] crate's parsing of the method and the URI and its builder. *)
Definition take_request {Me U R} (parse_method : text → option Me) (parse_uri : text → option U)
    (build : Me → U → Z → list (text * text) → bytes → option R) : M R :=
  h ← gets head;
  modify (λ p, with_head {| method := None; uri := uri (head p); version := version (head p) |} p) ;;
  m ← lift (ok_or (Parse (msg "no method")) (method h));
  m ← lift (ok_or (Parse (msg "invalid method: {e}")) (parse_method m));
  modify (λ p, with_head {| method := method (head p); uri := None; version := version (head p) |} p) ;;
  u ← lift (ok_or (Parse (msg "no URI")) (uri h));
  u ← lift (ok_or (Parse (msg "invalid URI: {e}")) (parse_uri u));
  hs ← gets headers;
  b ← gets body;
  modify (with_body []) ;;
  lift (ok_or (Parse (msg "build request: {e}"))
          (build m u (match version h with Some 0 => 0 | _ => 1 end) hs b)).
End Request.
