(* ===== verification/H1Codec.v ===== *)
(** * HTTP/1.1 serialization (starfish-http/src/h1/encoder.rs, h1/chunked.rs)

    Requests and responses of the [http] crate are records of what the encoder
    reads of them: the printed method and URI, the header map in its order with
    the result of [to_str] for each value, and the body. *)

From S2P Require Import Prelude Text HttpError.

(** ** encoder.rs *)

Record Message := { msg_headers : list (text * option text); msg_body : bytes }.

Definition contains_key (name : text) (headers : list (text * option text)) : bool :=
  existsb (λ h, bool_decide (h.1 = name)) headers.
Definition TRANSFER_ENCODING : text := str "transfer-encoding".
Definition CONTENT_LENGTH : text := str "content-length".

Definition has_transfer_encoding (headers : list (text * option text)) : bool :=
  contains_key TRANSFER_ENCODING headers.

Definition crlf : text := [13; 10].

Definition encode_header (h : text * option text) : text :=
  h.1 ++ str ": " ++ default [] h.2 ++ crlf.

(** The header lines; a Content-Length next to a Transfer-Encoding is left out. *)
Definition encode_headers (headers : list (text * option text)) : text :=
  concat (encode_header <$>
    filter (λ h, has_transfer_encoding headers = false ∨ h.1 ≠ CONTENT_LENGTH) headers).

Definition content_length_line (n : Z) : text := str "Content-Length: " ++ show_dec n ++ crlf.

Definition encode_request (method uri : text) (m : Message) : bytes :=
  let line := method ++ str " " ++ uri ++ str " HTTP/1.1" ++ crlf in
  let length_line :=
    if negb (has_transfer_encoding (msg_headers m)) && negb (contains_key CONTENT_LENGTH (msg_headers m))
       && negb (bool_decide (msg_body m = []))
    then content_length_line (len (msg_body m)) else [] in
  as_bytes (line ++ encode_headers (msg_headers m) ++ length_line ++ crlf) ++ msg_body m.

(** [canonical_reason] is the table of the [http] crate. *)
Definition encode_response (canonical_reason : Z → option text) (status : Z) (m : Message) : bytes :=
  let reason := default (str "Unknown") (canonical_reason status) in
  let line := str "HTTP/1.1 " ++ show_dec status ++ str " " ++ reason ++ crlf in
  let length_line :=
    if negb (has_transfer_encoding (msg_headers m)) && negb (contains_key CONTENT_LENGTH (msg_headers m))
    then content_length_line (len (msg_body m)) else [] in
  as_bytes (line ++ encode_headers (msg_headers m) ++ length_line ++ crlf) ++ msg_body m.

(** ** chunked.rs *)

Module Chunked.
Definition encode_chunk (data : bytes) : bytes :=
  match data with
  | [] => as_bytes (str "0" ++ crlf ++ crlf)
  | _ => as_bytes (show_hex (len data) ++ crlf) ++ data ++ as_bytes crlf
  end.
Definition encode_last_chunk : bytes := as_bytes (str "0" ++ crlf ++ crlf).

Inductive ChunkState := Size | Data (remaining : Z) | DataCrlf | FinalCrlf | Complete.
#[export] Instance ChunkState_eq_dec : EqDecision ChunkState.
Proof. solve_decision. Defined.

Record ChunkedDecoder := { state : ChunkState; buf : bytes; output : bytes }.
Notation M := (stM ChunkedDecoder HttpError).

Definition new : ChunkedDecoder := {| state := Size; buf := []; output := [] |}.

Definition with_state (st : ChunkState) (d : ChunkedDecoder) : ChunkedDecoder :=
  {| state := st; buf := buf d; output := output d |}.
Definition with_buf (b : bytes) (d : ChunkedDecoder) : ChunkedDecoder :=
  {| state := state d; buf := b; output := output d |}.
Definition with_output (b : bytes) (d : ChunkedDecoder) : ChunkedDecoder :=
  {| state := state d; buf := buf d; output := b |}.

Definition parse_size (content : bytes) : hres Z :=
  line ← ok_or InvalidChunkEncoding (from_utf8 content);
  let size_str := trim (match split 59 line with [] => [] | s :: _ => s end) in
  ok_or InvalidChunkEncoding (from_str_radix 16 USIZE_MAX size_str).

Fixpoint read_size (data : bytes) (i : Z) : M Z :=
  match data with
  | [] => mret i
  | b :: data =>
      modify (λ d, with_buf (buf d ++ [b]) d) ;;
      content ← gets (λ d, strip_line_ending (buf d));
      match content with
      | Some content =>
          size ← lift (parse_size content);
          modify (with_buf []) ;;
          modify (with_state (if size =? 0 then FinalCrlf else Data size)) ;;
          mret (i + 1)
      | None => read_size data (i + 1)
      end
  end.

Definition read_data (data : bytes) : M Z :=
  st ← gets state;
  match st with
  | Data remaining =>
      let n := Z.min (len data) remaining in
      d ← lift (slice data 0 n);
      modify (λ s, with_output (output s ++ d) s) ;;
      modify (with_state (if remaining - n =? 0 then DataCrlf else Data (remaining - n))) ;;
      mret n
  | _ => mret 0
  end.

Fixpoint read_crlf (data : bytes) (next_state : ChunkState) (i : Z) : M Z :=
  match data with
  | [] => mret i
  | b :: data =>
      modify (λ d, with_buf (buf d ++ [b]) d) ;;
      content ← gets (λ d, strip_line_ending (buf d));
      match content with
      | Some _ => modify (with_buf []) ;; modify (with_state next_state) ;; mret (i + 1)
      | None => read_crlf data next_state (i + 1)
      end
  end.

Definition decode_step (data : bytes) : M Z :=
  st ← gets state;
  match st with
  | Size => read_size data 0
  | Data _ => read_data data
  | DataCrlf => read_crlf data Size 0
  | FinalCrlf => read_crlf data Complete 0
  | Complete => mret 0
  end.

Fixpoint decode_loop (fuel : nat) (data : bytes) (pos : Z) : M (Z * bool) :=
  st ← gets state;
  if (pos <? len data) && negb (bool_decide (st = Complete)) then
    match fuel with
    | O => lift Diverge
    | S fuel =>
        rest ← lift (slice_from data pos);
        n ← decode_step rest;
        decode_loop fuel data (pos + n)
    end
  else mret (pos, bool_decide (st = Complete)).

Definition decode (data : bytes) : M (Z * bool) := decode_loop (length data) data 0.

Definition take_body (d : ChunkedDecoder) : bytes * ChunkedDecoder := (output d, with_output [] d).
End Chunked.
