(* ===== verification/H1ParserProps.v ===== *)
(** * Properties of the HTTP/1.1 parsers *)

From S2P Require Import Prelude Incremental Text TextProps HttpError H1Parser.

(** ** Lines *)

Section Lines.
Context {H : Type}.
Notation M := (stM (Parser H) HttpError).

(** [limit] looks at the counters only. *)
Definition limit_ok (limit : M unit) : Prop := ∀ p,
  let '(r, p') := limit p in
  r ≠ Diverge ∧ state p' = state p ∧ buf p' = buf p ∧ body_kind p' = body_kind p ∧ body_remaining p' = body_remaining p.

Lemma header_limit_ok : limit_ok header_limit.
Proof. intros p. unfold header_limit. rewrite modify_bind, gets_bind. destruct (_ <? _); by split_and!. Qed.
Lemma chunk_limit_ok : limit_ok chunk_limit.
Proof. intros p. unfold chunk_limit. rewrite gets_bind. destruct (_ <? _); by split_and!. Qed.
Lemma no_limit_ok : limit_ok (mret tt).
Proof. by intros p. Qed.

Lemma line_loop_shift limit finish data : ∀ i j (p : Parser H),
  line_loop limit finish data (j + i) p = (n ← line_loop limit finish data i; mret (j + n)) p.
Proof.
  induction data as [|b data IH]; intros i j p; cbn [line_loop]; unfold mbind, stM_bind, modify, gets; [done|].
  destruct (limit _) as [[[]| | |] p']; [|done..]. destruct (strip_line_ending (buf p')) as [c|].
  - destruct (finish c p') as [[[]| | |] p'']; [|done..]. cbn. by rewrite Z.add_assoc.
  - rewrite <-Z.add_assoc. apply IH.
Qed.

(** The state after one byte of a line. *)
Definition line_byte (limit : M unit) (finish : bytes → M unit) (b : Z) : M (option bytes) :=
  modify (λ p, with_buf (buf p ++ [b]) p) ;;
  limit ;;
  content ← gets (λ p, strip_line_ending (buf p));
  match content with
  | Some content => finish content ;; mret (Some content)
  | None => mret None
  end.

Lemma line_loop_byte limit finish b data i p :
  line_loop limit finish (b :: data) i p =
    (c ← line_byte limit finish b;
     match c with Some _ => mret (i + 1) | None => line_loop limit finish data (i + 1) end) p.
Proof.
  cbn [line_loop]. unfold line_byte, mbind, stM_bind, modify, gets.
  destruct (limit _) as [[[]| | |] p']; [|done..]. destruct (strip_line_ending (buf p')) as [c|]; [|done].
  by destruct (finish c p') as [[[]| | |] p''].
Qed.
End Lines.

(** ** Well-formed parsers *)

(** What a dialect promises: the kinds of body its [determine_body_kind] sets up
    are those its [read_body] reads. *)
Class DialectLaws {H} (D : Dialect (H := H)) := {
  body_ok : BodyKind → Z → Prop;
  first_state_line : first_state D = StatusLine ∨ first_state D = RequestLine;
  first_line_ok content p : let '(r, p') := first_line D content p in
    match r with Ok _ => state p' = HeaderLine | Diverge => False | _ => True end;
  determine_ok p : let '(r, p') := determine_body_kind D p in
    match r with
    | Ok _ => (state p' = Body ∧ body_ok (body_kind p') (body_remaining p')) ∨ state p' = ChunkSize ∨ state p' = Complete
    | Diverge => False
    | _ => True
    end;
  read_body_law p b data : state p = Body → body_ok (body_kind p) (body_remaining p) →
    ∃ p', read_body D [b] p = (Ok 1, p') ∧
      ((state p' = Complete ∧ read_body D (b :: data) p = (Ok 1, p')) ∨
       (state p' = Body ∧ body_ok (body_kind p') (body_remaining p') ∧
        read_body D (b :: data) p = match data with [] => (Ok 1, p') | _ => (m ← read_body D data; mret (1 + m)) p' end));
}.

Section WellFormed.
Context {H : Type} (D : Dialect (H := H)) {DL : DialectLaws D}.

Definition parser_ok (p : Parser H) : Prop :=
  match state p with
  | ChunkData remaining => 0 < remaining
  | Body => body_ok (body_kind p) (body_remaining p)
  | _ => True
  end.

Lemma feed_loop_eq fuel : ∀ data pos p,
  feed_loop D fuel data pos p = loop is_complete (feed_step D) fuel data pos p.
Proof.
  induction fuel as [|fuel IH]; intros data pos p; cbn [feed_loop loop]; rewrite !gets_bind; [done|].
  change (bool_decide (state p = Complete)) with (is_complete p). destruct (_ && _); [|done].
  unfold mbind, stM_bind, lift. destruct (slice_from data pos); [|done..].
  destruct (feed_step D a p) as [[n| | |] p']; [|done..]. apply IH.
Qed.

(** A state that reads a line. *)
Lemma line_law limit finish p b data : limit_ok limit →
  (∀ c q, state q = state p → let '(r, q') := finish c q in match r with Ok _ => parser_ok q' | Diverge => False | _ => True end) →
  (∀ l q, state q = state p → feed_step D l q = line_loop limit finish l 0 q) →
  is_complete p = false → (match state p with ChunkData _ | Body => False | _ => True end) →
  let '(r, p') := feed_step D [b] p in
  match r with
  | Ok n => n = 1 ∧ parser_ok p' ∧
      (feed_step D (b :: data) p = (Ok 1, p') ∨
       is_complete p' = false ∧
       feed_step D (b :: data) p = match data with [] => (Ok 1, p') | _ => (m ← feed_step D data; mret (1 + m)) p' end)
  | Diverge => False
  | _ => feed_step D (b :: data) p = (r, p')
  end.
Proof.
  intros Hl Hf Heq Hc Hst. rewrite !Heq, !line_loop_byte by done. unfold line_byte.
  unfold mbind, stM_bind, modify, gets. specialize (Hl (with_buf (buf p ++ [b]) p)).
  destruct (limit _) as [[[]| | |] p']; [|done|done|by destruct Hl]. destruct Hl as (_ & Es & _).
  destruct (strip_line_ending (buf p')) as [c|].
  - specialize (Hf c p' Es). destruct (finish c p') as [[[]| | |] p'']; [|done..]. split_and!; [done..|by left].
  - cbn in Es. assert (parser_ok p' ∧ is_complete p' = false) as [Hp' Hc'].
    { unfold parser_ok, is_complete in *. rewrite Es. by destruct (state p). }
    cbn. split_and!; [done..|]. right. split; [done|]. destruct data as [|b' data]; [done|].
    change (0 + 1) with (1 + 0). rewrite line_loop_shift. unfold mbind, stM_bind. by rewrite Heq.
Qed.

Lemma chunk_size_line_ok c q : let '(r, q') := chunk_size_line (H := H) c q in
  match r with Ok _ => parser_ok q' | Diverge => False | _ => True end.
Proof.
  unfold chunk_size_line. unfold mbind, stM_bind, lift, modify.
  destruct (from_utf8 c); [|done]. cbn. destruct (from_str_radix 16 _ _) as [n|] eqn:E; [|done]. cbn.
  destruct (Z.eqb_spec n 0); [done|]. unfold parser_ok. cbn.
  apply from_str_radix_bounds in E; unfold USIZE_MAX, U64_MAX in *; lia.
Qed.

Lemma trailer_line_ok c q : let '(r, q') := trailer_line (H := H) c q in
  match r with Ok _ => parser_ok q' | Diverge => False | _ => True end.
Proof.
  unfold trailer_line, mbind, stM_bind, modify, gets. cbn. unfold parser_ok. cbn. by destruct (saw_last_chunk q).
Qed.

(** In the state of header lines, a line adds a field or ends the head. *)
Lemma header_line_ok c q : state q = HeaderLine → let '(r, q') := header_line (determine_body_kind D) c q in
  match r with Ok _ => parser_ok q' | Diverge => False | _ => True end.
Proof.
  intros Hq. unfold header_line. destruct c as [|x c].
  - rewrite modify_bind. pose proof (determine_ok (D := D) (with_buf [] q)) as Hd.
    destruct (determine_body_kind D _) as [[] q']; try done.
    unfold parser_ok. by destruct Hd as [[-> ?]|[->| ->]].
  - unfold mbind, stM_bind, lift, modify. destruct (from_utf8 (x :: c)) as [line|]; [|done]. cbn.
    destruct (split_once 58 line) as [[name value]|]; [|done]. cbn. unfold parser_ok. cbn. by rewrite Hq.
Qed.

Lemma slice_head (b : Z) data n : 0 ≤ n → 1 + n ≤ len (b :: data) →
  slice (E := HttpError) (b :: data) 0 (1 + n) = Ok (b :: take (Z.to_nat n) data).
Proof.
  intros Hn Hl. rewrite slice_take by lia.
  by replace (Z.to_nat (1 + n)) with (S (Z.to_nat n)) by lia.
Qed.

Lemma chunk_data_law p b data r0 : state p = ChunkData r0 → 0 < r0 →
  ∃ p', read_chunk_data [b] p = (Ok 1, p') ∧ parser_ok p' ∧ is_complete p' = false ∧
    (read_chunk_data (b :: data) p = (Ok 1, p') ∨
     (∃ r', state p' = ChunkData r') ∧
     read_chunk_data (b :: data) p = match data with [] => (Ok 1, p') | _ => (m ← read_chunk_data data; mret (1 + m)) p' end).
Proof.
  intros Hst Hr0. unfold read_chunk_data. rewrite !gets_bind, Hst.
  change (len [b]) with 1. rewrite Z.min_l by lia.
  rewrite (lift_bind _ [b]) by (exact (slice_head b [] 0 ltac:(lia) ltac:(done))). rewrite !modify_bind.
  eexists. split; [done|]. destruct (Z.eqb_spec (r0 - 1) 0) as [E|E].
  - split_and!; [done..|]. left. rewrite len_cons. pose proof (len_nonneg data).
    rewrite Z.min_r by lia. replace r0 with 1 by lia.
    rewrite (lift_bind _ [b]) by (apply (slice_head b data 0); rewrite ?len_cons; lia).
    by rewrite !modify_bind.
  - split_and!; [unfold parser_ok; cbn; lia|done|]. right. split; [by eexists|].
    destruct data as [|b' data]; [change (len [b]) with 1; rewrite Z.min_l by lia;
      rewrite (lift_bind _ [b]) by (exact (slice_head b [] 0 ltac:(lia) ltac:(done))); rewrite !modify_bind;
      by rewrite (proj2 (Z.eqb_neq _ _)) by done|].
    set (l := b' :: data). rewrite len_cons. pose proof (len_nonneg l).
    replace (Z.min (1 + len l) r0) with (1 + Z.min (len l) (r0 - 1)) by lia.
    rewrite (lift_bind _ (b :: take (Z.to_nat (Z.min (len l) (r0 - 1))) l)) by (apply slice_head; rewrite ?len_cons; lia).
    rewrite !modify_bind. unfold mbind at 1, stM_bind at 1. rewrite gets_bind. cbn [state with_state].
    rewrite (lift_bind _ (take (Z.to_nat (Z.min (len l) (r0 - 1))) l)) by (apply slice_take; lia).
    rewrite !modify_bind. cbn. replace (r0 - 1 - Z.min (len l) (r0 - 1)) with (r0 - (1 + Z.min (len l) (r0 - 1))) by lia.
    unfold with_body, with_state. cbn. by rewrite <-app_assoc.
Qed.

Lemma first_line_parser_ok c q : let '(r, q') := first_line D c q in
  match r with Ok _ => parser_ok q' | Diverge => False | _ => True end.
Proof.
  pose proof (first_line_ok (D := D) c q) as Hf. destruct (first_line D c q) as [[] q']; try done.
  unfold parser_ok. by rewrite Hf.
Qed.

Lemma feed_byte_law : byte_law is_complete (feed_step D) parser_ok.
Proof.
  intros p b data Hp Hc. unfold is_complete in Hc. apply bool_decide_eq_false_1 in Hc as Hc'.
  destruct (state p) as [| | | | |r0| |] eqn:Hst; try done.
  - destruct (first_state_line (D := D)) as [Ef|Ef].
    { unfold feed_step, mbind, stM_bind, gets. rewrite Hst, Ef. by rewrite bool_decide_false. }
    eapply (line_law header_limit (first_line D)); rewrite ?Hst; try done; [apply header_limit_ok|intros c q _; exact (first_line_parser_ok c q)| |].
    + intros l q Hq. unfold feed_step. rewrite gets_bind, Hq, Ef. by rewrite bool_decide_true.
    + unfold is_complete. by rewrite Hst.
  - destruct (first_state_line (D := D)) as [Ef|Ef].
    2:{ unfold feed_step, mbind, stM_bind, gets. rewrite Hst, Ef. by rewrite bool_decide_false. }
    eapply (line_law header_limit (first_line D)); rewrite ?Hst; try done; [apply header_limit_ok|intros c q _; exact (first_line_parser_ok c q)| |].
    + intros l q Hq. unfold feed_step. rewrite gets_bind, Hq, Ef. by rewrite bool_decide_true.
    + unfold is_complete. by rewrite Hst.
  - eapply (line_law header_limit (header_line (determine_body_kind D))); rewrite ?Hst; try done;
      [apply header_limit_ok|intros c q Hq; exact (header_line_ok c q Hq)| |].
    + intros l q Hq. unfold feed_step. by rewrite gets_bind, Hq.
    + unfold is_complete. by rewrite Hst.
  - unfold parser_ok in Hp. rewrite Hst in Hp. destruct (read_body_law (D := D) p b data Hst Hp) as (p' & E1 & Hcase).
    unfold feed_step at 1. rewrite gets_bind, Hst, E1. split; [done|].
    destruct Hcase as [[Hs' E]|(Hs' & Hb' & E)].
    + split; [by unfold parser_ok; rewrite Hs'|]. left. unfold feed_step. by rewrite gets_bind, Hst.
    + split; [by unfold parser_ok; rewrite Hs'|]. right. split; [by unfold is_complete; rewrite Hs'|].
      unfold feed_step at 1. rewrite gets_bind, Hst, E. destruct data; [done|].
      unfold mbind, stM_bind. unfold feed_step. by rewrite gets_bind, Hs'.
  - eapply (line_law chunk_limit chunk_size_line); rewrite ?Hst; try done;
      [apply chunk_limit_ok|intros c q _; exact (chunk_size_line_ok c q)| |].
    + intros l q Hq. unfold feed_step. by rewrite gets_bind, Hq.
    + unfold is_complete. by rewrite Hst.
  - unfold parser_ok in Hp. rewrite Hst in Hp. destruct (chunk_data_law p b data r0 Hst Hp) as (p' & E1 & Hok & Hc2 & Hcase).
    unfold feed_step at 1. rewrite gets_bind, Hst, E1. split_and!; [done..|].
    destruct Hcase as [E|[[r' Hs'] E]].
    + left. unfold feed_step. by rewrite gets_bind, Hst.
    + right. split; [done|]. unfold feed_step at 1. rewrite gets_bind, Hst, E. destruct data; [done|].
      unfold mbind, stM_bind. unfold feed_step. by rewrite gets_bind, Hs'.
  - eapply (line_law (mret tt) trailer_line); rewrite ?Hst; try done;
      [intros c q _; exact (trailer_line_ok c q)| |].
    + intros l q Hq. unfold feed_step. by rewrite gets_bind, Hq.
    + unfold is_complete. by rewrite Hst.
Qed.

Lemma feed_bytewise data p : parser_ok p → feed D data p = bytewise is_complete (feed_step D) data 0 p.
Proof.
  intros Hp. unfold feed. rewrite feed_loop_eq.
  apply (loop_bytewise is_complete (feed_step D) parser_ok feed_byte_law); unfold len; (done || lia).
Qed.

(** Feeding two pieces is feeding their concatenation. *)
Lemma feed_split a b p : parser_ok p →
  feed D (a ++ b) p =
    (x ← feed D a; if (x.2 : bool) then mret x else y ← feed D b; mret (len a + y.1, y.2)) p ∧
  let '(r, p') := feed D (a ++ b) p in
  match r with Ok (n, c) => parser_ok p' ∧ is_complete p' = c ∧ 0 ≤ n ≤ len (a ++ b) ∧ (c = false → n = len (a ++ b)) | Diverge => False | _ => True end.
Proof.
  intros Hp. rewrite feed_bytewise by done. split.
  - rewrite bytewise_app. unfold mbind, stM_bind. rewrite feed_bytewise by done.
    pose proof (bytewise_ok is_complete (feed_step D) parser_ok feed_byte_law a 0 p Hp) as Ha.
    destruct (bytewise _ _ a 0 p) as [[[n c]| | |] p']; [|done..]. destruct Ha as (Hp' & Hc & Hn & Hf). cbn.
    destruct c; [done|]. rewrite feed_bytewise by done. rewrite (Hf eq_refl).
    rewrite bytewise_pos. unfold mbind, stM_bind.
    destruct (bytewise _ _ b 0 p') as [[[m c]| | |] p'']; [|done..]. cbn. by rewrite Z.add_comm.
  - pose proof (bytewise_ok is_complete (feed_step D) parser_ok feed_byte_law (a ++ b) 0 p Hp) as Ha.
    destruct (bytewise _ _ (a ++ b) 0 p) as [[[n c]| | |] p']; done.
Qed.
End WellFormed.

(** ** The two dialects *)

Lemma fixed_body_ok {H} n (p : Parser H) : let '(r, p') := fixed_body n p in
  r = Ok tt ∧ ((state p' = Body ∧ body_kind p' = ContentLength n ∧ body_remaining p' = n ∧ n ≠ 0) ∨ state p' = Complete).
Proof.
  unfold fixed_body. destruct (Z.eqb_spec n 0); rewrite modify_bind; cbn; [by split; [|right]|].
  split; [done|]. by left.
Qed.

Lemma parse_content_length_item_some value o raw : ∀ n,
  parse_content_length_item value o raw = Ok (Some n) → parse_uint U64_MAX (trim raw) = Some n ∧ (o = None ∨ o = Some n).
Proof.
  intros n. unfold parse_content_length_item. destruct (parse_uint _ _) as [m|]; [|done].
  destruct o as [e|]; [|intros [= ->]; tauto].
  destruct (Z.eqb_spec e m); cbn; [|done]. intros [= ->]. subst. tauto.
Qed.

Lemma foldM_not_diverge {E S A} (f : S → A → result E S) (l : list A) :
  (∀ s x, f s x ≠ Diverge) → ∀ s, foldM f s l ≠ Diverge.
Proof.
  intros Hf. induction l as [|x l IH]; intros s; cbn; [done|].
  specialize (Hf s x). destruct (f s x); try done. apply IH.
Qed.

Lemma foldM_inv {E S A} (f : S → A → result E S) (I : S → Prop) l :
  (∀ s x s', I s → f s x = Ok s' → I s') → ∀ s s', I s → foldM f s l = Ok s' → I s'.
Proof.
  intros Hf. induction l as [|x l IH]; intros s s' Hs; cbn; [by intros [= <-]|].
  destruct (f s x) eqn:E1; try done. cbn. apply IH. by eapply Hf.
Qed.

Lemma parse_content_length_nonneg hs n : parse_content_length hs = Ok (Some n) → 0 ≤ n ≤ U64_MAX.
Proof.
  set (I := λ o : option Z, ∀ n, o = Some n → 0 ≤ n ≤ U64_MAX). intros E.
  assert (I (Some n)) as HI; [|by apply HI]. revert E. unfold parse_content_length. apply foldM_inv; [|done].
  intros o v o'. apply foldM_inv. intros o1 x [m|] _ E1 k; [|done]. intros [= <-].
  apply parse_content_length_item_some in E1 as [E1 _].
  apply from_str_radix_bounds in E1; unfold U64_MAX in *; lia.
Qed.

Lemma parse_content_length_not_diverge hs : parse_content_length hs ≠ Diverge ∧ parse_content_length hs ≠ Panic.
Proof.
  assert (Hi : ∀ v o x, ∃ r, parse_content_length_item v o x = r ∧ r ≠ Diverge ∧ r ≠ Panic).
  { intros v o x. eexists. split; [done|]. unfold parse_content_length_item. by repeat case_match. }
  split.
  - apply foldM_not_diverge. intros o v. apply foldM_not_diverge. intros o' x.
    by destruct (Hi v o' x) as (? & <- & ? & ?).
  - assert (Hp : ∀ {S A} (f : S → A → hres S) (l : list A), (∀ s x, f s x ≠ Panic) → ∀ s, foldM f s l ≠ Panic).
    { intros S A f l Hf. induction l as [|x l IH]; intros s; cbn; [done|].
      specialize (Hf s x). destruct (f s x); try done. apply IH. }
    apply Hp. intros o v. apply Hp. intros o' x. by destruct (Hi v o' x) as (? & <- & ? & ?).
Qed.

(** Reading a body of known length, byte by byte. *)
Lemma read_fixed_law {H} (p : Parser H) b data : 0 < body_remaining p →
  ∃ p', read_fixed_body [b] p = (Ok 1, p') ∧ body_kind p' = body_kind p ∧
    ((state p' = Complete ∧ read_fixed_body (b :: data) p = (Ok 1, p')) ∨
     (state p' = state p ∧ 0 < body_remaining p' ∧
      read_fixed_body (b :: data) p = match data with [] => (Ok 1, p') | _ => (m ← read_fixed_body data; mret (1 + m)) p' end)).
Proof.
  intros Hr. set (r0 := body_remaining p) in *. unfold read_fixed_body. rewrite !gets_bind. fold r0.
  change (len [b]) with 1. rewrite (Z.min_r r0 1) by lia.
  rewrite (lift_bind _ [b]) by (exact (slice_head b [] 0 ltac:(lia) ltac:(done))). rewrite !modify_bind.
  rewrite (lift_bind _ (r0 - 1)) by (apply sub_u64_ok; lia). rewrite !modify_bind.
  destruct (Z.eqb_spec (r0 - 1) 0) as [E|E].
  - eexists. split; [done|]. split; [done|]. left. split; [done|]. rewrite len_cons. pose proof (len_nonneg data).
    rewrite Z.min_l by lia. replace r0 with 1 by lia.
    rewrite (lift_bind _ [b]) by (apply (slice_head b data 0); rewrite ?len_cons; lia). rewrite !modify_bind.
    rewrite (lift_bind _ 0) by (by apply sub_u64_ok). by rewrite !modify_bind.
  - eexists. split; [done|]. split; [done|]. right. split; [done|]. split; [cbn; lia|].
    destruct data as [|b' data]; [change (len [b]) with 1; rewrite Z.min_r by lia;
      rewrite (lift_bind _ [b]) by (exact (slice_head b [] 0 ltac:(lia) ltac:(done))); rewrite !modify_bind;
      rewrite (lift_bind _ (r0 - 1)) by (apply sub_u64_ok; lia); rewrite !modify_bind;
      by rewrite (proj2 (Z.eqb_neq _ _)) by done|].
    set (l := b' :: data). rewrite len_cons. pose proof (len_nonneg l).
    replace (Z.min r0 (1 + len l)) with (1 + Z.min (r0 - 1) (len l)) by lia.
    rewrite (lift_bind _ (b :: take (Z.to_nat (Z.min (r0 - 1) (len l))) l)) by (apply slice_head; rewrite ?len_cons; lia).
    rewrite !modify_bind. rewrite (lift_bind _ (r0 - 1 - Z.min (r0 - 1) (len l))) by (rewrite sub_u64_ok by lia; f_equal; lia).
    rewrite !modify_bind. set (m0 := Z.min (r0 - 1) (len l)) in *.
    rewrite stM_bind_assoc, gets_bind. cbn [body_remaining with_framing with_body mret stM_ret]. fold m0.
    rewrite stM_bind_assoc.
    rewrite (lift_bind _ (take (Z.to_nat (Z.min (r0 - 1) (len l))) l)) by (apply slice_take; lia).
    rewrite stM_bind_assoc, modify_bind, stM_bind_assoc.
    rewrite (lift_bind _ (r0 - 1 - m0)) by (apply sub_u64_ok; lia).
    rewrite stM_bind_assoc, modify_bind. unfold with_body, with_framing, with_state. cbn. rewrite <-app_assoc.
    by destruct (_ =? 0).
Qed.

Lemma version_digit_spec {H} v (p : Parser H) :
  (∃ e, version_digit v p = (Err e, p)) ∨ (∃ n, version_digit v p = (Ok n, p) ∧ (n = 0 ∨ n = 1) ∧ v = 48 + n).
Proof.
  unfold version_digit. destruct (Z.eqb_spec v 48), (Z.eqb_spec v 49); cbn; [right; exists (v - 48)..|left]; eauto;
    split; [done|lia|done|lia|done|lia].
Qed.

Lemma index_not_diverge {E A} (l : list A) i : index (E := E) l i ≠ Diverge ∧ ∀ e, index (E := E) l i ≠ Err e.
Proof. unfold index. by repeat case_match. Qed.

Lemma status_line_ok content p : let '(r, p') := Response.status_line content p in
  match r with Ok _ => state p' = HeaderLine | Diverge => False | _ => True end.
Proof.
  unfold Response.status_line. unfold mbind, stM_bind, lift, modify.
  destruct (from_utf8 content); [|done]. cbn [ok_or]. destruct (_ || _); [done|].
  pose proof (index_not_diverge (E := HttpError) content 7) as [Hd _]. destruct (index content 7) as [v| | |]; try done.
  destruct (version_digit_spec v p) as [[e ->]|(n & -> & _ & _)]; [done|].
  destruct (str_slice content 9 12) as [ss| | |] eqn:Es; [|done|done|].
  - match goal with |- context [ok_or ?e ?o] => by destruct o end.
  - revert Es. unfold str_slice, slice. by repeat case_match.
Qed.

Lemma request_line_ok content p : let '(r, p') := Request.request_line content p in
  match r with Ok _ => state p' = HeaderLine | Diverge => False | _ => True end.
Proof.
  unfold Request.request_line. unfold mbind, stM_bind, lift, modify.
  destruct (from_utf8 content) as [line|]; [|done]. cbn [ok_or].
  destruct (splitn 3 32 line) as [|me [|u [|v [|? ?]]]]; try done. destruct (negb _); [done|].
  pose proof (index_not_diverge (E := HttpError) (as_bytes v) 7) as [Hd _]. destruct (index (as_bytes v) 7) as [x| | |]; try done.
  by destruct (version_digit_spec x p) as [[e ->]|(n & -> & _ & _)].
Qed.

Definition fixed_ok (k : BodyKind) (remaining : Z) : Prop := (∃ n, k = ContentLength n) ∧ 0 < remaining.

Lemma fixed_body_state {H} hs n (p : Parser H) : parse_content_length hs = Ok (Some n) →
  ∃ p', fixed_body n p = (Ok tt, p') ∧ ((state p' = Body ∧ fixed_ok (body_kind p') (body_remaining p')) ∨ state p' = Complete).
Proof.
  intros E. pose proof (parse_content_length_nonneg _ _ E). pose proof (fixed_body_ok n p) as Hf.
  destruct (fixed_body n p) as [r p']. destruct Hf as [-> [(Hs & Hk & Hr & Hn)|Hs]]; exists p'; (split; [done|]); [left|by right].
  split; [done|]. split; [by exists n|lia].
Qed.

Definition response_body_ok (k : BodyKind) (remaining : Z) : Prop := k = UntilClose ∨ fixed_ok k remaining.

Lemma response_determine_ok p : let '(r, p') := Response.determine_body_kind p in
  match r with
  | Ok _ => (state p' = Body ∧ response_body_ok (body_kind p') (body_remaining p')) ∨ state p' = ChunkSize ∨ state p' = Complete
  | Diverge => False
  | _ => True
  end.
Proof.
  unfold Response.determine_body_kind. rewrite gets_bind. destruct (Response.bodiless _).
  { rewrite modify_bind. cbn. tauto. }
  rewrite gets_bind. destruct (has_final_chunked_transfer_coding _).
  { unfold chunked_body. rewrite modify_bind. cbn. tauto. }
  pose proof (parse_content_length_not_diverge (headers p)) as [Hd _].
  unfold mbind, stM_bind, lift. destruct (parse_content_length (headers p)) as [[n|]| | |] eqn:E; try done.
  - destruct (fixed_body_state _ n p E) as (p' & -> & Hp). unfold response_body_ok. tauto.
  - cbn. left. split; [done|by left].
Qed.

#[export] Program Instance response_laws : DialectLaws Response.dialect := {| body_ok := response_body_ok |}.
Next Obligation. by left. Qed.
Next Obligation. exact status_line_ok. Qed.
Next Obligation. exact response_determine_ok. Qed.
Next Obligation.
  intros p b data Hs Hok. cbn. unfold Response.read_body. rewrite !gets_bind. destruct Hok as [Hk|[[n Hk] Hr]]; rewrite Hk.
  - rewrite !modify_bind. eexists. split; [done|]. right. cbn. split_and!; [done|by left|].
    destruct data as [|b' data]; [done|]. rewrite stM_bind_assoc, gets_bind. cbn [body_kind with_body]. rewrite Hk.
    rewrite stM_bind_assoc, modify_bind, mret_bind. rewrite len_cons. unfold with_body. cbn. by rewrite <-app_assoc.
  - destruct (read_fixed_law p b data Hr) as (p' & E1 & Ek & Hcase). exists p'. split; [done|].
    destruct Hcase as [Hc|(Hs' & Hr' & E)]; [by left|right].
    rewrite Hs', Ek, Hk. split_and!; [done|right; split; [by eexists|done]|]. rewrite E. destruct data; [done|].
    unfold mbind, stM_bind, gets. by rewrite Ek, Hk.
Qed.

#[export] Program Instance request_laws : DialectLaws Request.dialect := {| body_ok := fixed_ok |}.
Next Obligation. by right. Qed.
Next Obligation. exact request_line_ok. Qed.
Next Obligation.
  intros p. cbn. unfold Request.determine_body_kind. rewrite gets_bind. destruct (has_final_chunked_transfer_coding _).
  { unfold chunked_body. rewrite modify_bind. cbn. tauto. }
  pose proof (parse_content_length_not_diverge (headers p)) as [Hd _].
  unfold mbind, stM_bind, lift. destruct (parse_content_length (headers p)) as [[n|]| | |] eqn:E; try done.
  - destruct (fixed_body_state _ n p E) as (p' & -> & Hp). tauto.
  - cbn. tauto.
Qed.
Next Obligation.
  intros p b data Hs [[n Hk] Hr]. cbn. destruct (read_fixed_law p b data Hr) as (p' & E1 & Ek & Hcase).
  exists p'. split; [done|]. destruct Hcase as [Hc|(Hs' & Hr' & E)]; [by left|right].
  rewrite Hs', Ek, Hk. split; [done|]. split; [split; [by eexists|done]|done].
Qed.

(** ** Pieces of the input *)

(** A caller that feeds what each read returned, until the message is complete. *)
Fixpoint feed_pieces {H} (D : Dialect (H := H)) (pieces : list bytes) (consumed : Z) : stM (Parser H) HttpError (Z * bool) :=
  match pieces with
  | [] => c ← gets is_complete; mret (consumed, c)
  | a :: pieces =>
      x ← feed D a;
      if (x.2 : bool) then mret (consumed + x.1, true) else feed_pieces D pieces (consumed + x.1)
  end.

Lemma feed_nil {H} (D : Dialect (H := H)) p : feed D [] p = (Ok (0, is_complete p), p).
Proof. done. Qed.

Lemma feed_pieces_concat {H} (D : Dialect (H := H)) {DL : DialectLaws D} pieces : ∀ p n, parser_ok D p →
  feed_pieces D pieces n p = (x ← feed D (concat pieces); mret (n + x.1, x.2)) p.
Proof.
  induction pieces as [|a pieces IH]; intros p n Hp; cbn [feed_pieces concat].
  { unfold mbind at 2, stM_bind at 2. rewrite feed_nil. cbn. rewrite gets_bind. by rewrite Z.add_0_r. }
  unfold mbind, stM_bind. destruct (feed_split D a (concat pieces) p Hp) as [-> _].
  destruct (feed_split D a [] p Hp) as [_ Ha]. rewrite app_nil_r in Ha. unfold mbind, stM_bind.
  destruct (feed D a p) as [[[m c]| | |] p']; [|done..]. destruct Ha as (Hp' & Hc & Hm & Hl). cbn.
  destruct c; [done|]. rewrite IH by done. unfold mbind, stM_bind. rewrite (Hl eq_refl).
  destruct (feed D (concat pieces) p') as [[[k c]| | |] p'']; [|done..]. cbn. by rewrite Z.add_assoc.
Qed.

(** C28: how the bytes of a message are cut into reads does not matter: feeding
    the pieces one after the other, until the message is complete, gives for the
    response and for the request parser the same count of consumed bytes, the
    same error and the same final parser as feeding all bytes at once, and both
    end. *)
Theorem http1_feed_chunking pieces :
  feed_pieces Response.dialect pieces 0 Response.new = Response.feed (concat pieces) Response.new ∧
  feed_pieces Request.dialect pieces 0 Request.new = Request.feed (concat pieces) Request.new ∧
  (Response.feed (concat pieces) Response.new).1 ≠ Diverge ∧
  (Request.feed (concat pieces) Request.new).1 ≠ Diverge.
Proof.
  assert (Hr : parser_ok Response.dialect Response.new) by done.
  assert (Hq : parser_ok Request.dialect Request.new) by done.
  rewrite (feed_pieces_concat Response.dialect pieces), (feed_pieces_concat Request.dialect pieces) by done.
  unfold mbind, stM_bind.
  destruct (feed_split Response.dialect (concat pieces) [] _ Hr) as [_ H1].
  destruct (feed_split Request.dialect (concat pieces) [] _ Hq) as [_ H2]. rewrite app_nil_r in H1, H2.
  unfold Response.feed, Request.feed.
  destruct (feed Response.dialect (concat pieces) Response.new) as [[[n c]| | |] p];
    destruct (feed Request.dialect (concat pieces) Request.new) as [[[n' c']| | |] p']; by split_and!.
Qed.

(** ** Content-Length *)

Lemma items_fold v items : ∀ o,
  match foldM (parse_content_length_item v) o items with
  | Ok o' => match o' with
             | None => o = None ∧ items = []
             | Some n => (o = None → items ≠ []) ∧ (o = None ∨ o = Some n) ∧
                         ∀ i, i ∈ items → parse_uint U64_MAX (trim i) = Some n
             end
  | Err _ => (∃ i, i ∈ items ∧ parse_uint U64_MAX (trim i) = None) ∨
             ∃ i n m, i ∈ items ∧ parse_uint U64_MAX (trim i) = Some n ∧ n ≠ m ∧
               (o = Some m ∨ ∃ j, j ∈ items ∧ parse_uint U64_MAX (trim j) = Some m)
  | _ => False
  end.
Proof.
  induction items as [|x items IH]; intros o; cbn [foldM].
  { destruct o; [|done]. split_and!; [done|by right|]. by intros i ?%not_elem_of_nil. }
  unfold parse_content_length_item at 2. destruct (parse_uint U64_MAX (trim x)) as [n|] eqn:En.
  2:{ cbn. left. exists x. split; [by left|done]. }
  assert (Hrec : ∀ o1, o1 = Some n → (o = None ∨ o = Some n) → match foldM (parse_content_length_item v) o1 items with
    | Ok (Some k) => (o = None → x :: items ≠ []) ∧ (o = None ∨ o = Some k) ∧ ∀ i, i ∈ x :: items → parse_uint U64_MAX (trim i) = Some k
    | Ok None => False
    | Err _ => (∃ i, i ∈ x :: items ∧ parse_uint U64_MAX (trim i) = None) ∨
        ∃ i n m, i ∈ x :: items ∧ parse_uint U64_MAX (trim i) = Some n ∧ n ≠ m ∧
          (o = Some m ∨ ∃ j, j ∈ x :: items ∧ parse_uint U64_MAX (trim j) = Some m)
    | _ => False end).
  { intros o1 -> Ho. specialize (IH (Some n)). destruct (foldM _ _ items) as [[k|]| e | |]; [|by destruct IH| |done..].
    - destruct IH as (_ & [?|[= <-]] & Hi); [done|]. split_and!; [done|done|]. intros i [->|Hin]%elem_of_cons; auto.
    - destruct IH as [(i & Hi & E)|(i & a & m & Hi & E & Hne & Hm)].
      + left. exists i. split; [by right|done].
      + right. exists i, a, m. split_and!; [by right|done|done|]. right.
        destruct Hm as [[= <-]|(j & Hj & Ej)]; [exists x; split; [by left|done]|exists j; split; [by right|done]]. }
  destruct o as [e|]; [|cbn; specialize (Hrec (Some n) eq_refl (or_introl eq_refl));
    by destruct (foldM _ _ items) as [[k|]| | |]].
  destruct (Z.eqb_spec e n) as [->|Hne]; cbn.
  - specialize (Hrec (Some n) eq_refl (or_intror eq_refl)). by destruct (foldM _ _ items) as [[k|]| | |].
  - right. exists x, n, e. split_and!; [by left|done|done|by left].
Qed.

Lemma split_nonempty d s : split d s ≠ [].
Proof. destruct s as [|c s]; cbn; [done|]. destruct (c =? d); [done|]. by destruct (split d s). Qed.

Lemma values_fold vs : ∀ o, match foldM (λ parsed value, foldM (parse_content_length_item value) parsed (split 44 value)) o vs with
    | Ok None => o = None ∧ vs = []
    | Ok (Some n) => (o = None → vs ≠ []) ∧ (o = None ∨ o = Some n) ∧
                     ∀ i, i ∈ vs ≫= split 44 → parse_uint U64_MAX (trim i) = Some n
    | Err _ => (∃ i, i ∈ vs ≫= split 44 ∧ parse_uint U64_MAX (trim i) = None) ∨
        ∃ i n m, i ∈ vs ≫= split 44 ∧ parse_uint U64_MAX (trim i) = Some n ∧ n ≠ m ∧
          (o = Some m ∨ ∃ j, j ∈ vs ≫= split 44 ∧ parse_uint U64_MAX (trim j) = Some m)
    | _ => False end.
Proof.
  induction vs as [|v vs IH]; intros o; cbn [foldM].
  { destruct o; [|done]. split_and!; [done|by right|]. by intros i ?%not_elem_of_nil. }
  assert (Happ : ∀ i, i ∈ (v :: vs) ≫= split 44 ↔ i ∈ split 44 v ∨ i ∈ vs ≫= split 44)
    by (intros i; by rewrite bind_cons, elem_of_app).
  pose proof (items_fold v (split 44 v) o) as Hv.
  destruct (foldM (parse_content_length_item v) o (split 44 v)) as [[k|]|e| |]; [| | |done..]; cbn [mbind result_bind].
  - destruct Hv as (Hne & Ho & Hi). specialize (IH (Some k)).
    destruct (foldM _ (Some k) vs) as [[n|]|e| |]; [|by destruct IH| |done..].
    + destruct IH as (_ & [?|[= <-]] & Hi'); [done|]. split_and!; [done|done|]. intros i [?|?]%Happ; auto.
    + destruct IH as [(i & Hin & E)|(i & a & m & Hin & E & Hd & Hm)]; [left; exists i; rewrite Happ; tauto|].
      right. exists i, a, m. rewrite Happ. split_and!; [tauto|done|done|]. right.
      destruct Hm as [[= <-]|(j & Hj & Ej)]; [|exists j; rewrite Happ; tauto].
      destruct (split 44 v) as [|j l] eqn:Ej; [by apply split_nonempty in Ej|].
      exists j. rewrite Happ. split; [left; by left|apply Hi; by left].
  - destruct Hv as [_ E]. by apply split_nonempty in E.
  - destruct Hv as [(i & Hin & E)|(i & a & m & Hin & E & Hd & Hm)]; [left; exists i; rewrite Happ; tauto|].
    right. exists i, a, m. rewrite Happ. split_and!; [tauto|done|done|].
    destruct Hm as [->|(j & Hj & Ej)]; [by left|right; exists j; rewrite Happ; tauto].
Qed.

(** [parse_content_length] yields a length exactly when there is a
    Content-Length field and all elements of all of them are that number; it
    yields none exactly when there is no such field; and it fails only because
    some element is no 64-bit number or two elements differ, the check against
    request smuggling. *)
Theorem content_length_exact hs :
  let items := header_values (str "content-length") hs ≫= split 44 in
  match parse_content_length hs with
  | Ok (Some n) => items ≠ [] ∧ ∀ i, i ∈ items → parse_uint U64_MAX (trim i) = Some n
  | Ok None => header_values (str "content-length") hs = []
  | Err _ => (∃ i, i ∈ items ∧ parse_uint U64_MAX (trim i) = None) ∨
             ∃ i j n m, i ∈ items ∧ j ∈ items ∧ parse_uint U64_MAX (trim i) = Some n ∧
               parse_uint U64_MAX (trim j) = Some m ∧ n ≠ m
  | _ => False
  end.
Proof.
  unfold parse_content_length. cbn zeta. pose proof (values_fold (header_values (str "content-length") hs) None) as G.
  revert G. generalize (header_values (str "content-length") hs) as vs. intros vs G.
  destruct (foldM _ None vs) as [[n|]|e| |]; [| | |done..].
  - destruct G as (Hne & _ & Hi). split; [|done]. specialize (Hne eq_refl). destruct vs as [|v vs]; [done|].
    rewrite bind_cons. intros [E _]%app_nil. by apply split_nonempty in E.
  - by destruct G.
  - destruct G as [?|(i & a & m & Hin & E & Hd & Hm)]; [by left|right].
    destruct Hm as [?|(j & Hj & Ej)]; [done|]. by exists i, j, a, m.
Qed.
