(* ===== verification/H1CodecProps.v ===== *)
(** * Serialized messages are parsed back *)

From S2P Require Import Prelude Incremental Text TextProps HttpError H1Parser H1Codec H1ParserProps.

(** ** Lines *)

Lemma strip_none buf b : b ≠ 10 → strip_line_ending (buf ++ [b]) = None.
Proof.
  intros Hb. unfold strip_line_ending. rewrite rev_app_distr. cbn.
  destruct b as [|p|p]; try done. do 4 (destruct p as [p|p|]; try done).
Qed.

Lemma strip_crlf l : strip_line_ending (l ++ [13; 10]) = Some l.
Proof. unfold strip_line_ending. rewrite rev_app_distr. cbn. by rewrite rev_involutive. Qed.

Section Reading.
Context {H : Type} (D : Dialect (H := H)) {DL : DialectLaws D}.
Implicit Type p : Parser H.

Lemma header_limit_pass p : header_bytes_read p + 1 ≤ MAX_HEADER_SIZE →
  header_limit p = (Ok tt, with_counted (header_bytes_read p + 1) p).
Proof.
  intros Hm. unfold header_limit. rewrite modify_bind, gets_bind. cbn [header_bytes_read with_counted].
  by rewrite (proj2 (Z.ltb_ge _ _)).
Qed.

(** The state of a line that has been read up to its end. *)
Definition after_line p (l : bytes) : Parser H :=
  with_counted (header_bytes_read p + len l + 2) (with_buf (buf p ++ l ++ [13; 10]) p).

Lemma head_line_loop finish l : ∀ p i, 10 ∉ l → header_bytes_read p + len l + 2 ≤ MAX_HEADER_SIZE →
  line_loop header_limit finish (l ++ [13; 10]) i p =
    (_ ← finish (buf p ++ l); mret (i + len l + 2)) (after_line p l).
Proof.
  induction l as [|b l IH]; intros p i Hl Hm.
  - rewrite len_nil in Hm. cbn [app line_loop]. rewrite modify_bind.
    erewrite stM_bind_ok by (apply header_limit_pass; cbn; lia). rewrite gets_bind. cbn [buf with_counted with_buf].
    rewrite strip_none by done. rewrite modify_bind.
    erewrite stM_bind_ok by (apply header_limit_pass; cbn; lia). rewrite gets_bind. cbn [buf with_counted with_buf].
    rewrite <-app_assoc. cbn [app]. rewrite strip_crlf, app_nil_r. unfold after_line, with_counted, with_buf. cbn.
    rewrite len_nil. replace (i + 1 + 1) with (i + 0 + 2) by lia.
    by replace (header_bytes_read p + 1 + 1) with (header_bytes_read p + 0 + 2) by lia.
  - apply not_elem_of_cons in Hl as [Hb Hl]. rewrite len_cons in Hm. pose proof (len_nonneg l).
    cbn [app line_loop]. rewrite modify_bind.
    erewrite stM_bind_ok by (apply header_limit_pass; cbn; lia). rewrite gets_bind. cbn [buf with_counted with_buf].
    rewrite strip_none by done. rewrite IH by (done || (cbn; lia)). cbn [buf with_counted with_buf].
    rewrite <-app_assoc. cbn [app]. rewrite len_cons. unfold after_line, with_counted, with_buf. cbn.
    rewrite <-app_assoc. cbn. rewrite len_cons. replace (i + 1 + len l + 2) with (i + (1 + len l) + 2) by lia.
    by replace (header_bytes_read p + 1 + len l + 2) with (header_bytes_read p + (1 + len l) + 2) by lia.
Qed.

(** Lines whose bytes are not counted: the size lines and the lines after chunks. *)
Lemma free_line_loop (limit : stM (Parser H) HttpError unit) finish l : ∀ p i, 10 ∉ l →
  (∀ q, len (buf q) ≤ len (buf p) + len l + 2 → limit q = (Ok tt, q)) →
  line_loop limit finish (l ++ [13; 10]) i p =
    (_ ← finish (buf p ++ l); mret (i + len l + 2)) (with_buf (buf p ++ l ++ [13; 10]) p).
Proof.
  induction l as [|b l IH]; intros p i Hl Hlim.
  - rewrite len_nil in *. cbn [app line_loop]. rewrite modify_bind.
    erewrite stM_bind_ok by (apply Hlim; cbn; rewrite len_app, len_cons, len_nil; lia). rewrite gets_bind. cbn [buf with_buf].
    rewrite strip_none by done. rewrite modify_bind.
    erewrite stM_bind_ok by (apply Hlim; cbn; rewrite !len_app, !len_cons, len_nil; lia). rewrite gets_bind. cbn [buf with_buf].
    rewrite <-app_assoc. cbn [app]. rewrite strip_crlf, app_nil_r. unfold with_buf. cbn.
    by replace (i + 1 + 1) with (i + 0 + 2) by lia.
  - apply not_elem_of_cons in Hl as [Hb Hl]. rewrite len_cons in Hlim. pose proof (len_nonneg l).
    cbn [app line_loop]. rewrite modify_bind.
    erewrite stM_bind_ok by (apply Hlim; cbn; rewrite len_app, len_cons, len_nil; lia). rewrite gets_bind. cbn [buf with_buf].
    rewrite strip_none by done. rewrite IH; [|done|].
    2:{ intros q Hq. apply Hlim. cbn in Hq. rewrite len_app, len_cons, len_nil in Hq. lia. }
    cbn [buf with_buf]. rewrite <-app_assoc. cbn [app]. rewrite len_cons. unfold with_buf. cbn.
    rewrite <-app_assoc. cbn. by replace (i + 1 + len l + 2) with (i + (1 + len l) + 2) by lia.
Qed.

(** ** Feeding whole lines *)

Lemma feed_once data p p' : data ≠ [] → is_complete p = false →
  feed_step D data p = (Ok (len data), p') → feed D data p = (Ok (len data, is_complete p'), p').
Proof.
  intros Hd Hc E. unfold feed. destruct data as [|b data]; [done|]. cbn [length feed_loop]. rewrite gets_bind.
  change (bool_decide (state p = Complete)) with (is_complete p). rewrite Hc.
  assert (0 < len (b :: data)) by (rewrite len_cons; pose proof (len_nonneg data); lia).
  rewrite (proj2 (Z.ltb_lt _ _)) by done. cbn [andb negb].
  rewrite (lift_bind _ (b :: data)) by (rewrite slice_from_drop by lia; done).
  erewrite stM_bind_ok by exact E. cbn [Z.add].
  destruct (length data) as [|f]; cbn [feed_loop]; rewrite gets_bind;
    rewrite (proj2 (Z.ltb_ge (len (b :: data)) _)) by lia; done.
Qed.

(** [reads a p p']: the bytes [a] take the parser from [p] to [p'], within the message. *)
Definition reads (a : bytes) p p' : Prop :=
  parser_ok D p ∧ parser_ok D p' ∧ feed D a p = (Ok (len a, false), p').

Lemma reads_trans a b p p1 p2 : reads a p p1 → reads b p1 p2 → reads (a ++ b) p p2.
Proof.
  intros (H0 & H1 & Ea) (_ & H2 & Eb). split_and!; [done..|].
  destruct (feed_split D a b p H0) as [-> _]. unfold mbind, stM_bind. rewrite Ea. cbn. rewrite Eb. cbn. by rewrite len_app.
Qed.

Lemma reads_feed a b p p1 : reads a p p1 →
  feed D (a ++ b) p = (y ← feed D b; mret (len a + y.1, y.2)) p1.
Proof.
  intros (H0 & H1 & Ea). destruct (feed_split D a b p H0) as [-> _]. unfold mbind, stM_bind. by rewrite Ea.
Qed.

(** ** Header fields *)

(** A field as the [http] crate holds it: an ASCII name without a colon, a value
    of visible characters, neither with whitespace at an end. *)
Definition field_ok (h : text * text) : Prop :=
  ascii h.1 ∧ ascii h.2 ∧ 10 ∉ h.1 ∧ 10 ∉ h.2 ∧ 58 ∉ h.1 ∧ trimmed h.1 ∧ trimmed h.2.

Definition printed (h : text * text) : text * option text := (h.1, Some h.2).

Lemma ascii_app s1 s2 : ascii (s1 ++ s2) ↔ ascii s1 ∧ ascii s2.
Proof. apply Forall_app. Qed.
Lemma ascii_cons c s : ascii (c :: s) ↔ 0 ≤ c < 0x80 ∧ ascii s.
Proof. unfold ascii. by rewrite Forall_cons. Qed.
Lemma ascii_nil : ascii [].
Proof. constructor. Qed.

Lemma encode_header_line h : encode_header (printed h) = (h.1 ++ 58 :: 32 :: h.2) ++ [13; 10].
Proof. unfold encode_header, printed. cbn. by rewrite <-app_assoc. Qed.

Lemma encode_header_ascii h : field_ok h → ascii (encode_header (printed h)).
Proof.
  intros (H1 & H2 & _). rewrite encode_header_line. rewrite !ascii_app, !ascii_cons. split_and!; (done || lia || apply ascii_nil).
Qed.

Lemma len_field h : len (encode_header (printed h)) = len (h.1 ++ 58 :: 32 :: h.2) + 2.
Proof. rewrite encode_header_line, len_app. done. Qed.

Definition with_fields (hs : list (text * text)) (n : Z) p : Parser H :=
  with_counted (header_bytes_read p + n) (with_headers (headers p ++ hs) p).

Lemma reads_field h p : field_ok h → state p = HeaderLine → buf p = [] →
  header_bytes_read p + len (encode_header (printed h)) ≤ MAX_HEADER_SIZE →
  reads (encode_header (printed h)) p (with_fields [h] (len (encode_header (printed h))) p).
Proof.
  intros Hh Hst Hb Hm. pose proof (encode_header_ascii h Hh) as Ha. destruct Hh as (Ha1 & Ha2 & Hn1 & Hn2 & Hc & Ht1 & Ht2).
  split; [unfold parser_ok; by rewrite Hst|]. split; [unfold parser_ok; cbn; by rewrite Hst|].
  assert (Hstep : feed_step D (encode_header (printed h)) p =
    (Ok (len (encode_header (printed h))), with_fields [h] (len (encode_header (printed h))) p)).
  { unfold feed_step. rewrite gets_bind, Hst. unfold parse_header_line. rewrite len_field in *. rewrite encode_header_line in *.
    rewrite ascii_app in Ha. destruct Ha as [Ha _].
    rewrite head_line_loop; [|rewrite elem_of_app, !elem_of_cons; naive_solver|lia]. rewrite Hb. cbn [app].
    unfold header_line. destruct (h.1 ++ 58 :: 32 :: h.2) as [|c0 l0] eqn:E0; [by destruct h.1|]. rewrite <-E0 in *.
    rewrite (from_utf8_ascii _ Ha). rewrite stM_bind_assoc, (lift_bind _ _) by done.
    rewrite split_once_spec by done. rewrite trim_trimmed, trim_space by done.
    rewrite stM_bind_assoc, modify_bind, modify_bind. unfold after_line, with_fields, with_counted, with_headers, with_buf. cbn.
    rewrite Hb. destruct h as [n v]. cbn. f_equal. f_equal. lia. }
  rewrite (feed_once _ _ (with_fields [h] (len (encode_header (printed h))) p)); [|by rewrite encode_header_line; destruct h.1|by unfold is_complete; rewrite Hst|done].
  do 3 f_equal. unfold is_complete. cbn. by rewrite Hst.
Qed.

Definition field_bytes (hs : list (text * text)) : bytes := concat (encode_header <$> (printed <$> hs)).

Lemma with_fields_app hs1 hs2 n1 n2 p :
  with_fields hs2 n2 (with_fields hs1 n1 p) = with_fields (hs1 ++ hs2) (n1 + n2) p.
Proof. unfold with_fields, with_counted, with_headers. cbn. by rewrite app_assoc, Z.add_assoc. Qed.

Lemma reads_fields hs : ∀ p, Forall field_ok hs → state p = HeaderLine → buf p = [] →
  header_bytes_read p + len (field_bytes hs) ≤ MAX_HEADER_SIZE →
  reads (field_bytes hs) p (with_fields hs (len (field_bytes hs)) p).
Proof.
  induction hs as [|h hs IH]; intros p Hhs Hst Hb Hm.
  { unfold field_bytes, with_fields. cbn. rewrite app_nil_r, Z.add_0_r.
    replace (with_counted _ _) with p by (by destruct p).
    split_and!; [unfold parser_ok; by rewrite Hst..|]. rewrite feed_nil. unfold is_complete. by rewrite Hst. }
  apply Forall_cons in Hhs as [Hh Hhs]. change (field_bytes (h :: hs)) with (encode_header (printed h) ++ field_bytes hs) in *.
  rewrite len_app in *. pose proof (len_nonneg (field_bytes hs)). pose proof (len_nonneg (encode_header (printed h))).
  eapply reads_trans; [apply reads_field; (done || lia)|].
  change (h :: hs) with ([h] ++ hs). rewrite <-with_fields_app. apply IH; [done..|]. unfold with_fields. cbn [header_bytes_read with_counted]. lia.
Qed.

(** The empty line ends the head and chooses the framing of the body. *)
Lemma feed_blank p p' : state p = HeaderLine → buf p = [] → header_bytes_read p + 2 ≤ MAX_HEADER_SIZE →
  determine_body_kind D (with_counted (header_bytes_read p + 2) p) = (Ok tt, p') →
  feed D [13; 10] p = (Ok (2, is_complete p'), p').
Proof.
  intros Hst Hb Hm Ed. assert (Hstep : feed_step D [13; 10] p = (Ok 2, p')).
  { unfold feed_step. rewrite gets_bind, Hst. unfold parse_header_line.
    rewrite (head_line_loop _ [] p 0) by (rewrite ?len_nil; set_solver || lia). rewrite Hb. cbn [app header_line].
    rewrite stM_bind_assoc, modify_bind. unfold after_line, with_buf, with_counted. cbn. change (len (@nil Z)) with 0. rewrite !Z.add_0_r.
    unfold with_counted in Ed. rewrite Hb in Ed. by erewrite stM_bind_ok by exact Ed. }
  apply (feed_once [13; 10] p p'); [done|by unfold is_complete; rewrite Hst|exact Hstep].
Qed.

(** A prefix within the message, then bytes that complete it, then anything. *)
Lemma reads_complete a b rest p p1 p2 : reads a p p1 → feed D b p1 = (Ok (len b, true), p2) →
  feed D ((a ++ b) ++ rest) p = (Ok (len (a ++ b), true), p2).
Proof.
  intros R Eb. pose proof R as (Hp & _). destruct (feed_split D (a ++ b) rest p Hp) as [-> _].
  unfold mbind, stM_bind. rewrite (reads_feed a b p p1 R). unfold mbind, stM_bind. rewrite Eb. cbn. by rewrite len_app.
Qed.
End Reading.

(** ** Framing *)

Ltac decide_now := apply (bool_decide_unpack _); vm_compute; exact I.

(** Header names of the [http] crate are lower case. *)
Definition lowercase (h : text * text) : Prop := ascii_lowercase <$> h.1 = h.1.

Lemma header_values_other name hs : Forall (λ h, eq_ignore_ascii_case h.1 name = false) hs →
  header_values name hs = [].
Proof.
  intros Hs. unfold header_values. induction Hs as [|h hs Hh Hs IH]; [done|].
  rewrite filter_cons_False by (by rewrite Hh). exact IH.
Qed.

Lemma header_values_app name hs1 hs2 : header_values name (hs1 ++ hs2) = header_values name hs1 ++ header_values name hs2.
Proof. unfold header_values. by rewrite filter_app, fmap_app. Qed.

Lemma absent_key name hs : ascii_lowercase <$> name = name → Forall lowercase hs →
  contains_key name (printed <$> hs) = false → Forall (λ h, eq_ignore_ascii_case h.1 name = false) hs.
Proof.
  intros Hn Hs. induction Hs as [|h hs Hh Hs IH]; cbn; [done|]. intros [E1 E2]%orb_false_iff. constructor; [|by apply IH].
  unfold eq_ignore_ascii_case. rewrite Hn, Hh. exact E1.
Qed.

Lemma no_transfer_encoding hs : header_values (str "transfer-encoding") hs = [] →
  has_final_chunked_transfer_coding hs = false.
Proof. intros E. unfold has_final_chunked_transfer_coding. by rewrite E. Qed.

Definition length_field (n : Z) : text * text := (str "Content-Length", show_dec n).

Lemma show_dec_spec n : 0 ≤ n ≤ U64_MAX →
  parse_uint U64_MAX (show_dec n) = Some n ∧ show_dec n ≠ [] ∧ Forall (λ c, 48 ≤ c ≤ 57 ∨ 97 ≤ c ≤ 122) (show_dec n).
Proof. intros Hn. apply show_parses; lia. Qed.

Lemma alnum_facts s : Forall (λ c, 48 ≤ c ≤ 57 ∨ 97 ≤ c ≤ 122) s →
  ascii s ∧ trimmed s ∧ ∀ c, c < 48 → c ∉ s.
Proof.
  intros Hs. split_and!.
  - eapply Forall_impl; [exact Hs|]. cbn. lia.
  - apply no_whitespace_trimmed. eapply Forall_impl; [exact Hs|]. unfold is_whitespace, between. cbn. lia.
  - intros c Hc Hin. rewrite Forall_forall in Hs. specialize (Hs c Hin). cbn in Hs. lia.
Qed.

Lemma parse_length_field hs n : 0 ≤ n ≤ U64_MAX → header_values (str "content-length") hs = [] →
  parse_content_length (hs ++ [length_field n]) = Ok (Some n).
Proof.
  intros Hn E. unfold parse_content_length. rewrite header_values_app, E. cbn [app].
  change (header_values (str "content-length") [length_field n]) with [show_dec n].
  destruct (show_dec_spec n Hn) as (Hp & _ & Hs). destruct (alnum_facts _ Hs) as (_ & Ht & Hc).
  cbn [foldM]. rewrite split_none by (apply Hc; lia). cbn [foldM]. unfold parse_content_length_item.
  by rewrite trim_trimmed, Hp by done.
Qed.

Lemma length_field_ok n : 0 ≤ n ≤ U64_MAX → field_ok (length_field n).
Proof.
  intros Hn. destruct (show_dec_spec n Hn) as (_ & _ & Hs). destruct (alnum_facts _ Hs) as (Ha & Ht & Hc).
  split_and!; cbn [fst snd length_field]; try done; [decide_now|decide_now|apply Hc; lia|decide_now].
Qed.

Lemma encode_headers_printed hs : contains_key TRANSFER_ENCODING (printed <$> hs) = false →
  encode_headers (printed <$> hs) = field_bytes hs.
Proof.
  intros E. unfold encode_headers, field_bytes. f_equal. f_equal.
  set (l := printed <$> hs) in *. clearbody l. unfold has_transfer_encoding. rewrite E. clear E.
  induction l as [|h l IH]; [done|]. rewrite filter_cons_True by (by left). by rewrite IH.
Qed.

(** ** First lines *)

Lemma show_status_all : forallb (λ s, bool_decide (show_dec s = [48 + s / 100; 48 + s / 10 mod 10; 48 + s mod 10]) &&
    bool_decide (parse_uint U16_MAX (show_dec s) = Some s)) (seqZ 100 900) = true.
Proof. vm_compute. reflexivity. Qed.

Lemma show_status s : 100 ≤ s ≤ 999 →
  show_dec s = [48 + s / 100; 48 + s / 10 mod 10; 48 + s mod 10] ∧ parse_uint U16_MAX (show_dec s) = Some s.
Proof.
  intros Hs. pose proof show_status_all as H. rewrite forallb_forall in H.
  specialize (H s). rewrite <-list_elem_of_In, elem_of_seqZ in H. specialize (H ltac:(lia)).
  apply andb_prop in H as [H1%bool_decide_eq_true H2%bool_decide_eq_true]. done.
Qed.

Definition reason_ok (r : text) : Prop := ascii r ∧ 10 ∉ r.

Lemma status_line_spec status reason p : 100 ≤ status ≤ 999 → reason_ok reason →
  Response.status_line (str "HTTP/1.1 " ++ show_dec status ++ str " " ++ reason) p =
    (Ok tt, with_state HeaderLine (with_buf []
      (with_head {| Response.status := Some status; Response.version := Some 1 |} p))).
Proof.
  intros Hs [Ha _]. destruct (show_status status Hs) as [E Ep]. rewrite E in *.
  set (a := 48 + status / 100) in *. set (b := 48 + status / 10 mod 10) in *. set (c := 48 + status mod 10) in *.
  assert (Habc : 48 ≤ a ≤ 57 ∧ 48 ≤ b ≤ 57 ∧ 48 ≤ c ≤ 57) by (unfold a, b, c; div_lia). clearbody a b c.
  set (content := str "HTTP/1.1 " ++ [a; b; c] ++ str " " ++ reason).
  assert (Hc : content = [72; 84; 84; 80; 47; 49; 46; 49; 32; a; b; c; 32] ++ reason) by done.
  assert (Hasc : ascii content).
  { rewrite Hc. repeat (apply ascii_cons; split; [lia|]). exact Ha. }
  assert (Hl : 13 ≤ len content) by (rewrite Hc, len_app; pose proof (len_nonneg reason); change (len _) with 13 at 1; lia).
  unfold Response.status_line. rewrite (from_utf8_ascii _ Hasc). rewrite (lift_bind _ content) by done.
  rewrite (proj2 (Z.ltb_ge _ _)) by lia.
  assert (starts_with (str "HTTP/1.") content = true) as -> by done. cbn [negb orb].
  rewrite (lift_bind _ 49) by done. rewrite (stM_bind_ok _ _ p 1 p) by done. rewrite modify_bind.
  assert (Hsl : str_slice (E := HttpError) content 9 12 = Ok [a; b; c]).
  { unfold str_slice. assert (is_char_boundary content 9 && is_char_boundary content 12 = true) as ->.
    { unfold is_char_boundary. rewrite Hc. change (Z.to_nat 9) with 9%nat. change (Z.to_nat 12) with 12%nat.
      cbn [app lookup list_lookup]. unfold continuation, between.
      rewrite (proj2 (Z.leb_gt 128 a)), (proj2 (Z.leb_gt 128 32)) by lia. cbn [andb negb]. by rewrite !orb_true_r. }
    apply slice_at with (rest := 32 :: reason); [split; [lia|by rewrite Hc]|done]. }
  rewrite Hsl. rewrite (lift_bind _ [a; b; c]) by done.
  rewrite (from_utf8_ascii [a; b; c]) by (repeat constructor; lia).
  cbn [mbind option_bind]. rewrite Ep. rewrite (lift_bind _ status) by done. by rewrite !modify_bind.
Qed.

Definition target_ok (s : text) : Prop := ascii s ∧ 10 ∉ s ∧ 32 ∉ s.

Lemma request_line_spec method uri p : target_ok method → target_ok uri →
  Request.request_line (method ++ str " " ++ uri ++ str " HTTP/1.1") p =
    (Ok tt, with_state HeaderLine (with_buf []
      (with_head {| Request.method := Some method; Request.uri := Some uri; Request.version := Some 1 |} p))).
Proof.
  intros (Ha1 & _ & Hs1) (Ha2 & _ & Hs2). unfold Request.request_line.
  assert (Hasc : ascii (method ++ str " " ++ uri ++ str " HTTP/1.1")).
  { rewrite !ascii_app. split_and!; [done|decide_now|done|decide_now]. }
  rewrite (from_utf8_ascii _ Hasc). rewrite (lift_bind _ _) by done.
  cbn [splitn]. change (str " " ++ uri ++ str " HTTP/1.1") with (32 :: uri ++ 32 :: str "HTTP/1.1").
  rewrite split_once_spec by done. rewrite split_once_spec by done.
  reflexivity.
Qed.

(** ** Bodies *)

Lemma read_whole_body {H} (D : Dialect (H := H)) {DL : DialectLaws D} (p : Parser H) data :
  state p = Body → data ≠ [] → body_remaining p = len data → body p = [] →
  (∀ l, read_body D l p = read_fixed_body l p) →
  feed D data p = (Ok (len data, true),
    with_state Complete (with_framing (body_kind p) 0 (with_body data p))).
Proof.
  intros Hst Hd Hr Hb Hrb.
  apply (feed_once D _ p (with_state Complete (with_framing (body_kind p) 0 (with_body data p))));
    [done|by unfold is_complete; rewrite Hst|].
  unfold feed_step. rewrite gets_bind, Hst, Hrb. unfold read_fixed_body. rewrite gets_bind, Hr, Z.min_id.
  rewrite (lift_bind _ data).
  2:{ rewrite slice_take by (pose proof (len_nonneg data); lia). unfold len. by rewrite Nat2Z.id, firstn_all. }
  rewrite modify_bind, (lift_bind _ 0) by (rewrite sub_u64_ok by lia; f_equal; lia).
  rewrite !modify_bind, Hb. done.
Qed.

(** ** Whole messages *)

Section Messages.
Context {H : Type} (D : Dialect (H := H)) {DL : DialectLaws D}.

Definition started (h : H) (n : Z) : Parser H :=
  with_counted n (parser_new HeaderLine h).

Lemma reads_first h0 h l : 10 ∉ l → len l + 2 ≤ MAX_HEADER_SIZE →
  (∀ q, first_line D l q = (Ok tt, with_state HeaderLine (with_buf [] (with_head h q)))) →
  reads D (l ++ [13; 10]) (parser_new (first_state D) h0) (started h (len l + 2)).
Proof.
  intros Hl Hm Hf. assert (Hok : parser_ok D (parser_new (first_state D) h0)).
  { unfold parser_ok. cbn. by destruct (first_state_line (D := D)) as [-> | ->]. }
  split_and!; [done..|]. assert (Hn : len (l ++ [13; 10]) = len l + 2) by (rewrite len_app; done). rewrite Hn.
  rewrite <-Hn. apply (feed_once D _ (parser_new (first_state D) h0) (started h (len (l ++ [13; 10])))); [by destruct l| |].
  { unfold is_complete. cbn. by destruct (first_state_line (D := D)) as [-> | ->]. }
  rewrite Hn. unfold feed_step. rewrite gets_bind. cbn [state parser_new].
  assert (Hstep : parse_first_line D (l ++ [13; 10]) (parser_new (first_state D) h0) = (Ok (len l + 2), started h (len l + 2))).
  { unfold parse_first_line. rewrite head_line_loop by (done || (cbn; lia)). cbn [buf parser_new app].
    erewrite stM_bind_ok by apply Hf. unfold after_line, started, with_counted, with_state, with_buf, with_head. cbn. done. }
  destruct (first_state_line (D := D)) as [E|E]; rewrite E in *; rewrite bool_decide_true by done; exact Hstep.
Qed.

(** The whole head, up to and with the empty line. *)
Lemma feed_head h0 h l hs p' : 10 ∉ l → Forall field_ok hs →
  len l + 2 + len (field_bytes hs) + 2 ≤ MAX_HEADER_SIZE →
  (∀ q, first_line D l q = (Ok tt, with_state HeaderLine (with_buf [] (with_head h q)))) →
  determine_body_kind D (with_headers hs (started h (len l + 2 + len (field_bytes hs) + 2))) = (Ok tt, p') →
  feed D ((l ++ [13; 10]) ++ field_bytes hs ++ [13; 10]) (parser_new (first_state D) h0) =
    (Ok (len ((l ++ [13; 10]) ++ field_bytes hs ++ [13; 10]), is_complete p'), p').
Proof.
  intros Hl Hhs Hm Hf Hd. pose proof (len_nonneg l). pose proof (len_nonneg (field_bytes hs)).
  assert (R1 := reads_first h0 h l Hl ltac:(lia) Hf).
  assert (R2 : reads D (field_bytes hs) (started h (len l + 2)) (with_fields hs (len (field_bytes hs)) (started h (len l + 2)))).
  { apply reads_fields; [done..|]. cbn. lia. }
  rewrite app_assoc. rewrite (reads_feed D _ [13; 10] _ _ (reads_trans D _ _ _ _ _ R1 R2)).
  unfold mbind, stM_bind. rewrite (feed_blank D (with_fields hs (len (field_bytes hs)) (started h (len l + 2))) p'); try done.
  cbn. rewrite (len_app _ [13; 10]). done.
Qed.

(** A head followed by a body of known length, or by none. *)
Lemma feed_message h0 h l hs data rest k : 10 ∉ l → Forall field_ok hs →
  len l + 2 + len (field_bytes hs) + 2 ≤ MAX_HEADER_SIZE →
  (∀ q, first_line D l q = (Ok tt, with_state HeaderLine (with_buf [] (with_head h q)))) →
  (data = [] → determine_body_kind D (with_headers hs (started h (len l + 2 + len (field_bytes hs) + 2))) =
     (Ok tt, with_state Complete (with_framing k 0 (with_headers hs (started h (len l + 2 + len (field_bytes hs) + 2)))))) →
  (data ≠ [] → determine_body_kind D (with_headers hs (started h (len l + 2 + len (field_bytes hs) + 2))) =
     (Ok tt, with_state Body (with_framing k (len data) (with_headers hs (started h (len l + 2 + len (field_bytes hs) + 2)))))) →
  (data ≠ [] → ∀ q d, body_kind q = k → read_body D d q = read_fixed_body d q) →
  let bs := ((l ++ [13; 10]) ++ field_bytes hs ++ [13; 10]) ++ data in
  ∃ p, feed D (bs ++ rest) (parser_new (first_state D) h0) = (Ok (len bs, true), p) ∧
    head p = h ∧ headers p = hs ∧ body p = data.
Proof.
  intros Hl Hhs Hm Hf Hnil Hcons Hrb bs.
  assert (Hok : parser_ok D (parser_new (first_state D) h0)).
  { unfold parser_ok. cbn. by destruct (first_state_line (D := D)) as [-> | ->]. }
  assert (Hbs : ∃ p, feed D bs (parser_new (first_state D) h0) = (Ok (len bs, true), p) ∧ head p = h ∧ headers p = hs ∧ body p = data).
  { unfold bs. destruct data as [|b data].
    - rewrite app_nil_r. eexists. split; [erewrite feed_head by (done || by apply Hnil); done|done].
    - destruct (feed_split D ((l ++ [13; 10]) ++ field_bytes hs ++ [13; 10]) (b :: data) _ Hok) as [-> _].
      unfold mbind, stM_bind. erewrite feed_head by (done || by apply Hcons).
      match goal with |- context [is_complete ?q] => change (is_complete q) with false end. cbn [fst snd]. eexists.
      rewrite (read_whole_body D _ (b :: data)) by first [done|intros d; by apply Hrb].
      split; [cbn [fst snd]; by rewrite (len_app _ (b :: data))|done]. }
  destruct Hbs as (p & E & Hp). exists p. split; [|done].
  destruct (feed_split D bs rest _ Hok) as [-> _]. unfold mbind, stM_bind. by rewrite E.
Qed.
End Messages.

(** Header fields with lower-case names that leave the framing to the encoder. *)
Definition fields_ok (hs : list (text * text)) : Prop :=
  Forall field_ok hs ∧ Forall lowercase hs ∧
  contains_key TRANSFER_ENCODING (printed <$> hs) = false ∧ contains_key CONTENT_LENGTH (printed <$> hs) = false.

Lemma fields_absent hs : fields_ok hs →
  header_values (str "transfer-encoding") hs = [] ∧ header_values (str "content-length") hs = [].
Proof. intros (_ & Hl & H1 & H2). split; by apply header_values_other, absent_key. Qed.

Lemma field_bytes_app hs1 hs2 : field_bytes (hs1 ++ hs2) = field_bytes hs1 ++ field_bytes hs2.
Proof. unfold field_bytes. by rewrite !fmap_app, concat_app. Qed.

Lemma field_bytes_one h : field_bytes [h] = encode_header (printed h).
Proof. unfold field_bytes. cbn. by rewrite app_nil_r. Qed.

Lemma field_bytes_ascii hs : Forall field_ok hs → ascii (field_bytes hs).
Proof.
  induction 1 as [|h hs Hh Hs IH]; [apply ascii_nil|]. apply ascii_app. split; [by apply encode_header_ascii|done].
Qed.

Lemma no_chunked_with_length hs n : fields_ok hs → has_final_chunked_transfer_coding (hs ++ [length_field n]) = false.
Proof.
  intros Hh. destruct (fields_absent hs Hh) as [Ht _]. apply no_transfer_encoding. by rewrite header_values_app, Ht.
Qed.

Lemma encode_response_bytes canonical_reason status hs data :
  let reason := default (str "Unknown") (canonical_reason status) in
  100 ≤ status ≤ 999 → reason_ok reason → fields_ok hs → len data ≤ U64_MAX →
  encode_response canonical_reason status {| msg_headers := printed <$> hs; msg_body := data |} =
    (((str "HTTP/1.1 " ++ show_dec status ++ str " " ++ reason) ++ [13; 10]) ++
     field_bytes (hs ++ [length_field (len data)]) ++ [13; 10]) ++ data.
Proof.
  intros reason Hs [Hr _] Hh Hd. pose proof Hh as (Hf & _ & Ht & Hc). pose proof (len_nonneg data) as Hn.
  unfold encode_response. cbn [msg_headers msg_body]. unfold has_transfer_encoding. rewrite Ht, Hc. cbn [negb andb].
  rewrite encode_headers_printed by done. fold reason.
  change (content_length_line (len data)) with (encode_header (printed (length_field (len data)))).
  f_equal. rewrite field_bytes_app, field_bytes_one.
  change crlf with [13; 10]. rewrite <-!app_assoc. apply as_bytes_ascii. rewrite !ascii_app.
  split_and!; [decide_now| |decide_now|done|decide_now|by apply field_bytes_ascii
    |apply encode_header_ascii, length_field_ok; lia|decide_now].
  destruct (show_status status Hs) as [-> _]. repeat (apply ascii_cons; split; [div_lia|]). apply ascii_nil.
Qed.

Lemma status_text_ok status reason : 100 ≤ status ≤ 999 → reason_ok reason →
  ascii (str "HTTP/1.1 " ++ show_dec status ++ str " " ++ reason) ∧
  10 ∉ str "HTTP/1.1 " ++ show_dec status ++ str " " ++ reason.
Proof.
  intros Hs [Ha Hr]. destruct (show_status status Hs) as [-> _]. rewrite !ascii_app, !not_elem_of_app.
  split; split_and!; try done; try decide_now.
  - repeat (apply ascii_cons; split; [div_lia|]). apply ascii_nil.
  - rewrite !not_elem_of_cons. split_and!; [div_lia..|apply not_elem_of_nil].
Qed.

(** An encoded response is parsed back: feeding the bytes that
    [encode_response] writes, and whatever follows them on the connection,
    completes the parser exactly at the end of the response, with its status,
    its header fields followed by the Content-Length the encoder added, and its
    body (empty for 1xx, 204 and 304). *)
Theorem response_roundtrip canonical_reason status hs data rest :
  100 ≤ status ≤ 999 → reason_ok (default (str "Unknown") (canonical_reason status)) → fields_ok hs →
  len data ≤ U64_MAX → (Response.bodiless (Some status) = true → data = []) →
  let bs := encode_response canonical_reason status {| msg_headers := printed <$> hs; msg_body := data |} in
  len bs - len data ≤ MAX_HEADER_SIZE →
  ∃ p, Response.feed (bs ++ rest) Response.new = (Ok (len bs, true), p) ∧
    head p = {| Response.status := Some status; Response.version := Some 1 |} ∧
    headers p = hs ++ [length_field (len data)] ∧ body p = data.
Proof.
  intros Hs Hr Hh Hd Hbl bs Hm. pose proof (len_nonneg data) as Hn.
  assert (Hbs := encode_response_bytes canonical_reason status hs data Hs Hr Hh Hd). fold bs in Hbs. rewrite Hbs in *.
  set (l := str "HTTP/1.1 " ++ show_dec status ++ str " " ++ default (str "Unknown") (canonical_reason status)) in *.
  set (hs' := hs ++ [length_field (len data)]) in *. rewrite !len_app in Hm. change (len [13; 10]) with 2 in Hm.
  assert (Hcl : parse_content_length hs' = Ok (Some (len data))) by (apply parse_length_field; [lia|by apply fields_absent]).
  assert (Hch : has_final_chunked_transfer_coding hs' = false) by (by apply no_chunked_with_length).
  eapply (feed_message Response.dialect _ _ l hs' data rest (if decide (data = []) then NoBody else ContentLength (len data)));
    [| | |intros q; by apply status_line_spec| | |].
  - by apply status_text_ok.
  - apply Forall_app. split; [apply Hh|]. apply Forall_singleton, length_field_ok. lia.
  - lia.
  - intros ->. rewrite decide_True by done. cbn [determine_body_kind Response.dialect]. unfold Response.determine_body_kind.
    rewrite gets_bind. cbn [head with_headers started with_counted parser_new Response.status].
    destruct (Response.bodiless (Some status)); [by rewrite modify_bind|].
    rewrite gets_bind. cbn [headers with_headers]. rewrite Hch. rewrite (lift_bind _ (Some 0)) by exact Hcl. done.
  - intros Hne. rewrite decide_False by done. cbn [determine_body_kind Response.dialect]. unfold Response.determine_body_kind.
    rewrite gets_bind. cbn [head with_headers started with_counted parser_new Response.status].
    destruct (Response.bodiless (Some status)); [by destruct (Hne (Hbl eq_refl))|].
    rewrite gets_bind. cbn [headers with_headers]. rewrite Hch. rewrite (lift_bind _ (Some (len data))) by exact Hcl.
    unfold fixed_body. rewrite (proj2 (Z.eqb_neq _ _)); [done|]. intros E. apply Hne. by apply length_zero_iff_nil; unfold len in E; lia.
  - intros Hne q d Ek. cbn [read_body Response.dialect]. unfold Response.read_body. rewrite gets_bind, Ek.
    by rewrite decide_False.
Qed.

(** The fields of an encoded request: a length only for a body. *)
Definition request_fields (hs : list (text * text)) (data : bytes) : list (text * text) :=
  hs ++ match data with [] => [] | _ => [length_field (len data)] end.

Lemma encode_request_bytes method uri hs data :
  target_ok method → target_ok uri → fields_ok hs → len data ≤ U64_MAX →
  encode_request method uri {| msg_headers := printed <$> hs; msg_body := data |} =
    (((method ++ str " " ++ uri ++ str " HTTP/1.1") ++ [13; 10]) ++
     field_bytes (request_fields hs data) ++ [13; 10]) ++ data.
Proof.
  intros (Hm & _) (Hu & _) Hh Hd. pose proof Hh as (Hf & _ & Ht & Hc). pose proof (len_nonneg data) as Hn.
  unfold encode_request. cbn [msg_headers msg_body]. unfold has_transfer_encoding. rewrite Ht, Hc. cbn [negb andb].
  rewrite encode_headers_printed by done.
  assert (Hl : (if negb (bool_decide (data = [])) then content_length_line (len data) else []) =
               field_bytes match data with [] => [] | _ => [length_field (len data)] end).
  { destruct data; [done|]. by rewrite field_bytes_one. }
  rewrite Hl. f_equal. unfold request_fields. rewrite field_bytes_app. change crlf with [13; 10]. rewrite <-!app_assoc.
  apply as_bytes_ascii. rewrite !ascii_app.
  split_and!; [done|decide_now|done|decide_now|decide_now|by apply field_bytes_ascii| |decide_now].
  apply field_bytes_ascii. destruct data; [done|]. apply Forall_singleton, length_field_ok. lia.
Qed.

Lemma request_fields_framing hs data : fields_ok hs → len data ≤ U64_MAX →
  has_final_chunked_transfer_coding (request_fields hs data) = false ∧
  parse_content_length (request_fields hs data) = Ok (match data with [] => None | _ => Some (len data) end).
Proof.
  intros Hh Hd. unfold request_fields. pose proof (len_nonneg data). destruct (fields_absent hs Hh) as [Ht Hc]. destruct data as [|b data].
  - rewrite app_nil_r. split; [by apply no_transfer_encoding|]. unfold parse_content_length. by rewrite Hc.
  - split; [by apply no_chunked_with_length|]. apply parse_length_field; [lia|done].
Qed.

(** C16: an encoded request whose fields leave the framing to the encoder (no
    Transfer-Encoding, no Content-Length) and whose head has at most 8 KiB is
    parsed back: feeding the bytes that
    [encode_request] writes, and whatever follows them on the connection (the
    next pipelined request), completes the parser exactly at the end of the
    request, with its method, target, header fields, the Content-Length the
    encoder added for a body, and its body. *)
Theorem request_roundtrip method uri hs data rest :
  target_ok method → target_ok uri → fields_ok hs → len data ≤ U64_MAX →
  let bs := encode_request method uri {| msg_headers := printed <$> hs; msg_body := data |} in
  len bs - len data ≤ MAX_HEADER_SIZE →
  ∃ p, Request.feed (bs ++ rest) Request.new = (Ok (len bs, true), p) ∧
    head p = {| Request.method := Some method; Request.uri := Some uri; Request.version := Some 1 |} ∧
    headers p = request_fields hs data ∧ body p = data.
Proof.
  intros Hme Hu Hh Hd bs Hm. pose proof (len_nonneg data) as Hn.
  assert (Hbs := encode_request_bytes method uri hs data Hme Hu Hh Hd). fold bs in Hbs. rewrite Hbs in *.
  destruct (request_fields_framing hs data Hh Hd) as [Hch Hcl].
  set (l := method ++ str " " ++ uri ++ str " HTTP/1.1") in *. rewrite !len_app in Hm. change (len [13; 10]) with 2 in Hm.
  eapply (feed_message Request.dialect _ _ l (request_fields hs data) data rest
    (match data with [] => NoBody | _ => ContentLength (len data) end)); [| | |intros q; by apply request_line_spec| | |done].
  - unfold l. rewrite !elem_of_app. destruct Hme as (_ & ? & _), Hu as (_ & ? & _).
    intros [?|[Hi|[?|Hi]]]; try done; (repeat (apply elem_of_cons in Hi as [Hi|Hi]; [done|]); by apply not_elem_of_nil in Hi).
  - unfold request_fields. apply Forall_app. split; [apply Hh|]. destruct data; [done|]. apply Forall_singleton, length_field_ok. lia.
  - lia.
  - intros ->. cbn [determine_body_kind Request.dialect]. unfold Request.determine_body_kind. rewrite gets_bind.
    cbn [headers with_headers]. rewrite Hch. by rewrite (lift_bind _ None) by exact Hcl.
  - intros Hne. cbn [determine_body_kind Request.dialect]. unfold Request.determine_body_kind. rewrite gets_bind.
    cbn [headers with_headers]. rewrite Hch. destruct data as [|b data]; [done|].
    rewrite (lift_bind _ (Some (len (b :: data)))) by exact Hcl. unfold fixed_body.
    rewrite (proj2 (Z.eqb_neq _ _)); [done|]. rewrite len_cons in *. pose proof (len_nonneg data). lia.
Qed.

Definition sample_fields : list (text * text) := [(str "host", str "example.com"); (str "accept", str "*/*")].

Lemma sample_fields_ok : fields_ok sample_fields.
Proof.
  split_and!; [|by repeat constructor|done|done].
  repeat (apply Forall_cons; split); [split_and!; (decide_now || by vm_compute)..|done].
Qed.

Lemma response_roundtrip_witness :
  ∃ p, Response.feed (encode_response (λ _, Some (str "OK")) 200
         {| msg_headers := printed <$> sample_fields; msg_body := str "hello" |} ++ str "HTTP") Response.new =
       (Ok (75, true), p) ∧ body p = str "hello" ∧ headers p = sample_fields ++ [length_field 5].
Proof.
  destruct (response_roundtrip (λ _, Some (str "OK")) 200 sample_fields (str "hello") (str "HTTP")) as (p & E & _ & Hh & Hb);
    [lia|split; decide_now|exact sample_fields_ok|by vm_compute|by vm_compute|by vm_compute|].
  exists p. split; [rewrite E; by vm_compute|done].
Defined.

Lemma request_roundtrip_witness :
  ∃ p, Request.feed (encode_request (str "POST") (str "/a")
         {| msg_headers := printed <$> sample_fields; msg_body := str "hello" |} ++ str "GET") Request.new =
       (Ok (76, true), p) ∧ body p = str "hello" ∧ headers p = sample_fields ++ [length_field 5].
Proof.
  destruct (request_roundtrip (str "POST") (str "/a") sample_fields (str "hello") (str "GET")) as (p & E & _ & Hh & Hb);
    [split_and!; decide_now|split_and!; decide_now|exact sample_fields_ok|by vm_compute|by vm_compute|].
  exists p. split; [rewrite E; by vm_compute|done].
Defined.

(** ** Chunked bodies *)

Section Chunks.
Context {H : Type} (D : Dialect (H := H)) {DL : DialectLaws D}.
Implicit Type p : Parser H.

(** A line in one of the states of a chunked body, with what finishes it. *)
Lemma feed_chunk_line finish l p p' :
  (state p = ChunkSize ∧ finish = chunk_size_line ∧ len l + 2 ≤ MAX_CHUNK_SIZE_LINE) ∨
  (state p = ChunkTrailer ∧ finish = trailer_line) →
  buf p = [] → 10 ∉ l → finish l (with_buf (l ++ [13; 10]) p) = (Ok tt, p') →
  feed D (l ++ [13; 10]) p = (Ok (len (l ++ [13; 10]), is_complete p'), p').
Proof.
  intros Hcase Hb Hl Hf. assert (Hn : len (l ++ [13; 10]) = len l + 2) by (rewrite len_app; done).
  apply (feed_once D _ p p'); [by destruct l|by unfold is_complete; destruct Hcase as [(-> & _)|(-> & _)]|].
  unfold feed_step. rewrite gets_bind, Hn. destruct Hcase as [(-> & -> & Hm)|(-> & ->)].
  - unfold parse_chunk_size. rewrite free_line_loop; [|done|].
    + rewrite Hb. cbn [app]. by erewrite stM_bind_ok by exact Hf.
    + intros q Hq. unfold chunk_limit. rewrite gets_bind. rewrite Hb in Hq. change (len (@nil Z)) with 0 in Hq.
      by rewrite (proj2 (Z.ltb_ge _ _)) by lia.
  - unfold skip_chunk_trailer. rewrite free_line_loop by done. rewrite Hb. cbn [app]. by erewrite stM_bind_ok by exact Hf.
Qed.

Lemma hex_line_ok n : 0 ≤ n ≤ U64_MAX →
  let l := show_hex n in 10 ∉ l ∧ len l + 2 ≤ MAX_CHUNK_SIZE_LINE ∧ as_bytes l = l ∧ ∀ p : Parser H, saw_last_chunk p = false →
  chunk_size_line l (with_buf (l ++ [13; 10]) p) =
    (Ok tt, if n =? 0 then with_state ChunkTrailer (with_last_chunk true (with_buf [] p))
            else with_state (ChunkData n) (with_buf [] p)).
Proof.
  intros Hn l. destruct (show_hex_spec n Hn) as (Hp & Hne & Hl & Hs). destruct (alnum_facts _ Hs) as (Ha & Ht & Hc).
  split_and!; [apply Hc; lia|unfold MAX_CHUNK_SIZE_LINE; fold l in Hl; lia|by apply as_bytes_ascii|].
  intros p Hlast. unfold chunk_size_line. fold l in Ha, Hs, Ht, Hp. rewrite (from_utf8_ascii l Ha). rewrite (lift_bind _ l) by done.
  assert (before_extension l = l) as ->.
  { unfold before_extension. rewrite split_none; [done|]. intros Hin. rewrite Forall_forall in Hs. specialize (Hs 59 Hin). cbn in Hs. lia. }
  rewrite trim_trimmed by done. rewrite Hp. rewrite (lift_bind _ n) by done. rewrite modify_bind.
  destruct (n =? 0); [by rewrite modify_bind|done].
Qed.

Lemma feed_chunk_data d p : state p = ChunkData (len d) → d ≠ [] →
  feed D d p = (Ok (len d, false), with_state ChunkTrailer (with_body (body p ++ d) p)).
Proof.
  intros Hst Hd. apply (feed_once D _ p (with_state ChunkTrailer (with_body (body p ++ d) p)));
    [done|by unfold is_complete; rewrite Hst|].
  unfold feed_step. rewrite gets_bind, Hst. unfold read_chunk_data. rewrite gets_bind, Hst, Z.min_id.
  rewrite (lift_bind _ d).
  2:{ rewrite slice_take by (pose proof (len_nonneg d); lia). unfold len. by rewrite Nat2Z.id, firstn_all. }
  by rewrite !modify_bind, Z.sub_diag.
Qed.

(** Between chunks. *)
Definition at_chunk p : Prop := state p = ChunkSize ∧ buf p = [] ∧ saw_last_chunk p = false.

Lemma reads_chunk d p : at_chunk p → d ≠ [] → len d ≤ U64_MAX →
  reads D (Chunked.encode_chunk d) p (with_body (body p ++ d) p).
Proof.
  intros (Hst & Hb & Hlast) Hd Hl. pose proof (len_nonneg d) as Hn0.
  destruct (hex_line_ok (len d) ltac:(lia)) as (H10 & Hm & Hasc & Hline). set (l := show_hex (len d)) in *.
  assert (Hne : (len d =? 0) = false).
  { apply Z.eqb_neq. intros E. apply Hd. apply length_zero_iff_nil. unfold len in E. lia. }
  assert (E : Chunked.encode_chunk d = (l ++ [13; 10]) ++ d ++ [13; 10]).
  { unfold Chunked.encode_chunk. destruct d as [|b d]; [done|]. fold l. rewrite as_bytes_app, Hasc. done. }
  rewrite E. set (p1 := with_state (ChunkData (len d)) (with_buf [] p)).
  set (p2 := with_state ChunkTrailer (with_body (body p ++ d) p1)).
  assert (R1 : reads D (l ++ [13; 10]) p p1).
  { split; [unfold parser_ok; by rewrite Hst|]. split; [unfold parser_ok; cbn; lia|].
    apply (feed_chunk_line chunk_size_line l p p1); [by left|done..|]. rewrite Hline by done. by rewrite Hne. }
  assert (R2 : reads D d p1 p2).
  { split; [apply R1|]. split; [done|]. by apply feed_chunk_data. }
  assert (R3 : reads D [13; 10] p2 (with_body (body p ++ d) p)).
  { split; [apply R2|]. split; [unfold parser_ok; cbn; by rewrite Hst|].
    change (feed D ([] ++ [13; 10]) p2 = (Ok (len [13; 10], false), with_body (body p ++ d) p)).
    rewrite (feed_chunk_line trailer_line [] p2 (with_body (body p ++ d) p)); [|by right|done|set_solver|].
    - unfold is_complete. cbn. by rewrite Hst.
    - unfold trailer_line. rewrite modify_bind, gets_bind. cbn. rewrite Hlast. unfold modify, p2, p1, with_state, with_buf, with_body.
      cbn. by rewrite Hst, Hb, Hlast. }
  eapply reads_trans; [exact R1|]. eapply reads_trans; [exact R2|exact R3].
Qed.

Lemma reads_chunks ds : ∀ p, at_chunk p → Forall (λ d, d ≠ [] ∧ len d ≤ U64_MAX) ds →
  reads D (concat (Chunked.encode_chunk <$> ds)) p (with_body (body p ++ concat ds) p).
Proof.
  induction ds as [|d ds IH]; intros p Hp Hds.
  { cbn. rewrite app_nil_r. replace (with_body (body p) p) with p by (by destruct p). destruct Hp as (Hst & _).
    split_and!; [unfold parser_ok; by rewrite Hst..|]. rewrite feed_nil. unfold is_complete. by rewrite Hst. }
  apply Forall_cons in Hds as [[Hd Hl] Hds]. cbn [fmap list_fmap concat]. eapply reads_trans; [by apply reads_chunk|].
  specialize (IH (with_body (body p ++ d) p) Hp Hds). cbn [body with_body] in IH. rewrite <-app_assoc in IH. exact IH.
Qed.

(** The last chunk and the empty line after it complete the message. *)
Lemma feed_last_chunk p : at_chunk p → ∃ p',
  feed D Chunked.encode_last_chunk p = (Ok (5, true), p') ∧
  body p' = body p ∧ head p' = head p ∧ headers p' = headers p.
Proof.
  intros (Hst & Hb & Hlast). destruct (hex_line_ok 0 ltac:(unfold U64_MAX; lia)) as (_ & Hm & _ & Hline).
  set (p1 := with_state ChunkTrailer (with_last_chunk true (with_buf [] p))).
  assert (R1 : reads D [48; 13; 10] p p1).
  { split; [unfold parser_ok; by rewrite Hst|]. split; [done|].
    apply (feed_chunk_line chunk_size_line [48] p p1); [by left|done|decide_now|by apply Hline]. }
  exists (with_state Complete p1). split; [|done]. change Chunked.encode_last_chunk with ([48; 13; 10] ++ [13; 10]).
  rewrite (reads_feed D _ [13; 10] p p1 R1). unfold mbind, stM_bind.
  change [13; 10] with ([] ++ [13; 10]). by rewrite (feed_chunk_line trailer_line [] p1 (with_state Complete p1)) by (done || by right || set_solver).
Qed.

Lemma feed_chunks ds p : at_chunk p → Forall (λ d, d ≠ [] ∧ len d ≤ U64_MAX) ds →
  let bs := concat (Chunked.encode_chunk <$> ds) ++ Chunked.encode_last_chunk in
  ∃ p', feed D bs p = (Ok (len bs, true), p') ∧
    body p' = body p ++ concat ds ∧ head p' = head p ∧ headers p' = headers p.
Proof.
  intros Hp Hds bs. assert (R := reads_chunks ds p Hp Hds).
  destruct (feed_last_chunk (with_body (body p ++ concat ds) p) Hp) as (p' & E & Hb & Hh & Hhs).
  exists p'. split; [|done]. unfold bs. rewrite (reads_feed D _ _ _ _ R). unfold mbind, stM_bind. rewrite E. cbn [fst snd].
  by rewrite len_app.
Qed.
End Chunks.

Definition chunked_field : text * text := (TRANSFER_ENCODING, str "chunked").

Lemma chunked_field_ok : field_ok chunked_field.
Proof. split_and!; (decide_now || by vm_compute). Qed.

Lemma chunked_detected hs : has_final_chunked_transfer_coding (hs ++ [chunked_field]) = true.
Proof.
  unfold has_final_chunked_transfer_coding. rewrite header_values_app.
  change (header_values (str "transfer-encoding") [chunked_field]) with [str "chunked"].
  rewrite bind_app, fmap_app, filter_app. change (filter _ (trim <$> ([str "chunked"] ≫= split 44))) with [str "chunked"].
  by rewrite last_snoc.
Qed.

Lemma encode_headers_chunked hs : contains_key CONTENT_LENGTH (printed <$> hs) = false →
  encode_headers (printed <$> (hs ++ [chunked_field])) = field_bytes (hs ++ [chunked_field]).
Proof.
  intros Hc. unfold encode_headers, field_bytes. f_equal. f_equal. rewrite fmap_app, filter_app. f_equal.
  - generalize (has_transfer_encoding ((printed <$> hs) ++ (printed <$> [chunked_field]))) as te. intros te.
    induction (printed <$> hs) as [|h l IH]; [done|]. cbn in Hc. apply orb_false_iff in Hc as [H1 H2].
    apply bool_decide_eq_false in H1. rewrite filter_cons_True by (by right). by rewrite IH.
  - cbn [fmap list_fmap]. rewrite filter_cons_True; [done|]. by right.
Qed.

Lemma encode_chunked_bytes canonical_reason status hs data :
  let reason := default (str "Unknown") (canonical_reason status) in
  100 ≤ status ≤ 999 → reason_ok reason → fields_ok hs →
  encode_response canonical_reason status {| msg_headers := printed <$> (hs ++ [chunked_field]); msg_body := data |} =
    (((str "HTTP/1.1 " ++ show_dec status ++ str " " ++ reason) ++ [13; 10]) ++
     field_bytes (hs ++ [chunked_field]) ++ [13; 10]) ++ data.
Proof.
  intros reason Hs Hr (Hf & _ & _ & Hc). destruct (status_text_ok status reason Hs Hr) as [Hl _].
  unfold encode_response. cbn [msg_headers msg_body]. rewrite encode_headers_chunked by done. fold reason.
  assert (has_transfer_encoding (printed <$> (hs ++ [chunked_field])) = true) as ->.
  { unfold has_transfer_encoding, contains_key. rewrite fmap_app, existsb_app. cbn [fmap list_fmap existsb]. by rewrite orb_true_r. }
  cbn [negb andb app]. f_equal. change crlf with [13; 10]. rewrite <-!app_assoc. apply as_bytes_ascii.
  rewrite !ascii_app in Hl. rewrite !ascii_app. destruct Hl as (? & ? & ? & ?).
  split_and!; try done; [decide_now| |decide_now]. apply field_bytes_ascii, Forall_app.
  split; [done|apply Forall_singleton, chunked_field_ok].
Qed.

(** A response that the caller sends chunked is parsed back: the bytes of
    [encode_response] for a Transfer-Encoding of chunked whose body is the
    pieces, each through [encode_chunk], and the last chunk, complete the
    response parser exactly at their end, and its body is the concatenation of
    the pieces. *)
Theorem chunked_response_roundtrip canonical_reason status hs ds rest :
  let reason := default (str "Unknown") (canonical_reason status) in
  let m := {| msg_headers := printed <$> (hs ++ [chunked_field]);
              msg_body := concat (Chunked.encode_chunk <$> ds) ++ Chunked.encode_last_chunk |} in
  let bs := encode_response canonical_reason status m in
  100 ≤ status ≤ 999 → Response.bodiless (Some status) = false → reason_ok reason → fields_ok hs →
  Forall (λ d, d ≠ [] ∧ len d ≤ U64_MAX) ds → len bs - len (msg_body m) ≤ MAX_HEADER_SIZE →
  ∃ p, Response.feed (bs ++ rest) Response.new = (Ok (len bs, true), p) ∧
    Response.status (head p) = Some status ∧ headers p = hs ++ [chunked_field] ∧ body p = concat ds.
Proof.
  intros reason m bs Hs Hbl Hr Hh Hds Hm.
  pose proof (encode_chunked_bytes canonical_reason status hs (msg_body m) Hs Hr Hh : bs = _) as Ebs. fold reason in Ebs.
  set (l := str "HTTP/1.1 " ++ show_dec status ++ str " " ++ reason) in *. set (hs' := hs ++ [chunked_field]) in *.
  assert (Hfs : Forall field_ok hs') by (apply Forall_app; split; [apply Hh|apply Forall_singleton, chunked_field_ok]).
  rewrite Ebs in *. rewrite !len_app in Hm. change (len [13; 10]) with 2 in Hm.
  set (h := {| Response.status := Some status; Response.version := Some 1 |}).
  set (p0 := with_headers hs' (started h (len l + 2 + len (field_bytes hs') + 2))).
  assert (R : reads Response.dialect ((l ++ [13; 10]) ++ field_bytes hs' ++ [13; 10]) Response.new
                (with_state ChunkSize (with_framing Chunked 0 p0))).
  { split_and!; [done..|]. change Response.new with (parser_new (first_state Response.dialect) {| Response.status := None; Response.version := None |}).
    rewrite (feed_head Response.dialect _ h l hs' (with_state ChunkSize (with_framing Chunked 0 p0)));
      [done|by apply status_text_ok|done|lia|intros q; by apply status_line_spec|]. fold p0.
    cbn [determine_body_kind Response.dialect]. unfold Response.determine_body_kind. rewrite gets_bind.
    cbn [head p0 with_headers started with_counted parser_new Response.status h]. rewrite Hbl, gets_bind.
    change (headers p0) with (hs ++ [chunked_field]). by rewrite chunked_detected. }
  destruct (feed_chunks Response.dialect ds _ (conj eq_refl (conj eq_refl eq_refl) : at_chunk (with_state ChunkSize (with_framing Chunked 0 p0))) Hds)
    as (p' & E & Hb & Hhd & Hhs).
  exists p'. split; [by eapply reads_complete|]. by rewrite Hhd, Hhs, Hb.
Qed.

Lemma chunked_response_roundtrip_witness :
  ∃ p, Response.feed (encode_response (λ _, None) 200
         {| msg_headers := printed <$> (sample_fields ++ [chunked_field]);
            msg_body := concat (Chunked.encode_chunk <$> [str "hello"; str " world"]) ++ Chunked.encode_last_chunk |} ++ [7])
         Response.new = (Ok (110, true), p) ∧ body p = str "hello world".
Proof.
  destruct (chunked_response_roundtrip (λ _, None) 200 sample_fields [str "hello"; str " world"] [7]) as (p & E & _ & _ & Hb);
    [lia|done|split; decide_now|exact sample_fields_ok|repeat constructor; by vm_compute|by vm_compute|].
  exists p. split; [rewrite E; by vm_compute|done].
Defined.

(** ** Lines that the parsers do not handle *)

Lemma feed_first_panic {H} (D : Dialect (H := H)) {DL : DialectLaws D} h0 l : 10 ∉ l → len l + 2 ≤ MAX_HEADER_SIZE →
  (∀ q, (first_line D l q).1 = Panic) → (feed D (l ++ [13; 10]) (parser_new (first_state D) h0)).1 = Panic.
Proof.
  intros Hl Hm Hf. unfold feed. destruct (l ++ [13; 10]) as [|b data] eqn:E; [by destruct l|]. cbn [length feed_loop].
  rewrite gets_bind. cbn [state parser_new].
  assert (0 < len (b :: data)) by (rewrite len_cons; pose proof (len_nonneg data); lia).
  rewrite (proj2 (Z.ltb_lt _ _)) by done.
  rewrite bool_decide_false by (by destruct (first_state_line (D := D)) as [-> | ->]). cbn [andb negb].
  rewrite (lift_bind _ (b :: data)) by (rewrite slice_from_drop by lia; done).
  assert (Hstep : (feed_step D (b :: data) (parser_new (first_state D) h0)).1 = Panic).
  { unfold feed_step. rewrite gets_bind. cbn [state parser_new].
    assert (Hp : (parse_first_line D (b :: data) (parser_new (first_state D) h0)).1 = Panic).
    { unfold parse_first_line. rewrite <-E, head_line_loop by (done || (cbn; lia)). cbn [buf parser_new app].
      specialize (Hf (after_line (parser_new (first_state D) h0) l)). unfold mbind, stM_bind.
      by destruct (first_line D l _) as [[] ?]. }
    destruct (first_state_line (D := D)) as [Ef|Ef]; rewrite Ef in *; by rewrite bool_decide_true. }
  unfold mbind, stM_bind. by destruct (feed_step D (b :: data) _) as [[] ?].
Qed.

(** Two malformed first lines make the parsers panic instead of returning
    [HttpError::Parse]: a request line that ends in [HTTP/1.] (the byte after
    the dot is indexed without a check), for every method and target; and a
    status line in which a character of more than one byte crosses byte 12 (the
    status is sliced out of the string at fixed byte positions). *)
Theorem http1_first_line_panics method uri :
  target_ok method → target_ok uri → len method + len uri + 11 ≤ MAX_HEADER_SIZE →
  (Request.feed ((method ++ str " " ++ uri ++ str " HTTP/1.") ++ [13; 10]) Request.new).1 = Panic ∧
  (Response.feed ((str "HTTP/1.1 20" ++ as_bytes [233]) ++ [13; 10]) Response.new).1 = Panic.
Proof.
  intros (Ha1 & Hn1 & Hs1) (Ha2 & Hn2 & Hs2) Hm. split.
  - apply (feed_first_panic Request.dialect).
    + rewrite !not_elem_of_app. split_and!; (done || decide_now).
    + rewrite !len_app. change (len (str " ")) with 1. change (len (str " HTTP/1.")) with 8. lia.
    + intros q. cbn [first_line Request.dialect]. unfold Request.request_line.
      assert (Hasc : ascii (method ++ str " " ++ uri ++ str " HTTP/1.")).
      { rewrite !ascii_app. split_and!; [done|decide_now|done|decide_now]. }
      rewrite (from_utf8_ascii _ Hasc).
      rewrite (lift_bind _ (method ++ str " " ++ uri ++ str " HTTP/1.")) by done.
      cbn [splitn]. change (str " " ++ uri ++ str " HTTP/1.") with (32 :: uri ++ 32 :: str "HTTP/1.").
      rewrite split_once_spec by done. rewrite split_once_spec by done. reflexivity.
  - vm_compute. reflexivity.
Qed.

Lemma http1_first_line_panics_witness :
  (Request.feed (str "GET / HTTP/1." ++ [13; 10]) Request.new).1 = Panic.
Proof.
  apply (http1_first_line_panics (str "GET") (str "/")); [split_and!; decide_now..|by vm_compute].
Defined.

(** After the last chunk, only one line is skipped: a message with trailer
    fields is complete after its first one, and the other trailer fields and
    the empty line stay on the connection, where they are read as the beginning
    of the next message. *)
Theorem chunked_trailers_left_behind (p : Request.RequestParser) trailer rest :
  at_chunk p → trailer ≠ [] → 10 ∉ trailer →
  ∃ p', Request.feed ((str "0" ++ [13; 10] ++ trailer ++ [13; 10]) ++ ([13; 10] ++ rest)) p =
          (Ok (3 + len trailer + 2, true), p') ∧
    ∃ p'' e, Request.feed ([13; 10] ++ rest) (Request.reset p') = (Err e, p'').
Proof.
  intros (Hst & Hb & Hlast) Hne Hn. destruct (hex_line_ok (H := Request.Head) 0 ltac:(unfold U64_MAX; lia)) as (_ & Hm & _ & Hline).
  set (p1 := with_state ChunkTrailer (with_last_chunk true (with_buf [] p))).
  assert (R1 : reads Request.dialect [48; 13; 10] p p1).
  { split; [unfold parser_ok; by rewrite Hst|]. split; [done|].
    apply (feed_chunk_line Request.dialect chunk_size_line [48] p p1); [by left|done|decide_now|by apply Hline]. }
  exists (with_state Complete p1). split.
  - change (str "0" ++ [13; 10] ++ trailer ++ [13; 10]) with ([48; 13; 10] ++ trailer ++ [13; 10]).
    replace (3 + len trailer + 2) with (len ([48; 13; 10] ++ trailer ++ [13; 10])) by (rewrite !len_app; change (len [48; 13; 10]) with 3; change (len [13; 10]) with 2; lia).
    apply (reads_complete Request.dialect _ _ _ p p1); [done|].
    by rewrite (feed_chunk_line Request.dialect trailer_line trailer p1 (with_state Complete p1)) by (done || by right).
  - assert (Hok : parser_ok Request.dialect (Request.reset (with_state Complete p1))) by done.
    destruct (feed_split Request.dialect [13; 10] rest _ Hok) as [E _]. unfold Request.feed. rewrite E.
    unfold mbind, stM_bind. eexists _, _. by vm_compute.
Qed.

Lemma chunked_trailers_left_behind_witness :
  ∃ p', Request.feed (str "0" ++ [13; 10] ++ str "X: y" ++ [13; 10] ++ [13; 10])
          (with_state ChunkSize Request.new) = (Ok (9, true), p').
Proof.
  destruct (chunked_trailers_left_behind (with_state ChunkSize Request.new) (str "X: y") []) as (p' & E & _);
    [done|done|decide_now|]. exists p'. exact E.
Defined.
