(* ===== verification/H3Frame.v ===== *)
(** * HTTP/3 frames (starfish-http/src/h3/frame.rs, error.rs) *)

From S2P Require Import Prelude QuicError Varint Text HttpError.

Record H3Setting := { set_id : Z; set_value : Z }.

Inductive H3Frame :=
  | H3Data (data : bytes)
  | H3Headers (block : bytes)
  | CancelPush (push_id : Z)
  | Settings (settings : list H3Setting)
  | PushPromise (push_id : Z) (headers : bytes)
  | GoAway (id : Z)
  | MaxPushId (id : Z)
  | PriorityUpdateRequest (stream_id : Z) (value : bytes)
  | PriorityUpdatePush (push_id : Z) (value : bytes)
  | H3Unknown (frame_type : Z) (data : bytes).

#[export] Instance H3Setting_eq_dec : EqDecision H3Setting.
Proof. solve_decision. Defined.
#[export] Instance H3Frame_eq_dec : EqDecision H3Frame.
Proof. solve_decision. Defined.

Definition QPACK_MAX_TABLE_CAPACITY : Z := 0x01.
Definition MAX_FIELD_SECTION_SIZE : Z := 0x06.
Definition QPACK_BLOCKED_STREAMS : Z := 0x07.

Definition is_reserved_http2_setting_id (id : Z) : bool := bool_decide (id ∈ [0x00; 0x02; 0x03; 0x04; 0x05]).
Definition is_reserved_http2_frame_type (t : Z) : bool := bool_decide (t ∈ [0x02; 0x06; 0x08; 0x09]).

(** ** Encoding *)

Abbreviation henc := (stM bytes HttpError).

(** [map_err(HttpError::Quic)]. *)
Definition quic {S A} (m : stM S QuicError A) : stM S HttpError A := λ s,
  let '(r, s) := m s in (map_err (λ _, Quic) r, s).

(** Bytes built in a buffer of their own. *)
Definition build {S A} (m : henc A) : stM S HttpError bytes := λ s,
  let '(r, buf) := m [] in (match r with Ok _ => Ok buf | Err e => Err e | Panic => Panic | Diverge => Diverge end, s).

Definition encode_payload (payload : bytes) : henc unit :=
  _ ← quic (encode_varint (len payload)); extend payload.

Fixpoint encode_settings (l : list H3Setting) : henc unit :=
  match l with
  | [] => mret tt
  | s :: l => _ ← quic (encode_varint (set_id s)); _ ← quic (encode_varint (set_value s)); encode_settings l
  end.

Definition h3_encode (f : H3Frame) : henc unit :=
  match f with
  | H3Data data => _ ← quic (encode_varint 0x00); encode_payload data
  | H3Headers data => _ ← quic (encode_varint 0x01); encode_payload data
  | CancelPush push_id =>
      _ ← quic (encode_varint 0x03);
      payload ← build (quic (encode_varint push_id)); encode_payload payload
  | Settings settings =>
      _ ← quic (encode_varint 0x04);
      payload ← build (encode_settings settings); encode_payload payload
  | PushPromise push_id headers =>
      _ ← quic (encode_varint 0x05);
      payload ← build (_ ← quic (encode_varint push_id); extend headers); encode_payload payload
  | GoAway id =>
      _ ← quic (encode_varint 0x07);
      payload ← build (quic (encode_varint id)); encode_payload payload
  | MaxPushId id =>
      _ ← quic (encode_varint 0x0d);
      payload ← build (quic (encode_varint id)); encode_payload payload
  | PriorityUpdateRequest stream_id value =>
      _ ← quic (encode_varint 0x0f0700);
      payload ← build (_ ← quic (encode_varint stream_id); extend value); encode_payload payload
  | PriorityUpdatePush push_id value =>
      _ ← quic (encode_varint 0x0f0701);
      payload ← build (_ ← quic (encode_varint push_id); extend value); encode_payload payload
  | H3Unknown frame_type data => _ ← quic (encode_varint frame_type); encode_payload data
  end.

(** ** Decoding *)

(** [decode_varint]: [None] for every error of the QUIC decoder. *)
Definition h3_varint (buf : bytes) : hres (option (Z * Z)) :=
  match decode_varint buf with
  | Ok v => Ok (Some v)
  | Err _ => Ok None
  | Panic => Panic
  | Diverge => Diverge
  end.

Definition some_varint (buf : bytes) (e : message) : hres (Z * Z) :=
  v ← h3_varint buf; ok_or (Parse e) v.

Definition decode_exact_varint_payload (payload : bytes) (label : string) : hres Z :=
  '(value, consumed) ← some_varint payload (msg ("truncated " +:+ label));
  if consumed =? len payload then Ok value
  else Err (Parse (msg ("H3_FRAME_ERROR (0x0106): " +:+ label +:+ " frame has trailing bytes"))).

Fixpoint decode_settings (fuel : nat) (payload : bytes) (sp : Z) : hres (list H3Setting) :=
  if sp <? len payload then
    match fuel with
    | O => Diverge
    | S fuel =>
        rest ← slice_from payload sp;
        '(id, n) ← some_varint rest (msg "truncated SETTINGS id");
        rest ← slice_from payload (sp + n);
        '(value, m) ← some_varint rest (msg "truncated SETTINGS value");
        l ← decode_settings fuel payload (sp + n + m);
        Ok ({| set_id := id; set_value := value |} :: l)
    end
  else Ok [].

(** An integer and the rest of the payload. *)
Definition decode_tagged (payload : bytes) (e : string) (f : Z → bytes → H3Frame) : hres H3Frame :=
  '(id, n) ← some_varint payload (msg e);
  rest ← slice_from payload n;
  Ok (f id rest).

Definition decode_payload (frame_type : Z) (payload : bytes) : hres H3Frame :=
  if is_reserved_http2_frame_type frame_type then
    Err (Parse (Msg "H3_FRAME_UNEXPECTED (0x0105): reserved HTTP/2 frame type 0x{frame_type:02x}" [frame_type]))
  else if frame_type =? 0x00 then Ok (H3Data payload)
  else if frame_type =? 0x01 then Ok (H3Headers payload)
  else if frame_type =? 0x03 then
    push_id ← decode_exact_varint_payload payload "CANCEL_PUSH"; Ok (CancelPush push_id)
  else if frame_type =? 0x04 then
    settings ← decode_settings (length payload) payload 0; Ok (Settings settings)
  else if frame_type =? 0x05 then decode_tagged payload "truncated PUSH_PROMISE" PushPromise
  else if frame_type =? 0x07 then id ← decode_exact_varint_payload payload "GOAWAY"; Ok (GoAway id)
  else if frame_type =? 0x0d then id ← decode_exact_varint_payload payload "MAX_PUSH_ID"; Ok (MaxPushId id)
  else if frame_type =? 0x0f0700 then
    decode_tagged payload "truncated PRIORITY_UPDATE request" PriorityUpdateRequest
  else if frame_type =? 0x0f0701 then
    decode_tagged payload "truncated PRIORITY_UPDATE push" PriorityUpdatePush
  else Ok (H3Unknown frame_type payload).

(** [None] when the frame is not complete. *)
Definition h3_decode (buf : bytes) : hres (option (H3Frame * Z)) :=
  v ← h3_varint buf;
  match v with
  | None => Ok None
  | Some (frame_type, n) =>
      rest ← slice_from buf n;
      v ← h3_varint rest;
      match v with
      | None => Ok None
      | Some (length, m) =>
          let pos := n + m in
          if len buf - pos <? length then Ok None
          else
            payload ← slice buf pos (pos + length);
            frame ← decode_payload frame_type payload;
            Ok (Some (frame, pos + length))
      end
  end.

Fixpoint h3_frames_loop (fuel : nat) (buf : bytes) (pos : Z) : hres (list H3Frame) :=
  if pos <? len buf then
    match fuel with
    | O => Diverge
    | S fuel =>
        rest ← slice_from buf pos;
        r ← h3_decode rest;
        match r with
        | Some (frame, consumed) => l ← h3_frames_loop fuel buf (pos + consumed); Ok (frame :: l)
        | None => Err (Parse (msg "truncated HTTP/3 frame at end of stream"))
        end
    end
  else Ok [].

Definition decode_all_frames_at_eof (buf : bytes) : hres (list H3Frame) :=
  h3_frames_loop (length buf) buf 0.
