(* ===== verification/H3FrameProps.v ===== *)
(** * Properties of HTTP/3 frames *)

From S2P Require Import Prelude QuicError Varint Text HttpError H3Frame.

(** ** What the frames look like on the wire *)

Definition h3_type (f : H3Frame) : Z :=
  match f with
  | H3Data _ => 0x00
  | H3Headers _ => 0x01
  | CancelPush _ => 0x03
  | Settings _ => 0x04
  | PushPromise _ _ => 0x05
  | GoAway _ => 0x07
  | MaxPushId _ => 0x0d
  | PriorityUpdateRequest _ _ => 0x0f0700
  | PriorityUpdatePush _ _ => 0x0f0701
  | H3Unknown t _ => t
  end.

Definition settings_bytes (l : list H3Setting) : bytes :=
  concat ((λ s, varint_bytes (set_id s) ++ varint_bytes (set_value s)) <$> l).

Definition h3_payload (f : H3Frame) : bytes :=
  match f with
  | H3Data d | H3Headers d | H3Unknown _ d => d
  | CancelPush x | GoAway x | MaxPushId x => varint_bytes x
  | Settings l => settings_bytes l
  | PushPromise x d | PriorityUpdateRequest x d | PriorityUpdatePush x d => varint_bytes x ++ d
  end.

Definition h3_bytes (f : H3Frame) : bytes :=
  varint_bytes (h3_type f) ++ varint_bytes (len (h3_payload f)) ++ h3_payload f.

Definition setting_ok (s : H3Setting) : Prop := varint_ok (set_id s) ∧ varint_ok (set_value s).

(** The types with a meaning, and those that are refused. *)
Definition assigned : list Z := [0x00; 0x01; 0x02; 0x03; 0x04; 0x05; 0x06; 0x07; 0x08; 0x09; 0x0d; 0x0f0700; 0x0f0701].

Definition h3_wf (f : H3Frame) : Prop :=
  varint_ok (h3_type f) ∧ len (h3_payload f) ≤ MAX_VARINT ∧
  match f with
  | H3Data _ | H3Headers _ => True
  | CancelPush x | GoAway x | MaxPushId x
  | PushPromise x _ | PriorityUpdateRequest x _ | PriorityUpdatePush x _ => varint_ok x
  | Settings l => Forall setting_ok l
  | H3Unknown t _ => t ∉ assigned
  end.

Lemma quic_varint_bind {A} v (f : unit → henc A) buf : varint_ok v →
  (quic (encode_varint v) ≫= f) buf = f tt (buf ++ varint_bytes v).
Proof. intros Hv. unfold mbind, stM_bind, quic. by rewrite encode_varint_ok. Qed.

Lemma quic_varint_ok v buf : varint_ok v → quic (encode_varint v) buf = (Ok tt, buf ++ varint_bytes v).
Proof. intros Hv. unfold quic. by rewrite encode_varint_ok. Qed.

Lemma build_bind {S A B} (m : henc A) a d (f : bytes → stM S HttpError B) s : m [] = (Ok a, d) →
  (build m ≫= f) s = f d s.
Proof. intros E. unfold mbind, stM_bind, build. by rewrite E. Qed.

Lemma len_varint_ok {A} (d : list A) : len d ≤ MAX_VARINT → varint_ok (len d).
Proof. intros ?. split; [apply len_nonneg|done]. Qed.

Lemma encode_payload_eq d buf : len d ≤ MAX_VARINT →
  encode_payload d buf = (Ok tt, buf ++ varint_bytes (len d) ++ d).
Proof.
  intros Hd. unfold encode_payload. rewrite quic_varint_bind by by apply len_varint_ok.
  unfold extend. by rewrite <-app_assoc.
Qed.

Lemma encode_settings_eq l : ∀ buf, Forall setting_ok l →
  encode_settings l buf = (Ok tt, buf ++ settings_bytes l).
Proof.
  induction l as [|s l IH]; intros buf Hl; cbn; [by rewrite app_nil_r|].
  apply Forall_cons in Hl as [[Hi Hv] Hl]. rewrite !quic_varint_bind, IH by done.
  unfold settings_bytes. cbn. by rewrite <-!app_assoc.
Qed.

Lemma h3_encode_eq f buf : h3_wf f → h3_encode f buf = (Ok tt, buf ++ h3_bytes f).
Proof.
  intros (Ht & Hl & Hf). unfold h3_bytes. destruct f; cbn [h3_encode h3_type h3_payload] in *;
    rewrite quic_varint_bind by done;
    try (erewrite build_bind; [|first [by apply encode_settings_eq | by apply quic_varint_ok
      | rewrite quic_varint_bind by done; reflexivity]]; rewrite ?app_nil_l);
    rewrite encode_payload_eq by done; by rewrite <-app_assoc.
Qed.

(** ** Decoding *)

Lemma some_varint_eq v rest e : varint_ok v →
  some_varint (varint_bytes v ++ rest) e = Ok (v, varint_len v).
Proof. intros Hv. unfold some_varint, h3_varint. by rewrite decode_varint_bytes. Qed.

Lemma decode_exact_eq v label : varint_ok v → decode_exact_varint_payload (varint_bytes v) label = Ok v.
Proof.
  intros Hv. unfold decode_exact_varint_payload. rewrite <-(app_nil_r (varint_bytes v)) at 1.
  rewrite some_varint_eq by done. cbn. by rewrite len_varint_bytes, Z.eqb_refl.
Qed.

Lemma decode_tagged_eq v d e f : varint_ok v → decode_tagged (varint_bytes v ++ d) e f = Ok (f v d).
Proof.
  intros Hv. unfold decode_tagged. rewrite some_varint_eq by done. cbn.
  rewrite <-len_varint_bytes by done. by rewrite (slice_from_at _ _ _ (at_pos_prefix _ _)).
Qed.

Lemma decode_settings_eq l payload : ∀ fuel sp, Forall setting_ok l → at_pos payload sp (settings_bytes l) →
  (length l ≤ fuel)%nat → decode_settings fuel payload sp = Ok l.
Proof.
  induction l as [|s l IH]; intros fuel sp Hl Hp Hf; apply at_pos_len in Hp as Hlen.
  { change (len (settings_bytes [])) with 0 in Hlen. destruct fuel; cbn; by rewrite (proj2 (Z.ltb_ge _ _)) by lia. }
  apply Forall_cons in Hl as [[Hi Hv] Hl]. destruct fuel as [|fuel]; [cbn in Hf; lia|].
  unfold settings_bytes in Hp, Hlen. cbn in Hp, Hlen. rewrite <-app_assoc in Hp. cbn [decode_settings].
  rewrite (proj2 (Z.ltb_lt _ _)).
  2: { rewrite !len_app, !len_varint_bytes in Hlen by done. pose proof (varint_len_pos (set_id s)).
       pose proof (varint_len_pos (set_value s)). pose proof (len_nonneg (concat ((λ s, varint_bytes (set_id s) ++ varint_bytes (set_value s)) <$> l))). lia. }
  rewrite (slice_from_at _ _ _ Hp). cbn. rewrite some_varint_eq by done. cbn.
  apply at_pos_app in Hp. rewrite len_varint_bytes in Hp by done. rewrite (slice_from_at _ _ _ Hp). cbn.
  rewrite some_varint_eq by done. cbn. apply at_pos_app in Hp. rewrite len_varint_bytes in Hp by done.
  rewrite IH by (done || (cbn in Hf; lia)). by destruct s.
Qed.

Lemma settings_length l : Forall setting_ok l → (length l ≤ length (settings_bytes l))%nat.
Proof.
  induction l as [|s l IH]; intros Hl; cbn; [lia|]. apply Forall_cons in Hl as [[Hi Hv] Hl].
  specialize (IH Hl). unfold settings_bytes in IH. rewrite !length_app.
  pose proof (len_varint_bytes _ Hi) as E. pose proof (varint_len_pos (set_id s)). unfold len in E. lia.
Qed.

Lemma decode_payload_eq f : h3_wf f → decode_payload (h3_type f) (h3_payload f) = Ok f.
Proof.
  intros (_ & _ & Hf). destruct f; cbn [h3_type h3_payload]; try done;
    unfold decode_payload;
    try (replace (is_reserved_http2_frame_type _) with false by done; cbn [Z.eqb Pos.eqb];
      first [by rewrite decode_exact_eq | by rewrite decode_tagged_eq
        | rewrite (decode_settings_eq settings); [done..|apply at_pos_0|by apply settings_length]]).
  unfold is_reserved_http2_frame_type, assigned in *.
  rewrite bool_decide_eq_false_2 by (intros H; apply Hf; set_solver).
  repeat (rewrite (proj2 (Z.eqb_neq _ _)) by (intros ->; apply Hf; set_solver)). done.
Qed.

Lemma h3_decode_eq f rest : h3_wf f → h3_decode (h3_bytes f ++ rest) = Ok (Some (f, len (h3_bytes f))).
Proof.
  intros Hwf. pose proof Hwf as (Ht & Hl & _). apply len_varint_ok in Hl as Hv.
  unfold h3_decode, h3_varint, h3_bytes. rewrite <-!app_assoc, decode_varint_bytes by done. cbn [mbind result_bind].
  rewrite <-(len_varint_bytes _ Ht), (slice_from_at _ _ _ (at_pos_prefix _ _)). cbn [mbind result_bind].
  rewrite decode_varint_bytes by done. cbn [mbind result_bind]. rewrite <-(len_varint_bytes _ Hv).
  pose proof (at_pos_prefix (varint_bytes (h3_type f) ++ varint_bytes (len (h3_payload f))) (h3_payload f ++ rest)) as Hp.
  rewrite len_app, <-app_assoc in Hp. apply at_pos_len in Hp as Hlen. rewrite (len_app (h3_payload f)) in Hlen.
  pose proof (len_nonneg rest). rewrite (proj2 (Z.ltb_ge _ _)) by lia.
  rewrite (slice_at _ _ _ _ _ Hp) by done. cbn [mbind result_bind].
  rewrite decode_payload_eq by done. cbn. rewrite !len_app. do 3 f_equal. lia.
Qed.

(** ** Frames that are cut off *)

Lemma varint_cut v p q : varint_ok v → varint_bytes v = p ++ q → q ≠ [] →
  decode_varint p = Err BufferTooSmall.
Proof.
  intros Hv E Hq. destruct p as [|first p]; [done|].
  pose proof (decode_varint_bytes v [] Hv) as D. rewrite app_nil_r in D.
  pose proof (len_varint_bytes v Hv) as L. rewrite E in D, L. cbn [app] in *.
  unfold decode_varint in *. destruct (len (first :: p ++ q) <? _); [done|]. destruct q as [|y q]; [done|].
  assert (Z.shiftl 1 (Z.shiftr first 6) = varint_len v) as ->.
  { match type of D with (?m ≫= _) = _ => destruct m as [value| | |]; cbn in D; congruence end. }
  rewrite !len_cons, len_app, len_cons in L. rewrite len_cons. pose proof (len_nonneg q).
  by rewrite (proj2 (Z.ltb_lt _ _)) by lia.
Qed.

Lemma h3_cut f p q : h3_wf f → h3_bytes f = p ++ q → q ≠ [] → h3_decode p = Ok None.
Proof.
  intros (Ht & Hl & _) E Hq. apply len_varint_ok in Hl as Hv. unfold h3_bytes in E. unfold h3_decode, h3_varint.
  symmetry in E. apply app_eq_inv in E as [(k & -> & E)|(k & E & ->)].
  2: { destruct (decide (k = [])) as [->|Hk]; [|by rewrite (varint_cut _ _ _ Ht E Hk)].
       rewrite app_nil_r in E. rewrite <-E. rewrite <-(app_nil_r (varint_bytes (h3_type f))).
       rewrite decode_varint_bytes, app_nil_r by done. cbn [mbind result_bind].
       rewrite slice_from_drop by (rewrite len_varint_bytes by done; pose proof (varint_len_pos (h3_type f)); lia).
       cbn [mbind result_bind]. rewrite drop_ge; [done|]. pose proof (len_varint_bytes _ Ht). unfold len in *. lia. }
  rewrite decode_varint_bytes by done. cbn [mbind result_bind].
  rewrite <-(len_varint_bytes _ Ht), (slice_from_at _ _ _ (at_pos_prefix _ _)). cbn [mbind result_bind].
  symmetry in E. apply app_eq_inv in E as [(m & -> & E)|(m & E & ->)].
  - rewrite decode_varint_bytes by done. cbn [mbind result_bind]. rewrite <-(len_varint_bytes _ Hv), !len_app, E, len_app.
    destruct q as [|y q]; [done|]. rewrite len_cons. pose proof (len_nonneg q).
    by rewrite (proj2 (Z.ltb_lt _ _)) by lia.
  - destruct (decide (m = [])) as [->|Hm]; [|by rewrite (varint_cut _ _ _ Hv E Hm)].
    rewrite app_nil_r in E. rewrite <-E, <-(app_nil_r (varint_bytes (len _))), decode_varint_bytes, app_nil_r by done.
    cbn [mbind result_bind]. rewrite len_app, <-(len_varint_bytes _ Hv). cbn in Hq.
    destruct (h3_payload f) as [|y d]; [done|]. rewrite len_cons. pose proof (len_nonneg d).
    by rewrite (proj2 (Z.ltb_lt _ _)) by lia.
Qed.

Lemma h3_bytes_pos f : h3_wf f → 2 ≤ len (h3_bytes f).
Proof.
  intros (Ht & Hl & _). unfold h3_bytes. rewrite !len_app, !len_varint_bytes by (done || by apply len_varint_ok).
  pose proof (varint_len_pos (h3_type f)). pose proof (varint_len_pos (len (h3_payload f))).
  pose proof (len_nonneg (h3_payload f)). lia.
Qed.

(** ** Whole streams *)

Definition frames_bytes (fs : list H3Frame) : bytes := concat (h3_bytes <$> fs).

Lemma frames_length fs : Forall h3_wf fs → (length fs ≤ length (frames_bytes fs))%nat.
Proof.
  induction fs as [|f fs IH]; intros Hfs; cbn; [lia|]. apply Forall_cons in Hfs as [Hf Hfs].
  specialize (IH Hfs). unfold frames_bytes in IH. rewrite length_app. pose proof (h3_bytes_pos f Hf). unfold len in *. lia.
Qed.

Lemma h3_frames_loop_eq fs buf : ∀ fuel pos, Forall h3_wf fs → at_pos buf pos (frames_bytes fs) →
  (length fs ≤ fuel)%nat → h3_frames_loop fuel buf pos = Ok fs.
Proof.
  induction fs as [|f fs IH]; intros fuel pos Hfs Hp Hf; apply at_pos_len in Hp as Hlen.
  { change (len (frames_bytes [])) with 0 in Hlen. destruct fuel; cbn; by rewrite (proj2 (Z.ltb_ge _ _)) by lia. }
  apply Forall_cons in Hfs as [Hw Hfs]. destruct fuel as [|fuel]; [cbn in Hf; lia|].
  unfold frames_bytes in Hp, Hlen. cbn in Hp, Hlen. rewrite len_app in Hlen. cbn [h3_frames_loop].
  pose proof (h3_bytes_pos f Hw). pose proof (len_nonneg (concat (h3_bytes <$> fs))).
  rewrite (proj2 (Z.ltb_lt _ _)) by lia. rewrite (slice_from_at _ _ _ Hp). cbn [mbind result_bind].
  rewrite h3_decode_eq by done. cbn [mbind result_bind]. apply at_pos_app in Hp.
  rewrite IH by (done || (cbn in Hf; lia)). done.
Qed.

Lemma decode_all_eq fs : Forall h3_wf fs → decode_all_frames_at_eof (frames_bytes fs) = Ok fs.
Proof. intros Hfs. apply h3_frames_loop_eq; [done|apply at_pos_0|by apply frames_length]. Qed.

(** What a stream of frames carries is decoded to the frames, in order, and the
    encoder appends exactly these bytes. *)
Theorem h3_frames_roundtrip fs buf : Forall h3_wf fs →
  foldr (λ f m, _ ← h3_encode f; m) (mret tt) fs buf = (Ok tt, buf ++ frames_bytes fs) ∧
  decode_all_frames_at_eof (frames_bytes fs) = Ok fs.
Proof.
  intros Hfs. split.
  - revert buf. induction Hfs as [|f fs Hf Hfs IH]; intros buf; cbn; [by rewrite app_nil_r|].
    rewrite (stM_bind_ok _ _ _ _ _ (h3_encode_eq f buf Hf)), IH. unfold frames_bytes. cbn. by rewrite app_assoc.
  - by apply decode_all_eq.
Qed.

Definition sample_frames : list H3Frame :=
  [H3Headers [1; 2; 3]; H3Unknown 0x21 [9]; H3Data (replicate 100 7); H3Data []; GoAway 5;
   Settings [{| set_id := 1; set_value := 0 |}; {| set_id := 7; set_value := 2 ^ 40 |}];
   PriorityUpdateRequest 4 [117; 61; 49]].

Lemma h3_frames_roundtrip_witness :
  foldr (λ f m, _ ← h3_encode f; m) (mret tt) sample_frames [] = (Ok tt, [] ++ frames_bytes sample_frames) ∧
  decode_all_frames_at_eof (frames_bytes sample_frames) = Ok sample_frames.
Proof.
  apply h3_frames_roundtrip. unfold sample_frames.
  repeat constructor; cbn; try (unfold len; cbn); try (unfold MAX_VARINT; lia); try by apply (bool_decide_unpack _).
Defined.
