(* ===== verification/H3Connection.v ===== *)
(** * HTTP/3 connections (starfish-http/src/h3/connection.rs, qpack/)

    The connection runs over any QUIC transport that offers the operations of
    [QuicTransport].  The field sections are coded by the qpack crate, without a
    dynamic table: nothing is ever blocked, and the loops that wait for the
    table are never entered.  [h3_order] gives the orders in which successive
    hash sets are iterated. *)

From coqutil Require Export Datatypes.RecordSetters.
From S2P Require Import Prelude QuicError Varint Text HttpError H3Frame.
Export TriangleBracketNotations.

(** ** Interfaces *)

(** What the connection uses of [QuicConnection]; [tr_buffered] bounds the reads
    of a stream that can still return data without polling. *)
Class QuicTransport (Q : Type) := {
  tr_open_uni : stM Q QuicError Z;
  tr_open_bidi : stM Q QuicError Z;
  tr_send : Z → bytes → bool → stM Q QuicError Z;
  tr_recv : Z → Z → stM Q QuicError (bytes * bool);
  tr_flush : stM Q QuicError unit;
  tr_poll : stM Q QuicError unit;
  tr_incoming_uni : Q → list Z;
  tr_incoming_bidi : Q → option Z;
  tr_buffered : Q → Z → nat;
}.

(** [encode_stateless] and [decode_stateless] of the qpack crate. *)
Class QpackCodec := {
  encode_stateless : list (bytes * bytes) → option bytes;
  decode_stateless : bytes → Z → option (list (bytes * bytes));
}.

Abbreviation headers := (list (text * text)).

(** [String::from_utf8_lossy]: every maximal part of a sequence that cannot be
    completed becomes U+FFFD. *)
Fixpoint from_utf8_lossy (b : bytes) : text :=
  match b with
  | [] => []
  | b0 :: t0 =>
      if b0 <? 0x80 then b0 :: from_utf8_lossy t0
      else if between 0xc2 0xdf b0 then
        match t0 with
        | b1 :: t1 => if continuation b1 then (b0 - 0xc0) * 0x40 + (b1 - 0x80) :: from_utf8_lossy t1
                      else 0xfffd :: from_utf8_lossy t0
        | [] => [0xfffd]
        end
      else if between 0xe0 0xef b0 then
        match t0 with
        | b1 :: t1 =>
            if second_of_three b0 b1 then
              match t1 with
              | b2 :: t2 =>
                  if continuation b2
                  then (b0 - 0xe0) * 0x1000 + (b1 - 0x80) * 0x40 + (b2 - 0x80) :: from_utf8_lossy t2
                  else 0xfffd :: from_utf8_lossy t1
              | [] => [0xfffd]
              end
            else 0xfffd :: from_utf8_lossy t0
        | [] => [0xfffd]
        end
      else
        match t0 with
        | b1 :: t1 =>
            if second_of_four b0 b1 then
              match t1 with
              | b2 :: t2 =>
                  if continuation b2 then
                    match t2 with
                    | b3 :: t3 =>
                        if continuation b3
                        then (b0 - 0xf0) * 0x40000 + (b1 - 0x80) * 0x1000 + (b2 - 0x80) * 0x40
                               + (b3 - 0x80) :: from_utf8_lossy t3
                        else 0xfffd :: from_utf8_lossy t2
                    | [] => [0xfffd]
                    end
                  else 0xfffd :: from_utf8_lossy t1
              | [] => [0xfffd]
              end
            else 0xfffd :: from_utf8_lossy t0
        | [] => [0xfffd]
        end
  end.

(** ** QPACK *)

Definition MAX_HEADER_LIST_SIZE : Z := 256 * 1024.

Record QpackEncoder := { qe_capacity : Z; qe_blocked : Z; qe_pending : bytes }.
Record QpackDecoder := { qd_capacity : Z; qd_blocked : Z; qd_pending : bytes }.

Definition encoder_new : QpackEncoder := {| qe_capacity := 0; qe_blocked := 0; qe_pending := [] |}.
Definition with_capacity (capacity blocked : Z) : QpackDecoder :=
  {| qd_capacity := capacity; qd_blocked := blocked; qd_pending := [] |}.

Definition encode_header_block `{QpackCodec} (h : headers) : hres bytes :=
  ok_or (Qpack (msg "encode header block: {e}"))
    (encode_stateless ((λ '(n, v), (as_bytes n, as_bytes v)) <$> h)).

Definition decode_header_block `{QpackCodec} (data : bytes) : hres headers :=
  fields ← ok_or (Qpack (msg "decode header block: {e}")) (decode_stateless data MAX_HEADER_LIST_SIZE);
  Ok ((λ '(n, v), (from_utf8_lossy n, from_utf8_lossy v)) <$> fields).

(** ** Unidirectional streams *)

Definition CONTROL_STREAM_TYPE : Z := 0x00.
Definition PUSH_STREAM_TYPE : Z := 0x01.
Definition QPACK_ENCODER_STREAM_TYPE : Z := 0x02.
Definition QPACK_DECODER_STREAM_TYPE : Z := 0x03.
Definition LOCAL_MAX_PUSH_ID : Z := 16.
Definition MAX_UNI_STREAM_TYPE_BYTES : Z := 8.
Definition MAX_CONTROL_STREAM_PENDING_BYTES : Z := 64 * 1024.
Definition MAX_PUSH_STREAM_PENDING_BYTES : Z := 1024 * 1024.
Definition MAX_PUSH_STREAM_BODY_BYTES : Z := 1024 * 1024.

Record UniStreamState := {
  us_type : option Z;
  us_push_id : option Z;
  us_pending : bytes;
  us_settings_seen : bool;
  us_push_headers : option bytes;
  us_push_trailers : option bytes;
  us_push_body : bytes;
}.

Definition uni_default : UniStreamState := {|
  us_type := None; us_push_id := None; us_pending := []; us_settings_seen := false;
  us_push_headers := None; us_push_trailers := None; us_push_body := [] |}.

Abbreviation uniM := (stM UniStreamState HttpError).

Definition excessive_load (m : string) : HttpError := Parse (msg ("H3_EXCESSIVE_LOAD (0x0107): " +:+ m)).
Definition h3_frame_unexpected (m : string) : HttpError := Parse (msg ("H3_FRAME_UNEXPECTED (0x0105): " +:+ m)).
Definition h3_message_error (m : string) : HttpError := Parse (msg ("H3_MESSAGE_ERROR (0x010e): " +:+ m)).
Definition h3_id_error (m : string) : HttpError := Parse (msg ("H3_ID_ERROR (0x0108): " +:+ m)).
Definition h3_settings_error (m : string) : HttpError := Parse (msg ("H3_SETTINGS_ERROR (0x0109): " +:+ m)).

(** The most bytes a stream of a type may keep; the server has its own table. *)
Definition client_limit (t : option Z) : option Z :=
  match t with
  | Some t => if t =? CONTROL_STREAM_TYPE then Some MAX_CONTROL_STREAM_PENDING_BYTES
              else if t =? PUSH_STREAM_TYPE then Some MAX_PUSH_STREAM_PENDING_BYTES
              else None
  | None => Some MAX_UNI_STREAM_TYPE_BYTES
  end.

Section UniStream.
Context (limit_of : option Z → option Z).

Definition ensure_pending_limit : uniM unit :=
  s ← gets (λ s, s);
  match limit_of (us_type s) with
  | Some limit =>
      if limit <? len (us_pending s) then fail (excessive_load "unidirectional stream buffered too much")
      else mret tt
  | None => mret tt
  end.

Definition drain_pending (n : Z) : uniM unit :=
  rest ← (s ← gets us_pending; lift (slice_from s n));
  modify (λ s, s <| us_pending := rest |>).

Definition ingest (chunk : bytes) (fin : bool) : uniM unit :=
  _ ← modify (λ s, s <| us_pending ::= (λ p, p ++ chunk) |>);
  s ← gets (λ s, s);
  match us_type s with
  | Some _ => ensure_pending_limit
  | None =>
      v ← lift (h3_varint (us_pending s));
      match v with
      | Some (t, consumed) =>
          _ ← modify (λ s, s <| us_type := Some t |>);
          _ ← drain_pending consumed;
          ensure_pending_limit
      | None =>
          if fin then fail (Parse (msg "truncated unidirectional stream type"))
          else if MAX_UNI_STREAM_TYPE_BYTES <? len (us_pending s)
          then fail (excessive_load "unidirectional stream type exceeded {} bytes")
          else mret tt
      end
  end.

Definition ingest_push_id (fin : bool) : uniM (option Z) :=
  s ← gets (λ s, s);
  match us_push_id s with
  | Some id => mret (Some id)
  | None =>
      v ← lift (h3_varint (us_pending s));
      match v with
      | Some (id, consumed) =>
          _ ← modify (λ s, s <| us_push_id := Some id |>);
          _ ← drain_pending consumed;
          mret (Some id)
      | None => if fin then fail (Parse (msg "truncated push stream push ID")) else mret None
      end
  end.

Definition is_settings (f : H3Frame) : bool := match f with Settings _ => true | _ => false end.
Definition not_on_control (f : H3Frame) : bool :=
  match f with H3Data _ | H3Headers _ | PushPromise _ _ => true | _ => false end.

(** A frame of the control stream, after it was taken out. *)
Definition check_control_frame (f : H3Frame) : uniM unit :=
  seen ← gets us_settings_seen;
  _ ← (if negb seen then
         if is_settings f then modify (λ s, s <| us_settings_seen := true |>)
         else fail (Parse (msg "H3_MISSING_SETTINGS (0x010a): first frame on control stream must be SETTINGS"))
       else if is_settings f then fail (h3_frame_unexpected "duplicate SETTINGS frame on control stream")
       else mret tt);
  if not_on_control f then fail (h3_frame_unexpected "frame type not allowed on control stream") else mret tt.

Fixpoint control_loop (fuel : nat) (fin : bool) : uniM (list H3Frame) :=
  pending ← gets us_pending;
  r ← lift (h3_decode pending);
  match r with
  | Some (frame, consumed) =>
      match fuel with
      | O => lift Diverge
      | S fuel =>
          _ ← drain_pending consumed;
          _ ← check_control_frame frame;
          l ← control_loop fuel fin;
          mret (frame :: l)
      end
  | None =>
      if fin && (0 <? len pending) then fail (Parse (msg "truncated control stream frame")) else mret []
  end.

Definition ingest_control_frames (fin : bool) : uniM (list H3Frame) :=
  pending ← gets us_pending;
  l ← control_loop (length pending) fin;
  _ ← ensure_pending_limit;
  mret l.

Definition ensure_push_body_capacity (additional : Z) : uniM unit :=
  s ← gets (λ s, s);
  if MAX_PUSH_STREAM_BODY_BYTES <? saturating_add_u64 (len (us_push_body s)) additional
  then fail (excessive_load "push response body buffered {total} bytes") else mret tt.

Definition push_frame (f : H3Frame) : uniM unit :=
  s ← gets (λ s, s);
  match f with
  | H3Headers block =>
      match us_push_headers s, us_push_trailers s with
      | None, _ => modify (λ s, s <| us_push_headers := Some block |>)
      | Some _, None => modify (λ s, s <| us_push_trailers := Some block |>)
      | Some _, Some _ => fail (h3_frame_unexpected "more than two HEADERS frames on push stream")
      end
  | H3Data data =>
      if negb (bool_decide (is_Some (us_push_headers s)))
      then fail (h3_frame_unexpected "DATA before HEADERS on push stream")
      else if bool_decide (is_Some (us_push_trailers s))
      then fail (h3_frame_unexpected "DATA after trailers on push stream")
      else
        _ ← ensure_push_body_capacity (len data);
        modify (λ s, s <| us_push_body ::= (λ b, b ++ data) |>)
  | H3Unknown _ _ => mret tt
  | _ => fail (h3_frame_unexpected "invalid frame on push stream")
  end.

Fixpoint push_loop (fuel : nat) (fin : bool) : uniM unit :=
  pending ← gets us_pending;
  r ← lift (h3_decode pending);
  match r with
  | Some (frame, consumed) =>
      match fuel with
      | O => lift Diverge
      | S fuel => _ ← drain_pending consumed; _ ← push_frame frame; push_loop fuel fin
      end
  | None =>
      if fin && (0 <? len pending) then fail (Parse (msg "truncated push stream frame")) else mret tt
  end.

Definition ingest_push_frames (fin : bool) : uniM unit :=
  pending ← gets us_pending;
  _ ← push_loop (length pending) fin;
  ensure_pending_limit.
End UniStream.

(** ** The connection *)

Record H3Push := {
  hp_push_id : Z;
  hp_request_headers : headers;
  hp_response_headers : headers;
  hp_body : bytes;
}.

Record H3Connection (Q : Type) := {
  h3_quic : Q;
  h3_encoder : QpackEncoder;
  h3_decoder : QpackDecoder;
  h3_peer_settings : option (list H3Setting);
  h3_control_opened : bool;
  h3_local_control : option Z;
  h3_local_encoder : option Z;
  h3_local_decoder : option Z;
  h3_uni_states : gmap Z UniStreamState;
  h3_peer_control : option Z;
  h3_peer_encoder : option Z;
  h3_peer_decoder : option Z;
  h3_goaway_received : bool;
  h3_goaway_last : option Z;
  h3_peer_max_push_id : Z;
  h3_local_max_push_id : option Z;
  h3_next_push_id : Z;
  h3_promised : gmap Z headers;
  h3_ready : list H3Push;
  h3_order : nat → gset Z → list Z;
}.

Arguments h3_quic {_}. Arguments h3_encoder {_}. Arguments h3_decoder {_}. Arguments h3_peer_settings {_}.
Arguments h3_control_opened {_}. Arguments h3_local_control {_}. Arguments h3_local_encoder {_}.
Arguments h3_local_decoder {_}. Arguments h3_uni_states {_}. Arguments h3_peer_control {_}.
Arguments h3_peer_encoder {_}. Arguments h3_peer_decoder {_}. Arguments h3_goaway_received {_}.
Arguments h3_goaway_last {_}. Arguments h3_peer_max_push_id {_}. Arguments h3_local_max_push_id {_}.
Arguments h3_next_push_id {_}. Arguments h3_promised {_}. Arguments h3_ready {_}. Arguments h3_order {_}.

Definition validate_local_max_push_id (current : option Z) (max_push_id : Z) : hres unit :=
  match current with
  | Some previous => if max_push_id <? previous
                     then Err (h3_id_error "locally advertised MAX_PUSH_ID decreased from {} to {}") else Ok tt
  | None => Ok tt
  end.

Definition ensure_initial_headers_seen (seen : bool) (label : string) : hres unit :=
  if seen then Ok tt else Err (h3_message_error (label +:+ " stream ended without an initial HEADERS frame")).

Definition validate_incoming_push_id (local_max : option Z) (push_id : Z) : hres unit :=
  match local_max with
  | Some m => if push_id <=? m then Ok tt
              else Err (h3_id_error "received push ID {push_id} above advertised MAX_PUSH_ID {max_push_id}")
  | None => Err (h3_id_error "received push ID {push_id} before advertising MAX_PUSH_ID")
  end.

Fixpoint settings_unique (seen : gset Z) (l : list H3Setting) : hres unit :=
  match l with
  | [] => Ok tt
  | s :: l =>
      if is_reserved_http2_setting_id (set_id s) then Err (h3_settings_error "reserved HTTP/2 setting id 0x{:02x}")
      else if bool_decide (set_id s ∈ seen) then Err (h3_settings_error "duplicate setting id 0x{:02x}")
      else settings_unique ({[set_id s]} ∪ seen) l
  end.

Definition validate_settings (l : list H3Setting) : hres unit := settings_unique ∅ l.

Definition setting_value (id : Z) (l : list H3Setting) : Z :=
  default 0 (set_value <$> head (filter (λ s, set_id s = id) l)).

Definition push_id_within_limit (next peer_max : Z) : bool := next <=? peer_max.

(** [register_peer_uni_stream]: the slot after it. *)
Definition register_peer_uni_stream (slot : option Z) (sid : Z) (label : string) : hres (option Z) :=
  match slot with
  | Some existing =>
      if existing =? sid then Ok slot
      else Err (Parse (msg ("H3_STREAM_CREATION_ERROR (0x0103): duplicate peer " +:+ label +:+ " stream")))
  | None => Ok (Some sid)
  end.

Section Conn.
Context {Q : Type} `{QuicTransport Q} `{QpackCodec}.
Abbreviation h3conn := (H3Connection Q).
Abbreviation h3M := (stM h3conn HttpError).

Definition h3_new (quic : Q) (order : nat → gset Z → list Z) : h3conn := {|
  h3_quic := quic; h3_encoder := encoder_new; h3_decoder := with_capacity 0 0;
  h3_peer_settings := None; h3_control_opened := false; h3_local_control := None;
  h3_local_encoder := None; h3_local_decoder := None; h3_uni_states := ∅;
  h3_peer_control := None; h3_peer_encoder := None; h3_peer_decoder := None;
  h3_goaway_received := false; h3_goaway_last := None; h3_peer_max_push_id := 0;
  h3_local_max_push_id := None; h3_next_push_id := 0; h3_promised := ∅; h3_ready := []; h3_order := order |}.

Definition on_quic {A} (m : stM Q QuicError A) : h3M A := λ h,
  let '(r, q) := m (h3_quic h) in (map_err (λ _, Quic) r, h <| h3_quic := q |>).

(** Bytes for a stream; how many were taken is not looked at. *)
Definition send_on (sid : Z) (data : bytes) (fin : bool) : h3M unit :=
  _ ← on_quic (tr_send sid data fin); mret tt.

Definition local_settings : H3Frame :=
  Settings [{| set_id := QPACK_MAX_TABLE_CAPACITY; set_value := 0 |};
            {| set_id := QPACK_BLOCKED_STREAMS; set_value := 0 |}].

Definition open_control_stream : h3M unit :=
  opened ← gets h3_control_opened;
  if opened : bool then mret tt
  else
    control ← on_quic tr_open_uni;
    enc ← on_quic tr_open_uni;
    dec ← on_quic tr_open_uni;
    buf ← build (_ ← quic (encode_varint CONTROL_STREAM_TYPE); h3_encode local_settings);
    _ ← send_on control buf false;
    buf ← build (quic (encode_varint QPACK_ENCODER_STREAM_TYPE));
    _ ← send_on enc buf false;
    buf ← build (quic (encode_varint QPACK_DECODER_STREAM_TYPE));
    _ ← send_on dec buf false;
    _ ← on_quic tr_flush;
    modify (λ h, h <| h3_control_opened := true |> <| h3_local_control := Some control |>
                   <| h3_local_encoder := Some enc |> <| h3_local_decoder := Some dec |>).

Definition send_pending_on (sid : option Z) (data : bytes) : h3M unit :=
  match sid with
  | Some sid => if 0 <? len data then send_on sid data false else mret tt
  | None => mret tt
  end.

Definition flush_qpack_stream_data : h3M unit :=
  h ← gets (λ h, h);
  if negb (h3_control_opened h) then mret tt
  else
    _ ← (match h3_local_encoder h with
         | Some sid =>
             _ ← modify (λ h, h <| h3_encoder -> qe_pending := [] |>);
             send_pending_on (Some sid) (qe_pending (h3_encoder h))
         | None => mret tt
         end);
    match h3_local_decoder h with
    | Some sid =>
        _ ← modify (λ h, h <| h3_decoder -> qd_pending := [] |>);
        send_pending_on (Some sid) (qd_pending (h3_decoder h))
    | None => mret tt
    end.

(** [flush] is the [flush_qpack_stream_data] of the side. *)
Definition decode_header_block_wait (flush : h3M unit) (block : bytes) : h3M headers :=
  h ← lift (decode_header_block block);
  _ ← flush;
  mret h.

(** *** Control frames *)

Definition apply_peer_settings (l : list H3Setting) : h3M unit :=
  _ ← lift (validate_settings l);
  modify (λ h, h <| h3_encoder -> qe_capacity := setting_value QPACK_MAX_TABLE_CAPACITY l |>
                 <| h3_encoder -> qe_blocked := setting_value QPACK_BLOCKED_STREAMS l |>
                 <| h3_peer_settings := Some l |>).

Definition process_settings (sid : Z) (l : list H3Setting) : h3M unit :=
  control ← gets h3_peer_control;
  if bool_decide (control = Some sid) then apply_peer_settings l
  else fail (Parse (msg "H3_STREAM_CREATION_ERROR (0x0103): SETTINGS received on non-control stream")).

Definition process_control_frame (sid : Z) (f : H3Frame) : h3M unit :=
  match f with
  | Settings l => process_settings sid l
  | GoAway last =>
      prev ← gets h3_goaway_last;
      if match prev with Some prev => prev <? last | None => false end
      then fail (h3_id_error "GOAWAY stream ID increased from {} to {}")
      else modify (λ h, h <| h3_goaway_received := true |> <| h3_goaway_last := Some last |>)
  | MaxPushId _ => fail (h3_frame_unexpected "server sent MAX_PUSH_ID {max_push_id}")
  | _ => mret tt
  end.

(** *** Pushes *)

(** An operation on the state of a stream that is held by the caller. *)
Definition run_uni {A} (m : uniM A) (s : UniStreamState) : h3M (A * UniStreamState) :=
  match m s with
  | (Ok a, s) => mret (a, s)
  | (Err e, _) => fail e
  | (Panic, _) => lift Panic
  | (Diverge, _) => lift Diverge
  end.

Definition finish_push_stream (s : UniStreamState) : h3M unit :=
  '(id, s) ← run_uni (ingest_push_id true) s;
  push_id ← lift (ok_or (Parse (msg "missing push stream ID")) id);
  local_max ← gets h3_local_max_push_id;
  _ ← lift (validate_incoming_push_id local_max push_id);
  _ ← lift (ensure_initial_headers_seen (bool_decide (is_Some (us_push_headers s))) "push response");
  response ← (match us_push_headers s with Some b => decode_header_block_wait flush_qpack_stream_data b | None => mret [] end);
  _ ← (match us_push_trailers s with Some b => decode_header_block_wait flush_qpack_stream_data b | None => mret [] end);
  modify (λ h, h <| h3_promised ::= delete push_id |>
                 <| h3_ready ::= (λ l, l ++ [{| hp_push_id := push_id;
                      hp_request_headers := default [] (h3_promised h !! push_id);
                      hp_response_headers := response; hp_body := us_push_body s |}]) |>).

(** The promise is given to the first ready push that waits for it. *)
Fixpoint give_promise (push_id : Z) (request : headers) (l : list H3Push) : option (list H3Push) :=
  match l with
  | [] => None
  | p :: l =>
      if (hp_push_id p =? push_id) && bool_decide (hp_request_headers p = [])
      then Some ({| hp_push_id := hp_push_id p; hp_request_headers := request;
                    hp_response_headers := hp_response_headers p; hp_body := hp_body p |} :: l)
      else (p ::.) <$> give_promise push_id request l
  end.

Definition store_promised_push (push_id : Z) (request : headers) : h3M unit :=
  local_max ← gets h3_local_max_push_id;
  _ ← lift (validate_incoming_push_id local_max push_id);
  modify (λ h, match give_promise push_id request (h3_ready h) with
               | Some l => h <| h3_ready := l |>
               | None => h <| h3_promised ::= <[push_id := request]> |>
               end).

(** *** Reading the unidirectional streams *)

Definition is_peer_critical_stream (h : h3conn) (sid : Z) : bool :=
  bool_decide (h3_peer_control h = Some sid) || bool_decide (h3_peer_encoder h = Some sid)
  || bool_decide (h3_peer_decoder h = Some sid).

Fixpoint for_each {A} (f : A → h3M unit) (l : list A) : h3M unit :=
  match l with
  | [] => mret tt
  | x :: l => _ ← f x; for_each f l
  end.

(** What the sides do differently with a stream. *)
Context (limit_of : option Z → option Z) (control : Z → H3Frame → h3M unit) (pushes : bool)
  (flush_tables : h3M unit).

Definition process_uni_stream (sid : Z) (s : UniStreamState) (fin : bool) : h3M UniStreamState :=
  match us_type s with
  | None => mret s
  | Some t =>
      if t =? CONTROL_STREAM_TYPE then
        h ← gets (λ h, h);
        slot ← lift (register_peer_uni_stream (h3_peer_control h) sid "control");
        _ ← modify (λ h, h <| h3_peer_control := slot |>);
        '(frames, s) ← run_uni (ingest_control_frames limit_of fin) s;
        _ ← for_each (control sid) frames;
        mret s
      else if t =? QPACK_ENCODER_STREAM_TYPE then
        h ← gets (λ h, h);
        slot ← lift (register_peer_uni_stream (h3_peer_encoder h) sid "QPACK encoder");
        _ ← modify (λ h, h <| h3_peer_encoder := slot |>);
        mret (s <| us_pending := [] |>)
      else if t =? QPACK_DECODER_STREAM_TYPE then
        h ← gets (λ h, h);
        slot ← lift (register_peer_uni_stream (h3_peer_decoder h) sid "QPACK decoder");
        _ ← modify (λ h, h <| h3_peer_decoder := slot |>);
        mret (s <| us_pending := [] |>)
      else if pushes && (t =? PUSH_STREAM_TYPE) then
        '(id, s) ← run_uni (ingest_push_id fin) s;
        match id with
        | Some _ => '(_, s) ← run_uni (ingest_push_frames limit_of fin) s; mret s
        | None => mret s
        end
      else mret (s <| us_pending := [] |>)
  end.

Fixpoint read_uni (fuel : nat) (sid : Z) (s : UniStreamState) : h3M (bool * UniStreamState) :=
  '(data, fin) ← on_quic (tr_recv sid 4096);
  '(_, s) ← run_uni (ingest limit_of data fin) s;
  s ← process_uni_stream sid s fin;
  if fin || (len data =? 0) then mret (fin, s)
  else match fuel with
       | O => lift Diverge
       | S fuel => read_uni fuel sid s
       end.

Definition poll_uni_stream (sid : Z) : h3M unit :=
  h ← gets (λ h, h);
  _ ← modify (λ h, h <| h3_uni_states ::= delete sid |>);
  '(fin, s) ← read_uni (S (tr_buffered (h3_quic h) sid)) sid (default uni_default (h3_uni_states h !! sid));
  _ ← (if pushes && fin && bool_decide (us_type s = Some PUSH_STREAM_TYPE) then finish_push_stream s else mret tt);
  critical ← gets (λ h, is_peer_critical_stream h sid);
  if fin && critical then fail (Parse (msg "H3_CLOSED_CRITICAL_STREAM (0x0104): peer closed {} stream"))
  else if fin then mret tt
  else modify (λ h, h <| h3_uni_states ::= <[sid := s]> |>).

Definition draw_order (S : gset Z) : h3M (list Z) := λ h,
  (Ok (h3_order h 0%nat S), h <| h3_order := λ i, h3_order h (Datatypes.S i) |>).

Definition poll_control : h3M unit :=
  h ← gets (λ h, h);
  order ← draw_order (dom (h3_uni_states h) ∪ list_to_set (tr_incoming_uni (h3_quic h)));
  _ ← for_each poll_uni_stream order;
  flush_tables.

Definition h3_poll : h3M unit := _ ← on_quic tr_poll; poll_control.
Definition flush_pending : h3M unit := _ ← on_quic tr_flush; poll_control.

(** *** Messages *)

(** A HEADERS frame and, for a body that is not empty, a DATA frame. *)
Definition encode_message (h : headers) (body : option bytes) : henc unit :=
  block ← lift (encode_header_block h);
  _ ← h3_encode (H3Headers block);
  match body with
  | Some ((_ :: _) as b) => h3_encode (H3Data b)
  | _ => mret tt
  end.

Definition send_request (h : headers) (body : option bytes) : h3M Z :=
  _ ← open_control_stream;
  _ ← poll_control;
  goaway ← gets h3_goaway_received;
  if goaway : bool then fail ConnectionClosed
  else
    sid ← on_quic tr_open_bidi;
    buf ← build (encode_message h body);
    _ ← send_on sid buf true;
    _ ← flush_tables;
    _ ← flush_pending;
    mret sid.

Definition send_response (sid : Z) (h : headers) (body : option bytes) : h3M unit :=
  _ ← open_control_stream;
  _ ← poll_control;
  buf ← build (encode_message h body);
  _ ← send_on sid buf true;
  _ ← flush_tables;
  flush_pending.

(** Reading up to the FIN; [idle] counts the polls without progress. *)
Fixpoint read_to_end (fuel : nat) (sid : Z) (acc : bytes) (idle : Z) : h3M bytes :=
  '(data, fin) ← on_quic (tr_recv sid 16384);
  let acc := acc ++ data in
  let idle := if 0 <? len data then 0 else idle in
  if fin : bool then mret acc
  else
    idle ← (if len data =? 0 then
              if 1000 <=? idle + 1
              then fail (Parse (msg "read_response: no progress after repeated polls"))
              else _ ← h3_poll; mret (idle + 1)
            else mret idle);
    match fuel with
    | O => lift Diverge
    | S fuel => read_to_end fuel sid acc idle
    end.

(** What the frames of a message have given so far. *)
Record Message := { m_headers : option headers; m_trailers : bool; m_body : bytes }.

Definition message_frame (promise : Z → bytes → h3M unit) (f : H3Frame) (m : Message) : h3M Message :=
  match f with
  | H3Headers block =>
      match m_headers m with
      | None => h ← decode_header_block_wait flush_tables block;
                mret {| m_headers := Some h; m_trailers := m_trailers m; m_body := m_body m |}
      | Some _ =>
          if m_trailers m then fail (h3_frame_unexpected "more than two HEADERS frames on request stream")
          else _ ← decode_header_block_wait flush_tables block;
               mret {| m_headers := m_headers m; m_trailers := true; m_body := m_body m |}
      end
  | H3Data data =>
      if negb (bool_decide (is_Some (m_headers m)))
      then fail (h3_frame_unexpected "DATA before HEADERS on request stream")
      else if m_trailers m then fail (h3_frame_unexpected "DATA after trailers on request stream")
      else mret {| m_headers := m_headers m; m_trailers := false; m_body := m_body m ++ data |}
  | PushPromise push_id block => _ ← promise push_id block; mret m
  | H3Unknown _ _ => mret m
  | _ => fail (h3_frame_unexpected "control frame on request stream")
  end.

Fixpoint message_frames (promise : Z → bytes → h3M unit) (fs : list H3Frame) (m : Message) : h3M Message :=
  match fs with
  | [] => mret m
  | f :: fs => m ← message_frame promise f m; message_frames promise fs m
  end.

Definition read_frames (promise : Z → bytes → h3M unit) (label : string) (data : bytes) : h3M (headers * bytes) :=
  fs ← lift (decode_all_frames_at_eof data);
  m ← message_frames promise fs {| m_headers := None; m_trailers := false; m_body := [] |};
  _ ← lift (ensure_initial_headers_seen (bool_decide (is_Some (m_headers m))) label);
  mret (default [] (m_headers m), m_body m).

Definition read_message (promise : Z → bytes → h3M unit) (label : string) (fuel : nat) (sid : Z)
    : h3M (headers * bytes) :=
  _ ← poll_control;
  data ← read_to_end fuel sid [] 0;
  read_frames promise label data.
End Conn.

(** ** The client's side *)

Section Client.
Context {Q : Type} `{QuicTransport Q} `{QpackCodec}.
Abbreviation h3M := (stM (H3Connection Q) HttpError).

Definition client_poll_control : h3M unit := poll_control client_limit process_control_frame true flush_qpack_stream_data.
Definition client_flush_pending : h3M unit := flush_pending client_limit process_control_frame true flush_qpack_stream_data.

Definition promised (push_id : Z) (block : bytes) : h3M unit :=
  h ← decode_header_block_wait flush_qpack_stream_data block; store_promised_push push_id h.

Definition read_response : nat → Z → h3M (headers * bytes) :=
  read_message client_limit process_control_frame true flush_qpack_stream_data promised "request/response".

(** A frame on the local control stream. *)
Definition send_control_frame (f : H3Frame) : h3M unit :=
  sid ← (sid ← gets h3_local_control; lift (ok_or (Parse (msg "local control stream missing")) sid));
  buf ← build (h3_encode f);
  send_on sid buf false.

Definition send_priority_update (sid : Z) (value : bytes) : h3M unit :=
  _ ← open_control_stream;
  _ ← send_control_frame (PriorityUpdateRequest sid value);
  client_flush_pending.

Definition send_max_push_id (max_push_id : Z) : h3M unit :=
  current ← gets h3_local_max_push_id;
  _ ← lift (validate_local_max_push_id current max_push_id);
  _ ← open_control_stream;
  _ ← send_control_frame (MaxPushId max_push_id);
  _ ← modify (λ h, h <| h3_local_max_push_id := Some max_push_id |>);
  client_flush_pending.

Definition cancel_push (push_id : Z) : h3M unit :=
  _ ← open_control_stream;
  _ ← send_control_frame (CancelPush push_id);
  client_flush_pending.

Definition send_push (parent : Z) (request response : headers) (body : option bytes) : h3M Z :=
  _ ← open_control_stream;
  _ ← client_poll_control;
  h ← gets (λ h, h);
  if negb (push_id_within_limit (h3_next_push_id h) (h3_peer_max_push_id h))
  then fail (Parse (msg "peer did not permit another server push"))
  else
    let push_id := h3_next_push_id h in
    next ← lift (add_u64 push_id 1);
    _ ← modify (λ h, h <| h3_next_push_id := next |>);
    block ← lift (encode_header_block request);
    buf ← build (h3_encode (PushPromise push_id block));
    _ ← send_on parent buf false;
    sid ← on_quic tr_open_uni;
    buf ← build (_ ← quic (encode_varint PUSH_STREAM_TYPE); _ ← quic (encode_varint push_id);
                 encode_message response body);
    _ ← send_on sid buf true;
    _ ← flush_qpack_stream_data;
    _ ← client_flush_pending;
    mret push_id.

Definition accept_push : h3M (option H3Push) := λ h,
  match h3_ready h with
  | [] => (Ok None, h)
  | p :: l => (Ok (Some p), h <| h3_ready := l |>)
  end.
End Client.
