(* ===== verification/H3Server.v ===== *)
(** * The HTTP/3 server connection and the pseudo-header rules
    (starfish-http/src/h3/server.rs, client.rs)

    A server connection is an [H3Connection] over the endpoint of its handle: it
    uses the fields the source has, those of pushed streams and GOAWAY stay as
    they are.  [tr_flush] is [flush_all], [tr_poll] is [drive]. *)

From S2P Require Import Prelude QuicError Varint Text HttpError H3Frame H3Connection.

Definition MAX_UNI_STREAM_PENDING_BYTES : Z := 64 * 1024.

Definition server_limit (t : option Z) : option Z :=
  match t with Some _ => Some MAX_UNI_STREAM_PENDING_BYTES | None => None end.

Definition update_peer_max_push_id (current max_push_id : Z) : hres Z :=
  if max_push_id <? current then Err (h3_id_error "peer reduced MAX_PUSH_ID from {} to {}") else Ok max_push_id.

Section Server.
Context {Q : Type} `{QuicTransport Q} `{QpackCodec}.
Abbreviation h3M := (stM (H3Connection Q) HttpError).

Definition server_control_frame (sid : Z) (f : H3Frame) : h3M unit :=
  match f with
  | Settings l => process_settings sid l
  | MaxPushId max_push_id =>
      current ← gets h3_peer_max_push_id;
      next ← lift (update_peer_max_push_id current max_push_id);
      modify (λ h, h <| h3_peer_max_push_id := next |>)
  | _ => mret tt
  end.

(** The pending instructions of both tables, then one flush. *)
Definition server_flush_qpack : h3M unit :=
  h ← gets (λ h, h);
  if negb (h3_control_opened h) then mret tt
  else
    let e := qe_pending (h3_encoder h) in
    let d := qd_pending (h3_decoder h) in
    _ ← modify (λ h, h <| h3_encoder -> qe_pending := [] |> <| h3_decoder -> qd_pending := [] |>);
    if (len e =? 0) && (len d =? 0) then mret tt
    else
      _ ← send_pending_on (h3_local_encoder h) e;
      _ ← send_pending_on (h3_local_decoder h) d;
      on_quic tr_flush.

Definition server_poll_control : h3M unit := poll_control server_limit server_control_frame false server_flush_qpack.

Definition server_poll : h3M unit := h3_poll server_limit server_control_frame false server_flush_qpack.

(** A request stream carries no PUSH_PROMISE. *)
Definition no_promise (push_id : Z) (block : bytes) : h3M unit :=
  fail (h3_frame_unexpected "PUSH_PROMISE on request stream").

Definition server_read_request : nat → Z → h3M (headers * bytes) :=
  read_message server_limit server_control_frame false server_flush_qpack no_promise "request".

(** The [:status] field and the fields of the response. *)
Definition response_headers (status : Z) (fields : headers) : headers :=
  (str ":status", show_dec status) :: fields.

Definition server_send_response (sid status : Z) (fields : headers) (body : bytes) : h3M unit :=
  _ ← open_control_stream;
  _ ← server_poll_control;
  buf ← build (encode_message (response_headers status fields) (Some body));
  _ ← server_flush_qpack;
  _ ← send_on sid buf true;
  _ ← on_quic tr_flush;
  server_poll_control.

Definition server_send_push (parent : Z) (request : headers) (status : Z) (fields : headers) (body : bytes)
    : h3M Z :=
  _ ← open_control_stream;
  _ ← server_poll_control;
  h ← gets (λ h, h);
  if negb (push_id_within_limit (h3_next_push_id h) (h3_peer_max_push_id h))
  then fail (Parse (msg "peer did not permit another server push"))
  else
    let push_id := h3_next_push_id h in
    next ← lift (add_u64 push_id 1);
    _ ← modify (λ h, h <| h3_next_push_id := next |>);
    block ← lift (encode_header_block request);
    promise ← build (h3_encode (PushPromise push_id block));
    _ ← send_on parent promise false;
    sid ← on_quic tr_open_uni;
    buf ← build (_ ← quic (encode_varint PUSH_STREAM_TYPE); _ ← quic (encode_varint push_id);
                 encode_message (response_headers status fields) (Some body));
    _ ← server_flush_qpack;
    _ ← send_on sid buf true;
    _ ← on_quic tr_flush;
    _ ← server_poll_control;
    mret push_id.
End Server.

(** ** Pseudo-header fields *)

Definition is_pseudo (name : text) : bool := starts_with (str ":") name.

Record RequestPseudoHeaders := {
  ps_method : option text;
  ps_scheme : option text;
  ps_authority : option text;
  ps_path : option text;
}.

Definition pseudo_default : RequestPseudoHeaders :=
  {| ps_method := None; ps_scheme := None; ps_authority := None; ps_path := None |}.

Definition set_request_pseudo_header (slot : option text) (value : text) : hres (option text) :=
  match slot with
  | Some _ => Err (h3_message_error "duplicate {name} pseudo-header")
  | None => Ok (Some value)
  end.

Definition request_pseudo_header (name value : text) (p : RequestPseudoHeaders) : hres RequestPseudoHeaders :=
  if bool_decide (name = str ":method") then
    x ← set_request_pseudo_header (ps_method p) value; Ok (p <| ps_method := x |>)
  else if bool_decide (name = str ":scheme") then
    x ← set_request_pseudo_header (ps_scheme p) value; Ok (p <| ps_scheme := x |>)
  else if bool_decide (name = str ":authority") then
    x ← set_request_pseudo_header (ps_authority p) value; Ok (p <| ps_authority := x |>)
  else if bool_decide (name = str ":path") then
    x ← set_request_pseudo_header (ps_path p) value; Ok (p <| ps_path := x |>)
  else Err (h3_message_error "unexpected request pseudo-header {name}").

Fixpoint collect_request_pseudo (h : headers) (regular : bool) (p : RequestPseudoHeaders)
    : hres RequestPseudoHeaders :=
  match h with
  | [] => Ok p
  | (name, value) :: h =>
      if is_pseudo name then
        if regular
        then Err (h3_message_error "request pseudo-header field appeared after a regular header field")
        else p ← request_pseudo_header name value p; collect_request_pseudo h regular p
      else collect_request_pseudo h true p
  end.

Definition validate_request_pseudo_headers (h : headers) : hres RequestPseudoHeaders :=
  p ← collect_request_pseudo h false pseudo_default;
  method ← ok_or (h3_message_error "missing :method pseudo-header") (ps_method p);
  if bool_decide (method = str "CONNECT") then
    if bool_decide (is_Some (ps_scheme p)) || bool_decide (is_Some (ps_path p))
    then Err (h3_message_error "CONNECT request must not include :scheme or :path pseudo-headers")
    else if negb (bool_decide (is_Some (ps_authority p)))
    then Err (h3_message_error "CONNECT request is missing :authority pseudo-header")
    else Ok p
  else if negb (bool_decide (is_Some (ps_scheme p))) then Err (h3_message_error "missing :scheme pseudo-header")
  else if negb (bool_decide (is_Some (ps_path p))) then Err (h3_message_error "missing :path pseudo-header")
  else Ok p.

Fixpoint collect_status (h : headers) (regular : bool) (status : option text) : hres (option text) :=
  match h with
  | [] => Ok status
  | (name, value) :: h =>
      if is_pseudo name then
        if regular
        then Err (h3_message_error "response pseudo-header field appeared after a regular header field")
        else if negb (bool_decide (name = str ":status"))
        then Err (h3_message_error "unexpected response pseudo-header {name}")
        else match status with
             | Some _ => Err (h3_message_error "duplicate :status pseudo-header")
             | None => collect_status h regular (Some value)
             end
      else collect_status h true status
  end.

Definition validate_response_headers (h : headers) : hres text :=
  status ← collect_status h false None;
  ok_or (h3_message_error "missing :status pseudo-header") status.

(** A request as the http crate hands it out: the parts of its URI and its fields
    whose values are text. *)
Record H3Request := {
  rq_method : text;
  rq_scheme : option text;
  rq_authority : option text;
  rq_path_and_query : option text;
  rq_fields : headers;
  rq_body : bytes;
}.

(** [request_into_h3_headers]. *)
Definition request_into_h3_headers (r : H3Request) : headers :=
  let authority := default [] (rq_authority r) in
  [(str ":method", rq_method r); (str ":path", default (str "/") (rq_path_and_query r));
   (str ":scheme", default (str "https") (rq_scheme r))]
  ++ (match authority with [] => [] | _ => [(str ":authority", authority)] end)
  ++ rq_fields r.

Record H3Priority := { urgency : Z; incremental : bool }.

Definition priority_new (urgency : Z) (incremental : bool) : H3Priority :=
  {| urgency := Z.min urgency 7; incremental := incremental |}.

Definition as_header_value (p : H3Priority) : text :=
  str "u=" ++ show_dec (urgency p) ++ (if incremental p then str ", i" else []).

Definition DEFAULT_ACCEPT_ENCODING : text := str "gzip, br, zstd".

(** [request_into_h3_parts] of the client: as above, with what it adds. *)
Definition request_into_h3_parts (r : H3Request) (priority : option H3Priority) : headers * option bytes :=
  let has name := bool_decide (Exists (λ f, eq_ignore_ascii_case f.1 (str name) = true) (rq_fields r)) in
  (request_into_h3_headers r
   ++ (if has "accept-encoding" then [] else [(str "accept-encoding", DEFAULT_ACCEPT_ENCODING)])
   ++ (if has "priority" then []
       else match priority with Some p => [(str "priority", as_header_value p)] | None => [] end),
   match rq_body r with [] => None | b => Some b end).

(** ** The messages of the http crate *)

(** Whether [http::Method], [http::Uri] (from the pseudo-headers the source gives
    it) and the header map accept what they are built from. *)
Class HttpCrate := {
  method_ok : text → bool;
  uri_ok : RequestPseudoHeaders → bool;
  fields_ok : headers → bool;
  status_ok : Z → bool;
}.

Definition regular_fields (h : headers) : headers := filter (λ f, is_pseudo f.1 = false) h.

(** The method, the pseudo-headers of the URI, the fields and the body of the
    [http::Request]. *)
Definition request_from_h3_parts `{HttpCrate} (h : headers) (body : bytes)
    : hres (RequestPseudoHeaders * headers * bytes) :=
  p ← validate_request_pseudo_headers h;
  match ps_method p with
  | None => Panic
  | Some method =>
      if negb (method_ok method) then Err (Parse (msg "invalid method: {e}"))
      else if negb (uri_ok p) then Err (Parse (msg "invalid URI: {e}"))
      else if negb (fields_ok (regular_fields h)) then Err (Parse (msg "build request: {e}"))
      else Ok (p, regular_fields h, body)
  end.

(** The status, the fields and the body of the [http::Response], before its
    content coding is undone. *)
Definition response_from_h3_parts `{HttpCrate} (h : headers) (body : bytes) : hres (Z * headers * bytes) :=
  status ← validate_response_headers h;
  status ← ok_or (Parse (msg "invalid :status")) (parse_uint U16_MAX status);
  if negb (status_ok status) then Err (Parse (msg "invalid status: {e}"))
  else if negb (fields_ok (regular_fields h)) then Err (Parse (msg "build response: {e}"))
  else Ok (status, regular_fields h, body).

Section Receiving.
Context {Q : Type} `{QuicTransport Q} `{QpackCodec} `{HttpCrate}.
Abbreviation h3M := (stM (H3Connection Q) HttpError).

(** The next stream with a request; [fuel] bounds the polls. *)
Fixpoint next_request (fuel : nat) : h3M Z :=
  _ ← server_poll_control;
  id ← gets (λ h, tr_incoming_bidi (h3_quic h));
  match id with
  | Some id => mret id
  | None =>
      _ ← server_poll;
      id ← gets (λ h, tr_incoming_bidi (h3_quic h));
      match id, fuel with
      | Some id, _ => mret id
      | None, O => lift Diverge
      | None, S fuel => next_request fuel
      end
  end.

Definition recv_request (fuel : nat) : h3M (Z * (RequestPseudoHeaders * headers * bytes)) :=
  sid ← next_request fuel;
  '(h, body) ← server_read_request fuel sid;
  r ← lift (request_from_h3_parts h body);
  mret (sid, r).

Definition client_recv_response (fuel : nat) (sid : Z) : h3M (Z * headers * bytes) :=
  '(h, body) ← read_response fuel sid;
  lift (response_from_h3_parts h body).
End Receiving.

(** ** The client *)

Section ClientSide.
Context {Q : Type} `{QuicTransport Q} `{QpackCodec}.
Abbreviation h3M := (stM (H3Connection Q) HttpError).

Definition client_send_request (r : H3Request) (priority : option H3Priority) : h3M Z :=
  let '(h, body) := request_into_h3_parts r priority in
  sid ← send_request client_limit process_control_frame true flush_qpack_stream_data h body;
  _ ← (match priority with
       | Some p => send_priority_update sid (as_bytes (as_header_value p))
       | None => mret tt
       end);
  mret sid.
End ClientSide.
