(* ===== verification/H3Props.v ===== *)
(** * Properties of HTTP/3 connections *)

From S2P Require Import Prelude QuicError Varint Text TextProps HttpError H3Frame H3FrameProps H3Connection H3Server.

(** ** Frames on a control stream, in pieces of any size *)

(** [p] is the beginning of the first frame, not all of it. *)
Definition cut (fs : list H3Frame) (p : bytes) : Prop :=
  match fs with
  | [] => p = []
  | f :: _ => ∃ q, h3_bytes f = p ++ q ∧ q ≠ []
  end.

Lemma cut_nil fs : Forall h3_wf fs → cut fs [].
Proof.
  destruct fs as [|f fs]; [done|]. intros Hf. apply Forall_cons in Hf as [Hf _]. exists (h3_bytes f). split; [done|].
  intros E. pose proof (h3_bytes_pos f Hf) as Hp. rewrite E, len_nil in Hp. lia.
Qed.

Lemma cut_decode fs p : Forall h3_wf fs → cut fs p → h3_decode p = Ok None.
Proof.
  intros Hf Hc. destruct fs as [|f fs]; [by rewrite Hc|]. apply Forall_cons in Hf as [Hf _].
  destruct Hc as (q & E & Hq). by eapply h3_cut.
Qed.

Lemma frames_prefix fs : ∀ x y, Forall h3_wf fs → frames_bytes fs = x ++ y →
  ∃ fs1 fs2 p, fs = fs1 ++ fs2 ∧ x = frames_bytes fs1 ++ p ∧ cut fs2 p ∧ p ++ y = frames_bytes fs2.
Proof.
  induction fs as [|f fs IH]; intros x y Hfs E.
  { symmetry in E. apply app_eq_nil in E as [-> ->]. by exists [], [], []. }
  apply Forall_cons in Hfs as [Hf Hfs]. unfold frames_bytes in E. cbn in E. pose proof E as E'. symmetry in E.
  apply app_eq_inv in E as [(k & -> & E)|(k & E & ->)].
  - destruct (IH k y Hfs E) as (fs1 & fs2 & p & -> & -> & Hc & Hy). exists (f :: fs1), fs2, p.
    split_and!; try done. unfold frames_bytes. cbn. by rewrite <-app_assoc.
  - destruct (decide (k = [])) as [->|Hk].
    + rewrite app_nil_r in E. exists [f], fs, []. split_and!; [done| |by apply cut_nil|done].
      unfold frames_bytes. cbn. by rewrite !app_nil_r.
    + exists [], (f :: fs), x. split_and!; [done..|by exists k|]. unfold frames_bytes. cbn. by rewrite E, <-app_assoc.
Qed.

(** The frames a peer may send: SETTINGS first and only once, and no frame of
    another stream. *)
Fixpoint legal (seen : bool) (fs : list H3Frame) : Prop :=
  match fs with
  | [] => True
  | f :: fs => is_settings f = negb seen ∧ not_on_control f = false ∧ legal true fs
  end.

Lemma legal_app seen fs1 : ∀ fs2, legal seen (fs1 ++ fs2) →
  legal seen fs1 ∧ legal (seen || bool_decide (fs1 ≠ [])) fs2.
Proof.
  revert seen. induction fs1 as [|f fs1 IH]; intros seen fs2; cbn [app legal].
  { intros Hl. split; [done|]. by rewrite bool_decide_eq_false_2, orb_false_r by naive_solver. }
  intros (? & ? & Hl). destruct (IH true fs2 Hl) as [? Hl2]. rewrite bool_decide_eq_true_2, orb_true_r by done. done.
Qed.

Lemma drain_pending_eq n (s : UniStreamState) rest : at_pos (us_pending s) n rest →
  drain_pending n s = (Ok tt, s <| us_pending := rest |>).
Proof. intros Hp. unfold drain_pending, mbind, stM_bind, gets, lift, modify. by rewrite (slice_from_at _ _ _ Hp). Qed.

Lemma check_control_frame_eq f (s : UniStreamState) :
  is_settings f = negb (us_settings_seen s) → not_on_control f = false →
  check_control_frame f s = (Ok tt, s <| us_settings_seen := true |>).
Proof.
  intros Hs Hn. unfold check_control_frame. rewrite gets_bind, Hs, Hn. destruct s as [? ? ? [] ? ? ?]; done.
Qed.

Lemma control_loop_eq fs : ∀ fuel fs2 p (s : UniStreamState),
  Forall h3_wf fs → Forall h3_wf fs2 → cut fs2 p → us_pending s = frames_bytes fs ++ p →
  legal (us_settings_seen s) fs → (length fs ≤ fuel)%nat →
  control_loop fuel false s =
    (Ok fs, s <| us_pending := p |> <| us_settings_seen := us_settings_seen s || bool_decide (fs ≠ []) |>).
Proof.
  induction fs as [|f fs IH]; intros fuel fs2 p s Hfs Hf2 Hc E Hl Hn.
  { cbn in E. rewrite bool_decide_eq_false_2, orb_false_r by naive_solver.
    destruct fuel; cbn [control_loop]; rewrite gets_bind, E, (cut_decode fs2 p Hf2 Hc), lift_ok_bind; by destruct s; cbn in E; subst. }
  apply Forall_cons in Hfs as [Hf Hfs]. destruct Hl as (Hs & Hnc & Hl).
  unfold frames_bytes in E. cbn in E. rewrite <-app_assoc in E.
  destruct fuel as [|fuel]; [cbn in Hn; lia|]. cbn [control_loop]. rewrite gets_bind, E, h3_decode_eq by done.
  rewrite lift_ok_bind. rewrite (stM_bind_ok _ _ _ _ _ (drain_pending_eq _ _ _ (eq_ind_r (λ x, at_pos x _ _) (at_pos_prefix _ _) E))).
  erewrite stM_bind_ok; [|apply check_control_frame_eq; [exact Hs|exact Hnc]].
  erewrite stM_bind_ok; [|apply (IH fuel fs2 p); [done..|cbn in Hn; lia]].
  rewrite (bool_decide_eq_true_2 (f :: fs ≠ [])), orb_true_r by done. done.
Qed.

Section Control.
Context (limit_of : option Z → option Z) (Hlimit : limit_of (Some CONTROL_STREAM_TYPE) = Some (64 * 1024)).

(** What the reader of a stream does with a piece of it. *)
Definition feed_chunk (chunk : bytes) : uniM (list H3Frame) :=
  _ ← ingest limit_of chunk false;
  t ← gets us_type;
  if bool_decide (t = Some CONTROL_STREAM_TYPE) then ingest_control_frames limit_of false else mret [].

Fixpoint feed_chunks (chunks : list bytes) : uniM (list H3Frame) :=
  match chunks with
  | [] => mret []
  | c :: chunks => fs ← feed_chunk c; l ← feed_chunks chunks; mret (fs ++ l)
  end.

Lemma limit_ok (s : UniStreamState) : us_type s = Some CONTROL_STREAM_TYPE → len (us_pending s) ≤ 64 * 1024 →
  ensure_pending_limit limit_of s = (Ok tt, s).
Proof.
  intros Ht Hl. unfold ensure_pending_limit. rewrite gets_bind, Ht, Hlimit.
  by rewrite (proj2 (Z.ltb_ge _ _)) by lia.
Qed.

(** The frames leave room for one more read of the stream. *)
Definition small (fs : list H3Frame) : Prop := Forall (λ f, len (h3_bytes f) ≤ 60 * 1024) fs.

Lemma cut_small fs p : small fs → cut fs p → len p ≤ 60 * 1024.
Proof.
  intros Hs Hc. destruct fs as [|f fs]; [rewrite Hc, len_nil; lia|]. apply Forall_cons in Hs as [Hs _].
  destruct Hc as (q & E & _). rewrite E, len_app in Hs. pose proof (len_nonneg q). lia.
Qed.

Lemma control_step fs1 fs2 p (s : UniStreamState) :
  us_type s = Some CONTROL_STREAM_TYPE → Forall h3_wf fs1 → Forall h3_wf fs2 → small fs2 → cut fs2 p →
  us_pending s = frames_bytes fs1 ++ p → legal (us_settings_seen s) fs1 →
  ingest_control_frames limit_of false s =
    (Ok fs1, s <| us_pending := p |> <| us_settings_seen := us_settings_seen s || bool_decide (fs1 ≠ []) |>).
Proof.
  intros Ht H1 H2 Hs Hc E Hl. unfold ingest_control_frames. rewrite gets_bind.
  erewrite stM_bind_ok; [|eapply (control_loop_eq fs1); [done..|]].
  2: { rewrite E, length_app. pose proof (frames_length fs1 H1). lia. }
  erewrite stM_bind_ok; [|apply limit_ok; [done|]]; [done|]. pose proof (cut_small _ _ Hs Hc). change (len p ≤ 64 * 1024). lia.
Qed.

Lemma typed_step fs p c y (s : UniStreamState) :
  us_type s = Some CONTROL_STREAM_TYPE → Forall h3_wf fs → small fs → us_pending s = p → cut fs p →
  legal (us_settings_seen s) fs → len c ≤ 4096 → p ++ c ++ y = frames_bytes fs →
  ∃ fs1 fs2 p' s', fs = fs1 ++ fs2 ∧ feed_chunk c s = (Ok fs1, s') ∧
    us_type s' = Some CONTROL_STREAM_TYPE ∧ us_pending s' = p' ∧ cut fs2 p' ∧
    legal (us_settings_seen s') fs2 ∧ p' ++ y = frames_bytes fs2.
Proof.
  intros Ht Hw Hs Hp Hc Hl Hlen E. rewrite app_assoc in E.
  destruct (frames_prefix fs (p ++ c) y Hw ltac:(done)) as (fs1 & fs2 & p' & -> & E1 & Hc' & Hy).
  apply Forall_app in Hw as [Hw1 Hw2]. apply Forall_app in Hs as [Hs1 Hs2].
  pose proof (legal_app _ _ _ Hl) as [Hl1 Hl2]. eexists fs1, fs2, p', _. split; [done|]. split.
  - unfold feed_chunk, ingest. rewrite stM_bind_assoc, modify_bind. cbv beta. rewrite stM_bind_assoc, gets_bind.
    change (us_type (s <| us_pending ::= λ p0, p0 ++ c |>)) with (us_type s). rewrite Ht.
    erewrite stM_bind_ok; [|apply limit_ok; [done|]].
    2: { pose proof (cut_small (fs1 ++ fs2) p (Forall_app_2 _ _ _ Hs1 Hs2) Hc). change (len (us_pending s ++ c) ≤ 64 * 1024). rewrite Hp, len_app. lia. }
    rewrite gets_bind. change (us_type (s <| us_pending ::= λ p0, p0 ++ c |>)) with (us_type s).
    rewrite Ht, bool_decide_eq_true_2 by done.
    apply (control_step fs1 fs2 p'); try done. change (us_pending s ++ c = frames_bytes fs1 ++ p'). by rewrite Hp.
  - by split_and!.
Qed.

Lemma typed_chunks chunks : ∀ fs p (s : UniStreamState),
  us_type s = Some CONTROL_STREAM_TYPE → Forall h3_wf fs → small fs → us_pending s = p → cut fs p →
  legal (us_settings_seen s) fs → Forall (λ c, len c ≤ 4096) chunks → p ++ concat chunks = frames_bytes fs →
  ∃ s', feed_chunks chunks s = (Ok fs, s') ∧ us_pending s' = [].
Proof.
  induction chunks as [|c chunks IH]; intros fs p s Ht Hw Hs Hp Hc Hl Hn E.
  { cbn in E. rewrite app_nil_r in E. destruct fs as [|f fs]; [by exists s; rewrite Hp, Hc|].
    destruct Hc as (q & Eq & Hq). unfold frames_bytes in E. cbn in E. rewrite Eq in E.
    apply (f_equal len) in E. rewrite !len_app in E. destruct q as [|z q]; [done|]. rewrite len_cons in E.
    pose proof (len_nonneg q). pose proof (len_nonneg (concat (h3_bytes <$> fs))). lia. }
  apply Forall_cons in Hn as [Hcn Hn]. cbn [concat] in E.
  destruct (typed_step fs p c (concat chunks) s Ht Hw Hs Hp Hc Hl Hcn E)
    as (fs1 & fs2 & p' & s1 & -> & E1 & Ht1 & Hp1 & Hc1 & Hl1 & Hy).
  apply Forall_app in Hw as [_ Hw2]. apply Forall_app in Hs as [_ Hs2].
  destruct (IH fs2 p' s1 Ht1 Hw2 Hs2 Hp1 Hc1 Hl1 Hn Hy) as (s2 & E2 & Hp2).
  exists s2. split; [|done]. cbn [feed_chunks]. rewrite (stM_bind_ok _ _ _ _ _ E1), (stM_bind_ok _ _ _ _ _ E2). done.
Qed.

Lemma first_chunk c y fs : Forall h3_wf fs → small fs → legal false fs → len (0 :: c) ≤ 4096 →
  c ++ y = frames_bytes fs →
  ∃ fs1 fs2 p' s', fs = fs1 ++ fs2 ∧ feed_chunk (0 :: c) uni_default = (Ok fs1, s') ∧
    us_type s' = Some CONTROL_STREAM_TYPE ∧ us_pending s' = p' ∧ cut fs2 p' ∧
    legal (us_settings_seen s') fs2 ∧ p' ++ y = frames_bytes fs2.
Proof.
  intros Hw Hs Hl Hlen E. pose proof (len_nonneg c). rewrite len_cons in Hlen.
  set (typed := uni_default <| us_type := Some CONTROL_STREAM_TYPE |>).
  destruct (typed_step fs [] c y typed eq_refl Hw Hs eq_refl (cut_nil _ Hw) Hl ltac:(lia) E)
    as (fs1 & fs2 & p' & s' & E1 & Hf & Hrest).
  exists fs1, fs2, p', s'. split; [done|]. split; [|done]. rewrite <-Hf. unfold feed_chunk.
  assert (ingest limit_of (0 :: c) false uni_default = ingest limit_of c false typed) as E0.
  { unfold ingest. rewrite !modify_bind. cbv beta. rewrite !gets_bind. cbn -[h3_varint ensure_pending_limit].
    assert (h3_varint (0 :: c) = Ok (Some (0, 1))) as ->.
    { unfold h3_varint. pose proof (decode_varint_bytes 0 c ltac:(by apply (bool_decide_unpack _))) as D.
      change (varint_bytes 0 ++ c) with (0 :: c) in D. by rewrite D. }
    rewrite lift_ok_bind, modify_bind. erewrite stM_bind_ok; [reflexivity|].
    etransitivity; [apply (drain_pending_eq 1 _ c); apply (at_pos_prefix [0] c)|reflexivity]. }
  unfold mbind at 1, stM_bind at 1. rewrite E0. done.
Qed.
End Control.

(** C18: a peer's control stream, cut into pieces of up to 4096 bytes in any way,
    gives exactly its frames, in order, on both sides: the stream type is taken
    off, nothing is left over and no legal sequence is refused. *)
Theorem control_frames_delivered limit_of chunks fs :
  limit_of (Some CONTROL_STREAM_TYPE) = Some (64 * 1024) →
  Forall h3_wf fs → small fs → legal false fs → Forall (λ c, len c ≤ 4096) chunks →
  concat chunks = varint_bytes CONTROL_STREAM_TYPE ++ frames_bytes fs →
  ∃ s, feed_chunks limit_of chunks uni_default = (Ok fs, s) ∧ us_pending s = [].
Proof.
  intros Hlim Hw Hs Hl. induction chunks as [|c chunks IH]; intros Hn E; [done|].
  apply Forall_cons in Hn as [Hc Hn]. destruct c as [|b c]; cbn [concat app] in E.
  { destruct (IH Hn E) as (s & E1 & Hp). exists s. split; [|done]. cbn [feed_chunks].
    assert (feed_chunk limit_of [] uni_default = (Ok [], uni_default)) as E0 by done.
    by rewrite (stM_bind_ok _ _ _ _ _ E0), (stM_bind_ok _ _ _ _ _ E1). }
  change (varint_bytes CONTROL_STREAM_TYPE) with [0] in E. cbn in E. injection E as -> E.
  destruct (first_chunk limit_of Hlim c (concat chunks) fs Hw Hs Hl Hc E)
    as (fs1 & fs2 & p' & s1 & -> & E1 & Ht1 & Hp1 & Hc1 & Hl1 & Hy).
  apply Forall_app in Hw as [_ Hw2]. apply Forall_app in Hs as [_ Hs2].
  destruct (typed_chunks limit_of Hlim chunks fs2 p' s1 Ht1 Hw2 Hs2 Hp1 Hc1 Hl1 Hn Hy) as (s2 & E2 & Hp2).
  exists s2. split; [|done]. cbn [feed_chunks]. by rewrite (stM_bind_ok _ _ _ _ _ E1), (stM_bind_ok _ _ _ _ _ E2).
Qed.

Definition control_sample : list H3Frame :=
  [Settings [{| set_id := 1; set_value := 0 |}; {| set_id := 7; set_value := 100 |}]; H3Unknown 0x21 [1; 2];
   GoAway 12; MaxPushId 3].

Lemma control_frames_delivered_witness :
  let bs := varint_bytes CONTROL_STREAM_TYPE ++ frames_bytes control_sample in
  (∃ s, feed_chunks client_limit ((λ b, [b]) <$> bs) uni_default = (Ok control_sample, s) ∧ us_pending s = []) ∧
  (∃ s, feed_chunks server_limit [[]; take 3 bs; drop 3 bs] uni_default = (Ok control_sample, s) ∧ us_pending s = []).
Proof.
  assert (Forall h3_wf control_sample) by (repeat constructor; cbn; by apply (bool_decide_unpack _)).
  assert (small control_sample) by (repeat constructor; by vm_compute).
  assert (legal false control_sample) by (vm_compute; tauto).
  split; apply control_frames_delivered; try done; repeat constructor; by vm_compute.
Defined.
