(* ===== verification/H3MessageProps.v ===== *)
(** * HTTP/3 messages: what one side sends the other reads

    Messages round-trip through both sides; and the sides do not notice how much
    of a message the transport took: with a transport that reports other numbers
    of bytes, every message is sent with the same result and leaves the same
    state. *)

From S2P Require Import Prelude QuicError Varint Text TextProps HttpError H3Frame H3FrameProps H3Connection H3Server.

(** ** Strings *)

Lemma lossy_char c rest : is_char c → from_utf8_lossy (char_utf8 c ++ rest) = c :: from_utf8_lossy rest.
Proof.
  intros [Hc Hs]. unfold char_utf8.
  destruct (Z.ltb_spec c 0x80); [cbn; by rewrite (proj2 (Z.ltb_lt _ _)) by lia|].
  destruct (Z.ltb_spec c 0x800); [|destruct (Z.ltb_spec c 0x10000)]; cbn [app from_utf8_lossy];
    rewrite (proj2 (Z.ltb_ge _ _)) by div_lia; unfold continuation, between.
  - replace (_ && _) with true by div_lia. replace (_ && _) with true by div_lia. f_equal. div_lia.
  - replace (_ && _) with false by div_lia. replace (_ && _) with true by div_lia.
    replace (second_of_three _ _) with true by (unfold second_of_three, continuation, between; repeat case_match; div_lia).
    replace (_ && _) with true by div_lia. f_equal. div_lia.
  - replace (_ && _) with false by div_lia. replace (_ && _) with false by div_lia.
    replace (second_of_four _ _) with true by (unfold second_of_four, continuation, between; repeat case_match; div_lia).
    replace (_ && _) with true by div_lia. replace (_ && _) with true by div_lia. f_equal. div_lia.
Qed.

Lemma lossy_as_bytes s : Forall is_char s → from_utf8_lossy (as_bytes s) = s.
Proof.
  induction 1 as [|c s Hc Hs IH]; [done|]. change (as_bytes (c :: s)) with (char_utf8 c ++ as_bytes s).
  by rewrite lossy_char, IH.
Qed.

(** ** The qpack crate *)

(** The size of a field section, as RFC 9204 and RFC 9114 count it. *)
Definition section_size (l : list (bytes * bytes)) : Z :=
  foldr (λ f n, len f.1 + len f.2 + 32 + n) 0 l.

(** A field section that is small enough decodes to the fields it was made of. *)
Class QpackLaws `{QpackCodec} : Prop :=
  qpack_roundtrip : ∀ fields block, encode_stateless fields = Some block →
    section_size fields ≤ MAX_HEADER_LIST_SIZE → decode_stateless block MAX_HEADER_LIST_SIZE = Some fields.

Definition header_bytes (h : headers) : list (bytes * bytes) := (λ '(n, v), (as_bytes n, as_bytes v)) <$> h.
Definition headers_wf (h : headers) : Prop :=
  Forall (λ f, Forall is_char f.1 ∧ Forall is_char f.2) h ∧ section_size (header_bytes h) ≤ MAX_HEADER_LIST_SIZE.

Section Messages.
Context {Q : Type} `{QuicTransport Q} `{QpackLaws}.
Abbreviation h3conn := (H3Connection Q).
Abbreviation h3M := (stM h3conn HttpError).

Lemma lossy_headers h : Forall (λ f, Forall is_char f.1 ∧ Forall is_char f.2) h →
  (λ '(n, v), (from_utf8_lossy n, from_utf8_lossy v)) <$> header_bytes h = h.
Proof.
  induction 1 as [|[n v] h [Hn Hv] Hc IH]; [done|]. unfold header_bytes in *. rewrite !fmap_cons, IH.
  cbn. by rewrite !lossy_as_bytes.
Qed.

Lemma decode_encoded h block : headers_wf h → encode_header_block h = Ok block → decode_header_block block = Ok h.
Proof.
  intros [Hc Hs] E. unfold encode_header_block, decode_header_block in *.
  fold (header_bytes h) in E. destruct (encode_stateless (header_bytes h)) as [b|] eqn:Eb; [|done].
  injection E as ->. rewrite (qpack_roundtrip _ _ Eb Hs). cbn. f_equal.
  by apply lossy_headers.
Qed.

(** ** What the sender writes *)

Definition message_frames_of (block : bytes) (body : option bytes) : list H3Frame :=
  H3Headers block :: match body with Some ((_ :: _) as b) => [H3Data b] | _ => [] end.

Lemma encode_data_inv f d buf buf' : h3_payload f = d → (f = H3Headers d ∨ f = H3Data d) →
  h3_encode f buf = (Ok tt, buf') → h3_wf f ∧ buf' = buf ++ h3_bytes f.
Proof.
  intros Hd Hf E. assert (varint_ok (h3_type f)) as Ht by (destruct Hf as [-> | ->]; by apply (bool_decide_unpack _)).
  assert (len (h3_payload f) ≤ MAX_VARINT) as Hl.
  { destruct (Z.le_gt_cases (len d) MAX_VARINT) as [?|Hgt]; [by rewrite Hd|]. exfalso.
    destruct Hf as [-> | ->]; cbn [h3_encode] in E; rewrite quic_varint_bind in E by done;
      unfold encode_payload, mbind, stM_bind, quic in E; rewrite encode_varint_err in E by lia; done. }
  assert (h3_wf f) as Hw by (destruct Hf as [-> | ->]; by split_and!).
  split; [done|]. rewrite h3_encode_eq in E by done. congruence.
Qed.

Lemma encode_message_inv h body bs : encode_message h body [] = (Ok tt, bs) →
  ∃ block, encode_header_block h = Ok block ∧ Forall h3_wf (message_frames_of block body) ∧
    bs = frames_bytes (message_frames_of block body).
Proof.
  unfold encode_message, mbind, stM_bind, lift. destruct (encode_header_block h) as [block| | |]; [|done..].
  intros E. exists block. split; [done|]. destruct (h3_encode (H3Headers block) []) as [[[]| | |] b1] eqn:E1; try done.
  destruct (encode_data_inv (H3Headers block) block _ _ eq_refl ltac:(by left) E1) as [W1 ->].
  unfold message_frames_of, frames_bytes. destruct body as [[|x b]|]; cbn in *.
  1,3: injection E as <-; rewrite app_nil_r; split; [by apply Forall_singleton|done].
  destruct (encode_data_inv (H3Data (x :: b)) (x :: b) _ _ eq_refl ltac:(by right) E) as [W2 ->]. rewrite app_nil_r.
  split; [by apply Forall_cons_2; [|apply Forall_singleton]|done].
Qed.

(** The frames that may carry a message: frames of unknown types anywhere, the
    field section, and the body in any number of pieces. *)
Definition unknown (f : H3Frame) : Prop := match f with H3Unknown _ _ => True | _ => False end.
Definition piece (f : H3Frame) : Prop := match f with H3Unknown _ _ | H3Data _ => True | _ => False end.
Definition data_of (f : H3Frame) : bytes := match f with H3Data d => d | _ => [] end.

Definition carries (h : headers) (body : bytes) (fs : list H3Frame) : Prop :=
  Forall h3_wf fs ∧ ∃ us block ds, encode_header_block h = Ok block ∧ fs = us ++ H3Headers block :: ds ∧
    Forall unknown us ∧ Forall piece ds ∧ concat (data_of <$> ds) = body.

Lemma encode_message_carries h body bs : encode_message h body [] = (Ok tt, bs) →
  ∃ fs, carries h (default [] body) fs ∧ bs = frames_bytes fs.
Proof.
  intros E. destruct (encode_message_inv h body bs E) as (block & Eb & Hw & ->).
  exists (message_frames_of block body). split; [|done]. split; [done|].
  exists [], block, (tail (message_frames_of block body)). split_and!; try done.
  - destruct body as [[|x b]|]; cbn; by repeat constructor.
  - destruct body as [[|x b]|]; cbn; rewrite ?app_nil_r; done.
Qed.

(** ** What the reader makes of it *)

(** The side has nothing to send for the tables. *)
Definition quiet (flush : h3M unit) (h : h3conn) : Prop := flush h = (Ok tt, h).

Lemma skip_unknown flush promise us fs m (c : h3conn) : Forall unknown us →
  message_frames flush promise (us ++ fs) m c = message_frames flush promise fs m c.
Proof. intros Hu. induction Hu as [|f us Hf Hu IH]; [done|]. by destruct f. Qed.

Lemma collect_pieces flush promise h ds : ∀ body (c : h3conn), Forall piece ds →
  message_frames flush promise ds {| m_headers := Some h; m_trailers := false; m_body := body |} c =
    (Ok {| m_headers := Some h; m_trailers := false; m_body := body ++ concat (data_of <$> ds) |}, c).
Proof.
  induction ds as [|f ds IH]; intros body c Hd; cbn [message_frames]; [by cbn; rewrite app_nil_r|].
  apply Forall_cons in Hd as [Hf Hd]. destruct f; try done; cbn [message_frame data_of fmap list_fmap concat m_headers m_trailers m_body].
  - rewrite bool_decide_eq_true_2 by done. cbn [negb]. rewrite mret_bind, IH by done. by rewrite app_assoc.
  - rewrite mret_bind. by apply IH.
Qed.

Lemma read_frames_message flush promise label h body fs (c : h3conn) :
  headers_wf h → carries h body fs → quiet flush c →
  read_frames flush promise label (frames_bytes fs) c = (Ok (h, body), c).
Proof.
  intros Hh (Hw & us & block & ds & Eb & -> & Hu & Hd & <-) Hq. unfold read_frames. rewrite (decode_all_eq _ Hw), lift_ok_bind.
  rewrite (stM_bind_ok _ _ c {| m_headers := Some h; m_trailers := false; m_body := concat (data_of <$> ds) |} c); [done|].
  rewrite skip_unknown by done. cbn [message_frames].
  rewrite (stM_bind_ok _ _ c {| m_headers := Some h; m_trailers := false; m_body := [] |} c).
  - by rewrite collect_pieces.
  - cbn. unfold decode_header_block_wait, mbind, stM_bind, lift. by rewrite (decode_encoded h block Hh Eb), Hq.
Qed.

(** The transport hands out [bs] and then the FIN, without waiting. *)
Inductive delivers (sid : Z) : Q → bytes → Q → Prop :=
  | delivers_fin q d q' : tr_recv sid 16384 q = (Ok (d, true), q') → delivers sid q d q'
  | delivers_more q d q1 bs q' : tr_recv sid 16384 q = (Ok (d, false), q1) → d ≠ [] →
      delivers sid q1 bs q' → delivers sid q (d ++ bs) q'.

Lemma read_to_end_delivers limit_of control pushes flush sid q bs q' : delivers sid q bs q' →
  ∀ fuel acc idle (c : h3conn), h3_quic c = q → (length bs ≤ fuel)%nat →
  read_to_end limit_of control pushes flush fuel sid acc idle c = (Ok (acc ++ bs), c <| h3_quic := q' |>).
Proof.
  induction 1 as [q d q' E|q d q1 bs q' E Hd Hdel IH]; intros fuel acc idle c Hc Hf.
  - destruct fuel; cbn [read_to_end]; unfold mbind, stM_bind, on_quic; by rewrite Hc, E.
  - rewrite length_app in Hf. destruct d as [|x d]; [done|]. cbn in Hf. destruct fuel as [|fuel]; [lia|].
    cbn [read_to_end]. unfold mbind at 1, stM_bind at 1, on_quic at 1. rewrite Hc, E. cbn [map_err].
    rewrite len_cons. pose proof (len_nonneg d). rewrite (proj2 (Z.eqb_neq _ _)) by lia. rewrite mret_bind.
    rewrite (IH fuel) by (done || lia). by rewrite <-app_assoc.
Qed.

(** Neither table has instructions to send: without dynamic tables it never has. *)
Definition tables_empty (c : h3conn) : Prop := qe_pending (h3_encoder c) = [] ∧ qd_pending (h3_decoder c) = [].

Lemma client_quiet (c : h3conn) : tables_empty c → quiet flush_qpack_stream_data c.
Proof.
  intros [He Hd]. unfold quiet, flush_qpack_stream_data. rewrite gets_bind. destruct c as [q [? ? e] [? ? d] ps o lc le ld]. cbn in He, Hd.
  subst. by destruct o, le, ld.
Qed.

Lemma server_quiet (c : h3conn) : tables_empty c → quiet server_flush_qpack c.
Proof.
  intros [He Hd]. unfold quiet, server_flush_qpack. rewrite gets_bind. destruct c as [q [? ? e] [? ? d] ps o]. cbn in He, Hd.
  subst. by destruct o.
Qed.


(** ** Interim responses *)

Lemma two_headers h1 h2 b1 b2 fs promise (c : h3conn) :
  decode_header_block b1 = Ok h1 → decode_header_block b2 = Ok h2 → tables_empty c →
  message_frames flush_qpack_stream_data promise (H3Headers b1 :: H3Headers b2 :: fs)
    {| m_headers := None; m_trailers := false; m_body := [] |} c =
  message_frames flush_qpack_stream_data promise fs {| m_headers := Some h1; m_trailers := true; m_body := [] |} c.
Proof.
  intros D1 D2 Ht. pose proof (client_quiet c Ht) as Hq. cbn [message_frames].
  rewrite (stM_bind_ok _ _ c {| m_headers := Some h1; m_trailers := false; m_body := [] |} c).
  2: { cbn. unfold decode_header_block_wait, mbind, stM_bind, lift. by rewrite D1, Hq. }
  rewrite (stM_bind_ok _ _ c {| m_headers := Some h1; m_trailers := true; m_body := [] |} c); [done|].
  cbn. unfold decode_header_block_wait, mbind, stM_bind, lift. by rewrite D2, Hq.
Qed.

(** C37: a response that a 1xx response precedes is refused when it has a body, and
    otherwise the interim response is taken for the final one. *)
Theorem interim_response_misread h1 h2 b1 b2 data promise label (c : h3conn) :
  headers_wf h1 → headers_wf h2 → encode_header_block h1 = Ok b1 → encode_header_block h2 = Ok b2 →
  Forall h3_wf [H3Headers b1; H3Headers b2; H3Data data] → tables_empty c →
  (read_frames flush_qpack_stream_data promise label (frames_bytes [H3Headers b1; H3Headers b2; H3Data data]) c).1 =
    Err (h3_frame_unexpected "DATA after trailers on request stream") ∧
  (read_frames flush_qpack_stream_data promise label (frames_bytes [H3Headers b1; H3Headers b2]) c).1 = Ok (h1, []).
Proof.
  intros W1 W2 E1 E2 Hf Ht. pose proof (decode_encoded _ _ W1 E1) as D1. pose proof (decode_encoded _ _ W2 E2) as D2.
  assert (Forall h3_wf [H3Headers b1; H3Headers b2]) as Hf2.
  { exact (Forall_take _ 2 _ Hf). }
  split; unfold read_frames; rewrite decode_all_eq by done; rewrite lift_ok_bind;
    unfold mbind, stM_bind; by rewrite (two_headers h1 h2).
Qed.
End Messages.

(** ** Computations that agree on every state *)

Definition agrees {S E A} (m m' : stM S E A) : Prop := ∀ s, m s = m' s.

Section agrees.
Context {S E : Type}.
Lemma agrees_refl {A} (m : stM S E A) : agrees m m.
Proof. by intros s. Qed.
Lemma agrees_bind {A B} (m m' : stM S E A) (f f' : A → stM S E B) :
  agrees m m' → (∀ a, agrees (f a) (f' a)) → agrees (m ≫= f) (m' ≫= f').
Proof.
  intros Hm Hf s. unfold mbind, stM_bind. rewrite (Hm s).
  destruct (m' s) as [[a|e| |] s']; [apply Hf|done..].
Qed.
End agrees.

Create HintDb agrees discriminated.
#[export] Hint Resolve agrees_refl : agrees.
#[export] Hint Constants Opaque : agrees.

(** Splits two computations of the same shape along their binds and case
    distinctions. *)
Ltac agrees_step :=
  match goal with
  | |- agrees _ _ => solve [auto with agrees]
  | |- agrees (_ ≫= _) (_ ≫= _) => apply agrees_bind; [|intros ?]
  | |- agrees (if ?b then _ else _) _ => destruct b
  | |- agrees (match ?x with _ => _ end) _ => destruct x
  end.
Ltac agrees_tac := repeat agrees_step.

Section Short.
Context {Q : Type} (T : QuicTransport Q) `{QpackCodec}.
(** The number of bytes of a stream the transport reports instead. *)
Context (report : Z → bytes → Z → Z).

Definition reporting : QuicTransport Q := {|
  tr_open_uni := tr_open_uni; tr_open_bidi := tr_open_bidi;
  tr_send sid data fin := n ← tr_send sid data fin; mret (report sid data n);
  tr_recv := tr_recv; tr_flush := tr_flush; tr_poll := tr_poll;
  tr_incoming_uni := tr_incoming_uni; tr_incoming_bidi := tr_incoming_bidi; tr_buffered := tr_buffered |}.

Lemma agrees_send_on sid data fin : agrees (send_on (H:=reporting) sid data fin) (send_on (H:=T) sid data fin).
Proof.
  intros h. unfold send_on, on_quic, mbind, stM_bind. cbn [tr_send reporting].
  unfold mbind, stM_bind. by destruct (tr_send sid data fin (h3_quic h)) as [[]].
Qed.
Hint Resolve agrees_send_on : agrees.

Lemma agrees_open_control : agrees (open_control_stream (H:=reporting)) (open_control_stream (H:=T)).
Proof. unfold open_control_stream. agrees_tac. Qed.

Lemma agrees_send_pending sid data :
  agrees (send_pending_on (H:=reporting) sid data) (send_pending_on (H:=T) sid data).
Proof. unfold send_pending_on. agrees_tac. Qed.
Hint Resolve agrees_open_control agrees_send_pending : agrees.

Lemma agrees_flush_qpack :
  agrees (flush_qpack_stream_data (H:=reporting)) (flush_qpack_stream_data (H:=T)).
Proof. unfold flush_qpack_stream_data. agrees_tac. Qed.
Lemma agrees_server_flush_qpack :
  agrees (server_flush_qpack (H:=reporting)) (server_flush_qpack (H:=T)).
Proof. unfold server_flush_qpack. agrees_tac. Qed.

Lemma agrees_finish_push s : agrees (finish_push_stream (H:=reporting) s) (finish_push_stream (H:=T) s).
Proof.
  unfold finish_push_stream, decode_header_block_wait. pose proof agrees_flush_qpack. agrees_tac.
Qed.
Hint Resolve agrees_flush_qpack agrees_server_flush_qpack agrees_finish_push : agrees.

(** ** Reading the streams *)

Section Poll.
Context (limit_of : option Z → option Z) (control : Z → H3Frame → stM (H3Connection Q) HttpError unit)
  (pushes : bool) (flush_tables flush_tables' : stM (H3Connection Q) HttpError unit).
Context (Hflush : agrees flush_tables' flush_tables).

Lemma agrees_poll_uni sid : agrees (poll_uni_stream (H:=reporting) limit_of control pushes sid)
  (poll_uni_stream (H:=T) limit_of control pushes sid).
Proof. unfold poll_uni_stream. agrees_tac. Qed.

Lemma agrees_for_each (f f' : Z → stM (H3Connection Q) HttpError unit) l :
  (∀ x, agrees (f x) (f' x)) → agrees (for_each f l) (for_each f' l).
Proof.
  intros Hf. induction l as [|x l IH]; cbn [for_each]; [apply agrees_refl|].
  apply agrees_bind; [apply Hf|by intros _].
Qed.

Lemma agrees_poll_control : agrees (poll_control (H:=reporting) limit_of control pushes flush_tables')
  (poll_control (H:=T) limit_of control pushes flush_tables).
Proof.
  unfold poll_control. apply agrees_bind; [apply agrees_refl|intros h].
  apply agrees_bind; [apply agrees_refl|intros order].
  apply agrees_bind; [apply agrees_for_each, agrees_poll_uni|done].
Qed.

Lemma agrees_flush_pending : agrees (flush_pending (H:=reporting) limit_of control pushes flush_tables')
  (flush_pending (H:=T) limit_of control pushes flush_tables).
Proof.
  unfold flush_pending. apply agrees_bind; [apply agrees_refl|intros _]. apply agrees_poll_control.
Qed.
Hint Resolve Hflush agrees_poll_control agrees_flush_pending : agrees.

Lemma agrees_send_request h body :
  agrees (send_request (H:=reporting) limit_of control pushes flush_tables' h body)
    (send_request (H:=T) limit_of control pushes flush_tables h body).
Proof. unfold send_request. agrees_tac. Qed.
End Poll.

(** ** Requests and responses *)

Lemma agrees_server_poll : agrees (server_poll_control (H:=reporting)) (server_poll_control (H:=T)).
Proof. apply agrees_poll_control, agrees_server_flush_qpack. Qed.
Lemma agrees_priority sid v :
  agrees (send_priority_update (H:=reporting) sid v) (send_priority_update (H:=T) sid v).
Proof.
  unfold send_priority_update, send_control_frame, client_flush_pending.
  pose proof (agrees_flush_pending client_limit process_control_frame true _ _ agrees_flush_qpack). agrees_tac.
Qed.
Hint Resolve agrees_server_poll agrees_priority : agrees.

(** C36: a message that the transport takes only in part is reported as sent.
    The client's requests and the server's responses and pushes do not depend on
    the number of bytes [stream_send] reports: with any other numbers they have
    the same result and leave the same state, so what the flow-control windows
    left out is dropped without an error. *)
Theorem short_writes_unnoticed (r : H3Request) (priority : option H3Priority) (sid status : Z)
    (request fields : headers) (data : bytes) (c : H3Connection Q) :
  client_send_request (H:=reporting) r priority c = client_send_request (H:=T) r priority c ∧
  server_send_response (H:=reporting) sid status fields data c =
    server_send_response (H:=T) sid status fields data c ∧
  server_send_push (H:=reporting) sid request status fields data c =
    server_send_push (H:=T) sid request status fields data c.
Proof.
  split_and!.
  - revert c. change (agrees (client_send_request (H:=reporting) r priority) (client_send_request (H:=T) r priority)).
    unfold client_send_request. destruct (request_into_h3_parts r priority) as [h b].
    pose proof (agrees_send_request client_limit process_control_frame true _ _ agrees_flush_qpack). agrees_tac.
  - revert c. change (agrees (server_send_response (H:=reporting) sid status fields data)
      (server_send_response (H:=T) sid status fields data)).
    unfold server_send_response. agrees_tac.
  - revert c. change (agrees (server_send_push (H:=reporting) sid request status fields data)
      (server_send_push (H:=T) sid request status fields data)).
    unfold server_send_push. agrees_tac.
Qed.
End Short.
