(* ===== verification/H3Quic.v ===== *)
(** * HTTP/3 over the QUIC connection and over the endpoint

    The transports the HTTP/3 connections run on: a connection with the polls
    and flushes it is going to meet, and an endpoint with a handle.  When the
    list ends the call waits and never returns. *)

From S2P Require Import Prelude QuicError Varint Frame Packet TransportParams Crypto KeyUpdate Retry.
From S2P Require Import Streams StreamIo AckTracking ConnIds Recovery ConnRecovery Packing.
From S2P Require Import Connection ConnPaths ConnHandshake ConnReceive ConnSend ConnLifecycle Endpoint Client.
From S2P Require Import H3Frame H3Connection.

(** The bytes of a stream that wait to be read. *)
Definition buffered (m : StreamManager) (sid : Z) : nat :=
  match streams m !! sid with
  | Some s => map_fold (λ _ d n, (length d + n)%nat) 0%nat (recv_buf s)
  | None => 0%nat
  end.

(** Some stream with a request, as [find_incoming_bidi] specifies it. *)
Definition some_incoming_bidi (m : StreamManager) : option StreamId :=
  head (omap (λ '(id, s), if incoming m 0 id s then Some id else None) (map_to_list (streams m))).

Lemma some_incoming_bidi_ok m : find_incoming_bidi m (some_incoming_bidi m).
Proof.
  unfold find_incoming_bidi, some_incoming_bidi. destruct (omap _ _) as [|id l] eqn:E; cbn.
  - intros id s Hs. destruct (incoming m 0 id s) eqn:Hi; [|done]. exfalso.
    assert (id ∈ @nil StreamId) as Hin; [|by apply not_elem_of_nil in Hin].
    rewrite <-E. apply list_elem_of_omap. exists (id, s). split; [by apply elem_of_map_to_list|by rewrite Hi].
  - assert (id ∈ id :: l) as Hin by by left. rewrite <-E in Hin.
    apply list_elem_of_omap in Hin as ([id' s] & Hin & Hi). apply elem_of_map_to_list in Hin. exists s.
    destruct (incoming m 0 id' s) eqn:Hm; [|done]. by injection Hi as <-.
Qed.

Section Transport.
Context {C Session Secrets : Type}.
Context `{CongestionController C} `{TlsSession Session Secrets} `{Primitives}.
Context `{TlsServer Session} `{TokenPrimitives}.
Abbreviation conn := (QuicConnection C Session Secrets).
Abbreviation connM := (connM C Session Secrets).
Abbreviation endpoint := (QuicEndpoint C Session Secrets).

Record ConnIo := {
  ci_conn : conn;
  ci_polls : list Polled;
  ci_flushes : list (list StreamId * Clock);
}.

Definition on_conn {A} (m : connM A) : stM ConnIo QuicError A := λ x,
  let '(r, c) := m (ci_conn x) in (r, x <| ci_conn := c |>).

Definition ci_flush : stM ConnIo QuicError unit := λ x,
  match ci_flushes x with
  | [] => (Diverge, x)
  | (ids, t) :: l => on_conn (flush ids t) (x <| ci_flushes := l |>)
  end.

Definition ci_poll : stM ConnIo QuicError unit := λ x,
  match ci_polls x with
  | [] => (Diverge, x)
  | p :: l => on_conn (poll_with p) (x <| ci_polls := l |>)
  end.

Definition conn_streams (c : conn) : StreamManager := io_streams (rc_io (qc_rc c)).

#[export] Instance conn_transport : QuicTransport ConnIo := {|
  tr_open_uni := on_conn (on_io (on_streams open_uni));
  tr_open_bidi := on_conn (on_io (on_streams open_bidi));
  tr_send sid data fin := on_conn (conn_stream_send sid data fin);
  tr_recv sid room := on_conn (on_io (stream_recv sid room));
  tr_flush := ci_flush;
  tr_poll := ci_poll;
  tr_incoming_uni x := incoming_uni_ids (conn_streams (ci_conn x));
  tr_incoming_bidi x := some_incoming_bidi (conn_streams (ci_conn x));
  tr_buffered x sid := buffered (conn_streams (ci_conn x)) sid;
|}.

(** The endpoint of a server and the handle of the connection. *)
Record EndpointIo := {
  ei_endpoint : endpoint;
  ei_handle : Z;
  ei_turns : list Turn;
  ei_flushes : list (list Z * (Z → list StreamId) * Clock);
}.

Definition on_endpoint {A} (m : stM endpoint QuicError A) : stM EndpointIo QuicError A := λ x,
  let '(r, e) := m (ei_endpoint x) in (r, x <| ei_endpoint := e |>).

(** [get_conn_mut] and an operation of the connection. *)
Definition on_handle {A} (m : connM A) : stM EndpointIo QuicError A :=
  h ← gets ei_handle;
  r ← on_endpoint (with_conn h m);
  lift (ok_or (Transport InternalError (msg "unknown connection handle {handle}")) r).

Definition handle_streams {A} (x : EndpointIo) (f : StreamManager → A) (none : A) : A :=
  match ep_connections (ei_endpoint x) !! ei_handle x with
  | Some c => f (conn_streams c)
  | None => none
  end.

#[export] Instance endpoint_transport : QuicTransport EndpointIo := {|
  tr_open_uni := on_handle (on_io (on_streams open_uni));
  tr_open_bidi := on_handle (on_io (on_streams open_bidi));
  tr_send sid data fin := on_handle (conn_stream_send sid data fin);
  tr_recv sid room := on_handle (on_io (stream_recv sid room));
  tr_flush x :=
    match ei_flushes x with
    | [] => (Diverge, x)
    | (handles, ids, t) :: l => on_endpoint (flush_all handles ids t) (x <| ei_flushes := l |>)
    end;
  tr_poll x :=
    match ei_turns x with
    | [] => (Diverge, x)
    | turn :: l => on_endpoint (drive_once turn) (x <| ei_turns := l |>)
    end;
  tr_incoming_uni x := handle_streams x incoming_uni_ids [];
  tr_incoming_bidi x := handle_streams x some_incoming_bidi None;
  tr_buffered x sid := handle_streams x (λ m, buffered m sid) 0%nat;
|}.
End Transport.

Arguments ConnIo : clear implicits.
Arguments EndpointIo : clear implicits.
