(* ===== verification/H3Sample.v ===== *)
(** * HTTP/3 runs

    A field-section codec and a transport in memory for the theorems about
    messages, and a request over the QUIC handshake in miniature. *)

From S2P Require Import Prelude QuicError Varint Frame Packet PacketProps TransportParams Crypto CryptoProps.
From S2P Require Import KeyUpdate KeyUpdateProps Retry RetryProps.
From S2P Require Import Streams StreamIo AckTracking ConnIds Recovery ConnRecovery Packing.
From S2P Require Import Connection ConnPaths ConnHandshake ConnReceive ConnSend ConnLifecycle ConnFrame ConnAmpProps.
From S2P Require Import ConnSample Endpoint EndpointProps Client EndpointSample.
From S2P Require Import Text TextProps HttpError H3Frame H3FrameProps H3Connection H3Server H3MessageProps H3Quic.

(** ** A codec: every string behind its length *)

Definition toy_string (s : bytes) : bytes := len s :: s.

Definition toy_section (l : list (bytes * bytes)) : bytes := concat ((λ '(n, v), toy_string n ++ toy_string v) <$> l).

Definition toy_read (b : bytes) : option (bytes * bytes) :=
  match b with
  | n :: b => Some (take (Z.to_nat n) b, drop (Z.to_nat n) b)
  | [] => None
  end.

Fixpoint toy_fields (fuel : nat) (b : bytes) : option (list (bytes * bytes)) :=
  match fuel, b with
  | _, [] => Some []
  | O, _ => None
  | S fuel, b =>
      '(n, b) ← toy_read b; '(v, b) ← toy_read b; l ← toy_fields fuel b; Some ((n, v) :: l)
  end.

#[export] Instance toy_qpack : QpackCodec := {|
  encode_stateless l := if bool_decide (Forall (λ f, len f.1 < 256 ∧ len f.2 < 256) l)
                        then Some (toy_section l) else None;
  decode_stateless b _ := toy_fields (length b) b;
|}.

Lemma toy_read_string s rest : toy_read (toy_string s ++ rest) = Some (s, rest).
Proof.
  unfold toy_read, toy_string, len. cbn. rewrite Nat2Z.id. by rewrite take_app_length, drop_app_length.
Qed.

Lemma toy_fields_section l : ∀ fuel, (length (toy_section l) ≤ fuel)%nat → toy_fields fuel (toy_section l) = Some l.
Proof.
  induction l as [|[n v] l IH]; intros fuel Hf; [by destruct fuel|].
  unfold toy_section in *. cbn [fmap list_fmap concat] in *. rewrite <-app_assoc in *.
  rewrite !length_app in Hf. destruct fuel as [|fuel]; [cbn in Hf; lia|].
  assert (∀ b, toy_string n ++ b ≠ []) as Hne by done.
  cbn [toy_fields]. destruct (toy_string n ++ _) eqn:E; [done|]. rewrite <-E, toy_read_string. cbn [mbind option_bind].
  rewrite toy_read_string. cbn [mbind option_bind]. rewrite IH; [done|].
  assert (1 ≤ length (toy_string n))%nat by (cbn; lia). lia.
Qed.

#[export] Instance toy_qpack_laws : QpackLaws.
Proof.
  intros fields block E _. cbn in *. destruct (bool_decide _); [|done]. injection E as <-. by apply toy_fields_section.
Qed.

(** ** A transport in memory *)

Record Memory := { me_in : gmap Z (list (bytes * bool)); me_out : list (Z * bytes * bool) }.

Definition me_recv (sid : Z) : stM Memory QuicError (bytes * bool) := λ m,
  match me_in m !! sid with
  | Some (x :: l) => (Ok x, m <| me_in ::= <[sid := l]> |>)
  | _ => (Ok ([], false), m)
  end.

#[export] Instance memory_transport : QuicTransport Memory := {|
  tr_open_uni m := (Ok (4 * Z.of_nat (length (me_out m)) + 2), m);
  tr_open_bidi m := (Ok (4 * Z.of_nat (length (me_out m))), m);
  tr_send sid data fin m := (Ok (len data), m <| me_out ::= (λ l, l ++ [(sid, data, fin)]) |>);
  tr_recv sid _ := me_recv sid;
  tr_flush := mret tt;
  tr_poll := mret tt;
  tr_incoming_uni _ := [];
  tr_incoming_bidi _ := Some 0;
  tr_buffered _ _ := 0%nat;
|}.

Definition by_number (i : nat) (S : gset Z) : list Z := elements S.
Definition get_headers : headers :=
  [(str ":method", str "GET"); (str ":path", str "/"); (str ":scheme", str "https"); (str "x", [0xe9; 0x1f600])].
Definition get_body : bytes := replicate 200 7.
Definition get_block : bytes := toy_section (header_bytes get_headers).

(** The body in two pieces, with unknown frames around. *)
Definition get_frames : list H3Frame :=
  [H3Unknown 0x21 [1]; H3Headers get_block; H3Data (take 50 get_body); H3Unknown 0x40 []; H3Data (drop 50 get_body)].
Definition get_bytes : bytes := frames_bytes get_frames.

Definition memory_of (chunks : list (bytes * bool)) : H3Connection Memory :=
  h3_new {| me_in := {[0 := chunks]}; me_out := [] |} by_number.
Definition get_chunks : list (bytes * bool) := [(take 11 get_bytes, false); (drop 11 get_bytes, true)].

Lemma get_headers_wf : headers_wf get_headers.
Proof. split; [repeat constructor; cbn; unfold is_char; lia|vm_compute; done]. Qed.

Lemma get_frames_wf : Forall h3_wf get_frames.
Proof. repeat constructor; try (vm_compute; discriminate); by apply (bool_decide_unpack _). Qed.

Lemma get_carried : carries get_headers get_body get_frames.
Proof.
  split; [apply get_frames_wf|]. exists [H3Unknown 0x21 [1]], get_block, (drop 2 get_frames).
  split_and!; [vm_compute; reflexivity|done|repeat constructor..|vm_compute; reflexivity].
Qed.


Definition early_hints : headers := [(str ":status", str "103")].
Definition final_headers : headers := [(str ":status", str "200")].
Definition hints_block : bytes := toy_section (header_bytes early_hints).
Definition final_block : bytes := toy_section (header_bytes final_headers).

Lemma interim_response_misread_witness :
  let c := memory_of [] in
  (read_frames flush_qpack_stream_data promised "response"
     (frames_bytes [H3Headers hints_block; H3Headers final_block; H3Data [1; 2]]) c).1 =
    Err (h3_frame_unexpected "DATA after trailers on request stream") ∧
  (read_frames flush_qpack_stream_data promised "response"
     (frames_bytes [H3Headers hints_block; H3Headers final_block]) c).1 = Ok (early_hints, []).
Proof.
  apply (interim_response_misread early_hints final_headers).
  - split; [repeat constructor; cbn; unfold is_char; lia|vm_compute; done].
  - split; [repeat constructor; cbn; unfold is_char; lia|vm_compute; done].
  - vm_compute. reflexivity.
  - vm_compute. reflexivity.
  - repeat constructor; vm_compute; discriminate.
  - split; reflexivity.
Defined.

(** ** A request over QUIC *)

Abbreviation sample_io := (ConnIo NewReno.NewReno Script Z).

Definition flushes (ms : Z) : list (list StreamId * Clock) := replicate 4 ([], clock ms).
Definition h3_over (c : sample_conn) (ms : Z) : H3Connection sample_io :=
  h3_new {| ci_conn := c; ci_polls := []; ci_flushes := flushes ms |} by_number.

(** The client sends a request after the handshake; everything it sent reaches
    the server, which reads it. *)
Definition request_of (n : nat) : hres Z * H3Connection sample_io :=
  send_request client_limit process_control_frame true flush_qpack_stream_data get_headers (Some (replicate n 7))
    (h3_over (handshake 0 2 10).1 40).
Definition served (n : nat) : hres (headers * bytes) :=
  let cl := ci_conn (h3_quic (request_of n).2) in
  let sv := feed_all client_addr (clock 50) (news (length (qc_wire (handshake 0 2 10).1)) cl) (handshake 0 2 10).2 in
  (read_response 50 0 (h3_over sv 60)).1.

Lemma request_over_quic : served 300 = Ok (get_headers, replicate 300 7).
Proof. vm_compute. reflexivity. Qed.

(** The bytes of the request stream the client's connection has taken, and
    whether it has taken the FIN. *)
Definition taken (n : nat) : option (Z * bool) :=
  (λ s, (send_offset s, fin_sent s)) <$> streams (conn_streams (ci_conn (h3_quic (request_of n).2))) !! 0.

(** A request larger than the flow-control window is cut off and never ends:
    the bytes beyond the window are dropped and with them the FIN, and
    [send_request] reports success. *)
Theorem oversized_request_truncated :
  (request_of 1500).1 = Ok 0 ∧ taken 1500 = Some (1015, false) ∧
  len (encode_message get_headers (Some (replicate 1500 7)) []).2 = 1548.
Proof. vm_compute. done. Qed.
