(* ===== verification/Epoch.v ===== *)
(** * Epoch-based reclamation (starfish-epoch)

    The allocator's padding, the intrusive list of deferred deallocations, the
    three generations of a reactor, pinning, and the reactors of a coordinator
    interleaved at their accesses to the shared epoch counters. *)

From S2P Require Import Prelude.

(** ** epoch_alloc.rs *)

Record Layout := { layout_size : Z; layout_align : Z }.

Definition MIN_ALLOC_SIZE : Z := 16.
(** [align_of::<DeferredAllocation>()]: a pointer and two [u32]. *)
Definition MIN_ALLOC_ALIGN : Z := 8.

Definition pad (layout : Layout) : Layout :=
  let size := Z.max (layout_size layout) MIN_ALLOC_SIZE in
  let align := Z.max (layout_align layout) MIN_ALLOC_ALIGN in
  {| layout_size := Z.ldiff (size + align - 1) (align - 1); layout_align := align |}.

(** ** Lists of deferred deallocations

    A step can fail because it is not enabled in the interleaving, or because it
    reads memory that was deallocated. *)
Inductive Fault := NotEnabled | DanglingRead.

(** What a generation needs of its bags: [bag_drain] deallocates all entries and
    returns what was passed to [dealloc]. *)
Class BagImpl (M B : Type) := {
  bag_new : B;
  bag_append : B → M → Z → Layout → B * M;
  bag_reclaim : B → M → result Fault (B * M * list (Z * Layout));
}.

Module DeferredList.
(** The node written into the memory of the dropped object. *)
Record DeferredAllocation := { next : Z; size : Z; align : Z }.
Definition memory := gmap Z DeferredAllocation.
Definition null : Z := 0.

Definition new : Z := null.

Definition append (head : Z) (mem : memory) (ptr : Z) (layout : Layout) : Z * memory :=
  (ptr, <[ptr := {| next := head; size := as_u32 (layout_size layout);
                    align := as_u32 (layout_align layout) |}]> mem).

Fixpoint reclaim_loop (fuel : nat) (node : Z) (mem : memory) : result Fault (memory * list (Z * Layout)) :=
  if node =? null then Ok (mem, [])
  else
    match fuel with
    | O => Diverge
    | S fuel =>
        match mem !! node with
        | None => Err DanglingRead
        | Some a =>
            '(mem, freed) ← reclaim_loop fuel (next a) (delete node mem);
            Ok (mem, (node, {| layout_size := size a; layout_align := align a |}) :: freed)
        end
    end.

Definition reclaim (head : Z) (mem : memory) : result Fault (Z * memory * list (Z * Layout)) :=
  '(mem', freed) ← reclaim_loop (map_size mem) head mem; Ok (null, mem', freed).
End DeferredList.

(** The implementation in the code, and a list that serves as its specification. *)
Definition intrusive : BagImpl DeferredList.memory Z :=
  {| bag_new := DeferredList.new; bag_append := DeferredList.append;
     bag_reclaim := DeferredList.reclaim |}.

Definition listed : BagImpl unit (list (Z * Layout)) :=
  {| bag_new := []; bag_append b m p l := ((p, l) :: b, m);
     bag_reclaim b m := Ok ([], m, b) |}.

Section Reactors.
Context {M B : Type} {BI : BagImpl M B}.

(** ** Generations *)

Definition generations_new : list B := [bag_new; bag_new; bag_new].

Definition bag_slot (epoch : Z) : nat := Z.to_nat (epoch mod 3).

Definition defer (bags : list B) (m : M) (epoch : Z) (ptr : Z) (layout : Layout)
    : result Fault (list B * M) :=
  match bags !! bag_slot epoch with
  | Some b => let '(b, m) := bag_append b m ptr layout in Ok (<[bag_slot epoch := b]> bags, m)
  | None => Panic
  end.

(** [self.bags[i].reclaim()]. *)
Definition reclaim_bag '((bags, m, freed) : list B * M * list (Z * Layout)) (i : nat)
    : result Fault (list B * M * list (Z * Layout)) :=
  match bags !! i with
  | Some b => '(b, m, l) ← bag_reclaim b m; Ok (<[i := b]> bags, m, freed ++ l)
  | None => Panic
  end.

Definition reclaim (bags : list B) (m : M) (old_epoch current_epoch : Z)
    : result Fault (list B * M * list (Z * Layout)) :=
  let advances := Z.min (as_u32 (current_epoch - old_epoch)) 3 in
  foldM (λ st i, reclaim_bag st (bag_slot (as_u32 (old_epoch + (1 + Z.of_nat i)) + 1)))
    (bags, m, []) (seq 0 (Z.to_nat advances)).

(** ** The counter of a reactor *)

Record EpochCounter := { local_epoch : Z; pin_count : Z; generations : list B }.

Definition counter_new : EpochCounter :=
  {| local_epoch := 1; pin_count := 0; generations := generations_new |}.

(** [pin], with the value the load of the global epoch returned: the new
    counter, what was deallocated, and the [epoch_index] of the guard. *)
Definition pin (global : Z) (c : EpochCounter) (m : M)
    : result Fault (EpochCounter * M * list (Z * Layout) * Z) :=
  '(c, m, freed) ←
    (if (pin_count c =? 0) && negb (global =? local_epoch c) then
       '(bags, m, freed) ← reclaim (generations c) m (local_epoch c) global;
       Ok ({| local_epoch := global; pin_count := pin_count c; generations := bags |}, m, freed)
     else Ok (c, m, []));
  n ← add_u32 (pin_count c) 1;
  Ok ({| local_epoch := local_epoch c; pin_count := n; generations := generations c |}, m, freed,
      local_epoch c).

Definition unpin (c : EpochCounter) : result Fault EpochCounter :=
  if 0 <? pin_count c then
    Ok {| local_epoch := local_epoch c; pin_count := pin_count c - 1; generations := generations c |}
  else Panic.

(** [EpochGuard::repin] of a guard with index [epoch_index], with the value the
    load of the global epoch returned. *)
Definition repin (global_epoch epoch_index : Z) (c : EpochCounter) (m : M)
    : result Fault (EpochCounter * M * list (Z * Layout) * Z) :=
  if global_epoch =? epoch_index then Ok (c, m, [], epoch_index)
  else if pin_count c =? 1 then
    '(bags, m, freed) ← reclaim (generations c) m epoch_index global_epoch;
    Ok ({| local_epoch := global_epoch; pin_count := pin_count c; generations := bags |}, m, freed,
        global_epoch)
  else Ok (c, m, [], global_epoch).

Definition deferred_delete (c : EpochCounter) (m : M) (object : Z) (layout : Layout)
    : result Fault (EpochCounter * M) :=
  if negb (0 <? layout_size layout) then Panic
  else if negb ((layout_size layout <=? U32_MAX) && (layout_align layout <=? U32_MAX)) then Panic
  else if negb (0 <? pin_count c) then Panic
  else
    '(bags, m) ← defer (generations c) m (local_epoch c) object layout;
    Ok ({| local_epoch := local_epoch c; pin_count := pin_count c; generations := bags |}, m).

(** Dropping the counter drops its bags in order. *)
Definition drop_counter (c : EpochCounter) (m : M) : result Fault (M * list (Z * Layout)) :=
  '(_, m, freed) ← foldM reclaim_bag (generations c, m, []) [0%nat; 1%nat; 2%nat];
  Ok (m, freed).

(** ** Reactors interleaved

    A thread stands between the shared accesses of a call: after the load of
    the global epoch by [pin] or [repin], or at slot [i] of the scan of
    [min_local_epoch] with the minimum so far, before and after the load of the
    slot's pointer. *)
Inductive Pc :=
  | Running
  | Pinning (global : Z)
  | Repinning (guard : nat) (global : Z)
  | Scanning (global : Z) (i : nat) (epoch_index : Z)
  | Reading (global : Z) (i : nat) (epoch_index : Z).

(** [counter] is [None] where the slot of the reactor is null; [guards] are the
    [epoch_index] of its live guards, [refs] the objects it holds references to. *)
Record Thread := { counter : option EpochCounter; guards : list Z; refs : gset Z; pc : Pc }.

(** The objects that a pointer in a shared structure leads to are [linked]; an
    object taken out is [unlinked] until it is passed to [deferred_delete]. *)
Record System := {
  current_epoch_index : Z;
  threads : list Thread;
  mem : M;
  allocated : gset Z;
  linked : gset Z;
  unlinked : gset Z;
  deallocated : gset Z;
}.

Definition with_thread (s : System) (r : nat) (t : Thread) : System :=
  {| current_epoch_index := current_epoch_index s; threads := <[r := t]> (threads s); mem := mem s;
     allocated := allocated s; linked := linked s; unlinked := unlinked s; deallocated := deallocated s |}.

Definition with_epoch (s : System) (e : Z) : System :=
  {| current_epoch_index := e; threads := threads s; mem := mem s;
     allocated := allocated s; linked := linked s; unlinked := unlinked s; deallocated := deallocated s |}.

Definition with_objects (s : System) (alloc link unlink : gset Z) : System :=
  {| current_epoch_index := current_epoch_index s; threads := threads s; mem := mem s;
     allocated := alloc; linked := link; unlinked := unlink; deallocated := deallocated s |}.

Definition with_freed (s : System) (m : M) (freed : list (Z * Layout)) : System :=
  {| current_epoch_index := current_epoch_index s; threads := threads s; mem := m;
     allocated := allocated s; linked := linked s; unlinked := unlinked s;
     deallocated := list_to_set freed.*1 ∪ deallocated s |}.

Definition at_pc (t : Thread) (p : Pc) : Thread :=
  {| counter := counter t; guards := guards t; refs := refs t; pc := p |}.

Inductive Label :=
  | InitReactor | UninitReactor
  | PinLoad | PinEnd | Unpin (guard : nat) | RepinLoad (guard : nat) | RepinEnd
  | BumpLoad | ScanLoad | ScanRead | BumpEnd
  | Allocate (p : Z) | Acquire (p : Z) | Unlink (p : Z) | DeferredDelete (p : Z) (layout : Layout).

Definition guard_enabled (b : bool) : result Fault unit := if b then Ok tt else Err NotEnabled.

Definition get_counter (t : Thread) : result Fault EpochCounter := ok_or NotEnabled (counter t).

(** [init_reactor] and [uninit_reactor]. *)
Definition init_reactor (s : System) (r : nat) (t : Thread) : result Fault System :=
  match pc t, counter t with
  | Running, None =>
      Ok (with_thread s r {| counter := Some counter_new; guards := []; refs := ∅; pc := Running |})
  | _, _ => Err NotEnabled
  end.

Definition uninit_reactor (s : System) (r : nat) (t : Thread) : result Fault System :=
  match pc t, guards t with
  | Running, [] =>
      c ← get_counter t;
      '(m, freed) ← drop_counter c (mem s);
      Ok (with_freed (with_thread s r {| counter := None; guards := []; refs := ∅; pc := Running |}) m freed)
  | _, _ => Err NotEnabled
  end.

Definition pin_load (s : System) (r : nat) (t : Thread) : result Fault System :=
  match pc t with
  | Running => _ ← get_counter t; Ok (with_thread s r (at_pc t (Pinning (current_epoch_index s))))
  | _ => Err NotEnabled
  end.

(** Deallocations and the store of [local_epoch] are one step. *)
Definition pin_end (s : System) (r : nat) (t : Thread) : result Fault System :=
  match pc t with
  | Pinning global =>
      c ← get_counter t;
      '(c, m, freed, epoch_index) ← pin global c (mem s);
      Ok (with_freed (with_thread s r {| counter := Some c; guards := guards t ++ [epoch_index];
                                         refs := refs t; pc := Running |}) m freed)
  | _ => Err NotEnabled
  end.

(** Dropping a guard; references do not outlive the last one. *)
Definition drop_guard (s : System) (r : nat) (t : Thread) (guard : nat) : result Fault System :=
  match pc t, guards t !! guard with
  | Running, Some _ =>
      c ← get_counter t;
      c ← unpin c;
      let gs := delete guard (guards t) in
      Ok (with_thread s r {| counter := Some c; guards := gs;
                             refs := match gs with [] => ∅ | _ => refs t end; pc := Running |})
  | _, _ => Err NotEnabled
  end.

(** [repin] takes the guard by [&mut]: references under the only guard end. *)
Definition repin_load (s : System) (r : nat) (t : Thread) (guard : nat) : result Fault System :=
  match pc t, guards t !! guard with
  | Running, Some _ =>
      Ok (with_thread s r {| counter := counter t; guards := guards t;
                             refs := match guards t with [_] => ∅ | _ => refs t end;
                             pc := Repinning guard (current_epoch_index s) |})
  | _, _ => Err NotEnabled
  end.

Definition repin_end (s : System) (r : nat) (t : Thread) : result Fault System :=
  match pc t with
  | Repinning guard global =>
      e ← ok_or NotEnabled (guards t !! guard);
      c ← get_counter t;
      '(c, m, freed, e) ← repin global e c (mem s);
      Ok (with_freed (with_thread s r {| counter := Some c; guards := <[guard := e]> (guards t);
                                         refs := refs t; pc := Running |}) m freed)
  | _ => Err NotEnabled
  end.

(** [bump_epoch] and the scan of [min_local_epoch]. *)
Definition bump_load (s : System) (r : nat) (t : Thread) : result Fault System :=
  match pc t with
  | Running => Ok (with_thread s r (at_pc t (Scanning (current_epoch_index s) 0 U32_MAX)))
  | _ => Err NotEnabled
  end.

Definition scan_load (s : System) (r : nat) (t : Thread) : result Fault System :=
  match pc t with
  | Scanning global i m =>
      slot ← ok_or NotEnabled (threads s !! i);
      Ok (with_thread s r (at_pc t (match counter slot with
                                    | None => Scanning global (S i) m
                                    | Some _ => Reading global i m
                                    end)))
  | _ => Err NotEnabled
  end.

Definition scan_read (s : System) (r : nat) (t : Thread) : result Fault System :=
  match pc t with
  | Reading global i m =>
      slot ← ok_or NotEnabled (threads s !! i);
      c ← ok_or DanglingRead (counter slot);
      Ok (with_thread s r (at_pc t (Scanning global (S i) (Z.min m (local_epoch c)))))
  | _ => Err NotEnabled
  end.

Definition bump_end (s : System) (r : nat) (t : Thread) : result Fault System :=
  match pc t with
  | Scanning global i min_local =>
      _ ← guard_enabled (i =? length (threads s))%nat;
      let s := with_thread s r (at_pc t Running) in
      if min_local <? global then Ok s
      else if current_epoch_index s =? global then Ok (with_epoch s (as_u32 (global + 1)))
      else Ok s
  | _ => Err NotEnabled
  end.

(** What the client of the guards does: objects are allocated and linked, read
    and unlinked under a guard, and passed to [deferred_delete] once. *)
Definition client_step (s : System) (r : nat) (t : Thread) (l : Label) : result Fault System :=
  match pc t, l with
  | Running, Allocate p =>
      _ ← guard_enabled (bool_decide (p ∉ allocated s ∧ 0 < p));
      Ok (with_objects s ({[p]} ∪ allocated s) ({[p]} ∪ linked s) (unlinked s))
  | Running, Acquire p =>
      _ ← guard_enabled (bool_decide (guards t ≠ [] ∧ p ∈ linked s));
      Ok (with_thread s r {| counter := counter t; guards := guards t; refs := {[p]} ∪ refs t; pc := pc t |})
  | Running, Unlink p =>
      _ ← guard_enabled (bool_decide (guards t ≠ [] ∧ p ∈ linked s));
      Ok (with_objects s (allocated s) (linked s ∖ {[p]}) ({[p]} ∪ unlinked s))
  | Running, DeferredDelete p layout =>
      _ ← guard_enabled (bool_decide (guards t ≠ [] ∧ p ∈ unlinked s));
      c ← get_counter t;
      '(c, m) ← deferred_delete c (mem s) p layout;
      Ok (with_freed (with_objects
            (with_thread s r {| counter := Some c; guards := guards t; refs := refs t; pc := pc t |})
            (allocated s) (linked s) (unlinked s ∖ {[p]})) m [])
  | _, _ => Err NotEnabled
  end.

Definition step (s : System) '((r, l) : nat * Label) : result Fault System :=
  t ← ok_or NotEnabled (threads s !! r);
  match l with
  | InitReactor => init_reactor s r t
  | UninitReactor => uninit_reactor s r t
  | PinLoad => pin_load s r t
  | PinEnd => pin_end s r t
  | Unpin k => drop_guard s r t k
  | RepinLoad k => repin_load s r t k
  | RepinEnd => repin_end s r t
  | BumpLoad => bump_load s r t
  | ScanLoad => scan_load s r t
  | ScanRead => scan_read s r t
  | BumpEnd => bump_end s r t
  | _ => client_step s r t l
  end.

(** [n] reactors before their initialisation. *)
Definition initial (n : nat) (m : M) : System :=
  {| current_epoch_index := 1;
     threads := replicate n {| counter := None; guards := []; refs := ∅; pc := Running |};
     mem := m; allocated := ∅; linked := ∅; unlinked := ∅; deallocated := ∅ |}.

(** A reactor holds a reference to memory that was deallocated. *)
Definition use_after_free (s : System) : Prop :=
  ∃ r t p, threads s !! r = Some t ∧ p ∈ refs t ∧ p ∈ deallocated s.
End Reactors.
