(* ===== verification/EpochProps.v ===== *)
(** * Properties of epoch-based reclamation *)

From S2P Require Import Prelude Epoch.

(** ** The padding of layouts *)

Definition layout_ok (l : Layout) : Prop :=
  0 ≤ layout_size l ∧ ∃ k, 0 ≤ k ∧ layout_align l = 2 ^ k ∧ (layout_align l | layout_size l).

Lemma ldiff_pow2 x k : 0 ≤ k → Z.ldiff x (2 ^ k - 1) = x / 2 ^ k * 2 ^ k.
Proof.
  intros Hk. replace (2 ^ k - 1) with (Z.ones k) by (rewrite Z.ones_equiv; lia).
  by rewrite Z.ldiff_ones_r, Z.shiftl_mul_pow2, Z.shiftr_div_pow2 by done.
Qed.

Lemma pad_align l : layout_ok l → ∃ k, 3 ≤ k ∧ Z.max (layout_align l) MIN_ALLOC_ALIGN = 2 ^ k.
Proof.
  intros (_ & k & Hk & E & _). exists (Z.max k 3). split; [lia|]. unfold MIN_ALLOC_ALIGN. rewrite E.
  destruct (Z.le_gt_cases k 3).
  - rewrite (Z.max_r k 3) by lia. pose proof (Z.pow_le_mono_r 2 k 3). change (2 ^ 3) with 8 in *. lia.
  - rewrite (Z.max_l k 3) by lia. pose proof (Z.pow_le_mono_r 2 3 k). change (2 ^ 3) with 8 in *. lia.
Qed.

Lemma pad_spec l : layout_ok l →
  layout_ok (pad l) ∧ layout_size l ≤ layout_size (pad l) ∧ layout_align l ≤ layout_align (pad l) ∧
  16 ≤ layout_size (pad l) ∧ 8 ≤ layout_align (pad l) ∧
  layout_size (pad l) < Z.max (layout_size l) 16 + layout_align (pad l).
Proof.
  intros Hl. destruct (pad_align l Hl) as (k & Hk & E). unfold pad. cbn. rewrite E.
  set (sz := Z.max (layout_size l) MIN_ALLOC_SIZE).
  assert (8 ≤ 2 ^ k) by (pose proof (Z.pow_le_mono_r 2 3 k); change (2 ^ 3) with 8 in *; lia).
  rewrite ldiff_pow2 by lia.
  pose proof (Z.div_mod (sz + 2 ^ k - 1) (2 ^ k)). pose proof (Z.mod_pos_bound (sz + 2 ^ k - 1) (2 ^ k)).
  assert (layout_align l ≤ 2 ^ k) by lia. unfold sz, MIN_ALLOC_SIZE in *.
  split_and!; try lia. split; cbn; [lia|]. exists k. split_and!; [lia|done|apply Z.divide_factor_r].
Qed.

Lemma pad_idempotent l : layout_ok l → pad (pad l) = pad l.
Proof.
  intros Hl. destruct (pad_align l Hl) as (k & Hk & E). destruct (pad_spec l Hl) as (_ & _ & _ & H16 & H8 & _).
  revert H16 H8. unfold pad at 1 2 3 4 5. cbn. rewrite E. rewrite ldiff_pow2 by lia.
  set (q := (_ / 2 ^ k)). intros H16 H8. unfold MIN_ALLOC_SIZE, MIN_ALLOC_ALIGN.
  rewrite !Z.max_l by lia. rewrite ldiff_pow2 by lia. f_equal.
  replace (q * 2 ^ k + 2 ^ k - 1) with (2 ^ k - 1 + q * 2 ^ k) by lia.
  rewrite Z.div_add, (Z.div_small (2 ^ k - 1)) by lia. lia.
Qed.

(** ** What a bag promises to the generations *)

Definition entry_ok (x : Z * Layout) : Prop :=
  0 < x.1 ∧ 0 < layout_size x.2 ≤ U32_MAX ∧ 0 ≤ layout_align x.2 ≤ U32_MAX.

(** [bag_rep m b l]: in memory [m], [b] holds the entries [l].  Appending and
    reclaiming leave the bags with other entries alone. *)
Class BagLaws (M B : Type) {BI : BagImpl M B} := {
  bag_rep : M → B → list (Z * Layout) → Prop;
  rep_new m : bag_rep m bag_new [];
  rep_append m b l p lay : bag_rep m b l → entry_ok (p, lay) →
    let '(b', m') := bag_append b m p lay in
    p ∉ l.*1 → bag_rep m' b' ((p, lay) :: l) ∧
    ∀ b2 l2, bag_rep m b2 l2 → p ∉ l2.*1 → bag_rep m' b2 l2;
  rep_reclaim m b l : bag_rep m b l → NoDup l.*1 →
    ∃ b' m', bag_reclaim b m = Ok (b', m', l) ∧ bag_rep m' b' [] ∧
      ∀ b2 l2, bag_rep m b2 l2 → (∀ q, q ∈ l.*1 → q ∉ l2.*1) → bag_rep m' b2 l2;
}.

(** The intrusive list: every node holds the layout and the next pointer. *)
Fixpoint chain (m : DeferredList.memory) (h : Z) (l : list (Z * Layout)) : Prop :=
  match l with
  | [] => h = DeferredList.null
  | (p, lay) :: l =>
      h = p ∧ 0 < p ∧ ∃ nx, chain m nx l ∧
        m !! p = Some {| DeferredList.next := nx; DeferredList.size := layout_size lay;
                         DeferredList.align := layout_align lay |}
  end.

Lemma chain_frame m m' h l : chain m h l → (∀ p, p ∈ l.*1 → m' !! p = m !! p) → chain m' h l.
Proof.
  revert h. induction l as [|[p lay] l IH]; [done|]. intros h (-> & Hp & nx & Hc & Em) H. split_and!; [done..|].
  exists nx. split; [apply IH; [done|]; intros q Hq; apply H; by right|]. rewrite H by left. done.
Qed.

Lemma chain_size m h l : chain m h l → NoDup l.*1 → (length l ≤ size m)%nat.
Proof.
  intros Hc Hn. unfold DeferredList.memory in m. rewrite <-(size_dom (D := gset Z) m).
  rewrite <-(length_fmap fst l), <-(size_list_to_set (C := gset Z)) by done.
  apply subseteq_size. clear Hn. revert h Hc. induction l as [|[p lay] l IH]; intros h Hc; [set_solver|].
  destruct Hc as (_ & _ & nx & Hc & Em). cbn. apply union_least; [|by eapply IH].
  apply singleton_subseteq_l. by eapply elem_of_dom_2.
Qed.

Lemma reclaim_loop_spec l : ∀ fuel m h, chain m h l → NoDup l.*1 → (length l ≤ fuel)%nat →
  ∃ m', DeferredList.reclaim_loop fuel h m = Ok (m', l) ∧ ∀ q, q ∉ l.*1 → m' !! q = m !! q.
Proof.
  induction l as [|[p lay] l IH]; intros fuel m h Hc Hn Hl.
  { cbn in Hc. subst. exists m. split; [|done]. destruct fuel; done. }
  destruct fuel as [|fuel]; [cbn in Hl; lia|]. destruct Hc as (-> & Hp & nx & Hc & Em).
  apply NoDup_cons in Hn as [Hpl Hn]. cbn [DeferredList.reclaim_loop].
  rewrite (proj2 (Z.eqb_neq _ _)) by (unfold DeferredList.null; cbn in *; lia). rewrite Em. cbn [DeferredList.next].
  destruct (IH fuel (delete p m) nx) as (m' & E & Hm'); [|done|cbn in Hl; lia|].
  - eapply chain_frame; [done|]. intros q Hq. apply lookup_delete_ne. intros ->. done.
  - exists m'. rewrite E. split.
    + cbn. by destruct lay.
    + intros q Hq. cbn in Hq. apply not_elem_of_cons in Hq as [??].
      rewrite Hm' by done. by apply lookup_delete_ne.
Qed.

#[export] Existing Instance intrusive.

Lemma as_u32_id x : 0 ≤ x ≤ U32_MAX → as_u32 x = x.
Proof. unfold as_u32, U32_MAX. intros ?. apply Z.mod_small. lia. Qed.

#[export] Program Instance intrusive_laws : BagLaws DeferredList.memory Z := {| bag_rep := chain |}.
Next Obligation. done. Qed.
Next Obligation.
  intros m b l p lay Hc (Hp & Hs & Ha) Hl. cbn in *. split.
  - split_and!; [done..|]. exists b. split.
    + eapply chain_frame; [done|]. intros q Hq. apply lookup_insert_ne. by intros ->.
    + rewrite !as_u32_id by lia. apply lookup_insert_eq.
  - intros b2 l2 H2 Hp2. eapply chain_frame; [done|]. intros q Hq. apply lookup_insert_ne. by intros ->.
Qed.
Next Obligation.
  intros m b l Hc Hn. cbn. unfold DeferredList.reclaim.
  destruct (reclaim_loop_spec l (size m) m b Hc Hn) as (m' & E & Hm'); [by eapply chain_size|].
  change (map_size m) with (size m). rewrite E. exists DeferredList.null, m'. split_and!; [done..|].
  intros b2 l2 H2 Hd. eapply chain_frame; [done|]. intros q Hq. apply Hm'. intros Hq'. by eapply Hd.
Qed.

(** ** Generations *)

Lemma foldM_map {E S A C} (f : S → A → result E S) (g : C → A) s l :
  foldM (λ s x, f s (g x)) s l = foldM f s (g <$> l).
Proof. revert s. induction l as [|x l IH]; intros s; [done|]. cbn. destruct (f s (g x)); [apply IH|done..]. Qed.

Section Safety.
Context {M B : Type} {BI : BagImpl M B} {BL : BagLaws M B}.
Implicit Types (m : M) (bags : list B) (f : nat → list (Z * Layout)).

Definition bags_rep m bags f : Prop :=
  length bags = 3%nat ∧ ∀ k b, bags !! k = Some b → bag_rep m b (f k).

(** The entries of distinct bags, and of one bag, have distinct addresses. *)
Definition uniq f : Prop :=
  (∀ k, NoDup (f k).*1) ∧ ∀ k k' p, p ∈ (f k).*1 → p ∈ (f k').*1 → k = k'.

Definition emptied (ks : list nat) f : nat → list (Z * Layout) := λ k, if decide (k ∈ ks) then [] else f k.

Lemma emptied_elem ks f k x : x ∈ emptied ks f k ↔ k ∉ ks ∧ x ∈ f k.
Proof. unfold emptied. case_decide; [|tauto]. split; [intros []%not_elem_of_nil|tauto]. Qed.

Lemma uniq_emptied ks f : uniq f → uniq (emptied ks f).
Proof.
  intros [Hn Hu]. split.
  - intros k. unfold emptied. case_decide; [constructor|apply Hn].
  - intros k k' p. unfold emptied. do 2 case_decide; cbn; try (intros ?; by intros ?%not_elem_of_nil);
      try (by intros ?%not_elem_of_nil). apply Hu.
Qed.

(** [rest]: everything that lives in bags other than these. *)
Lemma drain_spec ks : ∀ m bags f acc, bags_rep m bags f → uniq f → Forall (λ k, k < 3)%nat ks →
  ∃ bags' m' fr, foldM reclaim_bag (bags, m, acc) ks = Ok (bags', m', acc ++ fr) ∧
    bags_rep m' bags' (emptied ks f) ∧ (∀ x, x ∈ fr ↔ ∃ k, k ∈ ks ∧ x ∈ f k) ∧
    ∀ b2 l2, bag_rep m b2 l2 → (∀ q, q ∈ fr.*1 → q ∉ l2.*1) → bag_rep m' b2 l2.
Proof.
  induction ks as [|k ks IH]; intros m bags f acc Hb Hu Hk.
  { exists bags, m, []. cbn. rewrite app_nil_r. split_and!; [done| | |done].
    - destruct Hb as [Hl Hb]. split; [done|]. intros k b E. unfold emptied.
      rewrite decide_False by apply not_elem_of_nil. by apply Hb.
    - intros x. split; [intros []%not_elem_of_nil|intros (k & []%not_elem_of_nil & _)]. }
  apply Forall_cons in Hk as [Hk Hks]. destruct Hb as [Hl Hb].
  destruct (lookup_lt_is_Some_2 bags k) as [b Eb]; [lia|].
  destruct (rep_reclaim m b (f k) (Hb k b Eb) (proj1 Hu k)) as (b' & m' & E & Hb' & Hfr).
  assert (reclaim_bag (bags, m, acc) k = Ok (<[k:=b']> bags, m', acc ++ f k)) as E1
    by (cbn; by rewrite Eb, E).
  cbn [foldM]. rewrite E1, bind_ok.
  destruct (IH m' (<[k:=b']> bags) (emptied [k] f) (acc ++ f k)) as (bags' & m'' & fr & E' & Hr & Hx & Hfr'); [|by apply uniq_emptied|done|].
  - split; [by rewrite length_insert|]. intros k2 b2 [(<- & -> & _)|[Hne E2]]%list_lookup_insert_Some.
    + unfold emptied. by rewrite decide_True by left.
    + unfold emptied. rewrite decide_False by (rewrite list_elem_of_singleton; done).
      apply Hfr; [by apply Hb|]. intros q Hq Hq2. apply Hne. by eapply Hu.
  - exists bags', m'', (f k ++ fr). rewrite E', <-app_assoc. split_and!; [done| | |].
    + destruct Hr as [Hl' Hr]. split; [done|]. intros k2 b2 E2. specialize (Hr k2 b2 E2).
      unfold emptied in *. destruct (decide (k2 ∈ ks)); [by rewrite decide_True by (by right)|].
      erewrite decide_ext; [done|]. rewrite elem_of_cons, list_elem_of_singleton. tauto.
    + intros x. rewrite elem_of_app, Hx. setoid_rewrite emptied_elem.
      setoid_rewrite list_elem_of_singleton. setoid_rewrite elem_of_cons. split.
      * intros [?|(k2 & ? & ? & ?)]; [exists k; tauto|exists k2; tauto].
      * intros (k2 & Hk2 & ?). destruct (decide (k2 = k)) as [->|]; [by left|right].
        exists k2. tauto.
    + intros b2 l2 H2 Hd. rewrite fmap_app in Hd. setoid_rewrite elem_of_app in Hd.
      apply Hfr'; [apply Hfr; [done|]|]; intros q Hq; apply Hd; tauto.
Qed.

(** The slots that a catch-up from one epoch to a later one reclaims. *)
Definition slots (old cur : Z) : list nat :=
  (λ i, bag_slot (old + 1 + Z.of_nat i + 1)) <$> seq 0 (Z.to_nat (Z.min (cur - old) 3)).

Lemma reclaim_slots bags m old cur : 0 ≤ old ≤ cur → cur ≤ U32_MAX →
  reclaim bags m old cur = foldM reclaim_bag (bags, m, []) (slots old cur).
Proof.
  intros Ho Hc. unfold reclaim, slots. rewrite as_u32_id by lia. rewrite foldM_map. f_equal.
  apply list_fmap_ext. intros _ i Hi%list_elem_of_lookup_2%elem_of_seq. cbn. rewrite as_u32_id by lia.
  f_equal. lia.
Qed.

Lemma bag_slot_lt e : (bag_slot e < 3)%nat.
Proof. unfold bag_slot. pose proof (Z.mod_pos_bound e 3). lia. Qed.

Lemma slots_lt old cur : Forall (λ k, k < 3)%nat (slots old cur).
Proof. apply Forall_fmap, Forall_forall. intros i _. apply bag_slot_lt. Qed.

(** What is reclaimed was tagged two epochs ago. *)
Lemma slots_age old cur T : T ≤ old → bag_slot T ∈ slots old cur → T + 2 ≤ cur.
Proof.
  intros HT (i & E & Hi%elem_of_seq)%list_elem_of_fmap. unfold bag_slot in E.
  set (e := old + 1 + Z.of_nat i) in *. assert (e ≤ cur) by lia. assert (T < e) by lia.
  pose proof (Z.mod_pos_bound T 3). pose proof (Z.mod_pos_bound (e + 1) 3).
  assert (T mod 3 = (e + 1) mod 3) as Em by lia.
  pose proof (Z.div_mod T 3). pose proof (Z.div_mod (e + 1) 3). lia.
Qed.

Lemma defer_spec bags m f e p lay : bags_rep m bags f → entry_ok (p, lay) → (∀ k, p ∉ (f k).*1) →
  ∃ bags' m', defer bags m e p lay = Ok (bags', m') ∧
    bags_rep m' bags' (λ k, if decide (k = bag_slot e) then (p, lay) :: f k else f k) ∧
    ∀ b2 l2, bag_rep m b2 l2 → p ∉ l2.*1 → bag_rep m' b2 l2.
Proof.
  intros [Hl Hb] He Hp. unfold defer. pose proof (bag_slot_lt e).
  destruct (lookup_lt_is_Some_2 bags (bag_slot e)) as [b Eb]; [lia|]. rewrite Eb.
  pose proof (rep_append m b _ p lay (Hb _ _ Eb) He) as Ha.
  destruct (bag_append b m p lay) as [b' m']. destruct (Ha (Hp _)) as [Hb' Hfr].
  exists (<[bag_slot e := b']> bags), m'. split_and!; [done| |done].
  split; [by rewrite length_insert|]. intros k2 b2 [(<- & -> & _)|[Hne E2]]%list_lookup_insert_Some.
  - by rewrite decide_True.
  - rewrite decide_False by done. apply Hfr; [by apply Hb|apply Hp].
Qed.

(** ** The invariant of the reactors *)

Implicit Types (s : System (M := M) (B := B)) (t : Thread (B := B)) (c : EpochCounter (B := B)).

(** A reactor that holds a guard lags at most one epoch behind; so does the
    epoch that a first [pin] is about to store. *)
Definition counter_ok (G : Z) t c : Prop :=
  1 ≤ local_epoch c ≤ G ∧ pin_count c = len (guards t) ∧ (guards t ≠ [] → G - 1 ≤ local_epoch c) ∧
  Forall (λ e, local_epoch c ≤ e ≤ G) (guards t) ∧ (guards t = [] → refs t = ∅) ∧
  match pc t with
  | Pinning g => local_epoch c ≤ g ≤ G ∧ G - 1 ≤ g
  | Repinning k g => local_epoch c ≤ g ≤ G ∧ (len (guards t) = 1 → refs t = ∅) ∧
      ∃ e, guards t !! k = Some e ∧ e ≤ g
  | _ => True
  end.

Definition thread_ok (G : Z) t : Prop :=
  match counter t with
  | None => guards t = [] ∧ refs t = ∅ ∧ match pc t with Pinning _ | Repinning _ _ => False | _ => True end
  | Some c => counter_ok G t c
  end.

(** A slot that the scan of epoch [g] has passed does not hold back the step to [g + 1]. *)
Definition ready (g : Z) t : Prop :=
  ∀ c, counter t = Some c → g ≤ local_epoch c ∨ guards t = [] ∧ ∀ g', pc t = Pinning g' → g ≤ g'.

Definition scan_ok s t : Prop :=
  let passed g i (e : Z) := g ≤ current_epoch_index s ∧ (i ≤ length (threads s))%nat ∧
    (g = current_epoch_index s → g ≤ e → ∀ j u, (j < i)%nat → threads s !! j = Some u → ready g u) in
  match pc t with
  | Scanning g i e => passed g i e
  | Reading g i e => passed g i e ∧ ∃ u c, threads s !! i = Some u ∧ counter u = Some c
  | _ => True
  end.

(** Only reactors that observed no epoch after [T] hold a reference to [p]. *)
Definition held_before s (T p : Z) : Prop :=
  ∀ r t c, threads s !! r = Some t → counter t = Some c → p ∈ refs t → local_epoch c ≤ T.

(** The entry [x] in bag [k] of reactor [r] was tagged with some epoch. *)
Definition garbage_ok s (r k : nat) (x : Z * Layout) : Prop :=
  ∃ t c T, threads s !! r = Some t ∧ counter t = Some c ∧ bag_slot T = k ∧ T ≤ local_epoch c ∧
    held_before s T x.1 ∧
    x.1 ∈ allocated s ∧ x.1 ∉ linked s ∧ x.1 ∉ unlinked s ∧ x.1 ∉ deallocated s.

Record inv s (γ : nat → nat → list (Z * Layout)) : Prop := {
  inv_epoch : 1 ≤ current_epoch_index s ≤ U32_MAX;
  inv_thread r t : threads s !! r = Some t → thread_ok (current_epoch_index s) t;
  inv_scan r t : threads s !! r = Some t → scan_ok s t;
  inv_bags r t c : threads s !! r = Some t → counter t = Some c → bags_rep (mem s) (generations c) (γ r);
  inv_garbage r k x : x ∈ γ r k → garbage_ok s r k x;
  inv_uniq r : uniq (γ r);
  inv_owner r r' k k' p : p ∈ (γ r k).*1 → p ∈ (γ r' k').*1 → r = r';
  inv_refs r t p : threads s !! r = Some t → p ∈ refs t → p ∈ allocated s ∧ p ∉ deallocated s;
  inv_positive p : p ∈ allocated s → 0 < p;
  inv_objects p : (p ∈ linked s → p ∈ allocated s ∧ p ∉ unlinked s ∧ p ∉ deallocated s) ∧
                  (p ∈ unlinked s → p ∈ allocated s ∧ p ∉ deallocated s) ∧
                  (p ∈ deallocated s → p ∈ allocated s);
}.

Lemma garbage_elem s γ r k p : inv s γ → p ∈ (γ r k).*1 → ∃ x, x ∈ γ r k ∧ p = x.1 ∧ garbage_ok s r k x.
Proof. intros HI (x & -> & Hx)%list_elem_of_fmap. exists x. split_and!; [done..|]. by eapply inv_garbage. Qed.

(** ** Steps that leave the bags alone *)

Definition same_counter t t' : Prop :=
  match counter t, counter t' with
  | None, None => True
  | Some c, Some c' => generations c' = generations c ∧ local_epoch c ≤ local_epoch c' ∧
                       (local_epoch c' = local_epoch c ∨ refs t' = ∅)
  | None, Some c' => generations c' = generations_new ∧ refs t' = ∅
  | Some _, None => False
  end.

Lemma scan_thread s r t t' u : threads s !! r = Some t → scan_ok s u →
  (ready (current_epoch_index s) t → ready (current_epoch_index s) t') →
  (∀ c, counter t = Some c → counter t' ≠ None ∨ pc u = Running) → scan_ok (with_thread s r t') u.
Proof.
  intros Et Hs Hr Hc.
  assert (P : ∀ g i (e : Z), g ≤ current_epoch_index s ∧ (i ≤ length (threads s))%nat ∧
      (g = current_epoch_index s → g ≤ e → ∀ j u, (j < i)%nat → threads s !! j = Some u → ready g u) →
      g ≤ current_epoch_index s ∧ (i ≤ length (<[r := t']> (threads s)))%nat ∧
      (g = current_epoch_index s → g ≤ e → ∀ j u, (j < i)%nat → <[r := t']> (threads s) !! j = Some u → ready g u)).
  { intros g i e (Hg & Hi & Hp). rewrite length_insert. split_and!; [done..|]. intros -> Hm j v Hj.
    intros [(<- & <- & _)|[_ E]]%list_lookup_insert_Some; [apply Hr|]; by eapply Hp. }
  unfold scan_ok in *. cbn. destruct (pc u) eqn:Epc; try done; [by apply P|].
  destruct Hs as [Hs (v & c & Ev & Ec)]. split; [by apply P|].
  destruct (decide (r = i)) as [->|Hne].
  - rewrite Et in Ev. injection Ev as <-. destruct (Hc c Ec) as [Hn|]; [|done].
    destruct (counter t') as [c'|] eqn:E'; [|done]. exists t', c'. split; [|done].
    apply list_lookup_insert_eq, lookup_lt_is_Some. eauto.
  - exists v, c. by rewrite list_lookup_insert_ne.
Qed.

Lemma lookup_thread s r t' r2 t2 : threads (with_thread s r t') !! r2 = Some t2 →
  (r2 = r ∧ t2 = t') ∨ (r2 ≠ r ∧ threads s !! r2 = Some t2).
Proof. cbn. intros [(<- & <- & _)|[? ?]]%list_lookup_insert_Some; [by left|by right]. Qed.

Lemma thread_at s r t t' : threads s !! r = Some t → threads (with_thread s r t') !! r = Some t'.
Proof. intros E. cbn. apply list_lookup_insert_eq, lookup_lt_is_Some. eauto. Qed.

Lemma thread_elsewhere s r t' r2 : r2 ≠ r → threads (with_thread s r t') !! r2 = threads s !! r2.
Proof. intros Hne. cbn. by apply list_lookup_insert_ne. Qed.

Lemma no_garbage s γ r t m : inv s γ → threads s !! r = Some t → counter t = None →
  bags_rep m generations_new (γ r).
Proof.
  intros HI Et Ec. split; [done|]. intros k b Eb. assert (γ r k = []) as ->.
  { destruct (γ r k) as [|x l] eqn:E; [done|].
    destruct (inv_garbage s γ HI r k x) as (t2 & c2 & _ & E2 & Ec2 & _); [rewrite E; left|]. congruence. }
  destruct k as [|[|[|k]]]; [injection Eb as <-; apply rep_new..|done].
Qed.

Lemma inv_local s γ r t t' : inv s γ → threads s !! r = Some t →
  thread_ok (current_epoch_index s) t' → scan_ok (with_thread s r t') t' →
  (ready (current_epoch_index s) t → ready (current_epoch_index s) t') → same_counter t t' →
  (∀ p, p ∈ refs t' → p ∈ refs t ∨ p ∈ linked s) → inv (with_thread s r t') γ.
Proof.
  intros HI Et Ht' Hs' Hr Hsc Hrefs. unfold same_counter in Hsc. constructor; try apply HI.
  - intros r2 t2 [[-> ->]|[Hne E]]%lookup_thread; [done|]. exact (inv_thread s γ HI r2 t2 E).
  - intros r2 t2 [[-> ->]|[Hne E]]%lookup_thread; [done|]. apply (scan_thread _ _ t); [done|exact (inv_scan s γ HI r2 t2 E)|done|].
    intros c Ec. left. rewrite Ec in Hsc. by destruct (counter t').
  - intros r2 t2 c2 [[-> ->]|[Hne E]]%lookup_thread Ec2; [|exact (inv_bags s γ HI r2 t2 c2 E Ec2)].
    rewrite Ec2 in Hsc. destruct (counter t) as [c|] eqn:Ec; destruct Hsc as [-> _].
    + exact (inv_bags s γ HI r t c Et Ec).
    + by eapply no_garbage.
  - intros r2 k x Hx. destruct (inv_garbage s γ HI r2 k x Hx) as (t2 & c2 & T & E2 & Ec2 & Hk & HT & Hh & Ha & Hl & Hu & Hd).
    assert (Hh' : held_before (with_thread s r t') T x.1).
    { intros r3 t3 c3 [[-> ->]|[Hne E]]%lookup_thread Ec3 Hp; [|exact (Hh r3 t3 c3 E Ec3 Hp)].
      rewrite Ec3 in Hsc. destruct (counter t) as [c|] eqn:Ec; [|by destruct Hsc as [_ Hemp]; rewrite Hemp in Hp].
      destruct Hsc as (_ & _ & [->|Hemp]).
      - destruct (Hrefs _ Hp) as [Hp'|]; [exact (Hh r t c Et Ec Hp')|done].
      - by rewrite Hemp in Hp. }
    destruct (decide (r2 = r)) as [->|Hne].
    + rewrite Et in E2. injection E2 as <-. rewrite Ec2 in Hsc. destruct (counter t') as [c'|] eqn:Ec'; [|done].
      destruct Hsc as (_ & Hle & _).
      exists t', c', T. split_and!; try done; [by eapply thread_at|lia].
    + exists t2, c2, T. rewrite thread_elsewhere by done. by split_and!.
  - intros r2 t2 p [[-> ->]|[Hne E]]%lookup_thread Hp; [|exact (inv_refs s γ HI r2 t2 p E Hp)].
    destruct (Hrefs _ Hp); [by apply (inv_refs s γ HI r t p Et)|]. cbn.
    by destruct (proj1 (inv_objects s γ HI p)) as (? & ? & ?).
Qed.

(** ** Steps that reclaim bags *)

Definition retarget (γ : nat → nat → list (Z * Layout)) (r : nat) f : nat → nat → list (Z * Layout) :=
  λ r', if decide (r' = r) then f else γ r'.

Lemma retarget_self γ r f : retarget γ r f r = f.
Proof. unfold retarget. by rewrite decide_True. Qed.
Lemma retarget_ne γ r f r' : r' ≠ r → retarget γ r f r' = γ r'.
Proof. intros ?. unfold retarget. by rewrite decide_False. Qed.

Lemma retarget_owner γ r f :
  (∀ r r' k k' p, p ∈ (γ r k).*1 → p ∈ (γ r' k').*1 → r = r') →
  (∀ k p, p ∈ (f k).*1 → (∃ k', p ∈ (γ r k').*1) ∨ ∀ r' k', p ∉ (γ r' k').*1) →
  ∀ r1 r2 k k' p, p ∈ (retarget γ r f r1 k).*1 → p ∈ (retarget γ r f r2 k').*1 → r1 = r2.
Proof.
  intros Hu Hf r1 r2 k k' p. unfold retarget. do 2 case_decide; subst; [done| | |apply Hu].
  - intros H1 H2. destruct (Hf _ _ H1) as [[k2 H3]|H3]; [by eapply Hu|by apply H3 in H2].
  - intros H1 H2. destruct (Hf _ _ H2) as [[k2 H3]|H3]; [by eapply Hu|by apply H3 in H1].
Qed.

Lemma emptied_sub ks f k p : p ∈ (emptied ks f k).*1 → p ∈ (f k).*1.
Proof. intros (x & -> & [_ Hx]%emptied_elem)%list_elem_of_fmap. by apply list_elem_of_fmap_2. Qed.

Definition drained c t' (ks : list nat) (bags' : list B) f (s : System (M := M) (B := B)) (r : nat) : Prop :=
  match counter t' with
  | Some c' => generations c' = bags' ∧ local_epoch c ≤ local_epoch c'
  | None => (∀ k x, x ∈ f k → k ∈ ks) ∧ ∀ r2 t2, r2 ≠ r → threads s !! r2 = Some t2 → pc t2 = Running
  end.

Section Drained.
Context s γ r t c t' ks bags' m' fr
  (HI : inv s γ) (Et : threads s !! r = Some t) (Ec : counter t = Some c)
  (Hrep : bags_rep m' bags' (emptied ks (γ r)))
  (Hfr : ∀ x, x ∈ fr ↔ ∃ k, k ∈ ks ∧ x ∈ γ r k)
  (Hframe : ∀ b2 l2, bag_rep (mem s) b2 l2 → (∀ q, q ∈ fr.*1 → q ∉ l2.*1) → bag_rep m' b2 l2)
  (Hdr : drained c t' ks bags' (γ r) s r) (Hrefs : refs t' = ∅)
  (Hfree : ∀ x r2 t2, x ∈ fr → r2 ≠ r → threads s !! r2 = Some t2 → x.1 ∉ refs t2).

Let s' := with_freed (with_thread s r t') m' fr.
Let γ' := retarget γ r (emptied ks (γ r)).

Lemma drained_elem p : p ∈ deallocated s' ↔ p ∈ fr.*1 ∨ p ∈ deallocated s.
Proof. cbn. rewrite elem_of_union, elem_of_list_to_set. done. Qed.

Lemma drained_garbage r2 k x : x ∈ γ' r2 k → x ∈ γ r2 k ∧ x.1 ∉ fr.*1.
Proof.
  intros Hx. assert (Hx' : x ∈ γ r2 k ∧ (r2 = r → k ∉ ks)).
  { revert Hx. unfold γ', retarget. case_decide; [|done]. subst. rewrite emptied_elem. tauto. }
  destruct Hx' as [Hx' Hk]. split; [done|]. intros (y & Ey & (k2 & Hk2 & Hy)%Hfr)%list_elem_of_fmap.
  assert (Hxp : x.1 ∈ (γ r2 k).*1) by (by apply list_elem_of_fmap_2).
  assert (Hyp : x.1 ∈ (γ r k2).*1) by (rewrite Ey; by apply list_elem_of_fmap_2).
  assert (r2 = r) as -> by exact (inv_owner s γ HI _ _ _ _ _ Hxp Hyp).
  apply (Hk eq_refl). by rewrite (proj2 (inv_uniq s γ HI r) _ _ _ Hxp Hyp).
Qed.

Lemma drained_garbage_ok r2 k x : x ∈ γ' r2 k → garbage_ok s' r2 k x.
Proof.
  intros Hx. destruct (drained_garbage _ _ _ Hx) as [Hx' Hnf].
  destruct (inv_garbage s γ HI r2 k x Hx') as (t2 & c2 & T & E2 & Ec2 & Hk & HT & Hh & Ha & Hl & Hu & Hd).
  assert (Hh' : held_before s' T x.1).
  { intros r3 t3 c3 [[-> ->]|[Hne E]]%lookup_thread Ec3 Hp; [by rewrite Hrefs in Hp|exact (Hh r3 t3 c3 E Ec3 Hp)]. }
  assert (Hd' : x.1 ∉ deallocated s') by (rewrite drained_elem; tauto).
  destruct (decide (r2 = r)) as [->|Hne].
  - rewrite Et in E2. injection E2 as <-. rewrite Ec in Ec2. injection Ec2 as <-.
    unfold γ' in Hx. rewrite retarget_self, emptied_elem in Hx. unfold drained in Hdr.
    destruct (counter t') as [c'|] eqn:Ec'; [|by destruct Hx as [[] ?]; eapply (proj1 Hdr)].
    exists t', c', T. split_and!; try done; [by eapply thread_at|lia].
  - exists t2, c2, T. split_and!; try done. by rewrite <-E2; apply thread_elsewhere.
Qed.

Lemma inv_drained :
  thread_ok (current_epoch_index s) t' → pc t' = Running →
  (ready (current_epoch_index s) t → ready (current_epoch_index s) t') → inv s' γ'.
Proof.
  intros Ht' Hpc Hready. constructor; try apply HI.
  - intros r2 t2 [[-> ->]|[Hne E]]%lookup_thread; [done|]. exact (inv_thread s γ HI r2 t2 E).
  - intros r2 t2 [[-> ->]|[Hne E]]%lookup_thread; [by unfold scan_ok; rewrite Hpc|].
    change (scan_ok (with_thread s r t') t2).
    apply (scan_thread _ _ t); [done|exact (inv_scan s γ HI r2 t2 E)|done|]. intros ? _. unfold drained in Hdr.
    destruct (counter t'); [by left|right]. by eapply (proj2 Hdr).
  - intros r2 t2 c2 [[-> ->]|[Hne E]]%lookup_thread Ec2.
    + unfold γ'. rewrite retarget_self. unfold drained in Hdr. rewrite Ec2 in Hdr. by destruct Hdr as [-> _].
    + unfold γ'. rewrite retarget_ne by done. destruct (inv_bags s γ HI r2 t2 c2 E Ec2) as [Hl Hb].
      split; [done|]. intros k b Eb. apply Hframe; [by apply Hb|].
      intros q (x & -> & (k2 & _ & Hx)%Hfr)%list_elem_of_fmap Hq. apply Hne.
      apply (inv_owner s γ HI _ _ _ _ _ Hq (list_elem_of_fmap_2 fst _ _ Hx)).
  - exact drained_garbage_ok.
  - intros r2. unfold γ', retarget. case_decide; [apply uniq_emptied|]; apply HI.
  - apply retarget_owner; [apply HI|]. intros k p Hp. left. exists k. by eapply emptied_sub.
  - intros r2 t2 p [[-> ->]|[Hne E]]%lookup_thread Hp; [by rewrite Hrefs in Hp|].
    destruct (inv_refs s γ HI r2 t2 p E Hp) as [Ha Hd]. split; [done|]. rewrite drained_elem.
    intros [(x & -> & Hx)%list_elem_of_fmap|]; [|done]. by eapply Hfree.
  - intros p. rewrite drained_elem. destruct (inv_objects s γ HI p) as (Hl & Hu & Hd).
    assert (Hp : p ∈ fr.*1 → p ∈ allocated s ∧ p ∉ linked s ∧ p ∉ unlinked s).
    { intros (x & -> & (k2 & _ & Hx)%Hfr)%list_elem_of_fmap.
      by destruct (inv_garbage s γ HI r k2 x Hx) as (? & ? & ? & _ & _ & _ & _ & _ & ? & ? & ? & ?). }
    cbn. tauto.
Qed.
End Drained.

(** ** Every step preserves the invariant

    The steps of a run that the theorem is about: [deferred_delete] is called
    by a reactor that has observed the current epoch, a reactor is shut down
    when all others have left their event loops, and the epoch does not wrap. *)
Definition orderly s '((r, l) : nat * Label) : Prop :=
  match l with
  | DeferredDelete _ layout => 0 ≤ layout_align layout ∧
      ∀ t c, threads s !! r = Some t → counter t = Some c → local_epoch c = current_epoch_index s
  | UninitReactor => ∀ r' t', r' ≠ r → threads s !! r' = Some t' → guards t' = [] ∧ pc t' = Running
  | BumpEnd => current_epoch_index s < U32_MAX
  | _ => True
  end.

Definition fine (o : result Fault (System (M := M) (B := B))) : Prop :=
  match o with
  | Ok s' => ∃ γ', inv s' γ'
  | Err NotEnabled | Panic => True
  | Err DanglingRead | Diverge => False
  end.

Lemma with_freed_nil s m : mem s = m → with_freed s m [] = s.
Proof. intros <-. destruct s. unfold with_freed. cbn. f_equal. set_solver. Qed.

(** Whoever holds a guard holds no reference to what was tagged two epochs ago. *)
Lemma old_garbage_unheld s γ r t c k x r2 t2 : inv s γ → threads s !! r = Some t → counter t = Some c →
  x ∈ γ r k → (∀ T, T ≤ local_epoch c → bag_slot T = k → T + 2 ≤ current_epoch_index s) →
  threads s !! r2 = Some t2 → x.1 ∉ refs t2.
Proof.
  intros HI Et Ec Hx Hage E2 Hp.
  destruct (inv_garbage s γ HI r k x Hx) as (t' & c' & T' & E' & Ec' & Hk & HT & Hh & _).
  rewrite Et in E'. injection E' as <-. rewrite Ec in Ec'. injection Ec' as <-.
  pose proof (Hage T' HT Hk). pose proof (inv_thread s γ HI r2 t2 E2) as Ht2. unfold thread_ok in Ht2.
  destruct (counter t2) as [c2|] eqn:Ec2; [|by destruct Ht2 as (_ & E & _); rewrite E in Hp].
  pose proof (Hh r2 t2 c2 E2 Ec2 Hp). destruct Ht2 as (_ & _ & Hg & _ & He & _).
  destruct (guards t2); [by rewrite He in Hp|]. specialize (Hg ltac:(done)). lia.
Qed.

Lemma init_fine s γ r t : inv s γ → threads s !! r = Some t → fine (init_reactor s r t).
Proof.
  intros HI Et. unfold init_reactor. destruct (pc t) eqn:Epc; try done. destruct (counter t) eqn:Ec; try done.
  pose proof (inv_epoch s γ HI). exists γ. apply (inv_local s γ r t); [done..| | | | |].
  - unfold thread_ok, counter_ok. cbn. split_and!; try done; lia.
  - done.
  - intros _ c E. by right.
  - unfold same_counter. by rewrite Ec.
  - by left.
Qed.

Lemma pin_load_fine s γ r t : inv s γ → threads s !! r = Some t → fine (pin_load s r t).
Proof.
  intros HI Et. unfold pin_load, get_counter. destruct (pc t) eqn:Epc; try done.
  destruct (counter t) as [c|] eqn:Ec; [|done]. exists γ. cbn.
  pose proof (inv_thread s γ HI r t Et) as Ht. unfold thread_ok in Ht. rewrite Ec in Ht.
  destruct Ht as (? & ? & ? & ? & ? & _). apply (inv_local s γ r t); [done..| | | | |].
  - unfold thread_ok, counter_ok. cbn. rewrite Ec. split_and!; done || lia.
  - done.
  - intros Hr c' Ec'. destruct (Hr c' Ec') as [|[Hg _]]; [by left|right]. split; [done|].
    intros g' E. injection E as <-. done.
  - unfold same_counter. cbn. rewrite Ec. split_and!; [done..|by left].
  - by left.
Qed.

(** A catch-up of reactor [r] from [old] to [cur], both observed. *)
Lemma catch_up s γ r t c old cur : inv s γ → threads s !! r = Some t → counter t = Some c →
  local_epoch c ≤ old ≤ cur → cur ≤ current_epoch_index s →
  ∃ bags' m' fr, reclaim (generations c) (mem s) old cur = Ok (bags', m', fr) ∧
    ∀ t' n, counter t' = Some {| local_epoch := cur; pin_count := n; generations := bags' |} →
      refs t' = ∅ → thread_ok (current_epoch_index s) t' → pc t' = Running →
      (ready (current_epoch_index s) t → ready (current_epoch_index s) t') →
      ∃ γ', inv (with_freed (with_thread s r t') m' fr) γ'.
Proof.
  intros HI Et Ec Ho Hc. pose proof (inv_epoch s γ HI) as HG.
  pose proof (inv_thread s γ HI r t Et) as Ht. unfold thread_ok in Ht. rewrite Ec in Ht. destruct Ht as (Hl & _).
  rewrite reclaim_slots by lia.
  destruct (drain_spec (slots old cur) (mem s) (generations c) (γ r) [] (inv_bags s γ HI r t c Et Ec)
    (inv_uniq s γ HI r) (slots_lt old cur)) as (bags' & m' & fr & E & Hrep & Hfr & Hframe).
  exists bags', m', fr. split; [done|]. intros t' n Ec' Hrefs Ht' Hpc Hready. eexists.
  eapply (inv_drained s γ r t c t' (slots old cur) bags'); try done.
  - unfold drained. rewrite Ec'. cbn. split; [done|lia].
  - intros x r2 t2 (k & Hk & Hx)%Hfr _ E2. eapply (old_garbage_unheld s γ r t c k x r2 t2); try done.
    intros T HT <-. pose proof (slots_age old cur T). specialize (H ltac:(lia) Hk). lia.
Qed.

Lemma nested_pin_ok G t c : counter_ok G t c → G - 1 ≤ local_epoch c →
  thread_ok G {| counter := Some {| local_epoch := local_epoch c; pin_count := pin_count c + 1;
                                    generations := generations c |};
                 guards := guards t ++ [local_epoch c]; refs := refs t; pc := Running |}.
Proof.
  intros (Hl & Hn & Hlag & Hgs & He & _) HG. unfold thread_ok, counter_ok. cbn [counter guards refs pc local_epoch pin_count].
  rewrite len_app, len_cons, len_nil. split_and!; try done; try lia.
  - rewrite Forall_app, Forall_singleton. split; [done|lia].
  - by destruct (guards t).
Qed.

Lemma pin_end_fine s γ r t : inv s γ → threads s !! r = Some t → fine (pin_end s r t).
Proof.
  intros HI Et. unfold pin_end, get_counter. destruct (pc t) as [|g| | |] eqn:Epc; try done.
  destruct (counter t) as [c|] eqn:Ec; [|done]. pose proof (inv_epoch s γ HI) as HG.
  pose proof (inv_thread s γ HI r t Et) as Ht. unfold thread_ok in Ht. rewrite Ec in Ht.
  pose proof Ht as (Hl & Hn & Hlag & Hgs & He & Hpc). rewrite Epc in Hpc. cbn [ok_or mbind result_bind].
  unfold pin. destruct (Z.eqb_spec (pin_count c) 0) as [H0|H0], (Z.eqb_spec g (local_epoch c)) as [Hgl|Hgl]; cbn [andb negb].
  2:{ destruct (guards t) as [|? gs] eqn:Eg; [|rewrite len_cons in Hn; pose proof (len_nonneg gs); lia].
      clear Ht. destruct (catch_up s γ r t c (local_epoch c) g HI Et Ec) as (bags' & m' & fr & -> & Hinv); [lia..|].
      rewrite bind_ok, bind_ok. cbn [pin_count local_epoch generations]. rewrite H0. change (add_u32 (E := Fault) 0 1) with (Ok (E := Fault) 1).
      rewrite !bind_ok. cbn [app]. eapply (Hinv _ 1); cbn; [done|by apply He| |done|].
      - unfold thread_ok, counter_ok. cbn. split_and!; try done; try lia. rewrite Forall_singleton; lia.
      - intros Hr c' E. injection E as <-. left. cbn. destruct (Hr c Ec) as [?|[_ Hp]]; [lia|by apply Hp]. }
  all: rewrite bind_ok; unfold add_u32; destruct (_ <=? _); [|done]; rewrite !bind_ok, with_freed_nil by done;
    exists γ; apply (inv_local s γ r t); [done| done|apply nested_pin_ok; [done|]|done|intros Hr c' E; injection E as <-; left; cbn
    |unfold same_counter; cbn; rewrite Ec; split_and!; [done..|by left]|by left].
  all: try (destruct (Hr c Ec) as [?|[Hg0 Hp]]; [done|rewrite Hg0 in Hn; specialize (Hp g Epc); change (len (@nil Z)) with 0 in Hn; lia]).
  all: destruct (guards t) eqn:Eg; [change (len (@nil Z)) with 0 in Hn; lia|apply Hlag; done].
Qed.

Lemma drop_guard_fine s γ r t k : inv s γ → threads s !! r = Some t → fine (drop_guard s r t k).
Proof.
  intros HI Et. unfold drop_guard, get_counter. destruct (pc t) eqn:Epc; try done.
  destruct (guards t !! k) as [e|] eqn:Ek; [|done]. destruct (counter t) as [c|] eqn:Ec; [|done].
  pose proof (inv_thread s γ HI r t Et) as Ht. unfold thread_ok in Ht. rewrite Ec in Ht.
  destruct Ht as (Hl & Hn & Hlag & Hgs & He & _). cbn [ok_or mbind result_bind]. unfold unpin.
  pose proof (lookup_lt_Some _ _ _ Ek) as Hk. destruct (0 <? pin_count c); [|done]. rewrite bind_ok.
  exists γ. apply (inv_local s γ r t); [done..| |done| | |].
  - unfold thread_ok, counter_ok. cbn. split_and!; try done; try lia.
    + unfold len in *. rewrite length_delete by eauto. lia.
    + intros _. apply Hlag. intros E. by rewrite E in Hk; cbn in Hk; lia.
    + by apply Forall_delete.
    + by intros ->.
  - intros Hr c' E. injection E as <-. left. cbn. destruct (Hr c Ec) as [|[E _]]; [done|].
    rewrite E in Hk; cbn in Hk; lia.
  - unfold same_counter. cbn. rewrite Ec. split_and!; [done..|by left].
  - intros p Hp. left. cbn in Hp. by destruct (delete k (guards t)).
Qed.

Lemma repin_load_fine s γ r t k : inv s γ → threads s !! r = Some t → fine (repin_load s r t k).
Proof.
  intros HI Et. unfold repin_load. destruct (pc t) eqn:Epc; try done.
  destruct (guards t !! k) as [e|] eqn:Ek; [|done].
  pose proof (lookup_lt_Some _ _ _ Ek) as Hk.
  pose proof (inv_thread s γ HI r t Et) as Ht. unfold thread_ok in Ht.
  destruct (counter t) as [c|] eqn:Ec; [|by destruct Ht as [E _]; rewrite E in Hk; cbn in Hk; lia].
  destruct Ht as (Hl & Hn & Hlag & Hgs & He & _). pose proof (Forall_lookup_1 _ _ _ _ Hgs Ek) as Hek. cbn in Hek.
  assert (Hsub : match guards t with [_] => ∅ | _ => refs t end ⊆ refs t) by (destruct (guards t) as [|? []]; set_solver).
  exists γ. apply (inv_local s γ r t); [done..| |done| | |].
  - unfold thread_ok, counter_ok. cbn. split_and!; try done; try lia.
    + intros E. rewrite E in Hk. cbn in Hk. lia.
    + destruct (guards t) as [|? [|? gs]]; [done..|]. rewrite !len_cons. pose proof (len_nonneg gs). lia.
    + exists e. split; [done|lia].
  - intros Hr c' E. left. destruct (Hr c' (eq_trans Ec E)) as [|[E' _]]; [done|].
    rewrite E' in Hk; cbn in Hk; lia.
  - unfold same_counter. cbn. rewrite Ec. split_and!; [done..|by left].
  - intros p Hp. left. by apply Hsub.
Qed.

Lemma repin_end_fine s γ r t : inv s γ → threads s !! r = Some t → fine (repin_end s r t).
Proof.
  intros HI Et. unfold repin_end, get_counter. destruct (pc t) as [| |k g| |] eqn:Epc; try done.
  pose proof (inv_thread s γ HI r t Et) as Ht. unfold thread_ok in Ht.
  destruct (counter t) as [c|] eqn:Ec; [|rewrite Epc in Ht; tauto].
  destruct Ht as (Hl & Hn & Hlag & Hgs & He & Hpc). rewrite Epc in Hpc.
  destruct Hpc as (Hg & H1 & e & Ek & Heg). rewrite Ek. cbn [ok_or mbind result_bind].
  pose proof (lookup_lt_Some _ _ _ Ek) as Hk. pose proof (Forall_lookup_1 _ _ _ _ Hgs Ek) as Hek. cbn in Hek.
  assert (Hne : guards t ≠ []) by (intros E; rewrite E in Hk; cbn in Hk; lia).
  assert (Keep : ∀ e', local_epoch c ≤ e' ≤ current_epoch_index s → ∃ γ', inv (with_thread s r
    {| counter := Some c; guards := <[k := e']> (guards t); refs := refs t; pc := Running |}) γ').
  { intros e' He'. assert (<[k := e']> (guards t) ≠ []) by (by destruct (guards t), k).
    exists γ. apply (inv_local s γ r t); [done..| |done| | |by left].
    - unfold thread_ok, counter_ok. cbn. split_and!; try done; try lia; [|by auto|by apply Forall_insert].
      unfold len. by rewrite length_insert.
    - intros Hr c' E. injection E as <-. left. by destruct (Hr c Ec) as [|[? _]].
    - unfold same_counter. cbn. rewrite Ec. split_and!; [done..|by left]. }
  unfold repin. destruct (Z.eqb_spec g e) as [->|Hge].
  { rewrite bind_ok, with_freed_nil by done. by apply Keep. }
  destruct (Z.eqb_spec (pin_count c) 1) as [Hp1|].
  - destruct (catch_up s γ r t c e g HI Et Ec) as (bags' & m' & fr & -> & Hinv); [lia..|]. rewrite !bind_ok.
    eapply (Hinv _ (pin_count c)); cbn; [done|apply H1; lia| |done|].
    + specialize (Hlag Hne). unfold thread_ok, counter_ok. cbn. split_and!; try done; try (intros; lia).
      * unfold len in *. by rewrite length_insert.
      * destruct (guards t) as [|x [|? gs]]; [done| |rewrite !len_cons in Hn; pose proof (len_nonneg gs); lia].
        destruct k; [|cbn in Hk; lia]. apply Forall_singleton. lia.
      * by intros; apply H1; lia.
    + intros Hr c' E. injection E as <-. left. cbn. destruct (Hr c Ec) as [|[? _]]; [lia|done].
  - rewrite bind_ok, with_freed_nil by done. apply Keep. lia.
Qed.

Definition unpinning (p : Pc) : bool := match p with Pinning _ | Repinning _ _ => false | _ => true end.

Lemma inv_pc s γ r t p : inv s γ → threads s !! r = Some t → unpinning (pc t) = true → unpinning p = true →
  scan_ok (with_thread s r (at_pc t p)) (at_pc t p) → inv (with_thread s r (at_pc t p)) γ.
Proof.
  intros HI Et Hu Hp Hs. apply (inv_local s γ r t); [done..| |done| | |by left].
  - pose proof (inv_thread s γ HI r t Et) as Ht. unfold thread_ok, counter_ok in *. cbn.
    destruct (counter t); [|destruct p; try done; tauto]. destruct p; try done; tauto.
  - intros Hr c E. destruct (Hr c E) as [|[Hg _]]; [by left|right]. split; [done|].
    intros g' Eg. cbn in Eg. by subst.
  - unfold same_counter. cbn. destruct (counter t); [|done]. split_and!; [done..|by left].
Qed.

Lemma bump_load_fine s γ r t : inv s γ → threads s !! r = Some t → fine (bump_load s r t).
Proof.
  intros HI Et. unfold bump_load. destruct (pc t) eqn:Epc; try done. exists γ.
  apply inv_pc; [done..|by rewrite Epc|done|]. unfold scan_ok. cbn. split_and!; [lia..|intros; lia].
Qed.

(** Moving the scan past slot [i], which does not hold back the epoch. *)
Lemma pass_slot s r t p g i e e' : threads s !! r = Some t → (i < length (threads s))%nat →
  g ≤ current_epoch_index s ∧ (i ≤ length (threads s))%nat ∧
    (g = current_epoch_index s → g ≤ e → ∀ j u, (j < i)%nat → threads s !! j = Some u → ready g u) →
  (g ≤ e' → g ≤ e ∧ ∀ u, threads s !! i = Some u → ∀ c, counter u = Some c → g ≤ local_epoch c) →
  p = Scanning g (S i) e' → scan_ok (with_thread s r (at_pc t p)) (at_pc t p).
Proof.
  intros Et Hi (Hg & _ & Hp) He ->. unfold scan_ok. cbn. rewrite length_insert. split_and!; [done|lia|].
  intros -> Hle j u Hj Eu. destruct (He Hle) as [He1 He2].
  assert (Hr : ∀ v, threads s !! j = Some v → ready (current_epoch_index s) v).
  { intros v Ev. destruct (decide (j = i)) as [->|].
    - intros c Ec. left. by eapply He2.
    - eapply Hp; [done..| |done]. lia. }
  apply list_lookup_insert_Some in Eu as [(-> & <- & _)|[_ Eu]]; [|by apply Hr].
  intros c Ec. destruct (Hr t Et c Ec) as [|[? _]]; [by left|]. right. split; [done|]. by intros g' [=].
Qed.

Lemma scan_load_fine s γ r t : inv s γ → threads s !! r = Some t → fine (scan_load s r t).
Proof.
  intros HI Et. unfold scan_load. destruct (pc t) as [| | |g i e|] eqn:Epc; try done.
  destruct (threads s !! i) as [u|] eqn:Eu; [|done]. cbn [ok_or mbind result_bind].
  pose proof (inv_scan s γ HI r t Et) as Hs. unfold scan_ok in Hs. rewrite Epc in Hs.
  pose proof (lookup_lt_Some _ _ _ Eu) as Hi. exists γ. destruct (counter u) as [c|] eqn:Ec.
  - apply inv_pc; [done..|by rewrite Epc|done|].
    assert (Ha : scan_ok s (at_pc t (Reading g i e))) by (unfold scan_ok; cbn; eauto 6).
    apply (scan_thread _ _ t); [done..| |].
    + intros Hr c' E'. destruct (Hr c' E') as [|[? _]]; [by left|right]. split; [done|]. by intros ? [=].
    + intros c' E'. left. cbn. congruence.
  - apply inv_pc; [done..|by rewrite Epc|done|]. eapply pass_slot; [done..| |done].
    intros He. split; [done|]. intros u' Eu' c' Ec'. congruence.
Qed.

Lemma scan_read_fine s γ r t : inv s γ → threads s !! r = Some t → fine (scan_read s r t).
Proof.
  intros HI Et. unfold scan_read. destruct (pc t) as [| | | |g i e] eqn:Epc; try done.
  pose proof (inv_scan s γ HI r t Et) as Hs. unfold scan_ok in Hs. rewrite Epc in Hs.
  destruct Hs as [Hs (u & c & Eu & Ec)]. rewrite Eu. cbn [ok_or mbind result_bind]. rewrite Ec.
  cbn [ok_or mbind result_bind]. pose proof (lookup_lt_Some _ _ _ Eu) as Hi. exists γ.
  apply inv_pc; [done..|by rewrite Epc|done|]. eapply pass_slot; [done..| |done].
  intros He. split; [lia|]. intros u' Eu' c' Ec'. assert (c' = c) as -> by congruence. lia.
Qed.

Lemma inv_bump s γ : inv s γ → current_epoch_index s < U32_MAX →
  (∀ r t, threads s !! r = Some t → ready (current_epoch_index s) t) →
  inv (with_epoch s (current_epoch_index s + 1)) γ.
Proof.
  intros HI HU Hready. pose proof (inv_epoch s γ HI). constructor; try apply HI; cbn.
  - lia.
  - intros r t Et. pose proof (inv_thread s γ HI r t Et) as Ht. unfold thread_ok in *.
    destruct (counter t) as [c|] eqn:Ec; [|done]. destruct Ht as (Hl & Hn & Hlag & Hgs & He & Hpc).
    assert (Hr := Hready r t Et c Ec). unfold counter_ok. split_and!; try done; try lia.
    + intros Hg. destruct Hr as [|[? _]]; [lia|done].
    + eapply Forall_impl; [done|]. cbn. lia.
    + destruct (pc t) as [|g|k g| |]; try done.
      * destruct Hr as [|[_ Hp]]; [lia|]. specialize (Hp g eq_refl). lia.
      * destruct Hpc as (? & ? & ?). split_and!; try done; lia.
  - intros r t Et. pose proof (inv_scan s γ HI r t Et) as Hs. unfold scan_ok in *. cbn.
    destruct (pc t); try done; [|split; [|by apply Hs]]; (split_and!; [lia|apply Hs|intros; lia]).
Qed.

Lemma bump_end_fine s γ r t : inv s γ → threads s !! r = Some t → current_epoch_index s < U32_MAX →
  fine (bump_end s r t).
Proof.
  intros HI Et HU. unfold bump_end, guard_enabled. destruct (pc t) as [| | |g i e|] eqn:Epc; try done.
  destruct (Nat.eqb_spec i (length (threads s))) as [->|]; [|done]. cbn [mbind result_bind].
  pose proof (inv_scan s γ HI r t Et) as Hs. unfold scan_ok in Hs. rewrite Epc in Hs. destruct Hs as (Hg & _ & Hp).
  assert (HI' : inv (with_thread s r (at_pc t Running)) γ) by (apply inv_pc; [done..|by rewrite Epc|done|done]).
  destruct (Z.ltb_spec e g); [by exists γ|]. destruct (Z.eqb_spec (current_epoch_index (with_thread s r (at_pc t Running))) g) as [E|]; [|by exists γ].
  cbn in E. subst g. exists γ. pose proof (inv_epoch s γ HI). rewrite as_u32_id by lia.
  change (current_epoch_index s) with (current_epoch_index (with_thread s r (at_pc t Running))).
  apply inv_bump; [done..|]. intros r2 t2 E2.
  assert (Hr : ∀ r3 t3, threads s !! r3 = Some t3 → ready (current_epoch_index s) t3).
  { intros r3 t3 E3. eapply Hp; [done..| |done]. by eapply lookup_lt_Some. }
  apply lookup_thread in E2 as [[-> ->]|[_ E2]]; [|by eapply Hr].
  intros c Ec. destruct (Hr r t Et c Ec) as [|[? _]]; [by left|right]. split; [done|]. by intros ? [=].
Qed.

Lemma unpinned_no_refs s γ r t : inv s γ → threads s !! r = Some t → guards t = [] → refs t = ∅.
Proof.
  intros HI Et Hg. pose proof (inv_thread s γ HI r t Et) as Ht. unfold thread_ok, counter_ok in Ht.
  destruct (counter t); [destruct Ht as (_ & _ & _ & _ & He & _); by apply He|apply Ht].
Qed.

Lemma uninit_fine s γ r t : inv s γ → threads s !! r = Some t → orderly s (r, UninitReactor) →
  fine (uninit_reactor s r t).
Proof.
  intros HI Et Ho. unfold uninit_reactor, get_counter. destruct (pc t) eqn:Epc; try done.
  destruct (guards t) eqn:Eg; [|done]. destruct (counter t) as [c|] eqn:Ec; [|done]. cbn [ok_or mbind result_bind].
  unfold drop_counter. destruct (drain_spec [0; 1; 2]%nat (mem s) (generations c) (γ r) [])
    as (bags' & m' & fr & -> & Hrep & Hfr & Hframe); [by eapply inv_bags|by eapply inv_uniq|by repeat constructor|].
  rewrite !bind_ok. cbn [app]. eexists. eapply (inv_drained s γ r t c _ _ bags'); try done.
  - split; [|intros; by eapply Ho]. intros k x Hx.
    destruct (inv_garbage s γ HI r k x Hx) as (_ & _ & T & _ & _ & <- & _). pose proof (bag_slot_lt T).
    rewrite !elem_of_cons. lia.
  - intros x r2 t2 _ Hne E2. destruct (Ho r2 t2 Hne E2) as [Hg _]. by rewrite (unpinned_no_refs s γ r2 t2).
Qed.

Lemma allocate_fine s γ p : inv s γ → p ∉ allocated s → 0 < p →
  inv (with_objects s ({[p]} ∪ allocated s) ({[p]} ∪ linked s) (unlinked s)) γ.
Proof.
  intros HI Hp H0. assert (Hnew : ∀ q, q ∈ allocated s → q ≠ p) by (by intros q Hq ->).
  constructor; try apply HI; cbn.
  - intros r k x Hx. destruct (inv_garbage s γ HI r k x Hx) as (t & c & T & E2 & Ec & Hk & HT & Hh & Ha & Hl & Hu & Hd).
    exists t, c, T. pose proof (Hnew _ Ha). split_and!; try done; cbn; set_solver.
  - intros r t q Et Hq. destruct (inv_refs s γ HI r t q Et Hq). split; [set_solver|done].
  - intros q [->%elem_of_singleton|Hq]%elem_of_union; [done|]. by apply (inv_positive s γ HI).
  - intros q. destruct (inv_objects s γ HI q) as (Hl & Hu & Hd). rewrite !elem_of_union, !elem_of_singleton.
    destruct (decide (q = p)) as [->|]; tauto.
Qed.

Lemma unlink_fine s γ p : inv s γ → p ∈ linked s →
  inv (with_objects s (allocated s) (linked s ∖ {[p]}) ({[p]} ∪ unlinked s)) γ.
Proof.
  intros HI Hp. constructor; try apply HI; cbn.
  - intros r k x Hx. destruct (inv_garbage s γ HI r k x Hx) as (t & c & T & E2 & Ec & Hk & HT & Hh & Ha & Hl & Hu & Hd).
    exists t, c, T. split_and!; try done; cbn; set_solver.
  - intros q. destruct (inv_objects s γ HI q) as (Hl & Hu & Hd).
    rewrite elem_of_union, elem_of_difference, elem_of_singleton. destruct (decide (q = p)) as [->|]; tauto.
Qed.

Lemma unlinked_not_garbage s γ p r k : inv s γ → p ∈ unlinked s → p ∉ (γ r k).*1.
Proof.
  intros HI Hp (x & -> & Hx)%list_elem_of_fmap.
  by destruct (inv_garbage s γ HI r k x Hx) as (? & ? & ? & _ & _ & _ & _ & _ & _ & _ & ? & _).
Qed.

Section Deferred.
Context s γ r t c p (lay : Layout) (bags' : list B) (m' : M)
  (HI : inv s γ) (Et : threads s !! r = Some t) (Ec : counter t = Some c)
  (Hcur : local_epoch c = current_epoch_index s) (Hp : p ∈ unlinked s).

Let added : nat → list (Z * Layout) :=
  λ k, if decide (k = bag_slot (local_epoch c)) then (p, lay) :: γ r k else γ r k.

Context (Hrep : bags_rep m' bags' added)
  (Hframe : ∀ b2 l2, bag_rep (mem s) b2 l2 → p ∉ l2.*1 → bag_rep m' b2 l2).

Let c' := {| local_epoch := local_epoch c; pin_count := pin_count c; generations := bags' |}.
Let t' := {| counter := Some c'; guards := guards t; refs := refs t; pc := pc t |}.
Let s' := with_freed (with_objects (with_thread s r t') (allocated s) (linked s) (unlinked s ∖ {[p]})) m' [].
Let γ' := retarget γ r added.

Lemma p_not_garbage r2 k : p ∉ (γ r2 k).*1.
Proof. exact (unlinked_not_garbage s γ p r2 k HI Hp). Qed.

Lemma added_elem r2 k x : x ∈ γ' r2 k → x ∈ γ r2 k ∨ (r2 = r ∧ k = bag_slot (local_epoch c) ∧ x = (p, lay)).
Proof.
  unfold γ', added, retarget. case_decide; [|by left]. subst. case_decide; [|by left].
  intros [->|]%elem_of_cons; [by right|by left].
Qed.

Lemma deferred_dealloc : deallocated s' = deallocated s.
Proof. cbn. set_solver. Qed.

Lemma deferred_thread r2 t2 : threads s' !! r2 = Some t2 →
  ∃ t0, threads s !! r2 = Some t0 ∧ refs t0 = refs t2 ∧ guards t0 = guards t2 ∧ pc t0 = pc t2 ∧
    (counter t2 = None → counter t0 = None) ∧
    ∀ c2, counter t2 = Some c2 → ∃ c0, counter t0 = Some c0 ∧ local_epoch c0 = local_epoch c2 ∧ pin_count c0 = pin_count c2.
Proof.
  intros [[-> ->]|[Hne E]]%lookup_thread.
  - exists t. split_and!; try done. intros c2 E. injection E as <-. by exists c.
  - exists t2. split_and!; try done. intros c2 E2. by exists c2.
Qed.

Lemma deferred_garbage r2 k x : x ∈ γ' r2 k → garbage_ok s' r2 k x.
Proof.
  intros Hx. pose proof (inv_thread s γ HI) as Hthr. unfold garbage_ok. rewrite deferred_dealloc.
  destruct (added_elem _ _ _ Hx) as [Hx'|(-> & -> & ->)].
  - destruct (inv_garbage s γ HI r2 k x Hx') as (t2 & c2 & T & E2 & Ec2 & Hk & HT & Hh & Ha & Hl & Hu & Hd).
    assert (Hh' : held_before s' T x.1).
    { intros r3 t3 c3 (t0 & E0 & Hr0 & _ & _ & _ & Hc0)%deferred_thread Ec3 Hx3.
      destruct (Hc0 c3 Ec3) as (c0 & Ec0 & <- & _). rewrite <-Hr0 in Hx3. by eapply Hh. }
    assert (x.1 ∉ unlinked s') by (cbn; set_solver).
    destruct (decide (r2 = r)) as [->|Hne].
    + rewrite Et in E2. injection E2 as <-. rewrite Ec in Ec2. injection Ec2 as <-.
      exists t', c', T. split_and!; try done. by eapply thread_at.
    + exists t2, c2, T. split_and!; try done. by rewrite <-E2; apply thread_elsewhere.
  - destruct (inv_objects s γ HI p) as (Hl & Hu & Hd). destruct (Hu Hp) as [Ha Hnd].
    exists t', c', (local_epoch c). split_and!; try done; [by eapply thread_at| |cbn; tauto|cbn; set_solver].
    intros r3 t3 c3 (t0 & E0 & Hr0 & _ & _ & _ & Hc0)%deferred_thread Ec3 Hx3.
    destruct (Hc0 c3 Ec3) as (c0 & Ec0 & <- & _). specialize (Hthr r3 t0 E0). unfold thread_ok in Hthr.
    rewrite Ec0 in Hthr. destruct Hthr as [? _]. lia.
Qed.

Lemma inv_deferred : inv s' γ'.
Proof.
  constructor; try apply HI; try rewrite deferred_dealloc.
  - intros r2 t2 (t0 & E0 & Hr0 & Hg0 & Hp0 & Hn0 & Hc0)%deferred_thread.
    pose proof (inv_thread s γ HI r2 t0 E0) as Ht. revert Ht. unfold thread_ok, counter_ok. cbn. rewrite Hr0, Hg0, Hp0.
    destruct (counter t2) as [c2|]; [|by rewrite Hn0].
    destruct (Hc0 c2 eq_refl) as (c0 & -> & -> & ->). done.
  - intros r2 t2 E2. assert (scan_ok (with_thread s r t') t2); [|done].
    apply (scan_thread _ _ t); [done| | |by left].
    + apply deferred_thread in E2 as (t0 & E0 & _ & _ & Hp0 & _). pose proof (inv_scan s γ HI r2 t0 E0) as Hs.
      unfold scan_ok in *. by rewrite <-Hp0.
    + intros Hr c2 E. injection E as <-. apply (Hr c Ec).
  - intros r2 t2 c2 [[-> ->]|[Hne E]]%lookup_thread Ec2.
    + injection Ec2 as <-. unfold γ'. by rewrite retarget_self.
    + unfold γ'. rewrite retarget_ne by done. destruct (inv_bags s γ HI r2 t2 c2 E Ec2) as [Hl Hb].
      split; [done|]. intros k b Eb. apply Hframe; [by apply Hb|apply p_not_garbage].
  - exact deferred_garbage.
  - intros r2. unfold γ', retarget. case_decide; [|apply HI]. subst. destruct (inv_uniq s γ HI r) as [Hn Hu].
    unfold added. split.
    + intros k. case_decide; [cbn; constructor; [apply p_not_garbage|]|]; apply Hn.
    + intros k k' q. repeat case_decide; cbn; rewrite ?elem_of_cons; subst; try done; [| |apply Hu].
      * intros [->|] Hq; [by apply p_not_garbage in Hq|by eapply Hu].
      * intros Hq [->|]; [by apply p_not_garbage in Hq|by eapply Hu].
  - apply retarget_owner; [apply HI|]. intros k q (x & -> & Hx)%list_elem_of_fmap. unfold added in Hx.
    case_decide; [apply elem_of_cons in Hx as [->|Hx]|]; [by right; apply p_not_garbage|left; exists k..];
      by apply list_elem_of_fmap_2.
  - intros r2 t2 q (t0 & E0 & Hr0 & _)%deferred_thread Hq. rewrite <-Hr0 in Hq. rewrite ?deferred_dealloc. by eapply (inv_refs s γ HI r2 t0).
  - intros q. rewrite ?deferred_dealloc. destruct (inv_objects s γ HI q) as (Hl & Hu & Hd). cbn. rewrite elem_of_difference. tauto.
Qed.
End Deferred.

Lemma client_fine s γ r t l : inv s γ → threads s !! r = Some t → orderly s (r, l) → fine (client_step s r t l).
Proof.
  intros HI Et Ho. unfold client_step, guard_enabled, get_counter. destruct (pc t) eqn:Epc; try done.
  destruct l as [| | | | | | | | | | |p|p|p|p lay]; try done; case_bool_decide as Hd; try done; rewrite bind_ok; cbn [fine].
  - exists γ. destruct Hd. by apply allocate_fine.
  - exists γ. apply (inv_local s γ r t); [done..| |done| | |].
    + pose proof (inv_thread s γ HI r t Et) as Ht. unfold thread_ok, counter_ok in *. cbn. rewrite Epc in Ht.
      destruct (counter t); [|destruct Ht as [E _]; by destruct Hd]. destruct Hd as [Hg _]. naive_solver.
    + intros Hr c E. destruct (Hr c E) as [|[E' _]]; [by left|]. by destruct Hd.
    + unfold same_counter. cbn. destruct (counter t); [|done]. split_and!; [done..|by left].
    + cbn. set_solver.
  - exists γ. apply unlink_fine; [done|apply Hd].
  - destruct (counter t) as [c|] eqn:Ec; [|done]. cbn [ok_or mbind result_bind]. unfold deferred_delete.
    destruct (Z.ltb_spec 0 (layout_size lay)); [|done]. cbn [negb].
    destruct (Z.leb_spec (layout_size lay) U32_MAX), (Z.leb_spec (layout_align lay) U32_MAX); try done.
    cbn [andb negb]. destruct (0 <? pin_count c); [|done]. cbn [negb]. destruct Ho as [Ha Ho]. destruct Hd as [_ Hd].
    destruct (inv_objects s γ HI p) as (_ & Hu & _). destruct (Hu Hd) as [Hal _].
    destruct (defer_spec (generations c) (mem s) (γ r) (local_epoch c) p lay) as (bags' & m' & -> & Hrep & Hfr).
    + by eapply inv_bags.
    + split_and!; cbn; [by eapply inv_positive|lia..].
    + intros k. by apply (unlinked_not_garbage s).
    + rewrite !bind_ok, <-Epc. eexists. eapply inv_deferred; eauto.
Qed.

Lemma step_fine s γ x : inv s γ → orderly s x → fine (step s x).
Proof.
  destruct x as [r l]. intros HI Ho. unfold step. destruct (threads s !! r) as [t|] eqn:Et; [|done].
  cbn [ok_or mbind result_bind].
  destruct l; try (by eapply client_fine);
    eauto using init_fine, uninit_fine, pin_load_fine, pin_end_fine, drop_guard_fine, repin_load_fine,
      repin_end_fine, bump_load_fine, scan_load_fine, scan_read_fine, bump_end_fine.
Qed.
End Safety.

(** ** Safety, and where it ends *)

(** [orderly] as a function. *)
Definition orderlyb (s : System (M := DeferredList.memory) (B := Z)) '((r, l) : nat * Label) : bool :=
  match l with
  | DeferredDelete _ layout => (0 <=? layout_align layout) &&
      match threads s !! r ≫= counter with Some c => local_epoch c =? current_epoch_index s | None => true end
  | UninitReactor =>
      forallb (λ t, match guards t, pc t with [], Running => true | _, _ => false end) (delete r (threads s))
  | BumpEnd => current_epoch_index s <? U32_MAX
  | _ => true
  end.

Lemma orderlyb_spec s x : orderlyb s x = true → orderly s x.
Proof.
  destruct x as [r l]. destruct l; try done; cbn.
  - intros H r' t' Hne Et. rewrite forallb_forall in H. specialize (H t').
    assert (t' ∈ delete r (threads s)) as Hin.
    { apply list_elem_of_lookup. destruct (decide (r' < r)%nat).
      - exists r'. by rewrite list_lookup_delete_lt.
      - exists (r' - 1)%nat. rewrite list_lookup_delete_ge by lia. by replace (S (r' - 1)) with r' by lia. }
    specialize (H (proj1 (list_elem_of_In _ _) Hin)). by destruct (guards t'), (pc t').
  - lia.
  - intros [H1 H2]%andb_prop. split; [lia|]. intros t c Et Ec. rewrite Et in H2. cbn in H2. rewrite Ec in H2. lia.
Qed.

(** A run in which every step is orderly. *)
Fixpoint run (s : System (M := DeferredList.memory) (B := Z)) (ls : list (nat * Label)) : result Fault System :=
  match ls with
  | [] => Ok s
  | x :: ls => if orderlyb s x then s' ← step s x; run s' ls else Err NotEnabled
  end.

Lemma initial_inv n : inv (M := DeferredList.memory) (B := Z) (initial n ∅) (λ _ _, []).
Proof.
  constructor.
  - cbn. unfold U32_MAX. lia.
  - by intros r t [-> _]%lookup_replicate.
  - by intros r t [-> _]%lookup_replicate.
  - by intros r t c [-> _]%lookup_replicate.
  - by intros r k x ?%not_elem_of_nil.
  - split; cbn; [intros; constructor|by intros k k' p ?%not_elem_of_nil].
  - by intros r r' k k' p ?%not_elem_of_nil.
  - intros r t p [-> _]%lookup_replicate. cbn. set_solver.
  - cbn. set_solver.
  - cbn. set_solver.
Qed.

Lemma run_inv ls : ∀ s s' γ, inv s γ → run s ls = Ok s' → ∃ γ', inv s' γ'.
Proof.
  induction ls as [|x ls IH]; intros s s' γ HI; cbn; [intros [= <-]; by exists γ|].
  destruct (orderlyb s x) eqn:Ho; [|done]. pose proof (step_fine s γ x HI (orderlyb_spec _ _ Ho)) as Hf.
  destruct (step s x) as [s1| | |]; try done. destruct Hf as [γ1 H1]. by apply (IH s1 s' γ1).
Qed.

(** C8: when [deferred_delete] is only called by reactors that have observed the
    current epoch, reactors are shut down after the others left their event
    loops, and the epoch does not reach [u32::MAX], then in every interleaving
    of any number of reactors that pin, repin, drop guards, advance the epoch
    and read, unlink and retire objects, no reactor ever holds a reference to
    deallocated memory; and the next step reads no dangling pointer (a node of
    an intrusive list or another reactor's counter), and its loops end. *)
Theorem epoch_reclamation_safe n ls s x :
  run (initial n ∅) ls = Ok s → orderlyb s x = true →
  ¬ use_after_free s ∧ step s x ≠ Err DanglingRead ∧ step s x ≠ Diverge.
Proof.
  intros Hrun Ho. destruct (run_inv ls _ _ _ (initial_inv n) Hrun) as [γ HI].
  pose proof (step_fine s γ x HI (orderlyb_spec _ _ Ho)) as Hf. split.
  - intros (r & t & p & Et & Hp & Hd). by apply (inv_refs s γ HI r t p Et Hp).
  - split; intros E; by rewrite E in Hf.
Qed.

Definition bump (r n : nat) : list (nat * Label) :=
  (r, BumpLoad) :: concat (replicate n [(r, ScanLoad); (r, ScanRead)]) ++ [(r, BumpEnd)].
Definition pinned (r : nat) : list (nat * Label) := [(r, PinLoad); (r, PinEnd)].
Definition sixteen : Layout := {| layout_size := 16; layout_align := 8 |}.

(** Both reactors are at epoch 2 when reactor 0 retires the object that reactor 1
    holds; two advances later it is deallocated. *)
Definition safe_trace : list (nat * Label) :=
  [(0, InitReactor); (1, InitReactor); (0, Allocate 4096)]%nat ++ bump 1 2 ++ pinned 0 ++ pinned 1 ++
  [(1, Acquire 4096); (0, Unlink 4096); (0, DeferredDelete 4096 sixteen); (1, Unpin 0)]%nat ++
  bump 0 2 ++ [(0, Unpin 0)]%nat ++ pinned 0 ++ pinned 1 ++ bump 0 2 ++ [(0, Unpin 0); (0, PinLoad)]%nat.

Lemma epoch_reclamation_safe_witness :
  ∃ s, run (initial 2 ∅) safe_trace = Ok s ∧ (¬ use_after_free s ∧
    step s (0%nat, PinEnd) ≠ Err DanglingRead ∧ step s (0%nat, PinEnd) ≠ Diverge) ∧
    ∃ s', step s (0%nat, PinEnd) = Ok s' ∧ deallocated s' = {[4096]}.
Proof.
  destruct (run (initial 2 ∅) safe_trace) as [s| | |] eqn:E; [|by vm_compute in E..].
  exists s. split; [done|].
  split; [by apply (epoch_reclamation_safe 2 safe_trace s (0%nat, PinEnd)); [|]|].
  vm_compute in E. injection E as <-. eexists. split; [by vm_compute|]. by vm_compute.
Defined.

(** C33: the documented guarantee, that garbage tagged at epoch [E] can be freed
    once the global epoch is [E + 2], does not hold: [deferred_delete] tags with
    the epoch its reactor observed last, which can be one behind the epoch in
    which another reactor obtained its reference.  There is a run of two
    reactors, in which every call is made under a guard and no reactor is shut
    down, after which reactor 1 holds, under its guard, a reference to memory
    that reactor 0 deallocated. *)
Theorem epoch_use_after_free :
  ∃ ls s, foldM step (initial (M := DeferredList.memory) (B := Z) 2 ∅) ls = Ok s ∧
    (∀ r, (r, UninitReactor) ∉ ls) ∧ use_after_free s ∧
    ∃ t, threads s !! 1%nat = Some t ∧ guards t = [2] ∧ 4096 ∈ refs t ∧ 4096 ∈ deallocated s.
Proof.
  exists ([(0, InitReactor); (1, InitReactor); (0, Allocate 4096)]%nat ++ pinned 0 ++ bump 1 2 ++
    pinned 1 ++ [(1, Acquire 4096); (0, Unlink 4096); (0, DeferredDelete 4096 sixteen); (0, Unpin 0)]%nat ++
    pinned 0 ++ bump 0 2 ++ [(0, Unpin 0)]%nat ++ pinned 0).
  eexists. split; [vm_compute; reflexivity|]. split; [|split].
  - intros r H. repeat (apply elem_of_cons in H as [[=]|H]). by apply not_elem_of_nil in H.
  - exists 1%nat. eexists _, 4096. split; [reflexivity|]. split; vm_compute; reflexivity.
  - eexists. split; [reflexivity|]. split_and!; vm_compute; reflexivity.
Qed.
