(* ===== verification/Ordering.v ===== *)
(** * Ordered types

    The trait [Ord] of the standard library as a class of its comparison, its
    documented laws as a class over it, and the instance of the integers. *)

From S2P Require Import Prelude.

Class Ord (A : Type) := cmp : A → A → comparison.

(** [Ord] is a total order that agrees with [Eq]. *)
Class OrdLaws (A : Type) {O : Ord A} := {
  cmp_eq a b : cmp a b = Eq ↔ a = b;
  cmp_flip a b : cmp b a = CompOpp (cmp a b);
  cmp_trans a b c : cmp a b = Lt → cmp b c = Lt → cmp a c = Lt }.

#[export] Instance Z_ord : Ord Z := Z.compare.
#[export] Instance Z_ord_laws : OrdLaws Z.
Proof.
  split; unfold cmp, Z_ord.
  - apply Z.compare_eq_iff.
  - apply Z.compare_antisym.
  - intros a b c. rewrite !Z.compare_lt_iff. lia.
Qed.

(** The operators of [PartialOrd]. *)
Definition ltb {A} `{Ord A} (a b : A) : bool :=
  match cmp a b with Lt => true | _ => false end.
Definition lt {A} `{Ord A} (a b : A) : Prop := cmp a b = Lt.
Definition le {A} `{Ord A} (a b : A) : Prop := cmp b a ≠ Lt.

Section laws.
Context {A : Type} `{OrdLaws A}.
Implicit Types a b c : A.

Lemma ltb_spec a b : ltb a b = true ↔ lt a b.
Proof. unfold ltb, lt. by destruct (cmp a b). Qed.
Lemma ltb_ge a b : ltb a b = false ↔ le b a.
Proof. unfold ltb, le. by destruct (cmp a b). Qed.
Lemma cmp_refl a : cmp a a = Eq.
Proof. by apply cmp_eq. Qed.
Lemma cmp_gt a b : cmp a b = Gt ↔ lt b a.
Proof. unfold lt. rewrite (cmp_flip a b). by destruct (cmp a b). Qed.
Lemma lt_irrefl a : ¬ lt a a.
Proof. unfold lt. by rewrite cmp_refl. Qed.
Lemma lt_trans a b c : lt a b → lt b c → lt a c.
Proof. apply cmp_trans. Qed.
Lemma lt_ne a b : lt a b → a ≠ b.
Proof. intros Hl ->. by apply lt_irrefl in Hl. Qed.
Lemma lt_le a b : lt a b → le a b.
Proof. unfold lt, le. rewrite (cmp_flip a b). by intros ->. Qed.
Lemma le_refl a : le a a.
Proof. apply lt_irrefl. Qed.
Lemma lt_or_le a b : lt a b ∨ le b a.
Proof. unfold lt, le. destruct (cmp a b); auto. Qed.
Lemma le_lt_eq a b : le a b ↔ lt a b ∨ a = b.
Proof.
  unfold le, lt. rewrite <-cmp_eq, (cmp_flip a b).
  destruct (cmp a b); naive_solver.
Qed.
Lemma le_trans a b c : le a b → le b c → le a c.
Proof.
  rewrite !le_lt_eq. intros [H1| ->] [H2| ->]; eauto using lt_trans.
Qed.
Lemma le_lt_trans a b c : le a b → lt b c → lt a c.
Proof. rewrite le_lt_eq. intros [H1| ->]; eauto using lt_trans. Qed.
Lemma lt_le_trans a b c : lt a b → le b c → lt a c.
Proof. rewrite le_lt_eq. intros H1 [H2| ->]; eauto using lt_trans. Qed.

#[export] Instance lt_transitive : Transitive (lt (A := A)).
Proof. intros ???. apply lt_trans. Qed.

(** Sorted lists without repetition. *)
Lemma sorted_app (l k : list A) :
  StronglySorted lt (l ++ k) ↔
  StronglySorted lt l ∧ StronglySorted lt k ∧ ∀ a b, a ∈ l → b ∈ k → lt a b.
Proof. rewrite StronglySorted_app. naive_solver. Qed.
Lemma sorted_NoDup (l : list A) : StronglySorted lt l → NoDup l.
Proof.
  induction 1 as [|a l Hl IH Ha]; constructor; [|done].
  intros Hin. rewrite Forall_forall in Ha. by apply (lt_irrefl a), Ha.
Qed.
End laws.
