(* ===== verification/MarkedPtr.v ===== *)
(** * Tagged pointers (starfish-core/src/data_structures/internal/marked_ptr.rs, marked_ptr_3bit.rs)

    Pointers are addresses, and the marks are their lowest bits.  The
    complement of the source is taken in 64 bits, here in all of [Z]: the two
    agree on addresses ([unmask_usize]). *)

From S2P Require Import Prelude.

Definition DELETE_MARK : Z := 1.
Definition UPDATE_MARK : Z := 2.
Definition ALL_MARKS : Z := 3.

Definition unmask (ptr : Z) : Z := Z.land ptr (Z.lnot ALL_MARKS).
Definition as_ptr (ptr : Z) : Z := Z.land ptr (Z.lnot ALL_MARKS).
Definition is_delete_marked (ptr : Z) : bool := negb (Z.land ptr DELETE_MARK =? 0).
Definition is_update_marked (ptr : Z) : bool := negb (Z.land ptr UPDATE_MARK =? 0).
Definition is_any_marked (ptr : Z) : bool := negb (Z.land ptr ALL_MARKS =? 0).

Definition with_mark (ptr : Z) (mark : bool) : Z :=
  let ptr_bits := as_ptr ptr in
  let current_update := Z.land ptr UPDATE_MARK in
  if mark then Z.lor (Z.lor ptr_bits DELETE_MARK) current_update
  else Z.lor ptr_bits current_update.

Definition with_update_mark (ptr : Z) (mark : bool) : Z :=
  let ptr_bits := as_ptr ptr in
  let current_delete := Z.land ptr DELETE_MARK in
  if mark then Z.lor (Z.lor ptr_bits UPDATE_MARK) current_delete
  else Z.lor ptr_bits current_delete.

(** The pointers with a third mark, which nothing uses yet. *)
Module Bits3.
Definition DEL_NEXT_MARK : Z := 4.
Definition ALL_MARKS : Z := 7.
Definition unmask (ptr : Z) : Z := Z.land ptr (Z.lnot ALL_MARKS).
Definition marks (ptr : Z) : Z := Z.land ptr ALL_MARKS.
Definition is_deleted (ptr : Z) : bool := negb (Z.land ptr DELETE_MARK =? 0).
Definition is_update_marked (ptr : Z) : bool := negb (Z.land ptr UPDATE_MARK =? 0).
Definition is_del_next (ptr : Z) : bool := negb (Z.land ptr DEL_NEXT_MARK =? 0).
Definition is_any_marked (ptr : Z) : bool := negb (Z.land ptr ALL_MARKS =? 0).
Definition should_skip (ptr : Z) : bool :=
  negb (Z.land ptr (Z.lor DELETE_MARK UPDATE_MARK) =? 0).
Definition with_delete (ptr : Z) : Z := Z.lor ptr DELETE_MARK.
Definition with_update (ptr : Z) : Z := Z.lor ptr UPDATE_MARK.
Definition with_del_next (ptr : Z) : Z := Z.lor ptr DEL_NEXT_MARK.
Definition without_del_next (ptr : Z) : Z := Z.land ptr (Z.lnot DEL_NEXT_MARK).
Definition unmarked (ptr : Z) : Z := unmask ptr.
Definition with_marks (ptr m : Z) : Z := Z.lor (unmask ptr) (Z.land m ALL_MARKS).
End Bits3.

(** ** Bits *)

Lemma small_bits m k : 0 ≤ m < 2 ^ k → ∀ i, k ≤ i → Z.testbit m i = false.
Proof.
  intros Hm i Hi. destruct (decide (m = 0)) as [->|]; [by rewrite Z.testbit_0_l|].
  apply Z.bits_above_log2; [lia|]. apply Z.log2_lt_pow2; [lia|].
  pose proof (Z.pow_le_mono_r 2 k i). lia.
Qed.

(** The complement in 64 bits and the one in [Z] mask an address alike. *)
Lemma unmask_usize p : 0 ≤ p < 2 ^ 64 → Z.land p (2 ^ 64 - 1 - ALL_MARKS) = unmask p.
Proof.
  intros Hp. unfold unmask. apply Z.bits_inj'. intros i Hi. rewrite !Z.land_spec.
  destruct (decide (64 ≤ i)) as [Hl|Hl].
  { by rewrite (small_bits p 64 Hp i Hl). }
  f_equal. replace (2 ^ 64 - 1 - ALL_MARKS) with (Z.ldiff (Z.ones 64) ALL_MARKS) by done.
  rewrite Z.ldiff_spec, Z.ones_spec_low, Z.lnot_spec by lia. done.
Qed.

(** An address without marks. *)
Definition clean (p : Z) : Prop := Z.land p ALL_MARKS = 0.
#[export] Instance clean_dec p : Decision (clean p) := decide (_ = _).

Lemma clean_mod p : clean p ↔ p mod 4 = 0.
Proof. unfold clean, ALL_MARKS. change 3 with (Z.ones 2). by rewrite Z.land_ones. Qed.
Lemma unmask_mod p : unmask p = p - p mod 4.
Proof.
  unfold unmask. rewrite <-Z.ldiff_land. change ALL_MARKS with (Z.ones 2).
  rewrite Z.ldiff_ones_r, Z.shiftl_mul_pow2, Z.shiftr_div_pow2 by lia.
  change (2 ^ 2) with 4. pose proof (Z.div_mod p 4). lia.
Qed.

(** Adding marks below an unmarked address is a sum. *)
Lemma lor_clean p m : clean p → 0 ≤ m < 4 → Z.lor p m = p + m.
Proof.
  intros Hp Hm. symmetry. apply Z.add_nocarry_lor.
  apply Z.bits_inj'. intros i Hi.
  rewrite Z.land_spec, Z.bits_0. destruct (decide (i < 2)) as [Hl|Hl].
  - assert (Z.testbit (Z.land p (Z.ones 2)) i = false) as E.
    { change (Z.ones 2) with ALL_MARKS. by rewrite Hp, Z.testbit_0_l. }
    rewrite Z.land_spec, Z.ones_spec_low in E by lia. by destruct (Z.testbit p i).
  - rewrite (small_bits m 2 Hm i) by lia. apply andb_false_r.
Qed.

Lemma unmask_clean_add p m : clean p → 0 ≤ m < 4 → unmask (p + m) = p.
Proof. rewrite clean_mod, unmask_mod. intros. Z.div_mod_to_equations. lia. Qed.
Lemma unmask_clean p : clean p → unmask p = p.
Proof. intros. rewrite <-(Z.add_0_r p) at 1. by apply unmask_clean_add. Qed.
Lemma clean_unmask p : clean (unmask p).
Proof. rewrite clean_mod, unmask_mod. Z.div_mod_to_equations. lia. Qed.
Lemma unmask_idemp p : unmask (unmask p) = unmask p.
Proof. apply unmask_clean, clean_unmask. Qed.
Lemma clean_0 : clean 0.
Proof. done. Qed.

Lemma any_marked_clean p : is_any_marked p = false ↔ clean p.
Proof. unfold is_any_marked, clean. destruct (Z.eqb_spec (Z.land p ALL_MARKS) 0); naive_solver. Qed.
Lemma any_marked_false p : is_any_marked p = false → unmask p = p.
Proof. intros. by apply unmask_clean, any_marked_clean. Qed.

(** A mark is a bit below the address. *)
Lemma land_add_low p m b : clean p → 0 ≤ m < 4 → 0 ≤ b < 4 → Z.land (p + m) b = Z.land m b.
Proof.
  intros Hp Hm Hb. rewrite <-lor_clean, Z.land_lor_distr_l by done.
  assert (Z.land p b = 0) as ->; [|done]. apply Z.bits_inj'. intros i Hi.
  rewrite Z.land_spec, Z.bits_0. destruct (decide (i < 2)) as [Hl|Hl].
  - assert (Z.testbit (Z.land p (Z.ones 2)) i = false) as E.
    { change (Z.ones 2) with ALL_MARKS. by rewrite Hp, Z.testbit_0_l. }
    rewrite Z.land_spec, Z.ones_spec_low in E by lia. by destruct (Z.testbit p i).
  - rewrite (small_bits b 2 Hb i) by lia. apply andb_false_r.
Qed.

(** Every raw pointer is an address and two marks, and the operations read and
    write these independently. *)
Definition tagged (p : Z) (d u : bool) : Z := p + Z.b2z d + 2 * Z.b2z u.

(** A tagged pointer holds an address and two independent marks: stripping
    returns the address, each predicate its mark, and setting or clearing one
    mark keeps the address and the other mark. *)
Theorem marked_ptr_fields p d u mark : clean p →
  unmask (tagged p d u) = p ∧ is_delete_marked (tagged p d u) = d ∧
  is_update_marked (tagged p d u) = u ∧ is_any_marked (tagged p d u) = d || u ∧
  with_mark (tagged p d u) mark = tagged p mark u ∧
  with_update_mark (tagged p d u) mark = tagged p d mark.
Proof.
  intros Hp. unfold tagged.
  set (m := Z.b2z d + 2 * Z.b2z u). replace (p + Z.b2z d + 2 * Z.b2z u) with (p + m) by lia.
  assert (0 ≤ m < 4) by (subst m; destruct d, u; simpl; lia).
  unfold is_delete_marked, is_update_marked, is_any_marked, with_mark, with_update_mark.
  change as_ptr with unmask.
  rewrite !land_add_low, !unmask_clean_add by done.
  repeat split; [subst m; by destruct d, u..| |];
    subst m; destruct d, u, mark; rewrite <-?(Z.lor_assoc p); cbn;
    rewrite ?Z.lor_0_r, ?lor_clean by done; first [lia | by rewrite <-Z.add_assoc].
Qed.

Lemma marked_ptr_fields_witness :
  unmask (tagged 4096 true false) = 4096 ∧ is_delete_marked (tagged 4096 true false) = true ∧
  is_update_marked (tagged 4096 true false) = false ∧
  is_any_marked (tagged 4096 true false) = true || false ∧
  with_mark (tagged 4096 true false) false = tagged 4096 false false ∧
  with_update_mark (tagged 4096 true false) false = tagged 4096 true false.
Proof. apply (marked_ptr_fields 4096 true false false). reflexivity. Defined.

(** The marks a lock-free list sets. *)
Lemma with_mark_clean p : clean p → with_mark p true = p + 1.
Proof.
  intros Hp. unfold with_mark. change as_ptr with unmask. rewrite unmask_clean by done.
  rewrite <-(Z.add_0_r p) at 2. rewrite land_add_low by done. simpl.
  by rewrite Z.lor_0_r, lor_clean.
Qed.
Lemma with_update_mark_clean p : clean p → with_update_mark p true = p + 2.
Proof.
  intros Hp. unfold with_update_mark. change as_ptr with unmask. rewrite unmask_clean by done.
  rewrite <-(Z.add_0_r p) at 2. rewrite land_add_low by done. simpl.
  by rewrite Z.lor_0_r, lor_clean.
Qed.
Lemma marks_add_1 p : clean p →
  unmask (p + 1) = p ∧ is_any_marked (p + 1) = true ∧
  is_delete_marked (p + 1) = true ∧ is_update_marked (p + 1) = false.
Proof.
  intros Hp. unfold is_any_marked, is_delete_marked, is_update_marked.
  by rewrite unmask_clean_add, !land_add_low by done.
Qed.
Lemma marks_add_2 p : clean p →
  unmask (p + 2) = p ∧ is_any_marked (p + 2) = true ∧
  is_delete_marked (p + 2) = false ∧ is_update_marked (p + 2) = true.
Proof.
  intros Hp. unfold is_any_marked, is_delete_marked, is_update_marked.
  by rewrite unmask_clean_add, !land_add_low by done.
Qed.
Lemma marks_clean p : clean p →
  is_any_marked p = false ∧ is_delete_marked p = false ∧ is_update_marked p = false.
Proof.
  intros Hp. unfold is_any_marked, is_delete_marked, is_update_marked.
  rewrite <-(Z.add_0_r p), !land_add_low by done. done.
Qed.
