(* ===== verification/SortedList.v ===== *)
(** * Lock-free sorted list (starfish-core/src/data_structures/sorted/sorted_list.rs)

    The memory of a [SortedList] and the threads that work on it, interleaved
    at their accesses to the [next] pointers.  An element is a [Pair]: an entry
    compared by its key; a set is the case of values that carry nothing.  The
    data of a node is written before the node is published and never again, so
    reading it is not a step.  A thread is pinned while an operation of it
    runs; the guard may free a retired node once every thread that was pinned
    when the node was retired has finished. *)

From S2P Require Import Prelude Ordering MarkedPtr.

Section list.
Context {K V : Type} `{Ord K}.

(** ** Data *)

Record node := Node { data : option (K * V); next : Z }.

Definition new_node (entry : K * V) : node := Node (Some entry) 0.
Definition new_sentinel : node := Node None 0.

(** [ListNodePosition]. *)
Record position := Position { pos_pred : Z; pos_node : Z }.

Definition position_node (p : position) : option Z :=
  if pos_node p =? 0 then None else Some (pos_node p).
Definition start_node (p : position) : option Z :=
  if negb (pos_pred p =? 0) then Some (pos_pred p) else position_node p.

(** The operations: [insert_from_internal], [remove] of [SortedCollection] (and
    [delete], which only ignores the entry), [update_internal], and
    [find_from_internal] with, for an exact match, [find_and_apply]. *)
Inductive op : Type :=
  | Insert (entry : K * V) (pos : option position)
  | Remove (k : K) (pos : option position)
  | Update (entry : K * V) (pos : option position)
  | Find (k : K) (is_match : bool) (pos : option position).

Definition op_key (o : op) : K :=
  match o with Insert e _ | Update e _ => e.1 | Remove k _ | Find k _ _ => k end.
Definition op_start (o : op) : option Z :=
  match o with Insert _ p | Remove _ p | Update _ p | Find _ _ p => p ≫= start_node end.

Inductive answer : Type :=
  | Nothing
  | At (p : position)
  | Entry (e : K * V).

(** The parameters of [unlink_marked_node] that stay, and its [start_node]. *)
Record unlinking := Unlinking { marked : Z; replacement : Z; from : option Z }.
Definition from_head (u : unlinking) : unlinking :=
  Unlinking (marked u) (replacement u) None.

(** The next access of a thread to a shared pointer, with its local variables:
    up to [Recheck] in [node_location_from_internal], then in the operation,
    from [Unlink] to [UnlinkStart] in [unlink_marked_node].  [Located] is the
    return of [node_location_from_internal]. *)
Inductive pc : Type :=
  | LoadFirst (pred : Z)
  | LoadNext (pred curr : Z)
  | Snip (pred curr next : Z)
  | Recheck (pred curr : Z)
  | Located (pred curr : Z)
  | Link (pred curr : Z)
  | LoadVictim (pred curr : Z)
  | Mark (pred curr curr_next : Z)
  | Unlink (u : unlinking) (pred : Z)
  | CheckStart (u : unlinking) (s : Z)
  | UnlinkFirst (u : unlinking) (start pred : Z)
  | UnlinkNext (u : unlinking) (start pred curr : Z)
  | UnlinkSnip (u : unlinking) (start pred curr next : Z)
  | UnlinkPred (u : unlinking) (start pred : Z)
  | UnlinkStart (u : unlinking) (start : Z)
  | Retire (pred victim : Z)
  | Done (a : answer).

(** A thread: its operation, the node it allocated for it, and the time of the
    call. *)
Record thread := Thread { top : op; new : Z; born : nat; tpc : pc }.

(** [retired] maps a retired node to the threads that may still use it;
    [clock] counts the steps. *)
Record state := State {
  mem : gmap Z node;
  head : Z;
  threads : gmap nat thread;
  retired : gmap Z (gset nat);
  clock : nat }.

(** [Disabled] is not a fault of the code: the step is not possible. *)
Inductive fault : Type := Dangling | Disabled.
Local Notation res := (result fault).

(** ** Nodes *)

Definition with_mem (s : state) (m : gmap Z node) : state :=
  State m (head s) (threads s) (retired s) (clock s).

Definition get_node (s : state) (p : Z) : res node := ok_or Dangling (mem s !! p).
Definition get_next (s : state) (p : Z) : res Z := n ← get_node s p; Ok (next n).
Definition get_data (s : state) (p : Z) : res (option (K * V)) :=
  n ← get_node s p; Ok (data n).

(** [key] panics on the sentinel. *)
Definition key (s : state) (p : Z) : res K :=
  d ← get_data s p; match d with Some e => Ok e.1 | None => Panic end.

Definition set_next (s : state) (p v : Z) : res state :=
  n ← get_node s p; Ok (with_mem s (<[p := Node (data n) v]> (mem s))).

(** Compare-and-set: [None] on success, the value found on failure.  The weak
    form may fail for no reason. *)
Definition cas_next (s : state) (p expected v : Z) : res (state * option Z) :=
  n ← get_next s p;
  if n =? expected then s ← set_next s p v; Ok (s, None) else Ok (s, Some n).
Definition cas_next_weak (spurious : bool) (s : state) (p expected v : Z) :
    res (state * option Z) :=
  if spurious then n ← get_next s p; Ok (s, Some n) else cas_next s p expected v.

(** ** Operations *)

Definition same (a b : K) : bool := match cmp a b with Eq => true | _ => false end.

(** Where [node_location_from_internal] starts. *)
Definition start (s : state) (th : thread) : Z :=
  match op_start (top th) with Some h => unmask h | None => head s end.

(** [return None]: an unpublished node is dropped. *)
Definition drop_new (s : state) (th : thread) : res (state * pc) :=
  Ok (with_mem s (delete (new th) (mem s)), Done Nothing).

(** The bodies of the operations after [node_location_from_internal] returned. *)
Definition insert_located (s : state) (th : thread) (e : K * V) (pred curr : Z) :
    res (state * pc) :=
  if curr =? 0 then Ok (s, Link pred curr)
  else k ← key s curr;
       if same k e.1 then drop_new s th else Ok (s, Link pred curr).

Definition remove_located (s : state) (k0 : K) (pred curr : Z) : res (state * pc) :=
  if curr =? 0 then Ok (s, Done Nothing)
  else k ← key s curr;
       Ok (s, if same k k0 then LoadVictim pred curr else Done Nothing).

Definition update_located (s : state) (th : thread) (e : K * V) (pred curr : Z) :
    res (state * pc) :=
  if curr =? 0 then drop_new s th
  else k ← key s curr;
       if same k e.1 then Ok (s, LoadVictim pred curr) else drop_new s th.

Definition find_located (s : state) (k0 : K) (is_match : bool) (pred curr : Z) :
    res (state * pc) :=
  if curr =? 0 then Ok (s, Done Nothing)
  else if is_match then
    k ← key s curr;
    if same k k0 then
      d ← get_data s curr;
      Ok (s, Done (match d with Some e => Entry e | None => Nothing end))
    else Ok (s, Done Nothing)
  else Ok (s, Done (At (Position pred pred))).

Definition located (s : state) (th : thread) (pred curr : Z) : res (state * pc) :=
  if is_any_marked pred then Panic
  else
    match top th with
    | Insert e _ => insert_located s th e pred curr
    | Remove k0 _ => remove_located s k0 pred curr
    | Update e _ => update_located s th e pred curr
    | Find k0 is_match _ => find_located s k0 is_match pred curr
    end.

(** The top of the traversal loop of [node_location_from_internal]. *)
Definition arrive (pred raw : Z) : pc :=
  let curr := unmask raw in
  if curr =? 0 then Located pred curr else LoadNext pred curr.

(** The top of the loop of the operation. *)
Definition retry (s : state) (th : thread) : res (state * pc) :=
  match top th, op_start (top th) with
  | Insert e _, Some hint =>
      d ← get_data s (unmask hint);
      match d with
      | Some (k, _) => if same k e.1 then drop_new s th else Ok (s, LoadFirst (start s th))
      | None => Ok (s, LoadFirst (start s th))
      end
  | _, _ => Ok (s, LoadFirst (start s th))
  end.

(** The top of the traversal loop of [unlink_marked_node]. *)
Definition unlink_arrive (u : unlinking) (start pred raw : Z) : pc :=
  let curr := unmask raw in
  if curr =? 0 then Retire pred (marked u)
  else if curr =? marked u then Unlink u pred
  else UnlinkNext u start pred curr.

(** What a failed compare-and-set of [unlink_marked_node] shows. *)
Definition already_unlinked (s : state) (u : unlinking) (actual : Z) : res bool :=
  if actual =? marked u then Ok false
  else if actual =? 0 then Ok true
  else a ← key s actual; k ← key s (marked u); Ok (ltb k a).

Definition unlink_from (s : state) (u : unlinking) : pc :=
  match from u with
  | Some h =>
      if unmask h =? marked u then UnlinkFirst (from_head u) (head s) (head s)
      else CheckStart u (unmask h)
  | None => UnlinkFirst u (head s) (head s)
  end.

(** An access of [node_location_from_internal] and the code up to the next one. *)
Definition locate_step (s : state) (th : thread) (p : pc) : res (state * pc) :=
  match p with
  | LoadFirst pred => n ← get_next s pred; Ok (s, arrive pred n)
  | LoadNext pred curr =>
      n ← get_next s curr;
      if is_any_marked n then Ok (s, Snip pred curr n)
      else
        d ← get_data s curr;
        match d with
        | Some (k, _) =>
            if ltb k (op_key (top th)) then Ok (s, arrive curr (as_ptr n))
            else Ok (s, Recheck pred curr)
        | None => Ok (s, arrive curr (as_ptr n))
        end
  | Snip pred curr n =>
      '(s, r) ← cas_next s pred curr (as_ptr n);
      Ok (s, match r with
             | None => arrive pred (as_ptr n)
             | Some _ => LoadFirst (start s th)
             end)
  | Recheck pred curr =>
      n ← get_next s curr;
      Ok (s, if is_any_marked n then LoadFirst (start s th) else Located pred curr)
  | _ => Err Disabled
  end.

(** The accesses of the operations themselves. *)
Definition insert_link (s : state) (th : thread) (pred curr : Z) (spurious : bool) :
    res (state * pc) :=
  s ← set_next s (new th) curr;
  '(s, r) ← cas_next_weak spurious s pred curr (new th);
  match r with
  | None => Ok (s, Done (At (Position pred (new th))))
  | Some _ => retry s th
  end.

Definition remove_victim (s : state) (th : thread) (pred curr n : Z) : res (state * pc) :=
  if is_any_marked n then
    if is_delete_marked n then Ok (s, Done Nothing) else retry s th
  else Ok (s, Mark pred curr n).

Definition update_victim (s : state) (th : thread) (pred curr n : Z) : res (state * pc) :=
  if is_delete_marked n then retry s th
  else if is_update_marked n then retry s th
  else Ok (s, Mark pred curr n).

Definition remove_mark (s : state) (th : thread) (pred curr n : Z) (spurious : bool) :
    res (state * pc) :=
  '(s, r) ← cas_next_weak spurious s curr n (with_mark n true);
  match r with
  | None => Ok (s, Unlink (Unlinking curr (as_ptr n) (op_start (top th))) pred)
  | Some _ => retry s th
  end.

Definition update_mark (s : state) (th : thread) (pred curr n : Z) (spurious : bool) :
    res (state * pc) :=
  s ← set_next s (new th) (as_ptr n);
  '(s, r) ← cas_next_weak spurious s curr n (with_update_mark (new th) true);
  match r with
  | None => Ok (s, Unlink (Unlinking curr (new th) (op_start (top th))) pred)
  | Some _ => retry s th
  end.

(** An access of [unlink_marked_node] and the code up to the next one. *)
Definition unlink_step (s : state) (p : pc) : res (state * pc) :=
  match p with
  | Unlink u pred =>
      '(s, r) ← cas_next s pred (marked u) (replacement u);
      match r with
      | None => Ok (s, Retire pred (marked u))
      | Some actual =>
          unlinked ← already_unlinked s u (unmask actual);
          Ok (s, if unlinked : bool then Retire pred (marked u) else unlink_from s u)
      end
  | CheckStart u h =>
      n ← get_next s h;
      Ok (s, if is_any_marked n then UnlinkFirst (from_head u) (head s) (head s)
             else UnlinkFirst u h h)
  | UnlinkFirst u start pred =>
      n ← get_next s pred; Ok (s, unlink_arrive u start pred n)
  | UnlinkNext u start pred curr =>
      n ← get_next s curr;
      if is_any_marked n then Ok (s, UnlinkSnip u start pred curr n)
      else
        c ← key s curr; k ← key s (marked u);
        Ok (s, if ltb k c then Retire pred (marked u) else unlink_arrive u start curr n)
  | UnlinkSnip u start pred curr n =>
      '(s, r) ← cas_next s pred curr (as_ptr n);
      Ok (s, match r with
             | None => UnlinkFirst u start pred
             | Some _ => UnlinkPred u start pred
             end)
  | UnlinkPred u start pred =>
      n ← get_next s pred;
      Ok (s, if is_any_marked n then UnlinkStart u start else UnlinkFirst u start pred)
  | UnlinkStart u start =>
      n ← get_next s start;
      Ok (s, if is_any_marked n then UnlinkFirst (from_head u) (head s) (head s)
             else UnlinkFirst u start start)
  | _ => Err Disabled
  end.

(** The thread's own part of a step. *)
Definition advance (s : state) (th : thread) (spurious : bool) : res (state * pc) :=
  match tpc th with
  | LoadFirst _ | LoadNext _ _ | Snip _ _ _ | Recheck _ _ => locate_step s th (tpc th)
  | Located pred curr => located s th pred curr
  | Link pred curr => insert_link s th pred curr spurious
  | LoadVictim pred curr =>
      n ← get_next s curr;
      match top th with
      | Remove _ _ => remove_victim s th pred curr n
      | _ => update_victim s th pred curr n
      end
  | Mark pred curr n =>
      match top th with
      | Remove _ _ => remove_mark s th pred curr n spurious
      | _ => update_mark s th pred curr n spurious
      end
  | Unlink _ _ | CheckStart _ _ | UnlinkFirst _ _ _ | UnlinkNext _ _ _ _
  | UnlinkSnip _ _ _ _ _ | UnlinkPred _ _ _ | UnlinkStart _ _ => unlink_step s (tpc th)
  | Retire pred victim =>
      match top th with
      | Remove _ _ =>
          d ← get_data s victim;
          Ok (s, Done (match d with Some e => Entry e | None => Nothing end))
      | _ => Ok (s, Done (At (Position pred (new th))))
      end
  | Done _ => Err Disabled
  end.

(** ** Threads *)

Definition running (th : thread) : bool := match tpc th with Done _ => false | _ => true end.
Definition running_threads (s : state) : gset nat :=
  dom (filter (λ x, running x.2 = true) (threads s)).

(** [defer_destroy] by the thread that ends its operation: every other running
    thread may hold a reference. *)
Definition defer_destroy (s : state) (t : nat) (p : pc) : gmap Z (gset nat) :=
  match p with
  | Retire _ victim => <[victim := running_threads s ∖ {[t]}]> (retired s)
  | _ => retired s
  end.

(** The end of an operation unpins its thread. *)
Definition settle (s : state) (t : nat) (th : thread) (p : pc) : state :=
  let r := match p with
           | Done _ => (λ g : gset nat, g ∖ {[t]}) <$> defer_destroy s t (tpc th)
           | _ => retired s
           end in
  State (mem s) (head s) (<[t := Thread (top th) (new th) (born th) p]> (threads s)) r
    (S (clock s)).

Inductive label : Type :=
  | Invoke (t : nat) (o : op) (a : Z)
  | Step (t : nat) (spurious : bool)
  | Free (a : Z).

Definition idle (s : state) (t : nat) : bool :=
  match threads s !! t with Some th => negb (running th) | None => true end.

(** An allocation returns an unused aligned address. *)
Definition allocate (s : state) (a : Z) (e : K * V) : res state :=
  if decide (0 < a ∧ a `mod` 8 = 0 ∧ mem s !! a = None)
  then Ok (with_mem s (<[a := new_node e]> (mem s))) else Err Disabled.

Definition invoke (s : state) (t : nat) (o : op) (a : Z) : res state :=
  if idle s t then
    s ← match o with Insert e _ | Update e _ => allocate s a e | _ => Ok s end;
    let th := Thread o a (clock s) (Done Nothing) in
    '(s, p) ← retry s th;
    Ok (settle s t th p)
  else Err Disabled.

Definition step (s : state) (l : label) : res state :=
  match l with
  | Invoke t o a => invoke s t o a
  | Step t spurious =>
      th ← ok_or Disabled (threads s !! t);
      '(s, p) ← advance s th spurious;
      Ok (settle s t th p)
  | Free a =>
      if decide (retired s !! a = Some ∅)
      then Ok (State (delete a (mem s)) (head s) (threads s) (delete a (retired s)) (S (clock s)))
      else Err Disabled
  end.

(** [SortedList::new], for the address of its sentinel. *)
Definition initial (h : Z) : state := State {[h := new_sentinel]} h ∅ ∅ 0.

Fixpoint run (s : state) (ls : list label) : res state :=
  match ls with
  | [] => Ok s
  | l :: ls => s ← step s l; run s ls
  end.

(** ** The map a list holds *)

(** The nodes from [p] on. *)
Fixpoint walk (fuel : nat) (m : gmap Z node) (p : Z) : list Z :=
  match fuel with
  | O => []
  | S fuel =>
      if p =? 0 then []
      else match m !! p with
           | Some n => p :: walk fuel m (unmask (next n))
           | None => []
           end
  end.
Definition chain (s : state) : list Z := walk (S (size (mem s))) (mem s) (head s).

(** A node is live when its own pointer carries no mark. *)
Definition live (m : gmap Z node) (p : Z) : option (K * V) :=
  n ← m !! p; if is_any_marked (next n) then None else data n.
Definition contents (s : state) : list (K * V) := omap (live (mem s)) (chain s).
End list.

Arguments node : clear implicits.
Arguments op : clear implicits.
Arguments answer : clear implicits.
Arguments pc : clear implicits.
Arguments thread : clear implicits.
Arguments state : clear implicits.
Arguments label : clear implicits.
