(* ===== verification/SortedListMem.v ===== *)
(** * The memory of a lock-free sorted list

    Reachability along the [next] pointers, the shape that the nodes within
    reach have, and how the four kinds of writes change it: linking a private
    node, marking, unlinking a marked node, and writes to nodes out of
    reach. *)

From S2P Require Import Prelude Ordering MarkedPtr SortedList.

Section mem.
Context {K V : Type} `{OrdLaws K}.
Local Notation node := (node K V).
Implicit Types m : gmap Z node.

(** ** Keys

    The sentinel comes before every key. *)

Definition nkey (n : node) : option K := fst <$> data n.
Definition klt (a b : option K) : Prop :=
  match a, b with
  | None, Some _ => True
  | Some a, Some b => lt a b
  | _, _ => False
  end.
Definition kle (a b : option K) : Prop := klt a b ∨ a = b.

Lemma klt_trans a b c : klt a b → klt b c → klt a c.
Proof. destruct a, b, c; simpl; try done. apply lt_trans. Qed.
Lemma klt_irrefl a : ¬ klt a a.
Proof. destruct a; simpl; [apply lt_irrefl|auto]. Qed.
Lemma kle_refl a : kle a a.
Proof. by right. Qed.
Lemma kle_klt_trans a b c : kle a b → klt b c → klt a c.
Proof. intros [?| ->]; eauto using klt_trans. Qed.
Lemma klt_kle_trans a b c : klt a b → kle b c → klt a c.
Proof. intros ? [?| <-]; eauto using klt_trans. Qed.
Lemma kle_trans a b c : kle a b → kle b c → kle a c.
Proof. intros [?| ->] ?; [left; eauto using klt_kle_trans|done]. Qed.
Lemma klt_not_kle a b : klt a b → ¬ kle b a.
Proof. intros Hab Hba. by eapply klt_irrefl, klt_kle_trans. Qed.

(** ** Reachability *)

Definition goes m (p q : Z) : Prop := ∃ n, m !! p = Some n ∧ unmask (next n) = q.
Definition reach m : Z → Z → Prop := rtc (goes m).

Lemma goes_det m p q q' : goes m p q → goes m p q' → q = q'.
Proof. intros (n & E & <-) (n' & E' & <-). congruence. Qed.
Lemma reach_refl m p : reach m p p.
Proof. apply rtc_refl. Qed.
Lemma reach_trans m p q r : reach m p q → reach m q r → reach m p r.
Proof. intros. by etrans. Qed.
Lemma reach_next m p n : m !! p = Some n → reach m p (unmask (next n)).
Proof. intros. apply rtc_once. by exists n. Qed.
Lemma reach_total m a x y : reach m a x → reach m a y → reach m x y ∨ reach m y x.
Proof.
  intros Hx. revert y. induction Hx as [a|a b x Hab Hbx IH]; intros y Hy; [auto|].
  inversion Hy as [|? b' ? Hab' Hy']; subst.
  - right. by eapply rtc_l.
  - rewrite (goes_det m a b b') in * by done. auto.
Qed.
Lemma reach_null m y : m !! 0 = None → reach m 0 y → y = 0.
Proof. intros H0 Hr. inversion Hr as [|? ? ? (n & E & _)]; congruence. Qed.

(** Leaving a node that is not the target. *)
Lemma reach_inv m p y n : reach m p y → p ≠ y → m !! p = Some n → reach m (unmask (next n)) y.
Proof.
  intros Hr Hne E. inversion Hr as [|? q ? (n' & E' & <-)]; by simplify_eq.
Qed.

(** The number of nodes up to the end of the list. *)
Inductive dist m : Z → nat → Prop :=
  | dist_end : dist m 0 0
  | dist_step p q n : goes m p q → dist m q n → dist m p (S n).

Lemma dist_exists m p : reach m p 0 → ∃ n, dist m p n.
Proof.
  intros Hr. remember 0 as z eqn:Ez. induction Hr as [|p q r Hpq Hqr IH]; subst.
  - eexists. constructor.
  - destruct IH as [n Hn]; [done|]. eexists. by econstructor.
Qed.
Lemma dist_det m p n n' : m !! 0 = None → dist m p n → dist m p n' → n = n'.
Proof.
  intros H0 Hn. revert n'. induction Hn as [|p q n Hpq Hqn IH]; intros n' Hn'.
  - inversion Hn' as [|??? (nd & E & _)]; congruence.
  - inversion Hn' as [|? q' ? Hpq']; subst.
    + destruct Hpq as (nd & E & _). congruence.
    + f_equal. apply IH. by rewrite (goes_det m p q q').
Qed.
Lemma dist_reach m p y n : m !! 0 = None → dist m p n → reach m p y →
  ∃ n', dist m y n' ∧ (n' ≤ n)%nat ∧ (p ≠ y → (n' < n)%nat).
Proof.
  intros H0 Hn Hr. revert n Hn. induction Hr as [p|p q y Hpq Hqy IH]; intros n Hn.
  - by exists n.
  - inversion Hn as [|? q' n1 Hpq' Hq']; subst.
    { destruct Hpq as (nd & E & _). congruence. }
    rewrite (goes_det m p q' q) in Hq' by done.
    destruct (IH _ Hq') as (n' & ? & ? & _). exists n'. repeat split; [done|lia..].
Qed.

(** Two nodes of a list with the same distance are the same. *)
Lemma dist_inj m a x y n : m !! 0 = None → reach m a x → reach m a y →
  dist m x n → dist m y n → x = y.
Proof.
  intros H0 Hx Hy Dx Dy. destruct (decide (x = y)) as [|Hne]; [done|].
  destruct (reach_total m a x y Hx Hy) as [Hr|Hr];
    apply (dist_reach m _ _ n) in Hr as (n' & Hn' & _ & Hlt); try done;
    [apply (dist_det m y n n') in Dy|apply (dist_det m x n n') in Dx]; auto; subst;
    exfalso; specialize (Hlt ltac:(congruence)); lia.
Qed.

(** ** The shape of the nodes within reach *)

(** A pointer to [q] with at most one mark; an update mark leads to the
    replacement, every other pointer to a larger key. *)
Definition next_ok m (n : node) : Prop :=
  let q := unmask (next n) in
  (next n = q ∨ next n = q + 1 ∨ next n = q + 2) ∧
  ∀ nq, m !! q = Some nq →
    if is_update_marked (next n) then nkey nq = nkey n else klt (nkey n) (nkey nq).

(** Only the sentinel has no key, and a node without a mark is in the list. *)
Definition node_ok m (h x : Z) (n : node) : Prop :=
  clean x ∧ (data n = None → x = h) ∧ (clean (next n) → reach m h x) ∧ next_ok m n.

Record inv_mem m (h : Z) (R : Z → Prop) : Prop := {
  im_root : R h;
  im_null : m !! 0 = None;
  im_head : ∃ n, m !! h = Some n ∧ data n = None ∧ clean (next n);
  im_end : reach m h 0;
  im_node r x : R r → reach m r x → x ≠ 0 → ∃ n, m !! x = Some n ∧ node_ok m h x n }.

Section inv.
Context (m : gmap Z node) (h : Z) (R : Z → Prop) (I : inv_mem m h R).

Lemma im_clean r x : R r → reach m r x → clean x.
Proof.
  intros Hr Hx. destruct (decide (x = 0)) as [->|Hne]; [done|].
  by destruct (im_node m h R I r x Hr Hx Hne) as (n & _ & Hc & _).
Qed.

Lemma reach_kle r x y nx ny : R r → reach m r x → reach m x y →
  m !! x = Some nx → m !! y = Some ny → kle (nkey nx) (nkey ny).
Proof.
  intros Hr Hx Hxy Ex Ey. revert nx Ex Hx.
  induction Hxy as [x|x q y (n & E & Eq) Hqy IH]; intros nx Ex Hx.
  - simplify_eq. apply kle_refl.
  - assert (n = nx) as -> by congruence. subst q.
    assert (reach m r (unmask (next nx))) as Hq.
    { eapply reach_trans; [done|]. by apply reach_next. }
    destruct (decide (unmask (next nx) = 0)) as [E0|Hne].
    { rewrite E0 in Hqy. apply reach_null in Hqy as ->; [|apply I].
      pose proof (im_null _ _ _ I). congruence. }
    destruct (im_node m h R I r _ Hr Hq Hne) as (nq & Enq & _).
    assert (x ≠ 0) as Hx0 by (intros ->; pose proof (im_null _ _ _ I); congruence).
    destruct (im_node m h R I r x Hr Hx Hx0) as (n & En & _ & _ & _ & _ & Hk).
    assert (n = nx) as -> by congruence. specialize (Hk nq Enq). specialize (IH Ey nq Enq Hq).
    destruct (is_update_marked _); [by rewrite Hk in IH|]. left. by eapply klt_kle_trans.
Qed.

Lemma reach_klt r x y nx ny : R r → reach m r x → reach m x y → x ≠ y →
  m !! x = Some nx → m !! y = Some ny → is_update_marked (next nx) = false →
  klt (nkey nx) (nkey ny).
Proof.
  intros Hr Hx Hxy Hne Ex Ey Hu.
  assert (m !! 0 = None) as H0 by apply I.
  assert (x ≠ 0) as Hx0 by congruence.
  destruct (im_node m h R I r x Hr Hx Hx0) as (n & En & _ & _ & _ & _ & Hk).
  assert (n = nx) as -> by congruence. rewrite Hu in Hk.
  pose proof (reach_inv m x y nx Hxy Hne Ex) as Hq.
  assert (reach m r (unmask (next nx))) as Hrq.
  { eapply reach_trans; [done|]. by apply reach_next. }
  destruct (decide (unmask (next nx) = 0)) as [E0|Hq0].
  { rewrite E0 in Hq. apply reach_null in Hq as ->; [|done]. congruence. }
  destruct (im_node m h R I r _ Hr Hrq Hq0) as (nq & Enq & _).
  specialize (Hk nq Enq). eapply klt_kle_trans; [done|]. by eapply reach_kle.
Qed.

Lemma im_unmarked r x n : R r → reach m r x → m !! x = Some n → clean (next n) → reach m h x.
Proof.
  intros Hr Hx E Hc. assert (x ≠ 0) as Hx0.
  { intros ->. pose proof (im_null _ _ _ I). congruence. }
  destruct (im_node m h R I r x Hr Hx Hx0) as (n' & E' & _ & _ & Hh & _). simplify_eq. auto.
Qed.

(** An unmarked node has the least key of what follows it. *)
Lemma reach_klt_live r x y nx ny : R r → reach m r x → reach m x y → x ≠ y →
  m !! x = Some nx → m !! y = Some ny → clean (next nx) → klt (nkey nx) (nkey ny).
Proof. intros. eapply reach_klt; eauto. by apply marks_clean. Qed.

(** A node before another key in the list comes before every node of that key
    or of a larger one. *)
Lemma reach_before r x y nx ny : R r → reach m r x → reach m r y →
  m !! x = Some nx → m !! y = Some ny → klt (nkey nx) (nkey ny) → reach m x y.
Proof.
  intros Hr Hx Hy Ex Ey Hk. destruct (reach_total m r x y Hx Hy) as [|Hyx]; [done|].
  exfalso. eapply klt_not_kle; [done|]. by eapply (reach_kle r y x).
Qed.
End inv.

(** ** Writes out of reach *)

Lemma reach_agree m m' n a y : (∀ x, x ≠ n → m' !! x = m !! x) → ¬ reach m a n →
  reach m a y ↔ reach m' a y.
Proof.
  intros Hag Hn. split; intros Hr.
  - induction Hr as [|a b y (nd & E & Eb) Hby IH]; [apply reach_refl|].
    assert (a ≠ n) as Hne by (intros ->; apply Hn, reach_refl).
    apply (rtc_l _ _ b); [exists nd; by rewrite Hag|]. apply IH.
    intros Hb. apply Hn. apply (rtc_l _ _ b); [by exists nd|done].
  - induction Hr as [|a b y (nd & E & Eb) Hby IH]; [apply reach_refl|].
    assert (a ≠ n) as Hne by (intros ->; apply Hn, reach_refl).
    rewrite Hag in E by done.
    apply (rtc_l _ _ b); [by exists nd|]. apply IH.
    intros Hb. apply Hn. apply (rtc_l _ _ b); [by exists nd|done].
Qed.

Lemma inv_agree m m' h R n : inv_mem m h R → (∀ x, x ≠ n → m' !! x = m !! x) →
  n ≠ 0 → (∀ r, R r → ¬ reach m r n) → inv_mem m' h R.
Proof.
  intros I Hag H0 Hn. pose proof (im_root _ _ _ I) as Hh.
  assert (∀ r x, R r → reach m r x → x ≠ n) as Hne by (intros r x Hr Hx ->; by eapply Hn).
  assert (∀ r y, R r → reach m r y ↔ reach m' r y) as Hiff by eauto using reach_agree.
  constructor; [done|..].
  - rewrite Hag by done. apply I.
  - destruct (im_head _ _ _ I) as (nh & E & ?). exists nh. rewrite Hag; [done|].
    eapply Hne; [done|apply reach_refl].
  - apply Hiff; [done|]. apply I.
  - intros r x Hr Hx Hx0. rewrite <-Hiff in Hx by done.
    destruct (im_node _ _ _ I r x Hr Hx Hx0) as (nx & E & Hc & Hd & Hl & Hm & Hk).
    exists nx. rewrite Hag by eauto. split; [done|]. split; [done|]. split; [done|].
    split; [intros; by rewrite <-Hiff by done; auto|]. split; [done|].
    intros nq. rewrite Hag; [apply Hk|]. eapply Hne; [done|].
    eapply reach_trans; [done|]. by apply reach_next.
Qed.

(** ** Writes to a node of the list *)

Section write.
Context (m : gmap Z node) (h : Z) (R : Z → Prop) (I : inv_mem m h R).
Context (p : Z) (np : node) (Ep : m !! p = Some np) (Hp : reach m h p) (Hc : clean (next np)).

Lemma write_data x nx v : m !! x = Some nx →
  ∃ nx', <[p := Node (data np) v]> m !! x = Some nx' ∧ data nx' = data nx.
Proof.
  intros E. destruct (decide (x = p)) as [->|Hne].
  - rewrite lookup_insert_eq. eexists. split; [done|]. simpl. congruence.
  - rewrite lookup_insert_ne by done. eauto.
Qed.

Lemma next_ok_data m' n : next_ok m n →
  (∀ nq', m' !! unmask (next n) = Some nq' →
    ∃ nq, m !! unmask (next n) = Some nq ∧ data nq = data nq') → next_ok m' n.
Proof.
  intros [Hm Hk] Hd. split; [done|]. intros nq' E.
  destruct (Hd nq' E) as (nq & Eq & Ed). specialize (Hk nq Eq).
  unfold nkey in *. by rewrite <-Ed.
Qed.

(** *** Marking *)

Definition marked_mem : gmap Z node := <[p := Node (data np) (next np + 1)]> m.

Lemma reach_mark a y : reach marked_mem a y ↔ reach m a y.
Proof.
  assert (∀ x q, goes marked_mem x q ↔ goes m x q) as Hg.
  { intros x q. unfold goes, marked_mem. destruct (decide (x = p)) as [->|Hne].
    - rewrite lookup_insert_eq, Ep. split; intros (n & [= <-] & <-); eexists; split; try done; simpl;
        destruct (marks_add_1 (next np) Hc) as [-> _]; by rewrite (unmask_clean (next np)).
    - by rewrite lookup_insert_ne. }
  split; induction 1 as [|x q z Hxq Hqz IH]; try apply reach_refl;
    apply Hg in Hxq; by eapply rtc_l.
Qed.

Lemma inv_mark : data np ≠ None → inv_mem marked_mem h R.
Proof.
  intros Hd. constructor; [apply I|..].
  - unfold marked_mem. rewrite lookup_insert_ne; [apply I|].
    intros ->. pose proof (im_null _ _ _ I). congruence.
  - destruct (im_head _ _ _ I) as (nh & E & Edh & Hch). exists nh. unfold marked_mem.
    rewrite lookup_insert_ne; [done|]. intros ->. congruence.
  - apply reach_mark, I.
  - intros r x Hr Hx%reach_mark Hx0.
    destruct (im_node _ _ _ I r x Hr Hx Hx0) as (nx & E & Hcx & Hdx & Hl & Hn).
    assert (∀ n, next_ok m n → next_ok marked_mem n) as Hok.
    { intros n Hok. apply next_ok_data; [done|]. intros nq'. unfold marked_mem.
      destruct (decide (unmask (next n) = p)) as [->|Hne].
      - rewrite lookup_insert_eq. intros [= <-]. by exists np.
      - rewrite lookup_insert_ne by done. eauto. }
    unfold marked_mem at 1. destruct (decide (x = p)) as [->|Hne].
    + rewrite lookup_insert_eq. eexists. split; [done|]. simplify_eq.
      split; [done|]. split; [done|]. simpl. destruct (marks_add_1 (next np) Hc) as (Hu & Ha & _ & Hup).
      split; [rewrite <-any_marked_clean, Ha; done|].
      destruct (Hok _ Hn) as [_ Hk]. split; simpl; rewrite Hu.
      * auto.
      * rewrite Hup. destruct (marks_clean (next np) Hc) as (_ & _ & Hup').
        rewrite unmask_clean, Hup' in Hk by done. exact Hk.
    + rewrite lookup_insert_ne by done. exists nx. split; [done|].
      split; [done|]. split; [done|]. split; [by rewrite reach_mark|auto].
Qed.

(** *** Unlinking the marked successor *)

Section snip.
Context (x : Z) (nx : node) (Hx : next np = x) (Ex : m !! x = Some nx) (Hm : ¬ clean (next nx)).
Definition snipped_mem : gmap Z node := <[p := Node (data np) (unmask (next nx))]> m.

Lemma snip_ne : x ≠ p.
Proof. intros ->. congruence. Qed.
Lemma snip_goes : goes m p x.
Proof. exists np. split; [done|]. rewrite <-Hx. by apply unmask_clean. Qed.
Lemma snip_goes_x : goes m x (unmask (next nx)).
Proof. by exists nx. Qed.
Lemma snipped_goes : goes snipped_mem p (unmask (next nx)).
Proof.
  eexists. unfold snipped_mem. rewrite lookup_insert_eq. split; [done|]. apply unmask_idemp.
Qed.
Lemma snipped_goes_ne a b : a ≠ p → goes snipped_mem a b ↔ goes m a b.
Proof. intros. unfold goes, snipped_mem. by rewrite lookup_insert_ne. Qed.

Lemma reach_snip_back a y : reach snipped_mem a y → reach m a y.
Proof.
  induction 1 as [|a b y Hab Hby IH]; [apply reach_refl|].
  destruct (decide (a = p)) as [->|Hne].
  - assert (b = unmask (next nx)) as -> by eauto using goes_det, snipped_goes.
    apply (rtc_l _ _ x); [apply snip_goes|]. by apply (rtc_l _ _ _ _ snip_goes_x).
  - rewrite snipped_goes_ne in Hab by done. by eapply rtc_l.
Qed.
Lemma reach_snip a y : y ≠ x → reach m a y → reach snipped_mem a y.
Proof.
  intros Hy. induction 1 as [|a b y Hab Hby IH]; [apply reach_refl|].
  specialize (IH Hy). destruct (decide (a = p)) as [->|Hne].
  - assert (b = x) as -> by eauto using goes_det, snip_goes.
    apply (rtc_l _ _ _ _ snipped_goes). apply rtc_inv in IH as [E|(c & Hxc & Hcy)]; [congruence|].
    rewrite snipped_goes_ne in Hxc by apply snip_ne.
    by rewrite (goes_det _ _ _ _ snip_goes_x Hxc).
  - apply (rtc_l _ _ b); [by apply snipped_goes_ne|done].
Qed.

(** The unlinked node is out of the list: no other node of the list is at the
    distance of its predecessor. *)
Lemma snip_unlinked : ¬ reach snipped_mem h x.
Proof.
  pose proof (im_null _ _ _ I) as H0. intros Hr.
  destruct (dist_exists m p) as [n Dp].
  { destruct (reach_total m h p 0) as [|Hr0]; [done|apply I|done|].
    apply reach_null in Hr0 as ->; [|done]. apply reach_refl. }
  apply rtc_inv_r in Hr as [->|(y & Hy & Hyx)].
  { destruct (im_head _ _ _ I) as (nh & Eh & _ & Hch). congruence. }
  apply reach_snip_back in Hy.
  inversion Dp as [E0|? q n1 Hpq Dq]; [congruence|].
  rewrite (goes_det _ _ _ _ Hpq snip_goes) in Dq.
  destruct (decide (y = p)) as [->|Hne].
  - assert (unmask (next nx) = x) as E by eauto using goes_det, snipped_goes.
    inversion Dq as [|? q' n2 Hxq Dq']; [congruence|].
    assert (q' = x) as ->.
    { rewrite (goes_det _ _ _ _ Hxq snip_goes_x). exact E. }
    assert (n2 = n1) by (by eapply (dist_det m x)). lia.
  - rewrite snipped_goes_ne in Hyx by done. apply Hne.
    apply (dist_inj m h y p (S n1)); [done..| |]; (eapply dist_step; [|exact Dq]); [done|apply snip_goes].
Qed.

Lemma inv_snip : inv_mem snipped_mem h R.
Proof.
  pose proof (im_null _ _ _ I) as H0. pose proof (im_root _ _ _ I) as Hh.
  assert (x ≠ 0) as Hx0 by congruence.
  constructor; [done|..].
  - unfold snipped_mem. rewrite lookup_insert_ne; [done|]. congruence.
  - destruct (im_head _ _ _ I) as (nh & E & Edh & Hch). unfold snipped_mem.
    destruct (decide (p = h)) as [->|Hne].
    + rewrite lookup_insert_eq. eexists. split; [done|]. simplify_eq. split; [done|]. apply clean_unmask.
    + rewrite lookup_insert_ne by done. eauto.
  - apply reach_snip; [done|apply I].
  - intros r y Hr Hy%reach_snip_back Hy0.
    destruct (im_node _ _ _ I r y Hr Hy Hy0) as (ny & Ey & Hcy & Hdy & Hl & Hn).
    assert (∀ n, next_ok m n → next_ok snipped_mem n) as Hok.
    { intros n Hok. apply next_ok_data; [done|]. intros nq'. unfold snipped_mem.
      destruct (decide (unmask (next n) = p)) as [->|Hne].
      - rewrite lookup_insert_eq. intros [= <-]. by exists np.
      - rewrite lookup_insert_ne by done. eauto. }
    assert (clean (next ny) → reach snipped_mem h y) as Hl'.
    { intros Hcn. apply reach_snip; [|auto]. intros ->. congruence. }
    unfold snipped_mem at 1. destruct (decide (y = p)) as [->|Hne].
    + rewrite lookup_insert_eq. eexists. split; [done|]. assert (ny = np) as -> by congruence.
      split; [done|]. split; [done|]. simpl. split; [auto|].
      split; simpl; rewrite unmask_idemp; [auto|]. intros nq Eq.
      destruct (marks_clean (unmask (next nx)) (clean_unmask _)) as (_ & _ & ->).
      assert (unmask (next nx) ≠ p) as Hnp.
      { intros E. apply (klt_irrefl (nkey np)).
        eapply klt_kle_trans; [|eapply (reach_kle m h R I h x p); try done].
        - eapply (reach_klt_live m h R I h p x); try done; [|by apply not_eq_sym, snip_ne].
          apply rtc_once, snip_goes.
        - eapply reach_trans; [done|]. apply rtc_once, snip_goes.
        - rewrite <-E. by apply reach_next. }
      unfold snipped_mem in Eq. rewrite lookup_insert_ne in Eq by done.
      apply (reach_klt_live m h R I h p (unmask (next nx)) np nq); try done.
      apply (rtc_l _ _ x); [apply snip_goes|]. by apply reach_next.
    + rewrite lookup_insert_ne by done. exists ny. split; [done|].
      split; [done|]. split; [done|]. auto.
Qed.
End snip.

(** *** Publishing a private node after an unmarked one *)

Section publish.
Context (n : Z) (nn : node) (En : m !! n = Some nn) (Hcn : clean n).
Context (Hun : ∀ r, R r → ¬ reach m r n) (Hdn : data nn ≠ None).
Context (v : Z).
Context (Hv : v = n ∧ klt (nkey np) (nkey nn) ∨ v = n + 2 ∧ nkey np = nkey nn).
Context (Hkn : ∀ nc, m !! next np = Some nc → klt (nkey nn) (nkey nc)).
Definition linked_mem : gmap Z node :=
  <[p := Node (data np) v]> (<[n := Node (data nn) (next np)]> m).

Lemma publish_ne : n ≠ p.
Proof. intros ->. by apply (Hun h), Hp; apply I. Qed.
Lemma publish_unmask : unmask v = n.
Proof.
  destruct Hv as [[-> _]|[-> _]]; [by apply unmask_clean|by apply unmask_clean_add].
Qed.
Lemma linked_p : linked_mem !! p = Some (Node (data np) v).
Proof. apply lookup_insert_eq. Qed.
Lemma linked_n : linked_mem !! n = Some (Node (data nn) (next np)).
Proof.
  unfold linked_mem. rewrite lookup_insert_ne by apply not_eq_sym, publish_ne.
  apply lookup_insert_eq.
Qed.
Lemma linked_ne x : x ≠ p → x ≠ n → linked_mem !! x = m !! x.
Proof. intros. unfold linked_mem. by rewrite !lookup_insert_ne. Qed.
Lemma linked_goes_p : goes linked_mem p n.
Proof. eexists. split; [apply linked_p|]. apply publish_unmask. Qed.
Lemma linked_goes_n : goes linked_mem n (next np).
Proof. eexists. split; [apply linked_n|]. by apply unmask_clean. Qed.
Lemma publish_goes : goes m p (next np).
Proof. exists np. split; [done|]. by apply unmask_clean. Qed.

Lemma reach_publish a y : ¬ reach m a n → reach m a y → reach linked_mem a y.
Proof.
  intros Ha Hr. induction Hr as [|a b y (na & Ea & Eb) Hby IH]; [apply reach_refl|].
  assert (a ≠ n) by (intros ->; apply Ha, reach_refl).
  assert (reach linked_mem b y) as Hb'.
  { apply IH. intros Hb. apply Ha. apply (rtc_l _ _ b); [by exists na|done]. }
  destruct (decide (a = p)) as [->|Hne].
  - assert (b = next np) as ->.
    { eapply (goes_det m p); [by exists na|apply publish_goes]. }
    apply (rtc_l _ _ _ _ linked_goes_p). by apply (rtc_l _ _ _ _ linked_goes_n).
  - apply (rtc_l _ _ b); [|done]. exists na. by rewrite linked_ne.
Qed.
Lemma publish_next_unreached : ¬ reach m (next np) n.
Proof.
  intros Hr. apply (Hun h); [apply I|]. eapply reach_trans; [apply Hp|].
  by apply (rtc_l _ _ _ _ publish_goes).
Qed.
Lemma reach_publish_back a y : reach linked_mem a y →
  (¬ reach m a n → reach m a y ∨ y = n) ∧ (a = n → reach m (next np) y ∨ y = n).
Proof.
  induction 1 as [|a b y Hab Hby [IH1 IH2]].
  { split; [left; apply reach_refl|auto]. }
  split.
  - intros Ha. assert (a ≠ n) by (intros ->; apply Ha, reach_refl).
    destruct (decide (a = p)) as [->|Hne].
    + destruct (IH2 (goes_det _ _ _ _ Hab linked_goes_p)) as [Hr|]; [|auto].
      left. by apply (rtc_l _ _ _ _ publish_goes).
    + assert (goes m a b) as Hab'.
      { destruct Hab as (na & Ea & Eb). exists na. by rewrite linked_ne in Ea. }
      destruct IH1 as [Hr|]; [|left; by eapply rtc_l|auto].
      intros Hb. apply Ha. by eapply rtc_l.
  - intros ->. rewrite (goes_det _ _ _ _ Hab linked_goes_n) in IH1.
    apply IH1, publish_next_unreached.
Qed.
Lemma publish_reached : reach linked_mem h n.
Proof.
  eapply reach_trans; [apply reach_publish, Hp; apply Hun, I|]. apply rtc_once, linked_goes_p.
Qed.

Lemma publish_next_ok x : next_ok m x → unmask (next x) ≠ n → next_ok linked_mem x.
Proof.
  intros Hok Hne. apply next_ok_data; [done|]. intros nq'.
  destruct (decide (unmask (next x) = p)) as [->|Hnp].
  - rewrite linked_p. intros [= <-]. by exists np.
  - rewrite linked_ne by done. eauto.
Qed.

Lemma inv_publish : inv_mem linked_mem h R.
Proof.
  pose proof (im_null _ _ _ I) as H0. pose proof (im_root _ _ _ I) as Hh.
  constructor; [done|..].
  - rewrite linked_ne; [done|congruence..].
  - destruct (im_head _ _ _ I) as (nh & E & Edh & Hch). destruct (decide (p = h)) as [Eph|Hne].
    + exists (Node (data np) v). rewrite <-Eph, linked_p. split; [done|].
      assert (nh = np) as -> by congruence. split; [done|]. simpl.
      destruct Hv as [[-> _]|[_ Hk]]; [done|]. exfalso. apply Hdn. unfold nkey in Hk.
      rewrite Edh in Hk. by destruct (data nn).
    + exists nh. rewrite linked_ne; [done..|]. intros ->. apply (Hun n); [done|apply reach_refl].
  - apply reach_publish, I. by apply Hun.
  - intros r y Hr Hy Hy0. apply reach_publish_back in Hy as [Hy _].
    destruct (Hy (Hun r Hr)) as [Hm| ->].
    + destruct (im_node _ _ _ I r y Hr Hm Hy0) as (ny & Ey & Hcy & Hdy & Hl & Hok).
      assert (y ≠ n) as Hyn by (intros ->; by apply (Hun r)).
      assert (unmask (next ny) ≠ n) as Hqn.
      { intros E. apply (Hun r Hr). rewrite <-E. eapply reach_trans; [done|]. by apply reach_next. }
      destruct (decide (y = p)) as [->|Hyp].
      * exists (Node (data np) v). rewrite linked_p. split; [done|].
        assert (ny = np) as -> by congruence. split; [done|]. split; [done|]. simpl.
        split; [intros; apply reach_publish; auto|].
        split; simpl; rewrite publish_unmask, ?linked_n; [destruct Hv as [[-> _]|[-> _]]; auto|].
        intros nq [= <-]. unfold nkey in *. simpl.
        destruct Hv as [[-> Hk]|[-> Hk]].
        -- by destruct (marks_clean n Hcn) as (_ & _ & ->).
        -- by destruct (marks_add_2 n Hcn) as (_ & _ & _ & ->).
      * exists ny. rewrite linked_ne by done. split; [done|]. split; [done|]. split; [done|].
        split; [intros; apply reach_publish; auto|]. by apply publish_next_ok.
    + exists (Node (data nn) (next np)). rewrite linked_n. split; [done|]. split; [done|].
      split; [done|]. split; [intros; apply publish_reached|].
      split; simpl; rewrite unmask_clean by done; [auto|].
      destruct (marks_clean (next np) Hc) as (_ & _ & ->). intros nq Eq.
      assert (next np ≠ n) as Hnn.
      { intros E. apply publish_next_unreached. rewrite E. apply reach_refl. }
      destruct (decide (next np = p)) as [E|Hnp].
      { rewrite E, linked_p in Eq. injection Eq as <-. change (klt (nkey nn) (nkey np)). apply Hkn. by rewrite E. }
      rewrite linked_ne in Eq by done. by apply Hkn.
Qed.
End publish.
End write.

(** ** The entries of the list *)

(** A reachable node without a mark holds the entry. *)
Definition holds m (h : Z) (k : K) (v : V) : Prop :=
  ∃ x n, reach m h x ∧ m !! x = Some n ∧ clean (next n) ∧ data n = Some (k, v).

Lemma holds_det m h R k v v' : inv_mem m h R → holds m h k v → holds m h k v' → v = v'.
Proof.
  intros I (x & nx & Hx & Ex & Hcx & Dx) (y & ny & Hy & Ey & Hcy & Dy).
  pose proof (im_root _ _ _ I) as Hh.
  destruct (decide (x = y)) as [->|Hne]; [congruence|]. exfalso.
  apply (klt_irrefl (Some k)). destruct (reach_total m h x y Hx Hy) as [Hr|Hr].
  - pose proof (reach_klt_live m h R I h x y nx ny) as Hk. unfold nkey in Hk.
    rewrite Dx, Dy in Hk. by apply Hk.
  - pose proof (reach_klt_live m h R I h y x ny nx) as Hk. unfold nkey in Hk.
    rewrite Dx, Dy in Hk. apply Hk; by auto.
Qed.

(** The walk along the list meets exactly the nodes within reach. *)
Lemma walk_elem fuel m p n x : m !! 0 = None → dist m p n → (n < fuel)%nat →
  x ∈ walk fuel m p ↔ reach m p x ∧ x ≠ 0.
Proof.
  intros H0 Hn. revert fuel. induction Hn as [|p q n Hpq Hq IH]; intros fuel Hf;
    destruct fuel as [|fuel]; try lia.
  - simpl. rewrite elem_of_nil. split; [done|]. intros [Hr Hx]. by apply reach_null in Hr.
  - cbn [walk]. destruct (Z.eqb_spec p 0) as [->|Hp].
    { destruct Hpq as (np & E & _). congruence. }
    pose proof Hpq as (np & -> & ->). rewrite elem_of_cons, IH by lia. split.
    + intros [->|[Hr Hx]]; [split; [apply reach_refl|done]|]. split; [by eapply rtc_l|done].
    + intros [Hr Hx]. apply rtc_inv in Hr as [->|(q' & Hpq' & Hr)]; [by left|]. right.
      by rewrite (goes_det m p q q').
Qed.

Lemma walk_sorted fuel m p n : m !! 0 = None → dist m p n → (n < fuel)%nat →
  StronglySorted (λ x y, reach m x y ∧ x ≠ y) (walk fuel m p).
Proof.
  intros H0 Hn. revert fuel. induction Hn as [|p q n Hpq Hq IH]; intros fuel Hf;
    destruct fuel as [|fuel]; try lia; [constructor|].
  cbn [walk]. destruct (Z.eqb_spec p 0) as [->|Hp]; [constructor|].
  pose proof Hpq as (np & -> & ->). constructor; [apply IH; lia|].
  apply Forall_forall. intros y Hy. apply (walk_elem _ _ _ n) in Hy as [Hy _]; [|done..|lia].
  split; [by eapply rtc_l|]. intros <-.
  destruct (dist_reach m q p n H0 Hq Hy) as (n' & Hn' & Hle & _).
  pose proof (dist_det m p _ _ H0 Hn' (dist_step _ _ _ _ Hpq Hq)). lia.
Qed.

Lemma dist_agree m m' p q n : (∀ x, x ≠ p → m' !! x = m !! x) → ¬ reach m q p →
  dist m q n → dist m' q n.
Proof.
  intros Hag Hn Hd. induction Hd as [|a b n (na & E & Eb) Hb IH]; [constructor|].
  apply (dist_step _ _ b).
  - exists na. rewrite Hag; [done|]. intros ->. apply Hn, reach_refl.
  - apply IH. intros Hr. apply Hn. eapply rtc_l; [|done]. by exists na.
Qed.
Lemma dist_size m p n : m !! 0 = None → dist m p n → (n ≤ size m)%nat.
Proof.
  revert m p. induction n as [|n IH]; intros m p H0 Hd; [lia|].
  inversion Hd as [|? q ? Hpq Hq]; subst. pose proof Hpq as (np & E & Eq).
  assert (¬ reach m q p) as Hnr.
  { intros Hr. destruct (dist_reach m q p n H0 Hq Hr) as (n' & Hn' & Hle & _).
    pose proof (dist_det m p _ _ H0 Hd Hn'). lia. }
  assert (n ≤ size (delete p m))%nat as Hle.
  { apply (IH _ q). { rewrite lookup_delete_ne; [done|congruence]. }
    eapply dist_agree; [|done..]. intros x Hx. by rewrite lookup_delete_ne. }
  rewrite map_size_delete_Some in Hle by done.
  assert (size m ≠ 0%nat); [|lia]. intros ?%map_size_empty_inv. subst. set_solver.
Qed.

Lemma elem_of_chain (s : state K V) R x : inv_mem (mem s) (head s) R →
  x ∈ chain s ↔ reach (mem s) (head s) x ∧ x ≠ 0.
Proof.
  intros I. pose proof (im_null _ _ _ I) as H0.
  destruct (dist_exists _ _ (im_end _ _ _ I)) as [n Hn]. unfold chain.
  eapply walk_elem; [done..|]. apply dist_size in Hn; [lia|done].
Qed.

Lemma elem_of_contents (s : state K V) R k v : inv_mem (mem s) (head s) R →
  (k, v) ∈ contents s ↔ holds (mem s) (head s) k v.
Proof.
  intros I. unfold contents. rewrite list_elem_of_omap.
  setoid_rewrite (elem_of_chain s R); [|done]. unfold live, holds. split.
  - intros (x & [Hx _] & E). destruct (mem s !! x) as [n|] eqn:En; [|done]. simpl in E.
    destruct (is_any_marked (next n)) eqn:Em; [done|].
    exists x, n. apply any_marked_clean in Em. auto.
  - intros (x & n & Hx & En & Hc & Hd). exists x. rewrite En. simpl.
    rewrite (proj2 (any_marked_clean _) Hc). split; [split|]; [done| |done].
    intros ->. pose proof (im_null _ _ _ I). congruence.
Qed.

(** The keys of the entries are in strictly increasing order. *)
Lemma contents_sorted (s : state K V) R : inv_mem (mem s) (head s) R →
  StronglySorted lt (contents s).*1.
Proof.
  intros I. pose proof (im_null _ _ _ I) as H0. pose proof (im_root _ _ _ I) as Hh.
  destruct (dist_exists _ _ (im_end _ _ _ I)) as [n Hn]. unfold contents.
  pose proof (dist_size _ _ _ H0 Hn) as Hle.
  pose proof (walk_sorted (S (size (mem s))) _ _ n H0 Hn ltac:(lia)) as Hs.
  assert (∀ x, x ∈ chain s → reach (mem s) (head s) x) as Hc.
  { intros x Hx. by apply (elem_of_chain s R) in Hx as [? _]. }
  unfold chain in Hc |- *. induction Hs as [|x l Hl IH Hx]; [constructor|].
  specialize (IH (λ y Hy, Hc y (list_elem_of_further _ _ _ Hy))).
  cbn [omap list_omap]. destruct (live (mem s) x) as [e|] eqn:Ex; [|done].
  cbn. constructor; [done|]. apply Forall_forall. intros k' Hk'.
  apply list_elem_of_fmap in Hk' as (e' & -> & (y & Hy & Ey)%list_elem_of_omap).
  rewrite Forall_forall in Hx. destruct (Hx y Hy) as [Hr Hne].
  unfold live in *. destruct (mem s !! x) as [nx|] eqn:Enx; [|done].
  destruct (mem s !! y) as [ny|] eqn:Eny; [|done]. cbn in Ex, Ey.
  destruct (is_any_marked (next nx)) eqn:Em; [done|].
  destruct (is_any_marked (next ny)) eqn:Em'; [done|].
  pose proof (reach_klt_live _ _ _ I (head s) x y nx ny) as Hk. unfold nkey in Hk.
  rewrite Ex, Ey in Hk. apply Hk; try done; [apply Hc; by left|]. by apply any_marked_clean.
Qed.

(** *** The effect of a write *)

Section effect.
Context (m : gmap Z node) (h : Z) (R : Z → Prop) (I : inv_mem m h R).

Lemma holds_agree m' n k v : (∀ x, x ≠ n → m' !! x = m !! x) → ¬ reach m h n →
  holds m' h k v ↔ holds m h k v.
Proof.
  intros Hag Hn. unfold holds. setoid_rewrite <-(reach_agree m m' n); [|done..].
  split; intros (x & nx & Hx & E & ?); exists x, nx; rewrite Hag in *;
    (done || intros ->; done).
Qed.

Context (p : Z) (np : node) (Ep : m !! p = Some np) (Hp : reach m h p) (Hc : clean (next np)).

Lemma holds_mark k v e : data np = Some e →
  holds (marked_mem m p np) h k v ↔ holds m h k v ∧ k ≠ e.1.
Proof.
  intros Hd. unfold holds. setoid_rewrite (reach_mark m p np Ep Hc). split.
  - intros (x & nx & Hx & E & Hcx & Dx). unfold marked_mem in E.
    destruct (decide (x = p)) as [->|Hne].
    { rewrite lookup_insert_eq in E. injection E as <-. apply any_marked_clean in Hcx.
      cbn [next] in Hcx. destruct (marks_add_1 (next np) Hc) as (_ & ? & _). congruence. }
    rewrite lookup_insert_ne in E by done. split; [by exists x, nx|]. intros ->.
    pose proof (im_root _ _ _ I) as Hh.
    destruct (reach_total m h x p Hx Hp) as [Hr|Hr].
    + apply (klt_irrefl (nkey nx)).
      pose proof (reach_klt_live m h R I h x p nx np) as Hk. unfold nkey in *.
      rewrite Hd, Dx in *. by apply Hk.
    + apply (klt_irrefl (nkey nx)).
      pose proof (reach_klt_live m h R I h p x np nx) as Hk. unfold nkey in *.
      rewrite Hd, Dx in *. by apply Hk; auto.
  - intros [(x & nx & Hx & E & Hcx & Dx) Hk]. exists x, nx. split; [done|].
    unfold marked_mem. rewrite lookup_insert_ne; [done|]. intros <-. by simplify_eq/=.
Qed.

Lemma holds_snip x nx k v : next np = x → m !! x = Some nx → ¬ clean (next nx) →
  holds (snipped_mem m p np nx) h k v ↔ holds m h k v.
Proof.
  intros Hx Ex Hm. unfold holds. split.
  - intros (y & ny & Hy & E & Hcy & Dy). unfold snipped_mem in E.
    apply (reach_snip_back m p np Ep Hc x nx Hx Ex) in Hy.
    destruct (decide (y = p)) as [->|Hne].
    + rewrite lookup_insert_eq in E. simplify_eq/=. by exists p, np.
    + rewrite lookup_insert_ne in E by done. by exists y, ny.
  - intros (y & ny & Hy & E & Hcy & Dy). exists y.
    apply (reach_snip m p np Ep Hc x nx Hx Ex Hm) in Hy; [|congruence].
    unfold snipped_mem. destruct (decide (y = p)) as [->|Hne].
    + rewrite lookup_insert_eq. eexists. split; [done|]. split; [done|]. simplify_eq.
      split; [apply clean_unmask|done].
    + rewrite lookup_insert_ne by done. eauto.
Qed.

(** No entry lies between an unmarked node and its successor. *)
Lemma holds_gap k v : holds m h k v → klt (nkey np) (Some k) →
  ∃ nc, m !! next np = Some nc ∧ kle (nkey nc) (Some k).
Proof.
  intros (x & nx & Hx & Ex & Hcx & Dx) Hk. pose proof (im_root _ _ _ I) as Hh.
  assert (nkey nx = Some k) as Kx by (unfold nkey; by rewrite Dx).
  assert (reach m p x) as Hr.
  { apply (reach_before m h R I h p x np nx); try done. by rewrite Kx. }
  apply (reach_inv m p x np) in Hr; [|intros <-|done].
  - rewrite unmask_clean in Hr by done.
    assert (next np ≠ 0) as H0.
    { intros E. rewrite E in Hr. pose proof (im_null _ _ _ I) as Hn.
      apply reach_null in Hr; [congruence|done]. }
    assert (reach m h (next np)) as Hhn.
    { apply (reach_trans m h p); [done|]. rewrite <-(unmask_clean (next np)) by done. by apply reach_next. }
    destruct (im_node _ _ _ I h _ Hh Hhn H0) as (nc & Ec & _). exists nc. split; [done|].
    rewrite <-Kx. by eapply (reach_kle m h R I h (next np) x).
  - simplify_eq. rewrite Kx in Hk. by apply klt_irrefl in Hk.
Qed.

Lemma holds_publish n nn k v w : m !! n = Some nn → clean n →
  (∀ r, R r → ¬ reach m r n) →
  v = n ∧ klt (nkey np) (nkey nn) ∨ v = n + 2 ∧ nkey np = nkey nn →
  holds (linked_mem m p np n nn v) h k w ↔
    holds m h k w ∧ (v = n ∨ Some k ≠ nkey nn) ∨ data nn = Some (k, w).
Proof.
  intros En Hcn Hun Hv. pose proof (im_root _ _ _ I) as Hh.
  pose proof (publish_ne m h R I p np Hp n nn En Hcn Hun v Hv) as Hne.
  assert (clean v ↔ v = n) as Hcv.
  { destruct Hv as [[-> _]|[-> _]]; [done|]. destruct (marks_add_2 n Hcn) as (_ & Ha & _).
    rewrite <-any_marked_clean, Ha. split; [done|lia]. }
  split.
  - intros (x & nx & Hx & Ex & Hcx & Dx).
    eapply (reach_publish_back m h R I p np Ep Hp Hc n nn En Hcn Hun v Hv) in Hx as [Hx _].
    destruct (Hx (Hun h Hh)) as [Hr| ->].
    + destruct (decide (x = n)) as [->|Hxn]; [by apply Hun in Hr|].
      left. destruct (decide (x = p)) as [->|Hxp].
      * rewrite (linked_p m p np n nn v) in Ex. injection Ex as <-. simpl in *.
        split; [by exists p, np|]. left. by apply Hcv.
      * rewrite (linked_ne m p np n nn v) in Ex by done. split; [by exists x, nx|].
        destruct Hv as [[-> _]|[_ Hk]]; [by left|]. right. rewrite <-Hk. intros Ek.
        assert (nkey nx = Some k) as Kx by (unfold nkey; by rewrite Dx).
        assert (klt (nkey nx) (nkey np) ∨ klt (nkey np) (nkey nx)) as Hlt.
        { destruct (reach_total m h x p Hr Hp) as [Hxp'|Hpx].
          - left. by eapply (reach_klt_live m h R I h x p).
          - right. by eapply (reach_klt_live m h R I h p x); auto. }
        rewrite Kx, <-Ek in Hlt. by destruct Hlt as [[]%klt_irrefl|[]%klt_irrefl].
    + right. rewrite (linked_n m h R I p np Hp n nn En Hcn Hun v Hv) in Ex. by injection Ex as <-.
  - intros [[(x & nx & Hr & Ex & Hcx & Dx) Hk]|Hd].
    + exists x. assert (x ≠ n) as Hxn by (intros ->; by apply (Hun h)).
      assert (reach (linked_mem m p np n nn v) h x) as Hr'.
      { eapply (reach_publish m h R I p np Ep Hp Hc n nn En Hcn Hun v Hv); [by apply Hun|done]. }
      destruct (decide (x = p)) as [->|Hxp].
      * eexists. rewrite (linked_p m p np n nn v). do 2 (split; [done|]). simplify_eq/=.
        split; [|done]. destruct Hv as [[-> _]|[-> Hk']]; [done|]. exfalso.
        destruct Hk as [?|Hk]; [lia|]. apply Hk. rewrite <-Hk'. unfold nkey. by rewrite Dx.
      * exists nx. by rewrite (linked_ne m p np n nn v) by done.
    + exists n. eexists. rewrite (linked_n m h R I p np Hp n nn En Hcn Hun v Hv).
      split; [|done]. by eapply (publish_reached m h R I p np Ep Hp Hc n nn En Hcn Hun v Hv).
Qed.
End effect.
End mem.
