(* ===== verification/SortedListInv.v ===== *)
(** * The invariant of the lock-free sorted list

    What each thread knows at each of its steps, in terms of the memory and of
    the maps the list held since the thread's operation began, and that a step
    of one thread does not invalidate what the others know. *)

From S2P Require Import Prelude Ordering MarkedPtr SortedList SortedListMem.

Section evolve.
Context {K V : Type} `{OrdLaws K}.
Local Notation node := (node K V).
Implicit Types m : gmap Z node.

(** ** How a step changes the memory

    [own] is the only node out of reach that the step touches (0 if none); it
    comes into reach when the step publishes it. *)

Definition acc m (R : Z → Prop) (x : Z) : Prop := ∃ r, R r ∧ reach m r x.

Record evolve m (h : Z) (R : Z → Prop) m' (own : Z) : Prop := {
  ev_inv : inv_mem m' h R;
  ev_own : own = 0 ∨ ¬ acc m R own;
  ev_node x n : acc m R x → m !! x = Some n →
    ∃ n', m' !! x = Some n' ∧ data n' = data n ∧ (¬ clean (next n) → n' = n);
  ev_rest x : ¬ acc m R x → x ≠ own → m' !! x = m !! x;
  ev_dom x : is_Some (m !! x) → x ≠ own → is_Some (m' !! x);
  ev_back a x : acc m R a → reach m' a x → reach m a x ∨ x = own;
  ev_fwd a x : acc m R a → x ≠ 0 → reach m' h x → reach m a x → reach m' a x;
  ev_del x n n' k : acc m R x → m !! x = Some n → m' !! x = Some n' →
    is_delete_marked (next n) = false → is_delete_marked (next n') = true →
    nkey n = Some k → ∀ v, ¬ holds m' h k v }.

Lemma acc_reach m R a x : acc m R a → reach m a x → acc m R x.
Proof. intros (r & Hr & Ha) Hx. exists r. split; [done|]. by eapply reach_trans. Qed.
Lemma acc_root m (R : Z → Prop) r : R r → acc m R r.
Proof. intros. exists r. split; [done|apply reach_refl]. Qed.

Lemma evolve_refl m h R : inv_mem m h R → evolve m h R m 0.
Proof.
  intros I. constructor; auto.
  - intros x n Hx E. eauto.
  - intros x n n' k Hx E E' Hd Hd'. congruence.
Qed.

Lemma evolve_agree m h R m' n : inv_mem m h R → (∀ x, x ≠ n → m' !! x = m !! x) →
  n ≠ 0 → ¬ acc m R n → evolve m h R m' n.
Proof.
  intros I Hag Hn0 Hn.
  assert (∀ a, acc m R a → ¬ reach m a n) as Hna.
  { intros a Ha Hr. apply Hn. by eapply acc_reach. }
  assert (∀ a x, acc m R a → reach m a x ↔ reach m' a x) as Hiff.
  { intros a x Ha. apply (reach_agree m m' n); auto. }
  assert (acc m R h) as Hh by (apply acc_root, I).
  assert (∀ x, acc m R x → x ≠ n) as Hne by (intros x Hx ->; done).
  constructor.
  - eapply inv_agree; [done..|]. intros r Hr. apply Hna. by apply acc_root.
  - auto.
  - intros x nx Hx E. exists nx. rewrite Hag by auto. auto.
  - intros x _ Hx. by apply Hag.
  - intros x Hx Hxn. by rewrite Hag.
  - intros a x Ha Hr. left. by apply Hiff.
  - intros a x Ha _ _ Hr. by apply Hiff.
  - intros x nx nx' k Hx E E'. rewrite Hag in E' by auto. congruence.
Qed.

Section at_node.
Context m (h : Z) (R : Z → Prop) (I : inv_mem m h R).
Context (p : Z) (np : node) (Ep : m !! p = Some np) (Hp : reach m h p) (Hc : clean (next np)).

Lemma acc_p : acc m R p.
Proof. exists h. split; [apply I|done]. Qed.

Lemma evolve_mark e : data np = Some e → evolve m h R (marked_mem m p np) 0.
Proof.
  intros Hd. constructor.
  - apply inv_mark; try done. by rewrite Hd.
  - auto.
  - intros x n Hx E. unfold marked_mem. destruct (decide (x = p)) as [->|Hne].
    + rewrite lookup_insert_eq. eexists. split; [done|]. assert (n = np) as -> by congruence. done.
    + rewrite lookup_insert_ne by done. eauto.
  - intros x Hx _. unfold marked_mem. rewrite lookup_insert_ne; [done|]. intros <-. apply Hx, acc_p.
  - intros x [n E] _. unfold marked_mem. destruct (decide (x = p)) as [->|Hne].
    + by rewrite lookup_insert_eq.
    + by rewrite lookup_insert_ne.
  - intros a x _ Hr. left. by apply (reach_mark m p np Ep Hc).
  - intros a x _ _ _ Hr. by apply (reach_mark m p np Ep Hc).
  - intros x n n' k Hx E E' Hdn Hdn' Hk v Hh.
    apply (holds_mark m h R I p np Ep Hp Hc k v e Hd) in Hh as [_ Hne]. apply Hne.
    unfold marked_mem in E'. destruct (decide (x = p)) as [->|Hxp].
    + assert (n = np) as -> by congruence. unfold nkey in Hk. rewrite Hd in Hk. by injection Hk.
    + rewrite lookup_insert_ne in E' by done. congruence.
Qed.

Lemma evolve_snip x nx : next np = x → m !! x = Some nx → ¬ clean (next nx) →
  evolve m h R (snipped_mem m p np nx) 0.
Proof.
  intros Hx Ex Hm. constructor.
  - by eapply inv_snip.
  - auto.
  - intros y n Hy E. unfold snipped_mem. destruct (decide (y = p)) as [->|Hne].
    + rewrite lookup_insert_eq. eexists. split; [done|]. assert (n = np) as -> by congruence. done.
    + rewrite lookup_insert_ne by done. eauto.
  - intros y Hy _. unfold snipped_mem. rewrite lookup_insert_ne; [done|]. intros <-. apply Hy, acc_p.
  - intros y [n E] _. unfold snipped_mem. destruct (decide (y = p)) as [->|Hne].
    + by rewrite lookup_insert_eq.
    + by rewrite lookup_insert_ne.
  - intros a y _ Hr. left. by eapply reach_snip_back in Hr.
  - intros a y _ _ Hh Hr. apply (reach_snip m p np Ep Hc x nx); try done. intros ->.
    by eapply (snip_unlinked m h R I p np Ep Hp Hc x nx).
  - intros y n n' k Hy E E' Hdn Hdn' Hk v Hh. unfold snipped_mem in E'.
    destruct (decide (y = p)) as [->|Hyp].
    + rewrite lookup_insert_eq in E'. injection E' as <-. cbn [next] in Hdn'.
      destruct (marks_clean _ (clean_unmask (next nx))) as (_ & ? & _). congruence.
    + rewrite lookup_insert_ne in E' by done. congruence.
Qed.

Lemma evolve_publish n nn v : m !! n = Some nn → clean n → ¬ acc m R n → data nn ≠ None →
  v = n ∧ klt (nkey np) (nkey nn) ∨ v = n + 2 ∧ nkey np = nkey nn →
  (∀ nc, m !! next np = Some nc → klt (nkey nn) (nkey nc)) →
  evolve m h R (linked_mem m p np n nn v) n.
Proof.
  intros En Hcn Hun Hdn Hv Hkn.
  assert (∀ r, R r → ¬ reach m r n) as Hun'.
  { intros r Hr Hn. apply Hun. by exists r. }
  assert (n ≠ p) as Hnp by (intros ->; apply Hun, acc_p).
  constructor.
  - by eapply inv_publish.
  - auto.
  - intros y ny Hy E. assert (y ≠ n) by (intros ->; done).
    destruct (decide (y = p)) as [->|Hne].
    + rewrite linked_p. eexists. split; [done|]. assert (ny = np) as -> by congruence. done.
    + rewrite linked_ne by done. eauto.
  - intros y Hy Hyn. rewrite linked_ne; [done| |done]. intros ->. apply Hy, acc_p.
  - intros y [ny E] Hyn. destruct (decide (y = p)) as [->|Hne].
    + by rewrite linked_p.
    + by rewrite linked_ne.
  - intros a y Ha Hr. eapply (reach_publish_back m h R I p np Ep Hp Hc n nn En Hcn Hun' v Hv) in Hr as [Hr _].
    apply Hr. intros Hn. apply Hun. by eapply acc_reach.
  - intros a y Ha _ _ Hr. eapply (reach_publish m h R I p np Ep Hp Hc n nn En Hcn Hun' v Hv); [|done].
    intros Hn. apply Hun. by eapply acc_reach.
  - intros y ny ny' k Hy E E' Hd Hd'. assert (y ≠ n) by (intros ->; done).
    destruct (decide (y = p)) as [->|Hne].
    + rewrite linked_p in E'. injection E' as <-. cbn [next] in Hd'.
      destruct Hv as [[-> _]|[-> _]].
      * destruct (marks_clean n Hcn) as (_ & ? & _). congruence.
      * destruct (marks_add_2 n Hcn) as (_ & _ & ? & _). congruence.
    + rewrite linked_ne in E' by done. congruence.
Qed.
End at_node.
End evolve.

Section threads.
Context {K V : Type} `{OrdLaws K} `{!EqDecision K, !Countable K}.
Local Notation node := (node K V).
Local Notation state := (state K V).
Local Notation thread := (thread K V).
Local Notation pc := (pc K V).
Implicit Types (s : state) (th : thread) (tr : list state).

(** ** The abstract map and its history *)

Definition abs s : gmap K V := list_to_map (contents s).

Lemma abs_lookup s R k v : inv_mem (mem s) (head s) R →
  abs s !! k = Some v ↔ holds (mem s) (head s) k v.
Proof.
  intros I. rewrite <-(elem_of_contents s R) by done. unfold abs. symmetry.
  apply elem_of_list_to_map'. intros v' Hv Hv'.
  rewrite (elem_of_contents s R) in Hv, Hv' by done. by eapply holds_det.
Qed.

(** The states since time [i]; the newest state comes first in a trace. *)
Definition moment tr (i : nat) s : Prop := s ∈ tr ∧ (i ≤ clock s)%nat.
(** The operation has not taken effect yet. *)
Definition pending (p : pc) : bool :=
  match p with
  | LoadFirst _ | LoadNext _ _ | Snip _ _ _ | Recheck _ _ | Located _ _ | Link _ _
  | LoadVictim _ _ | Mark _ _ _ => true
  | _ => false
  end.
Definition pending_at s (t : nat) : bool :=
  match threads s !! t with Some th => pending (tpc th) | None => false end.
(** The step of thread [t] since time [i] at which its operation takes effect. *)
Definition transition tr (i t : nat) s s' : Prop :=
  (∃ tr1 tr2, tr = tr1 ++ s' :: s :: tr2) ∧ (i ≤ clock s)%nat ∧
  (∃ b, step s (Step t b) = Ok s') ∧ pending_at s t = true ∧ pending_at s' t = false.

Definition absent tr (i : nat) (k : K) : Prop := ∃ s, moment tr i s ∧ abs s !! k = None.
Definition present tr (i : nat) (k : K) (v : V) : Prop :=
  ∃ s, moment tr i s ∧ abs s !! k = Some v.

(** At some moment the map had no key between [kp] and [kc] ([None]: no upper
    bound), and had [kp]. *)
Definition no_key_between (m : gmap K V) (kp kc : option K) : Prop :=
  ∀ k, is_Some (m !! k) → klt kp (Some k) → kle kc (Some k) ∧ kc ≠ None.
Definition gap tr (i : nat) (kp kc : option K) : Prop :=
  ∃ s, moment tr i s ∧ no_key_between (abs s) kp kc ∧
    match kp with Some k => is_Some (abs s !! k) | None => True end.

(** The step at which a removal or an update took effect. *)
Definition committed tr (i t : nat) (o : op K V) (v : V) : Prop :=
  ∃ s s', transition tr i t s s' ∧ abs s !! op_key o = Some v ∧
    match o with
    | Remove k _ => abs s' = delete k (abs s)
    | Update e _ => abs s' = <[e.1 := e.2]> (abs s)
    | _ => False
    end.

Lemma moment_mono tr i s s' : moment tr i s → moment (s' :: tr) i s.
Proof. intros [??]. split; [by right|done]. Qed.
Lemma absent_mono tr i k s : absent tr i k → absent (s :: tr) i k.
Proof. intros (s' & ? & ?). exists s'. eauto using moment_mono. Qed.
Lemma present_mono tr i k v s : present tr i k v → present (s :: tr) i k v.
Proof. intros (s' & ? & ?). exists s'. eauto using moment_mono. Qed.
Lemma gap_mono tr i kp kc s : gap tr i kp kc → gap (s :: tr) i kp kc.
Proof. intros (s' & ? & ?). exists s'. eauto using moment_mono. Qed.
Lemma transition_mono tr i t s s1 s2 : transition tr i t s1 s2 → transition (s :: tr) i t s1 s2.
Proof.
  intros ((tr1 & tr2 & ->) & ?). split; [|done]. by exists (s :: tr1), tr2.
Qed.
Lemma committed_mono tr i t o v s : committed tr i t o v → committed (s :: tr) i t o v.
Proof. intros (s1 & s2 & ? & ?). exists s1, s2. eauto using transition_mono. Qed.

(** ** What a thread knows *)

Definition entry (o : op K V) : option (K * V) :=
  match o with Insert e _ | Update e _ => Some e | _ => None end.
(** The thread owns a node that it has not published. *)
Definition private th : Prop := is_Some (entry (top th)) ∧ pending (tpc th) = true.
(** The marked node the thread has to unlink and retire. *)
Definition owned (p : pc) : option Z :=
  match p with
  | Unlink u _ | CheckStart u _ | UnlinkFirst u _ _ | UnlinkNext u _ _ _
  | UnlinkSnip u _ _ _ _ | UnlinkPred u _ _ | UnlinkStart u _ => Some (marked u)
  | Retire _ x => Some x
  | _ => None
  end.

(** The nodes a thread refers to. *)
Definition plocals (p : pc) : list Z :=
  match p with
  | LoadFirst p => [p]
  | LoadNext p c | Snip p c _ | Recheck p c | Located p c | Link p c
  | LoadVictim p c | Mark p c _ => [p; c]
  | Unlink u p => [marked u; p]
  | CheckStart u h => [marked u; h]
  | UnlinkFirst u st p | UnlinkPred u st p => [marked u; st; p]
  | UnlinkNext u st p c | UnlinkSnip u st p c _ => [marked u; st; p; c]
  | UnlinkStart u st => [marked u; st]
  | Retire p x => [p; x]
  | Done _ => []
  end.
Definition hint (o : op K V) : list Z :=
  match op_start o with Some h => [unmask h] | None => [] end.
Definition locals_of (o : op K V) (p : pc) : list Z :=
  match p with Done _ => [] | _ => hint o ++ plocals p end.
Definition locals th : list Z := locals_of (top th) (tpc th).
Definition roots s (r : Z) : Prop :=
  r = head s ∨ ∃ t th, threads s !! t = Some th ∧ r ∈ locals th.

(** [x] follows [a] as long as it is in the list. *)
Definition leads s (a x : Z) : Prop := reach (mem s) (head s) x → reach (mem s) a x.
Definition before s (p : Z) (k : K) : Prop :=
  ∃ n, mem s !! p = Some n ∧ klt (nkey n) (Some k).
Definition keyed s (c : Z) (k : K) : Prop :=
  ∃ n, mem s !! c = Some n ∧ nkey n = Some k.
Definition frozen s (c v : Z) : Prop :=
  ∃ n, mem s !! c = Some n ∧ next n = v ∧ ¬ clean v.

(** A node before the key and its successor at some moment. *)
Definition at_gap tr s (i : nat) (k : K) (p c : Z) : Prop :=
  ∃ np kc, mem s !! p = Some np ∧ klt (nkey np) (Some k) ∧ keyed s c kc ∧
    gap tr i (nkey np) (Some kc) ∧ leads s p c.

(** The result of [node_location_from_internal]. *)
Definition location tr s (i : nat) (k : K) (p c : Z) : Prop :=
  (c = 0 ∧ ∃ np, mem s !! p = Some np ∧ klt (nkey np) (Some k) ∧ gap tr i (nkey np) None) ∨
  (at_gap tr s i k p c ∧ ∃ n e, mem s !! c = Some n ∧ data n = Some e ∧ le k e.1 ∧
    (e.1 = k → present tr i k e.2 ∧ (is_delete_marked (next n) = true → absent tr i k))).

Definition victim tr s (i : nat) (k : K) (p c : Z) : Prop :=
  before s p k ∧ leads s p c ∧ ∃ n v, mem s !! c = Some n ∧ data n = Some (k, v) ∧
    (is_delete_marked (next n) = true → absent tr i k).

Definition changes (o : op K V) : Prop :=
  match o with Remove _ _ | Update _ _ => True | _ => False end.

(** The marked node [x] that thread [t] owns, which leads on to [q]. *)
Definition marked_node tr s (t : nat) th (x q : Z) : Prop :=
  retired s !! x = None ∧ changes (top th) ∧
  ∃ n v, mem s !! x = Some n ∧ data n = Some (op_key (top th), v) ∧
    ¬ clean (next n) ∧ unmask (next n) = q ∧ committed tr (born th) t (top th) v.

Definition unlinks tr s (t : nat) th (u : unlinking) : Prop :=
  marked_node tr s t th (marked u) (replacement u) ∧
  (from u = None ∨ from u = op_start (top th)).
(** [a] is a node from which [x] is found. *)
Definition seeks s (x a : Z) : Prop := leads s a x ∧ a ≠ x ∧ a ≠ 0.

Definition pc_inv tr s (t : nat) th (p : pc) : Prop :=
  let k := op_key (top th) in let i := born th in
  match p with
  | LoadFirst p => p = start s th
  | LoadNext p c => at_gap tr s i k p c
  | Snip p c n => at_gap tr s i k p c ∧ frozen s c n
  | Recheck p c =>
      at_gap tr s i k p c ∧ ∃ kc, keyed s c kc ∧ le k kc
  | Located p c => location tr s i k p c
  | Link p c =>
      (∃ e pos, top th = Insert e pos) ∧ before s p k ∧
      (c = 0 ∨ ∃ kc, keyed s c kc ∧ lt k kc)
  | LoadVictim p c => changes (top th) ∧ victim tr s i k p c
  | Mark p c n => changes (top th) ∧ victim tr s i k p c ∧ clean n
  | Unlink u p => unlinks tr s t th u ∧ seeks s (marked u) p
  | CheckStart u h => unlinks tr s t th u ∧ h ∈ hint (top th) ∧ h ≠ marked u
  | UnlinkFirst u st p | UnlinkPred u st p =>
      unlinks tr s t th u ∧ seeks s (marked u) st ∧ seeks s (marked u) p
  | UnlinkNext u st p c =>
      unlinks tr s t th u ∧ seeks s (marked u) st ∧ seeks s (marked u) p ∧
      seeks s (marked u) c ∧ ∃ kc, keyed s c kc
  | UnlinkSnip u st p c n =>
      unlinks tr s t th u ∧ seeks s (marked u) st ∧ seeks s (marked u) p ∧
      seeks s (marked u) c ∧ frozen s c n
  | UnlinkStart u st => unlinks tr s t th u ∧ seeks s (marked u) st
  | Retire _ x => (∃ q, marked_node tr s t th x q) ∧ ¬ reach (mem s) (head s) x
  | Done _ => True
  end.

(** A hint in use is a live node before the key. *)
Definition hint_inv s th : Prop :=
  ∀ x, x ∈ hint (top th) →
    ∃ n, mem s !! x = Some n ∧ clean (next n) ∧ klt (nkey n) (Some (op_key (top th))).

Definition private_inv s th : Prop :=
  clean (new th) ∧ retired s !! new th = None ∧ ¬ acc (mem s) (roots s) (new th) ∧
  ∃ n, mem s !! new th = Some n ∧ data n = entry (top th).

Record inv tr s : Prop := {
  inv_m : inv_mem (mem s) (head s) (roots s);
  inv_trace : ∃ tr', tr = s :: tr';
  inv_clock s' : s' ∈ tr → (clock s' ≤ clock s)%nat;
  inv_ret_mem x g : retired s !! x = Some g → is_Some (mem s !! x);
  inv_ret_head x g : retired s !! x = Some g → ¬ reach (mem s) (head s) x;
  inv_ret_loc t th r x g : threads s !! t = Some th → r ∈ locals th →
    reach (mem s) r x → retired s !! x = Some g → t ∈ g;
  inv_priv t th : threads s !! t = Some th → private th → private_inv s th;
  inv_priv_ne t t' th th' : threads s !! t = Some th → threads s !! t' = Some th' →
    private th → private th' → t ≠ t' → new th ≠ new th';
  inv_own t t' th th' x : threads s !! t = Some th → threads s !! t' = Some th' →
    owned (tpc th) = Some x → owned (tpc th') = Some x → t = t';
  inv_hint t th : threads s !! t = Some th → running th = true → hint_inv s th;
  inv_pc t th : threads s !! t = Some th →
    (born th ≤ clock s)%nat ∧ pc_inv tr s t th (tpc th) }.

(** ** What another thread's step preserves *)

Section stable.
Context tr s s' (own : Z).
Context (E : evolve (mem s) (head s) (roots s) (mem s') own).
Context (Hhead : head s' = head s).

Local Notation known := (acc (mem s) (roots s)).

Lemma nkey_data (n n' : node) : data n = data n' → nkey n = nkey n'.
Proof. unfold nkey. by intros ->. Qed.

Lemma stable_null : mem s !! 0 = None → ∀ x n, mem s !! x = Some n → x ≠ 0.
Proof. intros H0 x n Ex ->. congruence. Qed.

Lemma leads_stable a x n : mem s !! 0 = None → known a → known x → mem s !! x = Some n →
  leads s a x → leads s' a x.
Proof.
  intros H0 Ha Hx Ex Hl Hr. rewrite Hhead in Hr.
  assert (x ≠ 0) as Hx0 by (intros ->; congruence).
  apply (ev_fwd _ _ _ _ _ E); [done..|]. apply Hl.
  destruct (ev_back _ _ _ _ _ E (head s) x) as [|Heq]; [|done..|].
  { apply acc_root. by left. }
  subst. destruct (ev_own _ _ _ _ _ E) as [|Hown]; [done|]. by apply Hown in Hx.
Qed.
Lemma seeks_stable a x n : mem s !! 0 = None → known a → known x → mem s !! x = Some n →
  seeks s x a → seeks s' x a.
Proof. intros H0 Ha Hx Ex [Hl Hne]. split; [by eapply leads_stable|done]. Qed.
Lemma before_stable p k : known p → before s p k → before s' p k.
Proof.
  intros Hp (n & Ep & Hk). destruct (ev_node _ _ _ _ _ E p n Hp Ep) as (n' & Ep' & Hd & _).
  exists n'. by rewrite (nkey_data n' n).
Qed.
Lemma keyed_stable c k : known c → keyed s c k → keyed s' c k.
Proof.
  intros Hp (n & Ep & Hk). destruct (ev_node _ _ _ _ _ E c n Hp Ep) as (n' & Ep' & Hd & _).
  exists n'. by rewrite (nkey_data n' n).
Qed.
Lemma frozen_stable c v : known c → frozen s c v → frozen s' c v.
Proof.
  intros Hc (n & Ec & Hv & Hm). destruct (ev_node _ _ _ _ _ E c n Hc Ec) as (n' & Ec' & _ & Hf).
  exists n. subst. by rewrite <-(Hf Hm) at 1.
Qed.
Lemma at_gap_stable i k p c : mem s !! 0 = None → known p → known c →
  at_gap tr s i k p c → at_gap (s' :: tr) s' i k p c.
Proof.
  intros H0 Hp Hc (np & kc & Ep & Hk & Hkc & Hg & Hl).
  destruct (ev_node _ _ _ _ _ E p np Hp Ep) as (np' & Ep' & Hd & _).
  pose proof Hkc as (nc & Ec & _).
  exists np', kc. rewrite (nkey_data np' np) by done.
  eauto 10 using keyed_stable, gap_mono, leads_stable.
Qed.
(** A node that is marked for deletion while the thread runs: its key is absent
    at that moment. *)
Lemma deleted_stable i c n n' k v : (i ≤ clock s')%nat → known c →
  mem s !! c = Some n → data n = Some (k, v) → mem s' !! c = Some n' →
  (is_delete_marked (next n) = true → absent tr i k) →
  is_delete_marked (next n') = true → absent (s' :: tr) i k.
Proof.
  intros Hi Hc Ec Hd Ec' Ha Hm.
  destruct (is_delete_marked (next n)) eqn:Em; [by apply absent_mono, Ha|].
  exists s'. split; [split; [by left|done]|].
  destruct (abs s' !! k) as [w|] eqn:Ew; [|done]. exfalso.
  rewrite (abs_lookup s' (roots s)), Hhead in Ew.
  - eapply (ev_del _ _ _ _ _ E c n n' k); try done. unfold nkey. by rewrite Hd.
  - rewrite Hhead. apply E.
Qed.
Lemma location_stable i k p c : mem s !! 0 = None → (i ≤ clock s')%nat → known p → known c →
  location tr s i k p c → location (s' :: tr) s' i k p c.
Proof.
  intros H0 Hi Hp Hc [(-> & np & Ep & Hk & Hg)|(Hg & n & [k' v] & Ec & Hd & Hle & Hpr)].
  - left. split; [done|]. destruct (ev_node _ _ _ _ _ E p np Hp Ep) as (np' & Ep' & Hd & _).
    exists np'. rewrite (nkey_data np' np) by done. eauto using gap_mono.
  - right. split; [by apply at_gap_stable|].
    destruct (ev_node _ _ _ _ _ E c n Hc Ec) as (n' & Ec' & Hd' & _).
    exists n', (k', v). rewrite Hd'. do 3 (split; [done|]). intros Hk. cbn in Hk. subst k'.
    destruct (Hpr eq_refl) as [Hpre Hdel]. split; [by apply present_mono|].
    by eapply deleted_stable.
Qed.
Lemma victim_stable i k p c : mem s !! 0 = None → (i ≤ clock s')%nat → known p → known c →
  victim tr s i k p c → victim (s' :: tr) s' i k p c.
Proof.
  intros H0 Hi Hp Hc (Hb & Hl & n & v & Ec & Hd & Ha).
  split; [by apply before_stable|]. split; [by eapply leads_stable|].
  destruct (ev_node _ _ _ _ _ E c n Hc Ec) as (n' & Ec' & Hd' & _).
  exists n', v. rewrite Hd'. split; [done|]. split; [done|]. by eapply deleted_stable.
Qed.
Lemma marked_node_stable t th x q : known x → retired s' !! x = None →
  marked_node tr s t th x q → marked_node (s' :: tr) s' t th x q.
Proof.
  intros Hx Hr (_ & Hch & n & v & Ex & Hd & Hm & Hq & Hc).
  split; [done|]. split; [done|].
  destruct (ev_node _ _ _ _ _ E x n Hx Ex) as (n' & Ex' & _ & Hf).
  exists n, v. rewrite <-(Hf Hm) at 1. eauto 10 using committed_mono.
Qed.
Lemma unlinks_stable t th u : known (marked u) → retired s' !! marked u = None →
  unlinks tr s t th u → unlinks (s' :: tr) s' t th u.
Proof. intros Hx Hr [Hm Hf]. split; [by apply marked_node_stable|done]. Qed.
Lemma unlinks_seeks t th u a : mem s !! 0 = None → known (marked u) → known a →
  unlinks tr s t th u → seeks s (marked u) a → seeks s' (marked u) a.
Proof. intros H0 Hx Ha [(_ & _ & n & v & Ex & _) _]. by eapply seeks_stable. Qed.
Lemma unreached_stable x n : mem s !! x = Some n → mem s !! 0 = None → known x →
  ¬ reach (mem s) (head s) x → ¬ reach (mem s') (head s') x.
Proof.
  intros Ex H0 Hx Hn Hr. rewrite Hhead in Hr.
  destruct (ev_back _ _ _ _ _ E (head s) x) as [|Heq]; [|done..|].
  { apply acc_root. by left. }
  subst. destruct (ev_own _ _ _ _ _ E) as [->|Hown]; [congruence|done].
Qed.

Lemma pc_inv_stable t th p : mem s !! 0 = None → pc_inv tr s t th p →
  (∀ x, x ∈ locals_of (top th) p → known x) →
  (born th ≤ clock s')%nat → (∀ x, owned p = Some x → retired s' !! x = None) →
  pc_inv (s' :: tr) s' t th p.
Proof.
  intros H0 Hpc Hl Hb Hr.
  destruct p; cbn [locals_of plocals] in Hl; cbn [pc_inv owned] in *; try done.
  - unfold start in *. by rewrite Hhead.
  - apply at_gap_stable; set_solver.
  - destruct Hpc. split; [apply at_gap_stable|apply frozen_stable]; set_solver.
  - destruct Hpc as (Hg & kc & Hkc & Hle). split; [apply at_gap_stable; set_solver|].
    exists kc. split; [apply keyed_stable; set_solver|done].
  - apply location_stable; set_solver.
  - destruct Hpc as (He & Hbf & Hc). split; [done|].
    split; [apply before_stable; set_solver|]. destruct Hc as [|(kc & Hkc & Hlt)]; [by left|].
    right. exists kc. split; [apply keyed_stable; set_solver|done].
  - destruct Hpc as (Hch & Hv). split; [done|]. apply victim_stable; set_solver.
  - destruct Hpc as (Hch & Hv & Hc). split; [done|]. split; [|done]. apply victim_stable; set_solver.
  - destruct Hpc as (Hu & Hs). split; [apply unlinks_stable; set_solver|].
    eapply unlinks_seeks; eauto; set_solver.
  - destruct Hpc as (Hu & Hh). split; [apply unlinks_stable; set_solver|done].
  - destruct Hpc as (Hu & Hs & Hs'). split; [apply unlinks_stable; set_solver|].
    split; eapply unlinks_seeks; eauto; set_solver.
  - destruct Hpc as (Hu & Hs & Hs' & Hs'' & kc & Hkc). split; [apply unlinks_stable; set_solver|].
    repeat split_and; [eapply unlinks_seeks; eauto; set_solver..|].
    exists kc. apply keyed_stable; set_solver.
  - destruct Hpc as (Hu & Hs & Hs' & Hs'' & Hf). split; [apply unlinks_stable; set_solver|].
    repeat split_and; try done; [eapply unlinks_seeks; eauto; set_solver..|].
    apply frozen_stable; set_solver.
  - destruct Hpc as (Hu & Hs & Hs'). split; [apply unlinks_stable; set_solver|].
    split; eapply unlinks_seeks; eauto; set_solver.
  - destruct Hpc as (Hu & Hs). split; [apply unlinks_stable; set_solver|].
    eapply unlinks_seeks; eauto; set_solver.
  - destruct Hpc as ((q & Hm) & Hn). split.
    + exists q. apply marked_node_stable; set_solver.
    + destruct Hm as (_ & _ & n & v & Ex & _). eapply unreached_stable; eauto; set_solver.
Qed.
End stable.

(** ** A step of a thread *)

Lemma inv_mem_roots (m : gmap Z node) h (R R' : Z → Prop) : inv_mem m h R → R' h →
  (∀ r, R' r → r = 0 ∨ acc m R r) → inv_mem m h R'.
Proof.
  intros I Hh HR. constructor; [done|apply I..|].
  intros r x Hr Hx Hx0. destruct (HR r Hr) as [->|(r0 & Hr0 & Hreach)].
  - apply reach_null in Hx; [done|apply I].
  - apply (im_node _ _ _ I r0 x); [done| |done]. by eapply reach_trans.
Qed.

(** The node a thread has to retire. *)
Lemma owned_marked tr s t th x : inv tr s → threads s !! t = Some th → owned (tpc th) = Some x →
  x ∈ locals th ∧ ∃ q, marked_node tr s t th x q.
Proof.
  intros I Et Ho. destruct (inv_pc _ _ I t th Et) as [_ Hpc]. unfold locals.
  destruct (tpc th); cbn [owned locals_of plocals] in *; simplify_eq;
    (split; [set_solver|]);
    repeat match goal with H : pc_inv _ _ _ _ _ |- _ => cbn [pc_inv] in H end;
    unfold unlinks in *; naive_solver.
Qed.

Lemma locals_running th r : r ∈ locals th → running th = true.
Proof. unfold locals, running. destruct (tpc th); try done. set_solver. Qed.

Section settle.
Context tr s (I : inv tr s) (t : nat) th (Et : threads s !! t = Some th).
Context (Hrun : running th = true) (m' : gmap Z node) (p' : pc) (own : Z).
Let s' : state := settle (with_mem s m') t th p'.
Let th1 : thread := Thread (top th) (new th) (born th) p'.
Context (E : evolve (mem s) (head s) (roots s) m' own).
Context (Hown : own = 0 ∨ private th ∧ own = new th).
Context (Hloc : ∀ r, r ∈ plocals p' → r = 0 ∨
  ∃ r0, (r0 = head s ∨ r0 ∈ locals th) ∧ reach m' r0 r).
Context (Hpc : pc_inv (s' :: tr) s' t th p').
Context (Hpriv : is_Some (entry (top th)) → pending p' = true →
  pending (tpc th) = true ∧ ¬ acc m' (roots s) (new th) ∧
  ∃ n, m' !! new th = Some n ∧ data n = entry (top th)).
Context (Howned : ∀ x, owned p' = Some x → owned (tpc th) = Some x ∨
  ∃ n, mem s !! x = Some n ∧ clean (next n)).
Context (Hret : ∀ pr x, tpc th = Retire pr x → m' = mem s ∧ ∃ a, p' = Done a).
Context (Hhint : ∀ t0 th0 x, threads s !! t0 = Some th0 → running th0 = true →
  x ∈ hint (top th0) → ∃ n, m' !! x = Some n ∧ clean (next n)).

Let H0 : mem s !! 0 = None := im_null _ _ _ (inv_m _ _ I).

Lemma settle_head : head s' = head s.
Proof. done. Qed.
Lemma settle_threads t0 th0 : threads s' !! t0 = Some th0 →
  t0 = t ∧ th0 = th1 ∨ t0 ≠ t ∧ threads s !! t0 = Some th0.
Proof.
  unfold s', settle, with_mem. cbn. destruct (decide (t0 = t)) as [->|Hne].
  - rewrite lookup_insert_eq. intros [= <-]. by left.
  - rewrite lookup_insert_ne by done. by right.
Qed.

Lemma settle_locals r : r ∈ locals th1 → r = 0 ∨
  ∃ r0, (r0 = head s ∨ r0 ∈ locals th) ∧ reach m' r0 r.
Proof.
  intros Hr. pose proof (locals_running _ _ Hr) as Hr1.
  assert (r ∈ hint (top th) ∨ r ∈ plocals p') as [Hh|Hp]; [|right|by auto].
  { unfold locals, th1 in Hr. cbn in Hr. destruct p'; cbn in *; set_solver. }
  exists r. split; [right|apply reach_refl].
  unfold locals, running in *. destruct (tpc th); cbn; set_solver.
Qed.

Lemma settle_roots r : roots s' r → r = 0 ∨ acc m' (roots s) r.
Proof.
  intros [->|(t0 & th0 & Et0 & Hr)]; [right; apply acc_root; by left|].
  apply settle_threads in Et0 as [[-> ->]|[Hne Et0]].
  - destruct (settle_locals r Hr) as [|(r0 & Hr0 & Hreach)]; [auto|]. right. exists r0.
    split; [|done]. destruct Hr0 as [->|Hr0]; [by left|]. right. eauto.
  - right. apply acc_root. right. eauto.
Qed.

Lemma settle_retired x g : retired s' !! x = Some g →
  (∃ g0, retired s !! x = Some g0 ∧ ∀ t0, t0 ≠ t ∨ running th1 = true → t0 ∈ g0 → t0 ∈ g) ∨
  ((∃ pr, tpc th = Retire pr x) ∧ running th1 = false ∧
    ∀ t0 th0, t0 ≠ t → threads s !! t0 = Some th0 → running th0 = true → t0 ∈ g).
Proof.
  unfold s', settle. cbn. intros Hx.
  destruct (running th1) eqn:Er; unfold running, th1 in Er; cbn in Er.
  { left. exists g. split; [|auto]. by destruct p'. }
  destruct p'; try done. rewrite lookup_fmap_Some in Hx. destruct Hx as (g0 & <- & Hx).
  assert (retired s !! x = Some g0 ∨ (∃ pr, tpc th = Retire pr x) ∧ g0 = running_threads s ∖ {[t]})
    as [Hx'|[Hpr ->]].
  { unfold defer_destroy, with_mem in Hx. cbn in Hx. destruct (tpc th); eauto.
    apply lookup_insert_Some in Hx as [[-> <-]|[_ Hx]]; eauto. }
  - left. exists g0. split; [done|]. intros t0 [Hne|Hr]; [set_solver|].
    unfold running, th1 in Hr. done.
  - right. split; [done|]. split; [done|]. intros t0 th0 Hne Et0 Hr.
    unfold running_threads. rewrite !elem_of_difference, elem_of_dom, elem_of_singleton.
    split; [split|]; [|done..]. exists th0. by apply map_lookup_filter_Some.
Qed.

Lemma settle_back a x : acc (mem s) (roots s) a → reach m' a x →
  reach (mem s) a x ∨ x = 0 ∨ private th ∧ x = new th.
Proof.
  intros Ha Hr. destruct (ev_back _ _ _ _ _ E a x Ha Hr) as [|Hx]; [auto|].
  rewrite Hx. naive_solver.
Qed.

Lemma root_head : roots s (head s).
Proof. by left. Qed.
Lemma root_local t0 th0 r : threads s !! t0 = Some th0 → r ∈ locals th0 → roots s r.
Proof. right. eauto. Qed.

(** Nothing retired comes back into reach. *)
Lemma settle_reach_retired a x g : acc (mem s) (roots s) a → reach m' a x →
  retired s !! x = Some g → reach (mem s) a x.
Proof.
  intros Ha Hr Hx. destruct (settle_back a x Ha Hr) as [|[->|[Hp ->]]]; [done|..].
  - apply (inv_ret_mem _ _ I) in Hx as [? ?]. congruence.
  - destruct (inv_priv _ _ I t th Et Hp) as (_ & Hn & _). congruence.
Qed.

Lemma settle_retire pr x : tpc th = Retire pr x →
  x ∈ locals th ∧ (∃ q, marked_node tr s t th x q) ∧ ¬ reach (mem s) (head s) x ∧ m' = mem s.
Proof.
  intros Ex. destruct (inv_pc _ _ I t th Et) as [_ Hp]. rewrite Ex in Hp.
  destruct Hp as [Hq Hn]. unfold locals. rewrite Ex. split; [set_solver|].
  destruct (Hret pr x Ex) as [? _]. auto.
Qed.

Lemma settle_ret_mem x g : retired s' !! x = Some g → is_Some (m' !! x).
Proof.
  intros [(g0 & Hx & _)|((pr & Ex) & _)]%settle_retired.
  - pose proof (inv_ret_mem _ _ I _ _ Hx) as Hm. apply (ev_dom _ _ _ _ _ E); [done|].
    intros ->. destruct Hown as [->|[Hp ->]]; [destruct Hm; congruence|].
    destruct (inv_priv _ _ I t th Et Hp) as (_ & Hn & _). congruence.
  - apply settle_retire in Ex as (_ & (q & _ & _ & n & v & En & _) & _ & ->). eauto.
Qed.
Lemma settle_ret_head x g : retired s' !! x = Some g → ¬ reach m' (head s) x.
Proof.
  intros [(g0 & Hx & _)|((pr & Ex) & _)]%settle_retired.
  - intros Hr. apply (inv_ret_head _ _ I _ _ Hx).
    eapply settle_reach_retired; eauto using acc_root, root_head.
  - by apply settle_retire in Ex as (_ & _ & ? & ->).
Qed.
Lemma settle_ret_loc t0 th0 r x g : threads s' !! t0 = Some th0 → r ∈ locals th0 →
  reach m' r x → retired s' !! x = Some g → t0 ∈ g.
Proof.
  intros Et0 Hr Hx Hg. pose proof (locals_running _ _ Hr) as Hrun0.
  apply settle_threads in Et0 as [[-> ->]|[Hne Et0]].
  - apply settle_retired in Hg as [(g0 & Hg0 & Hin)|(_ & Hd & _)]; [|congruence].
    apply Hin; [by right|].
    destruct (settle_locals r Hr) as [->|(r0 & Hr0 & Hr0r)].
    { apply reach_null in Hx as ->; [|apply E].
      apply (inv_ret_mem _ _ I) in Hg0 as [? ?]. congruence. }
    assert (reach m' r0 x) as Hr0x by (by eapply reach_trans).
    destruct Hr0 as [->|Hr0].
    + exfalso. apply (inv_ret_head _ _ I _ _ Hg0).
      eapply settle_reach_retired; eauto using acc_root, root_head.
    + apply (inv_ret_loc _ _ I t th r0 x g0); [done..| |done].
      eapply settle_reach_retired; eauto using acc_root, root_local.
  - apply settle_retired in Hg as [(g0 & Hg0 & Hin)|(_ & _ & Hin)]; [|by eapply Hin].
    apply Hin; [by left|]. apply (inv_ret_loc _ _ I t0 th0 r x g0); [done..| |done].
    eapply settle_reach_retired; eauto using acc_root, root_local.
Qed.

Lemma settle_not_retired x : retired s !! x = None → (∀ pr, tpc th ≠ Retire pr x) →
  retired s' !! x = None.
Proof.
  intros Hx Hr. destruct (retired s' !! x) as [g|] eqn:Hg; [|done].
  apply settle_retired in Hg as [(g0 & Hg0 & _)|((pr & ?) & _)]; [congruence|]. by destruct (Hr pr).
Qed.

Lemma settle_acc x : acc m' (roots s') x → x = 0 ∨ acc m' (roots s) x.
Proof.
  intros (r & Hr & Hx). destruct (settle_roots r Hr) as [->|Hr'].
  - left. apply reach_null in Hx; [done|apply E].
  - right. by eapply acc_reach.
Qed.

Lemma settle_priv t0 th0 : threads s' !! t0 = Some th0 → private th0 → private_inv s' th0.
Proof.
  intros Et0 Hp. apply settle_threads in Et0 as [[-> ->]|[Hne Et0]].
  - destruct Hp as [He Hpd]. destruct (Hpriv He Hpd) as (Hpd' & Hacc & n & En & Hd).
    destruct (inv_priv _ _ I t th Et) as (Hc & Hr & _); [done|].
    split; [done|]. split; [|split; [|by exists n]].
    + apply settle_not_retired; [done|]. intros pr Ep. by rewrite Ep in Hpd'.
    + intros [Hz|]%settle_acc; [|done]. cbn in Hz. rewrite Hz in En.
      pose proof (im_null _ _ _ (ev_inv _ _ _ _ _ E)). congruence.
  - destruct (inv_priv _ _ I t0 th0 Et0 Hp) as (Hc & Hr & Hacc & n & En & Hd).
    assert (new th0 ≠ 0) as Hn0 by congruence.
    assert (new th0 ≠ own) as Hno.
    { intros Hn. destruct Hown as [|[Hp' Hn']]; [congruence|].
      apply (inv_priv_ne _ _ I t0 t th0 th); try done. congruence. }
    split; [done|]. split; [|split].
    + apply settle_not_retired; [done|]. intros pr Ep.
      apply settle_retire in Ep as (Hl & _). apply Hacc. apply acc_root. by apply (root_local t th).
    + intros [Hz|(r & Hr' & Hx)]%settle_acc; [congruence|].
      destruct (ev_back _ _ _ _ _ E r (new th0)) as [Hx'|]; [by apply acc_root|done| |done].
      apply Hacc. by exists r.
    + exists n. split; [|done]. cbn. by rewrite (ev_rest _ _ _ _ _ E).
Qed.
Lemma settle_private : private th1 → private th.
Proof. intros [He Hp]. destruct (Hpriv He Hp) as (? & _). by split. Qed.
Lemma settle_priv_ne t0 t1 th0 th' : threads s' !! t0 = Some th0 → threads s' !! t1 = Some th' →
  private th0 → private th' → t0 ≠ t1 → new th0 ≠ new th'.
Proof.
  intros Et0 Et1 Hp0 Hp1 Hne.
  apply settle_threads in Et0 as [[-> ->]|[Hne0 Et0]];
    apply settle_threads in Et1 as [[-> ->]|[Hne1 Et1]]; [done|..].
  - apply settle_private in Hp0. by apply (inv_priv_ne _ _ I t t1 th th').
  - apply settle_private in Hp1. by apply (inv_priv_ne _ _ I t0 t th0 th).
  - by apply (inv_priv_ne _ _ I t0 t1 th0 th').
Qed.
Lemma settle_own_other t0 th0 x : threads s !! t0 = Some th0 → t0 ≠ t →
  owned (tpc th0) = Some x → owned p' ≠ Some x.
Proof.
  intros Et0 Hne Ho Ho'. destruct (Howned x Ho') as [Hx|(n & En & Hc)].
  - by apply Hne, (inv_own _ _ I t0 t th0 th x).
  - destruct (owned_marked _ _ _ _ _ I Et0 Ho) as (_ & q & _ & _ & n' & v & En' & _ & Hm & _).
    congruence.
Qed.
Lemma settle_own t0 t1 th0 th' x : threads s' !! t0 = Some th0 → threads s' !! t1 = Some th' →
  owned (tpc th0) = Some x → owned (tpc th') = Some x → t0 = t1.
Proof.
  intros Et0 Et1 Ho0 Ho1.
  apply settle_threads in Et0 as [[-> ->]|[Hne0 Et0]];
    apply settle_threads in Et1 as [[-> ->]|[Hne1 Et1]]; [done|..].
  - by destruct (settle_own_other t1 th' x).
  - by destruct (settle_own_other t0 th0 x).
  - by apply (inv_own _ _ I t0 t1 th0 th' x).
Qed.
Lemma settle_hint t0 th0 : threads s' !! t0 = Some th0 → running th0 = true → hint_inv s' th0.
Proof.
  intros Et0 Hr x Hx. assert (∃ th2, threads s !! t0 = Some th2 ∧ running th2 = true ∧ top th2 = top th0)
    as (th2 & Et2 & Hr2 & Etop).
  { apply settle_threads in Et0 as [[-> ->]|[Hne Et0]]; eauto. }
  rewrite <-Etop in *. destruct (Hhint t0 th2 x Et2 Hr2 Hx) as (n & En & Hc).
  exists n. split; [done|]. split; [done|].
  destruct (inv_hint _ _ I t0 th2 Et2 Hr2 x Hx) as (n0 & En0 & _ & Hk).
  destruct (ev_node _ _ _ _ _ E x n0) as (n' & En' & Hd & _); [|done|].
  { apply acc_root, (root_local t0 th2); [done|]. unfold locals, running in *.
    destruct (tpc th2); cbn; set_solver. }
  assert (n' = n) as -> by congruence. unfold nkey in *. by rewrite Hd.
Qed.

Lemma settle_inv : inv (s' :: tr) s'.
Proof.
  constructor.
  - change (head s') with (head s). change (mem s') with m'.
    eapply inv_mem_roots; [apply E|by left|apply settle_roots].
  - eauto.
  - intros s0 [->|Hs]%elem_of_cons; [done|]. apply (inv_clock _ _ I) in Hs. cbn. lia.
  - apply settle_ret_mem.
  - apply settle_ret_head.
  - apply settle_ret_loc.
  - apply settle_priv.
  - apply settle_priv_ne.
  - apply settle_own.
  - apply settle_hint.
  - intros t0 th0 Et0. apply settle_threads in Et0 as [[-> ->]|[Hne Et0]].
    + split; [|exact Hpc]. destruct (inv_pc _ _ I t th Et) as [Hb _]. cbn. lia.
    + destruct (inv_pc _ _ I t0 th0 Et0) as [Hb _]. split; [cbn; lia|].
      apply (pc_inv_stable tr s s' own E settle_head t0 th0 (tpc th0) H0); [|..|cbn; lia|].
      { by apply (inv_pc _ _ I). }
      { intros x Hx. apply acc_root. by apply (root_local t0 th0). }
      intros x Ho. apply settle_not_retired.
      * by destruct (owned_marked _ _ _ _ _ I Et0 Ho) as (_ & q & ? & _).
      * intros pr Ep. apply Hne. apply (inv_own _ _ I t0 t th0 th x); [done..|]. by rewrite Ep.
Qed.
End settle.
End threads.
