(* ===== verification/SortedListSteps.v ===== *)
(** * The steps of the lock-free sorted list keep its invariant

    For each access of [advance]: it does not fault, the invariant holds
    afterwards, the abstract map changes only where an operation takes effect,
    and an operation that returns has taken effect since it was called. *)

From S2P Require Import Prelude Ordering MarkedPtr SortedList SortedListMem SortedListInv.

(** Opens the definition of a step, whatever component it belongs to. *)
Ltac open_advance :=
  unfold advance, locate_step, insert_link, remove_victim, update_victim, remove_mark,
    update_mark, unlink_step.

Section steps.
Context {K V : Type} `{OrdLaws K} `{!EqDecision K, !Countable K}.
Local Notation node := (node K V).
Local Notation state := (state K V).
Local Notation thread := (thread K V).
Local Notation pc := (pc K V).
Implicit Types (s : state) (th : thread) (tr : list state).

(** ** The specification of the operations

    [nodes] is the memory when the operation returns: a search for a lower
    bound returns a position in it. *)
Definition spec (nodes : gmap Z node) (o : op K V) (m : gmap K V) (a : answer K V)
    (m' : gmap K V) : Prop :=
  match o, a with
  | Insert e _, At _ => m !! e.1 = None ∧ m' = <[e.1 := e.2]> m
  | Insert e _, Nothing => is_Some (m !! e.1) ∧ m' = m
  | Remove k _, Entry e => e.1 = k ∧ m !! k = Some e.2 ∧ m' = delete k m
  | Remove k _, Nothing => m !! k = None ∧ m' = m
  | Update e _, At _ => is_Some (m !! e.1) ∧ m' = <[e.1 := e.2]> m
  | Update e _, Nothing => m !! e.1 = None ∧ m' = m
  | Find k true _, Entry e => e.1 = k ∧ m !! k = Some e.2 ∧ m' = m
  | Find k true _, Nothing => m !! k = None ∧ m' = m
  | Find k false _, At p =>
      m' = m ∧ ∃ n, nodes !! pos_node p = Some n ∧ klt (nkey n) (Some k) ∧
        match nkey n with Some kp => is_Some (m !! kp) | None => True end ∧
        ∀ k', is_Some (m !! k') → klt (nkey n) (Some k') → le k k'
  | Find k false _, Nothing => m' = m ∧ ∀ k', is_Some (m !! k') → lt k' k
  | _, _ => False
  end.

(** The operation took effect once since time [i]: its answer and its change of
    the map are those of the specification at the step of its thread at which it
    took effect, or, if that step changed nothing, at some moment; and no other
    step at which it took effect changed the map. *)
Definition linearized tr (i t : nat) (nodes : gmap Z node) (o : op K V) (a : answer K V) : Prop :=
  ∃ s s', (s' = s ∧ moment tr i s ∨ transition tr i t s s') ∧
    spec nodes o (abs s) a (abs s') ∧
    ∀ u u', transition tr i t u u' → abs u' = abs u ∨ u = s ∧ u' = s'.

(** The answer is right for the map at a moment, which it leaves as it is. *)
Definition read_answer tr (i : nat) (nodes : gmap Z node) (o : op K V) (a : answer K V) : Prop :=
  ∃ s, moment tr i s ∧ spec nodes o (abs s) a (abs s).
(** The answer is that of the step at which the operation took effect. *)
Definition write_answer tr (i t : nat) (nodes : gmap Z node) (o : op K V) (a : answer K V) : Prop :=
  ∃ s s', transition tr i t s s' ∧ spec nodes o (abs s) a (abs s').

(** The change an operation makes when it succeeds. *)
Definition apply_op (o : op K V) (m : gmap K V) : gmap K V :=
  match o with
  | Insert e _ | Update e _ => <[e.1 := e.2]> m
  | Remove k _ => delete k m
  | Find _ _ _ => m
  end.

Definition outcome tr s s' (t : nat) th (p' : pc) : Prop :=
  (abs s' = abs s ∨
    pending (tpc th) = true ∧ pending p' = false ∧ abs s' = apply_op (top th) (abs s)) ∧
  (∀ a, p' = Done a →
    (pending (tpc th) = true ∧ abs s' = abs s ∧
     read_answer (s' :: tr) (born th) (mem s') (top th) a) ∨
    write_answer (s' :: tr) (born th) t (mem s') (top th) a) ∧
  (pending p' = true → pending (tpc th) = true).

Lemma with_mem_id s : with_mem s (mem s) = s.
Proof. by destruct s. Qed.

(** Looking at a node in reach. *)
Lemma get_node_ok s x n : mem s !! x = Some n → get_node s x = Ok n.
Proof. unfold get_node. by intros ->. Qed.
Lemma get_next_ok s x n : mem s !! x = Some n → get_next s x = Ok (next n).
Proof. unfold get_next. intros E. by rewrite (get_node_ok s x n). Qed.
Lemma get_data_ok s x n : mem s !! x = Some n → get_data s x = Ok (data n).
Proof. unfold get_data. intros E. by rewrite (get_node_ok s x n). Qed.
Lemma key_ok s x n k : mem s !! x = Some n → nkey n = Some k → key s x = Ok k.
Proof.
  unfold key, nkey. intros E Hk. rewrite (get_data_ok s x n) by done. simpl.
  destruct (data n); [by simplify_eq/=|done].
Qed.
Lemma set_next_ok s x n v : mem s !! x = Some n →
  set_next s x v = Ok (with_mem s (<[x := Node (data n) v]> (mem s))).
Proof. unfold set_next. intros E. by rewrite (get_node_ok s x n). Qed.
Lemma cas_next_ok s x n e v : mem s !! x = Some n →
  cas_next s x e v =
  if next n =? e then Ok (with_mem s (<[x := Node (data n) v]> (mem s)), None)
  else Ok (s, Some (next n)).
Proof.
  intros E. unfold cas_next. rewrite (get_next_ok s x n), (set_next_ok s x n) by done. done.
Qed.
Lemma cas_next_weak_ok b s x n e v : mem s !! x = Some n →
  cas_next_weak b s x e v =
  if negb b && (next n =? e) then Ok (with_mem s (<[x := Node (data n) v]> (mem s)), None)
  else Ok (s, Some (next n)).
Proof.
  intros E. unfold cas_next_weak. destruct b; simpl.
  - by rewrite (get_next_ok s x n).
  - by apply cas_next_ok.
Qed.

(** ** Gaps *)

Lemma same_spec (a b : K) : same a b = true ↔ a = b.
Proof. unfold same. rewrite <-cmp_eq. by destruct (cmp a b). Qed.
Lemma same_refl (a : K) : same a a = true.
Proof. by apply same_spec. Qed.

(** The key of the node at an address, if there is one. *)
Definition key_at (m : gmap Z node) (x : Z) : option K := m !! x ≫= nkey.

(** Between an unmarked node and its successor there is no key now. *)
Lemma gap_at tr i s R p np : moment tr i s → inv_mem (mem s) (head s) R →
  mem s !! p = Some np → reach (mem s) (head s) p → clean (next np) →
  gap tr i (nkey np) (key_at (mem s) (next np)).
Proof.
  intros Hm I Ep Hp Hc. exists s. split; [done|]. split.
  - intros k [v Hv] Hk. rewrite (abs_lookup s R) in Hv by done.
    destruct (holds_gap _ _ _ I p np Ep Hp Hc k v Hv Hk) as (nc & Ec & Hle).
    unfold key_at. rewrite Ec. simpl. split; [done|]. intros En. rewrite En in Hle.
    destruct (im_node _ _ _ I (head s) p) as (n' & En' & _ & _ & _ & _ & Hkn); [apply I|done| |].
    { intros ->. pose proof (im_null _ _ _ I). congruence. }
    assert (n' = np) as -> by congruence. rewrite unmask_clean in Hkn by done.
    specialize (Hkn nc Ec). destruct (marks_clean _ Hc) as (_ & _ & Hu). rewrite Hu, En in Hkn.
    by destruct (nkey np).
  - destruct (nkey np) as [k|] eqn:Ek; [|done]. unfold nkey in Ek.
    destruct (data np) as [[k' v]|] eqn:Ed; [|done]. simplify_eq/=. exists v.
    apply (abs_lookup s R); [done|]. by exists p, np.
Qed.

Lemma succ_known (m : gmap Z node) h R p np : inv_mem m h R → m !! p = Some np → reach m h p →
  clean (next np) → next np ≠ 0 →
  ∃ nc kc, m !! next np = Some nc ∧ nkey nc = Some kc ∧ reach m p (next np).
Proof.
  intros I Ep Hp Hc Hn. pose proof (im_root _ _ _ I) as Hh.
  assert (reach m p (next np)) as Hr.
  { rewrite <-(unmask_clean (next np)) by done. by apply reach_next. }
  destruct (im_node _ _ _ I h (next np)) as (nc & Ec & _); [done|by eapply reach_trans|done|].
  destruct (im_node _ _ _ I h p) as (n' & En' & _ & _ & _ & _ & Hkn); [done..| |].
  { intros ->. pose proof (im_null _ _ _ I). congruence. }
  assert (n' = np) as -> by congruence. rewrite unmask_clean in Hkn by done.
  specialize (Hkn nc Ec). destruct (marks_clean _ Hc) as (_ & _ & Hu). rewrite Hu in Hkn.
  exists nc. destruct (nkey nc) as [kc|]; [eauto|]. by destruct (nkey np).
Qed.

(** Where the traversal is after it moved to an unmarked node before the key. *)
Lemma arrive_inv tr s R t th p np raw : moment tr (born th) s →
  inv_mem (mem s) (head s) R → mem s !! p = Some np → reach (mem s) (head s) p →
  clean (next np) → klt (nkey np) (Some (op_key (top th))) → unmask raw = next np →
  pc_inv tr s t th (arrive p raw).
Proof.
  intros Hm I Ep Hp Hc Hk Hraw. unfold arrive. rewrite Hraw.
  pose proof (gap_at tr (born th) s R p np Hm I Ep Hp Hc) as Hg. unfold key_at in Hg.
  destruct (Z.eqb_spec (next np) 0) as [E0|Hn].
  - left. split; [done|]. exists np. rewrite E0, (im_null _ _ _ I) in Hg. auto.
  - destruct (succ_known _ _ _ p np I Ep Hp Hc Hn) as (nc & kc & Ec & Hkc & Hr).
    rewrite Ec in Hg. simpl in Hg. rewrite Hkc in Hg.
    exists np, kc. do 2 (split; [done|]). split; [by exists nc|]. split; [done|]. by intros _.
Qed.
Lemma arrive_locals p raw r : r ∈ plocals (arrive (K := K) (V := V) p raw) → r = p ∨ r = unmask raw.
Proof. unfold arrive. destruct (unmask raw =? 0); set_solver. Qed.
Lemma arrive_pending p raw : pending (arrive (K := K) (V := V) p raw) = true.
Proof. unfold arrive. by destruct (unmask raw =? 0). Qed.
Lemma arrive_owned p raw : owned (arrive (K := K) (V := V) p raw) = None.
Proof. unfold arrive. by destruct (unmask raw =? 0). Qed.

(** The abstract map from the entries. *)
Lemma abs_eq s s' R R' : inv_mem (mem s) (head s) R → inv_mem (mem s') (head s') R' →
  (∀ k v, holds (mem s') (head s') k v ↔ holds (mem s) (head s) k v) → abs s' = abs s.
Proof.
  intros I I' Hh. apply map_eq. intros k. apply option_eq. intros v.
  by rewrite (abs_lookup s R), (abs_lookup s' R').
Qed.

(** A key strictly inside a gap was absent. *)
Lemma gap_absent tr i kp kc k : gap tr i kp kc → klt kp (Some k) →
  (∀ c, kc = Some c → lt k c) → absent tr i k.
Proof.
  intros (s & Hm & Hg & _) Hk Hc. exists s. split; [done|].
  destruct (abs s !! k) as [v|] eqn:E; [|done]. exfalso.
  destruct (Hg k ltac:(eauto) Hk) as [Hle Hn]. destruct kc as [c|]; [|done].
  eapply klt_not_kle; [|done]. by apply Hc.
Qed.
Lemma absent_answer tr i nodes o : absent tr i (op_key o) →
  (∃ k pos, o = Remove k pos) ∨ (∃ e pos, o = Update e pos) ∨ (∃ k pos, o = Find k true pos) →
  read_answer tr i nodes o Nothing.
Proof.
  intros (s & Hm & Ha) Ho. exists s. split; [done|].
  destruct Ho as [(k & pos & ->)|[(e & pos & ->)|(k & pos & ->)]]; by split.
Qed.
Lemma read_answer_mono tr i nodes o a s : read_answer tr i nodes o a → read_answer (s :: tr) i nodes o a.
Proof. intros (s1 & ? & ?). exists s1. eauto using moment_mono. Qed.
Lemma write_answer_mono tr i t nodes o a s : write_answer tr i t nodes o a →
  write_answer (s :: tr) i t nodes o a.
Proof. intros (s1 & s2 & ? & ?). exists s1, s2. eauto using transition_mono. Qed.

Section step.
Context tr s (I : inv tr s) (t : nat) th (Et : threads s !! t = Some th).
Context (Hrun : running th = true) (b : bool).

(** The step is possible and has the properties above. *)
Definition progresses : Prop :=
  ∃ m' p', advance s th b = Ok (with_mem s m', p') ∧
    let s' := settle (with_mem s m') t th p' in
    inv (s' :: tr) s' ∧ outcome tr s s' t th p'.

Let Im : inv_mem (mem s) (head s) (roots s) := inv_m _ _ I.
Let H0 : mem s !! 0 = None := im_null _ _ _ Im.
Local Notation known := (acc (mem s) (roots s)).

Lemma pc_now : pc_inv tr s t th (tpc th).
Proof. by apply (inv_pc _ _ I). Qed.
Lemma moment_now : moment tr (born th) s.
Proof.
  destruct (inv_trace _ _ I) as [tr' ->]. split; [by left|]. by apply (inv_pc _ _ I t).
Qed.
Lemma known_local x : x ∈ locals th → known x.
Proof. intros. apply acc_root. by apply (root_local s t th). Qed.
Lemma known_head : known (head s).
Proof. apply acc_root. by left. Qed.
Lemma known_node x : known x → x ≠ 0 → ∃ n, mem s !! x = Some n ∧ node_ok (mem s) (head s) x n.
Proof. intros (r & Hr & Hx) Hx0. by eapply (im_node _ _ _ Im r x). Qed.
Lemma known_ok x n : known x → mem s !! x = Some n → node_ok (mem s) (head s) x n.
Proof.
  intros Hx En. destruct (known_node x Hx) as (n' & En' & Hok); [congruence|]. congruence.
Qed.
Lemma known_clean x : known x → clean x.
Proof. intros (r & Hr & Hx). by eapply (im_clean _ _ _ Im r x). Qed.
Lemma known_live x n : known x → mem s !! x = Some n → clean (next n) → reach (mem s) (head s) x.
Proof. intros (r & Hr & Hx) En Hc. by eapply (im_unmarked _ _ _ Im r x). Qed.
Lemma known_next x n : known x → mem s !! x = Some n → known (unmask (next n)).
Proof. intros Hx En. eapply acc_reach; [done|]. by apply reach_next. Qed.

(** A step that writes nothing. *)
Lemma plain_read_step p' :
  advance s th b = Ok (s, p') →
  pc_inv tr s t th p' →
  (∀ r, r ∈ plocals p' → ∃ r0, (r0 = head s ∨ r0 ∈ locals th) ∧ reach (mem s) r0 r) →
  (∀ x, owned p' = Some x → owned (tpc th) = Some x) →
  (pending p' = true → pending (tpc th) = true) →
  (∀ pr x, tpc th = Retire pr x → ∃ a, p' = Done a) →
  (∀ a, p' = Done a → pending (tpc th) = true ∧ read_answer tr (born th) (mem s) (top th) a ∨
    write_answer tr (born th) t (mem s) (top th) a) →
  progresses.
Proof.
  intros Ha Hpc Hloc Hown Hpend Hret Hlin. exists (mem s), p'. rewrite with_mem_id.
  split; [done|]. set (s' := settle s t th p').
  assert (evolve (mem s) (head s) (roots s) (mem s) 0) as E by (by apply evolve_refl).
  split.
  - pose proof (settle_inv tr s I t th Et Hrun (mem s) p' 0) as Hi.
    rewrite with_mem_id in Hi. apply Hi; try done.
    + by left.
    + intros r Hr. right. by apply Hloc.
    + destruct (running (Thread (top th) (new th) (born th) p')) eqn:Hr.
      2: { by destruct p'. }
      apply (pc_inv_stable tr s s' 0 E eq_refl); [done..| | |].
      * intros x Hx. assert (x ∈ hint (top th) ∨ x ∈ plocals p') as [Hh|Hp].
        { destruct p'; cbn in Hx; set_solver. }
        -- apply known_local. unfold locals, running in *. destruct (tpc th); cbn; set_solver.
        -- destruct (Hloc x Hp) as (r0 & [->|Hr0] & Hx0); eapply acc_reach; try done.
           ++ apply known_head.
           ++ by apply known_local.
      * destruct (inv_pc _ _ I t th Et) as [Hb _]. cbn. lia.
      * intros x Hx. apply Hown in Hx.
        destruct (owned_marked _ _ _ _ _ I Et Hx) as (_ & q & Hn & _).
        unfold s', settle. cbn. by destruct p'.
    + intros He Hp. specialize (Hpend Hp). split; [done|].
      by destruct (inv_priv _ _ I t th Et) as (_ & _ & ? & ?); [|auto].
    + intros x Hx. left. by apply Hown.
    + intros pr x Hx. split; [done|]. by eapply Hret.
    + intros t0 th0 x Et0 Hr0 Hx.
      destruct (inv_hint _ _ I t0 th0 Et0 Hr0 x Hx) as (n & ? & ? & _). eauto.
  - split; [by left|]. split; [|done]. intros a Ea.
    destruct (Hlin a Ea) as [[? ?]|?]; [left|right; by apply write_answer_mono].
    split; [done|]. split; [done|]. by apply read_answer_mono.
Qed.

(** ** The search *)

Lemma start_live : ∃ n, mem s !! start s th = Some n ∧ clean (next n) ∧
  klt (nkey n) (Some (op_key (top th))) ∧ reach (mem s) (head s) (start s th) ∧
  (start s th = head s ∨ start s th ∈ locals th).
Proof.
  unfold start. destruct (op_start (top th)) as [h|] eqn:Eh.
  - assert (unmask h ∈ hint (top th)) as Hin by (unfold hint; rewrite Eh; set_solver).
    destruct (inv_hint _ _ I t th Et Hrun _ Hin) as (n & En & Hc & Hk).
    assert (unmask h ∈ locals th) as Hl.
    { unfold locals, running in *. destruct (tpc th); cbn; set_solver. }
    exists n. repeat split; try done; [|by right].
    apply (known_live _ n); [by apply known_local|done..].
  - destruct (im_head _ _ _ Im) as (n & En & Hd & Hc). exists n. split; [done|]. split; [done|].
    unfold nkey. rewrite Hd. simpl. repeat split; [apply reach_refl|by left].
Qed.

Lemma own_reach x n : x ∈ locals th → mem s !! x = Some n →
  ∃ r0, (r0 = head s ∨ r0 ∈ locals th) ∧ reach (mem s) r0 (unmask (next n)).
Proof. intros Hx En. exists x. split; [by right|]. by apply reach_next. Qed.
Lemma own_local x : x ∈ locals th →
  ∃ r0, (r0 = head s ∨ r0 ∈ locals th) ∧ reach (mem s) r0 x.
Proof. intros Hx. exists x. split; [by right|]. apply reach_refl. Qed.

(** Moving on to an unmarked node before the key. *)
Lemma read_arrive p np : advance s th b = Ok (s, arrive p (next np)) →
  pending (tpc th) = true → (p = head s ∨ p ∈ locals th) →
  mem s !! p = Some np → clean (next np) → klt (nkey np) (Some (op_key (top th))) → progresses.
Proof.
  intros Ha Hpd Hp Ep Hc Hk. apply (plain_read_step (arrive p (next np)) Ha).
  - apply (arrive_inv tr s (roots s) t th p np); try done.
    + apply moment_now.
    + apply (known_live p np); [|done..]. destruct Hp as [->|?]; [apply known_head|by apply known_local].
    + by apply unmask_clean.
  - intros r [->| ->]%arrive_locals; exists p; (split; [done|]); [apply reach_refl|by apply reach_next].
  - intros x Hx. by rewrite arrive_owned in Hx.
  - done.
  - intros pr x Ex. by rewrite Ex in Hpd.
  - intros a Hd. unfold arrive in Hd. by destruct (_ =? 0).
Qed.

(** Starting the search again. *)
Lemma read_restart : advance s th b = Ok (s, LoadFirst (start s th)) →
  pending (tpc th) = true → progresses.
Proof.
  intros Ha Hpd. destruct start_live as (n & _ & _ & _ & _ & Hs).
  apply (plain_read_step _ Ha); try done.
  - intros r Hr. apply list_elem_of_singleton in Hr as ->. exists (start s th).
    split; [done|apply reach_refl].
  - intros pr x Ex. by rewrite Ex in Hpd.
Qed.

Lemma load_first p : tpc th = LoadFirst p → progresses.
Proof.
  intros Ep. pose proof pc_now as Hpc. rewrite Ep in Hpc. cbn in Hpc. subst p.
  destruct start_live as (n & En & Hc & Hk & Hr & Hs).
  apply (read_arrive (start s th) n); try done.
  - open_advance. rewrite Ep. by rewrite (get_next_ok s _ n).
  - by rewrite Ep.
Qed.

Lemma load_next p c : tpc th = LoadNext p c → progresses.
Proof.
  intros Ep. pose proof pc_now as Hpc. rewrite Ep in Hpc. pose proof Hpc as (np & kc & _ & _ & (nc & Ec & Hkc) & _).
  assert (p ∈ locals th ∧ c ∈ locals th) as [Hpl Hcl].
  { unfold locals. rewrite Ep. cbn. set_solver. }
  assert (∃ e, data nc = Some e ∧ e.1 = kc) as ([k v] & Hd & <-).
  { unfold nkey in Hkc. destruct (data nc); simplify_eq/=. eauto. }
  assert (∀ r, r = p ∨ r = c → ∃ r0, (r0 = head s ∨ r0 ∈ locals th) ∧ reach (mem s) r0 r) as Hown.
  { intros r [->| ->]; by apply own_local. }
  destruct (is_any_marked (next nc)) eqn:Em.
  { apply (plain_read_step (Snip p c (next nc))); try done.
    - open_advance. rewrite Ep, (get_next_ok s c nc) by done. simpl. by rewrite Em.
    - split; [done|]. exists nc. split; [done|]. split; [done|].
      rewrite <-any_marked_clean, Em. done.
    - cbn [plocals]. intros r Hr. apply Hown. set_solver.
    - by rewrite Ep.
    - intros pr x Ex. congruence. }
  assert (clean (next nc)) as Hcn by (by apply any_marked_clean).
  destruct (ltb k (op_key (top th))) eqn:Ek.
  - apply (read_arrive c nc); try done.
    + open_advance. rewrite Ep, (get_next_ok s c nc) by done. simpl.
      rewrite Em, (get_data_ok s c nc), Hd by done. simpl. rewrite Ek.
      by change (as_ptr (next nc)) with (unmask (next nc)); rewrite unmask_clean.
    + by rewrite Ep.
    + by right.
    + rewrite Hkc. by apply ltb_spec.
  - apply (plain_read_step (Recheck p c)); try done.
    + open_advance. rewrite Ep, (get_next_ok s c nc) by done. simpl.
      rewrite Em, (get_data_ok s c nc), Hd by done. simpl. by rewrite Ek.
    + split; [done|]. exists k. split; [by exists nc|]. by apply ltb_ge.
    + cbn [plocals]. intros r Hr. apply Hown. set_solver.
    + by rewrite Ep.
    + intros pr x Ex. congruence.
Qed.

Lemma recheck p c : tpc th = Recheck p c → progresses.
Proof.
  intros Ep. pose proof pc_now as Hpc. rewrite Ep in Hpc.
  destruct Hpc as (Hg & kc & (nc & Ec & Hkc) & Hle).
  assert (p ∈ locals th ∧ c ∈ locals th) as [Hpl Hcl].
  { unfold locals. rewrite Ep. cbn. set_solver. }
  destruct (is_any_marked (next nc)) eqn:Em.
  { apply read_restart; [|by rewrite Ep].
    open_advance. rewrite Ep, (get_next_ok s c nc) by done. simpl. by rewrite Em. }
  assert (clean (next nc)) as Hcn by (by apply any_marked_clean).
  apply (plain_read_step (Located p c)); try done.
  - open_advance. rewrite Ep, (get_next_ok s c nc) by done. simpl. by rewrite Em.
  - right. split; [done|]. unfold nkey in Hkc.
    destruct (data nc) as [[k v]|] eqn:Hd; simplify_eq/=. exists nc, (kc, v).
    do 3 (split; [done|]). intros <-. split.
    + exists s. split; [apply moment_now|].
      apply (abs_lookup s (roots s)); [done|]. exists c, nc. split; [|done].
      apply (known_live c nc); [by apply known_local|done..].
    + intros Hdel. destruct (marks_clean _ Hcn) as (_ & ? & _). congruence.
  - cbn [plocals]. intros r Hr. apply own_local. set_solver.
  - by rewrite Ep.
  - intros pr x Ex. congruence.
Qed.

(** ** Unlinking the successor of a node *)

Section snip.
Context (pr x : Z) (np nx : node).
Context (Hpr : pr ∈ locals th) (Hx : x ∈ locals th) (Epr : mem s !! pr = Some np).
Context (Ex : mem s !! x = Some nx) (Hnx : next np = x) (Hm : ¬ clean (next nx)).
Let m' : gmap Z node := snipped_mem (mem s) pr np nx.

Lemma snip_clean : clean (next np).
Proof. rewrite Hnx. by apply known_clean, known_local. Qed.
Lemma snip_pred : reach (mem s) (head s) pr.
Proof. apply (known_live pr np); [by apply known_local|done|apply snip_clean]. Qed.
Lemma snip_evolve : evolve (mem s) (head s) (roots s) m' 0.
Proof. by apply (evolve_snip _ _ _ Im pr np Epr snip_pred snip_clean x nx). Qed.

Lemma snip_hint t0 th0 h : threads s !! t0 = Some th0 → running th0 = true →
  h ∈ hint (top th0) → ∃ n, m' !! h = Some n ∧ clean (next n).
Proof.
  intros Et0 Hr0 Hh. destruct (inv_hint _ _ I t0 th0 Et0 Hr0 h Hh) as (n & En & Hc & _).
  unfold m', snipped_mem. destruct (decide (h = pr)) as [->|Hne].
  - rewrite lookup_insert_eq. eexists. split; [done|]. apply clean_unmask.
  - rewrite lookup_insert_ne by done. eauto.
Qed.

Lemma snip_step p' : advance s th b = Ok (with_mem s m', p') →
  (let s' := settle (with_mem s m') t th p' in pc_inv (s' :: tr) s' t th p') →
  (∀ r, r ∈ plocals p' → r ∈ locals th ∨ r = unmask (next nx)) →
  (∀ y, owned p' = Some y → owned (tpc th) = Some y) →
  (pending p' = pending (tpc th)) → (∀ a, p' ≠ Done a) → (∀ pr' y, tpc th ≠ Retire pr' y) →
  progresses.
Proof.
  intros Ha Hpc Hloc Hown Hpend Hdone Hret. exists m', p'. split; [done|].
  set (s' := settle (with_mem s m') t th p') in *. pose proof snip_evolve as E. split.
  - apply (settle_inv tr s I t th Et Hrun m' p' 0 E); try done.
    + by left.
    + intros r Hr. right. destruct (Hloc r Hr) as [Hr'| ->].
      * exists r. split; [by right|apply reach_refl].
      * exists pr. split; [by right|]. apply rtc_once, snipped_goes.
    + intros He Hp. rewrite Hpend in Hp. split; [done|].
      destruct (inv_priv _ _ I t th Et) as (_ & _ & Hacc & n & En & Hd); [done|].
      assert (new th ≠ 0) as Hn0 by congruence. split.
      * intros (r & Hr & Hrn). apply Hacc. exists r. split; [done|].
        by destruct (ev_back _ _ _ _ _ E r (new th)) as [|]; [apply acc_root| | |].
      * exists n. split; [|done]. by rewrite (ev_rest _ _ _ _ _ E).
    + intros y Hy. left. by apply Hown.
    + intros pr' y Hy. by destruct (Hret pr' y).
    + apply snip_hint.
  - split; [left|split].
    + apply (abs_eq s s' (roots s) (roots s)); [done|apply E|]. intros k v.
      by apply (holds_snip _ _ pr np Epr snip_clean x nx).
    + intros a Ea. by destruct (Hdone a).
    + by rewrite Hpend.
Qed.
End snip.

Lemma snip p c n : tpc th = Snip p c n → progresses.
Proof.
  intros Ep. pose proof pc_now as Hpc. rewrite Ep in Hpc.
  destruct Hpc as [(np & kc & Epn & Hk & _) (nc & Ec & Hn & Hm)].
  assert (p ∈ locals th ∧ c ∈ locals th) as [Hpl Hcl].
  { unfold locals. rewrite Ep. cbn. set_solver. }
  destruct (Z.eqb_spec (next np) c) as [Enp|Hne].
  - subst n. pose proof (snip_evolve p c np nc Hpl Hcl Epn Ec Enp Hm) as E.
    assert (clean (next np)) as Hcn by (rewrite Enp; by apply known_clean, known_local).
    apply (snip_step p c np nc Hpl Hcl Epn Ec Enp Hm (arrive p (as_ptr (next nc)))).
    + open_advance. rewrite Ep, (cas_next_ok s p np) by done.
      by rewrite (proj2 (Z.eqb_eq _ _) Enp).
    + apply (arrive_inv _ _ (roots s) t th p (Node (data np) (unmask (next nc)))).
      * split; [by left|]. destruct (inv_pc _ _ I t th Et) as [Hb _]. cbn. lia.
      * apply E.
      * cbn. unfold snipped_mem. by rewrite lookup_insert_eq.
      * eapply (reach_snip (mem s) p np Epn Hcn c nc Enp Ec Hm).
        -- intros ->. congruence.
        -- apply (known_live p np); [by apply known_local|done..].
      * apply clean_unmask.
      * exact Hk.
      * apply unmask_idemp.
    + intros r [->| ->]%arrive_locals; [by left|]. right. apply unmask_idemp.
    + intros y Hy. by rewrite arrive_owned in Hy.
    + by rewrite arrive_pending, Ep.
    + intros a Ha. unfold arrive in Ha. by destruct (_ =? 0).
    + congruence.
  - apply read_restart; [|by rewrite Ep]. open_advance. rewrite Ep, (cas_next_ok s p np) by done.
    by rewrite (proj2 (Z.eqb_neq _ _) Hne).
Qed.

(** ** The decision after the search *)

(** An operation that fails drops its node, which nobody else can reach. *)
Lemma drop_step : advance s th b = drop_new s th → private th →
  (∀ nodes, read_answer tr (born th) nodes (top th) Nothing) → progresses.
Proof.
  intros Ha Hp Hlin. destruct (inv_priv _ _ I t th Et Hp) as (Hc & Hr & Hacc & n & En & Hd).
  assert (new th ≠ 0) as Hn0 by congruence.
  set (m' := delete (new th) (mem s)).
  assert (evolve (mem s) (head s) (roots s) m' (new th)) as E.
  { apply evolve_agree; try done. intros x Hx. unfold m'. by rewrite lookup_delete_ne. }
  exists m', (Done Nothing). split; [done|]. set (s' := settle _ _ _ _). split.
  - apply (settle_inv tr s I t th Et Hrun m' (Done Nothing) (new th) E); try done.
    + by right.
    + cbn. set_solver.
    + intros pr x Ex. destruct Hp as [_ Hp]. by rewrite Ex in Hp.
    + intros t0 th0 x Et0 Hr0 Hx.
      destruct (inv_hint _ _ I t0 th0 Et0 Hr0 x Hx) as (nx & Ex & Hcx & _).
      exists nx. split; [|done]. unfold m'. rewrite lookup_delete_ne; [done|]. intros <-. apply Hacc.
      apply acc_root, (root_local s t0 th0); [done|]. unfold locals, running in *.
      destruct (tpc th0); cbn; set_solver.
  - assert (abs s' = abs s) as Habs.
    { apply (abs_eq s s' (roots s) (roots s)); [done|apply E|]. intros k v.
      apply (holds_agree (mem s) _ m' (new th)).
      * intros x Hx. unfold m'. by rewrite lookup_delete_ne.
      * intros Hn. apply Hacc. exists (head s). split; [by left|done]. }
    split; [by left|split; [|done]]. intros a [= <-]. left. split; [by destruct Hp|].
    split; [done|]. by apply read_answer_mono.
Qed.

(** Going on after the search, or returning without a change. *)
Lemma located_read p c p' : tpc th = Located p c → advance s th b = Ok (s, p') →
  pc_inv tr s t th p' → (plocals p' = [p; c] ∨ ∃ a, p' = Done a) → owned p' = None →
  (∀ a, p' = Done a → read_answer tr (born th) (mem s) (top th) a) → progresses.
Proof.
  intros Ep Ha Hpc Hloc Hown Hlin. apply (plain_read_step p'); try done.
  - intros r Hr. apply own_local. unfold locals. rewrite Ep. cbn.
    destruct Hloc as [Hloc|[a ->]]; [rewrite Hloc in Hr|]; set_solver.
  - intros x Hx. congruence.
  - by rewrite Ep.
  - intros pr x Ex. congruence.
  - intros a Ea. left. split; [by rewrite Ep|]. by apply Hlin.
Qed.

Section located.
Context (p c : Z) (Ep : tpc th = Located p c).
Let k : K := op_key (top th).

Lemma located_pred : p ∈ locals th ∧ c ∈ locals th ∧ is_any_marked p = false.
Proof.
  assert (p ∈ locals th ∧ c ∈ locals th) as [Hp Hc].
  { unfold locals. rewrite Ep. cbn. set_solver. }
  split; [done|]. split; [done|]. by apply any_marked_clean, known_clean, known_local.
Qed.
Lemma located_inv : location tr s (born th) k p c.
Proof. pose proof pc_now as Hpc. by rewrite Ep in Hpc. Qed.

(** The two results of the search. *)
Lemma located_cases :
  (c = 0 ∧ absent tr (born th) k ∧ before s p k) ∨
  (c ≠ 0 ∧ before s p k ∧ leads s p c ∧ ∃ n e, mem s !! c = Some n ∧ data n = Some e ∧
    (same e.1 k = true ∧ e.1 = k ∧ present tr (born th) k e.2 ∧
      (is_delete_marked (next n) = true → absent tr (born th) k) ∨
     same e.1 k = false ∧ lt k e.1 ∧ absent tr (born th) k)).
Proof.
  destruct located_inv as [(-> & np & Enp & Hk & Hg)|(Hg & n & e & En & Hd & Hle & Hpr)].
  - left. split; [done|]. split; [|by exists np]. by eapply gap_absent.
  - right. split; [congruence|]. pose proof Hg as (np & kc & Enp & Hk & (nc & Enc & Hkc) & Hgap & Hl).
    split; [by exists np|]. split; [done|]. exists n, e. split; [done|]. split; [done|].
    destruct (same e.1 k) eqn:Es.
    + left. apply same_spec in Es. destruct (Hpr Es). auto.
    + right. apply le_lt_eq in Hle as [Hlt|Heq]; [|rewrite <-Heq, same_refl in Es; done].
      split; [done|]. split; [done|]. eapply gap_absent; [done..|]. intros c' [= <-].
      assert (kc = e.1) as ->; [|done]. unfold nkey in Hkc. assert (nc = n) as -> by congruence.
      rewrite Hd in Hkc. by injection Hkc.
Qed.

Lemma located_key n (e : K * V) : mem s !! c = Some n → data n = Some e → key s c = Ok e.1.
Proof. intros En Hd. apply (key_ok s c n); [done|]. unfold nkey. by rewrite Hd. Qed.

Lemma located_insert e pos : top th = Insert e pos → progresses.
Proof.
  intros Eo. destruct located_pred as (Hpl & Hcl & Hpm).
  assert (k = e.1) as Ek by (unfold k; by rewrite Eo).
  assert (advance s th b = located s th p c) as Ha by (open_advance; by rewrite Ep).
  unfold located, insert_located, remove_located, update_located, find_located in Ha. rewrite Hpm, Eo in Ha.
  destruct located_cases as [(-> & Habs & Hb)|(Hc0 & Hb & Hl & n & e' & En & Hd & Hcase)].
  - apply (located_read p 0 (Link p 0)); try done; [|by left].
    split; [eauto|]. split; [done|by left].
  - rewrite (proj2 (Z.eqb_neq c 0) Hc0), (located_key n e') in Ha by done. cbn in Ha.
    rewrite <-Ek in Ha. destruct Hcase as [(Es & Ek' & Hpr & _)|(Es & Hlt & Habs)]; rewrite Es in Ha.
    + apply drop_step; [done| |].
      * split; [rewrite Eo; by eexists|by rewrite Ep].
      * intros nodes. destruct Hpr as (s0 & Hm & Hs0). exists s0. split; [done|].
        rewrite Eo. cbn. rewrite <-Ek. eauto.
    + apply (located_read p c (Link p c)); try done; [|by left].
      split; [eauto|]. split; [done|]. right. exists e'.1. split; [|done]. exists n.
      unfold nkey. by rewrite Hd.
Qed.

Lemma located_remove k0 pos : top th = Remove k0 pos → progresses.
Proof.
  intros Eo. destruct located_pred as (Hpl & Hcl & Hpm).
  assert (k = k0) as Ek by (unfold k; by rewrite Eo).
  assert (advance s th b = located s th p c) as Ha by (open_advance; by rewrite Ep).
  unfold located, insert_located, remove_located, update_located, find_located in Ha. rewrite Hpm, Eo in Ha.
  destruct located_cases as [(-> & Habs & Hb)|(Hc0 & Hb & Hl & n & e' & En & Hd & Hcase)].
  - apply (located_read p 0 (Done Nothing)); try done; [by right; eauto|].
    intros a [= <-]. apply absent_answer; [done|]. left. eauto.
  - rewrite (proj2 (Z.eqb_neq c 0) Hc0), (located_key n e') in Ha by done. cbn in Ha.
    rewrite <-Ek in Ha. destruct Hcase as [(Es & Ek' & Hpr & Hdel)|(Es & Hlt & Habs)]; rewrite Es in Ha.
    + apply (located_read p c (LoadVictim p c)); try done; [|by left].
      split; [by rewrite Eo|]. split; [done|]. split; [done|]. exists n, e'.2. split; [done|].
      split; [|done]. rewrite Hd. destruct e'. cbn in *. by subst.
    + apply (located_read p c (Done Nothing)); try done; [by right; eauto|].
      intros a [= <-]. apply absent_answer; [done|]. left. eauto.
Qed.

Lemma located_update e pos : top th = Update e pos → progresses.
Proof.
  intros Eo. destruct located_pred as (Hpl & Hcl & Hpm).
  assert (k = e.1) as Ek by (unfold k; by rewrite Eo).
  assert (advance s th b = located s th p c) as Ha by (open_advance; by rewrite Ep).
  unfold located, insert_located, remove_located, update_located, find_located in Ha. rewrite Hpm, Eo in Ha.
  assert (private th) as Hpriv by (split; [rewrite Eo; by eexists|by rewrite Ep]).
  assert (absent tr (born th) k → ∀ nodes, read_answer tr (born th) nodes (top th) Nothing) as Hno.
  { intros Habs nodes. apply absent_answer; [done|]. right. left. eauto. }
  destruct located_cases as [(-> & Habs & Hb)|(Hc0 & Hb & Hl & n & e' & En & Hd & Hcase)].
  - apply drop_step; auto.
  - rewrite (proj2 (Z.eqb_neq c 0) Hc0), (located_key n e') in Ha by done. cbn in Ha.
    rewrite <-Ek in Ha. destruct Hcase as [(Es & Ek' & Hpr & Hdel)|(Es & Hlt & Habs)]; rewrite Es in Ha.
    + apply (located_read p c (LoadVictim p c)); try done; [|by left].
      split; [by rewrite Eo|]. split; [done|]. split; [done|]. exists n, e'.2. split; [done|].
      split; [|done]. rewrite Hd. destruct e'. cbn in *. by subst.
    + apply drop_step; auto.
Qed.

Lemma located_find k0 is_match pos : top th = Find k0 is_match pos → progresses.
Proof.
  intros Eo. destruct located_pred as (Hpl & Hcl & Hpm).
  assert (k = k0) as Ek by (unfold k; by rewrite Eo).
  assert (advance s th b = located s th p c) as Ha by (open_advance; by rewrite Ep).
  unfold located, insert_located, remove_located, update_located, find_located in Ha. rewrite Hpm, Eo in Ha.
  destruct is_match.
  - destruct located_cases as [(-> & Habs & Hb)|(Hc0 & Hb & Hl & n & e' & En & Hd & Hcase)].
    + apply (located_read p 0 (Done Nothing)); try done; [by right; eauto|].
      intros a [= <-]. apply absent_answer; [done|]. right. right. eauto.
    + rewrite (proj2 (Z.eqb_neq c 0) Hc0), (located_key n e') in Ha by done. cbn in Ha.
      rewrite <-Ek in Ha. destruct Hcase as [(Es & Ek' & Hpr & Hdel)|(Es & Hlt & Habs)]; rewrite Es in Ha.
      * rewrite (get_data_ok s c n), Hd in Ha by done. cbn in Ha.
        apply (located_read p c (Done (Entry e'))); try done; [by right; eauto|].
        intros a [= <-]. destruct Hpr as (s0 & Hm & Hs0). exists s0. split; [done|].
        rewrite Eo. cbn. by rewrite Ek', <-Ek.
      * apply (located_read p c (Done Nothing)); try done; [by right; eauto|].
        intros a [= <-]. apply absent_answer; [done|]. right. right. eauto.
  - destruct located_inv as [(-> & np & Enp & Hk & s0 & Hm & Hg & Hlive)|(Hg & n & e & En & Hd & Hle & _)].
    + apply (located_read p 0 (Done Nothing)); try done; [by right; eauto|].
      intros a [= <-]. exists s0. split; [done|]. rewrite Eo. split; [done|].
      intros k' Hk'. destruct (nkey np) as [kp|] eqn:Ekp.
      * destruct (lt_or_le kp k') as [Hlt|Hle]; [by destruct (Hg k' Hk' Hlt)|].
        eapply le_lt_trans; [done|]. by rewrite <-Ek.
      * by destruct (Hg k' Hk' Logic.I).
    + destruct Hg as (np & kc & Enp & Hk & (nc & Enc & Hkc) & (s0 & Hm & Hg & Hlive) & Hl).
      assert (c ≠ 0) as Hc0 by congruence. rewrite (proj2 (Z.eqb_neq c 0) Hc0) in Ha. cbn in Ha.
      apply (located_read p c (Done (At (Position p p)))); try done; [by right; eauto|].
      intros a [= <-]. exists s0. split; [done|]. rewrite Eo. split; [done|].
      exists np. split; [done|]. split; [by rewrite <-Ek|]. split; [done|].
      intros k' Hk' Hlt. destruct (Hg k' Hk' Hlt) as [Hle' _].
      assert (kc = e.1) as ->.
      { unfold nkey in Hkc. assert (nc = n) as -> by congruence. rewrite Hd in Hkc. by injection Hkc. }
      rewrite <-Ek. eapply le_trans; [done|]. apply le_lt_eq.
      destruct Hle' as [|[= ->]]; auto.
Qed.

Lemma located_ok : progresses.
Proof.
  assert (∃ o, top th = o) as [[e pos|k0 pos|e pos|k0 im pos] Eo] by eauto;
    eauto using located_insert, located_remove, located_update, located_find.
Qed.
End located.

(** ** The operations' own accesses *)

(** A retry starts the search again: a live hint before the key is no
    duplicate. *)
Lemma retry_ok m1 : (∀ x, x ∈ hint (top th) → m1 !! x = mem s !! x) →
  retry (with_mem s m1) th = Ok (with_mem s m1, LoadFirst (start s th)).
Proof.
  intros Hm. unfold retry, start. cbn [head with_mem].
  assert (∃ o, top th = o) as [o Eo] by eauto. rewrite Eo.
  destruct o as [e pos|k0 pos|e pos|k0 im pos]; try done.
  destruct (op_start (Insert e pos)) as [h|] eqn:Eh; [|done].
  assert (unmask h ∈ hint (top th)) as Hin by (unfold hint; rewrite Eo, Eh; set_solver).
  destruct (inv_hint _ _ I t th Et Hrun _ Hin) as (n & En & Hc & Hk).
  rewrite (get_data_ok _ _ n) by (cbn; by rewrite Hm). cbn.
  unfold nkey in Hk. destruct (data n) as [[k v]|]; [|done]. rewrite Eo in Hk. cbn in Hk.
  destruct (same k e.1) eqn:Es; [|done]. apply same_spec in Es. subst. by apply lt_irrefl in Hk.
Qed.

Lemma hint_local x : x ∈ hint (top th) → x ∈ locals th.
Proof. intros Hx. unfold locals, running in *. destruct (tpc th); cbn; set_solver. Qed.

(** A failed attempt to publish: only the private node was written. *)
Lemma private_step nn v : private th → mem s !! new th = Some nn →
  (let m1 := <[new th := Node (data nn) v]> (mem s) in
   advance s th b = retry (with_mem s m1) th) → progresses.
Proof.
  intros Hp En Ha. destruct (inv_priv _ _ I t th Et Hp) as (Hc & Hr & Hacc & n & En' & Hd).
  assert (n = nn) as -> by congruence.
  assert (new th ≠ 0) as Hn0 by congruence. set (m1 := <[_ := _]> _) in Ha. cbn in Ha.
  assert (∀ x, x ≠ new th → m1 !! x = mem s !! x) as Hag.
  { intros x Hx. unfold m1. by rewrite lookup_insert_ne. }
  assert (∀ x, known x → x ≠ new th) as Hne by (intros x Hx ->; done).
  rewrite retry_ok in Ha.
  2: { intros x Hx. apply Hag, Hne, known_local. by apply hint_local. }
  assert (evolve (mem s) (head s) (roots s) m1 (new th)) as E by (by apply evolve_agree).
  exists m1, (LoadFirst (start s th)). split; [done|]. set (s' := settle _ _ _ _). split.
  - apply (settle_inv tr s I t th Et Hrun m1 (LoadFirst (start s th)) (new th) E); try done.
    + by right.
    + intros r Hr'. cbn in Hr'. apply list_elem_of_singleton in Hr' as ->.
      destruct start_live as (_ & _ & _ & _ & _ & Hs). right. exists (start s th).
      split; [done|apply reach_refl].
    + intros He _. destruct Hp as [_ Hp]. split; [done|]. split.
      * intros (r & Hrr & Hrn). apply Hacc. exists r. split; [done|].
        apply (reach_agree (mem s) m1 (new th)); [done| |done].
        intros Hn. apply Hacc. by exists r.
      * eexists. unfold m1. rewrite lookup_insert_eq. split; [done|]. done.
    + intros pr x Ex. destruct Hp as [_ Hp]. by rewrite Ex in Hp.
    + intros t0 th0 x Et0 Hr0 Hx.
      destruct (inv_hint _ _ I t0 th0 Et0 Hr0 x Hx) as (nx & Ex & Hcx & _).
      exists nx. split; [|done]. rewrite Hag; [done|]. apply Hne.
      apply acc_root, (root_local s t0 th0); [done|]. unfold locals, running in *.
      destruct (tpc th0); cbn; set_solver.
  - split; [left|split; [done|]].
    + apply (abs_eq s s' (roots s) (roots s)); [done|apply E|]. intros k w.
      apply (holds_agree (mem s) _ m1 (new th)); [done|].
      intros Hn. apply Hacc. exists (head s). split; [by left|done].
    + intros _. by destruct Hp.
Qed.

Section publish_step.
Context (pr : Z) (np nn : node) (e : K * V) (v : Z) (p' : pc).
Context (Hpr : pr ∈ locals th) (Epr : mem s !! pr = Some np) (Hc : clean (next np)).
Context (Hpv : private th) (En : mem s !! new th = Some nn) (Hdn : data nn = Some e).
Context (Hv : v = new th ∧ klt (nkey np) (nkey nn) ∨ v = new th + 2 ∧ nkey np = nkey nn).
Context (Hkn : ∀ nc, mem s !! next np = Some nc → klt (nkey nn) (nkey nc)).
Let m' : gmap Z node := linked_mem (mem s) pr np (new th) nn v.

Lemma publish_live : reach (mem s) (head s) pr.
Proof. apply (known_live pr np); [by apply known_local|done..]. Qed.
Lemma publish_evolve : evolve (mem s) (head s) (roots s) m' (new th).
Proof.
  destruct (inv_priv _ _ I t th Et Hpv) as (Hcn & _ & Hacc & _).
  apply (evolve_publish _ _ _ Im pr np Epr publish_live Hc); try done. by rewrite Hdn.
Qed.
Lemma publish_abs s' : mem s' = m' → head s' = head s →
  (v = new th → abs s !! e.1 = None) → abs s' = <[e.1 := e.2]> (abs s).
Proof.
  intros Em Eh Hnew. destruct (inv_priv _ _ I t th Et Hpv) as (Hcn & _ & Hacc & _).
  assert (∀ r, roots s r → ¬ reach (mem s) r (new th)) as Hun.
  { intros r Hr Hn. apply Hacc. by exists r. }
  assert (nkey nn = Some e.1) as Hkey by (unfold nkey; by rewrite Hdn).
  apply map_eq. intros k. apply option_eq. intros w.
  rewrite (abs_lookup s' (roots s)), Em, Eh by (rewrite Em, Eh; apply publish_evolve).
  unfold m'. rewrite (holds_publish _ _ _ Im pr np Epr publish_live Hc _ nn k v w En Hcn Hun Hv).
  rewrite <-(abs_lookup s (roots s) k w Im), Hdn, Hkey, lookup_insert_Some. split.
  - intros [[Hk Hor]|[= ->]]; [|by left]. right. split; [|done]. intros <-.
    destruct Hor as [Hvn|]; [|done]. rewrite Hnew in Hk by done. done.
  - intros [[<- <-]|[Hne Hk]]; [right; by destruct e|]. left. split; [done|]. right. congruence.
Qed.
Lemma publish_step :
  advance s th b = Ok (with_mem s m', p') → pending p' = false →
  (let s' := settle (with_mem s m') t th p' in
    pc_inv (s' :: tr) s' t th p' ∧
    (abs s' = <[e.1 := e.2]> (abs s) → ∀ a, p' = Done a →
      write_answer (s' :: tr) (born th) t (mem s') (top th) a)) →
  (∀ r, r ∈ plocals p' → r ∈ locals th) →
  (∀ x, owned p' = Some x → x = pr) →
  (∀ t0 th0, v ≠ new th → threads s !! t0 = Some th0 → running th0 = true → pr ∉ hint (top th0)) →
  (v = new th → abs s !! e.1 = None) → progresses.
Proof.
  intros Ha Hpd [Hpc Hlin] Hloc Hown Hhint Hnew. pose proof publish_evolve as E.
  destruct (inv_priv _ _ I t th Et Hpv) as (Hcn & Hr & Hacc & n & En' & Hd).
  exists m', p'. split; [done|]. set (s' := settle _ _ _ _) in *.
  assert (abs s' = <[e.1 := e.2]> (abs s)) as Habs by (by apply publish_abs).
  split.
  - apply (settle_inv tr s I t th Et Hrun m' p' (new th) E); try done.
    + by right.
    + intros r Hr'. right. exists r. split; [right; by apply Hloc|apply reach_refl].
    + congruence.
    + intros x Hx. right. rewrite (Hown x Hx). eauto.
    + intros pr' x Ex. destruct Hpv as [_ Hp]. by rewrite Ex in Hp.
    + intros t0 th0 x Et0 Hr0 Hx.
      destruct (inv_hint _ _ I t0 th0 Et0 Hr0 x Hx) as (nx & Ex & Hcx & _).
      assert (x ≠ new th) as Hxn.
      { intros ->. apply Hacc, acc_root, (root_local s t0 th0); [done|].
        unfold locals, running in *. destruct (tpc th0); cbn; set_solver. }
      destruct (decide (x = pr)) as [->|Hne].
      * unfold m'. rewrite linked_p. eexists. split; [done|]. cbn.
        destruct Hv as [[-> _]|[Hv2 _]]; [done|]. exfalso.
        apply (Hhint t0 th0); try done. lia.
      * unfold m'. rewrite linked_ne by done. eauto.
  - split; [right|split; [intros a Ea; right; by apply Hlin|congruence]].
    destruct Hpv as [_ Hp]. split; [done|]. split; [done|]. rewrite Habs.
    assert (entry (top th) = Some e) as He by congruence.
    by destruct (top th); simplify_eq/=.
Qed.
End publish_step.

Lemma transition_now m' p' : advance s th b = Ok (with_mem s m', p') →
  pending (tpc th) = true → pending p' = false →
  let s' := settle (with_mem s m') t th p' in transition (s' :: tr) (born th) t s s'.
Proof.
  intros Ha Hp Hp' s'. destruct (inv_trace _ _ I) as [tr' ->]. split; [by exists [], tr'|].
  split; [by apply (inv_pc _ _ I t)|]. split.
  - exists b. unfold step. rewrite Et. cbn. by rewrite Ha.
  - unfold pending_at. rewrite Et. split; [done|]. cbn. by rewrite lookup_insert_eq.
Qed.

Lemma abs_now k v c n : known c → mem s !! c = Some n → clean (next n) → data n = Some (k, v) →
  abs s !! k = Some v.
Proof.
  intros Hc En Hcn Hd. apply (abs_lookup s (roots s)); [done|]. exists c, n.
  split; [|done]. by apply (known_live c n).
Qed.

Lemma link p c : tpc th = Link p c → progresses.
Proof.
  intros Ep. pose proof pc_now as Hpc. rewrite Ep in Hpc.
  destruct Hpc as ((e & pos & Eo) & (np & Enp & Hk) & Hc).
  assert (op_key (top th) = e.1) as Ek by (by rewrite Eo). rewrite Ek in *.
  assert (p ∈ locals th ∧ c ∈ locals th) as [Hpl Hcl].
  { unfold locals. rewrite Ep. cbn. set_solver. }
  assert (private th) as Hpv by (split; [rewrite Eo; by eexists|by rewrite Ep]).
  destruct (inv_priv _ _ I t th Et Hpv) as (Hcn & Hr & Hacc & nn & En & Hd). rewrite Eo in Hd.
  assert (p ≠ new th) as Hpn by (intros ->; by apply Hacc, known_local).
  assert (nkey nn = Some e.1) as Hkey by (unfold nkey; by rewrite Hd).
  set (m1 := <[new th := Node (data nn) c]> (mem s)).
  assert (advance s th b = '(s, r) ← cas_next_weak b (with_mem s m1) p c (new th);
    match r with
    | None => Ok (s, Done (At (Position p (new th)))) | Some _ => retry s th end) as Ha.
  { open_advance. rewrite Ep. by rewrite (set_next_ok s (new th) nn). }
  rewrite (cas_next_weak_ok _ _ _ np) in Ha by (cbn; unfold m1; by rewrite lookup_insert_ne).
  destruct (negb b && (next np =? c)) eqn:Ec; cbn in Ha.
  - apply andb_true_iff in Ec as [_ Ec%Z.eqb_eq].
    assert (clean (next np)) as Hcp by (rewrite Ec; by apply known_clean, known_local).
    assert (∀ nc, mem s !! next np = Some nc → klt (nkey nn) (nkey nc)) as Hkn.
    { intros nc Enc. rewrite Ec in Enc. destruct Hc as [->|(kc & (n' & En' & Hkc) & Hlt)]; [congruence|].
      assert (n' = nc) as -> by congruence. by rewrite Hkc, Hkey. }
    assert (abs s !! e.1 = None) as Hnone.
    { destruct (abs s !! e.1) as [w|] eqn:Ew; [|done]. exfalso.
      rewrite (abs_lookup s (roots s)) in Ew by done.
      destruct (holds_gap _ _ _ Im p np Enp (known_live p np (known_local p Hpl) Enp Hcp) Hcp e.1 w Ew Hk)
        as (nc & Enc & Hle).
      eapply klt_not_kle; [|done]. rewrite <-Hkey. by apply Hkn. }
    apply (publish_step p np nn e (new th) (Done (At (Position p (new th))))); try done.
    + left. by rewrite Hkey.
    + rewrite Ha. unfold linked_mem, m1. by rewrite Ec.
    + split; [done|]. intros Habs a [= <-].
      eexists s, _. split.
      { apply transition_now; [|by rewrite Ep|done]. rewrite Ha. unfold linked_mem, m1. by rewrite Ec. }
      rewrite Eo. cbn [spec]. by rewrite Habs.
    + cbn. set_solver.
  - apply (private_step nn c Hpv En). exact Ha.
Qed.

Lemma next_forms c n : known c → mem s !! c = Some n →
  clean (next n) ∨ is_delete_marked (next n) = true ∧ is_any_marked (next n) = true ∨
  is_delete_marked (next n) = false ∧ is_update_marked (next n) = true ∧ is_any_marked (next n) = true.
Proof.
  intros Hc En. destruct (known_ok c n Hc En) as (_ & _ & _ & Hf & _).
  pose proof (clean_unmask (next n)) as Hcl. destruct Hf as [Hf|[Hf|Hf]].
  - left. by rewrite Hf.
  - right. left. rewrite Hf. by destruct (marks_add_1 _ Hcl) as (_ & -> & -> & _).
  - right. right. rewrite Hf. by destruct (marks_add_2 _ Hcl) as (_ & -> & -> & ->).
Qed.

Lemma load_victim p c : tpc th = LoadVictim p c → progresses.
Proof.
  intros Ep. pose proof pc_now as Hpc. rewrite Ep in Hpc. destruct Hpc as (Hch & Hv).
  pose proof Hv as (Hb & Hl & n & v & En & Hd & Hdel).
  assert (p ∈ locals th ∧ c ∈ locals th) as [Hpl Hcl].
  { unfold locals. rewrite Ep. cbn. set_solver. }
  assert (retry s th = Ok (s, LoadFirst (start s th))) as Hretry.
  { pose proof (retry_ok (mem s)) as Hr. rewrite with_mem_id in Hr. by apply Hr. }
  assert (∀ p', advance s th b = Ok (s, p') → p' = LoadFirst (start s th) → progresses) as Hres.
  { intros p' Ha ->. apply read_restart; [done|by rewrite Ep]. }
  assert (advance s th b = Ok (s, Mark p c (next n)) → clean (next n) → progresses) as Hgo.
  { intros Ha Hcn. apply (plain_read_step (Mark p c (next n))); try done.
    - intros r Hr. apply own_local. cbn in Hr. set_solver.
    - by rewrite Ep.
    - intros pr x Ex. congruence. }
  assert (∃ o, top th = o) as [o Eo] by eauto.
  destruct (next_forms c n) as [Hcn|[[Hf1 Hf2]|(Hf1 & Hf2 & Hf3)]]; [by apply known_local|done|..].
  - apply Hgo; [|done]. open_advance. rewrite Ep, (get_next_ok s c n) by done. cbn.
    destruct (marks_clean _ Hcn) as (-> & -> & ->). rewrite Eo. by destruct o.
  - destruct o as [| k0 pos| |]; try (by rewrite Eo in Hch).
    + apply (plain_read_step (Done Nothing)); try done.
      * open_advance. rewrite Ep, (get_next_ok s c n) by done. cbn. by rewrite Eo, Hf2, Hf1.
      * cbn. set_solver.
      * eauto.
      * intros a [= <-]. left. split; [by rewrite Ep|]. apply absent_answer; [by apply Hdel|]. left. eauto.
    + eapply Hres; [|done]. open_advance. rewrite Ep, (get_next_ok s c n) by done. cbn.
      by rewrite Eo, Hf1.
  - destruct o as [| k0 pos| |]; try (by rewrite Eo in Hch);
      (eapply Hres; [|done]); open_advance; rewrite Ep, (get_next_ok s c n) by done; cbn.
    + by rewrite Eo, Hf3, Hf1.
    + by rewrite Eo, Hf1, Hf2.
Qed.

(** Marking a node is allowed as long as no running operation uses it as its
    hint. *)
Section mark.
Context (p c n : Z) (Ep : tpc th = Mark p c n).
Context (Hadm : ∀ t0 th0, threads s !! t0 = Some th0 → running th0 = true → c ∉ hint (top th0)).

Lemma mark_facts : changes (top th) ∧ p ∈ locals th ∧ c ∈ locals th ∧ clean n ∧
  seeks s c p ∧ ∃ nc v, mem s !! c = Some nc ∧ data nc = Some (op_key (top th), v).
Proof.
  pose proof pc_now as Hpc. rewrite Ep in Hpc.
  destruct Hpc as (Hch & ((np & Enp & Hk) & Hl & nc & v & Enc & Hd & _) & Hcn).
  assert (p ∈ locals th ∧ c ∈ locals th) as [Hpl Hcl].
  { unfold locals. rewrite Ep. cbn. set_solver. }
  do 4 (split; [done|]). split; [|eauto 10]. split; [done|]. split; [|congruence].
  intros ->. assert (np = nc) as -> by congruence. unfold nkey in Hk. rewrite Hd in Hk.
  by apply klt_irrefl in Hk.
Qed.

Lemma mark_remove k0 pos : top th = Remove k0 pos → progresses.
Proof.
  intros Eo. destruct mark_facts as (Hch & Hpl & Hcl & Hcn & Hl & nc & v & Enc & Hd).
  assert (op_key (top th) = k0) as Ek by (by rewrite Eo). rewrite Ek in *.
  assert (advance s th b = '(s, r) ← cas_next_weak b s c n (with_mark n true);
    match r with
    | None => Ok (s, Unlink (Unlinking c (as_ptr n) (op_start (top th))) p)
    | Some _ => retry s th end) as Ha by (open_advance; by rewrite Ep, Eo).
  rewrite (cas_next_weak_ok _ _ _ nc) in Ha by done.
  destruct (negb b && (next nc =? n)) eqn:Ec; cbn [mbind result_bind] in Ha.
  2: { pose proof (retry_ok (mem s)) as Hr. rewrite with_mem_id in Hr.
       rewrite Hr in Ha by done. apply read_restart; [done|by rewrite Ep]. }
  apply andb_true_iff in Ec as [_ Ec%Z.eqb_eq]. subst n.
  pose proof (known_local c Hcl) as Hck. pose proof (known_live c nc Hck Enc Hcn) as Hreach.
  set (m' := marked_mem (mem s) c nc).
  set (p' := Unlink (Unlinking c (as_ptr (next nc)) (op_start (top th))) p) in Ha.
  assert (advance s th b = Ok (with_mem s m', p')) as Ha'.
  { rewrite Ha. unfold m', marked_mem. by rewrite with_mark_clean. }
  exists m', p'. split; [done|]. set (s' := settle _ _ _ _).
  assert (evolve (mem s) (head s) (roots s) m' 0) as E by (by eapply evolve_mark).
  assert (abs s' = delete k0 (abs s)) as Habs.
  { apply map_eq. intros k. apply option_eq. intros w.
    rewrite (abs_lookup s' (roots s)) by apply E.
    change (mem s') with m'. change (head s') with (head s). unfold m'.
    rewrite (holds_mark _ _ _ Im c nc Enc Hreach Hcn k w _ Hd), lookup_delete_Some.
    rewrite (abs_lookup s (roots s)) by done. cbn. naive_solver. }
  assert (pc_inv (s' :: tr) s' t th p') as Hpc.
  { assert (seeks s' c p) as Hseek by (eapply (seeks_stable s s' 0 E eq_refl); eauto using known_local; done).
    split; [|exact Hseek]. split; [|by right]. split.
    - cbn. destruct (retired s !! c) as [g|] eqn:Eg; [|done]. by apply (inv_ret_head _ _ I) in Eg.
    - split; [done|]. destruct (marks_add_1 (next nc) Hcn) as (Hu & Ham & _).
      exists (Node (data nc) (next nc + 1)), v. change (mem s') with m'. unfold m', marked_mem.
      cbn [marked]. rewrite lookup_insert_eq. split; [done|]. cbn [data next]. split; [by rewrite Ek|].
      split; [by rewrite <-any_marked_clean, Ham|]. split; [by rewrite Hu; cbn; symmetry; apply unmask_clean|].
      exists s, s'. split; [apply transition_now; [done|by rewrite Ep|done]|]. rewrite Ek.
      split; [|by rewrite Eo].
      by apply (abs_now k0 v c nc). }
  split.
  - apply (settle_inv tr s I t th Et Hrun m' p' 0 E); try done.
    + by left.
    + intros r Hr. right. exists r. split; [right|apply reach_refl]. cbn in Hr. set_solver.
    + intros x [= <-]. right. eauto.
    + intros pr x Ex. congruence.
    + intros t0 th0 x Et0 Hr0 Hx. destruct (inv_hint _ _ I t0 th0 Et0 Hr0 x Hx) as (nx & Ex & Hcx & _).
      exists nx. split; [|done]. unfold m', marked_mem. rewrite lookup_insert_ne; [done|].
      intros <-. by apply (Hadm t0 th0).
  - split; [right|split; [done|by rewrite Ep]]. rewrite Ep, Eo. auto.
Qed.

Lemma mark_update e pos : top th = Update e pos → progresses.
Proof.
  intros Eo. destruct mark_facts as (Hch & Hpl & Hcl & Hcn & Hl & nc & v & Enc & Hd).
  assert (op_key (top th) = e.1) as Ek by (by rewrite Eo). rewrite Ek in *.
  assert (private th) as Hpv by (split; [rewrite Eo; by eexists|by rewrite Ep]).
  destruct (inv_priv _ _ I t th Et Hpv) as (Hcnew & Hr & Hacc & nn & En & Hdn). rewrite Eo in Hdn.
  assert (c ≠ new th) as Hcnn by (intros ->; by apply Hacc, known_local).
  assert (nkey nn = Some e.1) as Hkey by (unfold nkey; by rewrite Hdn).
  set (m1 := <[new th := Node (data nn) (as_ptr n)]> (mem s)).
  assert (advance s th b =
    '(s, r) ← cas_next_weak b (with_mem s m1) c n (with_update_mark (new th) true);
    match r with
    | None => Ok (s, Unlink (Unlinking c (new th) (op_start (top th))) p)
    | Some _ => retry s th end) as Ha.
  { open_advance. rewrite Ep, Eo. by rewrite (set_next_ok s (new th) nn). }
  rewrite (cas_next_weak_ok _ _ _ nc) in Ha by (cbn; unfold m1; by rewrite lookup_insert_ne).
  destruct (negb b && (next nc =? n)) eqn:Ec; cbn [mbind result_bind] in Ha.
  2: { apply (private_step nn (as_ptr n) Hpv En). exact Ha. }
  apply andb_true_iff in Ec as [_ Ec%Z.eqb_eq]. subst n.
  pose proof (known_local c Hcl) as Hck. pose proof (known_live c nc Hck Enc Hcn) as Hreach.
  assert (nkey nc = Some e.1) as Hkc by (unfold nkey; by rewrite Hd).
  assert (∀ nd, mem s !! next nc = Some nd → klt (nkey nn) (nkey nd)) as Hkn.
  { intros nd End. rewrite Hkey, <-Hkc. destruct (known_ok c nc Hck Enc) as (_ & _ & _ & _ & Hk).
    rewrite unmask_clean in Hk by done. specialize (Hk nd End).
    by destruct (marks_clean _ Hcn) as (_ & _ & Hu); rewrite Hu in Hk. }
  assert (with_update_mark (new th) true = new th + 2) as Hmk by (by apply with_update_mark_clean).
  assert (nkey nc = nkey nn) as Hkk by congruence.
  set (m' := linked_mem (mem s) c nc (new th) nn (new th + 2)).
  set (p' := Unlink (Unlinking c (new th) (op_start (top th))) p) in Ha.
  assert (advance s th b = Ok (with_mem s m', p')) as Ha'.
  { rewrite Ha, Hmk. unfold m', linked_mem, m1. change (as_ptr (next nc)) with (unmask (next nc)).
    by rewrite unmask_clean. }
  assert (evolve (mem s) (head s) (roots s) m' (new th)) as E.
  { eapply (publish_evolve c nc nn e); eauto. }
  apply (publish_step c nc nn e (new th + 2) p'); try done.
  - right. done.
  - split; [|done]. set (s' := settle _ _ _ _).
    assert (seeks s' c p) as Hseek.
    { eapply (seeks_stable s s' (new th) E eq_refl); eauto using known_local; done. }
    split; [|exact Hseek]. split; [|by right]. split.
    + cbn. destruct (retired s !! c) as [g|] eqn:Eg; [|done]. by apply (inv_ret_head _ _ I) in Eg.
    + split; [done|]. destruct (marks_add_2 (new th) Hcnew) as (Hu & Ham & _).
      exists (Node (data nc) (new th + 2)), v. change (mem s') with m'. unfold m'.
      cbn [marked]. rewrite linked_p. split; [done|]. cbn [data next]. split; [by rewrite Ek|].
      split; [by rewrite <-any_marked_clean, Ham|]. split; [done|].
      exists s, s'. split; [apply transition_now; [done|by rewrite Ep|done]|]. rewrite Ek.
      split; [by apply (abs_now e.1 v c nc)|]. rewrite Eo.
      apply (publish_abs c nc nn e (new th + 2)); try done; [by right|]. lia.
  - cbn. set_solver.
  - intros x [= <-]. done.
  - intros t0 th0 _. apply Hadm.
  - lia.
Qed.

Lemma mark_ok : progresses.
Proof.
  destruct mark_facts as (Hch & _). assert (∃ o, top th = o) as [o Eo] by eauto.
  rewrite Eo in Hch. destruct o; try done; eauto using mark_remove, mark_update.
Qed.
End mark.

(** ** Unlinking the marked node *)

Lemma succ_keyed a na : known a → mem s !! a = Some na → unmask (next na) ≠ 0 →
  ∃ nq kq, mem s !! unmask (next na) = Some nq ∧ nkey nq = Some kq.
Proof.
  intros Ha En Hq. pose proof (known_next a na Ha En) as Hk.
  destruct (known_node _ Hk Hq) as (nq & Enq & _). exists nq.
  destruct (known_ok a na Ha En) as (_ & Hdh & _ & _ & Hkey). specialize (Hkey nq Enq).
  destruct (nkey nq) as [kq|]; [eauto|]. exfalso.
  destruct (is_update_marked (next na)) eqn:Eu; [|by destruct (nkey na)].
  assert (a = head s) as ->.
  { apply Hdh. unfold nkey in Hkey. destruct (data na); [discriminate Hkey|done]. }
  destruct (im_head _ _ _ Im) as (nh & Enh & _ & Hch).
  assert (nh = na) as -> by congruence. destruct (marks_clean _ Hch) as (_ & _ & ?). congruence.
Qed.

Section unlink.
Context (u : unlinking) (Ho : owned (tpc th) = Some (marked u)) (Hu : unlinks tr s t th u).
Local Notation M := (marked u).
Local Notation unlinked := (¬ reach (mem s) (head s) M).

Lemma unlink_node : M ∈ locals th ∧ ∃ n v, mem s !! M = Some n ∧
  data n = Some (op_key (top th), v) ∧ ¬ clean (next n) ∧ unmask (next n) = replacement u.
Proof.
  split; [by apply (owned_marked tr s t th)|].
  destruct Hu as [(_ & _ & n & v & En & Hd & Hm & Hq & _) _]. eauto 10.
Qed.
Lemma unlink_key : key s M = Ok (op_key (top th)).
Proof.
  destruct unlink_node as (_ & n & v & En & Hd & _). apply (key_ok s M n); [done|].
  unfold nkey. by rewrite Hd.
Qed.
Lemma seeks_head : seeks s M (head s).
Proof.
  destruct (im_head _ _ _ Im) as (n & En & Hd & Hc). split; [by intros ?|].
  destruct unlink_node as (_ & nM & v & EnM & _ & Hm & _). split; [|congruence].
  intros Heq. rewrite Heq in En. congruence.
Qed.
Lemma seeks_node a : a ∈ locals th → seeks s M a → ∃ na, mem s !! a = Some na.
Proof.
  intros Ha (_ & _ & Ha0). destruct (known_node a (known_local a Ha) Ha0) as (na & ? & _). eauto.
Qed.
Lemma seeks_next a na : seeks s M a → mem s !! a = Some na → leads s (unmask (next na)) M.
Proof. intros (Hl & Hne & _) En Hr. eapply reach_inv; [by apply Hl|done..]. Qed.
Lemma unlinked_null : leads s 0 M → unlinked.
Proof.
  intros Hl Hr. apply Hl, reach_null in Hr; [|done].
  destruct unlink_node as (_ & n & v & En & _). congruence.
Qed.
Lemma unlinked_past q nq kq : leads s q M → known q → mem s !! q = Some nq → nkey nq = Some kq →
  lt (op_key (top th)) kq → unlinked.
Proof.
  intros Hl (r & Hr & Hq) En Hk Hlt Hreach. apply Hl in Hreach.
  destruct unlink_node as (_ & n & v & EnM & Hd & _).
  pose proof (reach_kle _ _ _ Im r q M nq n Hr Hq Hreach En EnM) as Hle.
  unfold nkey in Hle at 2. rewrite Hd, Hk in Hle.
  by apply (klt_not_kle (Some (op_key (top th))) (Some kq)).
Qed.
(** A node of the list before the key finds the marked node. *)
Lemma seeks_live a na : known a → mem s !! a = Some na → clean (next na) →
  klt (nkey na) (Some (op_key (top th))) → seeks s M a.
Proof.
  intros Ha En Hc Hk. destruct unlink_node as (_ & n & v & EnM & Hd & Hm & _).
  assert (nkey n = Some (op_key (top th))) as HkM by (unfold nkey; by rewrite Hd).
  split; [|split; congruence]. intros Hr.
  apply (reach_before _ _ _ Im (head s) a M na n); try done; [by left|by apply (known_live a na)|].
  by rewrite HkM.
Qed.

Lemma unlink_read p' : advance s th b = Ok (s, p') → pc_inv tr s t th p' →
  (∀ r, r ∈ plocals p' → ∃ r0, (r0 = head s ∨ r0 ∈ locals th) ∧ reach (mem s) r0 r) →
  owned p' = Some M → (∀ pr x, tpc th ≠ Retire pr x) → progresses.
Proof.
  intros Ha Hpc Hloc Hown Hret. apply (plain_read_step p'); try done.
  - intros x Hx. congruence.
  - intros Hp. by destruct p'.
  - intros pr x Ex. by destruct (Hret pr x).
  - intros a ->. done.
Qed.

Lemma unlink_arrive_ok st pr np : advance s th b = Ok (s, unlink_arrive u st pr (next np)) →
  pr ∈ locals th ∨ pr = head s → mem s !! pr = Some np → seeks s M pr → seeks s M st →
  st ∈ locals th → (∀ pr x, tpc th ≠ Retire pr x) → progresses.
Proof.
  intros Ha Hpr Epr Hsp Hst Hstl Hret. destruct unlink_node as (HMl & _).
  assert (known pr) as Hpk by (destruct Hpr as [?| ->]; [by apply known_local|apply known_head]).
  pose proof (seeks_next pr np Hsp Epr) as Hl.
  assert (∃ r0, (r0 = head s ∨ r0 ∈ locals th) ∧ reach (mem s) r0 pr) as Hpo.
  { exists pr. split; [naive_solver|apply reach_refl]. }
  assert (∃ r0, (r0 = head s ∨ r0 ∈ locals th) ∧ reach (mem s) r0 (unmask (next np))) as Hqo.
  { destruct Hpo as (r0 & Hr0 & Hr). exists r0. split; [done|].
    eapply reach_trans; [done|]. by apply reach_next. }
  unfold unlink_arrive in Ha.
  destruct (Z.eqb_spec (unmask (next np)) 0) as [E0|Hq0].
  - apply (unlink_read _ Ha); try done.
    + split; [destruct Hu; eauto|]. apply unlinked_null. by rewrite <-E0.
    + cbn. intros r Hr. rewrite !elem_of_cons, elem_of_nil in Hr.
      destruct Hr as [->|[->|[]]]; [done|by apply own_local].
  - destruct (Z.eqb_spec (unmask (next np)) M) as [EM|HqM].
    + apply (unlink_read _ Ha); try done. cbn. intros r Hr.
      rewrite !elem_of_cons, elem_of_nil in Hr.
      destruct Hr as [->|[->|[]]]; [by apply own_local|done].
    + apply (unlink_read _ Ha); try done.
      * destruct (succ_keyed pr np Hpk Epr Hq0) as (nq & kq & Enq & Hkq).
        do 4 (split; [done|]). exists kq. by exists nq.
      * cbn. intros r Hr. rewrite !elem_of_cons, elem_of_nil in Hr.
        destruct Hr as [->|[->|[->|[->|[]]]]]; try done; by apply own_local.
Qed.

Lemma unlinks_from_head : unlinks tr s t th (from_head u).
Proof. destruct Hu as [Hm _]. split; [done|by left]. Qed.

(** Going on from a node that finds the marked node. *)
Lemma unlink_go u' st pr : advance s th b = Ok (s, UnlinkFirst u' st pr) →
  u' = u ∨ u' = from_head u →
  st = head s ∨ st ∈ locals th → pr = head s ∨ pr ∈ locals th →
  seeks s M st → seeks s M pr → (∀ pr x, tpc th ≠ Retire pr x) → progresses.
Proof.
  intros Ha Hu' Hst Hpr Hs Hp Hret. destruct unlink_node as (HMl & _).
  assert (marked u' = M) as EM by (by destruct Hu' as [->| ->]).
  apply (unlink_read _ Ha); try done.
  - cbn [pc_inv]. rewrite EM. split; [|done]. destruct Hu' as [->| ->]; [done|apply unlinks_from_head].
  - cbn. rewrite EM. intros r Hr. rewrite !elem_of_cons, elem_of_nil in Hr.
    exists r. split; [naive_solver|apply reach_refl].
  - cbn. by rewrite EM.
Qed.
Lemma unlink_head u' : advance s th b = Ok (s, UnlinkFirst u' (head s) (head s)) →
  u' = u ∨ u' = from_head u → (∀ pr x, tpc th ≠ Retire pr x) → progresses.
Proof. intros Ha Hu' Hret. apply (unlink_go u' _ _ Ha); auto using seeks_head. Qed.

(** The marked node is out of the list. *)
Lemma unlink_done pr : advance s th b = Ok (s, Retire pr M) → pr ∈ locals th → unlinked →
  (∀ pr x, tpc th ≠ Retire pr x) → progresses.
Proof.
  intros Ha Hpr Hn Hret. destruct unlink_node as (HMl & _). apply (unlink_read _ Ha); try done.
  - split; [destruct Hu; eauto|done].
  - cbn. intros r Hr. rewrite !elem_of_cons, elem_of_nil in Hr.
    destruct Hr as [->|[->|[]]]; by apply own_local.
Qed.

Lemma unlink_from_ok : advance s th b = Ok (s, unlink_from s u) →
  (∀ pr x, tpc th ≠ Retire pr x) → progresses.
Proof.
  intros Ha Hret. unfold unlink_from in Ha. destruct (from u) as [h|] eqn:Eh.
  2: { apply (unlink_head u Ha); auto. }
  destruct (Z.eqb_spec (unmask h) M) as [EM|HM].
  { apply (unlink_head _ Ha); auto. }
  assert (unmask h ∈ hint (top th)) as Hin.
  { destruct Hu as [_ [Hf|Hf]]; [congruence|]. unfold hint. rewrite <-Hf, Eh. set_solver. }
  apply (unlink_read _ Ha); try done. cbn. intros r Hr. rewrite !elem_of_cons, elem_of_nil in Hr.
  destruct unlink_node as (HMl & _). destruct Hr as [->|[->|[]]]; apply own_local; auto using hint_local.
Qed.

Lemma unlink_ok p : tpc th = Unlink u p → progresses.
Proof.
  intros Ep. pose proof pc_now as Hpc. rewrite Ep in Hpc. destruct Hpc as [_ Hs].
  destruct unlink_node as (HMl & nM & v & EnM & Hd & Hm & Hq).
  assert (p ∈ locals th) as Hpl by (unfold locals; rewrite Ep; cbn; set_solver).
  assert (∀ pr x, tpc th ≠ Retire pr x) as Hret by congruence.
  destruct (seeks_node p Hpl Hs) as (np & Enp).
  assert (advance s th b = '(s, r) ← cas_next s p M (replacement u);
    match r with
    | None => Ok (s, Retire p M)
    | Some actual =>
        unlinked ← already_unlinked s u (unmask actual);
        Ok (s, if unlinked : bool then Retire p M else unlink_from s u)
    end) as Ha by (open_advance; by rewrite Ep).
  rewrite (cas_next_ok s p np) in Ha by done.
  destruct (Z.eqb_spec (next np) M) as [EM|HM]; cbn [mbind result_bind] in Ha.
  - assert (clean (next np)) as Hcn by (rewrite EM; by apply known_clean, known_local).
    pose proof (known_live p np (known_local p Hpl) Enp Hcn) as Hreach.
    pose proof (snip_evolve p M np nM Hpl HMl Enp EnM EM Hm) as E.
    apply (snip_step p M np nM Hpl HMl Enp EnM EM Hm (Retire p M)); try done.
    + rewrite Ha. unfold snipped_mem. by rewrite Hq.
    + set (s' := settle (with_mem s (snipped_mem (mem s) p np nM)) t th (Retire p M)).
      split; [exists (replacement u)|].
      * apply (marked_node_stable tr s s' 0 E); [by apply known_local| |by destruct Hu].
        destruct Hu as [[Hr _] _]. exact Hr.
      * by apply (snip_unlinked _ _ _ Im p np Enp Hreach Hcn M nM).
    + cbn. set_solver.
    + cbn. intros y [= <-]. done.
    + by rewrite Ep.
  - pose proof (seeks_next p np Hs Enp) as Hl. unfold already_unlinked in Ha.
    destruct (Z.eqb_spec (unmask (next np)) M) as [EM|HqM]; [by apply unlink_from_ok|].
    destruct (Z.eqb_spec (unmask (next np)) 0) as [E0|Hq0].
    { apply (unlink_done p); try done. apply unlinked_null. by rewrite <-E0. }
    destruct (succ_keyed p np (known_local p Hpl) Enp Hq0) as (nq & kq & Enq & Hkq).
    rewrite (key_ok s _ nq kq Enq Hkq) in Ha. cbn [mbind result_bind] in Ha.
    rewrite unlink_key in Ha. cbn [mbind result_bind] in Ha.
    destruct (ltb (op_key (top th)) kq) eqn:Elt; [|by apply unlink_from_ok].
    apply (unlink_done p); try done. apply ltb_spec in Elt.
    apply (unlinked_past _ nq kq Hl); try done. apply (known_next p np); [by apply known_local|done].
Qed.

Lemma check_start h : tpc th = CheckStart u h → progresses.
Proof.
  intros Ep. pose proof pc_now as Hpc. rewrite Ep in Hpc. destruct Hpc as (_ & Hh & _).
  assert (∀ pr x, tpc th ≠ Retire pr x) as Hret by congruence.
  pose proof (hint_local h Hh) as Hhl.
  destruct (inv_hint _ _ I t th Et Hrun h Hh) as (n & En & Hc & Hk).
  assert (seeks s M h) as Hs by (by apply (seeks_live h n); [apply known_local|..]).
  apply (unlink_go u h h); auto. open_advance. rewrite Ep, (get_next_ok s h n) by done. cbn.
  by destruct (marks_clean _ Hc) as (-> & _).
Qed.

Lemma unlink_first st p : tpc th = UnlinkFirst u st p → progresses.
Proof.
  intros Ep. pose proof pc_now as Hpc. rewrite Ep in Hpc. destruct Hpc as (_ & Hst & Hp).
  assert (∀ pr x, tpc th ≠ Retire pr x) as Hret by congruence.
  assert (st ∈ locals th ∧ p ∈ locals th) as [Hstl Hpl] by (unfold locals; rewrite Ep; cbn; set_solver).
  destruct (seeks_node p Hpl Hp) as (np & Enp).
  apply (unlink_arrive_ok st p np); auto. open_advance. by rewrite Ep, (get_next_ok s p np).
Qed.

Lemma unlink_next st p c : tpc th = UnlinkNext u st p c → progresses.
Proof.
  intros Ep. pose proof pc_now as Hpc. rewrite Ep in Hpc.
  destruct Hpc as (_ & Hst & Hp & Hc & kc & nc & Enc & Hkc).
  assert (∀ pr x, tpc th ≠ Retire pr x) as Hret by congruence.
  assert (st ∈ locals th ∧ p ∈ locals th ∧ c ∈ locals th) as (Hstl & Hpl & Hcl).
  { unfold locals. rewrite Ep. cbn. set_solver. }
  destruct (is_any_marked (next nc)) eqn:Em.
  - apply (unlink_read (UnlinkSnip u st p c (next nc))); try done.
    + open_advance. rewrite Ep, (get_next_ok s c nc) by done. cbn. by rewrite Em.
    + do 4 (split; [done|]). exists nc. do 2 (split; [done|]). by rewrite <-any_marked_clean, Em.
    + intros r Hr. apply own_local. unfold locals. rewrite Ep. cbn in *. set_solver.
  - assert (advance s th b = Ok (s, if ltb (op_key (top th)) kc then Retire p M
                                    else unlink_arrive u st c (next nc))) as Ha.
    { open_advance. rewrite Ep, (get_next_ok s c nc) by done. cbn [mbind result_bind].
      by rewrite Em, (key_ok s c nc kc), unlink_key. }
    destruct (ltb (op_key (top th)) kc) eqn:Elt.
    + apply (unlink_done p); try done. apply ltb_spec in Elt. destruct Hc as [Hl _].
      apply (unlinked_past c nc kc Hl); try done. by apply known_local.
    + apply (unlink_arrive_ok st c nc); auto.
Qed.

Lemma unlink_snip st p c n : tpc th = UnlinkSnip u st p c n → progresses.
Proof.
  intros Ep. pose proof pc_now as Hpc. rewrite Ep in Hpc.
  destruct Hpc as (_ & Hst & Hp & Hc & nc & Enc & <- & Hm).
  assert (∀ pr x, tpc th ≠ Retire pr x) as Hret by congruence.
  assert (st ∈ locals th ∧ p ∈ locals th ∧ c ∈ locals th) as (Hstl & Hpl & Hcl).
  { unfold locals. rewrite Ep. cbn. set_solver. }
  destruct unlink_node as (HMl & _).
  destruct (seeks_node p Hpl Hp) as (np & Enp).
  assert (advance s th b = '(s, r) ← cas_next s p c (as_ptr (next nc));
    Ok (s, match r with None => UnlinkFirst u st p | Some _ => UnlinkPred u st p end)) as Ha
    by (open_advance; by rewrite Ep).
  rewrite (cas_next_ok s p np) in Ha by done.
  destruct (Z.eqb_spec (next np) c) as [Ec|Hne]; cbn [mbind result_bind] in Ha.
  - pose proof (snip_evolve p c np nc Hpl Hcl Enp Enc Ec Hm) as E.
    apply (snip_step p c np nc Hpl Hcl Enp Enc Ec Hm (UnlinkFirst u st p)); try done.
    + set (s' := settle _ _ _ _). apply (pc_inv_stable tr s s' 0 E eq_refl); try done.
      * intros x Hx. apply known_local. unfold locals. rewrite Ep. cbn in *. set_solver.
      * destruct (inv_pc _ _ I t th Et) as [Hb _]. cbn. lia.
      * cbn. intros x [= <-]. destruct Hu as [[Hr _] _]. exact Hr.
    + intros r Hr. left. unfold locals. rewrite Ep. cbn in *. set_solver.
    + cbn. intros y [= <-]. done.
    + by rewrite Ep.
  - apply (unlink_read (UnlinkPred u st p)); try done.
    intros r Hr. apply own_local. unfold locals. rewrite Ep. cbn in *. set_solver.
Qed.

Lemma unlink_pred st p : tpc th = UnlinkPred u st p → progresses.
Proof.
  intros Ep. pose proof pc_now as Hpc. rewrite Ep in Hpc. destruct Hpc as (_ & Hst & Hp).
  assert (∀ pr x, tpc th ≠ Retire pr x) as Hret by congruence.
  assert (st ∈ locals th ∧ p ∈ locals th) as [Hstl Hpl] by (unfold locals; rewrite Ep; cbn; set_solver).
  destruct (seeks_node p Hpl Hp) as (np & Enp).
  assert (advance s th b = Ok (s, if is_any_marked (next np) then UnlinkStart u st
    else UnlinkFirst u st p)) as Ha by (open_advance; by rewrite Ep, (get_next_ok s p np)).
  destruct (is_any_marked (next np)).
  - apply (unlink_read (UnlinkStart u st)); try done.
    intros r Hr. apply own_local. unfold locals. rewrite Ep. cbn in *. set_solver.
  - apply (unlink_go u st p); auto.
Qed.

Lemma unlink_start st : tpc th = UnlinkStart u st → progresses.
Proof.
  intros Ep. pose proof pc_now as Hpc. rewrite Ep in Hpc. destruct Hpc as (_ & Hst).
  assert (∀ pr x, tpc th ≠ Retire pr x) as Hret by congruence.
  assert (st ∈ locals th) as Hstl by (unfold locals; rewrite Ep; cbn; set_solver).
  destruct (seeks_node st Hstl Hst) as (n & En).
  assert (advance s th b = Ok (s, if is_any_marked (next n) then UnlinkFirst (from_head u) (head s) (head s)
    else UnlinkFirst u st st)) as Ha by (open_advance; by rewrite Ep, (get_next_ok s st n)).
  destruct (is_any_marked (next n)); [by apply (unlink_head _ Ha); auto|].
  apply (unlink_go u st st); auto.
Qed.
End unlink.

Lemma retire_ok pr x : tpc th = Retire pr x → progresses.
Proof.
  intros Ep. pose proof pc_now as Hpc. rewrite Ep in Hpc.
  destruct Hpc as ((q & _ & Hch & n & v & En & Hd & _ & _ & Hcom) & _).
  destruct Hcom as (s1 & s2 & Htr & Hv & Heff).
  assert (∀ a, advance s th b = Ok (s, Done a) → spec (mem s) (top th) (abs s1) a (abs s2) → progresses) as Hdone.
  { intros a Ha Hspec. apply (plain_read_step (Done a) Ha); try done.
    - cbn. set_solver.
    - eauto.
    - intros a' [= <-]. right. exists s1, s2. auto. }
  assert (∃ o, top th = o) as [o Eo] by eauto. rewrite Eo in *.
  destruct o as [|k0 pos|e pos|]; try done; cbn in Hv, Heff.
  - apply (Hdone (Entry (k0, v))); [|done]. open_advance. rewrite Ep, Eo.
    rewrite (get_data_ok s x n), Hd by done. done.
  - apply (Hdone (At (Position pr (new th)))); [open_advance; by rewrite Ep, Eo|].
    cbn. eauto.
Qed.

(** Every step of a running thread. *)
Lemma advance_ok :
  (∀ p c n, tpc th = Mark p c n → ∀ t0 th0, threads s !! t0 = Some th0 → running th0 = true →
    c ∉ hint (top th0)) → progresses.
Proof.
  intros Hadm. pose proof pc_now as Hpc.
  destruct (tpc th) as [| | | | | | | |u ?|u ?|u ? ?|u ? ? ?|u ? ? ? ?|u ? ?|u ?| |] eqn:Ep.
  - by eapply load_first.
  - by eapply load_next.
  - by eapply snip.
  - by eapply recheck.
  - by eapply located_ok.
  - by eapply link.
  - by eapply load_victim.
  - by eapply mark_ok; eauto.
  - apply (unlink_ok u) in Ep; [done|by rewrite Ep|apply Hpc].
  - apply (check_start u) in Ep; [done|by rewrite Ep|apply Hpc].
  - apply (unlink_first u) in Ep; [done|by rewrite Ep|apply Hpc].
  - apply (unlink_next u) in Ep; [done|by rewrite Ep|apply Hpc].
  - apply (unlink_snip u) in Ep; [done|by rewrite Ep|apply Hpc].
  - apply (unlink_pred u) in Ep; [done|by rewrite Ep|apply Hpc].
  - apply (unlink_start u) in Ep; [done|by rewrite Ep|apply Hpc].
  - by eapply retire_ok.
  - unfold running in Hrun. by rewrite Ep in Hrun.
Qed.
End step.
End steps.
