(* ===== verification/SortedListProps.v ===== *)
(** * Linearizability and memory safety of the lock-free sorted list

    Every execution: any number of threads that insert, remove, update and
    search, interleaved at every access to a shared pointer, with spurious
    failures of the weak compare-and-set and with retired nodes freed and their
    addresses reused.  The executions are those of [admissible]: a start
    position that a caller passes is a node of the list, unmarked and with a
    smaller key, when the operation is called, and no other thread marks it
    while the operation runs.  Operations without a start position are not
    restricted, and the bucket sentinels of the hash map satisfy it; the list
    does not check it, and [insert_batch] does not ensure it: an insertion from a
    position that was removed in the meantime may never end. *)

From S2P Require Import Prelude Ordering MarkedPtr SortedList SortedListMem SortedListInv.
From S2P Require Import SortedListSteps.

Section exec.
Context {K V : Type} `{OrdLaws K} `{!EqDecision K, !Countable K}.
Local Notation node := (node K V).
Local Notation state := (state K V).
Local Notation thread := (thread K V).
Local Notation pc := (pc K V).
Implicit Types (s : state) (th : thread) (tr : list state).

(** A hint is a live node of the list before the key when the operation is
    called, and is not marked while the operation runs. *)
Definition live_hint s (o : op K V) : bool :=
  match op_start o with
  | None => true
  | Some h =>
      match mem s !! unmask h with
      | Some n =>
          negb (is_any_marked (next n)) && bool_decide (unmask h ∈ chain s) &&
          match data n with Some e => ltb e.1 (op_key o) | None => true end
      | None => false
      end
  end.
Definition admissible s (l : label K V) : bool :=
  match l with
  | Invoke _ o _ => live_hint s o
  | Step t _ =>
      match tpc <$> threads s !! t with
      | Some (Mark _ c _) =>
          bool_decide (map_Forall (λ _ th, running th = true → c ∉ hint (top th)) (threads s))
      | _ => true
      end
  | Free _ => true
  end.

Inductive exec : list state → Prop :=
  | exec_start h : 0 < h → h `mod` 8 = 0 → exec [initial h]
  | exec_step s l s' tr : exec (s :: tr) → admissible s l = true → step s l = Ok s' →
      exec (s' :: s :: tr).

Lemma mod8_clean a : a `mod` 8 = 0 → clean a.
Proof. intros. apply clean_mod. Z.div_mod_to_equations. lia. Qed.

Lemma initial_list_inv h : 0 < h → h `mod` 8 = 0 → inv [initial h] (initial (K := K) (V := V) h).
Proof.
  intros Hh Hm. set (s := initial h).
  assert (mem s !! h = Some new_sentinel) as Eh by apply lookup_singleton_eq.
  assert (mem s !! 0 = None) as E0 by (apply lookup_singleton_ne; lia).
  assert (∀ t, threads s !! t = None) as Et by (intros; apply lookup_empty).
  assert (∀ x, retired s !! x = None) as Er by (intros; apply lookup_empty).
  assert (∀ x, reach (mem s) h x → x = h ∨ x = 0) as Hreach.
  { intros x Hx. apply rtc_inv in Hx as [->|(q & (n & En & Eq) & Hx)]; [by left|].
    rewrite Eh in En. injection En as <-. cbn in Eq. subst q.
    right. by apply reach_null in Hx. }
  constructor; try (intros; by rewrite ?Et, ?Er in *).
  - constructor.
    + by left.
    + done.
    + by exists new_sentinel.
    + apply rtc_once. by exists new_sentinel.
    + intros r x [->|(t & th & Et' & _)] Hx Hx0; [|by rewrite Et in Et'].
      destruct (Hreach x Hx) as [->|]; [|done]. exists new_sentinel. split; [done|].
      split; [by apply mod8_clean|]. split; [done|]. split; [intros; apply reach_refl|].
      split; [by left|]. intros nq Enq. change (mem s !! 0 = Some nq) in Enq. congruence.
  - eauto.
  - intros s' Hs. apply list_elem_of_singleton in Hs as ->. done.
Qed.

(** ** Freeing a retired node *)

Lemma free_inv tr s a s' : inv tr s → step s (Free a) = Ok s' →
  inv (s' :: tr) s' ∧ abs s' = abs s.
Proof.
  intros I Hstep. cbn in Hstep. case_decide as Ha; [|done]. injection Hstep as <-.
  set (s' := State _ _ _ _ _). pose proof (inv_m _ _ I) as Im. pose proof (im_null _ _ _ Im) as H0.
  assert (a ≠ 0) as Ha0.
  { intros ->. apply (inv_ret_mem _ _ I) in Ha as [? ?]. congruence. }
  assert (¬ acc (mem s) (roots s) a) as Hna.
  { intros (r & [->|(t & th & Et & Hr)] & Hx); [by apply (inv_ret_head _ _ I) in Ha|].
    pose proof (inv_ret_loc _ _ I t th r a ∅ Et Hr Hx Ha). set_solver. }
  assert (∀ x, x ≠ a → mem s' !! x = mem s !! x) as Hag by (intros; cbn; by rewrite lookup_delete_ne).
  assert (evolve (mem s) (head s) (roots s) (mem s') a) as E by (by apply evolve_agree).
  assert (∀ r x, roots s r → reach (mem s) r x ↔ reach (mem s') r x) as Hiff.
  { intros r x Hr. apply (reach_agree _ _ a); [done|]. intros Hx. apply Hna. by exists r. }
  assert (∀ x, acc (mem s') (roots s') x → acc (mem s) (roots s) x) as Hacc.
  { intros x (r & Hr & Hx). exists r. split; [done|]. by apply Hiff. }
  assert (∀ x g, retired s' !! x = Some g → retired s !! x = Some g ∧ x ≠ a) as Hret.
  { cbn. intros x g [? ?]%lookup_delete_Some. done. }
  split.
  2: { apply (abs_eq s s' (roots s) (roots s)); [done|apply E|]. intros k v.
       apply (holds_agree _ _ _ a); [done|]. intros Hx. apply Hna. exists (head s). by split; [left|]. }
  constructor.
  - apply E.
  - eauto.
  - intros s0 [->|Hs]%elem_of_cons; [done|]. apply (inv_clock _ _ I) in Hs. cbn. lia.
  - intros x g [Hx Hne]%Hret. rewrite Hag by done. by apply (inv_ret_mem _ _ I) in Hx.
  - intros x g [Hx Hne]%Hret Hr. apply (inv_ret_head _ _ I _ _ Hx). apply Hiff; [by left|done].
  - intros t th r x g Et Hr Hx [Hg Hne]%Hret. apply (inv_ret_loc _ _ I t th r x g); try done.
    apply Hiff; [|done]. right. eauto.
  - intros t th Et Hp. destruct (inv_priv _ _ I t th Et Hp) as (Hc & Hr & Hn & n & En & Hd).
    assert (new th ≠ a) by congruence.
    split; [done|]. split; [cbn; by rewrite lookup_delete_ne|]. split; [by intros ?%Hacc|].
    exists n. by rewrite Hag.
  - apply (inv_priv_ne _ _ I).
  - apply (inv_own _ _ I).
  - intros t th Et Hr x Hx. destruct (inv_hint _ _ I t th Et Hr x Hx) as (n & En & ?).
    exists n. rewrite Hag; [done|]. intros ->. apply Hna, acc_root, (root_local s t th); [done|].
    unfold locals, running in *. destruct (tpc th); cbn; set_solver.
  - intros t th Et. destruct (inv_pc _ _ I t th Et) as [Hb Hpc]. split; [cbn; lia|].
    apply (pc_inv_stable tr s s' a E eq_refl); try done.
    + intros x Hx. by apply acc_root, (root_local s t th).
    + cbn. lia.
    + intros x Ho. destruct (owned_marked _ _ _ _ _ I Et Ho) as (_ & q & Hn & _).
      cbn. apply lookup_delete_None. by right.
Qed.

(** ** Calling an operation *)

Lemma live_hint_spec tr s o x : inv tr s → live_hint s o = true → x ∈ hint o →
  ∃ n, mem s !! x = Some n ∧ clean (next n) ∧ klt (nkey n) (Some (op_key o)) ∧
    reach (mem s) (head s) x.
Proof.
  intros I Hl Hx. unfold live_hint, hint in *. destruct (op_start o) as [h|]; [|set_solver].
  apply list_elem_of_singleton in Hx as ->. destruct (mem s !! unmask h) as [n|] eqn:En; [|done].
  apply andb_true_iff in Hl as [[Hm Hc]%andb_true_iff Hk].
  apply negb_true_iff, any_marked_clean in Hm. apply bool_decide_eq_true in Hc.
  exists n. split; [done|]. split; [done|]. split.
  - unfold nkey. destruct (data n); [by apply ltb_spec|done].
  - by apply (elem_of_chain s (roots s)) in Hc as [? _]; [|apply I].
Qed.

(** The state of a thread that was called. *)
Definition called s (t : nat) (o : op K V) (a : Z) (m : gmap Z node) : state :=
  settle (with_mem s m) t (Thread o a (clock s) (Done Nothing))
    (LoadFirst (start s (Thread o a (clock s) (Done Nothing)))).

Lemma invoke_ok tr s t o a : inv tr s → live_hint s o = true → idle s t = true →
  (∀ e, entry o = Some e → 0 < a ∧ a `mod` 8 = 0 ∧ mem s !! a = None) →
  invoke s t o a =
  Ok (called s t o a (match entry o with
                      | Some e => <[a := new_node e]> (mem s) | None => mem s end)).
Proof.
  intros I Hl Hi Ha. unfold invoke. rewrite Hi. unfold called.
  assert (∀ m1, (∀ x, x ∈ hint o → m1 !! x = mem s !! x) →
    retry (with_mem s m1) (Thread o a (clock s) (Done Nothing)) =
    Ok (with_mem s m1, LoadFirst (start s (Thread o a (clock s) (Done Nothing))))) as Hretry.
  { intros m1 Hm1. unfold retry, start. cbn [top head with_mem].
    destruct o as [e pos|k0 pos|e pos|k0 im pos]; try done.
    destruct (op_start (Insert e pos)) as [h|] eqn:Eh; [|done].
    destruct (live_hint_spec tr s _ (unmask h) I Hl) as (n & En & Hc & Hk & _).
    { unfold hint. rewrite Eh. set_solver. }
    rewrite (get_data_ok _ _ n).
    2: { cbn. rewrite Hm1; [done|]. unfold hint. rewrite Eh. set_solver. }
    cbn. unfold nkey in Hk. destruct (data n) as [[k v]|]; [|done].
    destruct (same k e.1) eqn:Es; [|done]. apply same_spec in Es. subst. by apply lt_irrefl in Hk. }
  assert (∀ x e, entry o = Some e → x ∈ hint o → x ≠ a) as Hne.
  { intros x e He Hx ->. destruct (live_hint_spec tr s o a I Hl Hx) as (n & En & _).
    destruct (Ha e He) as (_ & _ & ?). congruence. }
  destruct (entry o) as [e|] eqn:He.
  - assert (allocate s a e = Ok (with_mem s (<[a := new_node e]> (mem s)))) as Halloc.
    { unfold allocate. by rewrite decide_True by eauto. }
    specialize (Hretry (<[a := new_node e]> (mem s))).
    assert (match o with Insert e0 _ | Update e0 _ => allocate s a e0 | _ => Ok s end
      = Ok (with_mem s (<[a := new_node e]> (mem s)))) as ->.
    { destruct o; simplify_eq/=; done. }
    cbn [mbind result_bind]. change (clock (with_mem s (<[a:=new_node e]> (mem s)))) with (clock s).
    rewrite Hretry; [done|].
    intros x Hx. by rewrite lookup_insert_ne by (apply not_eq_sym; eauto).
  - assert (match o with Insert e0 _ | Update e0 _ => allocate s a e0 | _ => Ok s end = Ok s) as ->.
    { by destruct o. }
    cbn [mbind result_bind]. specialize (Hretry (mem s)). rewrite with_mem_id in *.
    by rewrite Hretry.
Qed.

Lemma called_inv tr s t o a : inv tr s → live_hint s o = true → idle s t = true →
  (∀ e, entry o = Some e → 0 < a ∧ a `mod` 8 = 0 ∧ mem s !! a = None) →
  let s' := called s t o a (match entry o with
                            | Some e => <[a := new_node e]> (mem s) | None => mem s end) in
  inv (s' :: tr) s' ∧ abs s' = abs s.
Proof.
  intros I Hl Hi Ha. set (m1 := match entry o with Some _ => _ | None => _ end). intros s'.
  pose proof (inv_m _ _ I) as Im. pose proof (im_null _ _ _ Im) as H0.
  set (own := match entry o with Some _ => a | None => 0 end).
  assert (∀ e, entry o = Some e → ¬ acc (mem s) (roots s) a) as Hna.
  { intros e He (r & Hr & Hx). destruct (Ha e He) as (Ha0 & _ & Hn).
    destruct (im_node _ _ _ Im r a Hr Hx) as (n & En & _); [lia|congruence]. }
  assert (∀ x, x ≠ own ∨ is_Some (mem s !! x) → m1 !! x = mem s !! x) as Hag.
  { intros x Hx. unfold m1, own in *. destruct (entry o) as [e|] eqn:He; [|done].
    rewrite lookup_insert_ne; [done|]. intros <-. destruct Hx as [|[? ?]]; [done|].
    destruct (Ha e eq_refl) as (_ & _ & ?). congruence. }
  assert (evolve (mem s) (head s) (roots s) m1 own) as E.
  { unfold own in *. destruct (entry o) as [e|] eqn:He.
    - apply evolve_agree; [done|auto| |by eapply Hna]. destruct (Ha e eq_refl). lia.
    - by apply evolve_refl. }
  assert (∀ r x, roots s r → reach (mem s) r x ↔ reach m1 r x) as Hiff.
  { intros r x Hr. unfold own, m1 in *. destruct (entry o) as [e|] eqn:He; [|done].
    apply (reach_agree _ _ a); [auto|]. intros Hx. apply (Hna e eq_refl). by exists r. }
  set (th1 := Thread o a (clock s) (LoadFirst (start s (Thread o a (clock s) (Done Nothing))))).
  assert (∀ t0 th0, threads s' !! t0 = Some th0 →
    t0 = t ∧ th0 = th1 ∨ t0 ≠ t ∧ threads s !! t0 = Some th0) as Hth.
  { cbn. intros t0 th0 [[-> <-]|[? ?]]%lookup_insert_Some; auto. }
  assert (∀ r, r ∈ locals th1 → reach (mem s) (head s) r) as Hloc.
  { intros r Hr. assert (r ∈ hint o ∨ r = head s) as [Hh| ->]; [|..|apply reach_refl].
    - unfold locals, th1, start in Hr. cbn in Hr. unfold hint in *. destruct (op_start o); set_solver.
    - by destruct (live_hint_spec tr s o r I Hl Hh) as (n & _ & _ & _ & ?). }
  assert (roots s (head s)) as Hrh by (by left).
  assert (∀ r, roots s' r → acc m1 (roots s) r) as Hroots.
  { intros r [->|(t0 & th0 & Et0 & Hr)]; [by apply acc_root|].
    apply Hth in Et0 as [[-> ->]|[Hne Et0]]; [|apply acc_root; right; eauto].
    exists (head s). split; [done|]. by apply Hiff, Hloc. }
  assert (∀ x, acc m1 (roots s') x → acc (mem s) (roots s) x) as Hacc.
  { intros x (r & Hr & Hx). destruct (Hroots r Hr) as (r0 & Hr0 & Hr0r).
    exists r0. split; [done|]. apply Hiff; [done|]. by eapply reach_trans. }
  split.
  2: { apply (abs_eq s s' (roots s) (roots s)); [done|apply E|]. intros k v.
       unfold holds. change (mem s') with m1. change (head s') with (head s).
       setoid_rewrite <-(Hiff (head s)); [|done].
       assert (∀ x, reach (mem s) (head s) x → m1 !! x = mem s !! x) as Hsame.
       { intros x Hx. destruct (decide (x = 0)) as [->|Hx0].
         - rewrite H0. apply (im_null _ _ _ (ev_inv _ _ _ _ _ E)).
         - apply Hag. right. destruct (im_node _ _ _ Im (head s) x) as (n & ? & _); eauto. }
       split; intros (x & n & Hx & En & ?); exists x, n; rewrite Hsame in *; done. }
  constructor.
  - change (mem s') with m1. change (head s') with (head s).
    eapply inv_mem_roots; [apply E|by left|]. intros r Hr. right. by apply Hroots.
  - eauto.
  - intros s0 [->|Hs]%elem_of_cons; [done|]. apply (inv_clock _ _ I) in Hs. cbn. lia.
  - intros x g Hx. apply (inv_ret_mem _ _ I) in Hx. cbn. by rewrite Hag by auto.
  - intros x g Hx Hr. apply (inv_ret_head _ _ I _ _ Hx). by apply Hiff.
  - intros t0 th0 r x g Et0 Hr Hx Hg. change (mem s') with m1 in Hx.
    apply Hth in Et0 as [[-> ->]|[Hne Et0]].
    + exfalso. apply (inv_ret_head _ _ I _ _ Hg). apply Hiff; [done|].
      eapply reach_trans; [|done]. by apply Hiff, Hloc.
    + apply (inv_ret_loc _ _ I t0 th0 r x g); try done. apply Hiff; [|done]. right. eauto.
  - intros t0 th0 Et0 Hp. apply Hth in Et0 as [[-> ->]|[Hne Et0]].
    + destruct Hp as [[e He] _]. cbn in He. destruct (Ha e He) as (Ha0 & Hm8 & Hn).
      split; [by apply mod8_clean|]. split.
      { cbn. destruct (retired s !! a) as [g|] eqn:Eg; [|done].
        apply (inv_ret_mem _ _ I) in Eg as [? ?]. congruence. }
      split; [by intros ?%Hacc%(Hna e)|]. cbn. unfold m1. rewrite He, lookup_insert_eq. eauto.
    + destruct (inv_priv _ _ I t0 th0 Et0 Hp) as (Hc & Hr & Hn & n & En & Hd).
      split; [done|]. split; [done|]. split; [by intros ?%Hacc|].
      exists n. cbn. by rewrite Hag by eauto.
  - intros t0 t' th0 th' Et0 Et' Hp Hp' Hne.
    assert (∀ t2 th2, threads s !! t2 = Some th2 → private th2 → is_Some (entry o) → new th2 ≠ a) as Hd.
    { intros t2 th2 Et2 Hp2 [e He] Hn. destruct (inv_priv _ _ I t2 th2 Et2 Hp2) as (_ & _ & _ & n & En & _).
      destruct (Ha e He) as (_ & _ & ?). congruence. }
    apply Hth in Et0 as [[-> ->]|[Hne0 Et0]]; apply Hth in Et' as [[-> ->]|[Hne' Et']]; [done|..].
    + destruct Hp as [He _]. apply not_eq_sym. by eapply Hd.
    + destruct Hp' as [He _]. by eapply Hd.
    + by apply (inv_priv_ne _ _ I t0 t' th0 th').
  - intros t0 t' th0 th' x Et0 Et' Ho Ho'.
    apply Hth in Et0 as [[-> ->]|[Hne0 Et0]]; [done|].
    apply Hth in Et' as [[-> ->]|[Hne' Et']]; [done|].
    by apply (inv_own _ _ I t0 t' th0 th' x).
  - intros t0 th0 Et0 Hr x Hx. change (mem s') with m1.
    apply Hth in Et0 as [[-> ->]|[Hne Et0]].
    + destruct (live_hint_spec tr s o x I Hl Hx) as (n & En & Hc & Hk & _).
      exists n. rewrite Hag by eauto. done.
    + destruct (inv_hint _ _ I t0 th0 Et0 Hr x Hx) as (n & En & ?). exists n.
      change (mem s') with m1. by rewrite Hag by eauto.
  - intros t0 th0 Et0. apply Hth in Et0 as [[-> ->]|[Hne Et0]]; [split; [cbn; lia|done]|].
    destruct (inv_pc _ _ I t0 th0 Et0) as [Hb Hpc]. split; [cbn; lia|].
    apply (pc_inv_stable tr s s' own E eq_refl); try done.
    + intros x Hx. by apply acc_root, (root_local s t0 th0).
    + cbn. lia.
    + intros x Ho. by destruct (owned_marked _ _ _ _ _ I Et0 Ho) as (_ & q & Hn & _).
Qed.

(** ** Executions *)

(** A call that does not satisfy the preconditions is not a step. *)
Lemma invoke_inv tr s t o a : inv tr s → live_hint s o = true →
  match invoke s t o a with
  | Ok s' => (inv (s' :: tr) s' ∧ abs s' = abs s) ∧ ∃ m, s' = called s t o a m
  | Err f => f = Disabled
  | _ => False
  end.
Proof.
  intros I Hl. destruct (idle s t) eqn:Hi; [|unfold invoke; by rewrite Hi].
  destruct (entry o) as [e|] eqn:He.
  - destruct (decide (0 < a ∧ a `mod` 8 = 0 ∧ mem s !! a = None)) as [Ha|Hn].
    + assert (∀ e0, entry o = Some e0 → 0 < a ∧ a `mod` 8 = 0 ∧ mem s !! a = None) as Ha' by auto.
      rewrite (invoke_ok tr) by done. split; [by apply called_inv|by eexists].
    + assert (allocate s a e = Err Disabled) as E by (unfold allocate; by rewrite decide_False).
      unfold invoke. rewrite Hi. destruct o; simplify_eq/=; by rewrite E.
  - assert (∀ e0, entry o = Some e0 → 0 < a ∧ a `mod` 8 = 0 ∧ mem s !! a = None) as Ha'
      by (intros; congruence).
    rewrite (invoke_ok tr) by done. split; [by apply called_inv|by eexists].
Qed.

Lemma admissible_mark s t th p c n b : threads s !! t = Some th → tpc th = Mark p c n →
  admissible s (Step t b) = true →
  ∀ t0 th0, threads s !! t0 = Some th0 → running th0 = true → c ∉ hint (top th0).
Proof.
  intros Et Ep Ha t0 th0 Et0 Hr. unfold admissible in Ha. rewrite Et in Ha. cbn in Ha. rewrite Ep in Ha.
  apply bool_decide_eq_true in Ha. by apply (Ha t0 th0).
Qed.

(** Every admissible step is fault-free and keeps the invariant. *)
Lemma step_inv tr s l : inv tr s → admissible s l = true →
  match step s l with
  | Ok s' => inv (s' :: tr) s'
  | Err f => f = Disabled
  | _ => False
  end.
Proof.
  intros I Ha. destruct l as [t o a|t b|a].
  - pose proof (invoke_inv tr s t o a I Ha) as Hi. cbn. destruct (invoke s t o a); naive_solver.
  - cbn. destruct (threads s !! t) as [th|] eqn:Et; [|done]. cbn.
    destruct (running th) eqn:Hr.
    + destruct (advance_ok tr s I t th Et Hr b) as (m' & p' & -> & Hi & _); [|done].
      intros p c n Ep. by eapply admissible_mark.
    + unfold advance, running in *. by destruct (tpc th).
  - destruct (step s (Free a)) eqn:E; [by eapply free_inv| |cbn in E; case_decide; done..].
    cbn in E. case_decide; by simplify_eq.
Qed.

Lemma exec_inv tr s : exec (s :: tr) → inv (s :: tr) s.
Proof.
  remember (s :: tr) as l eqn:El. intros He. revert s tr El.
  induction He as [h Hh Hm|s0 l s1 tr He IH Ha Hs]; intros s tr' [= <- <-].
  - by apply initial_list_inv.
  - pose proof (step_inv _ s0 l (IH _ _ eq_refl) Ha) as Hi. by rewrite Hs in Hi.
Qed.

(** C6: memory safety of the list.  In every execution in which the start
    positions passed by callers are live nodes before the key when the operation
    is called and are not marked while it runs, no step dereferences a node that
    was freed or never allocated, reads the key of the sentinel or fails an
    assertion; a retired node is not in the list, and no node is retired twice.
    Operations without a start position are not restricted. *)
Theorem sorted_list_safe s tr l :
  exec (s :: tr) → admissible s l = true →
  step s l ≠ Err Dangling ∧ step s l ≠ Panic ∧ step s l ≠ Diverge ∧
  (∀ x, is_Some (retired s !! x) → x ∉ chain s ∧ is_Some (mem s !! x)) ∧
  (∀ t th pr x, threads s !! t = Some th → tpc th = Retire pr x → retired s !! x = None).
Proof.
  intros He Ha. pose proof (exec_inv tr s He) as I. pose proof (step_inv _ s l I Ha) as Hi.
  split; [intros E; by rewrite E in Hi|]. split; [intros E; by rewrite E in Hi|].
  split; [intros E; by rewrite E in Hi|]. split.
  - intros x [g Hx]. split; [|by apply (inv_ret_mem _ _ I) in Hx].
    intros [Hr _]%(elem_of_chain s (roots s)); [|apply I]. by apply (inv_ret_head _ _ I) in Hx.
  - intros t th pr x Et Ep. destruct (owned_marked _ _ t th x I Et) as (_ & q & ? & _); [|done].
    by rewrite Ep.
Qed.

(** ** An operation takes effect once *)

(** What a step does to the threads, the clock and the map. *)
Lemma step_cases tr s l s' : inv tr s → admissible s l = true → step s l = Ok s' →
  clock s' = S (clock s) ∧
  match l with
  | Invoke t o a => abs s' = abs s ∧
      ∃ th, threads s' = <[t := th]> (threads s) ∧ born th = clock s ∧ pending (tpc th) = true
  | Step t b => ∃ th p', threads s !! t = Some th ∧
      threads s' = <[t := Thread (top th) (new th) (born th) p']> (threads s) ∧
      outcome tr s s' t th p'
  | Free _ => abs s' = abs s ∧ threads s' = threads s
  end.
Proof.
  intros I Ha Hs. destruct l as [t o a|t b|a].
  - pose proof (invoke_inv tr s t o a I Ha) as Hi. cbn in Hs. rewrite Hs in Hi.
    destruct Hi as [[_ Hab] [m ->]]. split; [done|]. split; [done|]. by eexists.
  - cbn in Hs. destruct (threads s !! t) as [th|] eqn:Et; [|done]. cbn in Hs.
    destruct (running th) eqn:Hr; [|unfold advance, running in *; by destruct (tpc th)].
    destruct (advance_ok tr s I t th Et Hr b) as (m' & p' & Eadv & _ & Ho).
    { intros p c n Ep. by eapply admissible_mark. }
    rewrite Eadv in Hs. cbn [mbind result_bind] in Hs. injection Hs as <-. split; [done|]. by exists th, p'.
  - pose proof (free_inv tr s a s' I Hs) as [_ Hab]. cbn in Hs.
    destruct (decide _); [|done]. by simplify_eq.
Qed.

(** The clock of a state of the past is behind. *)
Lemma exec_clock tr s u : exec (s :: tr) → u ∈ tr → (clock u < clock s)%nat.
Proof.
  remember (s :: tr) as l eqn:El. intros He. revert s tr El.
  induction He as [h Hh Hm|s0 l s1 tr He IH Ha Hs]; intros s tr' [= <- <-] Hu; [by apply elem_of_nil in Hu|].
  pose proof (exec_inv _ _ He) as I. destruct (step_cases _ _ _ _ I Ha Hs) as [Hc _].
  apply elem_of_cons in Hu as [->|Hu]; [lia|]. specialize (IH _ _ eq_refl Hu). lia.
Qed.

Lemma transition_inv s' s tr i t u u' : transition (s' :: s :: tr) i t u u' →
  (u = s ∧ u' = s' ∧ pending_at s t = true ∧ pending_at s' t = false) ∨ transition (s :: tr) i t u u'.
Proof.
  intros (([|x tr1] & tr2 & E) & Hi & Hb & Hp & Hp'); injection E; [left; by subst|]. intros E1 ->.
  right. split; [by exists tr1, tr2|done].
Qed.
Lemma transition_past s tr i t u u' : transition (s :: tr) i t u u' → u ∈ tr.
Proof. intros (([|x tr1] & tr2 & E) & _); injection E as -> ->; set_solver. Qed.

(** Until its operation takes effect, a thread has no such step; after it, one. *)
Lemma effect_once s tr t th : exec (s :: tr) → threads s !! t = Some th →
  (pending (tpc th) = true → ∀ u u', ¬ transition (s :: tr) (born th) t u u') ∧
  ∀ u u' w w', transition (s :: tr) (born th) t u u' → transition (s :: tr) (born th) t w w' →
    u = w ∧ u' = w'.
Proof.
  remember (s :: tr) as l eqn:El. intros He. revert s tr El t th.
  induction He as [h Hh Hm|s l s' tr He IH Ha Hs]; intros s0 tr' [= <- <-] t th Et; [done|].
  pose proof (exec_inv _ _ He) as I. specialize (IH _ _ eq_refl t).
  assert (threads s' !! t = threads s !! t →
    (pending (tpc th) = true → ∀ u u', ¬ transition (s' :: s :: tr) (born th) t u u') ∧
    ∀ u u' w w', transition (s' :: s :: tr) (born th) t u u' →
      transition (s' :: s :: tr) (born th) t w w' → u = w ∧ u' = w') as Hother.
  { intros E. rewrite E in Et. destruct (IH th Et) as [IH1 IH2].
    assert (∀ u u', transition (s' :: s :: tr) (born th) t u u' → transition (s :: tr) (born th) t u u') as Hold.
    { intros u u' [(_ & _ & Hp & Hp')|]%transition_inv; [|done]. unfold pending_at in *. rewrite E in Hp'. congruence. }
    split; [intros Hp u u' Ht%Hold; by eapply IH1|]. intros. apply IH2; auto. }
  destruct (step_cases _ _ _ _ I Ha Hs) as [Hc Hcases]. destruct l as [t0 o a|t0 b|a].
  - destruct Hcases as (_ & th0 & Eth & Hb & Hp). destruct (decide (t0 = t)) as [->|Hne].
    2: { apply Hother. by rewrite Eth, lookup_insert_ne. }
    rewrite Eth, lookup_insert_eq in Et. injection Et as <-.
    assert (∀ u u', ¬ transition (s' :: s :: tr) (born th0) t u u') as Hno.
    { intros u u' [(_ & _ & _ & Hp')|Ht]%transition_inv.
      - unfold pending_at in Hp'. rewrite Eth, lookup_insert_eq in Hp'. congruence.
      - pose proof (exec_clock _ _ u He (transition_past _ _ _ _ _ _ Ht)). destruct Ht as (_ & Hi & _). lia. }
    split; [by intros _|]. intros u u' w w' Ht. by apply Hno in Ht.
  - destruct Hcases as (th0 & p' & Et0 & Eth & _ & _ & Hpd). destruct (decide (t0 = t)) as [->|Hne].
    2: { apply Hother. by rewrite Eth, lookup_insert_ne. }
    rewrite Eth, lookup_insert_eq in Et. injection Et as <-. cbn [tpc born].
    destruct (IH th0 Et0) as [IH1 IH2].
    assert (pending_at s t = pending (tpc th0)) as Ep by (unfold pending_at; by rewrite Et0).
    assert (pending_at s' t = pending p') as Ep' by (unfold pending_at; by rewrite Eth, lookup_insert_eq).
    split.
    + intros Hp u u' [(_ & _ & _ & Hq)|Ht]%transition_inv; [congruence|]. by apply (IH1 (Hpd Hp) u u').
    + intros u u' w w' [(-> & -> & Hq & _)|Ht]%transition_inv [(-> & -> & Hq' & _)|Hw]%transition_inv; [done|..].
      * rewrite Ep in Hq. by apply (IH1 Hq) in Hw.
      * rewrite Ep in Hq'. by apply (IH1 Hq') in Ht.
      * by apply (IH2 u u' w w').
  - destruct Hcases as [_ Eth]. apply Hother. by rewrite Eth.
Qed.

(** C5: the list is linearizable, in every execution in which the start
    positions passed by callers are live nodes before the key when the operation
    is called and are not marked while it runs.  The map changes only at the step at which a
    pending operation takes effect, and then as the operation prescribes; and
    when an operation returns, it took effect once since it was called: there is
    one step of its thread, or for an operation that leaves the map as it is one
    moment, at which the specification gives its answer and its change of the
    map, and the operation changed the map at no other step. *)
Theorem sorted_list_linearizable s tr l s' :
  exec (s :: tr) → admissible s l = true → step s l = Ok s' →
  (abs s' = abs s ∨ ∃ t b th th', l = Step t b ∧
    threads s !! t = Some th ∧ threads s' !! t = Some th' ∧
    pending (tpc th) = true ∧ pending (tpc th') = false ∧
    abs s' = apply_op (top th) (abs s)) ∧
  (∀ t b th th', l = Step t b → threads s !! t = Some th → threads s' !! t = Some th' →
    (pending (tpc th') = true → pending (tpc th) = true) ∧
    ∀ a, tpc th' = Done a → linearized (s' :: s :: tr) (born th) t (mem s') (top th) a).
Proof.
  intros He Ha Hs. pose proof (exec_inv tr s He) as I.
  destruct (step_cases _ _ _ _ I Ha Hs) as [_ Hcases]. destruct l as [t o a|t b|a].
  - split; [|done]. left. by destruct Hcases.
  - destruct Hcases as (th & p' & Et & Eth & Hab & Hlin & Hpd).
    assert (threads s' !! t = Some (Thread (top th) (new th) (born th) p')) as Et'
      by (rewrite Eth; apply lookup_insert_eq).
    split; [destruct Hab as [|(? & ? & ?)]; [by left|right; by eexists t, b, th, _]|].
    intros t0 b0 th0 th' [= <- <-] E E'. rewrite Et in E. rewrite Et' in E'.
    injection E as <-. injection E' as <-. cbn. split; [done|]. intros a ->.
    assert (exec (s' :: s :: tr)) as He' by (by econstructor).
    destruct (effect_once _ _ _ _ He' Et') as [_ Hone].
    destruct (Hlin a eq_refl) as [(Hp & Habs & s0 & Hm & Hspec)|(u & u' & Ht & Hspec)].
    + exists s0, s0. split; [by left|]. split; [done|]. intros w w' Hw. left.
      apply transition_inv in Hw as [(-> & -> & _)|Hw]; [done|].
      destruct (effect_once _ _ _ _ He Et) as [Hno _]. by apply (Hno Hp) in Hw.
    + exists u, u'. split; [by right|]. split; [done|]. intros w w' Hw. right.
      by apply (Hone w w' u u').
  - split; [|done]. left. by destruct Hcases.
Qed.

(** At every moment the entries of the list are sorted by strictly
    increasing keys. *)
Theorem sorted_list_sorted s tr : exec (s :: tr) → StronglySorted lt (contents s).*1.
Proof. intros He. eapply contents_sorted, inv_m, exec_inv, He. Qed.

(** Running a schedule. *)
Fixpoint record s tr (ls : list (label K V)) : option (list state) :=
  match ls with
  | [] => Some (s :: tr)
  | l :: ls =>
      if admissible s l then
        match step s l with Ok s' => record s' (s :: tr) ls | _ => None end
      else None
  end.
Lemma record_exec s tr ls tr' : exec (s :: tr) → record s tr ls = Some tr' → exec tr'.
Proof.
  revert s tr. induction ls as [|l ls IH]; intros s tr He Hr; cbn in Hr; [by simplify_eq|].
  destruct (admissible s l) eqn:Ha; [|done]. destruct (step s l) as [s'| | |] eqn:Es; try done.
  eapply IH; [|done]. by econstructor.
Qed.
End exec.

(** ** Examples *)

(** Thread 0 inserts 5; thread 1 begins to remove it. *)
Definition example_schedule : list (label Z Z) :=
  [Invoke 0 (Insert (5, 50) None) 16; Step 0 false; Step 0 false; Step 0 false;
   Invoke 1 (Remove 5 None) 0; Step 1 false; Step 1 false; Step 1 false; Step 1 false;
   Step 1 true; Step 1 false; Step 1 false].
Definition example_trace : list (state Z Z) :=
  match record (initial 8) [] example_schedule with Some tr => tr | None => [] end.
Definition example_state : state Z Z :=
  match example_trace with s :: _ => s | [] => initial 8 end.
Definition example_past : list (state Z Z) := tail example_trace.

Lemma example_exec : exec (example_state :: example_past).
Proof.
  apply (record_exec (initial 8) [] example_schedule).
  - by apply exec_start.
  - vm_compute. reflexivity.
Qed.

Lemma sorted_list_safe_witness :
  step example_state (Step 1 false) ≠ Err Dangling ∧ step example_state (Step 1 false) ≠ Panic.
Proof.
  destruct (sorted_list_safe example_state example_past (Step 1 false)) as (Hd & Hp & _).
  - exact example_exec.
  - vm_compute. reflexivity.
  - exact (conj Hd Hp).
Defined.

Lemma sorted_list_sorted_witness : StronglySorted lt (contents example_state).*1.
Proof. exact (sorted_list_sorted example_state example_past example_exec). Defined.

(** The schedule up to the step at which the insertion of thread 0 returns. *)
Definition insert_trace : list (state Z Z) :=
  match record (initial 8) [] (take 3 example_schedule) with Some tr => tr | None => [] end.
Definition insert_state : state Z Z := match insert_trace with s :: _ => s | [] => initial 8 end.
Definition inserted_state : state Z Z :=
  match step insert_state (Step 0 false) with Ok s => s | _ => initial 8 end.

Lemma sorted_list_linearizable_witness :
  linearized (inserted_state :: insert_state :: tail insert_trace) 0 0 (mem inserted_state)
    (Insert (5, 50) None) (At (Position 8 16)).
Proof.
  destruct (sorted_list_linearizable insert_state (tail insert_trace) (Step 0 false) inserted_state)
    as [_ Hret].
  - apply (record_exec (initial 8) [] (take 3 example_schedule)).
    + by apply exec_start.
    + vm_compute. reflexivity.
  - vm_compute. reflexivity.
  - vm_compute. reflexivity.
  - destruct (Hret 0%nat false (Thread (Insert (5, 50) None) 16 0 (Link 8 0))
      (Thread (Insert (5, 50) None) 16 0 (Done (At (Position 8 16))))) as [_ Hlin].
    + reflexivity.
    + vm_compute. reflexivity.
    + vm_compute. reflexivity.
    + exact (Hlin _ eq_refl).
Defined.

(** ** A hint that was removed *)

(** Thread 1 inserts 7 after 5, as the first element of a batch; thread 0 then
    removes 7 and 5. *)
Definition batch_schedule : list (label Z Z) :=
  Invoke 0 (Insert (5, 50) None) 16 :: replicate 3 (Step 0 false) ++
  Invoke 0 (Insert (9, 90) None) 24 :: replicate 4 (Step 0 false) ++
  Invoke 1 (Insert (7, 70) None) 32 :: replicate 6 (Step 1 false) ++
  Invoke 0 (Remove 7 None) 0 :: replicate 9 (Step 0 false) ++
  Invoke 0 (Remove 5 None) 0 :: replicate 8 (Step 0 false).

(** The second element of the batch starts at the position of the first. *)
Definition batch_insert : op Z Z := Insert (8, 80) (Some (Position 16 32)).

(** The removed node 16 and its frozen successor, and the loop of thread 1. *)
Definition stuck (s : state Z Z) : Prop :=
  mem s !! 16 = Some (Node (Some (5, 50)) 25) ∧
  mem s !! 24 = Some (Node (Some (9, 90)) 0) ∧
  (∃ v, mem s !! 40 = Some (Node (Some (8, 80)) v)) ∧
  ∃ i p, threads s !! 1%nat = Some (Thread batch_insert 40 i p) ∧
    p ∈ [LoadFirst 16; LoadNext 16 24; Recheck 16 24; Located 16 24; Link 16 24].

Lemma stuck_step s b : stuck s → ∃ s', step s (Step 1 b) = Ok s' ∧ stuck s'.
Proof.
  intros (E16 & E24 & (v & E40) & i & p & Et & Hp).
  unfold step. rewrite Et. cbn [ok_or mbind result_bind].
  assert (∀ p', p' ∈ [LoadFirst 16; LoadNext 16 24; Recheck 16 24; Located 16 24; Link 16 24] →
    stuck (settle s 1 (Thread batch_insert 40 i p) p')) as Hsame.
  { intros p' Hp'. repeat split; [exact E16|exact E24|by exists v|].
    exists i, p'. split; [|done]. apply lookup_insert_eq. }
  repeat (apply elem_of_cons in Hp as [->|Hp]); [..|by apply elem_of_nil in Hp];
    open_advance; cbn [tpc top new].
  - rewrite (get_next_ok s 16 _ E16). eexists. split; [reflexivity|]. apply Hsame. set_solver.
  - rewrite (get_next_ok s 24 _ E24). cbn [mbind result_bind next is_any_marked].
    rewrite (get_data_ok s 24 _ E24). eexists. split; [reflexivity|]. apply Hsame. set_solver.
  - rewrite (get_next_ok s 24 _ E24). eexists. split; [reflexivity|]. apply Hsame. set_solver.
  - unfold located, insert_located. cbn [top batch_insert]. rewrite (key_ok s 24 _ 9 E24 eq_refl).
    eexists. split; [reflexivity|]. apply Hsame. set_solver.
  - rewrite (set_next_ok s 40 _ 24 E40). cbn [mbind result_bind].
    set (s1 := with_mem s _).
    assert (mem s1 !! 16 = Some (Node (Some (5, 50)) 25)) as E16'.
    { cbn. by rewrite lookup_insert_ne. }
    rewrite (cas_next_weak_ok b s1 16 _ 24 40 E16'). cbn [next].
    change (25 =? 24) with false. rewrite andb_false_r. cbn [mbind result_bind].
    unfold retry. cbn [top]. change (op_start batch_insert) with (Some 16).
    unfold batch_insert at 1. cbn iota. change (unmask 16) with 16.
    rewrite (get_data_ok s1 16 _ E16'). eexists. split; [reflexivity|].
    split; [exact E16'|]. split; [cbn; by rewrite lookup_insert_ne|].
    split; [eexists; apply lookup_insert_eq|]. exists i. eexists. split; [apply lookup_insert_eq|].
    left.
Qed.

Lemma stuck_run bs : ∀ s, stuck s → ∃ s', run s (Step 1 <$> bs) = Ok s' ∧ stuck s'.
Proof.
  induction bs as [|b bs IH]; intros s Hs; [by exists s|].
  destruct (stuck_step s b Hs) as (s1 & E1 & Hs1). destruct (IH s1 Hs1) as (s2 & E2 & Hs2).
  exists s2. split; [|done]. cbn [fmap list_fmap run]. by rewrite E1.
Qed.

(** C32: an insertion that starts at a removed node may never return.  A batch
    inserts 7 behind 5, and then 8 starting at the position of 7; when another
    thread removed 7 and 5 in between, the second insertion goes through its
    loop forever, even when no other thread takes a step any more. *)
Theorem stale_hint_never_returns :
  ∃ s, run (initial 8) (batch_schedule ++ [Invoke 1 batch_insert 40]) = Ok s ∧
    ∀ bs, ∃ s' th, run s (Step 1 <$> bs) = Ok s' ∧ threads s' !! 1%nat = Some th ∧
      running th = true.
Proof.
  eexists. split; [vm_compute; reflexivity|]. intros bs.
  edestruct (stuck_run bs) as (s' & E & _ & _ & _ & i & p & Et & Hp); [|exists s'; eexists; split; [exact E|]].
  - split; [reflexivity|]. split; [reflexivity|]. split; [by eexists|].
    eexists _, _. split; [reflexivity|]. left.
  - split; [exact Et|]. unfold running. cbn.
    by repeat (apply elem_of_cons in Hp as [->|Hp]); [..|apply elem_of_nil in Hp].
Qed.
