(* ===== verification/Treap.v ===== *)
(** * Treap (starfish-core/src/data_structures/sorted/treap.rs)

    A sequential ordered map: a search tree on the keys that is a min-heap on
    the priorities.  [Option<Box<TreapNode>>] is [tree], and a [Treap] is its
    root. *)

From S2P Require Import Prelude Ordering.

Section treap.
Context {K V P : Type} `{Ord K, Ord P}.

Inductive tree : Type :=
  | Leaf
  | Node (key : K) (value : V) (priority : P) (left right : tree).

(** [TreapNode::new]. *)
Definition new_node (key : K) (value : V) (priority : P) : tree :=
  Node key value priority Leaf Leaf.

(** [Treap::new]. *)
Definition new : tree := Leaf.

Fixpoint contains_rec (node : tree) (key : K) : bool :=
  match node with
  | Leaf => false
  | Node k _ _ l r =>
      match cmp key k with
      | Eq => true
      | Lt => contains_rec l key
      | Gt => contains_rec r key
      end
  end.

Fixpoint get_rec (node : tree) (key : K) : option V :=
  match node with
  | Leaf => None
  | Node k v _ l r =>
      match cmp key k with
      | Eq => Some v
      | Lt => get_rec l key
      | Gt => get_rec r key
      end
  end.

Definition rotate_right (node : tree) : tree :=
  match node with
  | Node k v p (Node lk lv lp ll lr) r => Node lk lv lp ll (Node k v p lr r)
  | root => root
  end.

Definition rotate_left (node : tree) : tree :=
  match node with
  | Node k v p l (Node rk rv rp rl rr) => Node rk rv rp (Node k v p l rl) rr
  | root => root
  end.

(** The test [if let Some(child) = &child && child.priority < priority]. *)
Definition child_before (child : tree) (priority : P) : bool :=
  match child with
  | Leaf => false
  | Node _ _ p _ _ => ltb p priority
  end.

Fixpoint insert_rec (node : tree) (key : K) (value : V) (priority : P) : tree :=
  match node with
  | Leaf => new_node key value priority
  | Node k v p l r =>
      match cmp key k with
      | Eq => Node k value priority l r
      | Lt =>
          let l' := insert_rec l key value priority in
          if child_before l' p then rotate_right (Node k v p l' r)
          else Node k v p l' r
      | Gt =>
          let r' := insert_rec r key value priority in
          if child_before r' p then rotate_left (Node k v p l r')
          else Node k v p l r'
      end
  end.

(** The removal at a node with two children recurses into the rotated tree:
    the fuel bounds the depth of the recursion. *)
Fixpoint remove_rec (fuel : nat) (node : tree) (key : K) (res : option V) :
    result False (tree * option V) :=
  match fuel with
  | O => Diverge
  | S fuel =>
      match node with
      | Leaf => Ok (Leaf, res)
      | Node k v p l r =>
          match cmp key k with
          | Lt => '(l', res) ← remove_rec fuel l key res; Ok (Node k v p l' r, res)
          | Gt => '(r', res) ← remove_rec fuel r key res; Ok (Node k v p l r', res)
          | Eq =>
              match l, r with
              | Leaf, Leaf => Ok (Leaf, Some v)
              | Leaf, _ => Ok (r, Some v)
              | _, Leaf => Ok (l, Some v)
              | Node _ _ lp _ _, Node _ _ rp _ _ =>
                  if ltb lp rp then
                    match rotate_right node with
                    | Leaf => Panic
                    | Node k' v' p' l' r' =>
                        '(r', res) ← remove_rec fuel r' key res;
                        Ok (Node k' v' p' l' r', res)
                    end
                  else
                    match rotate_left node with
                    | Leaf => Panic
                    | Node k' v' p' l' r' =>
                        '(l', res) ← remove_rec fuel l' key res;
                        Ok (Node k' v' p' l' r', res)
                    end
              end
          end
      end
  end.

Fixpoint size (t : tree) : nat :=
  match t with Leaf => 0 | Node _ _ _ l r => S (size l + size r) end.

(** [Treap::contains], [get], [insert] and [remove]. *)
Definition contains (t : tree) (key : K) : bool := contains_rec t key.
Definition get (t : tree) (key : K) : option V := get_rec t key.
Definition insert (t : tree) (key : K) (value : V) (priority : P) : tree :=
  insert_rec t key value priority.
Definition remove (t : tree) (key : K) : result False (option V * tree) :=
  '(t', res) ← remove_rec (S (size t)) t key None; Ok (res, t').

(** [Treap::get_min_priority_node]. *)
Definition get_min_priority_node (t : tree) : option (K * V * P) :=
  match t with Leaf => None | Node k v p _ _ => Some (k, v, p) end.

(** [Treap::in_order_traversal]: the calls of [visit], in their order. *)
Fixpoint in_order_traversal (t : tree) : list (K * (V * P)) :=
  match t with
  | Leaf => []
  | Node k v p l r => in_order_traversal l ++ [(k, (v, p))] ++ in_order_traversal r
  end.
End treap.

Arguments tree : clear implicits.
