(* ===== verification/TreapProps.v ===== *)
(** * The treap is an ordered map and a heap

    Both trees of a rotation have the same in-order traversal, so the traversal
    determines what the operations do: it stays sorted, and read as a finite
    map it is the map the operations are meant to maintain.  The heap order
    survives every operation but an insertion that raises the priority of
    a key already present. *)

From S2P Require Import Prelude Ordering Treap.

Section props.
Context {K V P : Type} `{OrdLaws K, OrdLaws P} `{!EqDecision K, !Countable K}.
Local Notation tree := (tree K V P).
Implicit Types t l r : tree.

(** ** The map a tree stands for *)

Definition keys t : list K := (in_order_traversal t).*1.
Definition bst t : Prop := StronglySorted lt (keys t).
Definition to_map t : gmap K (V * P) := list_to_map (in_order_traversal t).

Lemma traversal_rotate_right t :
  in_order_traversal (rotate_right t) = in_order_traversal t.
Proof.
  destruct t as [|k v p [|lk lv lp ll lr] r]; try done. simpl.
  by rewrite <-!(assoc_L (++)).
Qed.
Lemma traversal_rotate_left t :
  in_order_traversal (rotate_left t) = in_order_traversal t.
Proof.
  destruct t as [|k v p l [|rk rv rp rl rr]]; try done. simpl.
  by rewrite <-!(assoc_L (++)).
Qed.

Lemma keys_node k v p l r : keys (Node k v p l r) = keys l ++ k :: keys r.
Proof. unfold keys. simpl. by rewrite fmap_app. Qed.

Lemma bst_node k v p l r :
  bst (Node k v p l r) ↔
  bst l ∧ bst r ∧ (∀ x, x ∈ keys l → lt x k) ∧ (∀ x, x ∈ keys r → lt k x).
Proof.
  unfold bst. rewrite keys_node, sorted_app, StronglySorted_cons, Forall_forall.
  split.
  - intros (Hl & (Hk & Hr) & Hlt). repeat split; try done.
    intros x Hx. apply Hlt; [done|]. by left.
  - intros (Hl & Hr & Hlk & Hkr). repeat split; try done.
    intros a b Ha [->|Hb]%elem_of_cons; eauto using lt_trans.
Qed.

(** Looking up a key in a sorted traversal follows the comparison. *)
Lemma to_map_node k v p l r :
  to_map (Node k v p l r) = to_map l ∪ <[k := (v, p)]> (to_map r).
Proof.
  unfold to_map. simpl. rewrite list_to_map_app. done.
Qed.

Lemma to_map_keys t x : is_Some (to_map t !! x) ↔ x ∈ keys t.
Proof.
  unfold to_map, keys. split.
  - intros [y Hy%elem_of_list_to_map_2]. by apply (list_elem_of_fmap_2' fst _ (x, y)).
  - intros Hx. apply not_eq_None_Some. by intros ?%not_elem_of_list_to_map_2.
Qed.
Lemma to_map_fresh t x : x ∉ keys t → to_map t !! x = None.
Proof. rewrite <-to_map_keys. apply eq_None_not_Some. Qed.

Lemma lookup_node k v p l r x : bst (Node k v p l r) →
  to_map (Node k v p l r) !! x =
  match cmp x k with
  | Eq => Some (v, p) | Lt => to_map l !! x | Gt => to_map r !! x
  end.
Proof.
  rewrite bst_node. intros (_ & _ & Hl & Hr). rewrite to_map_node, lookup_union.
  assert (∀ y, le k y → to_map l !! y = None) as Hnl.
  { intros y Hy. apply to_map_fresh. intros ?%Hl. by apply Hy. }
  assert (∀ y, le y k → to_map r !! y = None) as Hnr.
  { intros y Hy. apply to_map_fresh. intros ?%Hr. by apply Hy. }
  destruct (cmp x k) eqn:E.
  - apply cmp_eq in E as ->. rewrite Hnl, lookup_insert_eq by apply le_refl.
    done.
  - rewrite (lookup_insert_ne _ k x), Hnr by eauto using lt_le, lt_ne, not_eq_sym.
    by destruct (to_map l !! x).
  - apply cmp_gt in E. rewrite Hnl, lookup_insert_ne by eauto using lt_le, lt_ne.
    by destruct (to_map r !! x).
Qed.

Lemma get_rec_map t x : bst t → get_rec t x = (to_map t !! x) ≫= λ '(v, _), Some v.
Proof.
  induction t as [|k v p l IHl r IHr]; [done|]. intros Hb.
  rewrite lookup_node by done. apply bst_node in Hb as (Hl & Hr & _).
  simpl. destruct (cmp x k); auto.
Qed.
Lemma contains_rec_map t x : bst t → contains_rec t x = bool_decide (is_Some (to_map t !! x)).
Proof.
  induction t as [|k v p l IHl r IHr]; intros Hb.
  - symmetry. apply bool_decide_eq_false. by intros [? ?].
  - rewrite lookup_node by done. apply bst_node in Hb as (Hl & Hr & _).
    simpl. destruct (cmp x k); auto.
Qed.

(** ** Insertion *)

(** One level of [insert_rec] up to the rotation, which does not show in the
    traversal. *)
Lemma insert_traversal k v p l r x w q :
  in_order_traversal (insert_rec (Node k v p l r) x w q) =
  in_order_traversal (match cmp x k with
    | Eq => Node k w q l r
    | Lt => Node k v p (insert_rec l x w q) r
    | Gt => Node k v p l (insert_rec r x w q)
    end).
Proof.
  cbn [insert_rec]. destruct (cmp x k); [done|..]; case_match;
    rewrite ?traversal_rotate_right, ?traversal_rotate_left; done.
Qed.

Lemma bst_traversal t t' : in_order_traversal t = in_order_traversal t' → bst t → bst t'.
Proof. unfold bst, keys. by intros ->. Qed.
Lemma to_map_traversal t t' : in_order_traversal t = in_order_traversal t' → to_map t = to_map t'.
Proof. unfold to_map. by intros ->. Qed.

(** A subtree may be replaced by one whose keys stay on the same side. *)
Lemma bst_replace_left k v p v' p' l r l' : bst (Node k v p l r) → bst l' →
  (∀ x, is_Some (to_map l' !! x) → lt x k) → bst (Node k v' p' l' r).
Proof.
  rewrite !bst_node. intros (_ & Hr & _ & Hkr) Hl' Hlt.
  repeat split; try done. intros x Hx. by apply Hlt, to_map_keys.
Qed.
Lemma bst_replace_right k v p v' p' l r r' : bst (Node k v p l r) → bst r' →
  (∀ x, is_Some (to_map r' !! x) → lt k x) → bst (Node k v' p' l r').
Proof.
  rewrite !bst_node. intros (Hl & _ & Hlk & _) Hr' Hlt.
  repeat split; try done. intros x Hx. by apply Hlt, to_map_keys.
Qed.

Lemma bst_sides k v p l r x : bst (Node k v p l r) →
  (is_Some (to_map l !! x) → lt x k) ∧ (is_Some (to_map r !! x) → lt k x).
Proof. rewrite bst_node, !to_map_keys. naive_solver. Qed.

Lemma insert_rec_map t x w q : bst t →
  bst (insert_rec t x w q) ∧ to_map (insert_rec t x w q) = <[x := (w, q)]> (to_map t).
Proof.
  induction t as [|k v p l IHl r IHr]; intros Hb.
  { split; [repeat constructor|done]. }
  pose proof Hb as (Hl & Hr & _)%bst_node.
  destruct (IHl Hl) as [Hl' El], (IHr Hr) as [Hr' Er].
  pose proof (λ y, bst_sides _ _ _ _ _ y Hb) as Hs.
  rewrite (to_map_traversal _ _ (insert_traversal k v p l r x w q)).
  pose proof (λ H, bst_traversal _ _ (eq_sym (insert_traversal k v p l r x w q)) H) as Ht.
  destruct (cmp x k) eqn:E.
  - apply cmp_eq in E as ->. split; [by apply Ht, (bst_replace_left _ v p _ _ l); naive_solver|].
    apply map_eq. intros y. rewrite lookup_insert, !lookup_node; [|done|].
    + case_decide as Hy; [subst; by rewrite cmp_refl|].
      destruct (cmp y k) eqn:E; [|done..]. by apply cmp_eq in E as ->.
    + apply (bst_replace_left _ v p _ _ l); naive_solver.
  - assert (bst (Node k v p (insert_rec l x w q) r)) as Hb'.
    { apply (bst_replace_left _ v p _ _ l); [done..|]. intros y. rewrite El.
      intros [<-|[_ Hy]]%lookup_insert_is_Some; [done|by apply Hs]. }
    split; [by apply Ht|]. apply map_eq. intros y.
    rewrite lookup_node, lookup_insert, lookup_node, El, lookup_insert by done.
    case_decide as Hy; [by subst; rewrite E|done].
  - assert (bst (Node k v p l (insert_rec r x w q))) as Hb'.
    { apply (bst_replace_right _ v p _ _ _ r); [done..|]. intros y. rewrite Er.
      intros [<-|[_ Hy]]%lookup_insert_is_Some; [by apply cmp_gt|by apply Hs]. }
    split; [by apply Ht|]. apply map_eq. intros y.
    rewrite lookup_node, lookup_insert, lookup_node, Er, lookup_insert by done.
    case_decide as Hy; [by subst; rewrite E|done].
Qed.

(** ** Removal *)

Lemma delete_left k v p l r x l' : bst (Node k v p l r) → lt x k →
  bst l' → to_map l' = delete x (to_map l) →
  bst (Node k v p l' r) ∧
  to_map (Node k v p l' r) = delete x (to_map (Node k v p l r)).
Proof.
  intros Hb Hx Hl' El.
  assert (bst (Node k v p l' r)) as Hb'.
  { apply (bst_replace_left _ v p _ _ l); [done..|]. intros y. rewrite El.
    intros [_ Hy]%lookup_delete_is_Some. by apply (bst_sides _ _ _ _ _ y Hb). }
  split; [done|]. apply map_eq. intros y.
  rewrite lookup_node, lookup_delete, lookup_node, El, lookup_delete by done.
  case_decide; subst; [by rewrite Hx|done].
Qed.
Lemma delete_right k v p l r x r' : bst (Node k v p l r) → lt k x →
  bst r' → to_map r' = delete x (to_map r) →
  bst (Node k v p l r') ∧
  to_map (Node k v p l r') = delete x (to_map (Node k v p l r)).
Proof.
  intros Hb Hx Hr' Er.
  assert (bst (Node k v p l r')) as Hb'.
  { apply (bst_replace_right _ v p _ _ _ r); [done..|]. intros y. rewrite Er.
    intros [_ Hy]%lookup_delete_is_Some. by apply (bst_sides _ _ _ _ _ y Hb). }
  split; [done|]. apply map_eq. intros y.
  rewrite lookup_node, lookup_delete, lookup_node, Er, lookup_delete by done.
  case_decide; subst; [|done]. apply cmp_gt in Hx. by rewrite Hx.
Qed.

(** Without a child on one side the node is replaced by its other child. *)
Lemma delete_root k v p l r t : bst (Node k v p l r) →
  l = Leaf ∧ t = r ∨ r = Leaf ∧ t = l →
  bst t ∧ to_map t = delete k (to_map (Node k v p l r)).
Proof.
  intros Hb Ht. pose proof Hb as (Hl & Hr & _)%bst_node.
  pose proof (λ y, bst_sides _ _ _ _ _ y Hb) as Hs.
  split; [naive_solver|]. apply map_eq. intros y.
  rewrite lookup_delete, lookup_node by done. case_decide as Hy.
  - subst y. apply eq_None_not_Some. intros Hk.
    destruct Ht as [[-> ->]|[-> ->]]; by apply Hs, lt_irrefl in Hk.
  - destruct (cmp y k) eqn:E; [by apply cmp_eq in E|..].
    + destruct Ht as [[-> ->]|[-> ->]]; [|done]. apply eq_None_not_Some.
      intros Hk%Hs. by apply (lt_irrefl y), (lt_trans _ k).
    + apply cmp_gt in E. destruct Ht as [[-> ->]|[-> ->]]; [done|].
      apply eq_None_not_Some. intros Hk%Hs. by apply (lt_irrefl y), (lt_trans _ k).
Qed.

(** What [remove_rec] returns for a key: the tree without it, and its value if
    it was there. *)
Definition removed t x (res : option V) t' (res' : option V) : Prop :=
  bst t' ∧ to_map t' = delete x (to_map t) ∧
  res' = match to_map t !! x with Some (v, _) => Some v | None => res end.

Lemma removed_found k v p l r res t' : bst (Node k v p l r) → bst t' →
  to_map t' = delete k (to_map (Node k v p l r)) →
  removed (Node k v p l r) k res t' (Some v).
Proof.
  intros Hb Hb' E. split; [done|]. split; [done|].
  by rewrite lookup_node, cmp_refl by done.
Qed.

Lemma remove_root_map fuel k v p l r res :
  (∀ t, (size t < size (Node k v p l r))%nat → bst t →
    ∃ t' res', remove_rec fuel t k res = Ok (t', res') ∧ removed t k res t' res') →
  bst (Node k v p l r) →
  ∃ t' res', remove_rec (S fuel) (Node k v p l r) k res = Ok (t', res') ∧
    removed (Node k v p l r) k res t' res'.
Proof.
  intros IH Hb. cbn [remove_rec]. rewrite cmp_refl.
  destruct l as [|lk lv lp ll lr], r as [|rk rv rp rl rr];
    [eexists _, _; split; [done|];
     destruct (delete_root _ _ _ _ _ _ Hb ltac:(by auto)) as [Ht Et];
     by apply removed_found..|].
  destruct (ltb lp rp).
  - pose proof (traversal_rotate_right (Node k v p (Node lk lv lp ll lr) (Node rk rv rp rl rr))) as Et.
    pose proof (bst_traversal _ _ (eq_sym Et) Hb) as Hb1. cbn [rotate_right] in *.
    pose proof Hb1 as (_ & Hb2 & _ & Hs)%bst_node.
    destruct (IH (Node k v p lr (Node rk rv rp rl rr)) ltac:(simpl; lia) Hb2) as (t' & res' & -> & Ht' & Em & ->).
    simpl. eexists _, _. split; [done|].
    rewrite (lookup_node _ _ _ _ _ k Hb2), cmp_refl.
    destruct (delete_right _ _ _ _ _ k t' Hb1) as [Hn En]; [|done..|].
    { apply Hs. rewrite keys_node. set_solver. }
    apply removed_found; [done..|]. by rewrite En, (to_map_traversal _ _ Et).
  - pose proof (traversal_rotate_left (Node k v p (Node lk lv lp ll lr) (Node rk rv rp rl rr))) as Et.
    pose proof (bst_traversal _ _ (eq_sym Et) Hb) as Hb1. cbn [rotate_left] in *.
    pose proof Hb1 as (Hb2 & _ & Hs & _)%bst_node.
    destruct (IH (Node k v p (Node lk lv lp ll lr) rl) ltac:(simpl; lia) Hb2) as (t' & res' & -> & Ht' & Em & ->).
    simpl. eexists _, _. split; [done|].
    rewrite (lookup_node _ _ _ _ _ k Hb2), cmp_refl.
    destruct (delete_left _ _ _ _ _ k t' Hb1) as [Hn En]; [|done..|].
    { apply Hs. rewrite keys_node. set_solver. }
    apply removed_found; [done..|]. by rewrite En, (to_map_traversal _ _ Et).
Qed.

Lemma remove_rec_map fuel t x res : (size t < fuel)%nat → bst t →
  ∃ t' res', remove_rec fuel t x res = Ok (t', res') ∧ removed t x res t' res'.
Proof.
  revert t. induction fuel as [|fuel IH]; intros t Hf Hb; [lia|].
  destruct t as [|k v p l r].
  { eexists _, _. split; [done|]. split; [done|]. unfold to_map. simpl.
    by rewrite delete_empty. }
  pose proof Hb as (Hl & Hr & _)%bst_node. simpl in Hf.
  destruct (cmp x k) eqn:E.
  { apply cmp_eq in E as ->. apply remove_root_map; [|done].
    intros t Ht. apply IH. simpl in Ht. lia. }
  all: unfold removed; rewrite (lookup_node _ _ _ _ _ x Hb); cbn [remove_rec]; rewrite E.
  - destruct (IH l ltac:(lia) Hl) as (l' & res' & -> & Hl' & El & ->).
    simpl. eexists _, _. split; [done|].
    destruct (delete_left k v p l r x l') as [? ?]; auto.
  - destruct (IH r ltac:(lia) Hr) as (r' & res' & -> & Hr' & Er & ->).
    simpl. eexists _, _. split; [done|]. apply cmp_gt in E.
    destruct (delete_right k v p l r x r') as [? ?]; auto.
Qed.

(** ** The heap order *)

(** The root of a tree, if it has one, has a priority of at least [b]. *)
Definition above (b : P) t : Prop :=
  match t with Leaf => True | Node _ _ p _ _ => le b p end.
Definition above_children (b : P) t : Prop :=
  match t with Leaf => True | Node _ _ _ l r => above b l ∧ above b r end.
Fixpoint heap t : Prop :=
  match t with
  | Leaf => True
  | Node _ _ p l r => heap l ∧ heap r ∧ above p l ∧ above p r
  end.

Lemma above_le b p t : le b p → above p t → above b t.
Proof. destruct t; [done|]. apply le_trans. Qed.
Lemma above_children_le b p t : le b p → above_children p t → above_children b t.
Proof. destruct t; [done|]. intros ? [??]. split; eauto using above_le. Qed.
Lemma child_before_above t p : child_before t p = false → above p t.
Proof. destruct t; [done|]. apply ltb_ge. Qed.

(** Restoring the heap order at a node one of whose subtrees got a new root. *)
Lemma fix_left_heap k v p l r : heap l → heap r → above p r → above_children p l →
  let t := if child_before l p then rotate_right (Node k v p l r) else Node k v p l r in
  heap t ∧ above_children p t ∧ ∀ b, le b p → above b l → above b t.
Proof.
  intros Hl Hr Hpr Hc. destruct (child_before l p) eqn:E.
  - destruct l as [|lk lv lp ll lr]; [done|]. simpl in *.
    apply ltb_spec in E. destruct_and?. auto 10 using le_refl, lt_le.
  - apply child_before_above in E. simpl. auto 6.
Qed.
Lemma fix_right_heap k v p l r : heap l → heap r → above p l → above_children p r →
  let t := if child_before r p then rotate_left (Node k v p l r) else Node k v p l r in
  heap t ∧ above_children p t ∧ ∀ b, le b p → above b r → above b t.
Proof.
  intros Hl Hr Hpl Hc. destruct (child_before r p) eqn:E.
  - destruct r as [|rk rv rp rl rr]; [done|]. simpl in *.
    apply ltb_spec in E. destruct_and?. auto 10 using le_refl, lt_le.
  - apply child_before_above in E. simpl. auto 6.
Qed.

Lemma insert_rec_heap t x w q : bst t → heap t →
  (∀ v p, to_map t !! x = Some (v, p) → le q p) →
  heap (insert_rec t x w q) ∧
  ∀ b, above b t → above_children b (insert_rec t x w q) ∧
    (le b q → above b (insert_rec t x w q)).
Proof.
  induction t as [|k v p l IHl r IHr]; intros Hb Hh Hq; [done|].
  setoid_rewrite (lookup_node _ _ _ _ _ x Hb) in Hq.
  apply bst_node in Hb as (Hbl & Hbr & _). destruct Hh as (Hl & Hr & Hpl & Hpr).
  cbn [insert_rec]. destruct (cmp x k).
  - specialize (Hq v p eq_refl). simpl. split; [by eauto 10 using above_le|].
    intros b Hbp. repeat split; [by eapply above_le..|done].
  - destruct (IHl Hbl Hl Hq) as [Hl' Hc]. destruct (Hc p Hpl) as [Hc' _].
    destruct (fix_left_heap k v p _ r Hl' Hr Hpr Hc') as (Ht & Htc & Hta).
    split; [done|]. intros b Hbp. split; [by apply (above_children_le b p)|].
    intros Hbq. apply Hta; [done|]. apply Hc; [by apply (above_le b p)|done].
  - destruct (IHr Hbr Hr Hq) as [Hr' Hc]. destruct (Hc p Hpr) as [Hc' _].
    destruct (fix_right_heap k v p l _ Hl Hr' Hpl Hc') as (Ht & Htc & Hta).
    split; [done|]. intros b Hbp. split; [by apply (above_children_le b p)|].
    intros Hbq. apply Hta; [done|]. apply Hc; [by apply (above_le b p)|done].
Qed.

(** The root of the remaining tree is the old root, or a child of it when the
    root was removed. *)
Definition removed_heap t x t' : Prop :=
  heap t' ∧ (∀ b, above b t → above b t') ∧
  match t with
  | Leaf => True
  | Node k _ _ l r => cmp x k = Eq → ∀ b, above b l → above b r → above b t'
  end.

Lemma remove_rec_heap fuel t x res t' res' :
  heap t → remove_rec fuel t x res = Ok (t', res') → removed_heap t x t'.
Proof.
  revert t res t' res'. induction fuel as [|fuel IH]; intros t res t' res' Hh E; [done|].
  destruct t as [|k v p l r]; [by simplify_eq/=|].
  destruct Hh as (Hl & Hr & Hpl & Hpr). cbn [remove_rec] in E.
  destruct (cmp x k) eqn:Ex.
  - apply cmp_eq in Ex as ->.
    destruct l as [|lk lv lp ll lr], r as [|rk rv rp rl rr]; [|simplify_eq/=..|].
    { simplify_eq/=. repeat split. }
    1,2: split; [done|]; split; simpl; eauto using le_trans.
    destruct Hl as (Hll & Hlr & Hal & Har), Hr as (Hrl & Hrr & Hbl & Hbr).
    destruct (ltb lp rp) eqn:Elt; simpl in E.
    + destruct (remove_rec _ _ _ _) as [[r' z]| | |] eqn:Er in E; simplify_eq/=.
      apply IH in Er as (Hr' & _ & Ha); [|by simpl; eauto 10 using above_le].
      apply ltb_spec, lt_le in Elt. specialize (Ha (cmp_refl k) lp Har Elt).
      split; [done|]. split; simpl; eauto using le_trans.
    + destruct (remove_rec _ _ _ _) as [[l' z]| | |] eqn:Er in E; simplify_eq/=.
      apply IH in Er as (Hl' & _ & Ha); [|by simpl; eauto 10 using above_le].
      apply ltb_ge in Elt. specialize (Ha (cmp_refl k) rp Elt Hbl).
      split; [done|]. split; simpl; eauto using le_trans.
  - destruct (remove_rec _ _ _ _) as [[l' z]| | |] eqn:El in E; simplify_eq/=.
    apply IH in El as (Hl' & Ha & _); [|done]. split; [|split; [done|]]; simpl; auto. congruence.
  - destruct (remove_rec _ _ _ _) as [[r' z]| | |] eqn:Er in E; simplify_eq/=.
    apply IH in Er as (Hr' & Ha & _); [|done]. split; [|split; [done|]]; simpl; auto. congruence.
Qed.

Lemma heap_above t b x w q : bst t → heap t → above b t →
  to_map t !! x = Some (w, q) → le b q.
Proof.
  revert b. induction t as [|k v p l IHl r IHr]; intros b Hb Hh Hab; [done|].
  rewrite lookup_node by done. apply bst_node in Hb as (Hbl & Hbr & _).
  destruct Hh as (Hl & Hr & Hpl & Hpr). destruct (cmp x k); [by intros [= <- <-]|..].
  - apply IHl; [done..|]. by apply (above_le b p).
  - apply IHr; [done..|]. by apply (above_le b p).
Qed.

(** ** Sequences of operations *)

Inductive op : Type :=
  | Insert (key : K) (value : V) (priority : P)
  | Remove (key : K)
  | Get (key : K)
  | Contains (key : K).

Inductive answer : Type :=
  | Unit
  | Value (v : option V)
  | Bool (b : bool).

Definition step t (o : op) : result False (answer * tree) :=
  match o with
  | Insert k v p => Ok (Unit, insert t k v p)
  | Remove k => '(res, t) ← remove t k; Ok (Value res, t)
  | Get k => Ok (Value (get t k), t)
  | Contains k => Ok (Bool (contains t k), t)
  end.

(** The abstract map. *)
Definition map_step (m : gmap K (V * P)) (o : op) : answer * gmap K (V * P) :=
  match o with
  | Insert k v p => (Unit, <[k := (v, p)]> m)
  | Remove k => (Value (fst <$> m !! k), delete k m)
  | Get k => (Value (fst <$> m !! k), m)
  | Contains k => (Bool (bool_decide (is_Some (m !! k))), m)
  end.

Fixpoint run t (os : list op) : result False (list answer * tree) :=
  match os with
  | [] => Ok ([], t)
  | o :: os => '(a, t) ← step t o; '(l, t) ← run t os; Ok (a :: l, t)
  end.
Fixpoint map_run (m : gmap K (V * P)) (os : list op) : list answer * gmap K (V * P) :=
  match os with
  | [] => ([], m)
  | o :: os => let '(a, m) := map_step m o in let '(l, m) := map_run m os in (a :: l, m)
  end.

(** No insertion raises the priority of a key that is present. *)
Definition lowers (m : gmap K (V * P)) (o : op) : Prop :=
  match o with
  | Insert k _ p => ∀ v q, m !! k = Some (v, q) → le p q
  | _ => True
  end.
Fixpoint all_lower (m : gmap K (V * P)) (os : list op) : Prop :=
  match os with
  | [] => True
  | o :: os => lowers m o ∧ all_lower (map_step m o).2 os
  end.

Lemma step_map t o : bst t →
  ∃ t', step t o = Ok ((map_step (to_map t) o).1, t') ∧ bst t' ∧
    to_map t' = (map_step (to_map t) o).2 ∧
    (heap t → lowers (to_map t) o → heap t').
Proof.
  intros Hb. destruct o as [k v p|k|k|k]; simpl.
  - destruct (insert_rec_map t k v p Hb). eexists. do 3 (split; [done|]).
    intros Hh Hl. by apply insert_rec_heap.
  - unfold remove.
    destruct (remove_rec_map (S (size t)) t k None) as (t' & res & E & Hb' & Em & ->); [lia|done|].
    rewrite E. simpl. eexists. split; [by destruct (to_map t !! k) as [[??]|]|].
    do 2 (split; [done|]). intros Hh _. by eapply remove_rec_heap.
  - eexists. split; [|done]. unfold get. rewrite get_rec_map by done.
    by destruct (to_map t !! k) as [[??]|].
  - eexists. split; [|done]. unfold contains. by rewrite contains_rec_map.
Qed.

Lemma run_map t os : bst t →
  ∃ t', run t os = Ok ((map_run (to_map t) os).1, t') ∧ bst t' ∧
    to_map t' = (map_run (to_map t) os).2 ∧
    (heap t → all_lower (to_map t) os → heap t').
Proof.
  revert t. induction os as [|o os IH]; intros t Hb; [by eexists|].
  destruct (step_map t o Hb) as (t1 & E1 & Hb1 & Em1 & Hh1).
  destruct (IH t1 Hb1) as (t2 & E2 & Hb2 & Em2 & Hh2).
  exists t2. simpl. rewrite E1. simpl. rewrite E2. simpl. rewrite Em1 in *.
  destruct (map_step _ o) as [a m]; simpl in *.
  destruct (map_run m os) as [l m']; simpl in *. naive_solver.
Qed.

Lemma new_bst : bst new.
Proof. constructor. Qed.

(** C22: a treap is an ordered map.  Every sequence of insertions, removals and
    queries on a new treap returns, without panicking and with every recursion
    ending, the answers of a finite map, and the traversal in order visits
    exactly the entries of that map, by strictly increasing keys. *)
Theorem treap_refines_map os :
  ∃ t, run new os = Ok ((map_run ∅ os).1, t) ∧
    (∀ k v p, (k, (v, p)) ∈ in_order_traversal t ↔ (map_run ∅ os).2 !! k = Some (v, p)) ∧
    StronglySorted lt (in_order_traversal t).*1.
Proof.
  destruct (run_map new os new_bst) as (t & E & Hb & Em & _).
  exists t. split; [done|]. split; [|done]. intros k v p.
  change (∅ : gmap K (V * P)) with (to_map new). rewrite <-Em.
  apply elem_of_list_to_map, (sorted_NoDup _ Hb).
Qed.

(** As long as no insertion raises the priority of a present key,
    [get_min_priority_node] returns an entry whose priority is the least. *)
Theorem treap_min_priority os t k v p :
  all_lower ∅ os → run new os = Ok ((map_run ∅ os).1, t) →
  get_min_priority_node t = Some (k, v, p) →
  (map_run ∅ os).2 !! k = Some (v, p) ∧
  ∀ k' v' p', (map_run ∅ os).2 !! k' = Some (v', p') → le p p'.
Proof.
  intros Hl E Hm. destruct (run_map new os new_bst) as (t' & E' & Hb & Em & Hh).
  change (to_map new) with (∅ : gmap K (V * P)) in *.
  rewrite E in E'. simplify_eq. specialize (Hh I Hl). rewrite <-Em.
  destruct t' as [|k' v' p' l r]; [done|]. simplify_eq/=. split.
  - by rewrite lookup_node, cmp_refl.
  - intros k' v' p' Hk. eapply heap_above; [done..| |done]. apply le_refl.
Qed.
End props.

Arguments op : clear implicits.
Arguments answer : clear implicits.

(** The operations of the tests of treap.rs: three entries, one replaced with
    a lower priority, one removed. *)
Definition example_ops : list (op Z Z Z) :=
  [Insert 2 20 5; Insert 1 10 7; Insert 3 30 3; Insert 2 21 1; Remove 3].

Lemma treap_refines_map_witness :
  ∃ t, run new example_ops = Ok ((map_run ∅ example_ops).1, t) ∧
    (∀ k v p, (k, (v, p)) ∈ in_order_traversal t ↔ (map_run ∅ example_ops).2 !! k = Some (v, p)) ∧
    StronglySorted lt (in_order_traversal t).*1.
Proof. apply (treap_refines_map example_ops). Defined.

Lemma treap_min_priority_witness :
  (map_run ∅ example_ops).2 !! 2 = Some (21, 1) ∧
  ∀ k' v' p', (map_run ∅ example_ops).2 !! k' = Some (v', p') → le 1 p'.
Proof.
  eapply (treap_min_priority example_ops (Node 2 21 1 (Node 1 10 7 Leaf Leaf) Leaf) 2 21 1).
  - simpl. repeat split; intros v q; vm_compute; intros E; try discriminate.
    by simplify_eq.
  - vm_compute. reflexivity.
  - reflexivity.
Defined.

(** Replacing an entry by one with a higher priority leaves the node in its
    place, above its children: [get_min_priority_node] then returns an entry
    whose priority is not the least. *)
Theorem treap_raise_breaks_heap :
  ∃ t : tree Z Z Z, run new [Insert 1 10 1; Insert 2 20 2; Insert 1 10 5] = Ok ([Unit; Unit; Unit], t) ∧
    get_min_priority_node t = Some (1, 10, 5) ∧ to_map t !! 2 = Some (20, 2).
Proof. eexists. split; [vm_compute; reflexivity|]. by split. Qed.
