(* ===== verification/CoopLock.v ===== *)
(** * Cooperative locks
    (starfish-reactor/src/cooperative_synchronization/lock.rs, wait_one_future.rs)

    The tasks of all reactors, interleaved at every access to the state, the
    queue and the flags the lock shares.  A waiter is the shared cell of one
    [create_wait_one]; the runtime that the reactor keeps of a suspended task
    is the number of the task.  The three locks differ in what [release] does
    with the queue. *)

From coqutil Require Export Datatypes.RecordSetters.
From stdpp Require Import functions.
From S2P Require Import Prelude.
Export TriangleBracketNotations.

Inductive LockState := LNone | Owned | Releasing.

#[export] Instance LockState_eq_dec : EqDecision LockState.
Proof. solve_decision. Defined.

Inductive LockKind := FairLock | UnfairLock | ReactorAwareLock.

(** [WaitOneSharedState]. *)
Record WaitOne := { waiting_future : option nat; is_signaled : bool }.

Definition wait_one_new : WaitOne := {| waiting_future := None; is_signaled := false |}.

(** Where a task is: [acquire_internal] down to [Parked], then [release].  A
    signal goes on with the wait of its own task ([Some]) or ends the release. *)
Inductive Pc :=
  | Idle
  | Start
  | Enqueue
  | Look (w : nat)
  | Again (w : nat)
  | Give (w : nat)
  | SignalTo (v : nat) (k : option nat)
  | Take (v : nat) (k : option nat)
  | CheckFlag (w : nat)
  | Poll (w : nat)
  | Park (w : nat)
  | ParkSwap (w : nat)
  | TakeBack (w : nat)
  | Parked (w : nat)
  | Critical
  | Collect
  | Select
  | Transfer (v : nat)
  | Finish.

Definition after_signal (k : option nat) : Pc := match k with Some w => CheckFlag w | None => Idle end.

Record Lock := {
  l_state : LockState;
  l_queue : list nat;
  l_waiters : list nat;
  l_counter : nat;
  l_cells : nat → WaitOne;
  l_next : nat;
  l_tasks : nat → Pc;
}.

Definition lock_new : Lock := {|
  l_state := LNone; l_queue := []; l_waiters := []; l_counter := 0; l_cells := λ _, wait_one_new;
  l_next := 0; l_tasks := λ _, Idle |}.

(** ** What [release] picks *)

(** [Vec::swap_remove]. *)
Definition swap_remove (i : nat) (l : list nat) : list nat :=
  match last l with
  | Some x => take (length l - 1) (<[i := x]> l)
  | None => []
  end.

(** [min_by_key]: the index of the first of the least keys. *)
Fixpoint min_index (load : nat → Z) (l : list nat) (i best : nat) (key : Z) : nat :=
  match l with
  | [] => best
  | w :: l => if load w <? key then min_index load l (S i) i (load w) else min_index load l (S i) best key
  end.

Definition least_loaded (load : nat → Z) (l : list nat) : nat :=
  match l with
  | [] => 0
  | w :: l => min_index load l 1 0 (load w)
  end.

(** The index and the counter after [ReactorAwareLock::release]; [load] is the
    length of the queue of the reactor of a waiter. *)
Definition aware_pick (load : nat → Z) (waiters : list nat) (counter : nat) : nat * nat :=
  let counter := if Nat.eqb counter 0 then length waiters else counter in
  let scan_window := Nat.min counter (length waiters) in
  (least_loaded load (take scan_window waiters), Nat.pred counter).

(** ** Steps *)

(** What a step meets: the random index, and the load of the reactors. *)
Record Chance := { ch_index : nat; ch_load : nat → Z; ch_try : bool }.

Definition set_pc (t : nat) (p : Pc) (s : Lock) : Lock := s <| l_tasks ::= <[t := p]> |>.
Definition set_cell (w : nat) (c : WaitOne) (s : Lock) : Lock := s <| l_cells ::= <[w := c]> |>.

(** *** Shared accesses *)

(** [compare_exchange(None, Owned)]. *)
Definition try_acquire_owner (s : Lock) : bool * Lock :=
  match l_state s with
  | LNone => (true, s <| l_state := Owned |>)
  | _ => (false, s)
  end.

(** The chosen waiter leaves the vector. *)
Definition pick (kind : LockKind) (x : Chance) (s : Lock) : option (nat * Lock) :=
  match kind with
  | ReactorAwareLock =>
      let '(i, counter) := aware_pick (ch_load x) (l_waiters s) (l_counter s) in
      v ← l_waiters s !! i;
      Some (v, s <| l_waiters ::= swap_remove i |> <| l_counter := counter |>)
  | _ => v ← l_waiters s !! ch_index x; Some (v, s <| l_waiters ::= swap_remove (ch_index x) |>)
  end.

(** The suspended task of a cell is scheduled again. *)
Definition take_runtime (w : nat) (s : Lock) : result unit Lock :=
  match waiting_future (l_cells s w) with
  | Some t => Ok (set_pc t (Poll w) (set_cell w ((l_cells s w) <| waiting_future := None |>) s))
  | None => Panic
  end.

(** *** [acquire_internal] *)

(** The first exchange; [lost] is where a task goes that does not get the lock. *)
Definition acquire_or (t : nat) (got lost : Pc) (s : Lock) : result unit Lock :=
  let '(won, s) := try_acquire_owner s in Ok (set_pc t (if won : bool then got else lost) s).

(** A new waiter, and its signaler in the queue. *)
Definition enqueue_waiter (t : nat) (s : Lock) : Lock :=
  let w := l_next s in
  set_pc t (Look w) ((set_cell w wait_one_new s) <| l_next := S w |> <| l_queue ::= (λ q, q ++ [w]) |>).

(** The loop on the state. *)
Definition check_state (t w : nat) (s : Lock) : Lock :=
  match l_state s with
  | LNone => set_pc t (Again w) s
  | Owned => set_pc t (CheckFlag w) s
  | Releasing => s
  end.

(** The task that took the free lock pops the first waiter. *)
Definition pop_waiter (t w : nat) (s : Lock) : Lock :=
  match l_queue s with
  | v :: q => set_pc t (SignalTo v (Some w)) (s <| l_queue := q |>)
  | [] => set_pc t (CheckFlag w) s
  end.

(** *** The waiter *)

(** The swap of [signal]. *)
Definition signal (t v : nat) (k : option nat) (s : Lock) : Lock :=
  let was_signaled := is_signaled (l_cells s v) in
  set_pc t (if was_signaled then Take v k else after_signal k)
    (set_cell v ((l_cells s v) <| is_signaled := true |>) s).

(** The load of [cooperative_wait] and the one of [poll]. *)
Definition check_flag (t w : nat) (pending : Pc) (s : Lock) : Lock :=
  set_pc t (if is_signaled (l_cells s w) then Critical else pending) s.

(** [set_waiting]: the store, then the swap. *)
Definition store_waiting (t w : nat) (s : Lock) : Lock :=
  set_pc t (ParkSwap w) (set_cell w ((l_cells s w) <| waiting_future := Some t |>) s).

Definition set_waiting (t w : nat) (s : Lock) : Lock :=
  let was_signaled := is_signaled (l_cells s w) in
  set_pc t (if was_signaled then TakeBack w else Parked w)
    (set_cell w ((l_cells s w) <| is_signaled := true |>) s).

(** *** [release] *)

Definition start_release (t : nat) (s : Lock) : result unit Lock :=
  if bool_decide (l_state s = Owned) then Ok (set_pc t Collect (s <| l_state := Releasing |>)) else Panic.

(** The queue: its first waiter, or one round of the loop that empties it. *)
Definition collect (kind : LockKind) (t : nat) (s : Lock) : Lock :=
  match kind, l_queue s with
  | FairLock, v :: q => set_pc t (Transfer v) (s <| l_queue := q |>)
  | FairLock, [] => set_pc t Finish s
  | _, v :: q => set_pc t Collect (s <| l_queue := q |> <| l_waiters ::= (λ l, l ++ [v]) |>)
  | _, [] => set_pc t Select s
  end.

(** The vector. *)
Definition select (kind : LockKind) (t : nat) (x : Chance) (s : Lock) : result unit Lock :=
  match l_waiters s with
  | [] => Ok (set_pc t Finish s)
  | _ => match pick kind x s with
         | Some (v, s) => Ok (set_pc t (Transfer v) s)
         | None => match kind with ReactorAwareLock => Panic | _ => Err tt end
         end
  end.

Definition transfer_ownership (t v : nat) (s : Lock) : Lock :=
  set_pc t (SignalTo v None) (s <| l_state := Owned |>).

Definition finish_release (t : nat) (s : Lock) : Lock := set_pc t Idle (s <| l_state := LNone |>).

(** One step of a task; [Err] when it has none. *)
Definition step (kind : LockKind) (s : Lock) (l : nat * Chance) : result unit Lock :=
  let '(t, x) := l in
  match l_tasks s t with
  | Idle => if ch_try x then acquire_or t Critical Idle s else Ok (set_pc t Start s)
  | Start => acquire_or t Critical Enqueue s
  | Enqueue => Ok (enqueue_waiter t s)
  | Look w => Ok (check_state t w s)
  | Again w => acquire_or t (Give w) (CheckFlag w) s
  | Give w => Ok (pop_waiter t w s)
  | SignalTo v k => Ok (signal t v k s)
  | Take v k => s ← take_runtime v s; Ok (set_pc t (after_signal k) s)
  | CheckFlag w => Ok (check_flag t w (Poll w) s)
  | Poll w => Ok (check_flag t w (Park w) s)
  | Park w => Ok (store_waiting t w s)
  | ParkSwap w => Ok (set_waiting t w s)
  | TakeBack w => take_runtime w s
  | Parked _ => Err tt
  | Critical => start_release t s
  | Collect => Ok (collect kind t s)
  | Select => select kind t x s
  | Transfer v => Ok (transfer_ownership t v s)
  | Finish => Ok (finish_release t s)
  end.

(** A schedule: which task moves next, and what it meets. *)
Fixpoint lock_run (kind : LockKind) (ls : list (nat * Chance)) (s : Lock) : result unit Lock :=
  match ls with
  | [] => Ok s
  | l :: ls => s ← step kind s l; lock_run kind ls s
  end.

(** The waiters the releases of a schedule hand the lock to, in order. *)
Fixpoint handed (kind : LockKind) (ls : list (nat * Chance)) (s : Lock) : list nat :=
  match ls with
  | [] => []
  | l :: ls =>
      match l_tasks s l.1 with Transfer v => [v] | _ => [] end ++
      match step kind s l with Ok s => handed kind ls s | _ => [] end
  end.
