(* ===== verification/CoopLockProps.v ===== *)
(** * Properties of the cooperative locks

    There is one token: it is in the free lock, with a task, or with a waiter
    that was signaled.  Everything else follows from where it is. *)

From stdpp Require Import functions.
From S2P Require Import Prelude CoopLock.

Ltac unfold_step := unfold step, acquire_or, enqueue_waiter, check_state, pop_waiter, signal, check_flag, store_waiting,
  set_waiting, start_release, collect, select, transfer_ownership, finish_release.

Inductive Token := InLock | With (t : nat) | Granted (w : nat).

#[export] Instance Token_eq_dec : EqDecision Token.
Proof. solve_decision. Defined.

(** The waiter a task waits with. *)
Definition own (p : Pc) : option nat :=
  match p with
  | Look w | Again w | Give w | CheckFlag w | Poll w | Park w | ParkSwap w | TakeBack w | Parked w => Some w
  | SignalTo _ k | Take _ k => k
  | _ => None
  end.

Definition holds (p : Pc) : bool :=
  match p with
  | Give _ | SignalTo _ _ | Critical | Collect | Select | Transfer _ | Finish => true
  | _ => false
  end.

(** The waiter a task is about to signal. *)
Definition hand (p : Pc) : list nat := match p with SignalTo v _ | Transfer v => [v] | _ => [] end.

Definition releasing (p : Pc) : bool :=
  match p with Collect | Select | Transfer _ | Finish => true | _ => false end.

(** The release has found the queue empty; the vector as well. *)
Definition queue_seen (p : Pc) : bool := match p with Select | Finish => true | _ => false end.
Definition vector_empty (p : Pc) : bool := match p with Finish | Give _ => true | _ => false end.

Definition with_token (f : Pc → bool) (free : bool) (tok : Token) (s : Lock) : bool :=
  match tok with InLock => free | With t => f (l_tasks s t) | Granted _ => false end.

(** The waiters nobody has signaled yet. *)
Definition line (tok : Token) (s : Lock) : list nat :=
  match tok with With t => hand (l_tasks s t) | _ => [] end ++ l_queue s ++ l_waiters s.

Definition granted (tok : Token) : option nat := match tok with Granted w => Some w | _ => None end.

(** Who waits with what: every waiter has one task, and stands in the line or
    is the one that was signaled. *)
Record owners (o : nat → option nat) (next : nat) (l : list nat) (g : option nat) : Prop := {
  o_inj : ∀ t t' w, o t = Some w → o t' = Some w → t = t';
  o_fresh : ∀ t w, o t = Some w → (w < next)%nat;
  o_nodup : NoDup (l ++ option_list g);
  o_task : ∀ w, w ∈ l ++ option_list g → ∃ t, o t = Some w;
  o_place : ∀ t w, o t = Some w → w ∈ l ++ option_list g;
}.

(** The cell of the waiter of task [t] at [p]; [g]: it was signaled. *)
Definition cell_ok (g : bool) (t : nat) (p : Pc) (c : WaitOne) : Prop :=
  match p with
  | Parked _ => waiting_future c = Some t ∧ is_signaled c = true
  | ParkSwap _ => waiting_future c = Some t ∧ is_signaled c = g
  | TakeBack _ => waiting_future c = Some t ∧ is_signaled c = true ∧ g = true
  | _ => is_signaled c = g
  end.

Record inv (kind : LockKind) (tok : Token) (s : Lock) : Prop := {
  i_state : l_state s = match tok with
                        | InLock => LNone
                        | With t => if releasing (l_tasks s t) then Releasing else Owned
                        | Granted _ => Owned
                        end;
  i_hold : ∀ t, holds (l_tasks s t) = true ↔ tok = With t;
  i_owners : owners (λ t, own (l_tasks s t)) (l_next s) (line tok s) (granted tok);
  i_cell : ∀ t w, own (l_tasks s t) = Some w →
             cell_ok (bool_decide (tok = Granted w)) t (l_tasks s t) (l_cells s w);
  i_take : ∀ u v k, l_tasks s u = Take v k → tok = Granted v ∧ (∃ t, l_tasks s t = Parked v) ∧
             ∀ u' k', l_tasks s u' = Take v k' → u' = u;
  i_parked : ∀ t w, l_tasks s t = Parked w → tok = Granted w → ∃ u k, l_tasks s u = Take w k;
  i_seen : with_token queue_seen true tok s = true → ∀ w, w ∈ l_queue s →
             ∃ t, l_tasks s t = Look w ∨ (tok = InLock ∧ l_tasks s t = Again w);
  i_empty : with_token vector_empty true tok s = true → l_waiters s = [];
  i_fair : kind = FairLock → l_waiters s = [] ∧ StronglySorted lt (line tok s);
}.

Lemma inv_new kind : inv kind InLock lock_new.
Proof.
  constructor; cbn; try done; [|set_solver|repeat constructor].
  constructor; cbn; try done; [constructor|set_solver].
Qed.

(** ** Waiters and their tasks *)

Lemma fn_at {A} (f : nat → A) t p t' : <[t := p]> f t' = if decide (t = t') then p else f t'.
Proof.
  destruct (decide (t = t')) as [->|Hne]; [by rewrite fn_lookup_insert|by rewrite fn_lookup_insert_ne].
Qed.

Lemma owners_proper o o' n l l' g :
  (∀ t, o' t = o t) → l' ≡ₚ l → owners o n l g → owners o' n l' g.
Proof.
  intros Ho Hl []. constructor; try (intros *; rewrite ?Ho, ?Hl).
  - apply o_inj0.
  - apply o_fresh0.
  - done.
  - intros Hw. destruct (o_task0 _ Hw) as [t Ht]. exists t. by rewrite Ho.
  - apply o_place0.
Qed.

(** A task enters with a new waiter. *)
Lemma owners_enter o n l g t :
  o t = None → owners o n l g → owners (<[t := Some n]> o) (S n) (l ++ [n]) g.
Proof.
  intros Ht [Hi Hf Hn Ht' Hp].
  assert (Hnew : n ∉ l ++ option_list g).
  { intros Hw. destruct (Ht' _ Hw) as [t' E]. specialize (Hf _ _ E). lia. }
  assert (Hperm : (l ++ [n]) ++ option_list g ≡ₚ n :: l ++ option_list g) by solve_Permutation.
  constructor.
  - intros t1 t2 w. rewrite !fn_at. repeat case_decide; intros; simplify_eq; [done| | |by eapply Hi].
    + specialize (Hf _ _ H2). lia.
    + specialize (Hf _ _ H1). lia.
  - intros t' w. rewrite fn_at. case_decide; intros; simplify_eq; [lia|].
    specialize (Hf _ _ H0). lia.
  - rewrite Hperm. by constructor.
  - intros w. rewrite Hperm, elem_of_cons. intros [->|Hw].
    + exists t. by rewrite fn_lookup_insert.
    + destruct (Ht' _ Hw) as [t' E]. exists t'. rewrite fn_at. case_decide; congruence.
  - intros t' w. rewrite fn_at, Hperm, elem_of_cons. case_decide; intros; simplify_eq; eauto.
Qed.

(** The first of the line is signaled. *)
Lemma owners_grant o n v l : owners o n (v :: l) None → owners o n l (Some v).
Proof.
  intros []. assert (Hperm : l ++ [v] ≡ₚ (v :: l) ++ []) by solve_Permutation.
  constructor; cbn [option_list] in *; try (intros *; rewrite Hperm); eauto.
Qed.

(** The signaled waiter is done with. *)
Lemma owners_leave o n l w t :
  o t = Some w → owners o n l (Some w) → owners (<[t := None]> o) n l None.
Proof.
  intros Ht [Hi Hf Hn Ht' Hp]. cbn [option_list] in *.
  assert (Hperm : l ++ [w] ≡ₚ w :: l) by solve_Permutation.
  rewrite Hperm in Hn. apply NoDup_cons in Hn as [Hw Hn].
  constructor; cbn [option_list]; rewrite ?app_nil_r.
  - intros t1 t2 v. rewrite !fn_at. repeat case_decide; try done. apply Hi.
  - intros t' v. rewrite fn_at. case_decide; [done|apply Hf].
  - done.
  - intros v Hv. destruct (Ht' v) as [t' E]; [rewrite Hperm; by right|].
    exists t'. rewrite fn_at. case_decide; [congruence|done].
  - intros t' v. rewrite fn_at. case_decide; [done|]. intros E.
    pose proof (Hp _ _ E) as Hv. rewrite Hperm, elem_of_cons in Hv. destruct Hv as [->|]; [|done].
    by destruct (Hi t t' w).
Qed.

(** ** A task that keeps its waiter *)

#[export] Instance Pc_eq_dec : EqDecision Pc.
Proof. solve_decision. Defined.

(** Where the cell only carries the flag, and nobody waits for the step. *)
Definition plain (p : Pc) : bool :=
  match p with Take _ _ | Parked _ | ParkSwap _ | TakeBack _ => false | _ => true end.

Lemma cell_plain g t p c : plain p = true → cell_ok g t p c ↔ is_signaled c = g.
Proof. by destruct p. Qed.

Lemma inv_with kind tok s t : inv kind tok s → holds (l_tasks s t) = true → tok = With t.
Proof. intros Hi. apply (i_hold _ _ _ Hi). Qed.

Lemma own_same (f : nat → Pc) t p : own p = own (f t) → ∀ t', own (<[t := p]> f t') = own (f t').
Proof. intros Hp t'. rewrite fn_at. case_decide; by subst. Qed.

(** The clauses on the cells and on the pending wake-ups, when a task goes from
    one plain place to another and nothing is signaled. *)
Lemma plain_cells (f : nat → Pc) (tok tok' : Token) cells t p :
  plain (f t) = true → plain p = true → own p = own (f t) → granted tok = granted tok' →
  (∀ t w, own (f t) = Some w → cell_ok (bool_decide (tok = Granted w)) t (f t) (cells w)) →
  ∀ t' w, own (<[t := p]> f t') = Some w →
    cell_ok (bool_decide (tok' = Granted w)) t' (<[t := p]> f t') (cells w).
Proof.
  intros Hf Hp Ho Hg Hc t' w. rewrite own_same by done. intros Hw.
  replace (bool_decide (tok' = Granted w)) with (bool_decide (tok = Granted w))
    by (apply bool_decide_ext; destruct tok, tok'; naive_solver).
  rewrite fn_at. case_decide; subst; [|by apply Hc].
  rewrite cell_plain by done. rewrite <- (cell_plain _ t' (f t')) by done. by apply Hc.
Qed.

(** Nobody is waited for there, and nobody waits. *)
Definition calm (p : Pc) : bool := match p with Take _ _ | Parked _ => false | _ => true end.

Lemma plain_calm p : plain p = true → calm p = true.
Proof. by destruct p. Qed.

Lemma plain_take (f : nat → Pc) (tok tok' : Token) t p :
  calm (f t) = true → calm p = true → granted tok = granted tok' →
  (∀ u v k, f u = Take v k → tok = Granted v ∧ (∃ t, f t = Parked v) ∧ ∀ u' k', f u' = Take v k' → u' = u) →
  ∀ u v k, <[t := p]> f u = Take v k → tok' = Granted v ∧ (∃ t', <[t := p]> f t' = Parked v) ∧
    ∀ u' k', <[t := p]> f u' = Take v k' → u' = u.
Proof.
  intros Hf Hp Hg Ht u v k. rewrite fn_at. case_decide; [by intros ->|]. intros Hu.
  destruct (Ht _ _ _ Hu) as (-> & (t' & Ht') & Hu'). repeat split.
  - by destruct tok'; simplify_eq/=.
  - exists t'. rewrite fn_at. case_decide; [|done]. subst. by rewrite Ht' in Hf.
  - intros u' k'. rewrite fn_at. case_decide; [by intros ->|apply Hu'].
Qed.

Lemma plain_parked (f : nat → Pc) (tok tok' : Token) t p :
  calm (f t) = true → calm p = true → granted tok = granted tok' →
  (∀ t w, f t = Parked w → tok = Granted w → ∃ u k, f u = Take w k) →
  ∀ t' w, <[t := p]> f t' = Parked w → tok' = Granted w → ∃ u k, <[t := p]> f u = Take w k.
Proof.
  intros Hf Hp Hg Hk t' w. rewrite fn_at. case_decide; [by intros ->|]. intros Hw ->.
  destruct tok; simplify_eq/=. destruct (Hk _ _ Hw) as (u & k & Hu); [done|].
  exists u, k. rewrite fn_at. case_decide; [|done]. subst. by rewrite Hu in Hf.
Qed.

Lemma inv_plain kind tok tok' s s' t p :
  inv kind tok s → l_tasks s' = <[t := p]> (l_tasks s) → l_cells s' = l_cells s → l_next s' = l_next s →
  plain (l_tasks s t) = true → plain p = true → own p = own (l_tasks s t) → granted tok = granted tok' →
  line tok' s' ≡ₚ line tok s →
  l_state s' = match tok' with
               | InLock => LNone
               | With u => if releasing (l_tasks s' u) then Releasing else Owned
               | Granted _ => Owned
               end →
  (∀ u, holds (l_tasks s' u) = true ↔ tok' = With u) →
  (with_token queue_seen true tok' s' = true → ∀ w, w ∈ l_queue s' →
     ∃ u, l_tasks s' u = Look w ∨ (tok' = InLock ∧ l_tasks s' u = Again w)) →
  (with_token vector_empty true tok' s' = true → l_waiters s' = []) →
  (kind = FairLock → l_waiters s' = [] ∧ StronglySorted lt (line tok' s')) →
  inv kind tok' s'.
Proof.
  intros Hi Ht Hc Hn Hf Hp Ho Hg Hl Hst Hh Hs He Hfair. constructor; try done.
  - rewrite <- Hg, Hn. eapply owners_proper; [|done|apply (i_owners _ _ _ Hi)].
    intros u. rewrite Ht. by apply own_same.
  - rewrite Ht, Hc. by apply (plain_cells _ tok), (i_cell _ _ _ Hi).
  - rewrite Ht. apply (plain_take _ tok); [by apply plain_calm..|done|apply (i_take _ _ _ Hi)].
  - rewrite Ht. apply (plain_parked _ tok); [by apply plain_calm..|done|apply (i_parked _ _ _ Hi)].
Qed.

(** What the step of a task without the token leaves as it was. *)
Definition same_holder (tok : Token) (s s' : Lock) : Prop := ∀ u, tok = With u → l_tasks s' u = l_tasks s u.

Lemma same_holder_pc kind tok s s' t p :
  inv kind tok s → holds (l_tasks s t) = false → l_tasks s' = <[t := p]> (l_tasks s) → same_holder tok s s'.
Proof.
  intros Hi Hh Ht u Hu. apply (i_hold _ _ _ Hi) in Hu. rewrite Ht, fn_at. case_decide; congruence.
Qed.

Lemma same_hold kind tok s s' t p :
  inv kind tok s → holds (l_tasks s t) = holds p → l_tasks s' = <[t := p]> (l_tasks s) →
  ∀ u, holds (l_tasks s' u) = true ↔ tok = With u.
Proof.
  intros Hi Hp Ht u. rewrite <- (i_hold _ _ _ Hi), Ht, fn_at. case_decide; subst; by rewrite ?Hp.
Qed.

Lemma same_token tok s s' f b : same_holder tok s s' → with_token f b tok s' = with_token f b tok s.
Proof. intros Hs. destruct tok; [done| |done]. unfold with_token. by rewrite Hs. Qed.

Lemma same_line tok s s' :
  same_holder tok s s' → l_queue s' = l_queue s → l_waiters s' = l_waiters s → line tok s' = line tok s.
Proof. intros Hs Hq Hw. unfold line. rewrite Hq, Hw. destruct tok; [done| |done]. by rewrite Hs. Qed.

Lemma same_state kind tok s s' :
  inv kind tok s → same_holder tok s s' → l_state s' = l_state s →
  l_state s' = match tok with
               | InLock => LNone
               | With u => if releasing (l_tasks s' u) then Releasing else Owned
               | Granted _ => Owned
               end.
Proof. intros Hi Hs ->. rewrite (i_state _ _ _ Hi). destruct tok; [done| |done]. by rewrite Hs. Qed.

(** A task without the token moves on. *)
Lemma inv_move kind tok s t p :
  inv kind tok s → holds (l_tasks s t) = false → holds p = false →
  plain (l_tasks s t) = true → plain p = true → own p = own (l_tasks s t) →
  (∀ w, with_token queue_seen true tok s = true → w ∈ l_queue s →
     l_tasks s t = Look w ∨ (tok = InLock ∧ l_tasks s t = Again w) → p = Look w ∨ (tok = InLock ∧ p = Again w)) →
  inv kind tok (set_pc t p s).
Proof.
  intros Hi Hh Hp Hf Hp' Ho Hq. set (s' := set_pc t p s).
  assert (Ht : l_tasks s' = <[t := p]> (l_tasks s)) by done.
  assert (Hs : same_holder tok s s') by by eapply same_holder_pc.
  assert (Hl : line tok s' = line tok s) by by apply same_line.
  eapply inv_plain; try done; rewrite ?Hl, ?(same_token tok s s') by done; try done.
  - by eapply same_state.
  - eapply same_hold; [done| |exact Ht]. by rewrite Hh.
  - intros Hs' w Hin. destruct (i_seen _ _ _ Hi Hs' w Hin) as [u Hu].
    exists u. rewrite Ht, fn_at. case_decide; subst; [by apply Hq|done].
  - apply (i_empty _ _ _ Hi).
  - apply (i_fair _ _ _ Hi).
Qed.

(** The holder moves on and keeps the token. *)
Lemma inv_keep kind s s' t p :
  inv kind (With t) s → l_tasks s' = <[t := p]> (l_tasks s) → l_cells s' = l_cells s → l_next s' = l_next s →
  plain p = true → own p = own (l_tasks s t) → holds p = true →
  l_state s' = (if releasing p then Releasing else Owned) →
  hand p ++ l_queue s' ++ l_waiters s' ≡ₚ hand (l_tasks s t) ++ l_queue s ++ l_waiters s →
  (queue_seen p = true → l_queue s' = [] ∨ (queue_seen (l_tasks s t) = true ∧ l_queue s' = l_queue s)) →
  (vector_empty p = true → l_waiters s' = []) →
  (kind = FairLock → l_waiters s' = [] ∧ hand p ++ l_queue s' = hand (l_tasks s t) ++ l_queue s) →
  inv kind (With t) s'.
Proof.
  intros Hi Ht Hc Hn Hp Ho Hh Hst Hl Hs He Hf.
  assert (Hat : l_tasks s' t = p) by by rewrite Ht, fn_lookup_insert.
  assert (Hh' : holds (l_tasks s t) = true) by by apply (i_hold _ _ _ Hi).
  eapply inv_plain; try done; unfold line, with_token; rewrite ?Hat; try done.
  - by destruct (l_tasks s t).
  - intros u. rewrite <- (i_hold _ _ _ Hi), Ht, fn_at. case_decide; subst; [by rewrite Hh, Hh'|done].
  - intros Hq w Hin. destruct (Hs Hq) as [E|[Hq' E]]; rewrite E in Hin; [set_solver|].
    destruct (i_seen _ _ _ Hi Hq' w Hin) as [u [Hu|[? _]]]; [|done].
    exists u. left. rewrite Ht, fn_at. case_decide; [|done]. subst. by rewrite Hu in Hh'.
  - intros Hk. destruct (Hf Hk) as [Hw El], (i_fair _ _ _ Hi Hk) as [Hw' Hs'].
    split; [done|]. unfold line in Hs'. rewrite Hw, app_assoc, El, app_nil_r.
    by rewrite Hw', app_nil_r in Hs'.
Qed.

(** A free lock is taken by an exchange. *)
Lemma inv_win kind s t p :
  inv kind InLock s → plain (l_tasks s t) = true → plain p = true → own p = own (l_tasks s t) →
  holds p = true → hand p = [] → releasing p = false → queue_seen p = false →
  inv kind (With t) (set_pc t p (s <| l_state := Owned |>)).
Proof.
  intros Hi Hf Hp Ho Hh Hd Hr Hq.
  assert (Hat : l_tasks (set_pc t p (s <| l_state := Owned |>)) t = p) by apply fn_lookup_insert.
  assert (Hl : line (With t) (set_pc t p (s <| l_state := Owned |>)) = line InLock s)
    by (unfold line; by rewrite Hat, Hd).
  eapply inv_plain; try done; rewrite ?Hl; unfold with_token; rewrite ?Hat, ?Hr, ?Hq; try done.
  - intros u. change (holds (<[t := p]> (l_tasks s) u) = true ↔ With t = With u).
    rewrite fn_at. case_decide; subst; [done|]. rewrite (i_hold _ _ _ Hi). naive_solver.
  - intros _. by apply (i_empty _ _ _ Hi).
  - apply (i_fair _ _ _ Hi).
Qed.

(** The release ends without a waiter. *)
Lemma inv_finish kind s t :
  inv kind (With t) s → l_tasks s t = Finish → inv kind InLock (set_pc t Idle (s <| l_state := LNone |>)).
Proof.
  intros Hi Ht.
  assert (Hl : line (With t) s = line InLock s) by (unfold line; by rewrite Ht).
  eapply inv_plain; try done; try by rewrite Ht.
  - by rewrite Hl.
  - intros u. change (holds (<[t := Idle]> (l_tasks s) u) = true ↔ InLock = With u).
    rewrite fn_at. case_decide; subst; [done|]. rewrite (i_hold _ _ _ Hi). naive_solver.
  - intros _ w Hw. destruct (i_seen _ _ _ Hi) with w as [u [Hu|[? _]]]; [cbn; by rewrite Ht|done| |done].
    exists u. left. change (<[t := Idle]> (l_tasks s) u = Look w).
    rewrite fn_at. case_decide; subst; [congruence|done].
  - intros _. apply (i_empty _ _ _ Hi). cbn. by rewrite Ht.
  - intros Hk. change (l_waiters s = [] ∧ StronglySorted lt (line InLock s)).
    rewrite <- Hl. by apply (i_fair _ _ _ Hi).
Qed.

Lemma sorted_snoc (l : list nat) n : StronglySorted lt l → Forall (λ x, (x < n)%nat) l → StronglySorted lt (l ++ [n]).
Proof.
  induction 1 as [|x l Hs IH Hx]; cbn; [repeat constructor|]. rewrite Forall_cons. intros [Hn Hl].
  constructor; [by apply IH|]. apply Forall_app. by repeat constructor.
Qed.

(** A task queues a new waiter. *)
Lemma line_enqueue tok s s' w :
  same_holder tok s s' → l_queue s' = l_queue s ++ [w] → l_waiters s' = l_waiters s →
  line tok s' ≡ₚ line tok s ++ [w] ∧ (l_waiters s = [] → line tok s' = line tok s ++ [w]).
Proof.
  intros Hs Hq Hw. unfold line. rewrite Hq, Hw.
  replace (match tok with With t => hand (l_tasks s' t) | _ => [] end)
    with (match tok with With t => hand (l_tasks s t) | _ => [] end) by (destruct tok; [|rewrite Hs|]; done).
  split; [solve_Permutation|]. intros ->. by rewrite !app_nil_r, app_assoc.
Qed.

Lemma inv_enqueue kind tok s t :
  inv kind tok s → l_tasks s t = Enqueue →
  inv kind tok (set_pc t (Look (l_next s))
    ((set_cell (l_next s) wait_one_new s) <| l_next := S (l_next s) |> <| l_queue ::= (λ q, q ++ [l_next s]) |>)).
Proof.
  intros Hi Ht. set (w := l_next s). set (s' := set_pc _ _ _).
  assert (Hf : l_tasks s' = <[t := Look w]> (l_tasks s)) by done.
  assert (Hold : ∀ v, v ∈ line tok s ++ option_list (granted tok) → (v < w)%nat).
  { intros v Hv. destruct (o_task _ _ _ _ (i_owners _ _ _ Hi) v Hv) as [u Hu].
    by apply (o_fresh _ _ _ _ (i_owners _ _ _ Hi) u). }
  assert (Hs : same_holder tok s s') by (eapply same_holder_pc; [done|by rewrite Ht|done]).
  destruct (line_enqueue tok s s' w Hs) as [Hl Hl']; [done..|].
  constructor; rewrite ?(same_token tok s s') by done.
  - by eapply same_state.
  - eapply same_hold; [done| |exact Hf]. by rewrite Ht.
  - eapply owners_proper; [|exact Hl|apply (owners_enter (λ t, own (l_tasks s t)) _ _ _ t), (i_owners _ _ _ Hi); by rewrite Ht].
    intros u. rewrite Hf, !fn_at. by case_decide.
  - intros u v. rewrite Hf. change (l_cells s' v) with (<[w := wait_one_new]> (l_cells s) v).
    rewrite !fn_at. case_decide; subst; cbn; intros Hv; simplify_eq.
    + case_decide as E; [|by destruct E]. cbn. symmetry. apply bool_decide_eq_false. intros ->.
      enough (l_next s < l_next s)%nat by lia. apply Hold. cbn. set_solver.
    + rewrite decide_False; [by apply (i_cell _ _ _ Hi)|].
      apply (o_fresh _ _ _ _ (i_owners _ _ _ Hi)) in Hv. lia.
  - rewrite Hf. apply (plain_take _ tok); try done; [by rewrite Ht|apply (i_take _ _ _ Hi)].
  - rewrite Hf. apply (plain_parked _ tok); try done; [by rewrite Ht|apply (i_parked _ _ _ Hi)].
  - intros Hq v. change (l_queue s') with (l_queue s ++ [w]). rewrite elem_of_app, list_elem_of_singleton, Hf.
    intros [Hv| ->]; [|exists t; left; by rewrite fn_lookup_insert].
    destruct (i_seen _ _ _ Hi Hq v Hv) as [u Hu]. exists u. rewrite fn_at.
    case_decide; subst; [|done]. rewrite Ht in Hu. naive_solver.
  - apply (i_empty _ _ _ Hi).
  - intros Hk. destruct (i_fair _ _ _ Hi Hk) as [E Hso]. split; [done|]. rewrite Hl' by done.
    apply sorted_snoc; [done|]. apply Forall_forall. intros v Hv. apply Hold. set_solver.
Qed.

(** ** Signals *)

Section signal.
Context (kind : LockKind) (s : Lock) (t v : nat) (k : option nat).
Context (Hi : inv kind (With t) s) (Ht : l_tasks s t = SignalTo v k).

Let flag := is_signaled (l_cells s v).
Let p := if flag then Take v k else after_signal k.
Let s' := set_pc t p (set_cell v ((l_cells s v) <| is_signaled := true |>) s).

Lemma signal_own u : own (l_tasks s' u) = own (l_tasks s u).
Proof. apply own_same. rewrite Ht. unfold p. by destruct flag, k. Qed.

Lemma signal_line : line (With t) s = v :: line (Granted v) s'.
Proof. unfold line. by rewrite Ht. Qed.

Lemma signal_owner : ∃ u, own (l_tasks s u) = Some v.
Proof. apply (o_task _ _ _ _ (i_owners _ _ _ Hi)). rewrite signal_line. set_solver. Qed.

Lemma flag_parked u : own (l_tasks s u) = Some v → flag = true → l_tasks s u = Parked v.
Proof.
  intros Hu Hf. pose proof (i_cell _ _ _ Hi u v Hu) as Hc. rewrite bool_decide_false in Hc by done.
  unfold flag in Hf. destruct (l_tasks s u); cbn in *; destruct_and?; congruence.
Qed.

Lemma signal_cell u w :
  own (l_tasks s' u) = Some w → cell_ok (bool_decide (Granted v = Granted w)) u (l_tasks s' u) (l_cells s' w).
Proof.
  rewrite signal_own. intros Hu. pose proof (i_cell _ _ _ Hi u w Hu) as Hc.
  rewrite bool_decide_false in Hc by done.
  change (l_tasks s' u) with (<[t := p]> (l_tasks s) u).
  change (l_cells s' w) with (<[v := (l_cells s v) <| is_signaled := true |>]> (l_cells s) w).
  rewrite !fn_at. destruct (decide (v = w)) as [<-|Hne].
  - rewrite bool_decide_true by done. case_decide; subst; [unfold p; by destruct flag, k|].
    destruct (l_tasks s u); cbn in *; destruct_and?; done.
  - rewrite bool_decide_false by congruence. case_decide; subst; [|done].
    rewrite Ht in Hc. unfold p. by destruct flag, k.
Qed.

Lemma inv_signal : inv kind (Granted v) s'.
Proof.
  destruct signal_owner as [o Ho]. pose proof (flag_parked o Ho) as Hpk.
  assert (Hp : holds p = false) by (unfold p; by destruct flag, k).
  assert (Hf : l_tasks s' = <[t := p]> (l_tasks s)) by done.
  assert (Hno : ∀ u w j, l_tasks s u ≠ Take w j).
  { intros u w j Hu. by destruct (i_take _ _ _ Hi _ _ _ Hu). }
  constructor.
  - change (l_state s') with (l_state s). rewrite (i_state _ _ _ Hi). by rewrite Ht.
  - intros u. rewrite Hf, fn_at. case_decide; [by rewrite Hp|]. rewrite (i_hold _ _ _ Hi). naive_solver.
  - apply owners_grant. rewrite <- signal_line. eapply owners_proper; [apply signal_own|done|apply (i_owners _ _ _ Hi)].
  - apply signal_cell.
  - intros u w j. rewrite Hf, fn_at. case_decide; [subst u|by intros ?%Hno].
    unfold p. destruct flag eqn:Hfl; [|by destruct k]. intros [= <- <-]. repeat split.
    + specialize (Hpk eq_refl). exists o. rewrite fn_at. case_decide; congruence.
    + intros u' j'. rewrite fn_at. case_decide; [done|by intros ?%Hno].
  - intros u w. rewrite Hf, fn_at. case_decide; [unfold p; by destruct flag, k|]. intros Hu [= <-].
    pose proof (i_cell _ _ _ Hi u v) as Hc. rewrite Hu in Hc. destruct Hc as [_ Hc]; [done|].
    exists t, k. rewrite fn_lookup_insert. unfold p, flag. by rewrite Hc.
  - done.
  - done.
  - intros Hk. destruct (i_fair _ _ _ Hi Hk) as [Hw Hs]. split; [done|].
    rewrite signal_line in Hs. by inversion Hs.
Qed.

End signal.

(** A task finds its waiter signaled. *)
Lemma inv_claim kind tok s t w :
  inv kind tok s → l_tasks s t = CheckFlag w ∨ l_tasks s t = Poll w → is_signaled (l_cells s w) = true →
  inv kind (With t) (set_pc t Critical s).
Proof.
  intros Hi Ht Hf.
  assert (Ho : own (l_tasks s t) = Some w) by by destruct Ht as [-> | ->].
  assert (tok = Granted w) as ->.
  { pose proof (i_cell _ _ _ Hi t w Ho) as Hc. rewrite cell_plain, Hf in Hc by by destruct Ht as [-> | ->].
    symmetry in Hc. by apply bool_decide_eq_true in Hc. }
  assert (Hinj : ∀ u, own (l_tasks s u) = Some w → u = t).
  { intros u Hu. by eapply (o_inj _ _ _ _ (i_owners _ _ _ Hi)). }
  set (s' := set_pc t Critical s). assert (Hs : l_tasks s' = <[t := Critical]> (l_tasks s)) by done.
  assert (Hat : l_tasks s' t = Critical) by by rewrite Hs, fn_lookup_insert.
  constructor; unfold with_token, line; rewrite ?Hat; try done.
  - apply (i_state _ _ _ Hi).
  - intros u. rewrite Hs, fn_at. case_decide; [by subst|]. rewrite (i_hold _ _ _ Hi). naive_solver.
  - eapply owners_proper; [|done|apply (owners_leave (λ t, own (l_tasks s t)) _ _ w t Ho), (i_owners _ _ _ Hi)].
    intros u. rewrite Hs, !fn_at. by case_decide.
  - intros u v. rewrite Hs, fn_at. case_decide; [done|]. intros Hv.
    pose proof (i_cell _ _ _ Hi u v Hv) as Hc. rewrite bool_decide_false by done.
    rewrite bool_decide_false in Hc; [done|]. intros [= ->]. by apply Hinj in Hv.
  - intros u v k. rewrite Hs, fn_at. case_decide; [done|]. intros Hu.
    destruct (i_take _ _ _ Hi _ _ _ Hu) as ([= <-] & (t' & Ht') & _).
    assert (t' = t) as -> by (apply Hinj; by rewrite Ht'). rewrite Ht' in Ht. naive_solver.
  - apply (i_fair _ _ _ Hi).
Qed.

(** ** Waiting *)

(** A waiting task goes on waiting. *)
Definition nudge (p p' : Pc) : Prop :=
  p' = p ∨ (own p' = own p ∧ holds p = false ∧ holds p' = false ∧ match p with Look _ | Again _ => False | _ => True end).

Lemma inv_nudge kind tok s s' :
  inv kind tok s → (∀ u, nudge (l_tasks s u) (l_tasks s' u)) →
  l_state s' = l_state s → l_queue s' = l_queue s → l_waiters s' = l_waiters s → l_next s' = l_next s →
  (∀ t w, own (l_tasks s' t) = Some w →
     cell_ok (bool_decide (tok = Granted w)) t (l_tasks s' t) (l_cells s' w)) →
  (∀ u v k, l_tasks s' u = Take v k → tok = Granted v ∧ (∃ t, l_tasks s' t = Parked v) ∧
     ∀ u' k', l_tasks s' u' = Take v k' → u' = u) →
  (∀ t w, l_tasks s' t = Parked w → tok = Granted w → ∃ u k, l_tasks s' u = Take w k) →
  inv kind tok s'.
Proof.
  intros Hi Hn Est Eq Ew En Hc Ht Hp.
  assert (Hs : same_holder tok s s').
  { intros u Hu. apply (i_hold _ _ _ Hi) in Hu. destruct (Hn u) as [|(_ & ? & _)]; [done|congruence]. }
  assert (Hl : line tok s' = line tok s) by by apply same_line.
  constructor; rewrite ?(same_token tok s s') by done; rewrite ?Hl, ?Ew, ?Eq; try done.
  - by eapply same_state.
  - intros u. rewrite <- (i_hold _ _ _ Hi). destruct (Hn u) as [->|(_ & -> & -> & _)]; done.
  - rewrite En. eapply owners_proper; [|done|apply (i_owners _ _ _ Hi)].
    intros u. by destruct (Hn u) as [->|(-> & _)].
  - intros Hq w Hw. destruct (i_seen _ _ _ Hi Hq w Hw) as [u Hu]. exists u.
    destruct (Hn u) as [->|(_ & _ & _ & Hm)]; [done|].
    destruct Hu as [E|[_ E]]; by rewrite E in Hm.
  - apply (i_empty _ _ _ Hi).
  - apply (i_fair _ _ _ Hi).
Qed.

(** Cells of other tasks are untouched when one cell of a task changes. *)
Lemma other_cell kind tok s t w c u v :
  inv kind tok s → own (l_tasks s t) = Some w → t ≠ u → own (l_tasks s u) = Some v →
  cell_ok (bool_decide (tok = Granted v)) u (l_tasks s u) (<[w := c]> (l_cells s) v).
Proof.
  intros Hi Ht Hne Hu. rewrite fn_lookup_insert_ne; [by apply (i_cell _ _ _ Hi)|].
  intros ->. by destruct Hne; eapply (o_inj _ _ _ _ (i_owners _ _ _ Hi)).
Qed.

Lemma inv_wait kind tok s t w p c :
  inv kind tok s → own (l_tasks s t) = Some w → nudge (l_tasks s t) p → own p = Some w →
  calm (l_tasks s t) = true → calm p = true → cell_ok (bool_decide (tok = Granted w)) t p c →
  inv kind tok (set_pc t p (set_cell w c s)).
Proof.
  intros Hi Ho Hn Hp Hc Hc' Hcell. set (s' := set_pc t p _).
  assert (Hs : l_tasks s' = <[t := p]> (l_tasks s)) by done.
  eapply inv_nudge; try done; rewrite Hs.
  - intros u. rewrite fn_at. destruct (decide (t = u)) as [<-|]; [done|by left].
  - intros u v. change (l_cells s' v) with (<[w := c]> (l_cells s) v).
    rewrite (fn_at (l_tasks s)). destruct (decide (t = u)) as [<-|]; [|intros Hv; by eapply other_cell].
    rewrite Hp. intros [= <-]. by rewrite fn_lookup_insert.
  - apply (plain_take _ tok); [done..|apply (i_take _ _ _ Hi)].
  - apply (plain_parked _ tok); [done..|apply (i_parked _ _ _ Hi)].
Qed.

(** The swap of [set_waiting]. *)
Lemma inv_park_swap kind tok s t w :
  inv kind tok s → l_tasks s t = ParkSwap w →
  inv kind tok (set_pc t (if is_signaled (l_cells s w) then TakeBack w else Parked w)
    (set_cell w ((l_cells s w) <| is_signaled := true |>) s)).
Proof.
  intros Hi Ht. assert (Ho : own (l_tasks s t) = Some w) by by rewrite Ht.
  pose proof (i_cell _ _ _ Hi t w Ho) as Hc. rewrite Ht in Hc. destruct Hc as [Hwf Hfl].
  destruct (is_signaled (l_cells s w)) eqn:E.
  { apply inv_wait; [done..| |done|by rewrite Ht|done|by rewrite <- Hfl]. rewrite Ht. by right. }
  symmetry in Hfl. apply bool_decide_eq_false in Hfl. set (s' := set_pc t _ _).
  assert (Hs : l_tasks s' = <[t := Parked w]> (l_tasks s)) by done.
  eapply inv_nudge; try done; rewrite Hs.
  - intros u. rewrite fn_at. case_decide; subst; [right; by rewrite Ht|by left].
  - intros u v. change (l_cells s' v) with (<[w := (l_cells s w) <| is_signaled := true |>]> (l_cells s) v).
    rewrite (fn_at (l_tasks s)). case_decide; subst; [|intros Hv; by eapply other_cell].
    intros [= <-]. by rewrite fn_lookup_insert.
  - intros u v k. rewrite fn_at. case_decide; [done|]. intros Hu.
    destruct (i_take _ _ _ Hi _ _ _ Hu) as (-> & (t' & Ht') & Hu'). repeat split.
    + exists t'. rewrite fn_at. case_decide; congruence.
    + intros u' k'. rewrite fn_at. case_decide; [done|apply Hu'].
  - intros u v. rewrite fn_at. case_decide; [intros [= <-] ->; by destruct Hfl|].
    intros Hu Hv. destruct (i_parked _ _ _ Hi _ _ Hu Hv) as (u' & k & Hk).
    exists u', k. rewrite fn_at. case_decide; congruence.
Qed.

(** [signal] takes the suspended task. *)
Lemma inv_take kind tok s u v k :
  inv kind tok s → l_tasks s u = Take v k →
  ∃ s', take_runtime v s = Ok s' ∧ inv kind tok (set_pc u (after_signal k) s').
Proof.
  intros Hi Hu. destruct (i_take _ _ _ Hi _ _ _ Hu) as (-> & (t & Ht) & Huniq).
  assert (Ho : own (l_tasks s t) = Some v) by by rewrite Ht.
  pose proof (i_cell _ _ _ Hi t v Ho) as Hc. rewrite Ht in Hc. destruct Hc as [Hwf Hfl].
  unfold take_runtime. rewrite Hwf. eexists; split; [done|]. set (s' := set_pc u _ _).
  assert (Hs : ∀ x, l_tasks s' x = if decide (u = x) then after_signal k else if decide (t = x) then Poll v else l_tasks s x).
  { intros x. change (l_tasks s' x) with (<[u := after_signal k]> (<[t := Poll v]> (l_tasks s)) x). by rewrite !fn_at. }
  assert (Hne : u ≠ t) by congruence.
  eapply inv_nudge; try done.
  - intros x. rewrite Hs. repeat case_decide; subst; [| |by left]; right; rewrite ?Hu, ?Ht; by destruct k.
  - intros x w. change (l_cells s' w) with (<[v := (l_cells s v) <| waiting_future := None |>]> (l_cells s) w).
    rewrite Hs. destruct (decide (u = x)) as [<-|]; [|destruct (decide (t = x)) as [<-|]].
    + intros Hw. assert (Hw' : own (l_tasks s u) = Some w) by (rewrite Hu; by destruct k).
      pose proof (other_cell _ _ s t v ((l_cells s v) <| waiting_future := None |>) u w Hi Ho) as Hc.
      rewrite Hu in Hc. destruct k; [|done]. apply Hc; congruence.
    + intros [= <-]. rewrite fn_lookup_insert, bool_decide_true by done. done.
    + intros Hw. by eapply other_cell.
  - intros x w j. rewrite Hs. repeat case_decide; [by destruct k|done|]. intros Hx.
    destruct (i_take _ _ _ Hi _ _ _ Hx) as ([= <-] & _). by destruct (Huniq _ _ Hx).
  - intros x w. rewrite Hs. repeat case_decide; [by destruct k|done|]. intros Hx [= <-].
    assert (t = x); [|done]. eapply (o_inj _ _ _ _ (i_owners _ _ _ Hi)); [done|by rewrite Hx].
Qed.

(** ** The choice of a waiter *)

Lemma swap_remove_perm (l : list nat) i v : l !! i = Some v → v :: swap_remove i l ≡ₚ l.
Proof.
  unfold swap_remove. destruct l as [|x l _] using rev_ind; [done|].
  rewrite last_snoc, length_app; cbn [length]. replace (length l + 1 - 1)%nat with (length l) by lia.
  intros Hv. destruct (decide (i < length l)%nat) as [Hlt|Hge].
  - rewrite lookup_app_l in Hv by done.
    rewrite insert_app_l, take_app_length' by (rewrite ?length_insert; done).
    rewrite insert_take_drop by done. rewrite <- (take_drop_middle l i v Hv) at 3. solve_Permutation.
  - assert (i = length l) as ->.
    { apply lookup_lt_Some in Hv. rewrite length_app in Hv. cbn in Hv. lia. }
    rewrite lookup_app_r, Nat.sub_diag in Hv by done. injection Hv as ->.
    rewrite insert_app_r_alt by done. rewrite take_app_length. solve_Permutation.
Qed.

Lemma min_index_lt load l i best key n :
  (best < n)%nat → (i + length l ≤ n)%nat → (min_index load l i best key < n)%nat.
Proof.
  revert i best key. induction l as [|w l IH]; intros i best key Hb Hi; cbn in *; [done|].
  case_match; apply IH; lia.
Qed.

Lemma least_loaded_lt load l : l ≠ [] → (least_loaded load l < length l)%nat.
Proof. destruct l as [|w l]; [done|]. intros _. apply min_index_lt; cbn; lia. Qed.

(** The scan of [ReactorAwareLock::release] always finds somebody. *)
Lemma aware_pick_lt load l c : l ≠ [] → ((aware_pick load l c).1 < length l)%nat.
Proof.
  intros Hl. unfold aware_pick; cbn. set (c' := if Nat.eqb c 0 then length l else c).
  assert (Hc : (0 < c')%nat).
  { subst c'. destruct l; [done|]. destruct (Nat.eqb_spec c 0); cbn; lia. }
  assert (0 < length l)%nat by (destruct l; [done|cbn; lia]).
  eapply Nat.lt_le_trans; [apply least_loaded_lt|rewrite length_take; lia].
  intros E. apply (f_equal length) in E. rewrite length_take in E. cbn in E. lia.
Qed.

Lemma pick_spec kind x s v s' :
  pick kind x s = Some (v, s') →
  v :: l_waiters s' ≡ₚ l_waiters s ∧ l_tasks s' = l_tasks s ∧ l_cells s' = l_cells s ∧ l_next s' = l_next s ∧
  l_queue s' = l_queue s ∧ l_state s' = l_state s.
Proof.
  unfold pick. destruct kind.
  1, 2: intros (u & Hu & [= <- <-])%bind_Some; split_and!; try done; by apply swap_remove_perm.
  destruct (aware_pick _ _ _) as [i c]. intros (u & Hu & [= <- <-])%bind_Some. split_and!; try done.
  by apply swap_remove_perm.
Qed.

Lemma pick_aware x s : l_waiters s ≠ [] → is_Some (pick ReactorAwareLock x s).
Proof.
  intros Hw. unfold pick. pose proof (aware_pick_lt (ch_load x) _ (l_counter s) Hw) as Hlt.
  destruct (aware_pick _ _ _) as [i c]. apply lookup_lt_is_Some in Hlt as [v Hv]. cbn in Hv.
  rewrite Hv. by eexists.
Qed.

(** ** Every step *)

Definition safe (kind : LockKind) (r : result unit Lock) : Prop :=
  match r with
  | Ok s => ∃ tok, inv kind tok s
  | Err _ => True
  | _ => False
  end.

Lemma free_token kind tok s : inv kind tok s → l_state s = LNone ↔ tok = InLock.
Proof.
  intros Hi. rewrite (i_state _ _ _ Hi). destruct tok as [|t|]; [done| |done]. by destruct (releasing _).
Qed.

(** [compare_exchange], won or lost. *)
Lemma safe_acquire kind tok s t p q :
  inv kind tok s → holds (l_tasks s t) = false → plain (l_tasks s t) = true → (∀ w, l_tasks s t ≠ Look w) →
  plain p = true → own p = own (l_tasks s t) →
  holds p = true → hand p = [] → releasing p = false → queue_seen p = false →
  holds q = false → plain q = true → own q = own (l_tasks s t) →
  safe kind (let '(won, s) := try_acquire_owner s in Ok (set_pc t (if won : bool then p else q) s)).
Proof.
  intros Hi Hh Hpl Hlook Hp Ho Hhp Hd Hr Hq Hhq Hpq Hoq. unfold try_acquire_owner.
  pose proof (free_token _ _ _ Hi) as Hfree.
  destruct (l_state s) eqn:E; [exists (With t)|exists tok..].
  - destruct Hfree as [Htok _]. rewrite (Htok eq_refl) in Hi. by apply inv_win.
  - apply inv_move; try done. intros w _ _ [Hw|[Hw _]]; [by apply Hlook in Hw|by apply Hfree in Hw].
  - apply inv_move; try done. intros w _ _ [Hw|[Hw _]]; [by apply Hlook in Hw|by apply Hfree in Hw].
Qed.

Lemma safe_look kind tok s t w x :
  inv kind tok s → l_tasks s t = Look w → safe kind (step kind s (t, x)).
Proof.
  intros Hi Ht. unfold_step. rewrite Ht. exists tok. destruct (l_state s) eqn:E.
  - apply (free_token _ _ _ Hi) in E as ->. apply inv_move; try done; rewrite Ht; try done. naive_solver.
  - apply inv_move; try done; rewrite Ht; try done. intros v Hq.
    rewrite (i_state _ _ _ Hi) in E. destruct tok as [|u|]; [done| |done]. unfold with_token in Hq.
    by destruct (l_tasks s u).
  - done.
Qed.

Lemma safe_flag kind tok s t w p :
  inv kind tok s → l_tasks s t = CheckFlag w ∨ l_tasks s t = Poll w → p = Poll w ∨ p = Park w →
  safe kind (Ok (set_pc t (if is_signaled (l_cells s w) then Critical else p) s)).
Proof.
  intros Hi Ht Hp. destruct (is_signaled (l_cells s w)) eqn:E; [exists (With t); by eapply inv_claim|].
  exists tok. destruct Ht as [Ht|Ht], Hp as [-> | ->]; apply inv_move; try done; rewrite Ht; try done; naive_solver.
Qed.

(** The steps of the holder. *)
Lemma safe_give kind s t w x : inv kind (With t) s → l_tasks s t = Give w → safe kind (step kind s (t, x)).
Proof.
  intros Hi Ht. unfold_step. rewrite Ht.
  assert (Hw : l_waiters s = []) by (apply (i_empty _ _ _ Hi); cbn; by rewrite Ht).
  assert (Hin : w ∈ l_queue s).
  { pose proof (o_place _ _ _ _ (i_owners _ _ _ Hi) t w) as Hp. cbn in Hp. unfold line in Hp.
    rewrite Ht, Hw in Hp. specialize (Hp eq_refl). set_solver. }
  destruct (l_queue s) as [|v q] eqn:E; [set_solver|]. exists (With t).
  pose proof (i_state _ _ _ Hi) as Est. cbn in Est. rewrite Ht in Est.
  eapply inv_keep; try done; rewrite ?Ht, ?E; done.
Qed.

Lemma safe_collect kind s t x : inv kind (With t) s → l_tasks s t = Collect → safe kind (step kind s (t, x)).
Proof.
  intros Hi Ht. pose proof (i_state _ _ _ Hi) as Est. pose proof (i_fair _ _ _ Hi) as Hf.
  destruct s as [st qu ws c cells n tasks]; cbn in *. rewrite Ht in *. cbn in *. exists (With t).
  destruct kind, qu as [|v q]; eapply inv_keep; try done; cbn; rewrite ?Ht; try done; cbn; try naive_solver.
  all: solve_Permutation.
Qed.

Lemma safe_select kind s t x : inv kind (With t) s → l_tasks s t = Select → safe kind (step kind s (t, x)).
Proof.
  intros Hi Ht. unfold_step. rewrite Ht.
  pose proof (i_state _ _ _ Hi) as Est. cbn in Est. rewrite Ht in Est. pose proof (i_fair _ _ _ Hi) as Hf.
  destruct (l_waiters s) as [|w l] eqn:E.
  { exists (With t). eapply inv_keep; try done; rewrite ?Ht; try done. by right. }
  destruct (pick kind x s) as [[v s']|] eqn:Hp.
  - exists (With t). apply pick_spec in Hp as (Hl & Et & Ec & En & Eq & Es).
    eapply (inv_keep kind s (set_pc t (Transfer v) s') t (Transfer v)); try done; try (by rewrite Ht).
    + change (<[t := Transfer v]> (l_tasks s') = <[t := Transfer v]> (l_tasks s)). by rewrite Et.
    + change (l_state s' = Releasing). by rewrite Es.
    + rewrite Ht. change (v :: l_queue s' ++ l_waiters s' ≡ₚ l_queue s ++ l_waiters s).
      rewrite Eq, <- Hl. solve_Permutation.
    + intros Hk. destruct (Hf Hk) as [Hw _]. congruence.
  - destruct kind; [done..|]. destruct (pick_aware x s) as [? ?]; [by rewrite E|congruence].
Qed.

Lemma safe_hold kind s t x :
  inv kind (With t) s → l_tasks s t = Critical ∨ (∃ v, l_tasks s t = Transfer v) → safe kind (step kind s (t, x)).
Proof.
  intros Hi Ht. pose proof (i_state _ _ _ Hi) as Est. pose proof (i_fair _ _ _ Hi) as Hf.
  cbn in Est. unfold_step. destruct Ht as [Ht|[v Ht]]; rewrite Ht in *.
  - rewrite bool_decide_true by done. exists (With t). eapply inv_keep; try done; rewrite ?Ht; try done; naive_solver.
  - exists (With t). eapply inv_keep; try done; rewrite ?Ht; try done; naive_solver.
Qed.

Lemma safe_take_back kind tok s t w x :
  inv kind tok s → l_tasks s t = TakeBack w → safe kind (step kind s (t, x)).
Proof.
  intros Hi Ht. assert (Ho : own (l_tasks s t) = Some w) by by rewrite Ht.
  pose proof (i_cell _ _ _ Hi t w Ho) as Hc. rewrite Ht in Hc. destruct Hc as (Hwf & Hfl & Hg).
  unfold_step. rewrite Ht. unfold take_runtime. rewrite Hwf. exists tok.
  apply inv_wait; [done..| |done|by rewrite Ht|done|by rewrite Hg]. rewrite Ht. by right.
Qed.

Lemma safe_park kind tok s t w x :
  inv kind tok s → l_tasks s t = Park w → safe kind (step kind s (t, x)).
Proof.
  intros Hi Ht. assert (Ho : own (l_tasks s t) = Some w) by by rewrite Ht.
  pose proof (i_cell _ _ _ Hi t w Ho) as Hc. rewrite Ht in Hc.
  unfold_step. rewrite Ht. exists tok.
  apply inv_wait; [done..| |done|by rewrite Ht|done|by rewrite <- Hc]. rewrite Ht. by right.
Qed.

Lemma inv_step kind tok s l : inv kind tok s → safe kind (step kind s l).
Proof.
  intros Hi. destruct l as [t x]. destruct (l_tasks s t) eqn:Ht.
  all: try (assert (Hh : tok = With t) by (apply (inv_with _ _ _ _ Hi); by rewrite Ht); subst tok).
  all: eauto using safe_look, safe_give, safe_collect, safe_select, safe_hold, safe_park, safe_take_back.
  all: unfold_step; rewrite Ht.
  - destruct (ch_try x); [by eapply safe_acquire; rewrite ?Ht|].
    exists tok. apply inv_move; try done; rewrite ?Ht; try done; naive_solver.
  - by eapply safe_acquire; rewrite ?Ht.
  - exists tok. by apply inv_enqueue.
  - by eapply safe_acquire; rewrite ?Ht.
  - exists (Granted v). by apply inv_signal.
  - destruct (inv_take _ _ _ _ _ _ Hi Ht) as (s' & -> & Hs'). by exists tok.
  - eapply safe_flag; eauto.
  - eapply safe_flag; eauto.
  - exists tok. by apply inv_park_swap.
  - done.
  - exists InLock. by apply inv_finish.
Qed.

Lemma lock_run_safe kind ls tok s : inv kind tok s → safe kind (lock_run kind ls s).
Proof.
  revert tok s. induction ls as [|l ls IH]; intros tok s Hi; [by exists tok|].
  cbn. pose proof (inv_step kind tok s l Hi) as Hs. destruct (step kind s l) as [s'| | |]; [|done..].
  destruct Hs as [tok' Hs]. by apply (IH tok').
Qed.

Lemma lock_run_inv kind ls s : lock_run kind ls lock_new = Ok s → ∃ tok, inv kind tok s.
Proof. intros H. pose proof (lock_run_safe kind ls InLock lock_new (inv_new kind)) as Hs. by rewrite H in Hs. Qed.

(** ** Progress *)

(** A task that is not idle, suspended or spinning has a step, and makes it. *)
Definition can_move (s : Lock) (u : nat) : Prop :=
  match l_tasks s u with
  | Idle | Parked _ => False
  | Look _ => l_state s ≠ Releasing
  | _ => True
  end.

Definition moves (kind : LockKind) (s : Lock) (u : nat) : Prop :=
  ∃ x s', step kind s (u, x) = Ok s' ∧
    (l_tasks s' u ≠ l_tasks s u ∨ (length (l_queue s') < length (l_queue s))%nat).

Definition first_chance : Chance := {| ch_index := 0; ch_load := λ _, 0; ch_try := false |}.

Lemma moves_to kind s s' u x p :
  step kind s (u, x) = Ok (set_pc u p s') → p ≠ l_tasks s u → moves kind s u.
Proof.
  intros Hs Hp. exists x, (set_pc u p s'). split; [done|]. left.
  change (<[u := p]> (l_tasks s') u ≠ l_tasks s u). by rewrite fn_lookup_insert.
Qed.

Lemma pick_some kind s : l_waiters s ≠ [] → is_Some (pick kind first_chance s).
Proof.
  intros Hw. destruct kind; [..|by apply pick_aware].
  all: unfold pick; cbn; destruct (l_waiters s); [done|by eexists].
Qed.

Lemma moves_select kind s u : l_tasks s u = Select → moves kind s u.
Proof.
  intros Hu. destruct (l_waiters s) eqn:Hw.
  - apply (moves_to kind s s u first_chance Finish); [|congruence]. unfold_step. by rewrite Hu, Hw.
  - destruct (pick_some kind s) as [[v s'] Hp]; [by rewrite Hw|].
    apply (moves_to kind s s' u first_chance (Transfer v)); [|congruence]. unfold_step. by rewrite Hu, Hw, Hp.
Qed.

Lemma moves_collect kind s u : l_tasks s u = Collect → moves kind s u.
Proof.
  intros Hu. destruct (l_queue s) as [|v q] eqn:Hq.
  - eapply (moves_to kind s s u first_chance (match kind with FairLock => Finish | _ => Select end)).
    + unfold_step. rewrite Hu, Hq. by destruct kind.
    + by rewrite Hu; destruct kind.
  - destruct kind; [eapply (moves_to _ s _ u first_chance (Transfer v)); [unfold_step; by rewrite Hu, Hq|congruence]|..].
    all: exists first_chance; eexists; unfold_step; rewrite Hu, Hq; split; [done|]; right; apply Nat.lt_succ_diag_r.
Qed.

Lemma moves_take_back kind tok s u w : inv kind tok s → l_tasks s u = TakeBack w → moves kind s u.
Proof.
  intros Hi Hu. pose proof (i_cell _ _ _ Hi u w) as Hc. rewrite Hu in Hc. destruct Hc as [Hwf _]; [done|].
  eapply (moves_to _ s _ u first_chance (Poll w)); [|congruence]. unfold_step; unfold take_runtime. by rewrite Hu, Hwf.
Qed.

Lemma moves_acquire kind s u p q :
  step kind s (u, first_chance) = (let '(won, s) := try_acquire_owner s in Ok (set_pc u (if won : bool then p else q) s)) →
  p ≠ l_tasks s u → q ≠ l_tasks s u → moves kind s u.
Proof.
  intros Hs Hp Hq. unfold try_acquire_owner in Hs.
  destruct (l_state s); by eapply moves_to.
Qed.

Lemma can_move_moves kind tok s u : inv kind tok s → can_move s u → moves kind s u.
Proof.
  intros Hi Hc. unfold can_move in Hc. destruct (l_tasks s u) eqn:Hu; try done.
  all: eauto using moves_select, moves_collect, moves_take_back.
  all: try (eapply moves_acquire; [unfold_step; by rewrite Hu|by rewrite Hu..]).
  all: try (eapply (moves_to _ _ _ _ first_chance); [unfold_step; by rewrite Hu|by rewrite Hu]).
  all: try (eapply (moves_to _ _ _ _ first_chance); [unfold_step; by rewrite Hu|rewrite Hu; by case_match]).
  - destruct (l_state s) eqn:E; [..|done].
    all: eapply (moves_to _ _ _ _ first_chance); [unfold_step; by rewrite Hu, E|by rewrite Hu].
  - destruct (l_queue s) eqn:E.
    all: eapply (moves_to _ _ _ _ first_chance); [unfold_step; by rewrite Hu, E|by rewrite Hu].
  - eapply (moves_to _ _ _ _ first_chance); [unfold_step; by rewrite Hu|rewrite Hu]. case_match; [done|by destruct k].
  - destruct (inv_take _ _ _ _ _ _ Hi Hu) as (s' & Hs & _).
    apply (moves_to kind s s' u first_chance (after_signal k)); [unfold_step; by rewrite Hu, Hs|by rewrite Hu; destruct k].
  - eapply (moves_to _ _ _ _ first_chance Collect); [|by rewrite Hu]. unfold_step. rewrite Hu.
    apply inv_with with (t := u) in Hi as Htok; [|by rewrite Hu]. subst tok.
    pose proof (i_state _ _ _ Hi) as E. cbn in E. rewrite Hu in E. by rewrite bool_decide_true.
Qed.

(** ** The locks *)

(** C9: in every schedule of any number of tasks on a fair, unfair or
    reactor-aware lock, at most one task has the lock or releases it, so that
    the data and the vector of waiters are never shared, and neither the
    assertion of [start_release] nor an [unwrap] ever fails. *)
Theorem lock_mutual_exclusion kind ls :
  match lock_run kind ls lock_new with
  | Ok s => ∀ t t', holds (l_tasks s t) = true → holds (l_tasks s t') = true → t = t'
  | Err _ => True
  | Panic | Diverge => False
  end.
Proof.
  pose proof (lock_run_safe kind ls InLock lock_new (inv_new kind)) as Hs.
  destruct (lock_run kind ls lock_new) as [s| | |]; [|done..].
  destruct Hs as [tok Hi]. intros t t' Ht Ht'. apply (inv_with _ _ _ _ Hi) in Ht, Ht'. congruence.
Qed.

(** C10: no wake-up is lost: as long as a task waits for the lock, suspended or
    not, some task that is neither idle, suspended nor spinning can move. *)
Theorem lock_no_lost_wakeup kind ls s t w :
  lock_run kind ls lock_new = Ok s → own (l_tasks s t) = Some w →
  ∃ u x s', l_tasks s u ≠ Idle ∧ step kind s (u, x) = Ok s' ∧
    (l_tasks s' u ≠ l_tasks s u ∨ (length (l_queue s') < length (l_queue s))%nat).
Proof.
  intros [tok Hi]%lock_run_inv Ht.
  assert (∃ u, can_move s u) as [u Hu].
  2: { destruct (can_move_moves _ _ _ _ Hi Hu) as (x & s' & Hs & Hm). exists u, x, s'. split_and!; try done.
       intros E. unfold can_move in Hu. by rewrite E in Hu. }
  destruct tok as [|u|v].
  - assert (Hin : w ∈ l_queue s).
    { pose proof (o_place _ _ _ _ (i_owners _ _ _ Hi) t w Ht) as Hp.
      unfold line in Hp. rewrite (i_empty _ _ _ Hi) in Hp by done. set_solver. }
    destruct (i_seen _ _ _ Hi eq_refl w Hin) as [u Hu]. exists u. unfold can_move.
    destruct Hu as [-> | [_ ->]]; [|done]. by rewrite (i_state _ _ _ Hi).
  - exists u. pose proof (proj2 (i_hold _ _ _ Hi u) eq_refl). unfold can_move. by destruct (l_tasks s u).
  - destruct (o_task _ _ _ _ (i_owners _ _ _ Hi) v) as [u Hu]; [set_solver|].
    destruct (decide (l_tasks s u = Parked v)) as [Hp|Hp].
    + destruct (i_parked _ _ _ Hi u v Hp eq_refl) as (u' & k & Hk). exists u'. unfold can_move. by rewrite Hk.
    + exists u. unfold can_move. destruct (l_tasks s u) eqn:E; simplify_eq/=; try done.
      by rewrite (i_state _ _ _ Hi).
Qed.

(** C21: whoever signals a waiter of the fair lock signals the one that has
    waited longest: waiters are numbered in the order in which they queued. *)
Theorem fair_lock_fifo ls s u v k t w :
  lock_run FairLock ls lock_new = Ok s → l_tasks s u = SignalTo v k → own (l_tasks s t) = Some w → (v ≤ w)%nat.
Proof.
  intros [tok Hi]%lock_run_inv Hu Ht.
  assert (tok = With u) as -> by (apply (inv_with _ _ _ _ Hi); by rewrite Hu).
  destruct (i_fair _ _ _ Hi eq_refl) as [_ Hs]. pose proof (o_place _ _ _ _ (i_owners _ _ _ Hi) t w Ht) as Hp.
  unfold line in Hs, Hp. rewrite Hu in Hs, Hp. cbn in Hs, Hp. rewrite app_nil_r in Hp.
  apply StronglySorted_inv in Hs as [_ Hs]. apply elem_of_cons in Hp as [->|Hp]; [done|].
  rewrite Forall_forall in Hs. specialize (Hs _ Hp). lia.
Qed.
