(* ===== verification/CoopLockSample.v ===== *)
(** * Runs of the cooperative locks

    Concrete schedules, and one that goes on for ever: a waiter of the
    [ReactorAwareLock] that every release passes over. *)

From stdpp Require Import functions.
From S2P Require Import Prelude CoopLock CoopLockProps.

(** Task 0 takes the lock; a task that comes then is suspended after eight steps. *)
Definition wait_steps (t : nat) : list (nat * Chance) := replicate 8 (t, first_chance).
Definition two_wait : list (nat * Chance) := replicate 2 (0%nat, first_chance) ++ wait_steps 1 ++ wait_steps 2.
Definition first_signaled : list (nat * Chance) := two_wait ++ replicate 3 (0%nat, first_chance).

Lemma lock_no_lost_wakeup_witness :
  match lock_run UnfairLock two_wait lock_new with
  | Ok s => l_tasks s 2 = Parked 1 ∧ ∃ u x s', l_tasks s u ≠ Idle ∧ step UnfairLock s (u, x) = Ok s' ∧
      (l_tasks s' u ≠ l_tasks s u ∨ (length (l_queue s') < length (l_queue s))%nat)
  | _ => False
  end.
Proof.
  assert (H : match lock_run UnfairLock two_wait lock_new with Ok s => l_tasks s 2 = Parked 1 | _ => False end)
    by (vm_compute; reflexivity).
  destruct (lock_run UnfairLock two_wait lock_new) as [s| | |] eqn:E; [|exact H..].
  split; [exact H|]. apply (lock_no_lost_wakeup UnfairLock two_wait s 2 1 E). rewrite H. reflexivity.
Defined.

Lemma fair_lock_fifo_witness :
  match lock_run FairLock first_signaled lock_new with
  | Ok s => l_tasks s 0 = SignalTo 0 None ∧ l_tasks s 2 = Parked 1 ∧ (0 ≤ 1)%nat
  | _ => False
  end.
Proof.
  assert (H : match lock_run FairLock first_signaled lock_new with
              | Ok s => (l_tasks s 0, l_tasks s 2) = (SignalTo 0 None, Parked 1)
              | _ => False
              end) by (vm_compute; reflexivity).
  destruct (lock_run FairLock first_signaled lock_new) as [s| | |] eqn:E; [|exact H..].
  apply pair_equal_spec in H as [H0 H2]. split; [exact H0|]. split; [exact H2|].
  apply (fair_lock_fifo first_signaled s 0 0 None 2 1 E H0). rewrite H2. reflexivity.
Defined.

(** ** Starvation *)

Lemma min_index_first load l i best key :
  (∀ w, w ∈ l → key ≤ load w) → min_index load l i best key = best.
Proof.
  revert i. induction l as [|w l IH]; intros i Hl; cbn; [done|].
  specialize (Hl w ltac:(set_solver)) as Hw. destruct (Z.ltb_spec (load w) key); [lia|]. apply IH. set_solver.
Qed.

(** Among reactors that are equally loaded the first of the vector is picked. *)
Lemma aware_pick_first w l c : ∃ c', aware_pick (λ _, 0) (w :: l) c = (0%nat, c').
Proof.
  unfold aware_pick. eexists. f_equal. destruct (Nat.min _ _); cbn; [done|]. by apply min_index_first.
Qed.

(** A schedule, the waiters it hands the lock to, and where it ends. *)
Definition runs (kind : LockKind) (ls : list (nat * Chance)) (s : Lock) (vs : list nat) (s' : Lock) : Prop :=
  lock_run kind ls s = Ok s' ∧ handed kind ls s = vs.

Lemma runs_cons kind t x ls s p s1 vs s' :
  l_tasks s t = p → step kind s (t, x) = Ok s1 → runs kind ls s1 vs s' →
  runs kind ((t, x) :: ls) s (match p with Transfer v => [v] | _ => [] end ++ vs) s'.
Proof. intros <- Hs [Hr Hh]. by split; cbn [lock_run handed fst]; rewrite Hs, ?Hh. Qed.

Lemma runs_plain kind t x ls s p s1 vs s' :
  l_tasks s t = p → match p with Transfer _ => False | _ => True end → step kind s (t, x) = Ok s1 →
  runs kind ls s1 vs s' → runs kind ((t, x) :: ls) s vs s'.
Proof. intros Hp Hn Hs Hr. pose proof (runs_cons kind t x ls s p s1 vs s' Hp Hs Hr) as H. by destruct p. Qed.

Lemma runs_app kind ls1 ls2 s vs1 s1 vs2 s2 :
  runs kind ls1 s vs1 s1 → runs kind ls2 s1 vs2 s2 → runs kind (ls1 ++ ls2) s (vs1 ++ vs2) s2.
Proof.
  intros [Hr <-] H2. revert s Hr. induction ls1 as [|l ls1 IH]; intros s; cbn; [by intros [= ->]|].
  destruct (step kind s l) as [s'| | |] eqn:E; [|done..]. intros Hr.
  destruct (IH s' Hr) as [Hr' Hh']. split; cbn; rewrite E; [done|]. by rewrite Hh', app_assoc.
Qed.

(** Task [a] has the lock; [y] and [b] are in the vector, [z] is in the queue. *)
Record starving (s : Lock) (a y z b wy wz wb : nat) : Prop := {
  sv_state : l_state s = Owned;
  sv_queue : l_queue s = [wz];
  sv_waiters : l_waiters s = [wy; wb];
  sv_tasks : l_tasks s a = Critical ∧ l_tasks s y = Parked wy ∧ l_tasks s z = Parked wz ∧ l_tasks s b = Parked wb;
  sv_cells : l_cells s wy = {| waiting_future := Some y; is_signaled := true |} ∧
             l_cells s wz = {| waiting_future := Some z; is_signaled := true |};
  sv_fresh : (wy < l_next s)%nat ∧ (wz < l_next s)%nat ∧ wy ≠ wz;
  sv_nodup : NoDup [a; y; z; b];
}.

(** [a] releases and comes back; [y] gets the lock. *)
Definition round (a y : nat) : list (nat * Chance) :=
  replicate 7 (a, first_chance) ++ [(y, first_chance)] ++ replicate 8 (a, first_chance).

Ltac look_up := cbn -[aware_pick]; unfold constant; repeat first [rewrite fn_lookup_insert|rewrite fn_lookup_insert_ne by (done || lia)];
  repeat match goal with H : ?f ?w = _ |- context [?f ?w] => rewrite H end.
Ltac hop := eapply runs_plain; [look_up; reflexivity|done|unfold_step; unfold take_runtime; look_up; cbn -[aware_pick]; reflexivity|].

Lemma starving_round s a y z b wy wz wb :
  starving s a y z b wy wz wb →
  ∃ s', runs ReactorAwareLock (round a y) s [wy] s' ∧ starving s' y z a b wz (l_next s) wb.
Proof.
  intros [Hst Hq Hw (Ha & Hy & Hz & Hb) (Hcy & Hcz) (Hfy & Hfz & Hyz) Hnd].
  destruct s as [st q ws c cells n tasks]; cbn in *; subst.
  destruct (aware_pick_first wy [wb; wz] c) as [c' Hc].
  assert (a ≠ y ∧ a ≠ z ∧ a ≠ b ∧ y ≠ z ∧ y ≠ b ∧ z ≠ b) as (Hay & Haz & Hab & Hyz' & Hyb & Hzb).
  { rewrite !NoDup_cons in Hnd. set_solver. }
  eexists. split.
  - unfold round. cbn [replicate app].
    do 4 hop.
    eapply (runs_cons _ _ _ _ _ (Transfer wy) _ []); [look_up; reflexivity|unfold_step; look_up; reflexivity|].
    do 11 hop. split; reflexivity.
  - constructor; look_up; try done.
    + split_and!; lia.
    + apply (NoDup_Permutation_proper _ [a; y; z; b]); [solve_Permutation|exact Hnd].
Qed.

Lemma starving_rounds n s a y z b wy wz wb :
  starving s a y z b wy wz wb → wb ≠ wy → wb ≠ wz → (wb < l_next s)%nat →
  ∃ ls vs s', runs ReactorAwareLock ls s vs s' ∧ Forall (λ l, l.2 = first_chance) ls ∧
    length vs = n ∧ wb ∉ vs ∧ l_tasks s' b = Parked wb.
Proof.
  revert s a y z wy wz. induction n as [|n IH]; intros s a y z wy wz Hs Hy Hz Hb.
  - exists [], [], s. split_and!; try done; [set_solver|]. apply (sv_tasks _ _ _ _ _ _ _ _ Hs).
  - destruct (starving_round _ _ _ _ _ _ _ _ Hs) as (s1 & Hr & Hs1).
    assert (wb < l_next s1)%nat by (pose proof (sv_fresh _ _ _ _ _ _ _ _ Hs1); lia).
    destruct (IH s1 y z a wz (l_next s) Hs1) as (ls & vs & s' & Hr' & Hc & Hl & Hn & Hp); [done|lia|done|].
    exists (round a y ++ ls), ([wy] ++ vs), s'. split_and!; [by eapply runs_app| | |set_solver|done].
    + apply Forall_app. split; [by repeat constructor|done].
    + cbn. by rewrite Hl.
Qed.

(** Task 0 has handed the lock to task 1 and is back in the queue; tasks 3 and 2 are left in the vector. *)
Definition crowd : list (nat * Chance) :=
  two_wait ++ wait_steps 3 ++ replicate 9 (0%nat, first_chance) ++ [(1%nat, first_chance)] ++ wait_steps 0.

(** C34: four tasks use the reactor-aware lock, all reactors are equally loaded,
    and one of them waits for ever: for every [n] there is a schedule in which
    the lock is handed over [n] times and never to it. *)
Theorem reactor_aware_starves :
  ∃ s, lock_run ReactorAwareLock crowd lock_new = Ok s ∧ l_tasks s 2 = Parked 1 ∧
    ∀ n, ∃ ls vs s', runs ReactorAwareLock ls s vs s' ∧ Forall (λ l, l.2 = first_chance) ls ∧
      length vs = n ∧ 1%nat ∉ vs ∧ l_tasks s' 2 = Parked 1.
Proof.
  assert (H : match lock_run ReactorAwareLock crowd lock_new with
              | Ok s => (l_state s, l_queue s, l_waiters s, l_next s, map (l_tasks s) [1; 3; 0; 2]%nat, map (l_cells s) [2; 3]%nat)
                  = (Owned, [3], [2; 1], 4, [Critical; Parked 2; Parked 3; Parked 1],
                     [{| waiting_future := Some 3; is_signaled := true |}; {| waiting_future := Some 0; is_signaled := true |}])%nat
              | _ => False
              end) by (vm_compute; reflexivity).
  destruct (lock_run ReactorAwareLock crowd lock_new) as [s| | |] eqn:E; [|destruct H..].
  exists s. split; [reflexivity|]. clear E. cbn [map] in H.
  injection H as Hst Hq Hw Hn Ht1 Ht3 Ht0 Ht2 Hc2 Hc3.
  split; [exact Ht2|]. intros n.
  apply (starving_rounds n s 1 3 0 2 2 3 1); [|lia..]. constructor; try done; [lia|].
  by apply (bool_decide_unpack _).
Qed.
